(* ===== verification/_CoqProject ===== *)
-Q . S2P
Prelude.v
Varint.v
UnknownFields.v
BlockAlloc.v
Arena.v
UpbArena.v
ObjCache.v
CacheThreads.v
Serialize.v
PerlNumbers.v
Convert.v
Names.v
Handles.v
Repeated.v
HashTable.v
MapContainer.v
Accessors.v
Containers.v
Wrappers.v
DescriptorPool.v
ProtocNames.v
ProtocModule.v
Plugin.v
Descriptors.v
DescriptorApi.v
Messages.v
MessageOps.v
Bindings.v
ExtensionDict.v
Utils.v
Registry.v
ContainerObjects.v
FieldXsubs.v
TmpfsArena.v
ArenaRaw.v
ManagedArenas.v
Auth.v
Nghttp2.v
Loading.v
Tap.v
ConvertTests.v
RuntimeTests.v
ObjectTests.v
