(* ===== verification/Prelude.v ===== *)
(** * Google client libraries for Perl: the C layer of the protobuf runtime and the
    protoc plug-in

    A verification of the C and C++ sources under [src/Protobuf]: the extension module
    that gives Perl protobuf messages on top of the vendored library upb
    ([src/Protobuf/xs], with the parts of [src/Protobuf/vendor/upb] it computes with), and
    the plug-in that writes Perl modules for [.proto] files ([src/Protobuf/protoc]); and of
    the two other extension modules, keys and signatures ([src/Google-Auth/XS.xs]) and the
    HTTP/2 engine of the gRPC client ([src/Google-gRPC/NGHTTP2.xs]).
    This file holds what all the others share and is the root of the development.

    ** The program

    A Perl program loads generated modules (written by the plug-in) that embed their
    serialized descriptor.  Loading one adds it to a _descriptor pool_; messages of its
    types are C structures in _arenas_, which Perl reference counts keep alive.  Each C
    structure Perl sees has one _wrapper_, a blessed hash found again through the _object
    cache_.  Fields are read and written by accessors that convert between Perl scalars
    and upb values; repeated and map fields have containers of their own; extensions and
    unknown fields live in the message's auxiliary array.  Messages are parsed and
    written as wire data, JSON or text, also one after the other on a handle.  Apart from
    these, a client signs and verifies tokens with keys that are Perl objects around
    OpenSSL's, and sends requests through sessions around nghttp2's.

    ** The model

    A function of the source is a definition of the same name without its [PerlUpb_] or
    [upb_] prefix.  Pure code is a function; a call that can raise or reach undefined
    behaviour answers an [outcome] ([Ret], [Croak], [Fault]); a call with state is a [cmd]
    from a record of the state it can touch to an outcome and a state, which a [Croak]
    keeps (Perl can catch exceptions).  Machine integers are [Z] with the wrap written
    out ([u32], [u64], [i32], ...), buffers are lists of codes, addresses are [Z] with 0
    for NULL, heaps are finite maps from addresses.  What the operating system, Perl's
    allocator or I/O layer answer is an argument, and theorems are for all answers.

    ** The files

    - [Varint] (set.c [decode_varint], serialize.c [WriteVarint]): decoding, the bytes
      written, 64-bit wrap and the limit of ten bytes.
    - [UnknownFields] (unknown_fields/set.c over upb/message/message.c): the auxiliary
      array with its chunks of raw wire data; [Add], [GetData], [Clear], [Size],
      [DeleteTag] with the scanner of records.  What [DeleteTag] leaves, on every input,
      and that it reads inside its chunk.
    - [BlockAlloc] (protobuf/arena_tmpfs.c, arena.h): the linear allocator with canaries;
      blocks never overlap, overruns are found.
    - [Arena] (protobuf/arena.c), Modules [Stats], [Pool], [Wrapper]: the counting
      allocator, the registry's transient arena, the life of Perl's arena objects through
      detaching and attaching.  [Registry] (protobuf/registry.c, registry.h, the start of
      obj_cache.c): the structure these and the cache are reached through, made when first
      asked for; [Pool] runs on it.
    - [UpbArena] (upb/mem/arena.c, mem/internal/arena.h, mem/alloc.h): upb's arena over any
      allocator; its clients have buffers of their own that keep their bytes, and freeing
      it gives every block back once.  [BlockAlloc] and [Arena.Stats] are allocators.
    - [ArenaRaw] (protobuf/arena.c): the C structures behind them and their statistics.
      [ManagedArenas]: the same with upb's arenas and their allocators in them, on one heap.
    - [TmpfsArena] (protobuf/arena_tmpfs.c): descriptors, mappings (those between guard
      pages with their sizes), structures and blocks of file- and memory-backed arenas;
      creating one and its C destructor are balanced on all paths.
    - [ObjCache] (protobuf/obj_cache.c): the cache of wrappers with its eviction queue,
      audit ring, and the locks of a threaded build as a step relation.  [CacheThreads]: the
      same calls as sequences of single accesses to memory, made by any number of threads
      in any order.
    - [Wrappers] (protobuf/utils.c, descriptor/base.h): Perl hashes with reference counts,
      magic and weak references over [ObjCache].
    - [Messages] (protobuf/message.c, message/message.c): messages in arenas and their
      objects; who holds an arena.  [MessageOps] (message/*.c, repeated/composite.c):
      merge, copy, clear, compare, the walk over set fields, the audit.
      [Bindings] (lib/Protobuf/Message.xs.part): the functions Perl calls to make, parse,
      migrate, detach, attach and coerce message objects, and the Perl strings that the
      fields of a message parsed without copying point into.
      [FieldXsubs] (the same file over message/access.c): those that read, set, test and
      clear one field, by its name or by the object of its definition.
    - [ExtensionDict] (extension_dict/*.c): the dictionary of extensions and its iterator.
    - [PerlNumbers], [Convert] (convert/sv_to_upb.c, upb_to_sv.c): Perl's numbers, and
      conversions in both directions for every type, one value or many, with limits.
    - [Names] (protobuf/utils.c): names of classes and messages, with their fixed buffers.
    - [Handles], [Repeated], [HashTable], [MapContainer], [ContainerObjects]
      (repeated/repeated.c, map/*.c over upb/message/array.c, map.h and hash/common.c):
      the growable array, the chained scatter table, map fields with their iterator, and
      the Perl objects of both.
    - [Accessors] (message/access.c, protobuf/fast_accessors.c): access to one field, and
      the installed accessors that remember what they answered.
    - [Serialize] (message/serialize.c): parsing and writing over interfaces for the
      codecs and for handles.
    - [Containers] (descriptor_containers/*.c): sequences and maps of descriptors, over
      definitions that can be freed under them.
    - [DescriptorPool] (descriptor_pool/*.c, upb/reflection/def_pool.c): the symbol table
      with its undo, and the Perl objects of pools.
    - [Descriptors] (descriptor/*.c): wrappers of definitions, names of types, look-up by
      name, fingerprints and their registry.
    - [Utils] (protobuf/utils.c, protobuf.c): range checks with vector instructions,
      field vectors, processor features, errors with context, start-up.
    - [DescriptorApi] (descriptor/*.c and the accessors of Descriptor/*.xs.part): what
      definitions answer, by name and by index, and the walk over a file with it.
    - [ProtocNames], [ProtocModule] (protoc/generator.cc, helpers.cc): names and tables of
      types, and the text of the generated modules.  [Plugin] (plugin_main.cc, [Generate]):
      the program around it, with the arena its answer is built in.
    - [Loading] (the [BEGIN] block of generator.cc, and what Perl does with it): the
      modules of a response loaded by the runtime, [ProtocModule] over [DescriptorPool].
    - [Auth] (Google-Auth/XS.xs): keys, signatures and the mock certificate.
    - [Nghttp2] (Google-gRPC/NGHTTP2.xs): sessions, callbacks and the bodies of requests.
    - [Tap] (t/c/upb-perl-test.h): the harness of the C tests, as commands that append the
      lines they print, and its pattern matcher.  [ConvertTests] (t/c/convert/*,
      integration/050_convert.c), [RuntimeTests] (t/c/protobuf/obj_cache*.c, utils.c,
      t/c/descriptor_containers/*.c, t/c/unknown_fields/set.c, integration/150_map.c) and
      [ObjectTests] (integration/110_descriptor_pool.c, 130_extension_dict.c): test
      programs written with it, run on the definitions of the other files.

    Interfaces are classes: [PerlNum] (Perl's arithmetic), [Upb] with [UpbLaws] and
    [UpbCodec] with [CodecLaws] (the codecs: parsing undoes writing), [PerlIO] with the
    laws of handles that read or write all they are asked to, [upb_alloc] with [AllocLaws] (what an
    arena gets its blocks from), [Table] with [TableLaws]
    (the two kinds of tables under a map; [MapContainer] proves its theorems from the
    laws, which the tables of [HashTable] satisfy), [Element] (elements of arrays),
    [FieldValues] (conversions, for [Accessors], [ExtensionDict] and [FieldXsubs]).  Where the other
    side is not in the sources (codecs, handles), a small concrete instance is used by
    the witnesses.

    ** What is shown

    - Refinement: maps, hash tables, repeated fields, extension dictionaries, the fields of
      a message and the audit log behave as finite maps, lists and a window of a history;
      an arena as a list of separate buffers, and all arenas of Perl's objects together.
    - Round trips: streams of messages, scalars through upb values, names, the embedded
      descriptor of a generated module.
    - Invariants of histories, by induction over every sequence of calls: the block
      allocator, the arenas' objects, wrappers, message objects with their arenas,
      descriptor pools, containers of descriptors and the registry; none frees twice, uses
      what was freed, or keeps what nobody holds.  For messages the calls are those of the
      Perl interface, and the strings a message was parsed from without copying stay
      readable while an object of its arena lives.  The same of OpenSSL's objects on
      every path of one call.
    - Composition: what the plug-in writes for a request, installed and loaded in any
      order, loads without a failure and defines every type of the files required, under the
      class the generated code calls.
    - Equivalences: fast accessors and plain access, batch and checked conversion, vector
      and scalar checks, the classes the plug-in writes and those the runtime expects.
    - Exact outcomes, errors included: [DeleteTag] on any unknown data, [CopyFrom] between
      message objects, reading a handle to its end, text in two passes, adding sets of
      files, the limits of [int32].
    - Threads: in every run of the cache the audit ring takes whole events in one order in
      which each thread's are those of its calls alone, and all calls but [Clear] (which
      can deadlock with an evicting [Add]) return within a bounded number of accesses.
    - Termination: the conversion of values that do not hold themselves, the plug-in's
      reading of its input and its loop over paths; the stress test of the cache, in every
      order of the accesses of its threads.
    - The repository's tests: no check of the programs modelled fails on the definitions
      (several programs plan another number of checks than they make), and the pattern
      matcher of the harness finds a match exactly when the pattern describes one.
    - Examples after the theorems evaluate the definitions where the code goes wrong.

    Theorems about histories say which calls they are of.  Where a call is left out, or a
    condition asked for, because the code goes wrong without it, an example shows how:
    attaching a message to a foreign arena or a raw arena twice, coercing to a class of no
    message, a second structure around a pool, a container whose definition is freed or an
    index out of range, the strings of pending request bodies changed, a copy of parsed
    input that does not share, a key of the cache queued twice, names that the plug-in and
    the runtime make classes of differently.

    ** Bounds

    Loops that are not structural take fuel, and their theorems give fuel that is enough:
    the length of the input for scanners and printers ([scrub_chunk], [collapse], the
    base-64 groups), the number of entries for the walks of the hash table, the number
    of objects for the cascade of [REFCNT_dec], since each step removes one, the number of
    files for nested [require]s, the depth of nesting for the walk over messages.  Sizes are
    64-bit; theorems that need a sum not to wrap say so.

    ** Not modelled

    - upb's wire decoder and encoder, JSON and text formats, mini-tables, and the builder
      of definitions: vendored code; what the sources use of it is a parameter.  Of
      upb's arena, fusing, references between arenas and a first block given by the
      caller; the files other than [UpbArena] and [ManagedArenas] see an arena as an
      address that is live or not.
    - OpenSSL and nghttp2 themselves: what their calls answer is an argument.
    - The other bindings in [*.xs.part] (most pass their arguments on), and the Perl
      modules.
    - Global destruction beyond the [PL_dirty] tests, threads outside the cache, and memory
      models weaker than sequential consistency.
    - Of the programs under [t/c]: those that parse, print or build definitions (170, 190,
      210 and 220 of the integration tests, and the tests of descriptors), those that
      repeat another under coroutines or sanitizers, the benchmarks, and those that only
      announce what is to be done; of the harness, the variants of [like] that call PCRE
      and [cdiag], which prints when asked to. *)

From Stdlib Require Export ZArith Lia.
From stdpp Require Export strings base numbers option gmap sets list.

#[global] Open Scope Z_scope.

(** ** Outcomes of a C call

    [Ret]: the function returned.  [Croak]: it raised a Perl exception with
    [croak], unwinding with [longjmp].  [Fault]: the C code has undefined
    behaviour at this point (a store past a buffer, a NULL dereference, a
    type-confused read), so nothing is promised about what follows. *)
Inductive outcome (A : Type) : Type :=
  | Ret (a : A)
  | Croak (msg : string)
  | Fault (why : string).
Arguments Ret {_} _.
Arguments Croak {_} _.
Arguments Fault {_} _.

#[export] Instance outcome_ret : MRet outcome := @Ret.
#[export] Instance outcome_bind : MBind outcome := fun A B k m =>
  match m with
  | Ret a => k a
  | Croak msg => Croak msg
  | Fault why => Fault why
  end.
#[export] Instance outcome_fmap : FMap outcome := fun A B f m =>
  match m with
  | Ret a => Ret (f a)
  | Croak msg => Croak msg
  | Fault why => Fault why
  end.

#[export] Instance outcome_eq_dec {A} `{EqDecision A} : EqDecision (outcome A).
Proof. solve_decision. Defined.

(** The call did not reach undefined behaviour. *)
Definition safe {A} (m : outcome A) : Prop :=
  match m with Fault _ => False | _ => True end.

Lemma bind_Ret {A B} (a : A) (k : A → outcome B) : (Ret a ≫= k) = k a.
Proof. done. Qed.

Lemma bind_ret_inv {A B} (m : outcome A) (k : A → outcome B) b :
  (m ≫= k) = Ret b → ∃ a, m = Ret a ∧ k a = Ret b.
Proof. destruct m; simpl; naive_solver. Qed.

Lemma bind_safe {A B} (m : outcome A) (k : A → outcome B) :
  safe m → (∀ a, m = Ret a → safe (k a)) → safe (m ≫= k).
Proof. destruct m; simpl; naive_solver. Qed.

(** ** Calls with state

    [cmd S A]: a call that reads and writes a state of type [S]; the state a
    [Croak] leaves behind is kept, since Perl code can catch the exception. *)
Definition cmd (S A : Type) : Type := S → outcome A * S.

#[export] Instance cmd_ret {S} : MRet (cmd S) := λ A a s, (Ret a, s).
#[export] Instance cmd_bind {S} : MBind (cmd S) := λ A B k m s,
  match m s with
  | (Ret a, s) => k a s
  | (Croak msg, s) => (Croak msg, s)
  | (Fault why, s) => (Fault why, s)
  end.

Definition ccroak {S A} (msg : string) : cmd S A := λ s, (Croak msg, s).
Definition cfault {S A} (why : string) : cmd S A := λ s, (Fault why, s).
Definition cget {S} : cmd S S := λ s, (Ret s, s).
Definition cput {S} (s : S) : cmd S unit := λ _, (Ret tt, s).
Definition cmodify {S} (f : S → S) : cmd S unit := λ s, (Ret tt, f s).
Definition cguard {S} (b : bool) (msg : string) : cmd S unit :=
  if b then mret tt else ccroak msg.

(** A bind whose first part returned. *)
Lemma cbind_ret {S A B} (m : cmd S A) (k : A → cmd S B) s a s' :
  m s = (Ret a, s') → (m ≫= k) s = k a s'.
Proof. intros H. unfold mbind, cmd_bind. by rewrite H. Qed.
Lemma cbind_croak {S A B} (m : cmd S A) (k : A → cmd S B) s msg s' :
  m s = (Croak msg, s') → (m ≫= k) s = (Croak msg, s').
Proof. intros H. unfold mbind, cmd_bind. by rewrite H. Qed.
Lemma cbind_fault {S A B} (m : cmd S A) (k : A → cmd S B) s why s' :
  m s = (Fault why, s') → (m ≫= k) s = (Fault why, s').
Proof. intros H. unfold mbind, cmd_bind. by rewrite H. Qed.

Lemma cbind_assoc {S A B C} (m : cmd S A) (k : A → cmd S B) (k' : B → cmd S C) s :
  ((m ≫= k) ≫= k') s = (m ≫= λ a, k a ≫= k') s.
Proof. unfold mbind, cmd_bind. by destruct (m s) as [[] ?]. Qed.

(** Runs the first command of a bind whose outcome is known from a hypothesis or by
    evaluation. *)
Ltac crun :=
  repeat (first
    [ rewrite cbind_assoc | erewrite cbind_ret by first [eassumption | reflexivity]
    | erewrite cbind_croak by first [eassumption | reflexivity]
    | erewrite cbind_fault by first [eassumption | reflexivity] ]; cbn beta iota zeta);
  cbn beta iota zeta; try reflexivity.

(** Calls that return or croak in states that satisfy [Q] and [E]; none faults. *)
Definition wp {S A} (m : cmd S A) (Q : A → S → Prop) (E : S → Prop) (s : S) : Prop :=
  match m s with
  | (Ret a, s') => Q a s'
  | (Croak _, s') => E s'
  | (Fault _, _) => False
  end.

Lemma wp_bind {S A B} (m : cmd S A) (k : A → cmd S B) Q E s :
  wp m (λ a, wp (k a) Q E) E s → wp (m ≫= k) Q E s.
Proof. unfold wp, mbind, cmd_bind. by destruct (m s) as [[] ?]. Qed.

Lemma wp_ret {S A} (a : A) (Q : A → S → Prop) E s : Q a s → wp (mret a) Q E s.
Proof. done. Qed.

Lemma wp_get {S} (Q : S → S → Prop) E s : Q s s → wp cget Q E s.
Proof. done. Qed.

Lemma wp_modify {S} f (Q : unit → S → Prop) E s : Q tt (f s) → wp (cmodify f) Q E s.
Proof. done. Qed.

Lemma wp_mono {S A} (m : cmd S A) (Q Q' : A → S → Prop) E s :
  wp m Q E s → (∀ a s', Q a s' → Q' a s') → wp m Q' E s.
Proof. unfold wp. destruct (m s) as [[] ?]; auto. Qed.

(** ** Machine integers: [w]-bit values are [Z], the wrap-around written out *)
Definition u8 (z : Z) : Z := z mod 2 ^ 8.
Definition u16 (z : Z) : Z := z mod 2 ^ 16.
Definition u32 (z : Z) : Z := z mod 2 ^ 32.
Definition u64 (z : Z) : Z := z mod 2 ^ 64.
Definition i32 (z : Z) : Z := (z + 2 ^ 31) mod 2 ^ 32 - 2 ^ 31.
Definition i64 (z : Z) : Z := (z + 2 ^ 63) mod 2 ^ 64 - 2 ^ 63.

Definition INT32_MIN : Z := - 2 ^ 31.
Definition INT32_MAX : Z := 2 ^ 31 - 1.
Definition UINT32_MAX : Z := 2 ^ 32 - 1.
Definition IV_MIN : Z := - 2 ^ 63.
Definition IV_MAX : Z := 2 ^ 63 - 1.
Definition UV_MAX : Z := 2 ^ 64 - 1.
Definition SIZE_MAX : Z := 2 ^ 64 - 1.

Lemma u64_small z : 0 ≤ z < 2 ^ 64 → u64 z = z.
Proof. apply Z.mod_small. Qed.
Lemma u64_bound z : 0 ≤ u64 z < 2 ^ 64.
Proof. apply Z.mod_pos_bound. lia. Qed.
Lemma u32_small z : 0 ≤ z < 2 ^ 32 → u32 z = z.
Proof. apply Z.mod_small. Qed.
Lemma u32_bound z : 0 ≤ u32 z < 2 ^ 32.
Proof. apply Z.mod_pos_bound. lia. Qed.
Lemma i32_small z : - 2 ^ 31 ≤ z < 2 ^ 31 → i32 z = z.
Proof. intros. unfold i32. rewrite Z.mod_small; lia. Qed.
Lemma i32_bound z : - 2 ^ 31 ≤ i32 z < 2 ^ 31.
Proof. unfold i32. pose proof (Z.mod_pos_bound (z + 2 ^ 31) (2 ^ 32)). lia. Qed.
Lemma i64_small z : - 2 ^ 63 ≤ z < 2 ^ 63 → i64 z = z.
Proof. intros. unfold i64. rewrite Z.mod_small; lia. Qed.

(** ** Byte strings: a C [char] buffer is a list of codes *)
Abbreviation bytes := (list Z).

Definition byte_ok (b : Z) : Prop := 0 ≤ b < 256.
Definition bytes_ok (p : bytes) : Prop := Forall byte_ok p.

#[export] Instance byte_ok_dec b : Decision (byte_ok b).
Proof. apply _. Defined.
#[export] Instance bytes_ok_dec p : Decision (bytes_ok p).
Proof. apply _. Defined.

(** String literals as bytes. *)
Fixpoint str (s : string) : bytes :=
  match s with
  | EmptyString => []
  | String a s' => Z.of_nat (Ascii.nat_of_ascii a) :: str s'
  end.

(** Bytes as the text of a [croak] or of a line printed. *)
Definition text (s : bytes) : string :=
  foldr (λ c r, String (Ascii.ascii_of_nat (Z.to_nat c)) r) EmptyString s.

(** ** Automation *)
Create HintDb c_arith.
#[export] Hint Resolve u64_bound u32_bound i32_bound : c_arith.

(** Case analysis on every [match]/[if]/[decide] of the goal. *)
Ltac split_cases := repeat (case_match || case_decide); simplify_eq/=.

(** Turns the boolean comparisons of the code into propositions. *)
Ltac bool_to_prop :=
  repeat match goal with
  | H : (_ <? _) = true |- _ => apply Z.ltb_lt in H
  | H : (_ <? _) = false |- _ => apply Z.ltb_ge in H
  | H : (_ <=? _) = true |- _ => apply Z.leb_le in H
  | H : (_ <=? _) = false |- _ => apply Z.leb_gt in H
  | H : (_ =? _) = true |- _ => apply Z.eqb_eq in H
  | H : (_ =? _) = false |- _ => apply Z.eqb_neq in H
  | H : (_ && _)%bool = true |- _ => apply andb_true_iff in H as [? ?]
  | H : (_ || _)%bool = false |- _ => apply orb_false_iff in H as [? ?]
  | H : negb _ = true |- _ => apply negb_true_iff in H
  | H : negb _ = false |- _ => apply negb_false_iff in H
  end.

(** Closed decidable goals, by evaluation. *)
Ltac by_compute :=
  match goal with |- ?P => apply (bool_decide_unpack P); vm_compute; exact I end.

(** ** Generic lemmas *)

(** Disjoint bits: an [or] of a low part and a shifted high part is a sum. *)
Lemma lor_shiftl_add a x s :
  0 ≤ s → 0 ≤ a < 2 ^ s → Z.lor a (Z.shiftl x s) = a + x * 2 ^ s.
Proof.
  intros Hs Ha. rewrite <- Z.add_nocarry_lor; [by rewrite Z.shiftl_mul_pow2|].
  apply Z.bits_inj_0. intros n. rewrite Z.land_spec.
  destruct (decide (n < 0)); [by rewrite Z.testbit_neg_r by lia|].
  destruct (decide (n < s)).
  - rewrite Z.shiftl_spec_low, andb_false_r by lia. done.
  - replace a with (a mod 2 ^ s) by (by apply Z.mod_small).
    rewrite Z.mod_pow2_bits_high by lia. done.
Qed.

Lemma land_127 b : Z.land b 127 = b mod 128.
Proof. apply (Z.land_ones b 7). lia. Qed.

Lemma land_128_0 b : byte_ok b → Z.land b 128 = 0 ↔ b < 128.
Proof.
  unfold byte_ok. intros Hb.
  assert (∀ n : nat, (n < 256)%nat →
    Z.land (Z.of_nat n) 128 = 0 ↔ Z.of_nat n < 128) as Hall.
  { intros n Hn. do 256 (destruct n as [|n]; [vm_compute; split; congruence|]). lia. }
  specialize (Hall (Z.to_nat b)). rewrite Z2Nat.id in Hall by lia. apply Hall. lia.
Qed.

Lemma concat_snoc {A} (ls : list (list A)) l :
  concat (ls ++ [l]) = concat ls ++ l.
Proof. by rewrite concat_app, concat_cons, concat_nil, app_nil_r. Qed.

Lemma bytes_ok_app p q : bytes_ok (p ++ q) ↔ bytes_ok p ∧ bytes_ok q.
Proof. apply Forall_app. Qed.

Lemma length_0_nil {A} (l : list A) : (0 <? length l)%nat = false → l = [].
Proof. destruct l; [done|]. intros H%Nat.ltb_ge. simpl in H. lia. Qed.
