(* ===== verification/Varint.v ===== *)
(** * Base-128 varints (set.c [decode_varint], serialize.c [WriteVarint]) *)

From S2P Require Import Prelude.

(** One iteration's accumulation:
    [res |= (uint64_t)(byte & 0x7f) << shift]. *)
Definition varint_acc (res byte shift : Z) : Z :=
  Z.lor res (u64 (Z.shiftl (Z.land byte 127) shift)).

(** [while (ptr < end)] of [decode_varint], started at ([res], [shift]).
    [Some (val, ptr)] is a return of [ptr] with [*val] set, [None] is NULL. *)
Fixpoint decode_varint_loop (res shift : Z) (ptr : bytes) : option (Z * bytes) :=
  match ptr with
  | [] => None
  | byte :: ptr' =>
      let res := varint_acc res byte shift in
      if Z.land byte 128 =? 0 then Some (res, ptr')
      else
        let shift := shift + 7 in
        if 64 <=? shift then None else decode_varint_loop res shift ptr'
  end.

Definition decode_varint (ptr : bytes) : option (Z * bytes) :=
  decode_varint_loop 0 0 ptr.

(** [WriteVarint]: the [do ... while (val > 0)] loop filling [uint8_t buf[10]];
    [room] is the number of cells left, and [None] a store past the buffer. *)
Fixpoint WriteVarint_loop (room : nat) (val : Z) : option bytes :=
  match room with
  | O => None
  | S room =>
      let cell := Z.land val 127 in
      let val := Z.shiftr val 7 in
      if 0 <? val then cons (Z.lor cell 128) <$> WriteVarint_loop room val
      else Some [cell]
  end.

Definition WriteVarint (val : Z) : option bytes := WriteVarint_loop 10 val.

(** ** The value a varint denotes *)

(** A complete varint: continuation bits on all bytes but the last. *)
Fixpoint varint_shape (bs : bytes) : Prop :=
  match bs with
  | [] => False
  | [b] => 0 ≤ b < 128
  | b :: bs' => 128 ≤ b < 256 ∧ varint_shape bs'
  end.

Fixpoint varint_value (bs : bytes) : Z :=
  match bs with
  | [] => 0
  | b :: bs' => b mod 128 + 128 * varint_value bs'
  end.

Lemma varint_value_nonneg bs : 0 ≤ varint_value bs.
Proof.
  induction bs as [|b bs IH]; simpl; [lia|].
  pose proof (Z.mod_pos_bound b 128). lia.
Qed.

Lemma varint_shape_ok bs : varint_shape bs → bytes_ok bs.
Proof.
  induction bs as [|b bs IH]; simpl; [done|].
  destruct bs as [|b' bs]; intros H.
  - constructor; [unfold byte_ok; lia|constructor].
  - destruct H. constructor; [unfold byte_ok; lia|by apply IH].
Qed.

Lemma varint_shape_cons b bs :
  varint_shape (b :: bs) ↔
    (bs = [] ∧ 0 ≤ b < 128) ∨ (128 ≤ b < 256 ∧ varint_shape bs).
Proof.
  destruct bs as [|b' bs]; simpl.
  - split; [by left|]. by intros [[_ ?]|[_ []]].
  - split; [by right|]. by intros [[? _]|?].
Qed.

(** The accumulation step in arithmetic, with the wrap of the tenth byte. *)
Lemma varint_acc_spec res byte shift :
  0 ≤ shift < 64 → 0 ≤ res < 2 ^ shift →
  varint_acc res byte shift = u64 (res + byte mod 128 * 2 ^ shift).
Proof.
  intros Hs Hr. unfold varint_acc, u64. rewrite land_127.
  set (x := byte mod 128).
  assert (2 ^ 64 = 2 ^ shift * 2 ^ (64 - shift)) as H64
    by (rewrite <- Z.pow_add_r by lia; f_equal; lia).
  assert (0 < 2 ^ shift ∧ 0 < 2 ^ (64 - shift)) as [? ?]
    by (split; apply Z.pow_pos_nonneg; lia).
  rewrite Z.shiftl_mul_pow2, H64, (Z.mul_comm x) by lia.
  rewrite Z.mul_mod_distr_l by lia.
  rewrite Z.mul_comm, <- (Z.shiftl_mul_pow2 _ shift) by lia.
  rewrite lor_shiftl_add by lia.
  set (y := x mod 2 ^ (64 - shift)).
  pose proof (Z.mod_pos_bound x (2 ^ (64 - shift))).
  apply Z.mod_unique with (x / 2 ^ (64 - shift)).
  - left. subst y. nia.
  - pose proof (Z.div_mod x (2 ^ (64 - shift))). subst y. nia.
Qed.

Lemma varint_acc_bound res byte shift :
  0 ≤ shift < 64 → 0 ≤ res < 2 ^ shift → shift + 7 < 64 →
  0 ≤ varint_acc res byte shift < 2 ^ (shift + 7).
Proof.
  intros Hs Hr H7. rewrite varint_acc_spec by lia.
  pose proof (Z.mod_pos_bound byte 128).
  assert (2 ^ (shift + 7) = 128 * 2 ^ shift) as E
    by (rewrite Z.pow_add_r by lia; lia).
  assert (2 ^ (shift + 7) < 2 ^ 64) by (apply Z.pow_lt_mono_r; lia).
  rewrite u64_small; nia.
Qed.

Lemma land_128_0b b : byte_ok b → (Z.land b 128 =? 0) = (b <? 128).
Proof.
  intros Hb. pose proof (land_128_0 b Hb) as H.
  destruct (b <? 128) eqn:E; bool_to_prop;
    [apply Z.eqb_eq|apply Z.eqb_neq]; rewrite H; lia.
Qed.

(** The loop, from any state it can reach, on well-formed bytes. *)
Lemma decode_varint_loop_spec ptr : ∀ res k v rest,
  bytes_ok ptr → 0 ≤ k ≤ 9 → 0 ≤ res < 2 ^ (7 * k) →
  decode_varint_loop res (7 * k) ptr = Some (v, rest) ↔
  ∃ bs, ptr = bs ++ rest ∧ varint_shape bs ∧ Z.of_nat (length bs) ≤ 10 - k ∧
        v = u64 (res + 2 ^ (7 * k) * varint_value bs).
Proof.
  induction ptr as [|b ptr IH]; intros res k v rest Hok Hk Hres; simpl.
  { split; [done|]. intros (bs & Hbs & Hsh & _).
    destruct bs; [done|simplify_eq]. }
  apply Forall_cons_1 in Hok as [Hb Hok]. rewrite land_128_0b by done.
  destruct (b <? 128) eqn:E; bool_to_prop.
  - rewrite varint_acc_spec by lia. split.
    + intros [= <- <-]. exists [b]. simpl. unfold byte_ok in Hb.
      repeat split; try lia. do 2 f_equal. lia.
    + intros (bs & Hbs & Hsh & Hlen & ->). destruct bs as [|b' bs]; [done|].
      simplify_eq/=. apply varint_shape_cons in Hsh as [[-> ?]|[? ?]]; [|lia].
      simpl. do 3 f_equal. lia.
  - destruct (64 <=? 7 * k + 7) eqn:E7; bool_to_prop.
    + split; [done|]. intros (bs & Hbs & Hsh & Hlen & _).
      destruct bs as [|b' bs]; [done|]. simplify_eq/=.
      apply varint_shape_cons in Hsh as [[-> ?]|[? Hsh]]; [lia|].
      destruct bs; [done|]. simpl in Hlen. lia.
    + replace (7 * k + 7) with (7 * (k + 1)) by lia.
      assert (2 ^ (7 * (k + 1)) = 128 * 2 ^ (7 * k)) as Epow
        by (rewrite Z.mul_add_distr_l, Z.pow_add_r by lia; lia).
      assert (2 ^ (7 * (k + 1)) < 2 ^ 64) by (apply Z.pow_lt_mono_r; lia).
      pose proof (varint_acc_bound res b (7 * k)) as Hacc.
      replace (7 * k + 7) with (7 * (k + 1)) in Hacc by lia.
      rewrite IH by (done || lia || (apply Hacc; lia)).
      rewrite varint_acc_spec by lia. pose proof (Z.mod_pos_bound b 128).
      rewrite (u64_small (res + _)) by nia.
      split; intros (bs & Hbs & Hsh & Hlen & ->).
      * exists (b :: bs). subst. split_and!; [done| | |].
        -- apply varint_shape_cons. right. unfold byte_ok in Hb. split; [lia|done].
        -- simpl. lia.
        -- f_equal. simpl. rewrite Epow. ring.
      * destruct bs as [|b' bs]; [done|]. simplify_eq/=. exists bs.
        apply varint_shape_cons in Hsh as [[-> ?]|[? Hsh]]; [lia|].
        split_and!; [done|done|lia|]. f_equal. rewrite Epow. ring.
Qed.

Lemma decode_varint_iff ptr v rest :
  bytes_ok ptr →
  decode_varint ptr = Some (v, rest) ↔
  ∃ bs, ptr = bs ++ rest ∧ varint_shape bs ∧ (length bs ≤ 10)%nat ∧
        v = u64 (varint_value bs).
Proof.
  intros Hok. unfold decode_varint.
  change 0 with (7 * 0) at 2. rewrite decode_varint_loop_spec by (done || lia).
  split; intros (bs & ? & ? & ? & ->); exists bs; split_and?; try done; try lia;
    f_equal; simpl; lia.
Qed.

(** Progress: a successful decode consumes at least one byte and at most ten. *)
Lemma decode_varint_shorter ptr v rest :
  decode_varint ptr = Some (v, rest) → (length rest < length ptr)%nat.
Proof.
  unfold decode_varint. generalize 0 at 1. generalize 0. revert v rest.
  induction ptr as [|b ptr IH]; intros v rest s r; simpl; [done|].
  case_match; [intros [= _ <-]; lia|]. case_match; [done|].
  intros ?%IH. lia.
Qed.

Lemma decode_varint_suffix ptr v rest :
  decode_varint ptr = Some (v, rest) → ∃ bs, ptr = bs ++ rest.
Proof.
  unfold decode_varint. generalize 0 at 1. generalize 0. revert v rest.
  induction ptr as [|b ptr IH]; intros v rest s r; simpl; [done|].
  case_match; [intros [= _ <-]; by exists [b]|]. case_match; [done|].
  intros [bs ->]%IH. by exists (b :: bs).
Qed.

Lemma decode_varint_range ptr v rest :
  bytes_ok ptr → decode_varint ptr = Some (v, rest) → 0 ≤ v < 2 ^ 64.
Proof.
  intros Hok H. apply decode_varint_iff in H as (bs & _ & _ & _ & ->); [|done].
  apply u64_bound.
Qed.

(** Appending bytes after a complete varint does not change its decoding. *)
Lemma decode_varint_app ptr v rest tail :
  decode_varint ptr = Some (v, rest) →
  decode_varint (ptr ++ tail) = Some (v, rest ++ tail).
Proof.
  unfold decode_varint. generalize 0 at 1 3. generalize 0. revert v rest.
  induction ptr as [|b ptr IH]; intros v rest s r; simpl; [done|].
  case_match; [by intros [= <- <-]|]. case_match; [done|]. apply IH.
Qed.

(** ** The writer *)

Lemma lor_128 x : 0 ≤ x < 128 → Z.lor x 128 = x + 128.
Proof. intros. apply (lor_shiftl_add x 1 7); lia. Qed.

Lemma WriteVarint_loop_spec room : ∀ val,
  0 ≤ val < 2 ^ (7 * Z.of_nat room) → (0 < room)%nat →
  ∃ bs, WriteVarint_loop room val = Some bs ∧ varint_shape bs ∧
        varint_value bs = val ∧ (length bs ≤ room)%nat.
Proof.
  induction room as [|room IH]; intros val Hval Hr; [lia|].
  simpl. rewrite land_127, Z.shiftr_div_pow2 by lia.
  pose proof (Z.mod_pos_bound val 128). pose proof (Z.div_mod val 128).
  change (2 ^ 7) with 128 in *.
  destruct (0 <? val / 128) eqn:E; bool_to_prop.
  - assert (2 ^ (7 * Z.of_nat (S room)) = 128 * 2 ^ (7 * Z.of_nat room)) as Epow
      by (rewrite Nat2Z.inj_succ, <- Z.add_1_r, Z.mul_add_distr_l,
            Z.pow_add_r by lia; lia).
    destruct (IH (val / 128)) as (bs & -> & Hsh & Hv & Hlen).
    { rewrite Epow in Hval. split; [lia|]. apply Z.div_lt_upper_bound; lia. }
    { destruct room; [|lia]. rewrite Z.div_small in E; lia. }
    rewrite lor_128 by lia. eexists; split_and!; [done| | |].
    + apply varint_shape_cons. right. split; [lia|done].
    + simpl. rewrite Hv.
      replace ((val mod 128 + 128) mod 128) with (val mod 128); [lia|].
      rewrite <- Z.add_mod_idemp_r, Z.mod_same, Z.add_0_r, Z.mod_mod; lia.
    + simpl. lia.
  - eexists; split_and!; [done|simpl; lia| |simpl; lia].
    simpl. rewrite Z.mod_mod by lia. lia.
Qed.

Lemma WriteVarint_ok val :
  0 ≤ val < 2 ^ 64 →
  ∃ bs, WriteVarint val = Some bs ∧ varint_shape bs ∧ varint_value bs = val ∧
        (1 ≤ length bs ≤ 10)%nat.
Proof.
  intros Hval. destruct (WriteVarint_loop_spec 10 val) as (bs & ? & Hsh & ? & ?).
  { assert (2 ^ 64 < 2 ^ (7 * Z.of_nat 10)) by (apply Z.pow_lt_mono_r; lia). lia. }
  { lia. }
  exists bs. split_and!; try done. destruct bs; [done|simpl; lia].
Qed.

Lemma varint_roundtrip_app val rest :
  0 ≤ val < 2 ^ 64 → bytes_ok rest →
  ∃ bs, WriteVarint val = Some bs ∧ bytes_ok bs ∧
        decode_varint (bs ++ rest) = Some (val, rest).
Proof.
  intros Hval Hrest.
  destruct (WriteVarint_ok val Hval) as (bs & Hw & Hsh & Hv & Hlen).
  exists bs. split_and!; [done|by apply varint_shape_ok|].
  apply decode_varint_iff.
  { apply bytes_ok_app. split; [by apply varint_shape_ok|done]. }
  exists bs. split_and!; try done; [lia|]. rewrite Hv, u64_small; done.
Qed.
