(* ===== verification/UnknownFields.v ===== *)
(** * Unknown field sets (xs/unknown_fields/set.c, upb/message/message.c)

    A message keeps its unknown fields as chunks of raw wire data, mixed with
    its extensions, in [aux_data].  [PerlUpb_UnknownFieldSet] reads, extends,
    clears and scrubs them. *)

From S2P Require Import Prelude Varint.

(** ** The message's auxiliary data (upb) *)

(** [upb_TaggedAuxPtr]: [off] is [existing->data - (char* )existing], the
    distance from the view's own allocation to its data. *)
Inductive TaggedAuxPtr :=
  | AuxNull
  | AuxUnknown (aliased : bool) (off : Z) (data : bytes)
  | AuxExtension (ext : Z).

#[export] Instance TaggedAuxPtr_eq_dec : EqDecision TaggedAuxPtr.
Proof. solve_decision. Defined.

(** What the arena answers during one call: [upb_Arena_TryExtend],
    [_upb_Message_ReserveSlot] and the two [upb_Arena_Malloc]s. *)
Record arena_answers := {
  try_extend : bool;
  reserve_slot : bool;
  malloc_view : bool;
  malloc_tmp : bool;
}.

Fixpoint next_unknown_from (aux : list TaggedAuxPtr) (i : nat) : option (bytes * nat) :=
  match aux with
  | [] => None
  | AuxUnknown _ _ data :: _ => Some (data, S i)
  | _ :: aux' => next_unknown_from aux' (S i)
  end.

(** [upb_Message_NextUnknown(msg, &data, &iter)]. *)
Definition NextUnknown (aux : list TaggedAuxPtr) (iter : nat) : option (bytes * nat) :=
  next_unknown_from (drop iter aux) iter.

(** [_upb_Message_AddUnknownSlowPath] with [alias = false]. *)
Definition AddUnknown_Copy (ar : arena_answers) (aux : list TaggedAuxPtr) (data : bytes)
  : bool * list TaggedAuxPtr :=
  let slow :=
    if negb (reserve_slot ar) then (false, aux)
    else if negb (malloc_view ar) then (false, aux)
    else (true, aux ++ [AuxUnknown false 16 data]) in
  match last aux with
  | Some (AuxUnknown false off existing) =>
      let prev_alloc_size := off + Z.of_nat (length existing) in
      if (Z.of_nat (length data) <=? SIZE_MAX - prev_alloc_size) && try_extend ar
      then (true, take (length aux - 1) aux ++ [AuxUnknown false off (existing ++ data)])
      else slow
  | _ => slow
  end.

(** [_upb_Message_DiscardUnknown_shallow]: the compaction loop keeps extensions. *)
Fixpoint DiscardUnknown_shallow (aux : list TaggedAuxPtr) : list TaggedAuxPtr :=
  match aux with
  | [] => []
  | AuxExtension e :: aux' => AuxExtension e :: DiscardUnknown_shallow aux'
  | _ :: aux' => DiscardUnknown_shallow aux'
  end.

(** [while (upb_Message_NextUnknown(...))] with a body over a state. *)
Fixpoint while_unknown {St} (fuel : nat) (aux : list TaggedAuxPtr) (iter : nat)
    (body : St → bytes → outcome St) (st : St) : outcome St :=
  match fuel with
  | O => Fault "fuel"
  | S fuel =>
      match NextUnknown aux iter with
      | None => Ret st
      | Some (data, iter) => st ← body st data; while_unknown fuel aux iter body st
      end
  end.

Definition for_each_unknown {St} (aux : list TaggedAuxPtr)
    (body : St → bytes → outcome St) (st : St) : outcome St :=
  while_unknown (S (length aux)) aux 0 body st.

(** ** Skipping and scrubbing wire data *)

(** [skip_value(ptr, end, wire_type)]; [None] is NULL. *)
Definition skip_value (ptr : bytes) (wire_type : Z) : option bytes :=
  if wire_type =? 0 then snd <$> decode_varint ptr
  else if wire_type =? 1 then
    if (length ptr <? 8)%nat then None else Some (drop 8 ptr)
  else if wire_type =? 2 then
    '(len, ptr) ← decode_varint ptr;
    if Z.of_nat (length ptr) <? len then None else Some (drop (Z.to_nat len) ptr)
  else if wire_type =? 5 then
    if (length ptr <? 4)%nat then None else Some (drop 4 ptr)
  else None.

(** [memcpy(buf + size, src, len); size += len] into a buffer of [cap] bytes:
    [buf] is the part already written. *)
Definition memcpy_append (cap : Z) (buf src : bytes) : outcome bytes :=
  if Z.of_nat (length buf + length src) <=? cap then Ret (buf ++ src)
  else Fault "memcpy past the end of the buffer".

(** The inner [while (ptr < end)] of [DeleteTag] over one chunk. *)
Fixpoint scrub_chunk (fuel : nat) (tag cap : Z) (new_data ptr : bytes) : outcome bytes :=
  match fuel with
  | O => Fault "fuel"
  | S fuel =>
      match ptr with
      | [] => Ret new_data
      | _ :: _ =>
          match decode_varint ptr with
          | None => Ret new_data
          | Some (entry_tag, tag_end) =>
              match skip_value tag_end (Z.land entry_tag 7) with
              | None => Ret new_data
              | Some entry_end =>
                  let entry_len := (length ptr - length entry_end)%nat in
                  new_data ←
                    (if negb (Z.shiftr entry_tag 3 =? tag)
                     then memcpy_append cap new_data (take entry_len ptr)
                     else Ret new_data);
                  scrub_chunk fuel tag cap new_data entry_end
              end
          end
      end
  end.

(** The first pass of [GetData] and [DeleteTag]: [total_len += data.size]. *)
Definition sum_sizes (aux : list TaggedAuxPtr) : outcome Z :=
  for_each_unknown aux (fun n data => Ret (u64 (n + Z.of_nat (length data)))) 0.

(** ** The set objects *)

(** Messages and set structs, by address; a set aliases its message. *)
Record uheap := {
  msgs : gmap Z (list TaggedAuxPtr);
  sets : gmap Z Z;
}.

(** The blessed scalar: whether it derives from [Protobuf::UnknownFieldSet]
    and the address in its IV (0 after [Free]). *)
Record set_sv := { set_isa : bool; set_iv : Z }.

Definition with_msg (h : uheap) (m : Z) (aux : list TaggedAuxPtr) : uheap :=
  {| msgs := <[m := aux]> (msgs h); sets := sets h |}.

(** [PerlUpb_UnknownFieldSet_New]: [p] is the address [malloc] returned. *)
Definition UnknownFieldSet_New (h : uheap) (p m : Z) : uheap * set_sv :=
  ({| msgs := msgs h; sets := <[p := m]> (sets h) |}, {| set_isa := true; set_iv := p |}).

(** [GetSet] followed by [PerlUpb_Message_GetMsg(s->message_sv)]: the
    message's address and its aux data.  A dangling set pointer faults. *)
Definition GetSetMsg (h : uheap) (self : set_sv) : outcome (option (Z * list TaggedAuxPtr)) :=
  if negb (set_isa self) then Ret None
  else if set_iv self =? 0 then Ret None
  else match sets h !! set_iv self with
       | None => Fault "use of a freed set"
       | Some m => match msgs h !! m with
                   | None => Croak "Invalid message object"
                   | Some aux => Ret (Some (m, aux))
                   end
       end.

(** [GetData]: [None] is undef. *)
Definition UnknownFieldSet_GetData (h : uheap) (self : set_sv) : outcome (option bytes) :=
  s ← GetSetMsg h self;
  match s with
  | None => Ret None
  | Some (_, aux) =>
      total_len ← sum_sizes aux;
      if total_len =? 0 then Ret (Some [])
      else
        buf ← for_each_unknown aux (memcpy_append total_len) [];
        Ret (Some buf)
  end.

Definition UnknownFieldSet_Add (ar : arena_answers) (h : uheap) (self : set_sv) (data : bytes)
  : outcome uheap :=
  s ← GetSetMsg h self;
  match s with
  | None => Ret h
  | Some (m, aux) => Ret (with_msg h m (AddUnknown_Copy ar aux data).2)
  end.

Definition UnknownFieldSet_Clear (h : uheap) (self : set_sv) : outcome uheap :=
  s ← GetSetMsg h self;
  match s with
  | None => Ret h
  | Some (m, aux) => Ret (with_msg h m (DiscardUnknown_shallow aux))
  end.

Definition delete_tag_aux (ar : arena_answers) (tag : Z) (aux : list TaggedAuxPtr)
  : outcome (list TaggedAuxPtr) :=
  total_size ← sum_sizes aux;
  let cap := if malloc_tmp ar then total_size else 0 in
  new_data ← for_each_unknown aux
    (fun new_data chunk => scrub_chunk (S (length chunk)) tag cap new_data chunk) [];
  let kept := DiscardUnknown_shallow aux in
  Ret (if (0 <? length new_data)%nat then (AddUnknown_Copy ar kept new_data).2 else kept).

Definition UnknownFieldSet_DeleteTag (ar : arena_answers) (h : uheap) (self : set_sv) (tag : Z)
  : outcome uheap :=
  s ← GetSetMsg h self;
  match s with
  | None => Ret h
  | Some (m, aux) => aux' ← delete_tag_aux ar tag aux; Ret (with_msg h m aux')
  end.

(** [Free]: drops the struct and zeroes the scalar ([dirty] is [PL_dirty]). *)
Definition UnknownFieldSet_Free (dirty : bool) (h : uheap) (self : set_sv)
  : outcome (uheap * set_sv) :=
  if dirty then Ret (h, self)
  else if negb (set_isa self) || (set_iv self =? 0) then Ret (h, self)
  else match sets h !! set_iv self with
       | None => Fault "double free"
       | Some _ => Ret ({| msgs := msgs h; sets := delete (set_iv self) (sets h) |},
                        {| set_isa := true; set_iv := 0 |})
       end.

(** ** Specification vocabulary *)

Definition unknown_data (p : TaggedAuxPtr) : option bytes :=
  match p with AuxUnknown _ _ d => Some d | _ => None end.

Definition is_extension (p : TaggedAuxPtr) : bool :=
  match p with AuxExtension _ => true | _ => false end.

(** The unknown chunks and the extensions of a message, in order. *)
Definition chunks (aux : list TaggedAuxPtr) : list bytes := omap unknown_data aux.
Definition extensions (aux : list TaggedAuxPtr) : list TaggedAuxPtr :=
  List.filter is_extension aux.
Definition unknown_bytes (aux : list TaggedAuxPtr) : bytes := concat (chunks aux).

(** The wire grammar of one field record that is not a group. *)
Inductive wire_value : Z → bytes → Prop :=
  | wire_varint bs :
      varint_shape bs → (length bs ≤ 10)%nat → wire_value 0 bs
  | wire_64 bs : bytes_ok bs → length bs = 8%nat → wire_value 1 bs
  | wire_delimited lb payload :
      varint_shape lb → (length lb ≤ 10)%nat → bytes_ok payload →
      u64 (varint_value lb) = Z.of_nat (length payload) →
      wire_value 2 (lb ++ payload)
  | wire_32 bs : bytes_ok bs → length bs = 4%nat → wire_value 5 bs.

Inductive wire_record : Z → bytes → Prop :=
  | wire_record_intro tb vb :
      varint_shape tb → (length tb ≤ 10)%nat →
      wire_value (Z.land (u64 (varint_value tb)) 7) vb →
      wire_record (Z.shiftr (u64 (varint_value tb)) 3) (tb ++ vb).

(** A chunk that is a sequence of records, with their field numbers. *)
Definition well_formed_chunk (recs : list (Z * bytes)) (chunk : bytes) : Prop :=
  Forall (λ r, wire_record r.1 r.2) recs ∧ chunk = concat (recs.*2).

(** The records at the start of any chunk, up to the first byte where none begins (a
    group, or what is not wire data). *)
Definition scanned (recs : list (Z * bytes)) (chunk : bytes) : Prop :=
  ∃ rest, Forall (λ r, wire_record r.1 r.2) recs ∧ chunk = concat (recs.*2) ++ rest ∧
    bytes_ok rest ∧ ∀ n raw tail, rest = raw ++ tail → ¬ wire_record n raw.

Definition keep_records (tag : Z) (recs : list (Z * bytes)) : list (Z * bytes) :=
  List.filter (λ r, negb (r.1 =? tag)) recs.

(** ** Iteration *)

Lemma next_unknown_from_advance l i d j :
  next_unknown_from l i = Some (d, j) →
  (i < j)%nat ∧ chunks l = d :: chunks (drop (j - i) l) ∧ (j ≤ i + length l)%nat.
Proof.
  revert i. induction l as [|[|? ? d'|e] l IH]; intros i; simpl; [done| | |].
  - intros (? & ? & ?)%IH. split_and!; [lia| |lia].
    replace (j - i)%nat with (S (j - S i)) by lia. done.
  - intros [= -> <-]. split_and!; [lia| |lia].
    replace (S i - i)%nat with 1%nat by lia. done.
  - intros (? & ? & ?)%IH. split_and!; [lia| |lia].
    replace (j - i)%nat with (S (j - S i)) by lia. done.
Qed.

Lemma next_unknown_from_none l i : next_unknown_from l i = None → chunks l = [].
Proof.
  revert i. induction l as [|[|? ? d'|e] l IH]; intros i; simpl; try done; apply IH.
Qed.

(** The loop visits every chunk once, in order. *)
Fixpoint fold_chunks {St} (body : St → bytes → outcome St) (cs : list bytes) (st : St)
  : outcome St :=
  match cs with
  | [] => Ret st
  | c :: cs => st ← body st c; fold_chunks body cs st
  end.

Lemma while_unknown_fold {St} (body : St → bytes → outcome St) fuel :
  ∀ aux iter st, (iter ≤ length aux)%nat → (length aux - iter < fuel)%nat →
  while_unknown fuel aux iter body st = fold_chunks body (chunks (drop iter aux)) st.
Proof.
  induction fuel as [|fuel IH]; intros aux iter st Hi Hf; [lia|]. simpl.
  unfold NextUnknown.
  destruct (next_unknown_from (drop iter aux) iter) as [[d j]|] eqn:E.
  - apply next_unknown_from_advance in E as (Hj & -> & Hlen).
    rewrite length_drop in Hlen. simpl.
    destruct (body st d); simpl; [|done|done].
    rewrite IH by lia. rewrite drop_drop. do 4 f_equal. lia.
  - by rewrite (next_unknown_from_none _ _ E).
Qed.

Lemma for_each_unknown_fold {St} aux (body : St → bytes → outcome St) st :
  for_each_unknown aux body st = fold_chunks body (chunks aux) st.
Proof. unfold for_each_unknown. rewrite while_unknown_fold; [done|lia|lia]. Qed.

Lemma sum_sizes_spec aux :
  sum_sizes aux = Ret (u64 (Z.of_nat (length (unknown_bytes aux)))).
Proof.
  unfold sum_sizes, unknown_bytes. rewrite for_each_unknown_fold.
  enough (∀ cs n, fold_chunks (λ n data, Ret (u64 (n + Z.of_nat (length data)))) cs (u64 n)
    = Ret (u64 (n + Z.of_nat (length (concat cs))))) as H by apply (H _ 0).
  induction cs as [|c cs IH]; intros n; simpl.
  - by rewrite Z.add_0_r.
  - replace (u64 (u64 n + Z.of_nat (length c))) with (u64 (n + Z.of_nat (length c)))
      by (unfold u64; by rewrite Z.add_mod_idemp_l by lia).
    rewrite IH, length_app. do 2 f_equal. lia.
Qed.

Lemma memcpy_append_ok cap buf src :
  Z.of_nat (length buf + length src) ≤ cap → memcpy_append cap buf src = Ret (buf ++ src).
Proof. intros H. unfold memcpy_append. by rewrite (proj2 (Z.leb_le _ _) H). Qed.

Lemma memcpy_append_fold cap cs : ∀ buf,
  Z.of_nat (length buf + length (concat cs)) ≤ cap →
  fold_chunks (memcpy_append cap) cs buf = Ret (buf ++ concat cs).
Proof.
  induction cs as [|c cs IH]; intros buf Hcap; simpl; [by rewrite app_nil_r|].
  simpl in Hcap. rewrite length_app in Hcap.
  rewrite memcpy_append_ok by lia. simpl.
  rewrite IH, app_assoc; [done|]. rewrite length_app. lia.
Qed.

(** ** Parsing one record *)

Lemma skip_value_suffix ptr wt rest :
  bytes_ok ptr → skip_value ptr wt = Some rest → ∃ bs, ptr = bs ++ rest.
Proof.
  unfold skip_value. intros Hok H.
  assert (∀ n, ∃ bs, ptr = bs ++ drop n ptr) as Hdrop
    by (intros n; exists (take n ptr); by rewrite take_drop).
  repeat case_match; try discriminate.
  - destruct (decode_varint ptr) as [[v r]|] eqn:E; simplify_eq/=.
    by eapply decode_varint_suffix.
  - simplify_eq. apply Hdrop.
  - destruct (decode_varint ptr) as [[v r]|] eqn:E; simplify_eq/=.
    case_match; simplify_eq.
    destruct (decode_varint_suffix _ _ _ E) as [bs ->].
    exists (bs ++ take (Z.to_nat v) r). by rewrite <- app_assoc, take_drop.
  - simplify_eq. apply Hdrop.
Qed.

Lemma skip_value_wire wt vb rest :
  wire_value wt vb → bytes_ok rest → skip_value (vb ++ rest) wt = Some rest.
Proof.
  intros Hv Hrest. destruct Hv as [bs Hsh Hlen|bs Hok Hlen|lb pl Hsh Hlen Hok Hv|bs Hok Hlen];
    unfold skip_value; simpl.
  - replace (decode_varint (bs ++ rest)) with (Some (u64 (varint_value bs), rest)); [done|].
    symmetry. apply decode_varint_iff; [|by exists bs].
    apply bytes_ok_app. split; [by apply varint_shape_ok|done].
  - rewrite length_app, Hlen. simpl. rewrite drop_app_length' by done. done.
  - rewrite <- app_assoc.
    replace (decode_varint (lb ++ pl ++ rest))
      with (Some (u64 (varint_value lb), pl ++ rest)).
    + simpl. rewrite Hv, length_app.
      replace (Z.of_nat (length pl + length rest) <? Z.of_nat (length pl)) with false
        by (symmetry; apply Z.ltb_ge; lia).
      rewrite Nat2Z.id, drop_app_length. done.
    + symmetry. apply decode_varint_iff; [|by exists lb].
      rewrite !bytes_ok_app. split_and!; [by apply varint_shape_ok|done|done].
  - rewrite length_app, Hlen. simpl. rewrite drop_app_length' by done. done.
Qed.

(** What it skips is a value. *)
Lemma skip_value_complete ptr wt rest :
  bytes_ok ptr → skip_value ptr wt = Some rest → ∃ vb, ptr = vb ++ rest ∧ wire_value wt vb.
Proof.
  unfold skip_value. intros Hok Hs.
  assert (∀ n, (n ≤ length ptr)%nat → bytes_ok (take n ptr) ∧ length (take n ptr) = n) as Htake.
  { intros n Hn. split; [by apply Forall_take|]. rewrite length_take. lia. }
  destruct (Z.eqb_spec wt 0) as [->|].
  { destruct (decode_varint ptr) as [[v r]|] eqn:E; [|done]. injection Hs as ->.
    apply decode_varint_iff in E as (bs & -> & Hsh & Hl & _); [|done]. exists bs. split; [done|by constructor]. }
  destruct (Z.eqb_spec wt 1) as [->|].
  { destruct (Nat.ltb_spec (length ptr) 8); [done|]. injection Hs as <-. destruct (Htake 8%nat); [lia|].
    exists (take 8 ptr). split; [by rewrite take_drop|by constructor]. }
  destruct (Z.eqb_spec wt 2) as [->|].
  { destruct (decode_varint ptr) as [[v r]|] eqn:E; [|done]. cbn in Hs.
    apply decode_varint_iff in E as (bs & -> & Hsh & Hl & ->); [|done].
    destruct (Z.ltb_spec (Z.of_nat (length r)) (u64 (varint_value bs))); [done|]. injection Hs as <-.
    apply bytes_ok_app in Hok as [_ Hr]. pose proof (u64_bound (varint_value bs)).
    exists (bs ++ take (Z.to_nat (u64 (varint_value bs))) r). split; [by rewrite <- app_assoc, take_drop|].
    constructor; [done|done|by apply Forall_take|]. rewrite length_take. lia. }
  destruct (Z.eqb_spec wt 5) as [->|]; [|done].
  destruct (Nat.ltb_spec (length ptr) 4); [done|]. injection Hs as <-. destruct (Htake 4%nat); [lia|].
  exists (take 4 ptr). split; [by rewrite take_drop|by constructor].
Qed.

(** A record at the start, or none. *)
Lemma first_record ptr : bytes_ok ptr →
  (∃ n raw tail, ptr = raw ++ tail ∧ wire_record n raw) ∨
  ((∀ n raw tail, ptr = raw ++ tail → ¬ wire_record n raw) ∧
   ∀ fuel tag cap buf, scrub_chunk (S fuel) tag cap buf ptr = Ret buf).
Proof.
  intros Hok.
  destruct (decode_varint ptr ≫= λ '(et, te), skip_value te (Z.land et 7)) as [ee|] eqn:E.
  - left. destruct (decode_varint ptr) as [[et te]|] eqn:Ed; [|done]. cbn in E.
    apply decode_varint_iff in Ed as (tb & -> & Hsh & Hl & ->); [|done].
    apply bytes_ok_app in Hok as [_ Hte]. apply skip_value_complete in E as (vb & -> & Hv); [|done].
    exists (Z.shiftr (u64 (varint_value tb)) 3), (tb ++ vb), ee. split; [by rewrite app_assoc|by constructor].
  - right. split.
    + intros n raw tail -> Hw. destruct Hw as [tb vb Hsh Hl Hv]. rewrite <- app_assoc in *.
      assert (decode_varint (tb ++ vb ++ tail) = Some (u64 (varint_value tb), vb ++ tail)) as Hd
        by (apply decode_varint_iff; [done|by exists tb]).
      rewrite Hd in E. cbn in E. rewrite (skip_value_wire _ _ _ Hv) in E; [done|].
      apply bytes_ok_app in Hok as [_ Hok]. by apply bytes_ok_app in Hok as [_ ?].
    + intros fuel tag cap buf. cbn [scrub_chunk]. destruct ptr as [|b l]; [done|].
      destruct (decode_varint (b :: l)) as [[et te]|]; [|done]. cbn in E. by rewrite E.
Qed.

Lemma wire_value_ok wt vb : wire_value wt vb → bytes_ok vb.
Proof.
  destruct 1; try done; [by apply varint_shape_ok|].
  apply bytes_ok_app. split; [by apply varint_shape_ok|done].
Qed.

Lemma wire_record_ok n raw : wire_record n raw → bytes_ok raw ∧ raw ≠ [].
Proof.
  destruct 1 as [tb vb Hsh Hlen Hv]. split.
  - apply bytes_ok_app. split; [by apply varint_shape_ok|by eapply wire_value_ok].
  - by destruct tb.
Qed.

Lemma well_formed_chunk_ok recs chunk : well_formed_chunk recs chunk → bytes_ok chunk.
Proof.
  intros [Hr ->]. induction Hr as [|r recs Hr _ IH]; simpl; [constructor|].
  apply bytes_ok_app. split; [by eapply wire_record_ok|done].
Qed.

(** One step of the scrub on a record it can parse. *)
Lemma scrub_step fuel tag cap buf n raw rest :
  wire_record n raw → bytes_ok rest →
  scrub_chunk (S fuel) tag cap buf (raw ++ rest) =
    (buf ← (if negb (n =? tag) then memcpy_append cap buf raw else Ret buf);
     scrub_chunk fuel tag cap buf rest).
Proof.
  intros Hw Hrest. pose proof (wire_record_ok _ _ Hw) as [Hok Hne].
  destruct Hw as [tb vb Hsh Hlen Hv].
  assert (decode_varint ((tb ++ vb) ++ rest)
    = Some (u64 (varint_value tb), vb ++ rest)) as Hdec.
  { rewrite <- app_assoc. apply decode_varint_iff; [|by exists tb].
    rewrite app_assoc. by apply bytes_ok_app. }
  destruct ((tb ++ vb) ++ rest) as [|b l] eqn:E; [by destruct tb|].
  cbn [scrub_chunk]. rewrite <- E in *. rewrite Hdec.
  rewrite (skip_value_wire _ _ _ Hv Hrest).
  replace (take (length ((tb ++ vb) ++ rest) - length rest) ((tb ++ vb) ++ rest))
    with (tb ++ vb); [done|].
  rewrite take_app_length'; [done|]. rewrite (length_app (tb ++ vb)). lia.
Qed.

Lemma scrub_nil fuel tag cap buf : scrub_chunk (S fuel) tag cap buf [] = Ret buf.
Proof. done. Qed.

(** ** Scrubbing a chunk *)

Lemma scrub_records tag cap tail recs :
  Forall (λ r, wire_record r.1 r.2) recs → bytes_ok tail → ∀ fuel buf,
  (length (concat (recs.*2)) ≤ fuel)%nat →
  Z.of_nat (length buf + length (concat (recs.*2))) ≤ cap →
  ∃ fuel', (fuel - length (concat (recs.*2)) ≤ fuel')%nat ∧
  scrub_chunk fuel tag cap buf (concat (recs.*2) ++ tail) =
    scrub_chunk fuel' tag cap (buf ++ concat ((keep_records tag recs).*2)) tail.
Proof.
  intros Hr Htail. induction Hr as [|[n raw] recs Hw Hr IH]; intros fuel buf Hf Hcap; csimpl.
  - exists fuel. rewrite app_nil_r. split; [lia|done].
  - csimpl in *. rewrite length_app in Hf, Hcap.
    pose proof (wire_record_ok _ _ Hw) as [_ Hne].
    assert (length raw ≠ 0)%nat by (by destruct raw).
    destruct fuel as [|fuel]; [lia|].
    assert (bytes_ok (concat (recs.*2) ++ tail)) as Hrest.
    { apply bytes_ok_app. split; [|done]. by apply (well_formed_chunk_ok recs). }
    rewrite <- app_assoc, (scrub_step _ _ _ _ n) by done.
    unfold keep_records. csimpl. fold (keep_records tag recs).
    destruct (n =? tag); csimpl.
    + destruct (IH fuel buf) as (f & Hf' & ->); [lia|lia|].
      exists f. split; [rewrite length_app; lia|done].
    + rewrite memcpy_append_ok by lia. csimpl.
      destruct (IH fuel (buf ++ raw)) as (f & Hf' & ->);
        [lia|rewrite length_app; lia|].
      exists f. rewrite length_app, <- app_assoc. split; [lia|done].
Qed.

Lemma scanned_exists chunk : bytes_ok chunk → ∃ recs, scanned recs chunk.
Proof.
  induction chunk as [chunk IH] using (induction_ltof1 _ (@length Z)). intros Hok.
  destruct (first_record chunk Hok) as [(n & raw & tail & -> & Hw)|[Hn _]].
  - pose proof (wire_record_ok _ _ Hw) as [_ Hne]. apply bytes_ok_app in Hok as [_ Ht].
    destruct (IH tail) as (recs & rest & Hr & -> & Hrest); [|done|].
    { unfold ltof. rewrite length_app. destruct raw; [done|simpl; lia]. }
    exists ((n, raw) :: recs), rest. split; [by constructor|]. split; [csimpl; by rewrite app_assoc|done].
  - by exists [], chunk.
Qed.

Lemma scrub_scanned tag cap recs chunk fuel buf :
  scanned recs chunk → (length chunk < fuel)%nat →
  Z.of_nat (length buf + length chunk) ≤ cap →
  scrub_chunk fuel tag cap buf chunk = Ret (buf ++ concat ((keep_records tag recs).*2)).
Proof.
  intros (rest & Hr & -> & Hok & Hn) Hf Hcap. rewrite length_app in Hf, Hcap.
  destruct (scrub_records tag cap rest recs Hr Hok fuel buf) as (f & Hf' & ->); [lia|lia|].
  destruct f as [|f]; [lia|]. destruct (first_record rest Hok) as [(n & raw & tail & E & Hw)|[_ ->]]; [|done].
  by destruct (Hn n raw tail E).
Qed.

(** A record whose wire type is not handled ends the scrub of its chunk. *)
Lemma scrub_unsupported tag cap recs tb tail fuel buf :
  Forall (λ r, wire_record r.1 r.2) recs → varint_shape tb → (length tb ≤ 10)%nat →
  bytes_ok tail → Z.land (u64 (varint_value tb)) 7 ∉ [0; 1; 2; 5] →
  let chunk := concat (recs.*2) ++ tb ++ tail in
  (length chunk < fuel)%nat → Z.of_nat (length buf + length chunk) ≤ cap →
  scrub_chunk fuel tag cap buf chunk = Ret (buf ++ concat ((keep_records tag recs).*2)).
Proof.
  intros Hr Hsh Hlen Htail Hwt chunk Hf Hcap. subst chunk.
  rewrite length_app in Hf, Hcap.
  assert (bytes_ok (tb ++ tail)) as Hok
    by (apply bytes_ok_app; split; [by apply varint_shape_ok|done]).
  destruct (scrub_records tag cap _ recs Hr Hok fuel buf) as (f & Hf' & ->); [lia|lia|].
  destruct f as [|f]; [lia|].
  assert (decode_varint (tb ++ tail) = Some (u64 (varint_value tb), tail)) as Hd
    by (apply decode_varint_iff; [done|by exists tb]).
  destruct (tb ++ tail) as [|b l] eqn:E; [by destruct tb|].
  cbn [scrub_chunk]. rewrite Hd. unfold skip_value.
  rewrite !not_elem_of_cons in Hwt. destruct Hwt as (? & ? & ? & ? & _).
  by rewrite !(proj2 (Z.eqb_neq _ _)) by done.
Qed.

(** On arbitrary bytes the scrub neither overruns its buffer nor fails to stop. *)
Lemma scrub_safe tag cap fuel : ∀ buf ptr,
  bytes_ok ptr → (length ptr < fuel)%nat → Z.of_nat (length buf + length ptr) ≤ cap →
  ∃ out, scrub_chunk fuel tag cap buf ptr = Ret out ∧
         (length out ≤ length buf + length ptr)%nat.
Proof.
  induction fuel as [|fuel IH]; intros buf ptr Hok Hf Hcap; [lia|].
  cbn [scrub_chunk]. destruct ptr as [|b l] eqn:E; [by exists buf; split; [|lia]|].
  rewrite <- E in *. clear b l E.
  destruct (decode_varint ptr) as [[et te]|] eqn:Hd; [|exists buf; split; [done|lia]].
  destruct (skip_value te _) as [ee|] eqn:Hs; [|exists buf; split; [done|lia]].
  destruct (decode_varint_suffix _ _ _ Hd) as [tb ->].
  pose proof (decode_varint_shorter _ _ _ Hd) as Hlt. rewrite length_app in Hlt.
  apply bytes_ok_app in Hok as [_ Hte].
  destruct (skip_value_suffix _ _ _ Hte Hs) as [vb ->].
  apply bytes_ok_app in Hte as [_ Hee].
  rewrite !length_app in *.
  replace (take (length tb + (length vb + length ee) - length ee) (tb ++ vb ++ ee))
    with (tb ++ vb); swap 1 2.
  { rewrite app_assoc, take_app_length'; [done|]. rewrite length_app. lia. }
  destruct (Z.shiftr et 3 =? tag); simpl.
  - destruct (IH buf ee) as (out & -> & ?); [done|lia|lia|]. exists out. split; [done|lia].
  - rewrite memcpy_append_ok by (rewrite length_app; lia). simpl.
    destruct (IH (buf ++ tb ++ vb) ee) as (out & -> & Ho);
      [done|lia|rewrite !length_app; lia|].
    exists out. rewrite !length_app in Ho. split; [done|lia].
Qed.

(** ** Operations on the auxiliary data *)

Lemma DiscardUnknown_spec aux :
  DiscardUnknown_shallow aux = extensions aux.
Proof. induction aux as [|[| |] aux IH]; simpl; by rewrite ?IH. Qed.

Lemma chunks_app l1 l2 : chunks (l1 ++ l2) = chunks l1 ++ chunks l2.
Proof. apply omap_app. Qed.

Lemma chunks_extensions aux : chunks (extensions aux) = [].
Proof. by induction aux as [|[| |] aux IH]. Qed.

Lemma extensions_idem aux : extensions (extensions aux) = extensions aux.
Proof. induction aux as [|[| |] aux IH]; simpl; unfold extensions in *; simpl; congruence. Qed.

Lemma extensions_app l1 l2 : extensions (l1 ++ l2) = extensions l1 ++ extensions l2.
Proof. apply List.filter_app. Qed.

(** Whether the new data extends the last chunk or opens a new one, the
    unknown bytes grow by it and nothing else changes. *)
Lemma AddUnknown_spec ar aux data :
  reserve_slot ar = true → malloc_view ar = true →
  ∃ aux', AddUnknown_Copy ar aux data = (true, aux') ∧
          unknown_bytes aux' = unknown_bytes aux ++ data ∧
          extensions aux' = extensions aux.
Proof.
  intros Hr Hm. unfold AddUnknown_Copy. rewrite Hr, Hm. simpl.
  assert (∃ aux', (true, aux ++ [AuxUnknown false 16 data]) = (true, aux') ∧
    unknown_bytes aux' = unknown_bytes aux ++ data ∧ extensions aux' = extensions aux)
    as Hslow.
  { eexists; split_and!; [done| |].
    - unfold unknown_bytes. rewrite chunks_app, concat_app. simpl. by rewrite app_nil_r.
    - rewrite extensions_app. simpl. by rewrite app_nil_r. }
  destruct (last aux) as [[|[] off d|e]|] eqn:El; try done.
  case_match; [|done]. apply last_Some in El as [l ->].
  rewrite length_app. simpl. replace (length l + 1 - 1)%nat with (length l) by lia.
  rewrite take_app_length. eexists; split_and!; [done| |].
  - unfold unknown_bytes. rewrite !chunks_app, !concat_app. simpl.
    by rewrite !app_nil_r, app_assoc.
  - by rewrite !extensions_app.
Qed.

Lemma fold_scrub_safe tag cap cs : ∀ buf,
  Forall bytes_ok cs → Z.of_nat (length buf + length (concat cs)) ≤ cap →
  ∃ out, fold_chunks (λ nd c, scrub_chunk (S (length c)) tag cap nd c) cs buf = Ret out ∧
         (length out ≤ length buf + length (concat cs))%nat.
Proof.
  induction cs as [|c cs IH]; intros buf Hok Hcap; cbn [fold_chunks concat].
  - exists buf. split; [done|lia].
  - apply Forall_cons_1 in Hok as [Hc Hcs]. simpl in Hcap. rewrite length_app in *.
    destruct (scrub_safe tag cap (S (length c)) buf c) as (o & -> & Ho); [done|lia|lia|].
    rewrite bind_Ret. destruct (IH o) as (out & -> & Hout); [done|lia|].
    exists out. split; [done|lia].
Qed.

Lemma keep_records_length tag recs : (length (concat ((keep_records tag recs).*2)) ≤ length (concat (recs.*2)))%nat.
Proof.
  induction recs as [|[n raw] recs IH]; csimpl; [done|].
  unfold keep_records in *. csimpl. case_match; csimpl; rewrite ?length_app; lia.
Qed.

Lemma fold_scrub_scanned tag cap cs recss : ∀ buf,
  Forall2 scanned recss cs → Z.of_nat (length buf + length (concat cs)) ≤ cap →
  fold_chunks (λ nd c, scrub_chunk (S (length c)) tag cap nd c) cs buf =
    Ret (buf ++ concat ((keep_records tag (concat recss)).*2)).
Proof.
  intros buf Hwf. revert buf.
  induction Hwf as [|recs c recss cs Hc _ IH]; intros buf Hcap; cbn [fold_chunks concat].
  - by rewrite app_nil_r.
  - simpl in Hcap. rewrite length_app in Hcap.
    rewrite (scrub_scanned _ _ recs) by (done || lia). rewrite bind_Ret.
    assert (length (concat ((keep_records tag recs).*2)) ≤ length c)%nat as Hle.
    { destruct Hc as (rest & _ & -> & _). rewrite length_app. pose proof (keep_records_length tag recs). lia. }
    rewrite IH by (rewrite length_app; lia).
    unfold keep_records. rewrite List.filter_app, fmap_app, concat_app.
    by rewrite app_assoc.
Qed.

(** ** Properties of the set operations *)

Lemma GetSetMsg_inv h self m aux :
  GetSetMsg h self = Ret (Some (m, aux)) → msgs h !! m = Some aux.
Proof. unfold GetSetMsg. intros H. repeat case_match; simplify_eq. done. Qed.

(** C14: what [PerlUpb_UnknownFieldSet_DeleteTag] removes.  With memory enough, on any
    unknown data: each chunk has a longest run of records that are not groups at its start
    (all of it, when it is wire data without groups), and what is left are the records of
    those runs with another field number, byte for byte and in order.  So the records of
    the given number are gone, but so is the rest of a chunk from its first group, or byte
    that starts no record, on ([DeleteTag_drops_after_group]).  The extensions and all other
    messages are untouched. *)
Theorem DeleteTag_exact ar h self tag m aux :
  GetSetMsg h self = Ret (Some (m, aux)) →
  Forall bytes_ok (chunks aux) →
  Z.of_nat (length (unknown_bytes aux)) < 2 ^ 64 →
  malloc_tmp ar = true → reserve_slot ar = true → malloc_view ar = true →
  (∃ recss, Forall2 scanned recss (chunks aux)) ∧
  ∀ recss, Forall2 scanned recss (chunks aux) →
  ∃ aux', UnknownFieldSet_DeleteTag ar h self tag = Ret (with_msg h m aux') ∧
          unknown_bytes aux' = concat ((keep_records tag (concat recss)).*2) ∧
          extensions aux' = extensions aux.
Proof.
  intros Hset Hok Hlen Htmp Hres Hview. split.
  { clear -Hok. induction Hok as [|c cs Hc _ [recss IH]]; [by exists []|].
    destruct (scanned_exists c Hc) as [recs ?]. exists (recs :: recss). by constructor. }
  intros recss Hwf.
  unfold UnknownFieldSet_DeleteTag. rewrite Hset, bind_Ret.
  unfold delete_tag_aux. rewrite sum_sizes_spec, bind_Ret, u64_small by lia.
  rewrite Htmp, for_each_unknown_fold.
  rewrite (fold_scrub_scanned _ _ _ recss) by (done || (simpl; lia)).
  rewrite !bind_Ret, app_nil_l, DiscardUnknown_spec.
  set (out := concat _). destruct (0 <? length out)%nat eqn:E.
  - destruct (AddUnknown_spec ar (extensions aux) out) as (aux' & -> & Hb & He); try done.
    exists aux'. split_and!; [done| |by rewrite He, extensions_idem].
    rewrite Hb. unfold unknown_bytes. by rewrite chunks_extensions.
  - exists (extensions aux). split_and!; [done| |by rewrite extensions_idem].
    unfold unknown_bytes. rewrite chunks_extensions.
    by rewrite (length_0_nil _ E).
Qed.

Definition sample_answers : arena_answers :=
  {| try_extend := true; reserve_slot := true; malloc_view := true; malloc_tmp := true |}.
Definition sample_aux : list TaggedAuxPtr :=
  [AuxExtension 7; AuxUnknown false 16 ([160; 6; 5] ++ [170; 6; 2; 97; 98])].
Definition sample_heap : uheap :=
  {| msgs := {[ 1 := sample_aux ]}; sets := {[ 16 := 1 ]} |}.
Definition sample_set : set_sv := {| set_isa := true; set_iv := 16 |}.

Lemma scanned_all recs : Forall (λ r, wire_record r.1 r.2) recs → scanned recs (concat (recs.*2)).
Proof.
  intros Hr. exists []. rewrite app_nil_r. split_and!; [done|done|constructor|].
  intros n raw tail E Hw. apply wire_record_ok in Hw as [_ Hw]. symmetry in E. by apply app_eq_nil in E as [? _].
Qed.

Lemma DeleteTag_exact_witness :
  ∃ aux', UnknownFieldSet_DeleteTag sample_answers sample_heap sample_set 100
            = Ret (with_msg sample_heap 1 aux') ∧
          unknown_bytes aux' = [170; 6; 2; 97; 98] ∧
          extensions aux' = [AuxExtension 7].
Proof.
  apply (DeleteTag_exact sample_answers sample_heap sample_set 100 1 sample_aux)
    with (recss := [[(100, [160; 6; 5]); (101, [170; 6; 2; 97; 98])]]);
    [reflexivity|by_compute|reflexivity..|].
  constructor; [|constructor].
  apply (scanned_all [(100, [160; 6; 5]); (101, [170; 6; 2; 97; 98])]).
  constructor; [|constructor; [|constructor]].
  - apply (wire_record_intro [160; 6] [5]); [simpl; lia|simpl; lia|].
    apply wire_varint; simpl; lia.
  - apply (wire_record_intro [170; 6] [2; 97; 98]); [simpl; lia|simpl; lia|].
    apply (wire_delimited [2] [97; 98]); [simpl; lia|simpl; lia| |reflexivity].
    repeat constructor; unfold byte_ok; lia.
Defined.

(** [DeleteTag] is memory-safe on arbitrary unknown data: it never writes
    past the temporary buffer it sized in its first pass, its inner loop
    terminates, and the unknown data never grows. *)
Lemma DeleteTag_safe ar h self tag m aux :
  GetSetMsg h self = Ret (Some (m, aux)) →
  Forall bytes_ok (chunks aux) →
  Z.of_nat (length (unknown_bytes aux)) < 2 ^ 64 →
  malloc_tmp ar = true → reserve_slot ar = true → malloc_view ar = true →
  ∃ aux', UnknownFieldSet_DeleteTag ar h self tag = Ret (with_msg h m aux') ∧
          (length (unknown_bytes aux') ≤ length (unknown_bytes aux))%nat ∧
          extensions aux' = extensions aux.
Proof.
  intros Hset Hok Hlen Htmp Hres Hview.
  unfold UnknownFieldSet_DeleteTag. rewrite Hset, bind_Ret.
  unfold delete_tag_aux. rewrite sum_sizes_spec, bind_Ret, u64_small by lia.
  rewrite Htmp, for_each_unknown_fold.
  destruct (fold_scrub_safe tag (Z.of_nat (length (unknown_bytes aux))) (chunks aux) [])
    as (out & -> & Hout); [done|simpl; unfold unknown_bytes; lia|].
  rewrite !bind_Ret, DiscardUnknown_spec. simpl in Hout. fold (unknown_bytes aux) in Hout.
  destruct (0 <? length out)%nat eqn:E.
  - destruct (AddUnknown_spec ar (extensions aux) out) as (aux' & -> & Hb & He); try done.
    exists aux'. split_and!; [done| |by rewrite He, extensions_idem].
    rewrite Hb. unfold unknown_bytes at 1. rewrite chunks_extensions. simpl. lia.
  - exists (extensions aux). split_and!; [done| |by rewrite extensions_idem].
    unfold unknown_bytes at 1. rewrite chunks_extensions. simpl. lia.
Qed.

Lemma DeleteTag_safe_witness :
  ∃ aux', UnknownFieldSet_DeleteTag sample_answers sample_heap sample_set 101
            = Ret (with_msg sample_heap 1 aux') ∧
          (length (unknown_bytes aux') ≤ 8)%nat ∧
          extensions aux' = [AuxExtension 7].
Proof.
  apply (DeleteTag_safe sample_answers sample_heap sample_set 101 1 sample_aux);
    try reflexivity.
  by_compute.
Defined.

(** A group (or any record whose wire type is not 0, 1, 2 or 5) makes
    [DeleteTag] lose data it was not asked to delete: the scrub of the chunk
    stops there, and the group and every record after it are dropped, whatever
    their field numbers. *)
Lemma DeleteTag_drops_after_group ar h self tag m aux recs tb tail :
  GetSetMsg h self = Ret (Some (m, aux)) →
  Forall (λ r, wire_record r.1 r.2) recs →
  varint_shape tb → (length tb ≤ 10)%nat → bytes_ok tail →
  Z.land (u64 (varint_value tb)) 7 ∉ [0; 1; 2; 5] →
  chunks aux = [concat (recs.*2) ++ tb ++ tail] →
  Z.of_nat (length (unknown_bytes aux)) < 2 ^ 64 →
  malloc_tmp ar = true → reserve_slot ar = true → malloc_view ar = true →
  ∃ aux', UnknownFieldSet_DeleteTag ar h self tag = Ret (with_msg h m aux') ∧
          unknown_bytes aux' = concat ((keep_records tag recs).*2).
Proof.
  intros Hset Hr Hsh Htb Htail Hwt Hch Hlen Htmp Hres Hview.
  unfold UnknownFieldSet_DeleteTag. rewrite Hset, bind_Ret.
  unfold delete_tag_aux. rewrite sum_sizes_spec, bind_Ret, u64_small by lia.
  rewrite Htmp, for_each_unknown_fold. unfold unknown_bytes in *. rewrite Hch in *.
  cbn [fold_chunks concat] in *. rewrite app_nil_r in *.
  rewrite scrub_unsupported by (done || lia || (simpl; lia)).
  rewrite !bind_Ret, app_nil_l, DiscardUnknown_spec.
  set (out := concat _). destruct (0 <? length out)%nat eqn:E.
  - destruct (AddUnknown_spec ar (extensions aux) out) as (aux' & -> & Hb & He); try done.
    exists aux'. split; [done|]. unfold unknown_bytes in Hb.
    by rewrite Hb, chunks_extensions.
  - exists (extensions aux). split; [done|]. rewrite chunks_extensions.
    by rewrite (length_0_nil _ E).
Qed.

(** A group of field 1 holding [1: 5], then field 101: deleting field 100, which
    does not occur, empties the unknown fields. *)
Lemma DeleteTag_drops_after_group_witness :
  let aux := [AuxUnknown false 16 ([] ++ [11] ++ [8; 5; 12; 170; 6; 1; 97])] in
  let h := {| msgs := {[ 1 := aux ]}; sets := {[ 16 := 1 ]} |} in
  ∃ aux', UnknownFieldSet_DeleteTag sample_answers h sample_set 100
            = Ret (with_msg h 1 aux') ∧ unknown_bytes aux' = [].
Proof.
  intros aux h.
  apply (DeleteTag_drops_after_group sample_answers h sample_set 100 1 aux
    [] [11] [8; 5; 12; 170; 6; 1; 97]); try reflexivity.
  - constructor.
  - simpl; lia.
  - simpl; lia.
  - by_compute.
  - by_compute.
Defined.

(** [Add] appends: whether upb extends the last chunk in place or opens a
    new one, reading the data back (through the same set object or any other
    set aliasing the same message) yields the old data followed by the new. *)
Lemma Add_GetData ar h self other m aux data :
  GetSetMsg h self = Ret (Some (m, aux)) →
  GetSetMsg h other = Ret (Some (m, aux)) →
  reserve_slot ar = true → malloc_view ar = true →
  Z.of_nat (length (unknown_bytes aux) + length data) < 2 ^ 64 →
  ∃ h' old, UnknownFieldSet_Add ar h self data = Ret h' ∧
    UnknownFieldSet_GetData h other = Ret (Some old) ∧
    UnknownFieldSet_GetData h' other = Ret (Some (old ++ data)).
Proof.
  intros Hs Ho Hr Hv Hlen.
  assert (∀ g s a, GetSetMsg g s = Ret (Some (m, a)) →
    Z.of_nat (length (unknown_bytes a)) < 2 ^ 64 →
    UnknownFieldSet_GetData g s = Ret (Some (unknown_bytes a))) as Hget.
  { intros g s a Hg Hl. unfold UnknownFieldSet_GetData.
    rewrite Hg, bind_Ret, sum_sizes_spec, bind_Ret, u64_small by lia.
    case_match eqn:E; bool_to_prop.
    - destruct (unknown_bytes a); [done|simpl in E; lia].
    - rewrite for_each_unknown_fold, memcpy_append_fold; [done|].
      simpl. unfold unknown_bytes. lia. }
  destruct (AddUnknown_spec ar aux data) as (aux' & Ha & Hb & _); try done.
  exists (with_msg h m aux'), (unknown_bytes aux). split_and!.
  - unfold UnknownFieldSet_Add. by rewrite Hs, bind_Ret, Ha.
  - apply Hget; [done|lia].
  - rewrite <- Hb. apply Hget; [|rewrite Hb, length_app; lia].
    clear Hs. unfold GetSetMsg in *. simpl. repeat case_match; simplify_eq; try done.
    all: by rewrite lookup_insert_eq in *; simplify_eq.
Qed.

Lemma Add_GetData_witness :
  ∃ h' old, UnknownFieldSet_Add sample_answers sample_heap sample_set [8; 1] = Ret h' ∧
    UnknownFieldSet_GetData sample_heap sample_set = Ret (Some old) ∧
    UnknownFieldSet_GetData h' sample_set = Ret (Some (old ++ [8; 1])).
Proof.
  apply (Add_GetData sample_answers sample_heap sample_set sample_set 1 sample_aux [8; 1]);
    reflexivity.
Defined.
