(* ===== verification/BlockAlloc.v ===== *)
(** * The linear block allocator (xs/protobuf/arena_tmpfs.c, arena.h)

    [PerlUpb_BlockAlloc] carves blocks out of one region by bumping an offset,
    and brackets each block with two 16-byte canaries that are checked when the
    block is freed or reallocated.  Addresses are offsets into the region, which
    [mmap] or [malloc] returns 16-byte aligned. *)

From S2P Require Import Prelude.

(** ** The region: a byte array *)

(** A store of [bs] at [off]; outside the region it is undefined behaviour. *)
Definition mem_write (region : bytes) (off : Z) (bs : bytes) : outcome bytes :=
  if (0 <=? off) && (off + Z.of_nat (length bs) <=? Z.of_nat (length region)) then
    let o := Z.to_nat off in
    Ret (take o region ++ bs ++ drop (o + length bs) region)
  else Fault "store outside the region".

Definition mem_read (region : bytes) (off : Z) (n : nat) : outcome bytes :=
  if (0 <=? off) && (off + Z.of_nat n <=? Z.of_nat (length region)) then
    Ret (take n (drop (Z.to_nat off) region))
  else Fault "load outside the region".

(** [PERL_UPB_CANARY_PATTERN] stored twice, little-endian. *)
Definition PERL_UPB_CANARY_SIZE : Z := 16.
Definition canary_word : bytes := [190; 186; 254; 202; 239; 190; 173; 222].
Definition canary : bytes := canary_word ++ canary_word.

(** [PerlUpb_WriteCanaries(ptr, size)]. *)
Definition WriteCanaries (region : bytes) (ptr size : Z) : outcome bytes :=
  region ← mem_write region ptr canary;
  mem_write region (ptr + PERL_UPB_CANARY_SIZE + size) canary.

(** ** Allocator state *)

Inductive BlockType := PERL_UPB_BLOCK_MMAP | PERL_UPB_BLOCK_MALLOC.

#[export] Instance BlockType_eq_dec : EqDecision BlockType.
Proof. solve_decision. Defined.

Record BlockAlloc := {
  type : BlockType;
  region : bytes;
  size : Z;
  offset : Z;
  poisoned : bool;
  mmap_size : Z;
}.

Definition with_region (b : BlockAlloc) (r : bytes) : BlockAlloc :=
  {| type := type b; region := r; size := size b; offset := offset b;
     poisoned := poisoned b; mmap_size := mmap_size b |}.
Definition with_poisoned (b : BlockAlloc) : BlockAlloc :=
  {| type := type b; region := region b; size := size b; offset := offset b;
     poisoned := true; mmap_size := mmap_size b |}.
Definition with_offset (b : BlockAlloc) (o : Z) : BlockAlloc :=
  {| type := type b; region := region b; size := size b; offset := o;
     poisoned := poisoned b; mmap_size := mmap_size b |}.

(** The result of a call that may croak after having set [poisoned]: the state
    is observable by whoever catches the exception. *)
Inductive alloc_result :=
  | Returned (ptr : option Z) (b : BlockAlloc)
  | Croaked (msg : string) (b : BlockAlloc)
  | UB (why : string).

Definition lift (b : BlockAlloc) {A} (m : outcome A) (k : A → alloc_result) : alloc_result :=
  match m with Ret a => k a | Croak s => Croaked s b | Fault s => UB s end.

(** [PerlUpb_VerifyCanaries(ptr, size, msg, &b->poisoned)]. *)
Definition VerifyCanaries (b : BlockAlloc) (ptr size : Z) (msg : string) (k : alloc_result) : alloc_result :=
  lift b (mem_read (region b) (ptr - PERL_UPB_CANARY_SIZE) 16) (fun start =>
  if negb (bool_decide (start = canary)) then
    Croaked ("MEMORY CORRUPTION DETECTED (Underflow): " +:+ msg) (with_poisoned b)
  else
  lift b (mem_read (region b) (ptr + size) 16) (fun end_ =>
  if negb (bool_decide (end_ = canary)) then
    Croaked ("MEMORY CORRUPTION DETECTED (Overflow): " +:+ msg) (with_poisoned b)
  else k)).

(** [(requested_size + 15) & ~15] on [size_t]. *)
Definition align_up16 (n : Z) : Z := Z.land (u64 (n + 15)) (u64 (Z.lnot 15)).

(** The ALLOC branch, without guard pages. *)
Definition BlockAlloc_alloc (b : BlockAlloc) (sz : Z) : alloc_result :=
  let requested_size := u64 (sz + 2 * PERL_UPB_CANARY_SIZE) in
  let aligned_size := align_up16 requested_size in
  if size b <? u64 (offset b + aligned_size) then Returned None b
  else
    let raw := offset b in
    lift b (WriteCanaries (region b) raw sz) (fun r =>
    let ret := raw + PERL_UPB_CANARY_SIZE in
    Returned (Some ret) (with_offset (with_region b r) (u64 (offset b + aligned_size)))).

(** [PerlUpb_BlockAlloc_Func(alloc, ptr, oldsize, size, &actual)] when
    [_use_guard_pages()] is false or the block is not malloc-backed.  The
    REALLOC branch calls the function again with a NULL pointer. *)
Definition BlockAlloc_Func (b : BlockAlloc) (ptr : option Z) (oldsize sz : Z) : alloc_result :=
  if poisoned b then Returned None b
  else if sz =? 0 then
    match ptr with
    | Some p => VerifyCanaries b p oldsize "BlockAlloc free" (Returned None b)
    | None => Returned None b
    end
  else match ptr with
  | Some p =>
      VerifyCanaries b p oldsize "BlockAlloc realloc"
        (match BlockAlloc_alloc b sz with
         | Returned (Some new_ptr) b' =>
             if 0 <? oldsize then
               let n := Z.to_nat (Z.min oldsize sz) in
               lift b' (mem_read (region b') p n) (fun old =>
               lift b' (mem_write (region b') new_ptr old) (fun r =>
               Returned (Some new_ptr) (with_region b' r)))
             else Returned (Some new_ptr) b'
         | other => other
         end)
  | None => BlockAlloc_alloc b sz
  end.

(** ** Guard pages (malloc-backed blocks, POSIX) *)

(** The system calls: [mmap_anon n] is the address of a fresh mapping,
    [mprotect addr len] whether the protection change succeeded. *)
Record vm_calls := {
  mmap_anon : Z → option Z;
  mprotect : Z → Z → bool;
}.

(** The guard-page ALLOC branch: on success the user pointer, the new
    [mmap_size] and the new base and usable size. *)
Definition guard_alloc (vm : vm_calls) (page_size data_size : Z) : option (Z * Z) :=
  let total_alloc := u64 (page_size * 2 + data_size) in
  match mmap_anon vm total_alloc with
  | None => None
  | Some mem =>
      if negb (mprotect vm mem page_size) then None
      else if negb (mprotect vm (mem + page_size + data_size) page_size) then None
      else Some (mem + page_size, total_alloc)
  end.

(** ** Arena offsets (tmpfs arenas) *)

(** [PerlUpb_Arena_GetOffset]: [base] is the mapping's address. *)
Definition GetOffset (is_tmpfs : bool) (base : Z) (b : BlockAlloc) (ptr : Z) : Z :=
  if negb is_tmpfs then 0
  else if (ptr <? base) || (base + size b <=? ptr) then 0
  else ptr - base.

(** [PerlUpb_Arena_AttachMessage], up to the wrapped pointer; [known] says
    whether the generated pool has the message type. *)
Definition AttachMessage (is_tmpfs known : bool) (base : Z) (b : BlockAlloc) (off : Z)
  : outcome Z :=
  if negb is_tmpfs then Croak "Arena is not a tmpfs arena"
  else if size b <=? off then Croak "Offset out of bounds for arena size"
  else if negb known then Croak "Message definition not found"
  else Ret (base + off).

(** ** Region lemmas *)

Lemma mem_write_ok r off bs :
  0 ≤ off → off + Z.of_nat (length bs) ≤ Z.of_nat (length r) →
  mem_write r off bs =
    Ret (take (Z.to_nat off) r ++ bs ++ drop (Z.to_nat off + length bs) r).
Proof.
  intros H1 H2. unfold mem_write.
  rewrite (proj2 (Z.leb_le _ _) H1), (proj2 (Z.leb_le _ _) H2). done.
Qed.

Lemma mem_read_ok r off n :
  0 ≤ off → off + Z.of_nat n ≤ Z.of_nat (length r) →
  mem_read r off n = Ret (take n (drop (Z.to_nat off) r)).
Proof.
  intros H1 H2. unfold mem_read.
  rewrite (proj2 (Z.leb_le _ _) H1), (proj2 (Z.leb_le _ _) H2). done.
Qed.

Lemma mem_write_inv r off bs r' :
  mem_write r off bs = Ret r' →
  0 ≤ off ∧ off + Z.of_nat (length bs) ≤ Z.of_nat (length r) ∧
  length r' = length r ∧
  (∀ i : nat, (off ≤ Z.of_nat i < off + Z.of_nat (length bs)) →
     r' !! i = bs !! (i - Z.to_nat off)%nat) ∧
  (∀ i : nat, ¬ (off ≤ Z.of_nat i < off + Z.of_nat (length bs)) → r' !! i = r !! i).
Proof.
  unfold mem_write. case_match eqn:E; [|done]. bool_to_prop. intros [= <-].
  split_and!; [done|done| | |].
  - rewrite !length_app, length_take, length_drop. lia.
  - intros i Hi. rewrite lookup_app_r by (rewrite length_take; lia).
    rewrite length_take, Nat.min_l by lia. rewrite lookup_app_l by lia. done.
  - intros i Hi. destruct (decide (Z.of_nat i < off)).
    + rewrite lookup_app_l by (rewrite length_take; lia).
      by rewrite lookup_take_lt by lia.
    + rewrite lookup_app_r by (rewrite length_take; lia).
      rewrite length_take, Nat.min_l by lia. rewrite lookup_app_r by lia.
      rewrite lookup_drop. f_equal. lia.
Qed.

(** Two loads agree when the bytes they cover agree. *)
Lemma mem_read_ext r r' off n :
  length r = length r' →
  (∀ i : nat, off ≤ Z.of_nat i < off + Z.of_nat n → r !! i = r' !! i) →
  mem_read r off n = mem_read r' off n.
Proof.
  intros Hlen Heq. unfold mem_read. rewrite <- Hlen.
  case_match eqn:E; [|done]. bool_to_prop. f_equal. apply list_eq. intros j.
  destruct (decide (j < n)%nat).
  - rewrite !lookup_take_lt, !lookup_drop by done. apply Heq. lia.
  - rewrite !lookup_take_ge by lia. done.
Qed.

Lemma mem_read_write_ne r off bs r' off' n :
  mem_write r off bs = Ret r' →
  off' + Z.of_nat n ≤ off ∨ off + Z.of_nat (length bs) ≤ off' →
  mem_read r' off' n = mem_read r off' n.
Proof.
  intros (_ & _ & Hlen & _ & Hne)%mem_write_inv Hd.
  apply mem_read_ext; [done|]. intros i Hi. apply Hne. lia.
Qed.

Lemma mem_read_write_eq r off bs r' :
  mem_write r off bs = Ret r' → mem_read r' off (length bs) = Ret bs.
Proof.
  intros Hw. pose proof (mem_write_inv _ _ _ _ Hw) as (Ho & Hb & Hlen & Heq & _).
  rewrite mem_read_ok by (rewrite ?Hlen; lia). f_equal. apply list_eq. intros j.
  destruct (decide (j < length bs)%nat).
  - rewrite lookup_take_lt, lookup_drop, Heq by lia. f_equal. lia.
  - rewrite lookup_take_ge by lia. symmetry. apply lookup_ge_None. lia.
Qed.

Lemma length_canary : length canary = 16%nat.
Proof. done. Qed.

(** [WriteCanaries] in bounds: both canaries are in place and every byte
    outside them is unchanged. *)
Lemma WriteCanaries_spec r ptr n :
  0 ≤ ptr → 0 ≤ n → ptr + n + 32 ≤ Z.of_nat (length r) →
  ∃ r', WriteCanaries r ptr n = Ret r' ∧ length r' = length r ∧
    mem_read r' ptr 16 = Ret canary ∧ mem_read r' (ptr + 16 + n) 16 = Ret canary ∧
    (∀ i : nat, Z.of_nat i < ptr ∨ ptr + n + 32 ≤ Z.of_nat i → r' !! i = r !! i).
Proof.
  intros Hp Hn Hb. unfold WriteCanaries, PERL_UPB_CANARY_SIZE.
  destruct (mem_write r ptr canary) as [r1| |] eqn:E1;
    [|by rewrite mem_write_ok in E1 by (rewrite ?length_canary; lia)
     |by rewrite mem_write_ok in E1 by (rewrite ?length_canary; lia)].
  rewrite bind_Ret. pose proof (mem_write_inv _ _ _ _ E1) as (_ & _ & Hl1 & _ & Hne1).
  destruct (mem_write r1 (ptr + 16 + n) canary) as [r2| |] eqn:E2;
    [|by rewrite mem_write_ok in E2 by (rewrite ?length_canary, ?Hl1; lia)
     |by rewrite mem_write_ok in E2 by (rewrite ?length_canary, ?Hl1; lia)].
  pose proof (mem_write_inv _ _ _ _ E2) as (_ & _ & Hl2 & _ & Hne2).
  rewrite length_canary in *. exists r2. split_and!; [done|lia| | |].
  - rewrite (mem_read_write_ne _ _ _ _ _ _ E2) by (rewrite ?length_canary; lia).
    apply (mem_read_write_eq _ _ _ _ E1).
  - apply (mem_read_write_eq _ _ _ _ E2).
  - intros i Hi. rewrite Hne2, Hne1 by lia. done.
Qed.

Lemma align_up16_spec n :
  0 ≤ n → n + 15 < 2 ^ 64 →
  n ≤ align_up16 n < n + 16 ∧ align_up16 n mod 16 = 0.
Proof.
  intros H0 H1. unfold align_up16. rewrite u64_small by lia.
  change (u64 (Z.lnot 15)) with (Z.shiftl (Z.ones 60) 4).
  assert (Z.land (n + 15) (Z.shiftl (Z.ones 60) 4) = (n + 15) / 16 * 16) as ->.
  { transitivity (Z.shiftl (Z.land (Z.shiftr (n + 15) 4) (Z.ones 60)) 4).
    - apply Z.bits_inj'. intros i Hi. rewrite Z.land_spec.
      destruct (decide (i < 4)).
      + by rewrite !Z.shiftl_spec_low, andb_false_r by lia.
      + rewrite !Z.shiftl_spec, Z.land_spec, Z.shiftr_spec by lia.
        do 2 f_equal. lia.
    - rewrite Z.land_ones, Z.shiftl_mul_pow2, Z.shiftr_div_pow2 by lia.
      change (2 ^ 4) with 16. rewrite Z.mod_small; [done|].
      split; [apply Z.div_pos; lia|]. apply Z.div_lt_upper_bound; lia. }
  pose proof (Z.div_mod (n + 15) 16). pose proof (Z.mod_pos_bound (n + 15) 16).
  split; [lia|]. apply Z.mod_mul. lia.
Qed.

(** ** Clients of the allocator

    A block is its pointer and requested size; the list keeps every block ever
    handed out.  A client allocates, stores inside its blocks, frees and
    reallocates them with the sizes it asked for; requests outside this contract
    are not issued. *)
Abbreviation blocks := (list (Z * Z)).

Inductive client_op :=
  | OAlloc (sz : Z)
  | OStore (i : nat) (o : Z) (bs : bytes)
  | OFree (i : nat)
  | ORealloc (i : nat) (sz : Z).

Definition request_ok (sz : Z) : bool := (0 <? sz) && (sz <? 2 ^ 62).

(** [None]: the allocator croaked or had undefined behaviour. *)
Definition handed_out (bl : blocks) (sz : Z) (r : alloc_result) : option (BlockAlloc * blocks) :=
  match r with
  | Returned (Some p) b => Some (b, (p, sz) :: bl)
  | Returned None b => Some (b, bl)
  | Croaked _ _ | UB _ => None
  end.

Definition client_step (st : BlockAlloc * blocks) (op : client_op)
  : option (BlockAlloc * blocks) :=
  let '(b, bl) := st in
  match op with
  | OAlloc sz =>
      if request_ok sz then handed_out bl sz (BlockAlloc_Func b None 0 sz) else Some st
  | OStore i o bs =>
      match bl !! i with
      | Some (p, n) =>
          if (0 <=? o) && (o + Z.of_nat (length bs) <=? n) then
            match mem_write (region b) (p + o) bs with
            | Ret r => Some (with_region b r, bl)
            | _ => None
            end
          else Some st
      | None => Some st
      end
  | OFree i =>
      match bl !! i with
      | Some (p, n) => handed_out bl 0 (BlockAlloc_Func b (Some p) n 0)
      | None => Some st
      end
  | ORealloc i sz =>
      match bl !! i with
      | Some (p, n) =>
          if request_ok sz then handed_out bl sz (BlockAlloc_Func b (Some p) n sz) else Some st
      | None => Some st
      end
  end.

Fixpoint client_run (st : BlockAlloc * blocks) (ops : list client_op)
  : option (BlockAlloc * blocks) :=
  match ops with
  | [] => Some st
  | op :: ops => st ← client_step st op; client_run st ops
  end.

(** [NewBlock]/[NewTmpfs]: a fresh allocator over a zeroed region. *)
Definition new_block_alloc (ty : BlockType) (len : nat) : BlockAlloc :=
  {| type := ty; region := repeat 0 len; size := Z.of_nat len; offset := 0;
     poisoned := false; mmap_size := Z.of_nat len |}.

(** ** The allocator's invariant *)

Definition alloc_wf (b : BlockAlloc) : Prop :=
  poisoned b = false ∧ size b = Z.of_nat (length (region b)) ∧
  0 ≤ offset b ≤ size b ∧ size b < 2 ^ 62 ∧ offset b mod 16 = 0.

Definition canaries_ok (b : BlockAlloc) (blk : Z * Z) : Prop :=
  mem_read (region b) (blk.1 - 16) 16 = Ret canary ∧
  mem_read (region b) (blk.1 + blk.2) 16 = Ret canary.

Definition block_ok (b : BlockAlloc) (blk : Z * Z) : Prop :=
  16 ≤ blk.1 ∧ blk.1 mod 16 = 0 ∧ 0 < blk.2 < 2 ^ 62 ∧ blk.1 + blk.2 + 16 ≤ offset b ∧
  canaries_ok b blk.

(** The blocks, red zones included, do not overlap. *)
Definition separated (x y : Z * Z) : Prop :=
  x.1 + x.2 + 16 ≤ y.1 - 16 ∨ y.1 + y.2 + 16 ≤ x.1 - 16.

Definition alloc_inv (b : BlockAlloc) (bl : blocks) : Prop :=
  alloc_wf b ∧ Forall (block_ok b) bl ∧
  ∀ i j x y, bl !! i = Some x → bl !! j = Some y → i ≠ j → separated x y.

Lemma new_block_alloc_inv ty len :
  Z.of_nat len < 2 ^ 62 → alloc_inv (new_block_alloc ty len) [].
Proof.
  intros Hl. split; [|split; [constructor|by intros ????? [=]]].
  unfold alloc_wf; simpl. rewrite repeat_length. split_and!; (done || lia).
Qed.

Lemma VerifyCanaries_ok b p n msg k :
  canaries_ok b (p, n) → VerifyCanaries b p n msg k = k.
Proof.
  intros [H1 H2]. simpl in *. unfold VerifyCanaries, PERL_UPB_CANARY_SIZE.
  rewrite H1. cbn [lift]. rewrite bool_decide_eq_true_2 by done. cbn [negb].
  rewrite H2. cbn [lift]. by rewrite bool_decide_eq_true_2 by done.
Qed.

(** The ALLOC branch: NULL with the state unchanged, or a fresh aligned block in
    the unused part of the region, both canaries in place, every byte below the
    old offset unchanged. *)
Lemma BlockAlloc_alloc_spec b sz :
  alloc_wf b → 0 < sz < 2 ^ 62 →
  BlockAlloc_alloc b sz = Returned None b ∨
  ∃ r, let p := offset b + 16 in
    let b' := with_offset (with_region b r) (offset b + align_up16 (sz + 32)) in
    BlockAlloc_alloc b sz = Returned (Some p) b' ∧
    alloc_wf b' ∧ block_ok b' (p, sz) ∧ offset b ≤ offset b' ∧
    (∀ i : nat, Z.of_nat i < offset b → r !! i = region b !! i).
Proof.
  intros (Hp & Hsz & Ho & Hmax & Hal) Hn. unfold BlockAlloc_alloc.
  change (2 * PERL_UPB_CANARY_SIZE) with 32.
  rewrite (u64_small (sz + 32)) by lia.
  destruct (align_up16_spec (sz + 32)) as [Hup Hmod]; [lia|lia|].
  rewrite (u64_small (offset b + _)) by lia.
  destruct (size b <? _) eqn:E; [by left|right]. bool_to_prop.
  destruct (WriteCanaries_spec (region b) (offset b) sz)
    as (r & -> & Hlen & Hc1 & Hc2 & Hsame); [lia|lia|lia|].
  exists r. simpl. split_and!; [done| | |lia|].
  - unfold alloc_wf; simpl. split_and!; try done; try lia.
    rewrite Z.add_mod, Hal, Hmod by lia. done.
  - unfold block_ok, canaries_ok; simpl. split_and!; try lia.
    + rewrite Z.add_mod, Hal by lia. done.
    + by replace (offset b + 16 - 16) with (offset b) by lia.
    + done.
  - intros i Hi. apply Hsame. lia.
Qed.

Lemma block_ok_frame b b' blk :
  block_ok b blk → offset b ≤ offset b' → length (region b') = length (region b) →
  (∀ i : nat, blk.1 - 16 ≤ Z.of_nat i < blk.1 ∨
              blk.1 + blk.2 ≤ Z.of_nat i < blk.1 + blk.2 + 16 →
              region b' !! i = region b !! i) →
  block_ok b' blk.
Proof.
  intros (H1 & H2 & H3 & H4 & Hc1 & Hc2) Ho Hlen Hsame.
  unfold block_ok, canaries_ok. split_and!; try done; try lia.
  - rewrite <- Hc1. apply mem_read_ext; [done|]. intros i Hi. apply Hsame. lia.
  - rewrite <- Hc2. apply mem_read_ext; [done|]. intros i Hi. apply Hsame. lia.
Qed.

(** Adding the block just handed out. *)
Lemma alloc_inv_push b b' bl blk :
  alloc_inv b bl → alloc_wf b' → block_ok b' blk → blk.1 - 16 = offset b →
  offset b ≤ offset b' → length (region b') = length (region b) →
  (∀ i : nat, Z.of_nat i < offset b → region b' !! i = region b !! i) →
  alloc_inv b' (blk :: bl).
Proof.
  intros (Hwf & Hbl & Hsep) Hwf' Hblk Hp Ho Hlen Hsame.
  rewrite Forall_forall in Hbl.
  split_and!; [done| |].
  - constructor; [done|]. apply Forall_forall. intros x Hx.
    destruct (Hbl x Hx) as (? & ? & ? & ? & ?).
    apply (block_ok_frame b); [by apply Hbl|done|done|]. intros i Hi. apply Hsame. lia.
  - assert (∀ x, x ∈ bl → separated x blk ∧ separated blk x) as Hnew.
    { intros x Hx. destruct (Hbl x Hx) as (? & ? & ? & ? & ?). unfold separated. lia. }
    intros [|i] [|j] x y; simpl; intros Hx Hy Hij; simplify_eq.
    + apply Hnew. by eapply list_elem_of_lookup_2.
    + apply Hnew. by eapply list_elem_of_lookup_2.
    + eapply Hsep; [done|done|lia].
Qed.

(** A store strictly inside one block leaves the invariant alone. *)
Lemma alloc_inv_store b bl i p n o bs r :
  alloc_inv b bl → bl !! i = Some (p, n) → 0 ≤ o → o + Z.of_nat (length bs) ≤ n →
  mem_write (region b) (p + o) bs = Ret r → alloc_inv (with_region b r) bl.
Proof.
  intros (Hwf & Hbl & Hsep) Hi Ho Hon Hw.
  pose proof (mem_write_inv _ _ _ _ Hw) as (_ & _ & Hlen & _ & Hne).
  split_and!; [|apply Forall_forall; intros [q m] Hq|done].
  - destruct Hwf as (? & ? & ? & ? & ?). split_and!; simpl; try done; lia.
  - rewrite Forall_forall in Hbl.
    apply (block_ok_frame b); [by apply Hbl|done|done|]. simpl. intros k Hk. apply Hne.
    apply list_elem_of_lookup in Hq as [j Hj].
    destruct (Hbl (q, m)) as (? & ? & ? & ? & ?); [by eapply list_elem_of_lookup_2|].
    destruct (decide (i = j)) as [<-|Hij]; simplify_eq/=.
    + lia.
    + pose proof (Hsep i j _ _ Hi Hj Hij) as Hd. unfold separated in Hd. simpl in Hd. lia.
Qed.

Lemma alloc_step_inv b bl sz r :
  alloc_inv b bl → 0 < sz < 2 ^ 62 → r = BlockAlloc_alloc b sz →
  (r = Returned None b) ∨
  ∃ p b', r = Returned (Some p) b' ∧ alloc_inv b' ((p, sz) :: bl) ∧
    (∀ i : nat, Z.of_nat i < offset b → region b' !! i = region b !! i) ∧ p = offset b + 16.
Proof.
  intros Hinv Hsz ->. destruct (Hinv) as (Hwf & _ & _).
  destruct (BlockAlloc_alloc_spec b sz Hwf Hsz) as [|(r & -> & Hwf' & Hb & Ho & Hsame)];
    [by left|right].
  do 2 eexists; split_and!; [done| |done|done].
  eapply alloc_inv_push; try done; simpl; [lia|].
  destruct Hwf as (_ & ? & _), Hwf' as (_ & ? & _). simpl in *. lia.
Qed.

Lemma client_step_inv b bl op :
  alloc_inv b bl → ∃ b' bl', client_step (b, bl) op = Some (b', bl') ∧ alloc_inv b' bl'.
Proof.
  intros Hinv. pose proof Hinv as ((Hpo & Hlen & Hoff & _) & Hbl & Hsep).
  rewrite Forall_forall in Hbl.
  destruct op as [sz|i o bs|i|i sz]; simpl.
  - destruct (request_ok sz) eqn:E; [|by exists b, bl].
    unfold request_ok in E. bool_to_prop.
    unfold BlockAlloc_Func. rewrite Hpo, (proj2 (Z.eqb_neq sz 0)) by lia.
    destruct (alloc_step_inv b bl sz _ Hinv ltac:(lia) eq_refl)
      as [->|(p & b' & -> & ? & _)]; simpl; eauto.
  - destruct (bl !! i) as [[p n]|] eqn:Hi; [|by exists b, bl].
    destruct ((0 <=? o) && _) eqn:E; [|by exists b, bl]. bool_to_prop.
    destruct (Hbl (p, n)) as (? & ? & ? & ? & ?); [by eapply list_elem_of_lookup_2|].
    simpl in *. destruct (mem_write (region b) (p + o) bs) as [r| |] eqn:Hw;
      [|by rewrite mem_write_ok in Hw by lia|by rewrite mem_write_ok in Hw by lia].
    do 2 eexists; split; [done|]. by eapply alloc_inv_store.
  - destruct (bl !! i) as [[p n]|] eqn:Hi; [|by exists b, bl].
    destruct (Hbl (p, n)) as (? & ? & ? & ? & ?); [by eapply list_elem_of_lookup_2|].
    unfold BlockAlloc_Func. rewrite Hpo. simpl. rewrite VerifyCanaries_ok by done. simpl. eauto.
  - destruct (bl !! i) as [[p n]|] eqn:Hi; [|by exists b, bl].
    destruct (request_ok sz) eqn:E; [|by exists b, bl]. unfold request_ok in E. bool_to_prop.
    destruct (Hbl (p, n)) as (? & ? & ? & ? & ?); [by eapply list_elem_of_lookup_2|].
    simpl in *. unfold BlockAlloc_Func. rewrite Hpo, (proj2 (Z.eqb_neq sz 0)) by lia.
    rewrite VerifyCanaries_ok by done.
    destruct (alloc_step_inv b bl sz _ Hinv ltac:(lia) eq_refl)
      as [->|(q & b' & -> & Hinv' & Hsame & ->)]; simpl; [eauto|].
    rewrite (proj2 (Z.ltb_lt 0 n)) by lia.
    pose proof Hinv' as ((_ & Hlen' & Hoff' & _) & Hbl' & _).
    apply Forall_cons_1 in Hbl' as [(? & ? & ? & ? & ?) Hbl'].
    rewrite Forall_forall in Hbl'. simpl in *.
    destruct (Hbl' (p, n)) as (? & ? & ? & ? & ?); [by eapply list_elem_of_lookup_2|].
    simpl in *. rewrite mem_read_ok by lia. simpl. rewrite mem_write_ok.
    + simpl. do 2 eexists; split; [done|].
      eapply (alloc_inv_store _ _ 0%nat (offset b + 16) sz 0); [done|done|lia| |].
      2: { rewrite Z.add_0_r. rewrite mem_write_ok; [done|lia|].
           rewrite length_take, length_drop. lia. }
      rewrite length_take, length_drop. lia.
    + lia.
    + rewrite length_take, length_drop. lia.
Qed.

(** ** Properties *)

(** C15: isolation and no false alarms.  However a client that respects its
    blocks allocates, stores, frees and reallocates, the block allocator never
    croaks about corruption and never accesses memory outside its region, and
    its blocks stay 16-byte aligned, inside the region, pairwise disjoint with
    their red zones, and bracketed by intact canaries. *)
Theorem client_run_inv ty len ops :
  Z.of_nat len < 2 ^ 62 →
  ∃ b bl, client_run (new_block_alloc ty len, []) ops = Some (b, bl) ∧ alloc_inv b bl.
Proof.
  intros Hlen. pose proof (new_block_alloc_inv ty len Hlen) as Hinv.
  revert Hinv. generalize (new_block_alloc ty len) as b. generalize ([] : blocks) as bl.
  induction ops as [|op ops IH]; intros bl b Hinv; [by exists b, bl|].
  destruct (client_step_inv b bl op Hinv) as (b' & bl' & Hs & Hinv').
  cbn [client_run]. rewrite Hs. by apply IH.
Qed.

Lemma client_run_inv_witness :
  ∃ b bl, client_run (new_block_alloc PERL_UPB_BLOCK_MMAP 256, [])
            [OAlloc 5; OStore 0 1 [7; 8]; OAlloc 40; ORealloc 1 9; OFree 2; OAlloc 300]
          = Some (b, bl) ∧ alloc_inv b bl.
Proof. apply client_run_inv. vm_compute. reflexivity. Defined.

(** C39: every single-byte overrun of at most 16 bytes past the end of a block that
    changes the byte it hits is caught when the block is next freed or reallocated, to
    whatever size: the call croaks and poisons the allocator, and no allocation succeeds
    from then on.  (The linear allocator, without guard pages.) *)
Theorem overrun_detected b bl i p n k v r sz :
  alloc_inv b bl → bl !! i = Some (p, n) → (k < 16)%nat → canary !! k ≠ Some v →
  mem_write (region b) (p + n + Z.of_nat k) [v] = Ret r →
  let b' := with_region b r in
  BlockAlloc_Func b' (Some p) n sz =
    Croaked ("MEMORY CORRUPTION DETECTED (Overflow): " +:+ (if sz =? 0 then "BlockAlloc free" else "BlockAlloc realloc"))
      (with_poisoned b') ∧
  ∀ q o sz, BlockAlloc_Func (with_poisoned b') q o sz = Returned None (with_poisoned b').
Proof.
  intros ((Hpo & _) & Hbl & _) Hi Hk Hv Hw b'.
  rewrite Forall_forall in Hbl.
  destruct (Hbl (p, n)) as (H16 & _ & Hn & Hend & Hc1 & Hc2);
    [by eapply list_elem_of_lookup_2|]. simpl in *.
  split; [|done]. unfold BlockAlloc_Func. change (poisoned b') with (poisoned b). rewrite Hpo.
  assert (∀ msg k', VerifyCanaries b' p n msg k' =
    Croaked ("MEMORY CORRUPTION DETECTED (Overflow): " +:+ msg) (with_poisoned b')) as Hv'; [|destruct (sz =? 0); apply Hv'].
  intros msg k'. unfold VerifyCanaries, PERL_UPB_CANARY_SIZE. simpl.
  rewrite (mem_read_write_ne _ _ _ _ _ _ Hw) by lia. rewrite Hc1. cbn [lift].
  rewrite bool_decide_eq_true_2 by done. cbn [negb].
  pose proof (mem_write_inv _ _ _ _ Hw) as (_ & Hin & Hlen & Heq & _). simpl in Hin.
  destruct (mem_read r (p + n) 16) as [e| |] eqn:He.
  2, 3: unfold mem_read in Hc2, He; rewrite Hlen in He; by case_match.
  cbn [lift]. rewrite bool_decide_eq_false_2; [done|]. intros ->.
  unfold mem_read in He. destruct (_ && _); [|done]. injection He as He.
  assert (take 16 (drop (Z.to_nat (p + n)) r) !! k = Some v) as Hk'.
  { rewrite lookup_take_lt, lookup_drop by lia.
    replace (Z.to_nat (p + n) + k)%nat with (Z.to_nat (p + n + Z.of_nat k)) by lia.
    rewrite Heq by (simpl; lia).
    replace (Z.to_nat (p + n + Z.of_nat k) - _)%nat with 0%nat by lia. done. }
  rewrite He in Hk'. done.
Qed.

(** Five bytes are requested; the client writes a zero at index 7. *)
Lemma overrun_detected_witness :
  ∃ b p r, client_run (new_block_alloc PERL_UPB_BLOCK_MMAP 128, []) [OAlloc 5]
           = Some (b, [(p, 5)]) ∧
    mem_write (region b) (p + 5 + 2) [0] = Ret r ∧
    BlockAlloc_Func (with_region b r) (Some p) 5 0 =
      Croaked "MEMORY CORRUPTION DETECTED (Overflow): BlockAlloc free" (with_poisoned (with_region b r)) ∧
    BlockAlloc_Func (with_region b r) (Some p) 5 9 =
      Croaked "MEMORY CORRUPTION DETECTED (Overflow): BlockAlloc realloc" (with_poisoned (with_region b r)).
Proof.
  destruct (client_run (new_block_alloc PERL_UPB_BLOCK_MMAP 128, []) [OAlloc 5])
    as [[b bl]|] eqn:E; [|vm_compute in E; discriminate].
  assert (alloc_inv b bl) as Hinv.
  { destruct (client_step_inv (new_block_alloc PERL_UPB_BLOCK_MMAP 128) [] (OAlloc 5))
      as (b' & bl' & Hs & ?); [apply new_block_alloc_inv; vm_compute; reflexivity|].
    cbn [client_run] in E. rewrite Hs in E. simpl in E. by simplify_eq. }
  vm_compute in E. injection E as <- <-.
  do 3 eexists. split; [reflexivity|]. split; [vm_compute; reflexivity|]. split.
  - apply (overrun_detected _ [(16, 5)] 0 16 5 2 0 _ 0); [exact Hinv|reflexivity|lia|vm_compute; discriminate|vm_compute; reflexivity].
  - apply (overrun_detected _ [(16, 5)] 0 16 5 2 0 _ 9); [exact Hinv|reflexivity|lia|vm_compute; discriminate|vm_compute; reflexivity].
Defined.

(** A request within 32 bytes of [SIZE_MAX] wraps [requested_size] round to a
    small number, passes the capacity check, and makes [WriteCanaries] store
    outside the region. *)
Theorem alloc_size_wraps b sz :
  alloc_wf b → 2 ^ 64 - 32 ≤ sz < 2 ^ 64 → offset b + 32 ≤ size b →
  ∃ why, BlockAlloc_Func b None 0 sz = UB why.
Proof.
  intros (Hpo & Hlen & Hoff & Hmax & _) Hsz Hroom.
  unfold BlockAlloc_Func. rewrite Hpo, (proj2 (Z.eqb_neq sz 0)) by lia.
  unfold BlockAlloc_alloc. change (2 * PERL_UPB_CANARY_SIZE) with 32.
  replace (u64 (sz + 32)) with (sz + 32 - 2 ^ 64).
  2: { unfold u64. symmetry. rewrite <- (Z.mod_small (sz + 32 - 2 ^ 64) (2 ^ 64)) by lia.
       replace (sz + 32) with (sz + 32 - 2 ^ 64 + 1 * 2 ^ 64) at 1 by lia.
       apply Z.mod_add. lia. }
  destruct (align_up16_spec (sz + 32 - 2 ^ 64)) as [Ha Hm]; [lia|lia|].
  assert (align_up16 (sz + 32 - 2 ^ 64) ≤ 32).
  { pose proof (Z.div_mod (align_up16 (sz + 32 - 2 ^ 64)) 16). lia. }
  rewrite (u64_small (offset b + _)) by lia.
  rewrite (proj2 (Z.ltb_ge _ _)) by lia.
  unfold WriteCanaries, PERL_UPB_CANARY_SIZE.
  rewrite mem_write_ok by (rewrite ?length_canary; lia). rewrite bind_Ret.
  unfold mem_write. case_match eqn:E; [|simpl; eauto]. bool_to_prop.
  rewrite !length_app, length_take, length_drop, length_canary in *. lia.
Qed.

Lemma alloc_size_wraps_witness :
  ∃ why, BlockAlloc_Func (new_block_alloc PERL_UPB_BLOCK_MMAP 4096) None 0 SIZE_MAX = UB why.
Proof.
  apply (alloc_size_wraps (new_block_alloc PERL_UPB_BLOCK_MMAP 4096) SIZE_MAX).
  - apply new_block_alloc_inv. vm_compute. reflexivity.
  - unfold SIZE_MAX. lia.
  - vm_compute. discriminate.
Defined.

(** Reallocation preserves data: the new block starts with the first
    [min(old, new)] bytes of the old one. *)
Lemma realloc_copies b bl i p n sz q b' :
  alloc_inv b bl → bl !! i = Some (p, n) → 0 < sz < 2 ^ 62 →
  BlockAlloc_Func b (Some p) n sz = Returned (Some q) b' →
  let k := Z.to_nat (Z.min n sz) in
  mem_read (region b') q k = mem_read (region b) p k.
Proof.
  intros Hinv Hi Hsz Hf k. pose proof Hinv as ((Hpo & Hlen & Hoff & _) & Hbl & _).
  rewrite Forall_forall in Hbl.
  destruct (Hbl (p, n)) as (H16 & Hal & Hn & Hend & Hc); [by eapply list_elem_of_lookup_2|].
  simpl in *. unfold BlockAlloc_Func in Hf.
  rewrite Hpo, (proj2 (Z.eqb_neq sz 0)), VerifyCanaries_ok in Hf by (done || lia).
  destruct (alloc_step_inv b bl sz _ Hinv Hsz eq_refl)
    as [Ha|(q' & b1 & Ha & Hinv' & Hsame & ->)]; rewrite Ha in Hf; [done|].
  rewrite (proj2 (Z.ltb_lt 0 n)) in Hf by lia. fold k in Hf.
  pose proof Hinv' as ((_ & Hlen' & Hoff' & _) & Hbl' & _).
  apply Forall_cons_1 in Hbl' as [(? & ? & ? & ? & ?) _]. simpl in *.
  assert (mem_read (region b1) p k = mem_read (region b) p k) as Hold.
  { unfold mem_read. rewrite !(proj2 (Z.leb_le _ _)) by (unfold k; lia). simpl. f_equal.
    apply list_eq. intros j. destruct (decide (j < k)%nat).
    - rewrite !lookup_take_lt, !lookup_drop by done. apply Hsame. unfold k in *; lia.
    - by rewrite !lookup_take_ge by lia. }
  rewrite <- Hold. destruct (mem_read (region b1) p k) as [old| |] eqn:Hr; try done.
  simpl in Hf. destruct (mem_write _ _ old) as [r| |] eqn:Hw; try done.
  simpl in Hf. simplify_eq. simpl.
  assert (length old = k) as <-.
  { unfold mem_read in Hr. case_match eqn:E; simplify_eq. bool_to_prop.
    rewrite length_take, length_drop. lia. }
  by apply (mem_read_write_eq _ _ _ _ Hw).
Qed.

Lemma realloc_copies_witness :
  ∃ b b', client_run (new_block_alloc PERL_UPB_BLOCK_MMAP 256, [])
            [OAlloc 3; OStore 0 0 [9; 8; 7]] = Some (b, [(16, 3)]) ∧
    BlockAlloc_Func b (Some 16) 3 2 = Returned (Some 64) b' ∧
    mem_read (region b') 64 2 = mem_read (region b) 16 2.
Proof.
  destruct (client_run_inv PERL_UPB_BLOCK_MMAP 256 [OAlloc 3; OStore 0 0 [9; 8; 7]])
    as (b & bl & E & Hinv); [vm_compute; reflexivity|].
  vm_compute in E. injection E as <- <-.
  do 2 eexists. split; [reflexivity|]. split; [vm_compute; reflexivity|].
  apply (realloc_copies _ _ 0 16 3 2 64 _ Hinv); [reflexivity|lia|].
  vm_compute. reflexivity.
Defined.

(** Guard pages need page-multiple sizes.  [mprotect] rejects an address that
    is not page-aligned; since [mmap] returns page-aligned memory, protecting
    the page after the data fails, and the allocation with it, unless the
    requested size is a multiple of the page size. *)
Theorem guard_alloc_unaligned vm page_size data_size :
  0 < page_size →
  (∀ n a, mmap_anon vm n = Some a → a mod page_size = 0) →
  (∀ a n, mprotect vm a n = true → a mod page_size = 0) →
  data_size mod page_size ≠ 0 →
  guard_alloc vm page_size data_size = None.
Proof.
  intros Hps Hmmap Hprot Hsz. unfold guard_alloc.
  destruct (mmap_anon vm _) as [mem|] eqn:Hm; [|done].
  apply Hmmap in Hm. destruct (mprotect vm mem page_size); [|done]. simpl.
  destruct (mprotect vm (mem + page_size + data_size) page_size) eqn:Hp; [|done].
  exfalso. apply Hprot in Hp. apply Hsz.
  apply Z.mod_divide in Hm, Hp; [|lia|lia]. apply Z.mod_divide; [lia|].
  replace data_size with (mem + page_size + data_size - (mem + page_size)) by lia.
  apply Z.divide_sub_r; [done|]. apply Z.divide_add_r; [done|]. apply Z.divide_refl.
Qed.

Definition posix_vm (base : Z) : vm_calls :=
  {| mmap_anon := fun _ => Some base;
     mprotect := fun a _ => a mod 4096 =? 0 |}.

Lemma guard_alloc_unaligned_witness :
  guard_alloc (posix_vm 8192) 4096 100 = None ∧
  guard_alloc (posix_vm 8192) 4096 4096 = Some (12288, 12288).
Proof.
  split; [|reflexivity]. apply guard_alloc_unaligned.
  - lia.
  - simpl. intros n a [= <-]. reflexivity.
  - simpl. intros a n H. by apply Z.eqb_eq.
  - vm_compute. discriminate.
Defined.

(** Arena offsets round-trip: attaching the offset of a pointer into a tmpfs
    arena gives the pointer back, for every pointer into the mapped region and
    for no other. *)
Theorem GetOffset_AttachMessage base b ptr :
  0 < size b →
  AttachMessage true true base b (GetOffset true base b ptr) = Ret ptr ↔
  base ≤ ptr < base + size b.
Proof.
  intros Hs. unfold AttachMessage, GetOffset. simpl.
  destruct ((ptr <? base) || _) eqn:E.
  - apply orb_true_iff in E. rewrite !Z.ltb_lt, Z.leb_le in E.
    rewrite (proj2 (Z.leb_gt _ _)) by lia. split; [intros [= ?]|]; lia.
  - bool_to_prop. rewrite (proj2 (Z.leb_gt _ _)) by lia. split; [lia|].
    intros _. f_equal. lia.
Qed.

Lemma GetOffset_AttachMessage_witness :
  AttachMessage true true 65536 (new_block_alloc PERL_UPB_BLOCK_MMAP 100)
    (GetOffset true 65536 (new_block_alloc PERL_UPB_BLOCK_MMAP 100) 65600) = Ret 65600.
Proof. apply GetOffset_AttachMessage; simpl; lia. Defined.
