(* ===== verification/Arena.v ===== *)
(** * Arenas (xs/protobuf/arena.c, registry.c)

    Three pieces of state: the statistics allocator behind managed arenas, the
    registry's cached transient arena, and the blessed hashes that own raw arena
    wrappers. *)

From S2P Require Import Prelude.

(** ** Sums over finite maps *)

Definition map_sum (m : gmap Z Z) : Z := map_fold (λ _ n acc, n + acc) 0 m.

Lemma map_sum_empty : map_sum ∅ = 0.
Proof. apply map_fold_empty. Qed.

Lemma map_sum_insert m i n : m !! i = None → map_sum (<[i:=n]> m) = n + map_sum m.
Proof. intros H. unfold map_sum. rewrite map_fold_insert_L; [done| |done]. intros; lia. Qed.

Lemma map_sum_delete m i n : m !! i = Some n → map_sum m = n + map_sum (delete i m).
Proof.
  intros H. rewrite <- (insert_delete_id m i n H) at 1.
  apply map_sum_insert. apply lookup_delete_eq.
Qed.

Lemma map_sum_nonneg m : (∀ i n, m !! i = Some n → 0 ≤ n) → 0 ≤ map_sum m.
Proof.
  induction m as [|i n m Hi IH] using map_ind; intros H; [by rewrite map_sum_empty|].
  rewrite map_sum_insert by done. assert (0 ≤ n) by (by apply (H i), lookup_insert_eq).
  enough (0 ≤ map_sum m) by lia. apply IH. intros j k Hj. apply (H j).
  rewrite lookup_insert_ne; [done|congruence].
Qed.

Module Stats.

(** [PerlUpb_StatsAlloc]; [fail_armed] is [fail_probability > 0]. *)
Record StatsAlloc := {
  total_reserved : Z;
  total_blocks : Z;
  historical_max_size : Z;
  poisoned : bool;
  fail_armed : bool;
}.

Definition init : StatsAlloc :=
  {| total_reserved := 0; total_blocks := 0; historical_max_size := 0;
     poisoned := false; fail_armed := false |}.

(** The C heap: the live blocks with their sizes.  [draw] says whether
    [rand()/RAND_MAX < fail_probability]; [answer] is what [realloc] returns. *)
Abbreviation heap := (gmap Z Z).

Definition bump_max (s : StatsAlloc) : StatsAlloc :=
  {| total_reserved := total_reserved s; total_blocks := total_blocks s;
     historical_max_size :=
       if historical_max_size s <? total_reserved s then total_reserved s
       else historical_max_size s;
     poisoned := poisoned s; fail_armed := fail_armed s |}.

Definition with_reserved (s : StatsAlloc) (n blocks : Z) : StatsAlloc :=
  {| total_reserved := n; total_blocks := blocks;
     historical_max_size := historical_max_size s;
     poisoned := poisoned s; fail_armed := fail_armed s |}.

(** [stats_alloc_func(alloc, ptr, oldsize, size, &actual_size)]. *)
Definition stats_alloc_func (s : StatsAlloc) (h : heap) (ptr : option Z)
    (oldsize size : Z) (draw : bool) (answer : option Z)
  : outcome (option Z * StatsAlloc * heap) :=
  if poisoned s && (0 <? size) then Ret (None, s, h)
  else if size =? 0 then
    match ptr with
    | Some p => if bool_decide (is_Some (h !! p)) then Ret (None, s, delete p h)
                else Fault "free of a block that is not live"
    | None => Ret (None, s, h)
    end
  else if fail_armed s && draw then Ret (None, s, h)
  else
    match ptr with
    | Some p => if bool_decide (is_Some (h !! p)) then Ret tt
                else Fault "realloc of a block that is not live"
    | None => Ret tt
    end ≫= fun _ =>
    match answer with
    | None => Ret (None, s, h)
    | Some a =>
        let h' := <[a := size]> (match ptr with Some p => delete p h | None => h end) in
        let s' :=
          if oldsize =? 0 then
            bump_max (with_reserved s (u64 (total_reserved s + size)) (u64 (total_blocks s + 1)))
          else if oldsize <? size then
            bump_max (with_reserved s (u64 (total_reserved s + (size - oldsize))) (total_blocks s))
          else with_reserved s (u64 (total_reserved s - (oldsize - size))) (total_blocks s) in
        Ret (Some a, s', h')
    end.

(** What a correct client of the [upb_alloc] interface does, [realloc] returning
    fresh memory; the last component counts the bytes given back with [free]. *)
Inductive step : StatsAlloc * heap * Z → StatsAlloc * heap * Z → Prop :=
  | step_alloc s h freed size draw answer r s' h' :
      0 < size → (∀ a, answer = Some a → h !! a = None) →
      map_sum h + freed + size < 2 ^ 64 →
      stats_alloc_func s h None 0 size draw answer = Ret (r, s', h') →
      step (s, h, freed) (s', h', freed)
  | step_realloc s h freed p oldsize size draw answer r s' h' :
      h !! p = Some oldsize → 0 < size →
      (∀ a, answer = Some a → delete p h !! a = None) →
      map_sum h + freed + size < 2 ^ 64 →
      stats_alloc_func s h (Some p) oldsize size draw answer = Ret (r, s', h') →
      step (s, h, freed) (s', h', freed)
  | step_free s h freed p oldsize draw answer r s' h' :
      h !! p = Some oldsize →
      stats_alloc_func s h (Some p) oldsize 0 draw answer = Ret (r, s', h') →
      step (s, h, freed) (s', h', freed + oldsize).

(** [total_reserved] is the live bytes plus everything already freed: a free
    leaves the counters alone. *)
Definition inv (st : StatsAlloc * heap * Z) : Prop :=
  let '(s, h, freed) := st in
  (∀ i n, h !! i = Some n → 0 < n) ∧ 0 ≤ freed ∧
  total_reserved s = map_sum h + freed ∧ total_reserved s < 2 ^ 64 ∧
  total_reserved s ≤ historical_max_size s.

Lemma bump_max_ge s : total_reserved (bump_max s) ≤ historical_max_size (bump_max s).
Proof. unfold bump_max; simpl. case_match; bool_to_prop; lia. Qed.

Lemma sum_ge m : (∀ i n, m !! i = Some n → 0 < n) → 0 ≤ map_sum m.
Proof. intros H. apply map_sum_nonneg. intros i n Hi. specialize (H i n Hi). lia. Qed.

Lemma stats_step_inv st st' : inv st → step st st' → inv st'.
Proof.
  intros Hinv Hstep.
  destruct Hstep as [s h freed size draw answer r s' h' Hsz Hfresh Hmax Hf
    |s h freed p old size draw answer r s' h' Hp Hsz Hfresh Hmax Hf
    |s h freed p old draw answer r s' h' Hp Hf];
    destruct Hinv as (Hpos & Hfr & Hres & Hlt & Hge); pose proof (sum_ge h Hpos);
    unfold stats_alloc_func in Hf.
  - rewrite (proj2 (Z.eqb_neq size 0)) in Hf by lia.
    destruct (poisoned s && _); [simplify_eq; done|].
    destruct (fail_armed s && draw); [simplify_eq; done|]. rewrite bind_Ret in Hf.
    destruct answer as [a|]; [|simplify_eq; done]. simpl in Hf. simplify_eq.
    split_and!; [|done| | |apply bump_max_ge].
    + intros i n [[<- <-]|[_ Hi]]%lookup_insert_Some; [done|by eapply Hpos].
    + simpl. rewrite map_sum_insert, u64_small by (lia || by apply Hfresh). lia.
    + simpl. rewrite u64_small by lia. lia.
  - rewrite (proj2 (Z.eqb_neq size 0)) in Hf by lia.
    destruct (poisoned s && _); [simplify_eq; done|].
    destruct (fail_armed s && draw); [simplify_eq; done|].
    rewrite bool_decide_eq_true_2 in Hf by eauto. rewrite bind_Ret in Hf.
    destruct answer as [a|]; [|simplify_eq; done].
    assert (0 < old) by (by eapply Hpos). pose proof (map_sum_delete h p old Hp) as Hdel.
    rewrite (proj2 (Z.eqb_neq old 0)) in Hf by lia. injection Hf as <- <- <-.
    assert (0 ≤ map_sum (delete p h)).
    { apply sum_ge. intros i n [_ Hi]%lookup_delete_Some. by eapply Hpos. }
    split.
    { intros i n [[<- <-]|[_ [_ Hi]%lookup_delete_Some]]%lookup_insert_Some;
        [done|by eapply Hpos]. }
    rewrite map_sum_insert by (by apply Hfresh).
    destruct (old <? size) eqn:E; bool_to_prop.
    + split_and!; [done| | |apply bump_max_ge]; simpl; rewrite u64_small by lia; lia.
    + split_and!; [done| | |]; simpl; rewrite u64_small by lia; lia.
  - rewrite Z.ltb_irrefl, andb_false_r in Hf. simpl in Hf.
    rewrite bool_decide_eq_true_2 in Hf by eauto. simplify_eq.
    assert (0 < old) by (by eapply Hpos). pose proof (map_sum_delete h p old Hp) as Hdel.
    split_and!; [|lia|lia|done|done].
    intros i n [_ Hi]%lookup_delete_Some. by eapply Hpos.
Qed.

(** The statistics of a managed arena never under-report.  In every state a
    correct client can reach, [total_reserved] is exactly the bytes still
    allocated plus the bytes freed since the arena was made (a free does not
    decrement it), and [historical_max_size] is an upper bound of it. *)
Lemma stats_reachable st :
  rtc step (init, ∅, 0) st →
  let '(s, h, freed) := st in
  total_reserved s = map_sum h + freed ∧
  map_sum h ≤ total_reserved s ≤ historical_max_size s.
Proof.
  intros Hr. assert (inv st) as Hinv.
  { revert Hr. apply (rtc_ind_r (λ st, inv st)).
    - split_and!; try done; rewrite ?map_sum_empty; simpl; lia.
    - intros y z _ Hs IH. by eapply stats_step_inv. }
  destruct st as [[s h] freed]. destruct Hinv as (_ & ? & ? & ? & ?). lia.
Qed.

(** 100 bytes allocated, grown to 150, freed: 150 are still reported. *)
Lemma stats_reachable_witness :
  ∃ s, rtc step (init, ∅, 0) (s, ∅, 150) ∧ total_reserved s = map_sum ∅ + 150 ∧
       map_sum ∅ ≤ total_reserved s ≤ historical_max_size s.
Proof.
  set (s3 := {| total_reserved := 150; total_blocks := 1; historical_max_size := 150;
                poisoned := false; fail_armed := false |}).
  assert (rtc step (init, ∅, 0) (s3, ∅, 150)) as Hr.
  { eapply (rtc_l _ _ (_, {[ 16 := 100 ]}, 0)).
    { apply (step_alloc init ∅ 0 100 false (Some 16) (Some 16));
        [lia|done|vm_compute; done|reflexivity]. }
    eapply (rtc_l _ _ (_, {[ 32 := 150 ]}, 0)).
    { eapply (step_realloc _ _ 0 16 100 150 false (Some 32));
        [done|lia| |vm_compute; done|reflexivity].
      intros a [= <-]. done. }
    eapply (rtc_l _ _ (s3, ∅, 150)).
    { eapply (step_free _ _ 0 32 150 false None); [done|reflexivity]. }
    apply rtc_refl. }
  exists s3. split; [exact Hr|]. apply (stats_reachable (s3, ∅, 150)). exact Hr.
Defined.

End Stats.

Module Pool.

Inductive Lifecycle := PERMANENT | TRANSIENT.

(** The fields of [PerlUpb_Registry] arenas use; [None] below is a NULL registry
    ([PL_dirty]). *)
Record Registry := {
  cached_transient_arena : option Z;
  max_cache_capacity : Z;
}.

(** The interpreter's registry and the [upb_Arena]s that exist. *)
Record state := { registry : option Registry; live : gset Z }.

Definition set_cached (c : option Z) (r : Registry) : Registry :=
  {| cached_transient_arena := c; max_cache_capacity := max_cache_capacity r |}.

(** [upb_Arena_New()]: [answer] is the address of the new arena, if any. *)
Definition Arena_New (st : state) (answer : option Z) : option Z * state :=
  match answer with
  | None => (None, st)
  | Some a => (Some a, {| registry := registry st; live := {[a]} ∪ live st |})
  end.

(** [upb_Arena_Free]. *)
Definition Arena_Free (st : state) (a : Z) : outcome state :=
  if bool_decide (a ∈ live st) then
    Ret {| registry := registry st; live := live st ∖ {[a]} |}
  else Fault "free of an arena that does not exist".

(** [PerlUpb_Registry_Init]'s defaults. *)
Definition Registry_Init : Registry :=
  {| cached_transient_arena := None; max_cache_capacity := 100000 |}.

(** [PerlUpb_Arena_Acquire(lifecycle)]. *)
Definition Arena_Acquire (st : state) (lc : Lifecycle) (answer : option Z) : option Z * state :=
  match lc, registry st with
  | TRANSIENT, Some reg =>
      match cached_transient_arena reg with
      | Some arena => (Some arena, {| registry := Some (set_cached None reg); live := live st |})
      | None => Arena_New st answer
      end
  | _, _ => Arena_New st answer
  end.

(** [PerlUpb_Arena_Release(arena, lifecycle)], both of its free branches. *)
Definition Arena_Release (st : state) (arena : option Z) (lc : Lifecycle) : outcome state :=
  match arena with
  | None => Ret st
  | Some a =>
      match lc, registry st with
      | TRANSIENT, Some reg =>
          match cached_transient_arena reg with
          | None => Arena_Free st a
          | Some _ => Arena_Free st a
          end
      | _, _ => Arena_Free st a
      end
  end.

(** [PerlUpb_Registry_PreallocateArena]; [hook] is [idle_time_arena_hook]. *)
Definition PreallocateArena (st : state) (hook : option (state → state)) (answer : option Z)
  : state :=
  match registry st with
  | None => st
  | Some _ =>
      let st := match hook with Some f => f st | None => st end in
      match registry st with
      | Some reg =>
          match cached_transient_arena reg with
          | Some _ => st
          | None =>
              let '(a, st) := Arena_New st answer in
              {| registry := Some (set_cached a reg); live := live st |}
          end
      | None => st
      end
  end.

(** Callers: the arenas they hold are the ones they acquired and have not
    released. *)
Inductive step : state * gset Z → state * gset Z → Prop :=
  | step_acquire st held lc answer r st' :
      (∀ a, answer = Some a → a ∉ live st) →
      Arena_Acquire st lc answer = (r, st') →
      step (st, held) (st', match r with Some a => {[a]} ∪ held | None => held end)
  | step_release st held lc a st' :
      a ∈ held → Arena_Release st (Some a) lc = Ret st' →
      step (st, held) (st', held ∖ {[a]})
  | step_prealloc st held answer :
      (∀ a, answer = Some a → a ∉ live st) →
      step (st, held) (PreallocateArena st None answer, held).

Definition cached_set (st : state) : gset Z :=
  match registry st with
  | Some reg => match cached_transient_arena reg with Some a => {[a]} | None => ∅ end
  | None => ∅
  end.

(** Every arena has exactly one owner: a caller or the registry's cache. *)
Definition inv (p : state * gset Z) : Prop :=
  live p.1 = p.2 ∪ cached_set p.1 ∧ p.2 ## cached_set p.1.

Lemma Arena_New_cached st answer : cached_set (Arena_New st answer).2 = cached_set st.
Proof. by destruct answer. Qed.

Lemma acquire_inv st held lc answer r st' :
  inv (st, held) → (∀ a, answer = Some a → a ∉ live st) →
  Arena_Acquire st lc answer = (r, st') →
  inv (st', match r with Some a => {[a]} ∪ held | None => held end).
Proof.
  unfold inv. simpl. intros [Hl Hd] Hf H.
  assert (∀ r st', Arena_New st answer = (r, st') →
    live st' = match r with Some a => {[a]} ∪ held | None => held end ∪ cached_set st' ∧
    match r with Some a => {[a]} ∪ held | None => held end ## cached_set st') as Hnew.
  { intros r0 st0 E. pose proof (Arena_New_cached st answer) as Hc. rewrite E in Hc. simpl in Hc.
    rewrite Hc. destruct answer as [a|]; simpl in E; simplify_eq; simpl; [|done].
    specialize (Hf a eq_refl). rewrite Hl in *. set_solver. }
  unfold Arena_Acquire in H. destruct lc; [by apply Hnew|].
  destruct (registry st) as [reg|] eqn:Er; [|by apply Hnew].
  destruct (cached_transient_arena reg) as [a|] eqn:Ec; [|by apply Hnew].
  simplify_eq. unfold cached_set in *. simpl. rewrite Er, Ec in *. set_solver.
Qed.

Lemma Arena_Release_free st a lc : Arena_Release st (Some a) lc = Arena_Free st a.
Proof. unfold Arena_Release. by repeat case_match. Qed.

Lemma pool_step_inv p q : inv p → step p q → inv q.
Proof.
  intros Hinv Hs. destruct Hs as [st held lc answer r st' Hf H|st held lc a st' Ha H
    |st held answer Hf].
  - by eapply acquire_inv.
  - rewrite Arena_Release_free in H. unfold Arena_Free in H.
    case_bool_decide; [|done]. simplify_eq.
    destruct Hinv as [Hl Hd]. unfold inv, cached_set in *. simpl in *. set_solver.
  - destruct Hinv as [Hl Hd]. unfold inv, PreallocateArena, cached_set in *. simpl in *.
    destruct st as [[[[c|] cap]|] lv]; simpl in *; try done.
    destruct answer as [a|]; simpl; [|done].
    specialize (Hf a eq_refl). set_solver.
Qed.

(** Transient and permanent arenas have exactly one owner at every moment:
    after any sequence of acquires, releases and preallocations, the existing
    arenas are the ones callers hold plus the registry's cached one, disjointly,
    and releasing any held arena succeeds (no double free, no leak). *)
Lemma pool_ownership p :
  rtc step ({| registry := Some Registry_Init; live := ∅ |}, ∅) p →
  live p.1 = p.2 ∪ cached_set p.1 ∧ p.2 ## cached_set p.1 ∧
  ∀ a lc, a ∈ p.2 → ∃ st', Arena_Release p.1 (Some a) lc = Ret st' ∧ a ∉ live st'.
Proof.
  intros Hr. assert (inv p) as [Hl Hd].
  { revert Hr. apply (rtc_ind_r (λ p, inv p)); [split; set_solver|].
    intros y z _ Hs IH. by eapply pool_step_inv. }
  split_and!; [done|done|]. intros a lc Ha. rewrite Arena_Release_free.
  unfold Arena_Free. rewrite bool_decide_eq_true_2 by set_solver.
  eexists; split; [done|]. simpl. set_solver.
Qed.

Lemma pool_ownership_witness :
  let st1 := {| registry := Some (set_cached (Some 10) Registry_Init); live := {[10]} |} in
  let st2 := {| registry := Some (set_cached None Registry_Init); live := {[10]} |} in
  rtc step ({| registry := Some Registry_Init; live := ∅ |}, ∅) (st2, {[10]} ∪ ∅) ∧
  ∃ st', Arena_Release st2 (Some 10) TRANSIENT = Ret st' ∧ 10 ∉ live st'.
Proof.
  intros st1 st2.
  assert (rtc step ({| registry := Some Registry_Init; live := ∅ |}, ∅) (st2, {[10]} ∪ ∅)) as Hr.
  { eapply (rtc_l _ _ (st1, ∅)).
    { replace st1 with
        (PreallocateArena {| registry := Some Registry_Init; live := ∅ |} None (Some 10))
        by (unfold st1; simpl; f_equal; set_solver).
      apply step_prealloc. intros a [= <-]. set_solver. }
    eapply (rtc_l _ _ (st2, {[10]} ∪ ∅)); [|apply rtc_refl].
    apply (step_acquire st1 ∅ TRANSIENT None (Some 10) st2); [done|reflexivity]. }
  split; [exact Hr|]. apply (pool_ownership (st2, {[10]} ∪ ∅) Hr). set_solver.
Defined.

(** Releasing a transient arena never refills the registry's cache, although
    [Release] has a branch for an empty cache: the branch frees the arena like
    the other one, so only [PreallocateArena] ever caches an arena. *)
Theorem release_never_caches st a lc st' :
  Arena_Release st (Some a) lc = Ret st' → registry st' = registry st ∧ a ∉ live st'.
Proof.
  rewrite Arena_Release_free. unfold Arena_Free. case_bool_decide; [|done].
  intros [= <-]. simpl. set_solver.
Qed.

Lemma release_never_caches_witness :
  ∃ st', Arena_Release {| registry := Some Registry_Init; live := {[10]} |} (Some 10) TRANSIENT
           = Ret st' ∧ registry st' = Some Registry_Init.
Proof.
  destruct (Arena_Release {| registry := Some Registry_Init; live := {[10]} |} (Some 10) TRANSIENT)
    as [st'| |] eqn:E; [|vm_compute in E; discriminate|vm_compute in E; discriminate].
  exists st'. split; [reflexivity|].
  apply (release_never_caches _ _ _ _ E).
Defined.

End Pool.

Module Wrapper.

(** The blessed hash of an arena: the [_arena_ptr] and [_is_tmpfs] keys and the
    [PERL_MAGIC_ext] entry with [arena_vtbl]; [Some None] is an entry whose
    [mg_ptr] was cleared. *)
Record arena_hv := {
  arena_ptr : option Z;
  is_tmpfs : bool;
  magic : option (option Z);
}.

(** Perl's arena objects, the raw [PerlUpb_Arena] structs in existence, and the
    tmpfs mappings not yet unmapped (keyed by their raw struct). *)
Record state := {
  hvs : gmap Z arena_hv;
  raws : gset Z;
  mappings : gset Z;
}.

Definition set_hv (st : state) (sv : Z) (hv : arena_hv) : state :=
  {| hvs := <[sv := hv]> (hvs st); raws := raws st; mappings := mappings st |}.

(** [wrap_arena_internal(raw, is_tmpfs)]: the new hash is at [sv]. *)
Definition wrap_arena_internal (st : state) (sv raw : Z) (tmpfs : bool) : state :=
  set_hv st sv {| arena_ptr := Some raw; is_tmpfs := tmpfs; magic := Some (Some raw) |}.

(** [PerlUpb_Arena_CreateRaw]: [safemalloc] returned [raw] and upb an arena. *)
Definition create_raw (st : state) (raw : Z) : state :=
  {| hvs := hvs st; raws := {[raw]} ∪ raws st; mappings := mappings st |}.

(** [PerlUpb_Arena_New]. *)
Definition Arena_New (st : state) (sv raw : Z) : state :=
  wrap_arena_internal (create_raw st raw) sv raw false.

(** [PerlUpb_Arena_NewTmpfs], once [open], [ftruncate] and [mmap] succeeded: the
    hash is built by hand and gets no magic. *)
Definition Arena_NewTmpfs (st : state) (sv raw : Z) : state :=
  set_hv {| hvs := hvs st; raws := {[raw]} ∪ raws st; mappings := {[raw]} ∪ mappings st |}
    sv {| arena_ptr := Some raw; is_tmpfs := true; magic := None |}.

(** [PerlUpb_Arena_DestroyRaw_Tmpfs(ptr, is_tmpfs)]. *)
Definition destroy_raw (st : state) (raw : Z) (tmpfs : bool) : outcome state :=
  if bool_decide (raw ∈ raws st) then
    Ret {| hvs := hvs st; raws := raws st ∖ {[raw]};
           mappings := if tmpfs then mappings st ∖ {[raw]} else mappings st |}
  else Fault "free of a raw arena that does not exist".

(** [arena_cleanup(sv, mg)], the free hook of the hash's magic, when Perl frees
    the hash [sv].  [SvRV(sv)] is applied to the hash itself, whose union member
    is its bucket array; [looks_like_hv] says whether that memory happens to
    carry [SVt_PVHV] where a flags word would be, in which case [hv_fetch] runs
    on it. *)
Definition arena_cleanup (dirty : bool) (st : state) (sv : Z) (looks_like_hv : bool)
  : outcome state :=
  let st' := {| hvs := delete sv (hvs st); raws := raws st; mappings := mappings st |} in
  match hvs st !! sv with
  | None => Fault "free of a hash that does not exist"
  | Some hv =>
      if dirty then Ret st'
      else match magic hv with
      | Some (Some ptr) =>
          if looks_like_hv then Fault "hv_fetch on the bucket array of a hash"
          else destroy_raw st' ptr false
      | _ => Ret st'
      end
  end.

(** [PerlUpb_Arena_Get], after its class check: the wrapper struct, if any. *)
Definition Arena_Get (st : state) (sv : Z) : option Z := hvs st !! sv ≫= arena_ptr.

(** [PerlUpb_Arena_Destroy]. *)
Definition Arena_Destroy (st : state) (sv : Z) : outcome state :=
  match hvs st !! sv with
  | None => Ret st
  | Some hv =>
      match magic hv with
      | None => Ret st
      | Some _ =>
          let hv := {| arena_ptr := arena_ptr hv; is_tmpfs := is_tmpfs hv; magic := Some None |} in
          let st := set_hv st sv hv in
          match arena_ptr hv with
          | None => Ret st
          | Some ptr =>
              st ← destroy_raw st ptr (is_tmpfs hv);
              Ret (set_hv st sv
                     {| arena_ptr := None; is_tmpfs := is_tmpfs hv; magic := Some None |})
          end
      end
  end.

(** [PerlUpb_Arena_Detach]: the raw pointer, the object being disabled. *)
Definition Arena_Detach (st : state) (sv : Z) : outcome (option Z * state) :=
  match hvs st !! sv with
  | None => Croak "Argument to detach() must be a Protobuf::Arena object"
  | Some hv =>
      match arena_ptr hv with
      | None => Ret (None, st)
      | Some raw =>
          Ret (Some raw, set_hv st sv
            {| arena_ptr := None; is_tmpfs := is_tmpfs hv;
               magic := match magic hv with Some _ => Some None | None => None end |})
      end
  end.

(** [PerlUpb_Arena_Attach]. *)
Definition Arena_Attach (st : state) (sv : Z) (raw : option Z) : option Z * state :=
  match raw with
  | None => (None, st)
  | Some raw => (Some sv, wrap_arena_internal st sv raw false)
  end.

(** Programs that attach only pointers they detached, each once; the second
    component is the set of detached pointers. *)
Inductive step : state * gset Z → state * gset Z → Prop :=
  | step_new st det sv raw :
      hvs st !! sv = None → raw ∉ raws st →
      step (st, det) (Arena_New st sv raw, det)
  | step_destroy st det sv st' :
      Arena_Destroy st sv = Ret st' → step (st, det) (st', det)
  | step_detach st det sv raw st' :
      Arena_Detach st sv = Ret (Some raw, st') → step (st, det) (st', {[raw]} ∪ det)
  | step_attach st det sv raw :
      hvs st !! sv = None → raw ∈ det →
      step (st, det) ((Arena_Attach st sv (Some raw)).2, det ∖ {[raw]})
  | step_cleanup st det sv st' :
      arena_cleanup false st sv false = Ret st' → step (st, det) (st', det).

(** Every raw struct is owned by one hash (its key and its magic agreeing) or is
    detached. *)
Definition inv (p : state * gset Z) : Prop :=
  let '(st, det) := p in
  (∀ sv hv, hvs st !! sv = Some hv →
     is_tmpfs hv = false ∧ magic hv = Some (arena_ptr hv) ∧
     ∀ raw, arena_ptr hv = Some raw → raw ∈ raws st ∧ raw ∉ det) ∧
  (∀ sv1 sv2 hv1 hv2 raw, hvs st !! sv1 = Some hv1 → hvs st !! sv2 = Some hv2 →
     arena_ptr hv1 = Some raw → arena_ptr hv2 = Some raw → sv1 = sv2) ∧
  det ⊆ raws st.

Definition init : state := {| hvs := ∅; raws := ∅; mappings := ∅ |}.

Lemma inv_new st det sv raw :
  inv (st, det) → raw ∉ raws st → inv (Arena_New st sv raw, det).
Proof.
  intros (Hhv & Huniq & Hdet) Hraw. split_and!; simpl.
  - intros sv' hv [[<- <-]|[_ Hl]]%lookup_insert_Some; simpl.
    + split_and!; [done|done|]. intros r [= <-]. set_solver.
    + destruct (Hhv sv' hv Hl) as (? & ? & Hr). split_and!; [done|done|].
      intros r Hr'. apply Hr in Hr'. set_solver.
  - intros sv1 sv2 hv1 hv2 r [[<- <-]|[_ H1]]%lookup_insert_Some
      [[<- <-]|[_ H2]]%lookup_insert_Some; simpl; intros E1 E2; simplify_eq; try done.
    + destruct (Hhv _ _ H2) as (_ & _ & Hq). by destruct (Hq _ E2).
    + destruct (Hhv _ _ H1) as (_ & _ & Hq). by destruct (Hq _ E1).
    + by eapply Huniq.
  - set_solver.
Qed.

(** Giving up the raw struct of one hash. *)
Lemma inv_disown st det sv hv raw st' det' :
  inv (st, det) → hvs st !! sv = Some hv → arena_ptr hv = Some raw →
  (hvs st' = delete sv (hvs st) ∨
   hvs st' = <[sv := {| arena_ptr := None; is_tmpfs := is_tmpfs hv; magic := Some None |}]>
               (hvs st)) →
  raws st ∖ {[raw]} ⊆ raws st' → det' ⊆ {[raw]} ∪ det → det' ⊆ raws st' →
  inv (st', det').
Proof.
  intros (Hhv & Huniq & Hdet) Hl Hp Hh Hraws Hdet' Hsub.
  assert (∀ sv' hv', hvs st' !! sv' = Some hv' →
    (arena_ptr hv' = None ∧ magic hv' = Some None ∧ is_tmpfs hv' = false) ∨
    (sv' ≠ sv ∧ hvs st !! sv' = Some hv')) as Hcase.
  { intros sv' hv' H. destruct Hh as [Hh|Hh]; rewrite Hh in H.
    - apply lookup_delete_Some in H as [? ?]. right; done.
    - apply lookup_insert_Some in H as [[<- <-]|[? ?]]; [left|right; done].
      simpl. by destruct (Hhv _ _ Hl). }
  split_and!; [| |done].
  - intros sv' hv' [(Hn & Hm & Ht)|[Hne H]]%Hcase.
    + split_and!; [done|by rewrite Hm, Hn|]. intros r Hr. by rewrite Hn in Hr.
    + destruct (Hhv _ _ H) as (? & ? & Hr). split_and!; [done|done|].
      intros r Hr'. assert (r ≠ raw) by (intros ->; by apply Hne, (Huniq _ _ _ _ _ H Hl Hr' Hp)).
      apply Hr in Hr'. set_solver.
  - intros sv1 sv2 hv1 hv2 r H1 H2 E1 E2.
    apply Hcase in H1 as [(? & _)|[_ H1]]; [congruence|].
    apply Hcase in H2 as [(? & _)|[_ H2]]; [congruence|]. by eapply Huniq.
Qed.

Lemma inv_release st det sv hv :
  inv (st, det) → hvs st !! sv = Some hv → arena_ptr hv = None →
  ∀ st', (hvs st' = delete sv (hvs st) ∨ hvs st' = hvs st) → raws st' = raws st →
  inv (st', det).
Proof.
  intros (Hhv & Huniq & Hdet) Hl Hp st' Hh Hr.
  assert (∀ sv' hv', hvs st' !! sv' = Some hv' → hvs st !! sv' = Some hv') as Hsub.
  { intros sv' hv' H. destruct Hh as [Hh|Hh]; rewrite Hh in H; [|done].
    by apply lookup_delete_Some in H as [_ ?]. }
  split_and!.
  - intros sv' hv' H. rewrite Hr. by eapply Hhv, Hsub.
  - intros sv1 sv2 hv1 hv2 r H1 H2. eapply Huniq; by apply Hsub.
  - by rewrite Hr.
Qed.

Lemma hv_eta hv :
  hv = {| arena_ptr := arena_ptr hv; is_tmpfs := is_tmpfs hv; magic := magic hv |}.
Proof. by destruct hv. Qed.

Lemma Arena_Get_set st sv hv : Arena_Get (set_hv st sv hv) sv = arena_ptr hv.
Proof. unfold Arena_Get, set_hv. cbn [hvs]. by rewrite lookup_insert_eq. Qed.

(** What [Destroy] does to a hash of a reachable state. *)
Lemma destroy_spec st det sv :
  inv (st, det) →
  ∃ st', Arena_Destroy st sv = Ret st' ∧ inv (st', det) ∧ Arena_Get st' sv = None ∧
         raws st' ⊆ raws st.
Proof.
  intros Hinv. pose proof Hinv as (Hhv & _ & Hdet).
  unfold Arena_Destroy. destruct (hvs st !! sv) as [hv|] eqn:Hl.
  2: { exists st. unfold Arena_Get. by rewrite Hl. }
  destruct (Hhv _ _ Hl) as (Ht & Hm & Hp). rewrite Hm, Ht. simpl.
  destruct (arena_ptr hv) as [raw|] eqn:E.
  - destruct (Hp raw eq_refl) as [Hin Hnd]. unfold destroy_raw.
    rewrite bool_decide_eq_true_2 by done. rewrite bind_Ret.
    eexists; split; [done|]. split; [|split; [by rewrite Arena_Get_set|simpl; set_solver]].
    eapply inv_disown; try done; simpl.
    + right. rewrite insert_insert_eq, Ht. done.
    + set_solver.
    + set_solver.
  - eexists; split; [done|]. split; [|split; [by rewrite Arena_Get_set|done]].
    eapply inv_release; try done. right. simpl. apply insert_id.
    rewrite Hl, (hv_eta hv), E, Ht, Hm. done.
Qed.

Lemma cleanup_spec st det sv hv :
  inv (st, det) → hvs st !! sv = Some hv →
  ∃ st', arena_cleanup false st sv false = Ret st' ∧ inv (st', det).
Proof.
  intros Hinv Hl. pose proof Hinv as (Hhv & _ & Hdet).
  unfold arena_cleanup. rewrite Hl. destruct (Hhv _ _ Hl) as (Ht & Hm & Hp). rewrite Hm.
  destruct (arena_ptr hv) as [raw|] eqn:E.
  - destruct (Hp raw eq_refl) as [Hin Hnd]. unfold destroy_raw. simpl.
    rewrite bool_decide_eq_true_2 by done. eexists; split; [done|].
    eapply inv_disown; try done; simpl; [by left|set_solver|set_solver].
  - eexists; split; [done|]. eapply inv_release; try done. by left.
Qed.

Lemma wrapper_step_inv p q : inv p → step p q → inv q.
Proof.
  intros Hinv Hs.
  destruct Hs as [st det sv raw Hsv Hraw|st det sv st' H|st det sv raw st' H
    |st det sv raw Hsv Hraw|st det sv st' H].
  - by apply inv_new.
  - destruct (destroy_spec st det sv Hinv) as (st2 & H2 & ? & _).
    rewrite H in H2. by simplify_eq.
  - unfold Arena_Detach in H. destruct (hvs st !! sv) as [hv|] eqn:Hl; [|done].
    destruct (arena_ptr hv) as [raw'|] eqn:E; simplify_eq.
    pose proof Hinv as (Hhv & _ & Hdet). destruct (Hhv _ _ Hl) as (Ht & Hm & Hp).
    destruct (Hp raw E) as [Hin Hnd].
    eapply inv_disown; try done; simpl; [|set_solver|set_solver].
    right. by rewrite Hm.
  - simpl. destruct Hinv as (Hhv & Huniq & Hdet). split_and!; simpl.
    + intros sv' hv [[<- <-]|[_ Hl]]%lookup_insert_Some; simpl.
      * split_and!; [done|done|]. intros r [= <-]. set_solver.
      * destruct (Hhv sv' hv Hl) as (? & ? & Hr). split_and!; [done|done|].
        intros r Hr'. apply Hr in Hr'. set_solver.
    + intros sv1 sv2 hv1 hv2 r [[<- <-]|[_ H1]]%lookup_insert_Some
        [[<- <-]|[_ H2]]%lookup_insert_Some; simpl; intros E1 E2; simplify_eq; try done.
      * destruct (Hhv _ _ H2) as (_ & _ & Hq). by destruct (Hq _ E2).
      * destruct (Hhv _ _ H1) as (_ & _ & Hq). by destruct (Hq _ E1).
      * by eapply Huniq.
    + set_solver.
  - destruct (hvs st !! sv) as [hv|] eqn:Hl.
    + destruct (cleanup_spec st det sv hv Hinv Hl) as (st2 & H2 & ?).
      rewrite H in H2. by simplify_eq.
    + unfold arena_cleanup in H. by rewrite Hl in H.
Qed.

Lemma reachable_inv p : rtc step (init, ∅) p → inv p.
Proof.
  apply (rtc_ind_r (λ p, inv p)).
  - split_and!; simpl; [intros ?? [=]|intros ????? [=]|set_solver].
  - intros y z _ Hs IH. by eapply wrapper_step_inv.
Qed.

(** C23: managed arenas are freed exactly once.  Whatever program creates, destroys,
    detaches and lets Perl collect its arena objects, and attaches pointers that were
    detached, each once (attaching one twice makes two owners, [attached_twice]), no raw
    arena is owned by two objects, destroying an object never frees twice and leaves it
    without an arena, and the collector's free hook never frees twice either (when the word
    it inspects is not [SVt_PVHV]). *)
Theorem wrapper_no_double_free st det :
  rtc step (init, ∅) (st, det) →
  (∀ sv, ∃ st', Arena_Destroy st sv = Ret st' ∧ Arena_Get st' sv = None) ∧
  (∀ sv hv, hvs st !! sv = Some hv → ∃ st', arena_cleanup false st sv false = Ret st') ∧
  (∀ sv1 sv2 raw, Arena_Get st sv1 = Some raw → Arena_Get st sv2 = Some raw → sv1 = sv2).
Proof.
  intros Hinv%reachable_inv. split_and!.
  - intros sv. destruct (destroy_spec st det sv Hinv) as (st' & ? & _ & ? & _). eauto.
  - intros sv hv Hl. destruct (cleanup_spec st det sv hv Hinv Hl) as (st' & ? & _). eauto.
  - destruct Hinv as (_ & Huniq & _). unfold Arena_Get. intros sv1 sv2 raw.
    destruct (hvs st !! sv1) as [hv1|] eqn:H1, (hvs st !! sv2) as [hv2|] eqn:H2;
      simpl; intros E1 E2; try done. by eapply Huniq.
Qed.

(** An arena is created at 1, detached, and attached again at 2. *)
Lemma wrapper_no_double_free_witness :
  ∃ st, rtc step (init, ∅) (st, ∅ ∪ ({[64]} ∖ {[64]})) ∧ Arena_Get st 2 = Some 64 ∧
    Arena_Get st 1 = None ∧
    ∃ st', Arena_Destroy st 2 = Ret st' ∧ Arena_Get st' 2 = None.
Proof.
  set (s1 := Arena_New init 1 64).
  set (s2 := set_hv s1 1 {| arena_ptr := None; is_tmpfs := false; magic := Some None |}).
  set (s3 := wrap_arena_internal s2 2 64 false).
  assert (rtc step (init, ∅) (s3, ∅ ∪ ({[64]} ∖ {[64]}))) as Hr.
  { eapply (rtc_l _ _ (s1, ∅)); [by apply step_new|].
    eapply (rtc_l _ _ (s2, {[64]} ∪ ∅)); [by apply (step_detach s1 ∅ 1 64 s2)|].
    replace (∅ ∪ ({[64]} ∖ {[64]})) with (({[64]} ∪ ∅) ∖ {[64]} : gset Z) by set_solver.
    eapply rtc_once. apply (step_attach s2 _ 2 64); [done|set_solver]. }
  exists s3. split; [exact Hr|]. split; [reflexivity|]. split; [reflexivity|].
  apply (wrapper_no_double_free s3 _ Hr).
Defined.

(** A detached pointer attached twice has two owners: destroying the second frees it again. *)
Example attached_twice :
  (p ← Arena_Detach (Arena_New init 1 64) 1;
   let st := (Arena_Attach (Arena_Attach p.2 2 p.1).2 3 p.1).2 in
   st ← Arena_Destroy st 2; Arena_Destroy st 3)
  = Fault "free of a raw arena that does not exist".
Proof. reflexivity. Qed.

(** The collector's free hook reads through a type-confused pointer.  There is
    no Perl-level destructor, so collecting an arena object runs [arena_cleanup]
    while the object still owns its arena; it applies [SvRV] to the hash itself,
    and the call stays defined if and only if the bucket array reached that way
    does not carry [SVt_PVHV] where a flags word would be. *)
Theorem cleanup_type_confusion st det sv hv raw looks_like_hv :
  rtc step (init, ∅) (st, det) → hvs st !! sv = Some hv → arena_ptr hv = Some raw →
  safe (arena_cleanup false st sv looks_like_hv) ↔ looks_like_hv = false.
Proof.
  intros Hinv%reachable_inv Hl Hp. destruct looks_like_hv.
  - split; [|done]. destruct Hinv as (Hhv & _). destruct (Hhv _ _ Hl) as (_ & Hm & _).
    unfold arena_cleanup. by rewrite Hl, Hm, Hp.
  - split; [done|]. intros _. by destruct (cleanup_spec st det sv hv Hinv Hl) as (? & -> & _).
Qed.

Lemma cleanup_type_confusion_witness :
  ¬ safe (arena_cleanup false (Arena_New init 1 64) 1 true).
Proof.
  assert (rtc step (init, ∅) (Arena_New init 1 64, ∅)) as Hr
    by (apply rtc_once; by apply step_new).
  intros H.
  assert (true = false) as E; [|discriminate].
  apply (cleanup_type_confusion _ ∅ 1
    {| arena_ptr := Some 64; is_tmpfs := false; magic := Some (Some 64) |} 64 true Hr);
    [reflexivity|reflexivity|exact H].
Defined.

(** Tmpfs arenas leak.  The object [NewTmpfs] builds has no magic, so destroying
    it does nothing and collecting it frees nothing: the raw arena survives and the
    file stays mapped. *)
Theorem tmpfs_never_released st sv raw garbage :
  let st1 := Arena_NewTmpfs st sv raw in
  Arena_Destroy st1 sv = Ret st1 ∧
  ∃ st2, arena_cleanup false st1 sv garbage = Ret st2 ∧ hvs st2 !! sv = None ∧
         raw ∈ raws st2 ∧ raw ∈ mappings st2.
Proof.
  simpl. unfold Arena_Destroy, arena_cleanup, Arena_NewTmpfs. simpl.
  rewrite lookup_insert_eq. simpl. split; [done|]. eexists; split_and!; [done| | |].
  - simpl. apply lookup_delete_eq.
  - simpl. set_solver.
  - simpl. set_solver.
Qed.

End Wrapper.
