(* ===== verification/UpbArena.v ===== *)
(** * The arena of upb (vendor/upb/mem/arena.c, mem/internal/arena.h, mem/alloc.h)

    Blocks from an allocator, and allocations from the blocks by moving a pointer: what
    every message, array, table and string of the program lives in.  The allocator is an
    interface; [BlockAlloc] and the counting allocator of [Arena] are instances.  An arena
    is alone: fusing and references between arenas are not modelled. *)

From S2P Require Import Prelude.
From S2P Require BlockAlloc Arena.

(** ** Allocators

    [alloc_func ptr oldsize size] answers an address, [None] for NULL, and what it stores
    in [*actual_size], 0 if nothing; [load] and [store]: a byte of the memory behind. *)
Class upb_alloc (M : Type) := {
  alloc_func : option Z → Z → Z → cmd M (option Z * Z);
  load : M → Z → Z;
  store : Z → Z → cmd M unit;
}.

(** What an arena relies on.  [owns s bl]: the blocks [bl] are handed out. *)
Definition in_blocks (bl : gmap Z Z) (a : Z) : Prop := ∃ p n, bl !! p = Some n ∧ p ≤ a < p + n.
Definition same_bytes {M} `{upb_alloc M} (bl : gmap Z Z) (s s' : M) : Prop :=
  ∀ a, in_blocks bl a → load s' a = load s a.

Class AllocLaws (M : Type) `{upb_alloc M} := {
  owns : M → gmap Z Z → Prop;
  owns_block s bl p n : owns s bl → bl !! p = Some n → 0 < p ∧ p mod 8 = 0 ∧ 0 < n ∧ p + n ≤ 2 ^ 63;
  owns_apart s bl p n q k : owns s bl → bl !! p = Some n → bl !! q = Some k → p ≠ q → p + n ≤ q ∨ q + k ≤ p;
  alloc_ok s bl n : owns s bl → 0 < n ≤ 2 ^ 60 →
    ∃ r k s', alloc_func None 0 n s = (Ret (r, k), s') ∧ same_bytes bl s s' ∧
      match r with
      | Some p => bl !! p = None ∧ owns s' (<[p := Z.max k n]> bl)
      | None => owns s' bl
      end;
  free_ok s bl p n : owns s bl → bl !! p = Some n →
    ∃ r s', alloc_func (Some p) n 0 s = (Ret r, s') ∧ same_bytes (delete p bl) s s' ∧ owns s' (delete p bl);
  store_ok s bl a v : owns s bl → in_blocks bl a →
    ∃ s', store a v s = (Ret tt, s') ∧ owns s' bl ∧
      ∀ b, in_blocks bl b → load s' b = if b =? a then v else load s b;
}.

(** ** The arena *)

(** [ptr] and [end]; the blocks with their sizes, the current one first. *)
Record upb_Arena := { ptr : Z; end_ : Z; blocks : list (Z * Z); size_hint : Z; space_allocated : Z }.

Record aworld (M : Type) := { arena : upb_Arena; source : M }.
Arguments arena {_} _.
Arguments source {_} _.
Arguments Build_aworld {_} _ _.

Definition at_ptr (a : upb_Arena) (p : Z) : upb_Arena :=
  {| ptr := p; end_ := end_ a; blocks := blocks a; size_hint := size_hint a; space_allocated := space_allocated a |}.
Definition with_hint (a : upb_Arena) (h : Z) : upb_Arena :=
  {| ptr := ptr a; end_ := end_ a; blocks := blocks a; size_hint := h; space_allocated := space_allocated a |}.

Definition UPB_MALLOC_ALIGN : Z := 8.
Definition UPB_ALIGN_UP (size align : Z) : Z := u64 (u64 (size + align - 1) / align * align).
Definition UPB_ALIGN_MALLOC (size : Z) : Z := UPB_ALIGN_UP size UPB_MALLOC_ALIGN.
Definition kUpb_MemblockReserve : Z := 16.
Definition UPB_DEFAULT_MAX_BLOCK_SIZE : Z := 32768.
(** [sizeof(upb_ArenaState)], without and with assertions. *)
Definition sizeof_ArenaState (ndebug : bool) : Z := if ndebug then 80 else 88.

(** Without sanitizers: [kUpb_Asan_GuardSize] is 0. *)
Definition AllocSpan (size : Z) : Z := UPB_ALIGN_MALLOC size.
Definition ArenaHas (a : upb_Arena) : Z := u64 (end_ a - ptr a).
Definition WasLastAllocFromCurrentBlock (a : upb_Arena) (p size : Z) : bool := p + AllocSpan size =? ptr a.

(** The size of the block for a request that does not fit, whether it goes behind the
    current block, and the new [size_hint]. *)
Definition future_free (size target_size : Z) : Z := u64 (Z.max size (u64 (target_size - kUpb_MemblockReserve)) - size).
Definition next_block (max_block_size : Z) (a : upb_Arena) (size : Z) : bool * Z * Z :=
  let last_block := bool_decide (blocks a ≠ []) in
  let last_size := match blocks a with (_, n) :: _ => n | [] => 128 end in
  let current_free := if last_block then ArenaHas a else 0 in
  let target_size := Z.min (u64 (last_size * 2)) max_block_size in
  let target_size :=
    if last_block && (future_free size target_size <? current_free) && (target_size <? max_block_size)
    then Z.min (u64 (size_hint a * 2)) max_block_size else target_size in
  let insert_after_head := last_block && (future_free size target_size <=? current_free) in
  let target_size := if insert_after_head then u64 (size + kUpb_MemblockReserve) else target_size in
  let hint :=
    if insert_after_head && (target_size <=? max_block_size)
    then Z.min (u64 (size_hint a + Z.shiftr size 1)) (Z.shiftr max_block_size 1) else size_hint a in
  (insert_after_head, Z.max (u64 (kUpb_MemblockReserve + size)) target_size, hint).

(** [_upb_Arena_AddBlock]. *)
Definition AddBlock (a : upb_Arena) (block offset block_size : Z) : upb_Arena :=
  {| ptr := block + offset; end_ := block + block_size; blocks := (block, block_size) :: blocks a;
     size_hint := size_hint a; space_allocated := space_allocated a |}.
(** The branch that keeps the current block. *)
Definition add_behind (a : upb_Arena) (block block_size : Z) : upb_Arena :=
  {| ptr := ptr a; end_ := end_ a;
     blocks := match blocks a with [] => [(block, block_size)] | head :: rest => head :: (block, block_size) :: rest end;
     size_hint := size_hint a; space_allocated := space_allocated a |}.
Definition count_space (a : upb_Arena) (n : Z) : upb_Arena :=
  {| ptr := ptr a; end_ := end_ a; blocks := blocks a; size_hint := size_hint a;
     space_allocated := u64 (space_allocated a + n) |}.

(** Allocations with the sizes asked for. *)
Abbreviation held := (list (Z * Z)).

Section Ops.
Context {M : Type} `{upb_alloc M}.
(** [g_max_block_size], and whether assertions are off. *)
Context (max_block_size : Z) (ndebug : bool).
Notation acall := (cmd (aworld M)).

Definition on_source {A} (m : cmd M A) : acall A := λ w,
  let '(out, s) := m (source w) in (out, Build_aworld (arena w) s).
Definition set_arena (a : upb_Arena) : acall unit := cmodify (λ w, Build_aworld a (source w)).

Definition SizeReturningMalloc (size : Z) : cmd M (option Z * Z) :=
  '(p, n) ← alloc_func None 0 size;
  mret (p, match p with Some _ => Z.max n size | None => 0 end).

(** [_upb_Arena_SlowMalloc]; [again]: the call of [upb_Arena_Malloc] at its end. *)
Definition SlowMalloc (again : acall (option Z)) (size : Z) : acall (option Z) :=
  w ← cget;
  let '(insert_after_head, block_size, hint) := next_block max_block_size (arena w) size in
  set_arena (with_hint (arena w) hint);;
  '(p, n) ← on_source (SizeReturningMalloc block_size);
  match p with
  | None => mret None
  | Some block =>
      w ← cget;
      let a := count_space (arena w) n in
      if insert_after_head then
        set_arena (add_behind a block n);; mret (Some (block + kUpb_MemblockReserve))
      else set_arena (AddBlock (with_hint a n) block kUpb_MemblockReserve n);; again
  end.

(** [upb_Arena_Malloc]; [depth]: how often it may go through a new block. *)
Fixpoint Malloc_in (depth : nat) (size : Z) : acall (option Z) :=
  w ← cget;
  let span := AllocSpan size in
  if ArenaHas (arena w) <? span then
    match depth with
    | O => cfault "endless recursion"
    | S depth => SlowMalloc (Malloc_in depth span) span
    end
  else set_arena (at_ptr (arena w) (ptr (arena w) + span));; mret (Some (ptr (arena w))).
Definition Arena_Malloc : Z → acall (option Z) := Malloc_in 1.

Definition Arena_ShrinkLast (p oldsize size : Z) : acall unit :=
  w ← cget;
  let a := arena w in
  if WasLastAllocFromCurrentBlock a p oldsize
  then set_arena (at_ptr a (ptr a - (UPB_ALIGN_MALLOC oldsize - UPB_ALIGN_MALLOC size)))
  else mret tt.

Definition Arena_TryExtend (p oldsize size : Z) : acall bool :=
  w ← cget;
  let a := arena w in
  let extend := u64 (UPB_ALIGN_MALLOC size - UPB_ALIGN_MALLOC oldsize) in
  if WasLastAllocFromCurrentBlock a p oldsize && (extend <=? ArenaHas a)
  then set_arena (at_ptr a (ptr a + extend));; mret true
  else mret false.

(** [memcpy]. *)
Fixpoint store_all (dst : Z) (l : list Z) : cmd M unit :=
  match l with
  | [] => mret tt
  | v :: l => store dst v;; store_all (dst + 1) l
  end.
Definition bytes_at (s : M) (p : Z) (n : nat) : list Z := map (λ i, load s (p + Z.of_nat i)) (seq 0 n).
Definition memcpy (dst src : Z) (n : Z) : cmd M unit :=
  if (src <? dst + n) && (dst <? src + n) && (0 <? n) then cfault "memcpy of overlapping memory"
  else s ← cget; store_all dst (bytes_at s src (Z.to_nat n)).

Definition Arena_Realloc (p : option Z) (oldsize size : Z) : acall (option Z) :=
  in_place ← match p with
             | None => mret false
             | Some p => if size <=? oldsize then mret true else Arena_TryExtend p oldsize size
             end;
  match p with
  | Some p' =>
      if in_place : bool then
        w ← cget;
        (if (size <=? oldsize) && WasLastAllocFromCurrentBlock (arena w) p' oldsize
         then Arena_ShrinkLast p' oldsize size else mret tt);;
        mret p
      else
        ret ← Arena_Malloc size;
        match ret with
        | Some q =>
            (if 0 <? oldsize then on_source (memcpy q p' (Z.min oldsize size)) else mret tt);; mret (Some q)
        | None => mret None
        end
  | None =>
      ret ← Arena_Malloc size;
      match ret with
      | Some q => if 0 <? oldsize then cfault "memcpy from NULL" else mret (Some q)
      | None => mret None
      end
  end.

(** [upb_Arena_Init(NULL, first_size, alloc)], which is [_upb_Arena_InitSlow]: the state of
    the arena is at the start of its first block. *)
Definition first_block_overhead : Z := UPB_ALIGN_MALLOC (kUpb_MemblockReserve + sizeof_ArenaState ndebug).
Definition Arena_Init (first_size : Z) : cmd M (option upb_Arena) :=
  '(p, n) ← SizeReturningMalloc (u64 (first_block_overhead + Z.max 256 (UPB_ALIGN_MALLOC first_size)));
  mret (match p with
        | None => None
        | Some mem =>
            Some (AddBlock {| ptr := 0; end_ := 0; blocks := []; size_hint := n; space_allocated := n |}
                    mem first_block_overhead n)
        end).

(** [upb_Arena_Free] of the only reference: [_upb_Arena_DoFree]. *)
Fixpoint free_blocks (l : list (Z * Z)) : cmd M unit :=
  match l with
  | [] => mret tt
  | (block, n) :: l => alloc_func (Some block) n 0;; free_blocks l
  end.
Definition Arena_Free (a : upb_Arena) : cmd M unit := free_blocks (blocks a).

Definition Arena_SpaceAllocated (a : upb_Arena) : Z := space_allocated a.

(** ** Clients

    What holds memory of an arena: allocations with the sizes asked for. *)
Inductive aop :=
  | AMalloc (n : Z) | ARealloc (i : nat) (n : Z) | AExtend (i : nat) (n : Z) | AShrink (i : nat) (n : Z)
  | AWrite (i : nat) (off v : Z) | ARead (i : nat) (off : Z).
Inductive given := GNull | GPtr | GBool (b : bool) | GByte (v : Z) | GNone.

Definition inside (n off : Z) : bool := (0 <=? off) && (off <? n).

(** A call that is no use of the interface is not made. *)
Definition run_aop (hs : held) (op : aop) : acall (given * held) :=
  match op with
  | AMalloc n =>
      r ← Arena_Malloc n; mret (match r with Some p => (GPtr, hs ++ [(p, n)]) | None => (GNull, hs) end)
  | ARealloc i n =>
      match hs !! i with
      | Some (p, k) =>
          r ← Arena_Realloc (Some p) k n;
          mret (match r with Some q => (GPtr, <[i := (q, n)]> hs) | None => (GNull, hs) end)
      | None => mret (GNone, hs)
      end
  | AExtend i n =>
      match hs !! i with
      | Some (p, k) =>
          if k <? n then
            b ← Arena_TryExtend p k n; mret (GBool b, if b : bool then <[i := (p, n)]> hs else hs)
          else mret (GNone, hs)
      | None => mret (GNone, hs)
      end
  | AShrink i n =>
      match hs !! i with
      | Some (p, k) =>
          if (0 <=? n) && (n <=? k) then Arena_ShrinkLast p k n;; mret (GNone, <[i := (p, n)]> hs)
          else mret (GNone, hs)
      | None => mret (GNone, hs)
      end
  | AWrite i off v =>
      match hs !! i with
      | Some (p, k) => if inside k off then on_source (store (p + off) v);; mret (GNone, hs) else mret (GNone, hs)
      | None => mret (GNone, hs)
      end
  | ARead i off =>
      match hs !! i with
      | Some (p, k) => if inside k off then w ← cget; mret (GByte (load (source w) (p + off)), hs) else mret (GNone, hs)
      | None => mret (GNone, hs)
      end
  end.
Fixpoint run_aops (hs : held) (ops : list aop) : acall (list given * held) :=
  match ops with
  | [] => mret ([], hs)
  | op :: ops =>
      '(g, hs) ← run_aop hs op;
      '(gs, hs) ← run_aops hs ops;
      mret (g :: gs, hs)
  end.
End Ops.

(** ** What it should be: buffers of their own

    [None]: a byte that was never written, which reads as anything. *)
Abbreviation buffer := (list (option Z)).
Definition resized (n : Z) (b : buffer) : buffer :=
  take (Z.to_nat n) b ++ replicate (Z.to_nat n - length b) None.

Definition spec_aop (op : aop) (bs : list buffer) (g : given) (bs' : list buffer) : Prop :=
  match op with
  | AMalloc n => g = GPtr ∧ bs' = bs ++ [replicate (Z.to_nat n) None] ∨ g = GNull ∧ bs' = bs
  | ARealloc i n =>
      match bs !! i with
      | Some b => g = GPtr ∧ bs' = <[i := resized n b]> bs ∨ g = GNull ∧ bs' = bs
      | None => g = GNone ∧ bs' = bs
      end
  | AExtend i n =>
      match bs !! i with
      | Some b =>
          if Z.of_nat (length b) <? n then
            g = GBool true ∧ bs' = <[i := resized n b]> bs ∨ g = GBool false ∧ bs' = bs
          else g = GNone ∧ bs' = bs
      | None => g = GNone ∧ bs' = bs
      end
  | AShrink i n =>
      g = GNone ∧
      bs' = match bs !! i with
            | Some b => if (0 <=? n) && (n <=? Z.of_nat (length b)) then <[i := resized n b]> bs else bs
            | None => bs
            end
  | AWrite i off v =>
      g = GNone ∧
      bs' = match bs !! i with
            | Some b => if inside (Z.of_nat (length b)) off then <[i := <[Z.to_nat off := Some v]> b]> bs else bs
            | None => bs
            end
  | ARead i off =>
      bs' = bs ∧
      match bs !! i with
      | Some b =>
          match (if inside (Z.of_nat (length b)) off then b !! Z.to_nat off else None) with
          | Some (Some v) => g = GByte v
          | Some None => ∃ v, g = GByte v
          | None => g = GNone
          end
      | None => g = GNone
      end
  end.
Inductive spec_aops : list aop → list buffer → list given → list buffer → Prop :=
  | spec_done bs : spec_aops [] bs [] bs
  | spec_more op ops bs g bs1 gs bs2 :
      spec_aop op bs g bs1 → spec_aops ops bs1 gs bs2 → spec_aops (op :: ops) bs (g :: gs) bs2.

(** ** Properties *)

(** *** Sizes *)

(** Requests are below this. *)
Definition MAX_REQUEST : Z := 2 ^ 48.

Lemma align_spec n : 0 ≤ n ≤ 2 ^ 50 → n ≤ UPB_ALIGN_MALLOC n < n + 8 ∧ UPB_ALIGN_MALLOC n mod 8 = 0.
Proof.
  intros Hn. unfold UPB_ALIGN_MALLOC, UPB_ALIGN_UP, UPB_MALLOC_ALIGN. rewrite (u64_small (n + 8 - 1)) by lia.
  pose proof (Z.div_mod (n + 8 - 1) 8). pose proof (Z.mod_pos_bound (n + 8 - 1) 8).
  rewrite u64_small by lia. split; [lia|]. by apply Z.mod_mul.
Qed.

Lemma align_same n : 0 ≤ n ≤ 2 ^ 50 → n mod 8 = 0 → UPB_ALIGN_MALLOC n = n.
Proof.
  intros Hn Hm. destruct (align_spec n Hn) as [Hb Hm'].
  pose proof (Z.div_mod n 8). pose proof (Z.div_mod (UPB_ALIGN_MALLOC n) 8). lia.
Qed.

Lemma align_mono n m : 0 ≤ n ≤ m → m ≤ 2 ^ 50 → UPB_ALIGN_MALLOC n ≤ UPB_ALIGN_MALLOC m.
Proof.
  intros Hn Hm. destruct (align_spec n) as [? Hn8]; [lia|]. destruct (align_spec m) as [? Hm8]; [lia|].
  pose proof (Z.div_mod (UPB_ALIGN_MALLOC n) 8). pose proof (Z.div_mod (UPB_ALIGN_MALLOC m) 8). lia.
Qed.

Lemma mod8_add a b : a mod 8 = 0 → b mod 8 = 0 → (a + b) mod 8 = 0.
Proof. intros Ha Hb. rewrite Z.add_mod, Ha, Hb by lia. done. Qed.
Lemma mod8_sub a b : a mod 8 = 0 → b mod 8 = 0 → (a - b) mod 8 = 0.
Proof. intros Ha Hb. rewrite Zminus_mod, Ha, Hb. done. Qed.

(** The block that is asked for has room for the request, and is not larger than a block
    may be unless the request is. *)
Lemma next_block_spec max a size : 0 ≤ max ≤ MAX_REQUEST → 0 ≤ size ≤ 2 ^ 49 →
  let '(behind, block_size, _) := next_block max a size in
  size + 16 ≤ block_size ≤ Z.max (size + 16) max ∧
  (behind = true → block_size = size + 16 ∧ blocks a ≠ []).
Proof.
  unfold MAX_REQUEST. intros Hmax Hs. unfold next_block, kUpb_MemblockReserve. rewrite !(u64_small (size + 16)) by lia.
  rewrite (u64_small (16 + size)) by lia.
  set (t1 := Z.min (u64 _) max). set (t2 := if _ && _ && _ then _ else t1).
  assert (t2 ≤ max) as Ht by (unfold t2, t1; case_match; lia).
  set (b := bool_decide (blocks a ≠ []) && _). destruct b eqn:Eb; [|split; [lia|done]].
  split; [lia|]. intros _. split; [lia|]. unfold b in Eb. apply andb_true_iff in Eb as [Eb _].
  by apply bool_decide_eq_true in Eb.
Qed.

(** *** The invariant *)

Section Laws.
Context {M : Type} `{AllocLaws M}.
Context (max_block_size : Z) (ndebug : bool).
Hypothesis max_block_bound : 0 ≤ max_block_size ≤ MAX_REQUEST.

Notation span := UPB_ALIGN_MALLOC.

(** The blocks of the arena beside the blocks [frame] of others. *)
Definition with_blocks (l : list (Z * Z)) (frame : gmap Z Z) : gmap Z Z := foldr (λ b, <[b.1 := b.2]>) frame l.

(** Behind the header of a block, aligned, and not in the part of the current block that
    is free. *)
Definition placed (a : upb_Arena) (x : Z * Z) : Prop :=
  0 ≤ x.2 ≤ MAX_REQUEST ∧
  (x.2 = 0 ∨
   x.1 mod 8 = 0 ∧ (∃ b n, (b, n) ∈ blocks a ∧ b + 16 ≤ x.1 ∧ x.1 + span x.2 ≤ b + n) ∧
   (x.1 + span x.2 ≤ ptr a ∨ end_ a ≤ x.1)).
Definition apart (x y : Z * Z) : Prop :=
  x.2 = 0 ∨ y.2 = 0 ∨ x.1 + span x.2 ≤ y.1 ∨ y.1 + span y.2 ≤ x.1.

Record laid_out (a : upb_Arena) (frame : gmap Z Z) : Prop := {
  lo_keys : NoDup (blocks a).*1;
  lo_frame : ∀ b n, (b, n) ∈ blocks a → frame !! b = None;
  lo_current : ∃ b n rest, blocks a = (b, n) :: rest ∧ b + 16 ≤ ptr a ≤ end_ a ∧ end_ a = b + n ∧ ptr a mod 8 = 0;
  lo_space : space_allocated a = u64 (foldr (λ b s, b.2 + s) 0 (blocks a)) }.

(** [xs]: the state of the arena and what its clients hold. *)
Record ainv (w : aworld M) (frame : gmap Z Z) (xs : held) : Prop := {
  ai_owns : owns (source w) (with_blocks (blocks (arena w)) frame);
  ai_laid : laid_out (arena w) frame;
  ai_placed : ∀ i x, xs !! i = Some x → placed (arena w) x;
  ai_apart : ∀ i j x y, xs !! i = Some x → xs !! j = Some y → i ≠ j → apart x y }.

Lemma with_blocks_lookup l frame b n : NoDup l.*1 → (b, n) ∈ l → with_blocks l frame !! b = Some n.
Proof.
  induction l as [|[b' n'] l IH]; csimpl; intros Hd Hin; [by apply elem_of_nil in Hin|].
  apply NoDup_cons in Hd as [Hn Hd]. apply elem_of_cons in Hin as [[= <- <-]|Hin]; [apply lookup_insert_eq|].
  rewrite lookup_insert_ne; [by apply IH|]. intros ->. apply Hn, list_elem_of_fmap. by exists (b, n).
Qed.

Lemma with_blocks_delete b n l frame : b ∉ l.*1 → frame !! b = None →
  delete b (with_blocks ((b, n) :: l) frame) = with_blocks l frame.
Proof.
  intros Hb Hf. simpl. apply delete_insert_id. induction l as [|[b' n'] l IH]; [done|]. csimpl in *.
  apply not_elem_of_cons in Hb as [Hne Hb]. rewrite lookup_insert_ne by done. auto.
Qed.

Lemma with_blocks_fresh l frame p : with_blocks l frame !! p = None → p ∉ l.*1 ∧ frame !! p = None.
Proof.
  induction l as [|[b n] l IH]; csimpl; [by split; [apply not_elem_of_nil|]|].
  intros [Hp Hne]%lookup_insert_None. destruct (IH Hp). by rewrite not_elem_of_cons.
Qed.

Lemma with_blocks_behind head b n rest frame : b ≠ head.1 →
  with_blocks (head :: (b, n) :: rest) frame = <[b := n]> (with_blocks (head :: rest) frame).
Proof. intros Hne. simpl. by apply insert_insert_ne. Qed.

Lemma in_blocks_mono bl p n a : bl !! p = None → in_blocks bl a → in_blocks (<[p := n]> bl) a.
Proof.
  intros Hp (q & k & Hq & Ha). exists q, k. split; [|done]. rewrite lookup_insert_ne; [done|]. congruence.
Qed.

(** Where something is placed there is a block. *)
Lemma placed_in w frame xs i x a : ainv w frame xs → xs !! i = Some x → x.1 ≤ a < x.1 + x.2 →
  in_blocks (with_blocks (blocks (arena w)) frame) a.
Proof.
  intros Hi Hx Ha. destruct (ai_placed _ _ _ Hi _ _ Hx) as [Hb [?|(_ & (b & n & Hbn & Hin) & _)]]; [lia|].
  destruct (align_spec x.2) as [? _]; [unfold MAX_REQUEST in Hb; lia|].
  exists b, n. split; [|lia]. apply with_blocks_lookup; [|done]. apply (ai_laid _ _ _ Hi).
Qed.

(** The blocks of others are not the arena's. *)
Lemma with_blocks_frame l frame p n : (∀ b k, (b, k) ∈ l → frame !! b = None) → frame !! p = Some n →
  with_blocks l frame !! p = Some n.
Proof.
  intros Hf Hp. induction l as [|[b k] l IH]; [done|]. cbn [with_blocks foldr fst snd].
  rewrite lookup_insert_ne; [apply IH; intros ? ? ?; eapply Hf; by right|].
  intros <-. rewrite (Hf b k) in Hp; [done|by left].
Qed.

Lemma frame_in w frame xs a : ainv w frame xs → in_blocks frame a → in_blocks (with_blocks (blocks (arena w)) frame) a.
Proof.
  intros Hi (p & n & Hp & Ha). exists p, n. split; [|done].
  apply with_blocks_frame; [apply (ai_laid _ _ _ Hi)|done].
Qed.

Lemma frame_apart w frame xs i x a : ainv w frame xs → xs !! i = Some x → in_blocks frame a → ¬ x.1 ≤ a < x.1 + x.2.
Proof.
  intros Hi Hx (p & n & Hp & Hin) Ha. pose proof (lo_frame _ _ (ai_laid _ _ _ Hi)) as Hf.
  destruct (ai_placed _ _ _ Hi _ _ Hx) as [Hb [?|(_ & (b & k & Hbk & ?) & _)]]; [lia|].
  destruct (align_spec x.2) as [? _]; [unfold MAX_REQUEST in Hb; lia|]. specialize (Hf b k Hbk) as Hne.
  destruct (owns_apart _ _ p n b k (ai_owns _ _ _ Hi)) as [?|?]; [by apply with_blocks_frame| |congruence|lia|lia].
  apply with_blocks_lookup; [apply (ai_laid _ _ _ Hi)|done].
Qed.

(** The blocks of an arena do not overlap. *)
Lemma blocks_apart w frame xs b n b' n' : ainv w frame xs → (b, n) ∈ blocks (arena w) → (b', n') ∈ blocks (arena w) →
  (b, n) = (b', n') ∨ b + n ≤ b' ∨ b' + n' ≤ b.
Proof.
  intros Hi Hb Hb'. destruct (decide (b = b')) as [<-|Hne].
  - left. f_equal. pose proof (lo_keys _ _ (ai_laid _ _ _ Hi)) as Hd.
    pose proof (with_blocks_lookup _ frame _ _ Hd Hb). pose proof (with_blocks_lookup _ frame _ _ Hd Hb'). congruence.
  - right. eapply owns_apart; [apply (ai_owns _ _ _ Hi)|..|done]; apply with_blocks_lookup;
      try done; apply (ai_laid _ _ _ Hi).
Qed.

(** The invariant speaks of what is held, not of its order. *)
Lemma ainv_some w frame xs ys (f : nat → nat) : (∀ i j, f i = f j → i = j) →
  (∀ i y, ys !! i = Some y → xs !! f i = Some y) → ainv w frame xs → ainv w frame ys.
Proof.
  intros Hf Hys [Ho Hl Hp Ha]. split; [done|done|eauto|].
  intros i j x y Hx Hy Hne. eapply (Ha (f i) (f j)); eauto.
Qed.

(** A new allocation beside the others. *)
Lemma ainv_snoc w frame xs x : ainv w frame xs → placed (arena w) x →
  (∀ i y, xs !! i = Some y → apart y x) → ainv w frame (xs ++ [x]).
Proof.
  intros [Ho Hl Hp Ha] Hx Hxs. assert (∀ y z, apart y z → apart z y) as Hsym by (unfold apart; naive_solver).
  split; [done|done| |].
  - intros i y [Hy|[_ Hy]]%lookup_app_Some; [eauto|]. by apply list_lookup_singleton_Some in Hy as [_ <-].
  - intros i j y z [Hy|[Hi Hy]]%lookup_app_Some [Hz|[Hj Hz]]%lookup_app_Some Hne; [eauto|..].
    + apply list_lookup_singleton_Some in Hz as [_ ->]. eauto.
    + apply list_lookup_singleton_Some in Hy as [_ ->]. eauto.
    + apply list_lookup_singleton_Some in Hy as [? _], Hz as [? _]. lia.
Qed.

(** One taken for another. *)
Lemma ainv_replace w frame xs i x : ainv w frame (xs ++ [x]) → (i < length xs)%nat → ainv w frame (<[i := x]> xs).
Proof.
  intros Hi Hlt.
  apply (ainv_some _ _ (xs ++ [x]) _ (λ j, if decide (j = i) then length xs else if decide (j = length xs) then i else j)).
  - intros j k. repeat case_decide; lia.
  - intros j y Hy. case_decide as Hji; [subst|].
    + rewrite list_lookup_insert_eq in Hy by done. injection Hy as <-. by apply list_lookup_middle.
    + rewrite list_lookup_insert_ne in Hy by done. pose proof (lookup_lt_Some _ _ _ Hy).
      rewrite decide_False by lia. by apply lookup_app_l_Some.
  - done.
Qed.

(** *** Allocating *)

Lemma has_free w frame xs : ainv w frame xs → ArenaHas (arena w) = end_ (arena w) - ptr (arena w).
Proof.
  intros Hi. destruct (ai_laid _ _ _ Hi) as [Hd _ (b & n & rest & E & Hp & He & _) _].
  destruct (owns_block _ _ b n (ai_owns _ _ _ Hi)) as (? & _ & ? & ?).
  { apply with_blocks_lookup; [done|]. rewrite E. by left. }
  apply u64_small. lia.
Qed.

Lemma laid_out_ptr a p frame : laid_out a frame →
  (∀ b n rest, blocks a = (b, n) :: rest → b + 16 ≤ p ≤ end_ a) → p mod 8 = 0 → laid_out (at_ptr a p) frame.
Proof.
  intros [Hd Hf (b & n & rest & E & Hp & He & Hm) Hs] Hb Hm'. split; [done|done| |done].
  exists b, n, rest. simpl. split_and!; [done|by eapply Hb|by eapply Hb|done|done].
Qed.

(** The pointer moves over what is free. *)
Lemma take_free w frame xs k : ainv w frame xs → 0 ≤ k ≤ end_ (arena w) - ptr (arena w) → k mod 8 = 0 →
  ainv (Build_aworld (at_ptr (arena w) (ptr (arena w) + k)) (source w)) frame xs.
Proof.
  intros [Ho Hl Hp Ha] Hk Hm. split; [done| | |done]; cbn [arena source].
  - pose proof (lo_current _ _ Hl) as (b & n & rest & E & ? & ? & ?). apply laid_out_ptr; [done| |by apply mod8_add].
    intros ? ? ? E'. rewrite E in E'. injection E' as <- <- <-. lia.
  - intros i x Hx. destruct (Hp i x Hx) as [Hb [?|(? & ? & Hbelow)]]; split; [done|by left|done|].
    right. split_and!; [done|done|]. simpl. lia.
Qed.

Lemma fast_malloc w frame xs n : ainv w frame xs → 0 ≤ n ≤ MAX_REQUEST → span n ≤ ArenaHas (arena w) →
  ainv (Build_aworld (at_ptr (arena w) (ptr (arena w) + span n)) (source w)) frame (xs ++ [(ptr (arena w), n)]).
Proof.
  intros Hi Hn Hhas. rewrite (has_free _ _ _ Hi) in Hhas.
  destruct (align_spec n) as [Hs Hm]; [unfold MAX_REQUEST in Hn; lia|].
  pose proof (lo_current _ _ (ai_laid _ _ _ Hi)) as (b & k & rest & E & Hp & He & Hm').
  apply ainv_snoc; [apply take_free; [done|lia|done]| |].
  - split; [done|]. right. cbn [arena at_ptr fst snd ptr end_ blocks]. split_and!; [done| |lia].
    exists b, k. rewrite E. split; [by left|]. lia.
  - intros i y Hy. destruct (ai_placed _ _ _ Hi _ _ Hy) as [_ [?|(_ & _ & Hbelow)]]; [by left|].
    right. right. cbn [fst snd]. lia.
Qed.

(** A block that the allocator has just handed out. *)
Lemma new_block_apart w frame xs s' p n : ainv w frame xs →
  with_blocks (blocks (arena w)) frame !! p = None → owns s' (<[p := n]> (with_blocks (blocks (arena w)) frame)) →
  ∀ b k, (b, k) ∈ blocks (arena w) → b + k ≤ p ∨ p + n ≤ b.
Proof.
  intros Hi Hp Ho b k Hb. pose proof (with_blocks_lookup _ frame _ _ (lo_keys _ _ (ai_laid _ _ _ Hi)) Hb) as Hl.
  assert (b ≠ p) by congruence.
  eapply (owns_apart _ _ _ _ _ _ Ho); [by rewrite lookup_insert_ne|by rewrite lookup_insert_eq|done].
Qed.

Lemma space_of (l : list (Z * Z)) s n : s = u64 (foldr (λ b s, b.2 + s) 0 l) → u64 (s + n) = u64 (n + foldr (λ b s, b.2 + s) 0 l).
Proof. intros ->. unfold u64. rewrite Zplus_mod_idemp_l. f_equal. lia. Qed.

(** What was placed is placed when a block is added, wherever the pointer now is. *)
Lemma placed_more a a' x : placed a x → (∀ b n, (b, n) ∈ blocks a → (b, n) ∈ blocks a' ∧ (b + n ≤ ptr a' ∨ end_ a' ≤ b)) →
  placed a' x.
Proof.
  intros [Hb [?|(Hm & (b & n & Hin & Hx) & _)]] Hmore; split; [done|by left|done|].
  destruct (Hmore b n Hin) as [Hin' Hout]. right. split_and!; [done|by exists b, n|]. lia.
Qed.

Lemma block_added w frame xs s' p n h : ainv w frame xs → 16 ≤ n →
  with_blocks (blocks (arena w)) frame !! p = None → owns s' (<[p := n]> (with_blocks (blocks (arena w)) frame)) →
  ainv (Build_aworld (AddBlock (with_hint (count_space (arena w) n) h) p 16 n) s') frame xs.
Proof.
  intros Hi Hn Hp Ho. pose proof (new_block_apart _ _ _ _ _ _ Hi Hp Ho) as Hout. destruct Hi as [_ Hl Hpl Ha].
  destruct (owns_block _ _ p n Ho) as (Hp0 & Hp8 & _); [apply lookup_insert_eq|]. destruct Hl as [Hd Hf Hc Hs].
  destruct (with_blocks_fresh _ _ _ Hp) as [Hnew Hframe]. split; [done| | |done]; cbn [arena source].
  - split; cbn [AddBlock with_hint count_space blocks ptr end_ space_allocated].
    + csimpl. by apply NoDup_cons.
    + intros b k [[= -> ->]|Hb]%elem_of_cons; [done|by eapply Hf].
    + exists p, n, (blocks (arena w)). split_and!; [done|lia|lia|done|]. by apply mod8_add.
    + simpl. by apply space_of.
  - intros i x Hx. eapply placed_more; [by eapply Hpl|]. intros b k Hb. split; [by right|].
    destruct (Hout b k Hb); cbn; lia.
Qed.

Lemma block_behind w frame xs s' p n m : ainv w frame xs → 0 ≤ m ≤ MAX_REQUEST → span m + 16 ≤ n →
  with_blocks (blocks (arena w)) frame !! p = None → owns s' (<[p := n]> (with_blocks (blocks (arena w)) frame)) →
  ainv (Build_aworld (add_behind (count_space (arena w) n) p n) s') frame (xs ++ [(p + 16, m)]).
Proof.
  intros Hi Hm Hn Hp Ho. pose proof (new_block_apart _ _ _ _ _ _ Hi Hp Ho) as Hout. destruct Hi as [_ Hl Hpl Ha].
  destruct (owns_block _ _ p n Ho) as (Hp0 & Hp8 & _); [apply lookup_insert_eq|]. destruct Hl as [Hd Hf Hc Hs].
  destruct (with_blocks_fresh _ _ _ Hp) as [Hnew Hframe]. destruct Hc as (b & k & rest & E & Hptr & Hend & H8).
  destruct (align_spec m) as [Hsp _]; [unfold MAX_REQUEST in Hm; lia|].
  assert (∀ x, x ∈ blocks (arena w) → x ∈ blocks (add_behind (count_space (arena w) n) p n)) as Hmore.
  { intros x. simpl. rewrite E. set_solver. }
  assert (b + k ≤ p ∨ p + n ≤ b) as Hcur by (apply Hout; rewrite E; by left).
  apply ainv_snoc.
  - split; [| | |done]; cbn [arena source].
    + unfold add_behind, count_space. cbn [blocks]. rewrite E in Ho, Hnew |- *. csimpl in Hnew.
      rewrite with_blocks_behind; [done|]. simpl. intros ->. apply Hnew. by left.
    + unfold add_behind, count_space. split; cbn [blocks ptr end_ space_allocated]; rewrite E in *; csimpl in *.
      * apply NoDup_cons in Hd as [Hb Hd]. rewrite !NoDup_cons, !not_elem_of_cons. set_solver.
      * intros b' k' Hin. rewrite !elem_of_cons in Hin. destruct Hin as [?|[[= -> ->]|?]]; [|done|];
          apply (Hf b' k'); rewrite elem_of_cons; auto.
      * exists b, k. eexists. by split_and!; [|apply Hptr..| |].
      * rewrite (space_of ((b, k) :: rest) _ n Hs). csimpl. f_equal. lia.

    + intros i x Hx. destruct (Hpl i x Hx) as [Hb [?|(H8' & (b' & k' & Hin & ?) & ?)]]; split; [done|by left|done|].
      right. split_and!; [done|exists b', k'; by split; [apply Hmore|]|done].
  - split; [done|]. right. cbn [arena source fst snd add_behind count_space ptr end_].
    split_and!; [by apply mod8_add|exists p, n; split; [|lia]; simpl; rewrite E; set_solver|lia].
  - intros i y Hy. destruct (Hpl i y Hy) as [_ [?|(_ & (b' & k' & Hin & ?) & _)]]; [by left|].
    destruct (Hout b' k' Hin); right; right; cbn [fst snd]; lia.
Qed.

Abbreviation around w frame := (with_blocks (blocks (arena w)) frame).

(** What a call leaves: the bytes of the blocks there were, and the invariant. *)
Definition leaves (w : aworld M) (frame : gmap Z Z) (w' : aworld M) (xs : held) : Prop :=
  same_bytes (around w frame) (source w) (source w') ∧ ainv w' frame xs.

Lemma same_bytes_refl bl (s : M) : same_bytes bl s s.
Proof. done. Qed.

Lemma same_bytes_trans bl (s1 s2 s3 : M) : same_bytes bl s1 s2 → same_bytes bl s2 s3 → same_bytes bl s1 s3.
Proof. intros H1 H2 a Ha. rewrite H2, H1; done. Qed.

Lemma frame_same w frame xs s s' : ainv w frame xs → same_bytes (around w frame) s s' → same_bytes frame s s'.
Proof. intros Hi Hs a Ha. by eapply Hs, frame_in. Qed.

Lemma hint_ainv w frame xs h : ainv w frame xs → ainv (Build_aworld (with_hint (arena w) h) (source w)) frame xs.
Proof. intros [Ho [] Hp Ha]. by split; [|split|..]. Qed.

(** The call of the allocator. *)
Lemma get_block w frame xs n : ainv w frame xs → 0 < n ≤ 2 ^ 60 →
  ∃ r k s', on_source (SizeReturningMalloc n) w = (Ret (r, k), Build_aworld (arena w) s') ∧
    same_bytes (around w frame) (source w) s' ∧
    match r with
    | Some p => n ≤ k ∧ around w frame !! p = None ∧ owns s' (<[p := k]> (around w frame))
    | None => ainv (Build_aworld (arena w) s') frame xs
    end.
Proof.
  intros Hi Hn. destruct (alloc_ok _ _ n (ai_owns _ _ _ Hi) Hn) as (r & k & s' & E & Hs & Hr).
  unfold on_source, SizeReturningMalloc. rewrite (cbind_ret _ _ _ _ _ E). destruct r as [p|].
  - exists (Some p), (Z.max k n), s'. destruct Hr. split_and!; [done..|lia|done|done].
  - exists None, 0, s'. split_and!; [done..|]. destruct Hi. by split.
Qed.

Lemma Malloc_spec w frame xs n : ainv w frame xs → 0 ≤ n ≤ MAX_REQUEST →
  ∃ r w', Arena_Malloc max_block_size n w = (Ret r, w') ∧
    leaves w frame w' (match r with Some p => xs ++ [(p, n)] | None => xs end).
Proof.
  intros Hi Hn. destruct (align_spec n) as [Hs Hm]; [unfold MAX_REQUEST in Hn; lia|].
  assert (2 ^ 48 + 8 < 2 ^ 49 ∧ 2 ^ 49 + 16 < 2 ^ 50) as [? ?] by lia. unfold MAX_REQUEST in Hn, max_block_bound.
  unfold Arena_Malloc. cbn [Malloc_in]. rewrite (cbind_ret _ _ w w w) by done. unfold AllocSpan.
  destruct (Z.ltb_spec (ArenaHas (arena w)) (span n)) as [Hlt|Hge].
  2: { eexists _, _. split; [done|]. split; [done|]. by apply fast_malloc. }
  unfold SlowMalloc. rewrite (cbind_ret _ _ w w w) by done.
  pose proof (next_block_spec max_block_size (arena w) (span n)) as Hnext.
  destruct (next_block max_block_size (arena w) (span n)) as [[behind bs] hint].
  destruct Hnext as [Hbs _]; [done|lia|].
  set (w1 := Build_aworld (with_hint (arena w) hint) (source w)). rewrite (cbind_ret _ _ w tt w1) by done.
  pose proof (hint_ainv _ _ _ hint Hi) as Hi1. fold w1 in Hi1.
  destruct (get_block w1 frame xs bs Hi1) as (r & k & s' & E & Hsame & Hr); [lia|].
  rewrite (cbind_ret _ _ _ _ _ E). destruct r as [p|]; [|by eexists _, _].
  destruct Hr as (Hk & Hp & Ho). set (w2 := Build_aworld (arena w1) s'). rewrite (cbind_ret _ _ w2 w2 w2) by done.
  destruct behind.
  - eexists _, _. split; [done|]. split; [done|].
    apply (block_behind w1 frame xs s' p k n); [done|unfold MAX_REQUEST; lia|lia|done|done].
  - pose proof (block_added w1 frame xs s' p k k Hi1) as Hi2.
    set (w3 := Build_aworld (AddBlock (with_hint (count_space (arena w1) k) k) p 16 k) s') in Hi2.
    assert (ainv w3 frame xs) as Hi3 by (apply Hi2; [lia|done|done]).
    rewrite (cbind_ret _ _ w2 tt w3) by done. rewrite (cbind_ret _ _ w3 w3 w3) by done. rewrite (align_same (span n)) by (done || lia).
    pose proof (has_free _ _ _ Hi3) as Hhas. cbn [w3 arena AddBlock ptr end_] in Hhas.
    change (ArenaHas (arena w3)) with (ArenaHas (AddBlock (with_hint (count_space (arena w1) k) k) p 16 k)).
    rewrite Hhas. destruct (Z.ltb_spec (p + k - (p + 16)) (span n)); [lia|].
    eexists _, _. split; [done|]. split; [done|]. apply (fast_malloc w3 frame xs n); [done|done|].
    change (ArenaHas (arena w3)) with (ArenaHas (AddBlock (with_hint (count_space (arena w1) k) k) p 16 k)). lia.
Qed.

(** *** Growing and shrinking in place *)

Lemma resize w frame xs i p n q : ainv w frame xs → (i < length xs)%nat → q mod 8 = 0 →
  (∀ b k rest, blocks (arena w) = (b, k) :: rest → b + 16 ≤ q ≤ end_ (arena w)) → placed (at_ptr (arena w) q) (p, n) →
  (∀ j y, j ≠ i → xs !! j = Some y →
     (y.2 = 0 ∨ y.1 + span y.2 ≤ q ∨ end_ (arena w) ≤ y.1) ∧ apart (p, n) y) →
  ainv (Build_aworld (at_ptr (arena w) q) (source w)) frame (<[i := (p, n)]> xs).
Proof.
  intros [Ho Hl Hp Ha] Hlt Hq Hcur Hx Hys. assert (∀ y z, apart y z → apart z y) as Hsym by (unfold apart; naive_solver).
  split; [done|by apply laid_out_ptr|..]; cbn [arena].
  - intros j y [(<- & <- & _)|[Hne Hy]]%list_lookup_insert_Some; [done|].
    destruct (Hys j y) as [Hb _]; [done|done|]. destruct (Hp j y Hy) as [? [?|(? & ? & _)]]; split; [done|by left|done|].
    destruct Hb as [?|Hb]; [by left|right; by split_and!].
  - intros j l y z [(<- & <- & _)|[Hj Hy]]%list_lookup_insert_Some [(<- & <- & _)|[Hk Hz]]%list_lookup_insert_Some Hne.
    + done.
    + by apply (Hys l z).
    + apply Hsym. by apply (Hys j y).
    + by eapply (Ha j l).
Qed.

(** The last allocation of the current block. *)
Lemma last_in_current w frame xs i p k : ainv w frame xs → xs !! i = Some (p, k) → p + span k = ptr (arena w) →
  p mod 8 = 0 ∧ (∀ b n rest, blocks (arena w) = (b, n) :: rest → b + 16 ≤ p) ∧
  (∀ j y, j ≠ i → xs !! j = Some y → y.2 = 0 ∨ y.1 + span y.2 ≤ p ∨ end_ (arena w) ≤ y.1).
Proof.
  intros Hi Hx Hlast. pose proof Hi as [_ Hl Hp Ha]. destruct (lo_current _ _ Hl) as (b & n & rest & E & Hptr & Hend & H8).
  destruct (Hp i _ Hx) as [Hk Hpl]. cbn [fst snd] in *.
  destruct (align_spec k) as [Hs _]; [unfold MAX_REQUEST in Hk; lia|].
  destruct (decide (k = 0)) as [->|Hne].
  { change (span 0) with 0 in *. replace p with (ptr (arena w)) in * by lia. split_and!; [done| |].
    - intros ? ? ? E'. rewrite E in E'. injection E' as <- <- <-. lia.
    - intros j y _ Hy. destruct (Hp j y Hy) as [_ [?|(_ & _ & ?)]]; [by left|by right]. }
  destruct Hpl as [?|(Hm & (b' & n' & Hin & Hb) & _)]; [done|]. split_and!; [done| |].
  - intros ? ? ? E'. rewrite E in E'. injection E' as <- <- <-.
    destruct (blocks_apart _ _ _ b n b' n' Hi) as [[= <- <-]|?]; [rewrite E; by left|done|lia|lia].
  - intros j y Hj Hy. destruct (Hp j y Hy) as [Hy2 [?|(_ & _ & Hbelow)]]; [by left|].
    destruct (Ha i j _ _ Hx Hy ltac:(done)) as [?|[?|[?|?]]]; cbn [fst snd] in *; [done|by left| |by right; left].
    destruct (align_spec y.2) as [? _]; [unfold MAX_REQUEST in Hy2; lia|].
    destruct (decide (y.2 = 0)); [by left|]. right. right. lia.
Qed.

Lemma move_last w frame xs i p k n : ainv w frame xs → xs !! i = Some (p, k) → p + span k = ptr (arena w) →
  0 ≤ n ≤ MAX_REQUEST → p + span n ≤ end_ (arena w) →
  ainv (Build_aworld (at_ptr (arena w) (p + span n)) (source w)) frame (<[i := (p, n)]> xs).
Proof.
  intros Hi Hx Hlast Hn Hroom. destruct (align_spec n) as [Hsn Hn8]; [unfold MAX_REQUEST in Hn; lia|].
  destruct (last_in_current _ _ _ _ _ _ Hi Hx Hlast) as (Hp8 & Hcur & Hys).
  destruct (lo_current _ _ (ai_laid _ _ _ Hi)) as (b & m & rest & E & Hptr & Hend & H8). specialize (Hcur _ _ _ E).
  apply resize; [done|by eapply lookup_lt_Some|by apply mod8_add| | |].
  - intros ? ? ? E'. rewrite E in E'. injection E' as <- <- <-. lia.
  - split; [done|]. right. cbn [fst snd at_ptr ptr end_ blocks]. split_and!; [done| |lia].
    exists b, m. rewrite E. split; [by left|]. lia.
  - intros j y Hj Hy. unfold apart. cbn [fst snd]. destruct (Hys j y Hj Hy) as [?|[?|?]]; lia.
Qed.

Lemma TryExtend_spec w frame xs i p k n : ainv w frame xs → xs !! i = Some (p, k) → k < n ≤ MAX_REQUEST →
  ∃ b w', Arena_TryExtend p k n w = (Ret b, w') ∧ leaves w frame w' (if b : bool then <[i := (p, n)]> xs else xs).
Proof.
  intros Hi Hx Hn. unfold Arena_TryExtend. rewrite (cbind_ret _ _ w w w) by done.
  destruct (ai_placed _ _ _ Hi _ _ Hx) as [Hk _]. cbn [snd] in Hk. unfold MAX_REQUEST in *.
  destruct (align_spec k) as [Hsk _]; [lia|]. destruct (align_spec n) as [Hsn _]; [lia|].
  pose proof (align_mono k n). rewrite u64_small by lia. rewrite (has_free _ _ _ Hi).
  unfold WasLastAllocFromCurrentBlock, AllocSpan.
  destruct (Z.eqb_spec (p + span k) (ptr (arena w))) as [Hlast|]; [|by eexists _, _].
  destruct (Z.leb_spec (span n - span k) (end_ (arena w) - ptr (arena w))) as [Hroom|]; [|by eexists _, _].
  eexists true, _. split; [done|]. split; [done|].
  replace (ptr (arena w) + (span n - span k)) with (p + span n) by lia.
  eapply move_last; [done|done|done|unfold MAX_REQUEST; lia|lia].
Qed.

Lemma ShrinkLast_spec w frame xs i p k n : ainv w frame xs → xs !! i = Some (p, k) → 0 ≤ n ≤ k →
  ∃ w', Arena_ShrinkLast p k n w = (Ret tt, w') ∧ leaves w frame w' (<[i := (p, n)]> xs).
Proof.
  intros Hi Hx Hn. unfold Arena_ShrinkLast. rewrite (cbind_ret _ _ w w w) by done.
  destruct (ai_placed _ _ _ Hi _ _ Hx) as [Hk Hpl]. cbn [fst snd] in *. unfold MAX_REQUEST in Hk.
  destruct (align_spec k) as [Hsk _]; [lia|]. destruct (align_spec n) as [Hsn _]; [lia|]. pose proof (align_mono n k).
  destruct (lo_current _ _ (ai_laid _ _ _ Hi)) as (b & m & rest & E & Hptr & Hend & H8).
  unfold WasLastAllocFromCurrentBlock, AllocSpan.
  destruct (Z.eqb_spec (p + span k) (ptr (arena w))) as [Hlast|_].
  - eexists. split; [done|]. split; [done|]. replace (ptr (arena w) - (span k - span n)) with (p + span n) by lia.
    eapply move_last; [done|done|done|unfold MAX_REQUEST; lia|lia].
  - eexists w. split; [done|]. split; [done|].
    replace w with (Build_aworld (at_ptr (arena w) (ptr (arena w))) (source w)) by (by destruct w as [[] ?]).
    apply resize; [done|by eapply lookup_lt_Some|done| | |].
    + intros ? ? ? E'. rewrite E in E'. injection E' as <- <- <-. lia.
    + split; [unfold MAX_REQUEST; cbn [snd]; lia|]. cbn [fst snd at_ptr ptr end_ blocks]. destruct (decide (n = 0)); [by left|].
      right. destruct Hpl as [?|(? & (b' & n' & Hin & ?) & ?)]; [lia|]. split_and!; [done| |lia]. exists b', n'. split; [done|lia].
    + intros j y Hj Hy. split.
      * destruct (ai_placed _ _ _ Hi _ _ Hy) as [_ [?|(_ & _ & ?)]]; [by left|by right].
      * destruct (ai_apart _ _ _ Hi i j _ _ Hx Hy) as [?|[?|[?|?]]]; [done|..]; cbn [fst snd] in *; unfold apart; cbn [fst snd]; lia.
Qed.

(** *** Moving *)

Lemma store_all_spec bl : ∀ l dst (s : M), owns s bl → (∀ j, (j < length l)%nat → in_blocks bl (dst + Z.of_nat j)) →
  ∃ s', store_all dst l s = (Ret tt, s') ∧ owns s' bl ∧
    ∀ a, in_blocks bl a → load s' a = default (load s a) (if dst <=? a then l !! Z.to_nat (a - dst) else None).
Proof.
  induction l as [|v l IH]; intros dst s Ho Hin; simpl.
  { exists s. split_and!; [done|done|]. intros a _. by destruct (dst <=? a). }
  destruct (store_ok s bl dst v Ho) as (s1 & E & Ho1 & Hl1).
  { replace dst with (dst + Z.of_nat 0) by lia. apply Hin. simpl. lia. }
  rewrite (cbind_ret _ _ _ _ _ E). destruct (IH (dst + 1) s1 Ho1) as (s2 & -> & Ho2 & Hl2).
  { intros j Hj. replace (dst + 1 + Z.of_nat j) with (dst + Z.of_nat (S j)) by lia. apply Hin. simpl. lia. }
  exists s2. split_and!; [done|done|]. intros a Ha. rewrite Hl2, Hl1 by done.
  destruct (Z.eqb_spec a dst) as [->|Hne].
  - rewrite (proj2 (Z.leb_gt (dst + 1) dst)), (proj2 (Z.leb_le dst dst)) by lia. by rewrite Z.sub_diag.
  - destruct (Z.leb_spec dst a).
    + rewrite (proj2 (Z.leb_le (dst + 1) a)) by lia.
      by replace (Z.to_nat (a - dst)) with (S (Z.to_nat (a - (dst + 1)))) by lia.
    + by rewrite (proj2 (Z.leb_gt (dst + 1) a)) by lia.
Qed.

Lemma bytes_at_lookup (s : M) p n j : (j < n)%nat → bytes_at s p n !! j = Some (load s (p + Z.of_nat j)).
Proof.
  intros Hj. unfold bytes_at. change (map (λ i, load s (p + Z.of_nat i)) (seq 0 n)) with ((λ i, load s (p + Z.of_nat i)) <$> seq 0 n).
  by rewrite list_lookup_fmap, lookup_seq_lt.
Qed.

Lemma source_ainv w frame xs s' : ainv w frame xs → owns s' (around w frame) → ainv (Build_aworld (arena w) s') frame xs.
Proof. intros [_ Hl Hp Ha] Ho. by split. Qed.

Lemma memcpy_spec w frame xs i j p k q n m : ainv w frame xs → xs !! i = Some (p, k) → xs !! j = Some (q, n) → i ≠ j →
  0 < m ≤ Z.min k n →
  ∃ s', memcpy q p m (source w) = (Ret tt, s') ∧ ainv (Build_aworld (arena w) s') frame xs ∧
    ∀ a, in_blocks (around w frame) a →
      load s' a = if (q <=? a) && (a <? q + m) then load (source w) (p + (a - q)) else load (source w) a.
Proof.
  intros Hi Hx Hy Hij Hm. unfold memcpy.
  destruct (ai_placed _ _ _ Hi _ _ Hx) as [Hk _], (ai_placed _ _ _ Hi _ _ Hy) as [Hn _]. cbn [fst snd] in *. unfold MAX_REQUEST in *.
  destruct (align_spec k) as [? _]; [lia|]. destruct (align_spec n) as [? _]; [lia|].
  assert ((p <? q + m) && (q <? p + m) && (0 <? m) = false) as ->.
  { destruct (ai_apart _ _ _ Hi i j _ _ Hx Hy Hij) as [?|[?|[?|?]]]; cbn [fst snd] in *; lia. }
  rewrite (cbind_ret _ _ (source w) (source w) (source w)) by done.
  assert (length (bytes_at (source w) p (Z.to_nat m)) = Z.to_nat m) as Hlen by (unfold bytes_at; by rewrite length_map, length_seq).
  destruct (store_all_spec (around w frame) (bytes_at (source w) p (Z.to_nat m)) q (source w) (ai_owns _ _ _ Hi))
    as (s' & E & Ho & Hl).
  { intros l Hlt. rewrite Hlen in Hlt. eapply (placed_in _ _ _ _ _ _ Hi Hy). cbn [fst snd]. lia. }
  exists s'. split; [done|]. split; [by apply source_ainv|]. intros a Ha. rewrite (Hl a Ha).
  destruct (Z.leb_spec q a), (Z.ltb_spec a (q + m)); cbn [andb]; try done.
  - rewrite bytes_at_lookup by lia. simpl. f_equal. lia.
  - by rewrite lookup_ge_None_2 by lia.
Qed.

Lemma same_on w frame xs w' i y a : ainv w frame xs → same_bytes (around w frame) (source w) (source w') →
  xs !! i = Some y → y.1 ≤ a < y.1 + y.2 → load (source w') a = load (source w) a.
Proof. intros Hi Hs Hy Ha. apply Hs. by eapply placed_in. Qed.

(** What moves keeps its bytes, and what does not move too. *)
Lemma Realloc_spec w frame xs i p k n : ainv w frame xs → xs !! i = Some (p, k) → 0 ≤ n ≤ MAX_REQUEST →
  ∃ r w', Arena_Realloc max_block_size (Some p) k n w = (Ret r, w') ∧
    ainv w' frame (match r with Some q => <[i := (q, n)]> xs | None => xs end) ∧
    (∀ j y a, (r = None ∨ j ≠ i) → xs !! j = Some y → y.1 ≤ a < y.1 + y.2 → load (source w') a = load (source w) a) ∧
    same_bytes frame (source w) (source w') ∧
    ∀ q off, r = Some q → 0 ≤ off < Z.min k n → load (source w') (q + off) = load (source w) (p + off).
Proof.
  intros Hi Hx Hn. destruct (ai_placed _ _ _ Hi _ _ Hx) as [Hk _]. cbn [snd] in Hk.
  assert (∀ off, 0 ≤ off < Z.min k n → (p, k).1 ≤ p + off < (p, k).1 + (p, k).2) as Hoff by (cbn; lia).
  unfold Arena_Realloc. destruct (Z.leb_spec n k) as [Hle|Hgt].
  { rewrite (cbind_ret _ _ w true w), (cbind_ret _ _ w w w) by done. cbn [andb].
    destruct (ShrinkLast_spec w frame xs i p k n Hi Hx) as (w' & E & Hs & Hi'); [lia|].
    assert ((if WasLastAllocFromCurrentBlock (arena w) p k then Arena_ShrinkLast p k n else mret tt) w = (Ret tt, w')) as E'.
    { rewrite <- E. destruct (WasLastAllocFromCurrentBlock (arena w) p k) eqn:Ew; [done|].
      unfold Arena_ShrinkLast. rewrite (cbind_ret _ _ w w w) by done. by rewrite Ew. }
    rewrite (cbind_ret _ _ _ _ _ E'). pose proof (frame_same _ _ _ _ _ Hi Hs). exists (Some p), w'. split_and!; [done|done| |done|].
    - intros j y a _ Hy Ha. by eapply same_on.
    - intros q off [= <-] Ho. by eapply (same_on _ _ _ _ _ (p, k)); [..|apply Hoff]. }
  destruct (TryExtend_spec w frame xs i p k n Hi Hx) as (b & w1 & E & Hs1 & Hi1); [lia|].
  rewrite (cbind_ret _ _ _ _ _ E). destruct b.
  { rewrite (cbind_ret _ _ w1 w1 w1) by done. cbn [andb]. rewrite (cbind_ret _ _ w1 tt w1) by done.
    pose proof (frame_same _ _ _ _ _ Hi Hs1). exists (Some p), w1. split_and!; [done|done| |done|].
    - intros j y a _ Hy Ha. by eapply same_on.
    - intros q off [= <-] Ho. by eapply (same_on _ _ _ _ _ (p, k)); [..|apply Hoff]. }
  destruct (Malloc_spec w1 frame xs n Hi1 Hn) as (r & w2 & E2 & Hs2 & Hi2). rewrite (cbind_ret _ _ _ _ _ E2).
  assert (∀ j y a, xs !! j = Some y → y.1 ≤ a < y.1 + y.2 → load (source w2) a = load (source w) a) as Hsame.
  { intros j y a Hy Ha. transitivity (load (source w1) a); [by eapply (same_on w1)|by eapply (same_on w)]. }
  assert (same_bytes frame (source w) (source w2)) as Hfr by (eapply same_bytes_trans; [eapply (frame_same w)|eapply (frame_same w1)]; done).
  destruct r as [q|]; [|exists None, w2; split_and!; [done|done|eauto|done|done]].
  pose proof (lookup_lt_Some _ _ _ Hx) as Hlt.
  destruct (Z.ltb_spec 0 k) as [Hpos|Hzero].
  2: { rewrite (cbind_ret _ _ w2 tt w2) by done. exists (Some q), w2. split_and!; [done|by apply ainv_replace|eauto|done|]. intros; lia. }
  assert ((xs ++ [(q, n)]) !! i = Some (p, k)) as Hx2 by (by apply lookup_app_l_Some).
  assert ((xs ++ [(q, n)]) !! length xs = Some (q, n)) as Hq2 by (by apply list_lookup_middle).
  destruct (memcpy_spec w2 frame (xs ++ [(q, n)]) i (length xs) p k q n (Z.min k n) Hi2 Hx2 Hq2) as (s3 & E3 & Hi3 & Hl3); [lia|lia|].
  assert (on_source (memcpy q p (Z.min k n)) w2 = (Ret tt, Build_aworld (arena w2) s3)) as E4 by (unfold on_source; by rewrite E3).
  rewrite (cbind_ret _ _ _ _ _ E4). eexists (Some q), _. split_and!; [done|by apply ainv_replace| | |]; cbn [source].
  - intros j y a _ Hy Ha. rewrite Hl3 by (eapply (placed_in _ _ _ j y); [done|by apply lookup_app_l_Some|done]).
    assert ((q <=? a) && (a <? q + Z.min k n) = false) as ->; [|by eapply Hsame].
    pose proof (lookup_lt_Some _ _ _ Hy).
    destruct (ai_placed _ _ _ Hi _ _ Hy) as [Hy2 _]. unfold MAX_REQUEST in *.
    destruct (align_spec y.2) as [? _]; [lia|]. destruct (align_spec n) as [? _]; [lia|].
    destruct (ai_apart _ _ _ Hi2 j (length xs) y (q, n)) as [?|[?|[?|?]]]; [by apply lookup_app_l_Some|done|lia|..];
      cbn [fst snd] in *; lia.
  - eapply same_bytes_trans; [exact Hfr|]. intros a Ha. rewrite Hl3 by (by apply (frame_in _ _ _ _ Hi2)).
    pose proof (frame_apart _ _ _ _ _ a Hi2 Hq2 Ha). cbn [fst snd] in *.
    destruct (Z.leb_spec q a), (Z.ltb_spec a (q + Z.min k n)); (done || lia).
  - intros q' off [= <-] Ho. rewrite Hl3 by (eapply (placed_in _ _ _ _ _ _ Hi2 Hq2); cbn; lia).
    rewrite (proj2 (Z.leb_le _ _)), (proj2 (Z.ltb_lt _ _)) by lia. cbn [andb].
    replace (p + (q + off - q)) with (p + off) by lia. by eapply (Hsame i (p, k)); [|apply Hoff].
Qed.

(** *** Refinement *)

(** The bytes of an allocation are those of the buffer, where it has any. *)
Definition keeps (s : M) (x : Z * Z) (b : buffer) : Prop :=
  Z.of_nat (length b) = x.2 ∧ ∀ j v, b !! j = Some (Some v) → load s (x.1 + Z.of_nat j) = v.
Definition holds (s : M) (hs : held) (bs : list buffer) : Prop :=
  length hs = length bs ∧ ∀ i x b, hs !! i = Some x → bs !! i = Some b → keeps s x b.

Definition aop_ok (op : aop) : Prop :=
  match op with
  | AMalloc n | ARealloc _ n | AExtend _ n => 0 ≤ n ≤ MAX_REQUEST
  | _ => True
  end.

Lemma keeps_bound s x b j o : keeps s x b → b !! j = Some o → x.1 ≤ x.1 + Z.of_nat j < x.1 + x.2.
Proof. intros [Hl _] Hj%lookup_lt_Some. lia. Qed.

Lemma keeps_fresh s p n : 0 ≤ n → keeps s (p, n) (replicate (Z.to_nat n) None).
Proof. intros Hn. split; [rewrite length_replicate; simpl; lia|]. by intros j v [? _]%lookup_replicate. Qed.

Lemma resized_lookup n b j v : resized n b !! j = Some (Some v) → b !! j = Some (Some v) ∧ (j < Z.to_nat n)%nat.
Proof.
  unfold resized. intros [[Hb Hj]%lookup_take_Some|[_ [? _]%lookup_replicate]]%lookup_app_Some; [by split|done].
Qed.

Lemma keeps_resized s s' p k q n b : keeps s (p, k) b → 0 ≤ n →
  (∀ off, 0 ≤ off < Z.min k n → load s' (q + off) = load s (p + off)) → keeps s' (q, n) (resized n b).
Proof.
  intros [Hl Hb] Hn Hs. split.
  - unfold resized. rewrite length_app, length_take, length_replicate. simpl in *. lia.
  - intros j v [Hj Hlt]%resized_lookup. pose proof (lookup_lt_Some _ _ _ Hj). simpl in *. rewrite Hs by lia. by apply Hb.
Qed.

(** Every allocation keeps its bytes but one, which is taken for [x]. *)
Lemma holds_change s s' hs bs i x b : holds s hs bs → (i < length hs)%nat → keeps s' x b →
  (∀ j y a, j ≠ i → hs !! j = Some y → y.1 ≤ a < y.1 + y.2 → load s' a = load s a) →
  holds s' (<[i := x]> hs) (<[i := b]> bs).
Proof.
  intros [Hl Hh] Hi Hx Hs. split; [by rewrite !length_insert|]. intros j y c Hy Hc.
  destruct (decide (j = i)) as [->|Hne].
  - rewrite list_lookup_insert_eq in Hy by lia. rewrite list_lookup_insert_eq in Hc by lia. by simplify_eq.
  - rewrite list_lookup_insert_ne in Hy by done. rewrite list_lookup_insert_ne in Hc by done. destruct (Hh j y c Hy Hc) as [Hlen Hb]. split; [done|].
    intros l v Hv. rewrite (Hs j y); [by apply Hb|done|done|]. eapply keeps_bound; [by split|done].
Qed.

Lemma holds_same s s' hs bs : holds s hs bs →
  (∀ j y a, hs !! j = Some y → y.1 ≤ a < y.1 + y.2 → load s' a = load s a) → holds s' hs bs.
Proof.
  intros [Hl Hh] Hs. split; [done|]. intros i x b Hx Hb. destruct (Hh i x b Hx Hb) as [Hlen Hv]. split; [done|].
  intros j v Hj. rewrite (Hs i x); [by apply Hv|done|]. eapply keeps_bound; [by split|done].
Qed.

Lemma holds_snoc s hs bs x b : holds s hs bs → keeps s x b → holds s (hs ++ [x]) (bs ++ [b]).
Proof.
  intros [Hl Hh] Hx. split; [rewrite !length_app; simpl; lia|]. intros i y c Hy Hc.
  destruct (decide (i < length hs)%nat) as [Hlt|].
  - rewrite lookup_app_l in Hy by lia. rewrite lookup_app_l in Hc by lia. eauto.
  - rewrite lookup_app_r in Hy by lia. rewrite lookup_app_r in Hc by lia. apply list_lookup_singleton_Some in Hy as [_ <-], Hc as [_ <-]. done.
Qed.

Lemma holds_lookup s hs bs i : holds s hs bs →
  match hs !! i with
  | Some x => ∃ b, bs !! i = Some b ∧ keeps s x b ∧ Z.of_nat (length b) = x.2
  | None => bs !! i = None
  end.
Proof.
  intros [Hl Hh]. destruct (hs !! i) as [x|] eqn:Ex.
  - destruct (lookup_lt_is_Some_2 bs i) as [b Eb]; [rewrite <- Hl; by eapply lookup_lt_Some|]. exists b.
    pose proof (Hh i x b Ex Eb) as Hk. split_and!; [done|done|apply Hk].
  - apply lookup_ge_None in Ex. apply lookup_ge_None. lia.
Qed.

(** One call: it answers as buffers of their own do, keeps the invariant, and leaves the
    blocks of others alone. *)
Definition refines (op : aop) (w : aworld M) (frame : gmap Z Z) (st : Z * Z) (hs : held) (bs : list buffer) : Prop :=
  ∃ g hs' w' bs', run_aop max_block_size hs op w = (Ret (g, hs'), w') ∧ spec_aop op bs g bs' ∧
    ainv w' frame (st :: hs') ∧ holds (source w') hs' bs' ∧ same_bytes frame (source w) (source w').

Section Step.
Context (w : aworld M) (frame : gmap Z Z) (st : Z * Z) (hs : held) (bs : list buffer).
Hypothesis Hinv : ainv w frame (st :: hs).
Hypothesis Hh : holds (source w) hs bs.

Lemma unchanged g op : run_aop max_block_size hs op w = (Ret (g, hs), w) → spec_aop op bs g bs → refines op w frame st hs bs.
Proof. intros E Hs. by exists g, hs, w, bs. Qed.

Lemma frame_kept s' : same_bytes (around w frame) (source w) s' → same_bytes frame (source w) s'.
Proof. by eapply frame_same. Qed.

Lemma refines_malloc n : 0 ≤ n ≤ MAX_REQUEST → refines (AMalloc n) w frame st hs bs.
Proof.
  intros Hn. destruct (Malloc_spec w frame (st :: hs) n Hinv Hn) as (r & w' & E & Hs & Hi).
  assert (holds (source w') hs bs) as Hh'.
  { eapply holds_same; [done|]. intros j y a Hy Ha. by apply (same_on w frame (st :: hs) w' (S j) y). }
  unfold refines. cbn [run_aop]. rewrite (cbind_ret _ _ _ _ _ E). destruct r as [p|].
  - eexists _, _, _, _. split; [done|]. split; [by left|]. split; [done|]. split; [|by apply frame_kept].
    apply holds_snoc; [done|]. apply keeps_fresh. lia.
  - eexists _, _, _, _. split; [done|]. split; [by right|]. split; [done|]. split; [done|by apply frame_kept].
Qed.

Lemma refines_realloc i n : 0 ≤ n ≤ MAX_REQUEST → refines (ARealloc i n) w frame st hs bs.
Proof.
  intros Hn. pose proof (holds_lookup _ _ _ i Hh) as Hi. destruct (hs !! i) as [[p k]|] eqn:Ei.
  2: { apply (unchanged GNone); cbn; [by rewrite Ei|by rewrite Hi]. }
  destruct Hi as (b & Eb & Hb & _).
  destruct (Realloc_spec w frame (st :: hs) (S i) p k n Hinv Ei Hn) as (r & w' & E & Hi' & Hsame & Hfr & Hmoved).
  unfold refines. cbn [run_aop spec_aop]. rewrite Ei, Eb, (cbind_ret _ _ _ _ _ E). destruct r as [q|].
  - eexists _, _, _, _. split; [done|]. split; [by left|]. split; [done|]. split; [|done].
    eapply holds_change; [done|by eapply lookup_lt_Some| |].
    + eapply keeps_resized; [done|lia|]. intros off Hoff. by apply Hmoved.
    + intros j y a Hj Hy Ha. apply (Hsame (S j) y a); [right; congruence|done|done].
  - eexists _, _, _, _. split; [done|]. split; [by right|]. split; [done|]. split; [|done].
    eapply holds_same; [done|]. intros j y a Hy Ha. apply (Hsame (S j) y a); [by left|done|done].
Qed.

Lemma refines_extend i n : 0 ≤ n ≤ MAX_REQUEST → refines (AExtend i n) w frame st hs bs.
Proof.
  intros Hn. pose proof (holds_lookup _ _ _ i Hh) as Hi. destruct (hs !! i) as [[p k]|] eqn:Ei.
  2: { apply (unchanged GNone); cbn; [by rewrite Ei|by rewrite Hi]. }
  destruct Hi as (b & Eb & Hb & Hlen). cbn [snd] in Hlen. destruct (Z.ltb_spec k n) as [Hlt|Hge].
  2: { apply (unchanged GNone); cbn; [rewrite Ei|rewrite Eb, Hlen]; by rewrite (proj2 (Z.ltb_ge k n)). }
  destruct (TryExtend_spec w frame (st :: hs) (S i) p k n Hinv Ei) as (r & w' & E & Hs & Hi'); [lia|].
  unfold refines. cbn [run_aop spec_aop]. rewrite Ei, Eb, Hlen, (proj2 (Z.ltb_lt k n)), (cbind_ret _ _ _ _ _ E) by done.
  assert (∀ j y a, hs !! j = Some y → y.1 ≤ a < y.1 + y.2 → load (source w') a = load (source w) a) as Hsame.
  { intros j y a Hy Ha. by apply (same_on w frame (st :: hs) w' (S j) y). }
  destruct r.
  - eexists _, _, _, _. split; [done|]. split; [by left|]. split; [done|]. split; [|by apply frame_kept].
    eapply holds_change; [done|by eapply lookup_lt_Some| |].
    + eapply keeps_resized; [done|lia|]. intros off Hoff. apply (Hsame i (p, k)); [done|cbn; lia].
    + eauto.
  - eexists _, _, _, _. split; [done|]. split; [by right|]. split; [done|]. split; [by eapply holds_same|by apply frame_kept].
Qed.

Lemma refines_shrink i n : refines (AShrink i n) w frame st hs bs.
Proof.
  pose proof (holds_lookup _ _ _ i Hh) as Hi. destruct (hs !! i) as [[p k]|] eqn:Ei.
  2: { apply (unchanged GNone); cbn; [by rewrite Ei|by rewrite Hi]. }
  destruct Hi as (b & Eb & Hb & Hlen). cbn [snd] in Hlen. destruct ((0 <=? n) && (n <=? k)) eqn:En.
  2: { apply (unchanged GNone); cbn; [by rewrite Ei, En|by rewrite Eb, Hlen, En]. }
  assert (0 ≤ n ≤ k) as Hn by lia.
  destruct (ShrinkLast_spec w frame (st :: hs) (S i) p k n Hinv Ei Hn) as (w' & E & Hs & Hi').
  unfold refines. cbn [run_aop spec_aop]. rewrite Ei, Eb, Hlen, En, (cbind_ret _ _ _ _ _ E).
  eexists _, _, _, _. split; [done|]. split; [done|]. split; [done|]. split; [|by apply frame_kept].
  assert (∀ j y a, hs !! j = Some y → y.1 ≤ a < y.1 + y.2 → load (source w') a = load (source w) a) as Hsame.
  { intros j y a Hy Ha. by apply (same_on w frame (st :: hs) w' (S j) y). }
  eapply holds_change; [done|by eapply lookup_lt_Some| |eauto].
  eapply keeps_resized; [done|lia|]. intros off Hoff. apply (Hsame i (p, k)); [done|cbn; lia].
Qed.

Lemma refines_write i off v : refines (AWrite i off v) w frame st hs bs.
Proof.
  pose proof (holds_lookup _ _ _ i Hh) as Hi. destruct (hs !! i) as [[p k]|] eqn:Ei.
  2: { apply (unchanged GNone); cbn; [by rewrite Ei|by rewrite Hi]. }
  destruct Hi as (b & Eb & Hb & Hlen). cbn [snd] in Hlen. destruct (inside k off) eqn:En.
  2: { apply (unchanged GNone); cbn; [by rewrite Ei, En|by rewrite Eb, Hlen, En]. }
  assert (0 ≤ off < k) as Hoff by (unfold inside in En; lia).
  assert (∀ a, p ≤ a < p + k → in_blocks (around w frame) a) as Hin.
  { intros a Ha. by apply (placed_in w frame (st :: hs) (S i) (p, k)). }
  destruct (store_ok _ _ (p + off) v (ai_owns _ _ _ Hinv)) as (s' & E & Ho & Hl); [apply Hin; lia|].
  unfold refines. cbn [run_aop spec_aop]. rewrite Ei, Eb, Hlen, En.
  rewrite (cbind_ret _ _ w tt (Build_aworld (arena w) s')) by (unfold on_source; by rewrite E).
  eexists _, _, _, _. split; [done|]. split; [done|]. split; [by apply (source_ainv w)|]. cbn [source].
  split; [|intros a Ha; rewrite Hl by (by apply (frame_in _ _ _ _ Hinv));
    pose proof (frame_apart _ _ _ (S i) (p, k) a Hinv Ei Ha); cbn [fst snd] in *; destruct (Z.eqb_spec a (p + off)); (done || lia)].
  rewrite <- (list_insert_id hs i (p, k) Ei) at 1. eapply holds_change; [done|by eapply lookup_lt_Some| |].
  - destruct Hb as [_ Hb]. split; [by rewrite length_insert|]. cbn [fst] in *. intros j u Hj.
    rewrite Hl by (apply Hin; apply lookup_lt_Some in Hj; rewrite length_insert in Hj; lia).
    destruct (Z.eqb_spec (p + Z.of_nat j) (p + off)) as [Heq|Hne].
    + assert (j = Z.to_nat off) as -> by lia. rewrite list_lookup_insert_eq in Hj by lia. congruence.
    + rewrite list_lookup_insert_ne in Hj by lia. by apply Hb.
  - intros j y a Hj Hy Ha. rewrite Hl by (by apply (placed_in w frame (st :: hs) (S j) y)).
    destruct (Z.eqb_spec a (p + off)) as [->|]; [|done]. exfalso.
    destruct (ai_placed _ _ _ Hinv (S j) y Hy) as [Hy2 _], (ai_placed _ _ _ Hinv (S i) _ Ei) as [Hk2 _].
    cbn [fst snd] in *. unfold MAX_REQUEST in *. destruct (align_spec y.2) as [? _]; [lia|]. destruct (align_spec k) as [? _]; [lia|].
    destruct (ai_apart _ _ _ Hinv (S j) (S i) y (p, k)) as [?|[?|[?|?]]]; [done|done|congruence|..]; cbn [fst snd] in *; lia.
Qed.

Lemma refines_read i off : refines (ARead i off) w frame st hs bs.
Proof.
  pose proof (holds_lookup _ _ _ i Hh) as Hi. destruct (hs !! i) as [[p k]|] eqn:Ei.
  2: { apply (unchanged GNone); cbn; [by rewrite Ei|by rewrite Hi]. }
  destruct Hi as (b & Eb & Hb & Hlen). cbn [snd] in Hlen. destruct (inside k off) eqn:En.
  2: { apply (unchanged GNone); cbn; [by rewrite Ei, En|by rewrite Eb, Hlen, En]. }
  assert (0 ≤ off < k) as Hoff by (unfold inside in En; lia).
  apply (unchanged (GByte (load (source w) (p + off)))); cbn [run_aop spec_aop]; [by rewrite Ei, En|].
  split; [done|]. rewrite Eb, Hlen, En. destruct Hb as [_ Hb].
  destruct (b !! Z.to_nat off) as [[v|]|] eqn:Ev; [|by eexists|].
  - f_equal. rewrite <- (Hb _ _ Ev). cbn [fst]. f_equal. lia.
  - apply lookup_ge_None in Ev. lia.
Qed.
End Step.

Lemma run_aop_refines w frame st hs bs op : ainv w frame (st :: hs) → holds (source w) hs bs → aop_ok op →
  refines op w frame st hs bs.
Proof.
  intros Hi Hh. destruct op; cbn [aop_ok]; intros Hop.
  - by apply refines_malloc.
  - by apply refines_realloc.
  - by apply refines_extend.
  - by apply refines_shrink.
  - by apply refines_write.
  - by apply refines_read.
Qed.

Lemma run_aops_refine ops : ∀ w frame st hs bs, ainv w frame (st :: hs) → holds (source w) hs bs → Forall aop_ok ops →
  ∃ gs hs' w' bs', run_aops max_block_size hs ops w = (Ret (gs, hs'), w') ∧ spec_aops ops bs gs bs' ∧
    ainv w' frame (st :: hs') ∧ holds (source w') hs' bs' ∧ same_bytes frame (source w) (source w').
Proof.
  induction ops as [|op ops IH]; intros w frame st hs bs Hi Hh Hops; cbn [run_aops].
  { exists [], hs, w, bs. split; [done|]. split; [constructor|by split_and!]. }
  inversion_clear Hops as [|?? Hop Hops'].
  destruct (run_aop_refines w frame st hs bs op Hi Hh Hop) as (g & hs1 & w1 & bs1 & E & Hs & Hi1 & Hh1 & Hf1).
  rewrite (cbind_ret _ _ _ _ _ E). destruct (IH w1 frame st hs1 bs1 Hi1 Hh1 Hops') as (gs & hs2 & w2 & bs2 & E2 & Hs2 & Hi2 & Hh2 & Hf2).
  rewrite (cbind_ret _ _ _ _ _ E2). exists (g :: gs), hs2, w2, bs2.
  split_and!; [done|by econstructor|done|done|by eapply same_bytes_trans].
Qed.

Lemma free_blocks_spec l frame : ∀ s, owns s (with_blocks l frame) → NoDup l.*1 → (∀ b n, (b, n) ∈ l → frame !! b = None) →
  ∃ s', free_blocks l s = (Ret tt, s') ∧ owns s' frame ∧ same_bytes frame s s'.
Proof.
  induction l as [|[b n] l IH]; intros s Ho Hd Hf; [by exists s|]. csimpl in Hd. apply NoDup_cons in Hd as [Hb Hd].
  destruct (free_ok s (with_blocks ((b, n) :: l) frame) b n Ho) as (r & s1 & E & Hs & Ho1); [apply lookup_insert_eq|].
  rewrite with_blocks_delete in Ho1, Hs by (done || (eapply Hf; by left)). cbn [free_blocks]. rewrite (cbind_ret _ _ _ _ _ E).
  assert (∀ b' n', (b', n') ∈ l → frame !! b' = None) as Hl by (intros ? ? ?; eapply Hf; by right).
  destruct (IH s1 Ho1 Hd Hl) as (s2 & E2 & Ho2 & Hs2). exists s2. split; [done|]. split; [done|].
  eapply same_bytes_trans; [|exact Hs2]. intros a (p & k & Hp & Ha). apply Hs. exists p, k. split; [|done].
  by apply with_blocks_frame.
Qed.

(** The arena as it is made: its state is the one thing in it. *)
Lemma Init_spec s frame first_size : owns s frame → 0 ≤ first_size ≤ MAX_REQUEST →
  ∃ a s', Arena_Init ndebug first_size s = (Ret a, s') ∧ same_bytes frame s s' ∧
    match a with
    | Some a => ∃ p, ainv (Build_aworld a s') frame [(p, sizeof_ArenaState ndebug)]
    | None => owns s' frame
    end.
Proof.
  intros Ho Hfirst. unfold MAX_REQUEST in Hfirst. destruct (align_spec first_size) as [Hf _]; [lia|].
  assert (first_block_overhead ndebug = 16 + sizeof_ArenaState ndebug ∧ span (sizeof_ArenaState ndebug) = sizeof_ArenaState ndebug ∧
    0 < sizeof_ArenaState ndebug < 100 ∧ sizeof_ArenaState ndebug mod 8 = 0) as (Eo & Es & Hst & Hm) by (by destruct ndebug).
  unfold Arena_Init. rewrite Eo. set (n := u64 _). assert (16 + sizeof_ArenaState ndebug ≤ n ≤ 2 ^ 49) as Hn by (unfold n; rewrite u64_small; lia).
  destruct (alloc_ok s frame n Ho) as (r & k & s' & E & Hsame & Hr); [lia|].
  assert (SizeReturningMalloc n s = (Ret (r, match r with Some _ => Z.max k n | None => 0 end), s')) as E'.
  { unfold SizeReturningMalloc. by rewrite (cbind_ret _ _ _ _ _ E). }
  rewrite (cbind_ret _ _ _ _ _ E'). destruct r as [p|]; [|by exists None, s']. destruct Hr as [Hp Ho'].
  destruct (owns_block _ _ p (Z.max k n) Ho') as (Hp0 & Hp8 & _ & Htop); [apply lookup_insert_eq|].
  eexists (Some _), s'. split; [done|]. split; [done|]. exists (p + 16). split.
  - done.
  - split; cbn [arena AddBlock blocks ptr end_ space_allocated].
    + by apply NoDup_singleton.
    + intros b m [= -> ->]%list_elem_of_singleton. done.
    + exists p, (Z.max k n), []. split_and!; [done|lia|lia|done|]. apply mod8_add; [done|]. by apply mod8_add.
    + simpl. rewrite Z.add_0_r. symmetry. apply u64_small. lia.
  - intros i x Hx. apply list_lookup_singleton_Some in Hx as [_ <-]. split; [unfold MAX_REQUEST; cbn [snd]; lia|]. right.
    cbn [fst snd arena AddBlock blocks ptr end_]. rewrite Es. split_and!; [by apply mod8_add| |lia].
    exists p, (Z.max k n). split; [by left|]. lia.
  - intros i j x y Hx Hy Hne. apply list_lookup_singleton_Some in Hx as [? _], Hy as [? _]. lia.
Qed.

(** C7: an arena is as good as buffers of their own.  Whatever its clients allocate,
    reallocate, extend, shrink, write and read, whatever the sizes of its blocks and
    wherever the allocator puts them or fails: no call faults, every answer is that of a
    list of separate buffers, where a reallocation keeps the bytes it has room for, and
    what is held at the end has the bytes last written; all of it is in blocks of the
    arena's own, beside those of others, whose bytes stay as they were; the space reported
    is the sum of the blocks; and freeing the arena gives each block back once, with its
    size, and nothing else. *)
Theorem arena_refines_buffers ops first_size s frame : owns s frame → 0 ≤ first_size ≤ MAX_REQUEST → Forall aop_ok ops →
  ∃ a s1, Arena_Init ndebug first_size s = (Ret a, s1) ∧
    match a with
    | None => owns s1 frame ∧ same_bytes frame s s1
    | Some a => ∃ gs hs w bs s2,
        run_aops max_block_size [] ops (Build_aworld a s1) = (Ret (gs, hs), w) ∧
        spec_aops ops [] gs bs ∧ holds (source w) hs bs ∧ owns (source w) (around w frame) ∧
        Arena_SpaceAllocated (arena w) = u64 (foldr (λ b s, b.2 + s) 0 (blocks (arena w))) ∧
        Arena_Free (arena w) (source w) = (Ret tt, s2) ∧ owns s2 frame ∧
        same_bytes frame s s2
    end.
Proof.
  intros Ho Hf Hops. destruct (Init_spec s frame first_size Ho Hf) as (a & s1 & E & Hs1 & Ha). exists a, s1. split; [done|].
  destruct a as [a|]; [|done]. destruct Ha as [p Hi].
  destruct (run_aops_refine ops (Build_aworld a s1) frame _ [] [] Hi)
    as (gs & hs & w & bs & E2 & Hs & [Ho2 [Hd Hfr _ Hsp] _ _] & Hh & Hs2); [by split|done|].
  destruct (free_blocks_spec (blocks (arena w)) frame (source w) Ho2 Hd Hfr) as (s2 & E3 & Ho3 & Hs3).
  pose proof (same_bytes_trans _ _ _ _ Hs1 (same_bytes_trans _ _ _ _ Hs2 Hs3)).
  exists gs, hs, w, bs, s2. by split_and!.
Qed.
End Laws.

(** ** The linear block allocator as a source

    Addresses are offsets into its region.  What it stores in [*actual_size] is the size
    it was asked for. *)

Section OverBlocks.
Import BlockAlloc.

Definition block_call (p : option Z) (oldsize size : Z) : cmd BlockAlloc (option Z * Z) := λ b,
  match BlockAlloc_Func b p oldsize size with
  | Returned r b => (Ret (r, match r with Some _ => size | None => 0 end), b)
  | Croaked msg b => (Croak msg, b)
  | UB why => (Fault why, b)
  end.
Definition block_load (b : BlockAlloc) (a : Z) : Z := default 0 (region b !! Z.to_nat a).
Definition block_store (a v : Z) : cmd BlockAlloc unit := λ b,
  match mem_write (region b) a [v] with
  | Ret r => (Ret tt, with_region b r)
  | Croak msg => (Croak msg, b)
  | Fault why => (Fault why, b)
  end.

#[export] Instance block_source : upb_alloc BlockAlloc :=
  {| alloc_func := block_call; load := block_load; store := block_store |}.

(** Blocks that were freed are still in its region. *)
Definition block_owns (b : BlockAlloc) (bl : gmap Z Z) : Prop :=
  ∃ l, alloc_inv b l ∧ ∀ p n, bl !! p = Some n → (p, n) ∈ l.

Lemma block_in b l p n : alloc_inv b l → (p, n) ∈ l → block_ok b (p, n) ∧ alloc_wf b.
Proof. intros (Hwf & Hl & _) Hin. rewrite Forall_forall in Hl. by split; [apply Hl|]. Qed.

Lemma blocks_separated b l x y : alloc_inv b l → x ∈ l → y ∈ l → x ≠ y → separated x y.
Proof.
  intros (_ & _ & Hsep) [i Hx]%list_elem_of_lookup [j Hy]%list_elem_of_lookup Hne.
  eapply Hsep; [done|done|]. intros ->. congruence.
Qed.

#[export, program] Instance block_laws : AllocLaws BlockAlloc := {| owns := block_owns |}.
Next Obligation.
  intros b bl p n (l & Hi & Hin) Hp. destruct (block_in b l p n Hi (Hin _ _ Hp)) as [(H1 & H2 & H3 & H4 & _) (_ & _ & ? & ? & _)].
  cbn [fst snd] in *. split_and!; [lia| |lia|lia].
  apply Z.mod_divide in H2; [|lia]. apply Z.mod_divide; [lia|]. etrans; [|exact H2]. by exists 2.
Qed.
Next Obligation.
  intros b bl p n q k (l & Hi & Hin) Hp Hq Hne.
  destruct (blocks_separated b l (p, n) (q, k) Hi) as [?|?]; [by apply Hin|by apply Hin|congruence|..]; cbn [fst snd] in *; lia.
Qed.
Next Obligation.
  intros b bl n (l & Hi & Hin) Hn. pose proof Hi as ((Hpo & _) & _). cbn [alloc_func block_source]. unfold block_call, BlockAlloc_Func.
  rewrite Hpo, (proj2 (Z.eqb_neq n 0)) by lia.
  destruct (alloc_step_inv b l n _ Hi ltac:(lia) eq_refl) as [->|(p & b' & -> & Hi' & Hs & Hp)].
  { eexists None, _, _. split; [done|]. split; [done|]. by exists l. }
  assert (∀ q k, bl !! q = Some k → q + k + 16 ≤ offset b) as Hbelow.
  { intros q k Hq. destruct (block_in b l q k Hi (Hin _ _ Hq)) as [(_ & _ & _ & ? & _) _]. done. }
  destruct (block_in b' ((p, n) :: l) p n Hi') as [(? & _ & ? & _) _]; [by left|]. cbn [fst snd] in *.
  eexists (Some p), n, b'. split; [done|]. split.
  - intros a (q & k & Hq & Ha). cbn [load block_source]. unfold block_load. rewrite Hs; [done|].
    destruct (block_in b l q k Hi (Hin _ _ Hq)) as [(? & _) _]. cbn [fst snd] in *. specialize (Hbelow q k Hq). lia.
  - rewrite Z.max_id. split.
    + destruct (bl !! p) as [k|] eqn:E; [|done]. specialize (Hbelow p k E).
      destruct (block_in b l p k Hi (Hin _ _ E)) as [(_ & _ & ? & _) _]. cbn [fst snd] in *. lia.
    + exists ((p, n) :: l). split; [done|]. intros q k [[<- <-]|[_ Hq]]%lookup_insert_Some; [by left|]. right. by apply Hin.
Qed.
Next Obligation.
  intros b bl p n (l & Hi & Hin) Hp. pose proof Hi as ((Hpo & _) & _). cbn [alloc_func block_source]. unfold block_call, BlockAlloc_Func.
  destruct (block_in b l p n Hi (Hin _ _ Hp)) as [(_ & _ & _ & _ & Hc) _].
  rewrite Hpo, Z.eqb_refl, VerifyCanaries_ok by done. do 2 eexists. split; [done|]. split; [done|]. exists l. split; [done|].
  intros q k [_ Hq]%lookup_delete_Some. by apply Hin.
Qed.
Next Obligation.
  intros b bl a v (l & Hi & Hin) (p & n & Hp & Ha).
  destruct (block_in b l p n Hi (Hin _ _ Hp)) as [(? & _ & ? & ? & _) (_ & ? & ? & _)]. cbn [fst snd] in *.
  destruct (mem_write (region b) a [v]) as [r| |] eqn:E; [|by rewrite mem_write_ok in E by (simpl; lia)..].
  cbn [store block_source]. unfold block_store. rewrite E. eexists. split; [done|].
  pose proof (mem_write_inv _ _ _ _ E) as (_ & _ & _ & Hat & Hout). cbn [length] in *. split.
  - exists l. split; [|done]. destruct (proj1 (list_elem_of_lookup _ _) (Hin _ _ Hp)) as [i Hl].
    eapply (alloc_inv_store b l i p n (a - p) [v]); [done|done|lia|simpl; lia|]. by replace (p + (a - p)) with a by lia.
  - intros c (q & k & Hq & Hc). cbn [load block_source]. unfold block_load. cbn [region with_region].
    destruct (block_in b l q k Hi (Hin _ _ Hq)) as [(? & _) _]. cbn [fst] in *. destruct (Z.eqb_spec c a) as [->|Hne].
    + rewrite Hat by lia. by rewrite Nat.sub_diag.
    + by rewrite Hout by lia.
Qed.
End OverBlocks.

(** ** The counting allocator as a source

    [stats_alloc_func] over Perl's heap: [place] is where [realloc] puts a block of a size,
    if anywhere, and [draw] what the generator of failures says. *)

Section Counted.
Import Arena.Stats.

Record counted := { stats : StatsAlloc; heap : gmap Z Z; memory : Z → Z }.

Context (place : gmap Z Z → Z → option Z) (draw : gmap Z Z → bool).

(** What [realloc] keeps of a block that it moves. *)
Definition moved (c : counted) (p : option Z) (size : Z) (r : option Z) : Z → Z := λ a,
  match p, r with
  | Some p, Some q =>
      let k := Z.min (default 0 (heap c !! p)) size in
      if (q <=? a) && (a <? q + k) then memory c (p + (a - q)) else memory c a
  | _, _ => memory c a
  end.
Definition counted_call (p : option Z) (oldsize size : Z) : cmd counted (option Z * Z) := λ c,
  match stats_alloc_func (stats c) (heap c) p oldsize size (draw (heap c)) (place (heap c) size) with
  | Ret (r, s, h) =>
      (Ret (r, match r with Some _ => size | None => 0 end), {| stats := s; heap := h; memory := moved c p size r |})
  | Croak msg => (Croak msg, c)
  | Fault why => (Fault why, c)
  end.
Definition in_heap (h : gmap Z Z) (a : Z) : bool := existsb (λ b : Z * Z, (b.1 <=? a) && (a <? b.1 + b.2)) (map_to_list h).
Definition counted_store (a v : Z) : cmd counted unit := λ c,
  if in_heap (heap c) a
  then (Ret tt, {| stats := stats c; heap := heap c; memory := λ b, if b =? a then v else memory c b |})
  else (Fault "store outside the heap", c).

Definition counted_source : upb_alloc counted :=
  {| alloc_func := counted_call; load := memory; store := counted_store |}.

(** Blocks of the heap are aligned and do not overlap. *)
Definition heap_ok (h : gmap Z Z) : Prop :=
  (∀ p n, h !! p = Some n → 0 < p ∧ p mod 8 = 0 ∧ 0 < n ∧ p + n ≤ 2 ^ 63) ∧
  ∀ p n q k, h !! p = Some n → h !! q = Some k → p ≠ q → p + n ≤ q ∨ q + k ≤ p.
Hypothesis place_ok : ∀ h n a, heap_ok h → 0 < n ≤ 2 ^ 60 → place h n = Some a → h !! a = None ∧ heap_ok (<[a := n]> h).

(** Nothing else is on the heap: what the others hold is counted among the blocks. *)
Definition counted_owns (c : counted) (bl : gmap Z Z) : Prop := heap_ok (heap c) ∧ bl = heap c.

Lemma in_heap_blocks h a : in_blocks h a → in_heap h a = true.
Proof.
  intros (p & n & Hp & Ha). apply existsb_exists. exists (p, n). split; [|simpl; lia].
  by apply list_elem_of_In, elem_of_map_to_list.
Qed.

#[program] Definition counted_laws : @AllocLaws counted counted_source := {| owns := counted_owns |}.
Next Obligation. intros c bl p n [[Hh _] ->] Hp. by eapply Hh. Qed.
Next Obligation. intros c bl p n q k [[_ Hh] ->] Hp Hq Hne. by eapply Hh. Qed.
Next Obligation.
  intros c bl n [Hh ->] Hn. cbn [alloc_func counted_source]. unfold counted_call, stats_alloc_func.
  rewrite (proj2 (Z.eqb_neq n 0)) by lia.
  assert (∀ s, same_bytes (H := counted_source) (heap c) c {| stats := s; heap := heap c; memory := moved c None n None |}) as Hkeep by done.
  destruct (poisoned (stats c) && (0 <? n)); [by eexists None, _, _|].
  destruct (fail_armed (stats c) && draw (heap c)); [by eexists None, _, _|]. rewrite bind_Ret.
  destruct (place (heap c) n) as [a|] eqn:Ep; [|by eexists None, _, _].
  destruct (place_ok _ _ _ Hh Hn Ep) as [Ha Hh']. eexists (Some a), n, _. split; [done|]. split; [done|].
  rewrite Z.max_id. by split.
Qed.
Next Obligation.
  intros c bl p n [[Hh1 Hh2] ->] Hp. cbn [alloc_func counted_source]. unfold counted_call, stats_alloc_func.
  rewrite Z.ltb_irrefl, andb_false_r, Z.eqb_refl, bool_decide_eq_true_2 by (by exists n).
  do 2 eexists. split; [done|]. split; [done|]. split; [|done]. split; cbn [heap].
  - intros q k [_ Hq]%lookup_delete_Some. eauto.
  - intros q k q' k' [_ Hq]%lookup_delete_Some [_ Hq']%lookup_delete_Some. eauto.
Qed.
Next Obligation.
  intros c bl a v [Hh ->] Hin. cbn [store counted_source]. unfold counted_store.
  rewrite in_heap_blocks by done. by eexists.
Qed.
End Counted.

(** *** Instances *)

(** The allocator is asked for blocks only: an arena whose allocator was poisoned goes on
    handing out what is left of its current block, which a large request leaves as it was. *)
Definition poison (c : counted) : counted :=
  {| stats := {| Arena.Stats.total_reserved := Arena.Stats.total_reserved (stats c);
                 Arena.Stats.total_blocks := Arena.Stats.total_blocks (stats c);
                 Arena.Stats.historical_max_size := Arena.Stats.historical_max_size (stats c);
                 Arena.Stats.poisoned := true; Arena.Stats.fail_armed := Arena.Stats.fail_armed (stats c) |};
     heap := heap c; memory := memory c |}.
(** A [malloc] that puts every block behind all others. *)
Definition heap_end (h : gmap Z Z) : Z := foldr (λ (b : Z * Z) a, Z.max a (b.1 + b.2)) 4096 (map_to_list h).
Definition first_free (h : gmap Z Z) (n : Z) : option Z :=
  let a := 8 * ((heap_end h + 7) / 8) in if a + n <=? 2 ^ 63 then Some a else None.

Lemma heap_end_spec h p n : h !! p = Some n → 4096 ≤ heap_end h ∧ p + n ≤ heap_end h.
Proof.
  intros Hp%elem_of_map_to_list. unfold heap_end. induction (map_to_list h) as [|x l IH]; [by apply elem_of_nil in Hp|].
  apply elem_of_cons in Hp as [<-|Hp]; cbn [foldr fst snd]; [|specialize (IH Hp); lia].
  assert (4096 ≤ foldr (λ (b : Z * Z) a, Z.max a (b.1 + b.2)) 4096 l) by (clear; induction l; cbn [foldr]; lia). lia.
Qed.

(** So the law that the counting allocator asks of the heap can be kept. *)
Lemma first_free_ok h n a : heap_ok h → 0 < n ≤ 2 ^ 60 → first_free h n = Some a → h !! a = None ∧ heap_ok (<[a := n]> h).
Proof.
  intros [H1 H2] Hn. unfold first_free. destruct (Z.leb_spec (8 * ((heap_end h + 7) / 8) + n) (2 ^ 63)); [|done].
  intros [= <-]. set (a := 8 * ((heap_end h + 7) / 8)) in *.
  assert (heap_end h ≤ a) by (subst a; Z.to_euclidean_division_equations; lia).
  assert (4096 ≤ heap_end h) by (unfold heap_end; clear; induction (map_to_list h); cbn [foldr]; lia).
  assert (∀ p k, h !! p = Some k → 0 < k ∧ p + k ≤ a) as Hb.
  { intros p k Hp. specialize (H1 p k Hp). pose proof (heap_end_spec h p k Hp). lia. }
  split; [|split].
  - destruct (h !! a) as [k|] eqn:E; [|done]. specialize (Hb a k E). lia.
  - intros p k [[<- <-]|[_ Hp]]%lookup_insert_Some; [|by apply H1]. split_and!; [lia| |lia|done].
    subst a. rewrite Z.mul_comm. apply Z.mod_mul. lia.
  - intros p k q k' [[<- <-]|[_ Hp]]%lookup_insert_Some [[<- <-]|[_ Hq]]%lookup_insert_Some Hne; [done| | |by eapply H2].
    + specialize (Hb q k' Hq). lia.
    + specialize (Hb p k Hp). lia.
Qed.

Example poisoned_allocator_not_asked :
  let src := counted_source first_free (λ _, false) in
  let asks : cmd (aworld counted) _ :=
    p ← Arena_Malloc (H := src) UPB_DEFAULT_MAX_BLOCK_SIZE (2 ^ 20);
    cmodify (λ w, Build_aworld (arena w) (poison (source w)));;
    q ← Arena_Malloc (H := src) UPB_DEFAULT_MAX_BLOCK_SIZE 100;
    r ← Arena_Malloc (H := src) UPB_DEFAULT_MAX_BLOCK_SIZE 300;
    mret (p, q, r) in
  match Arena_Init (H := src) true 0 {| stats := Arena.Stats.init; heap := ∅; memory := λ _, 0 |} with
  | (Ret (Some a), c) => match (asks (Build_aworld a c)).1 with Ret (Some _, Some _, None) => True | _ => False end
  | _ => False
  end.
Proof. vm_compute. exact I. Qed.

(** The size of a request is rounded up modulo 2^64: one of the largest sizes gives a
    pointer with no room behind it. *)
Example huge_request_wraps :
  let b := BlockAlloc.new_block_alloc BlockAlloc.PERL_UPB_BLOCK_MMAP 2048 in
  match Arena_Init true 0 b with
  | (Ret (Some a), b1) =>
      match Arena_Malloc UPB_DEFAULT_MAX_BLOCK_SIZE (2 ^ 64 - 1) (Build_aworld a b1) with
      | (Ret (Some p), w) => p = ptr (arena w) ∧ arena w = a
      | _ => False
      end
  | _ => False
  end.
Proof. vm_compute. done. Qed.

(** Writes, moves and extensions in a region that is full after some blocks. *)
Definition some_aops : list aop :=
  [AMalloc 5; AMalloc 0; AWrite 0 2 77; AExtend 1 40; AWrite 1 39 9; ARealloc 0 600; ARead 0 2; ARead 1 39; AMalloc 3000;
   AShrink 0 1; ARead 0 2; AMalloc 100].

Lemma arena_refines_buffers_witness :
  let b := BlockAlloc.new_block_alloc BlockAlloc.PERL_UPB_BLOCK_MMAP 2048 in
  ∃ a b1 gs hs w b2, Arena_Init true 0 b = (Ret (Some a), b1) ∧
    run_aops UPB_DEFAULT_MAX_BLOCK_SIZE [] some_aops (Build_aworld a b1) = (Ret (gs, hs), w) ∧
    gs = [GPtr; GPtr; GNone; GBool true; GNone; GPtr; GByte 77; GByte 9; GNull; GNone; GNone; GPtr] ∧
    length (blocks (arena w)) = 2%nat ∧ Arena_Free (arena w) (source w) = (Ret tt, b2) ∧ owns b2 ∅.
Proof.
  assert (owns (BlockAlloc.new_block_alloc BlockAlloc.PERL_UPB_BLOCK_MMAP 2048) ∅) as Ho.
  { exists []. split; [apply BlockAlloc.new_block_alloc_inv; by vm_compute|done]. }
  destruct (arena_refines_buffers UPB_DEFAULT_MAX_BLOCK_SIZE true ltac:(by vm_compute) some_aops 0 _ ∅ Ho)
    as (a & b1 & E & Ha); [by vm_compute|repeat (apply Forall_cons; split); [by vm_compute..|by apply Forall_nil]|].
  destruct a as [a|]; [|exfalso; vm_compute in E; discriminate].
  destruct Ha as (gs & hs & w & bs & b2 & E2 & _ & _ & _ & _ & E3 & Ho2 & _).
  exists a, b1, gs, hs, w, b2. split; [exact E|]. split; [exact E2|]. vm_compute in E. injection E as <- <-.
  vm_compute in E2. injection E2 as <- _ <-. split; [done|]. split; [done|]. split; [exact E3|exact Ho2].
Defined.
