(* ===== verification/ObjCache.v ===== *)
(** * The object cache (xs/protobuf/obj_cache.c)

    One Perl wrapper per C pointer: a hash from pointers to weak references, a
    queue of keys that bounds it, a ring of audit events, and lock statistics. *)

From S2P Require Import Prelude.

(** ** The audit ring *)

Inductive event := EvAdd | EvHit | EvMiss | EvDelete | EvEvict | EvMalloc | EvFree | EvRealloc.

#[export] Instance event_eq_dec : EqDecision event.
Proof. solve_decision. Defined.

Definition event_code (e : event) : Z :=
  match e with
  | EvAdd => 1 | EvHit => 2 | EvMiss => 3 | EvDelete => 4 | EvEvict => 5
  | EvMalloc => 10 | EvFree => 11 | EvRealloc => 12
  end.

(** [audit_entry_t]: type, pointer, timestamp. *)
Abbreviation audit_entry := (event * Z * Z)%type.

Definition AUDIT_LOG_SIZE : nat := 2048.

Record audit_log := {
  entries : list audit_entry;
  head : nat;
  count : nat;
  log_init : bool;
}.

(** The static array is zeroed: type 0 is no event, any filler will do. *)
Definition empty_log (initialised : bool) : audit_log :=
  {| entries := repeat (EvAdd, 0, 0) AUDIT_LOG_SIZE; head := 0; count := 0;
     log_init := initialised |}.

(** [PerlUpb_ObjCache_LogEvent(type, ptr)] at time [now]. *)
Definition LogEvent (l : audit_log) (ty : event) (ptr now : Z) : audit_log :=
  if negb (log_init l) then l
  else
    let idx := ((head l + count l) mod AUDIT_LOG_SIZE)%nat in
    let '(h, c) :=
      if (count l =? AUDIT_LOG_SIZE)%nat then (((head l + 1) mod AUDIT_LOG_SIZE)%nat, count l)
      else (head l, S (count l)) in
    {| entries := <[idx := (ty, ptr, now)]> (entries l); head := h; count := c;
       log_init := log_init l |}.

(** [PerlUpb_ObjCache_GetAuditLog]: [for (i = 0; i < count; i++)]. *)
Fixpoint read_log (l : audit_log) (i n : nat) : list audit_entry :=
  match n with
  | O => []
  | S n =>
      match entries l !! ((head l + i) mod AUDIT_LOG_SIZE)%nat with
      | Some e => e :: read_log l (S i) n
      | None => []
      end
  end.

Definition GetAuditLog (l : audit_log) : list audit_entry := read_log l 0 (count l).

(** ** Cache state *)

Definition NUM_CACHE_STRIPES : Z := 16.

(** [get_stripe(ptr)]: [(val >> 4) % NUM_CACHE_STRIPES]. *)
Definition get_stripe (ptr : Z) : Z := Z.shiftr ptr 4 mod NUM_CACHE_STRIPES.

(** [contention_stat_t] without threads: the acquisitions of each lock. *)
Record contention := { stripes : gmap Z Z; lru_locks : Z }.

(** [cache] maps a pointer to a weak reference: [Some o] to the wrapper [o], [None]
    once Perl has cleared it because the wrapper died.  [lru] is the key queue. *)
Record state := {
  cache : gmap Z (option Z);
  lru : list Z;
  max_cache_capacity : Z;
  log : audit_log;
  stats : contention;
  clock : Z;
}.

Definition logged (st : state) (ty : event) (ptr : Z) : state :=
  {| cache := cache st; lru := lru st; max_cache_capacity := max_cache_capacity st;
     log := LogEvent (log st) ty ptr (clock st); stats := stats st; clock := clock st |}.

(** [LOCK_AND_PROFILE] on a stripe or on the queue's mutex. *)
Definition lock_stripe (st : state) (s : Z) : state :=
  {| cache := cache st; lru := lru st; max_cache_capacity := max_cache_capacity st;
     log := log st;
     stats := {| stripes := <[s := u64 (default 0 (stripes (stats st) !! s) + 1)]>
                              (stripes (stats st));
                 lru_locks := lru_locks (stats st) |};
     clock := clock st |}.

Definition lock_lru (st : state) : state :=
  {| cache := cache st; lru := lru st; max_cache_capacity := max_cache_capacity st;
     log := log st;
     stats := {| stripes := stripes (stats st); lru_locks := u64 (lru_locks (stats st) + 1) |};
     clock := clock st |}.

Definition set_cache (st : state) (c : gmap Z (option Z)) : state :=
  {| cache := c; lru := lru st; max_cache_capacity := max_cache_capacity st;
     log := log st; stats := stats st; clock := clock st |}.

Definition set_lru (st : state) (q : list Z) : state :=
  {| cache := cache st; lru := q; max_cache_capacity := max_cache_capacity st;
     log := log st; stats := stats st; clock := clock st |}.

(** [while (av_len(lru) + 1 > max_cache_capacity)]: [q] is the queue. *)
Fixpoint evict_loop (st : state) (q : list Z) : state :=
  match q with
  | [] => set_lru st []
  | oldest :: q' =>
      if max_cache_capacity st <? Z.of_nat (length q) then
        let st := lock_stripe st (get_stripe oldest) in
        let st := set_cache st (delete oldest (cache st)) in
        evict_loop (logged st EvEvict oldest) q'
      else set_lru st q
  end.

(** [PerlUpb_ObjCache_Add(ptr, obj)]: [obj] is the wrapper a reference points to,
    [None] when it is no reference. *)
Definition ObjCache_Add (st : state) (ptr : Z) (obj : option Z) : state :=
  match obj with
  | None => st
  | Some target =>
      if ptr =? 0 then st
      else
        let st := lock_stripe st (get_stripe ptr) in
        let st := set_cache st (<[ptr := Some target]> (cache st)) in
        let st := logged st EvAdd ptr in
        let st := lock_lru st in
        evict_loop st (lru st ++ [ptr])
  end.

(** [PerlUpb_ObjCache_Get(ptr)]: the wrapper a new strong reference points to. *)
Definition ObjCache_Get (st : state) (ptr : Z) : option Z * state :=
  if ptr =? 0 then (None, st)
  else
    let st := lock_stripe st (get_stripe ptr) in
    match cache st !! ptr with
    | Some (Some target) => (Some target, logged st EvHit ptr)
    | Some None => (None, logged (set_cache st (delete ptr (cache st))) EvMiss ptr)
    | None => (None, logged st EvMiss ptr)
    end.

(** [PerlUpb_ObjCache_Delete(ptr)]. *)
Definition ObjCache_Delete (st : state) (ptr : Z) : state :=
  if ptr =? 0 then st
  else
    let st := lock_stripe st (get_stripe ptr) in
    match cache st !! ptr with
    | Some _ => logged (set_cache st (delete ptr (cache st))) EvDelete ptr
    | None => st
    end.

(** [PerlUpb_ObjCache_SetCapacity] and [GetCapacity]. *)
Definition ObjCache_SetCapacity (st : state) (capacity : Z) : state :=
  let st := lock_lru st in
  {| cache := cache st; lru := lru st; max_cache_capacity := capacity;
     log := log st; stats := stats st; clock := clock st |}.

Definition ObjCache_GetCapacity (st : state) : Z := max_cache_capacity st.

(** A key of the hash: the bytes of the pointer, least significant first; and back. *)
Definition CACHE_KEY_LEN : Z := 8.
Fixpoint pointer_bytes (n : nat) (ptr : Z) : bytes :=
  match n with O => [] | S n => ptr mod 256 :: pointer_bytes n (ptr / 256) end.
Definition read_pointer (key : bytes) : Z := foldr (λ b acc, b + 256 * acc) 0 key.

(** [PerlUpb_ObjCache_DeleteEntry]; [None] is NULL. *)
Definition ObjCache_DeleteEntry (st : state) (key : option bytes) (len : Z) : state :=
  match key with
  | None => st
  | Some key =>
      if negb (len =? CACHE_KEY_LEN) then st
      else ObjCache_Delete st (read_pointer (take (Z.to_nat CACHE_KEY_LEN) key))
  end.

(** [Protobuf::Internal::delete_cache_entry], which measures the key with [strlen]. *)
Fixpoint strlen (s : bytes) : Z :=
  match s with
  | c :: s => if c =? 0 then 0 else 1 + strlen s
  | [] => 0
  end.
Definition XS_delete_cache_entry (st : state) (key_str : bytes) : state :=
  ObjCache_DeleteEntry st (Some key_str) (strlen key_str).

(** [PerlUpb_ObjCache_GetContentionStats]: acquisitions and contentions, of which there
    are none without threads. *)
Definition GetContentionStats (st : state) : list (Z * Z) * (Z * Z) :=
  (map (λ s, (default 0 (stripes (stats st) !! Z.of_nat s), 0)) (seq 0 16), (lru_locks (stats st), 0)).

(** [PerlUpb_ObjCache_Clear]: every lock is taken, the containers are emptied
    unless Perl is being destroyed, the log is reset. *)
Definition lock_all (st : state) : state :=
  lock_lru (fold_left (fun st s => lock_stripe st (Z.of_nat s)) (seq 0 16) st).

Definition ObjCache_Clear (dirty : bool) (st : state) : state :=
  let st := lock_all st in
  {| cache := if dirty then cache st else ∅;
     lru := if dirty then lru st else [];
     max_cache_capacity := max_cache_capacity st;
     log := {| entries := entries (log st); head := 0; count := 0;
               log_init := log_init (log st) |};
     stats := stats st; clock := clock st |}.

(** Perl's own steps: a wrapper dies, which clears every weak reference to it, and
    time passes. *)
Definition perl_death (st : state) (o : Z) : state :=
  set_cache st ((λ w : option Z, if decide (w = Some o) then None else w) <$> cache st).
Definition perl_tick (st : state) (t : Z) : state :=
  {| cache := cache st; lru := lru st; max_cache_capacity := max_cache_capacity st;
     log := log st; stats := stats st; clock := t |}.

(** After [PerlUpb_ObjCache_Init] with the registry's default capacity. *)
Definition ObjCache_Init (capacity : Z) : state :=
  {| cache := ∅; lru := []; max_cache_capacity := capacity;
     log := empty_log true; stats := {| stripes := ∅; lru_locks := 0 |}; clock := 0 |}.

(** A history of the cache, as the library and the interpreter produce it. *)
Inductive op :=
  | OpAdd (ptr : Z) (obj : option Z)
  | OpGet (ptr : Z)
  | OpDelete (ptr : Z)
  | OpSetCapacity (capacity : Z)
  | OpClear
  | OpDeath (o : Z)
  | OpTick (t : Z).

Definition run_op (st : state) (o : op) : state :=
  match o with
  | OpAdd ptr obj => ObjCache_Add st ptr obj
  | OpGet ptr => (ObjCache_Get st ptr).2
  | OpDelete ptr => ObjCache_Delete st ptr
  | OpSetCapacity c => ObjCache_SetCapacity st c
  | OpClear => ObjCache_Clear false st
  | OpDeath o => perl_death st o
  | OpTick t => perl_tick st t
  end.

Definition run_ops (st : state) (ops : list op) : state := fold_left run_op ops st.

(** ** The audit ring is a sliding window *)

Definition keep_last {A} (n : nat) (l : list A) : list A := drop (length l - n) l.

Section Ring.
Local Opaque AUDIT_LOG_SIZE.
Notation N := AUDIT_LOG_SIZE.

Lemma audit_size_pos : (0 < N)%nat.
Proof. Local Transparent AUDIT_LOG_SIZE. unfold N. lia. Qed.
Local Opaque AUDIT_LOG_SIZE.

Record ring (l : audit_log) (xs : list audit_entry) : Prop := {
  ring_init : log_init l = true;
  ring_size : length (entries l) = N;
  ring_head : (head l < N)%nat;
  ring_count : count l = length xs;
  ring_le : (count l ≤ N)%nat;
  ring_at : ∀ i, (i < count l)%nat → entries l !! ((head l + i) mod N)%nat = xs !! i;
}.

Lemma mod_inj_lt a i j : (i < j)%nat → (j < i + N)%nat → ((a + i) mod N ≠ (a + j) mod N)%nat.
Proof.
  intros Hij Hj Heq. pose proof audit_size_pos.
  pose proof (Nat.div_mod_eq (a + i) N). pose proof (Nat.div_mod_eq (a + j) N).
  assert ((a + i) / N = (a + j) / N ∨ (a + i) / N < (a + j) / N)%nat as [Hd|Hd]
    by (assert ((a + i) / N ≤ (a + j) / N)%nat by (apply Nat.Div0.div_le_mono; lia); lia).
  - rewrite Hd in *. lia.
  - nia.
Qed.

Lemma ring_empty : ring (empty_log true) [].
Proof.
  pose proof audit_size_pos. split; simpl; first [done | apply repeat_length | lia].
Qed.

Lemma ring_LogEvent l xs ty ptr now :
  ring l xs → ring (LogEvent l ty ptr now) (keep_last N (xs ++ [(ty, ptr, now)])).
Proof.
  intros [Hi Hs Hh Hc Hle Hat]. pose proof audit_size_pos as HN.
  unfold LogEvent, keep_last. rewrite Hi. simpl. rewrite length_app. simpl.
  destruct (Nat.eqb_spec (count l) N) as [E|E].
  - assert ((head l + count l) mod N = head l)%nat as Eidx.
    { rewrite E, <- (Nat.mul_1_l N) at 1. rewrite Nat.Div0.mod_add. by apply Nat.mod_small. }
    rewrite Eidx. split; simpl; try done.
    + by rewrite length_insert.
    + apply Nat.mod_upper_bound. lia.
    + rewrite length_drop, length_app. simpl. lia.
    + intros i Hlt. rewrite Nat.Div0.add_mod_idemp_l.
      replace (length xs + 1 - N)%nat with 1%nat by lia. rewrite lookup_drop.
      destruct (decide (i = N - 1)%nat) as [->|Hne].
      * replace (head l + 1 + (N - 1))%nat with (head l + 1 * N)%nat by lia.
        rewrite Nat.Div0.mod_add, Nat.mod_small by lia.
        rewrite list_lookup_insert_eq by lia.
        rewrite lookup_app_r by lia. by replace (1 + (N - 1) - length xs)%nat with 0%nat by lia.
      * replace (head l + 1 + i)%nat with (head l + (1 + i))%nat by lia.
        assert (head l ≠ (head l + (1 + i)) mod N)%nat.
        { rewrite <- (Nat.mod_small (head l) N) at 1 by lia.
          rewrite <- (Nat.add_0_r (head l)) at 1. apply mod_inj_lt; lia. }
        rewrite list_lookup_insert_ne by done.
        rewrite lookup_app_l by lia. apply Hat. lia.
  - replace (length xs + 1 - N)%nat with 0%nat by lia. rewrite drop_0.
    split; simpl; try done.
    + by rewrite length_insert.
    + rewrite length_app. simpl. lia.
    + lia.
    + intros i Hlt. destruct (decide (i = count l)) as [->|Hne].
      * rewrite list_lookup_insert_eq
          by (rewrite Hs; apply Nat.mod_upper_bound; lia).
        rewrite lookup_app_r by lia. by rewrite Hc, Nat.sub_diag.
      * rewrite list_lookup_insert_ne
          by (apply not_eq_sym, mod_inj_lt; lia).
        rewrite lookup_app_l by lia. apply Hat. lia.
Qed.

Lemma keep_last_app {A} n (l k : list A) : keep_last n (keep_last n l ++ k) = keep_last n (l ++ k).
Proof.
  unfold keep_last. rewrite !length_app, length_drop.
  destruct (decide (length l ≤ n)%nat).
  - replace (length l - n)%nat with 0%nat by lia. rewrite drop_0. f_equal. lia.
  - assert (length (drop (length l - n) l) = n) as E by (rewrite length_drop; lia).
    replace (length l + length k - n)%nat
      with (length l - n + (length l - (length l - n) + length k - n))%nat by lia.
    rewrite <- drop_drop. rewrite (drop_app_le l k) by lia. done.
Qed.

Lemma read_ring l xs : ring l xs → GetAuditLog l = xs.
Proof.
  intros [_ _ _ Hc Hle Hat]. unfold GetAuditLog.
  assert (∀ n i, (i + n = count l)%nat → read_log l i n = drop i xs) as Hread.
  { induction n as [|n IH]; intros i Hn; simpl.
    - rewrite drop_ge; [done|lia].
    - rewrite Hat by lia. destruct (xs !! i) as [e|] eqn:E.
      + rewrite IH by lia. by rewrite (drop_S xs e i E).
      + apply lookup_ge_None in E. lia. }
  rewrite Hread by lia. apply drop_0.
Qed.

Definition log_all (l : audit_log) (evs : list audit_entry) : audit_log :=
  fold_left (λ l '(ty, ptr, now), LogEvent l ty ptr now) evs l.

Lemma ring_log_all l xs evs :
  ring l xs → ring (log_all l evs) (keep_last N (xs ++ evs)).
Proof.
  revert l xs. induction evs as [|[[ty ptr] now] evs IH]; intros l xs Hr; simpl.
  - rewrite app_nil_r. unfold keep_last.
    replace (length xs - N)%nat with 0%nat by (destruct Hr; lia). by rewrite drop_0.
  - specialize (IH _ _ (ring_LogEvent l xs ty ptr now Hr)).
    rewrite keep_last_app, <- app_assoc in IH. done.
Qed.
End Ring.

(** The audit ring is a sliding window: after any sequence of logged events
    [GetAuditLog] returns exactly the last 2048 of them, oldest first, also after
    the head has wrapped around the array. *)
Lemma audit_log_window evs :
  GetAuditLog (log_all (empty_log true) evs) = keep_last AUDIT_LOG_SIZE evs.
Proof. apply read_ring, (ring_log_all _ [] evs), ring_empty. Qed.

(** ** The queue and the cache *)

Definition overflow (cap : Z) (q : list Z) : nat := length q - Z.to_nat cap.

Lemma evict_loop_spec q : ∀ st, 0 ≤ max_cache_capacity st →
  let st' := evict_loop st q in let n := overflow (max_cache_capacity st) q in
  lru st' = drop n q ∧ max_cache_capacity st' = max_cache_capacity st ∧
  ∀ x, cache st' !! x = if decide (x ∈ take n q) then None else cache st !! x.
Proof.
  unfold overflow. induction q as [|y q IH]; intros st Hcap; simpl.
  { done. }
  case_match; bool_to_prop; simpl.
  - edestruct IH as (Hl & Hm & Hc); [|split_and!; [rewrite Hl|exact Hm|]]; [done|..].
    + simpl. replace (S (length q) - Z.to_nat (max_cache_capacity st))%nat
        with (S (length q - Z.to_nat (max_cache_capacity st))) by lia. done.
    + intros x. rewrite Hc. simpl.
      replace (S (length q) - Z.to_nat (max_cache_capacity st))%nat
        with (S (length q - Z.to_nat (max_cache_capacity st))) by lia. simpl.
      destruct (decide (x = y)) as [->|Hne].
      * rewrite lookup_delete_eq. repeat case_decide; set_solver.
      * rewrite lookup_delete_ne by done. repeat case_decide; set_solver.
  - replace (S (length q) - Z.to_nat (max_cache_capacity st))%nat with 0%nat by lia.
    done.
Qed.

(** The states [Add] leaves, in terms of the queue it pushed to. *)
Lemma Add_spec st ptr o : ptr ≠ 0 → 0 ≤ max_cache_capacity st →
  let st' := ObjCache_Add st ptr (Some o) in
  let n := overflow (max_cache_capacity st) (lru st ++ [ptr]) in
  lru st' = drop n (lru st ++ [ptr]) ∧ max_cache_capacity st' = max_cache_capacity st ∧
  ∀ x, cache st' !! x =
    if decide (x ∈ take n (lru st ++ [ptr])) then None
    else <[ptr := Some o]> (cache st) !! x.
Proof.
  intros Hp Hcap. unfold ObjCache_Add. destruct (Z.eqb_spec ptr 0); [done|].
  exact (evict_loop_spec (lru st ++ [ptr]) (lock_lru (logged (set_cache
    (lock_stripe st (get_stripe ptr)) (<[ptr := Some o]> (cache st))) EvAdd ptr)) Hcap).
Qed.

Lemma lock_all_spec st :
  cache (lock_all st) = cache st ∧ lru (lock_all st) = lru st ∧
  max_cache_capacity (lock_all st) = max_cache_capacity st.
Proof. done. Qed.

Lemma Get_spec st ptr : let st' := (ObjCache_Get st ptr).2 in
  lru st' = lru st ∧ max_cache_capacity st' = max_cache_capacity st ∧
  cache st' = if decide (cache st !! ptr = Some None ∧ ptr ≠ 0)
              then delete ptr (cache st) else cache st.
Proof.
  assert (cache (lock_stripe st (get_stripe ptr)) = cache st) as E by done.
  unfold ObjCache_Get. destruct (Z.eqb_spec ptr 0); [|rewrite E];
    [|destruct (cache st !! ptr) as [[]|] eqn:Hl];
    case_decide; cbn; naive_solver.
Qed.

Lemma Delete_spec st ptr : let st' := ObjCache_Delete st ptr in
  lru st' = lru st ∧ max_cache_capacity st' = max_cache_capacity st ∧
  cache st' = if decide (ptr = 0) then cache st else delete ptr (cache st).
Proof.
  unfold ObjCache_Delete. destruct (Z.eqb_spec ptr 0); simpl; case_decide; try done.
  destruct (cache st !! ptr) eqn:E; simpl; [done|]. by rewrite delete_id.
Qed.

(** *** Boundedness *)

Lemma dom_size_le {A} (m : gmap Z A) (q : list Z) :
  (∀ x, x ∈ dom m → x ∈ q) → (size (dom m) ≤ length q)%nat.
Proof.
  intros Hq. trans (length (remove_dups q)).
  - rewrite <- (size_list_to_set (C := gset Z)) by apply NoDup_remove_dups.
    apply subseteq_size. intros x Hx.
    by apply elem_of_list_to_set, list_elem_of_In, list_elem_of_In, elem_of_remove_dups, Hq.
  - apply submseteq_length. apply NoDup_submseteq; [apply NoDup_remove_dups|].
    intros x. by rewrite elem_of_remove_dups.
Qed.

Definition bounded (st : state) : Prop :=
  0 ≤ max_cache_capacity st ∧ ∀ x, is_Some (cache st !! x) → x ∈ lru st.

Definition op_ok (o : op) : Prop :=
  match o with OpSetCapacity c => 0 ≤ c | _ => True end.

Lemma Add_bounded st ptr obj : bounded st → bounded (ObjCache_Add st ptr obj).
Proof.
  intros [Hcap Hdom]. destruct obj as [o|]; [|done].
  destruct (decide (ptr = 0)) as [->|Hp]; [done|].
  destruct (Add_spec st ptr o Hp Hcap) as (Hl & Hm & Hc).
  split; [by rewrite Hm|]. intros x. rewrite Hc, Hl. case_decide as Hin; [by intros []|].
  intros Hx. assert (x ∈ lru st ++ [ptr]) as Hin'.
  { destruct (decide (x = ptr)) as [->|]; [set_solver|].
    rewrite lookup_insert_ne in Hx by done. apply elem_of_app; auto. }
  rewrite <- (take_drop (overflow (max_cache_capacity st) (lru st ++ [ptr]))
                (lru st ++ [ptr])) in Hin'.
  apply elem_of_app in Hin' as [?|?]; done.
Qed.

Lemma run_op_bounded st o : op_ok o → bounded st → bounded (run_op st o).
Proof.
  intros Hok Hb. destruct o; simpl in *; try done.
  - by apply Add_bounded.
  - destruct (Get_spec st ptr) as (Hl & Hm & Hc). destruct Hb as [Hcap Hdom].
    split; [by rewrite Hm|]. rewrite Hl, Hc. intros x Hx. apply Hdom.
    case_decide; [|done]. by apply lookup_delete_is_Some in Hx as [_ ?].
  - destruct (Delete_spec st ptr) as (Hl & Hm & Hc). destruct Hb as [Hcap Hdom].
    split; [by rewrite Hm|]. rewrite Hl, Hc. intros x Hx. apply Hdom.
    case_decide; [done|]. by apply lookup_delete_is_Some in Hx as [_ ?].
  - by destruct Hb.
  - destruct Hb. split; [done|]. intros x [y Hx]. done.
  - destruct Hb as [Hcap Hdom]. split; [done|]. intros x Hx. apply Hdom. simpl in Hx.
    by rewrite lookup_fmap, fmap_is_Some in Hx.
Qed.

Lemma run_ops_bounded ops st : Forall op_ok ops → bounded st → bounded (run_ops st ops).
Proof.
  revert st. induction ops as [|o ops IH]; intros st Hok Hb; [done|].
  apply Forall_cons_1 in Hok as [Ho Hok]. apply IH; [done|]. by apply run_op_bounded.
Qed.

(** The cache cannot outgrow its capacity: whatever was added, deleted, cleared
    or reconfigured before, after an effective [Add] the queue and the cache hold
    at most the configured number of keys, and every cached key is queued, so it
    will be evicted in its turn. *)
Lemma cache_never_exceeds_capacity cap ops ptr o :
  0 ≤ cap → Forall op_ok ops → ptr ≠ 0 →
  let st := run_ops (ObjCache_Init cap) (ops ++ [OpAdd ptr (Some o)]) in
  Z.of_nat (length (lru st)) ≤ max_cache_capacity st ∧
  Z.of_nat (size (cache st)) ≤ max_cache_capacity st ∧
  ∀ x, is_Some (cache st !! x) → x ∈ lru st.
Proof.
  intros Hcap Hok Hp. unfold run_ops. rewrite fold_left_app. simpl.
  fold (run_ops (ObjCache_Init cap) ops).
  assert (bounded (run_ops (ObjCache_Init cap) ops)) as Hb.
  { apply run_ops_bounded; [done|]. split; [done|]. by intros x []. }
  destruct (Add_bounded _ ptr (Some o) Hb) as [Hc' Hdom]. destruct Hb as [Hc _].
  destruct (Add_spec _ ptr o Hp Hc) as (Hl & Hm & _).
  assert (Z.of_nat (length (lru (ObjCache_Add (run_ops (ObjCache_Init cap) ops) ptr (Some o)))) ≤
          max_cache_capacity (ObjCache_Add (run_ops (ObjCache_Init cap) ops) ptr (Some o))) as Hle.
  { rewrite Hl, Hm, length_drop. unfold overflow. lia. }
  split_and!; [exact Hle| |exact Hdom].
  etrans; [|exact Hle]. apply inj_le. rewrite <- size_dom.
  apply dom_size_le. intros x Hx%elem_of_dom. auto.
Qed.

Lemma cache_never_exceeds_capacity_witness :
  let st := run_ops (ObjCache_Init 2)
    ([OpAdd 16 (Some 1); OpAdd 32 (Some 2); OpGet 16] ++ [OpAdd 48 (Some 3)]) in
  lru st = [32; 48] ∧ Z.of_nat (size (cache st)) ≤ 2.
Proof.
  split; [reflexivity|].
  apply (cache_never_exceeds_capacity 2 [OpAdd 16 (Some 1); OpAdd 32 (Some 2); OpGet 16] 48 3);
    [lia|repeat constructor|lia].
Defined.

(** *** Retention: the queue is first-in first-out *)

(** Operations that leave [p]'s entry and the configuration alone. *)
Definition undisturbing (p w : Z) (o : op) : bool :=
  match o with
  | OpAdd q _ => negb (q =? p)
  | OpGet _ | OpTick _ => true
  | OpDelete q => negb (q =? p)
  | OpDeath w' => negb (w' =? w)
  | OpSetCapacity _ | OpClear => false
  end.

(** An [Add] that pushes to the queue. *)
Definition effective (o : op) : bool :=
  match o with OpAdd q (Some _) => negb (q =? 0) | _ => false end.

Definition pushes (ops : list op) : nat := length (filter effective ops).

Section Retention.
Context (p w cap : Z) (Hp : p ≠ 0) (Hcap : 0 ≤ cap).

(** [m] pushes after [p]'s own: it is still queued, or already evicted. *)
Definition retained (m : nat) (st : state) : Prop :=
  max_cache_capacity st = cap ∧
  if decide (Z.of_nat m < cap) then
    cache st !! p = Some (Some w) ∧ Z.of_nat (length (lru st)) ≤ cap ∧
    ∃ old new, lru st = old ++ p :: new ∧ p ∉ old ∧ length new = m
  else cache st !! p = None.

Lemma retained_first st :
  max_cache_capacity st = cap → p ∉ lru st → retained 0 (ObjCache_Add st p (Some w)).
Proof.
  intros Hm Hin. destruct (Add_spec st p w Hp) as (Hl & Hm' & Hc); [lia|].
  rewrite Hm in *. unfold retained. split; [done|]. rewrite Hc, lookup_insert_eq.
  unfold overflow in *. rewrite length_app in *. simpl in *. case_decide as Hd.
  - rewrite take_app_le, drop_app_le in * by lia. rewrite decide_False.
    2:{ intros Hx. apply Hin. by eapply elem_of_submseteq, submseteq_take. }
    split; [done|]. split; [rewrite Hl, length_app, length_drop; simpl; lia|].
    eexists _, []. split; [exact Hl|]. split; [|done].
    intros Hx. apply Hin. by eapply elem_of_submseteq, submseteq_drop.
  - rewrite decide_True; [done|]. rewrite take_ge by (rewrite length_app; simpl; lia).
    set_solver.
Qed.

Lemma retained_push m st q o : q ≠ p → q ≠ 0 → retained m st →
  retained (S m) (ObjCache_Add st q (Some o)).
Proof.
  intros Hq Hq0 [Hm Hr]. destruct (Add_spec st q o Hq0) as (Hl & Hm' & Hc); [lia|].
  rewrite Hm in *. unfold retained. split; [done|].
  rewrite Hc, lookup_insert_ne by done. unfold overflow in *.
  case_decide as Hd.
  - destruct Hr as (Hca & Hle & old & new & Hlru & Hno & Hlen).
    rewrite Hlru in *. rewrite length_app in *. simpl in *. rewrite length_app in *. simpl in *.
    destruct old as [|y old].
    + simpl in *. case_decide.
      * replace (S (length new + 1) - Z.to_nat cap)%nat with 0%nat in * by lia.
        rewrite decide_False by (simpl; set_solver). split; [done|].
        rewrite Hl. simpl. split; [rewrite length_app; simpl; lia|].
        exists [], (new ++ [q]). rewrite length_app. simpl. split_and!; [done|set_solver|lia].
      * replace (S (length new + 1) - Z.to_nat cap)%nat with 1%nat in * by lia.
        by rewrite decide_True by (simpl; set_solver).
    + rewrite decide_True by (simpl in *; lia). simpl in *.
      destruct (decide (Z.of_nat (S (length old + S (length new))) = cap)) as [E|E].
      * replace (S (length old + S (length new) + 1) - Z.to_nat cap)%nat with 1%nat in * by lia.
        rewrite decide_False by (simpl; set_solver). split; [done|].
        rewrite skipn_cons, drop_0 in Hl. rewrite Hl, <- app_assoc.
        split; [rewrite length_app; simpl; rewrite length_app; simpl; lia|].
        exists old, (new ++ [q]). rewrite length_app. split_and!; [done|set_solver|simpl; lia].
      * replace (S (length old + S (length new) + 1) - Z.to_nat cap)%nat with 0%nat in * by lia.
        rewrite decide_False by (simpl; set_solver). split; [done|].
        rewrite drop_0 in Hl. rewrite Hl. cbn [app]. rewrite <- app_assoc.
        split; [simpl; rewrite length_app; simpl; rewrite length_app; simpl; lia|].
        exists (y :: old), (new ++ [q]). rewrite length_app.
        split_and!; [done|set_solver|simpl; lia].
  - rewrite decide_False by lia. case_decide; done.
Qed.

(** Steps that push nothing. *)
Lemma retained_same m st st' :
  retained m st → max_cache_capacity st' = max_cache_capacity st → lru st' = lru st →
  (cache st !! p = Some (Some w) → cache st' !! p = Some (Some w)) →
  (cache st !! p = None → cache st' !! p = None) → retained m st'.
Proof.
  intros [Hm Hr] E1 E2 Hs Hn. unfold retained. rewrite E1, E2. split; [done|].
  case_decide; [destruct Hr; auto|auto].
Qed.

Lemma retained_op m st o : undisturbing p w o = true → retained m st →
  retained (if effective o then S m else m) (run_op st o).
Proof.
  intros Hu Hr.
  destruct o as [q [o|]|q|q|c| |o|t]; cbn [undisturbing effective run_op] in *; bool_to_prop;
    [|done| | |done|done| |].
  - destruct (Z.eqb_spec q 0) as [->|]; [exact Hr|]. by apply retained_push.
  - destruct (Get_spec st q) as (El & Em & Ec).
    eapply retained_same; [exact Hr|done..| |]; rewrite Ec;
      case_decide as Hd; try done; rewrite lookup_delete; case_decide; naive_solver.
  - destruct (Delete_spec st q) as (El & Em & Ec).
    eapply retained_same; [exact Hr|done..| |]; rewrite Ec;
      case_decide; try done; rewrite lookup_delete_ne; done.
  - eapply retained_same; [exact Hr|done..| |]; simpl; rewrite lookup_fmap; intros ->; [|done].
    simpl. case_decide; congruence.
  - exact Hr.
Qed.

Lemma retained_ops ops : ∀ m st, Forall (λ o, undisturbing p w o = true) ops →
  retained m st → retained (m + pushes ops) (run_ops st ops).
Proof.
  induction ops as [|o ops IH]; intros m st Hf Hr.
  { unfold pushes. simpl. by rewrite Nat.add_0_r. }
  apply Forall_cons_1 in Hf as [Ho Hf].
  specialize (IH _ _ Hf (retained_op m st o Ho Hr)). simpl. unfold pushes in *. rewrite filter_cons.
  case_decide as Hd; destruct (effective o); simpl in *; try done.
  by rewrite Nat.add_succ_r.
Qed.
End Retention.

(** C16: how long an entry is found.  After [Add(p, w)] of a pointer whose key is not
    queued, and any further operations but adding or deleting [p], clearing, setting the
    capacity or the death of [w], [Get(p)] answers the wrapper exactly while fewer keys than
    the capacity have been added since.  Lookups of [p] in between do not count: the queue
    is first-in first-out, not least-recently-used.  A key that is still queued from before
    is evicted earlier ([stale_key_evicts_fresh_entry]). *)
Theorem Get_after_Add_iff st p w ops :
  p ≠ 0 → 0 ≤ max_cache_capacity st → p ∉ lru st →
  Forall (λ o, undisturbing p w o = true) ops →
  (ObjCache_Get (run_ops (ObjCache_Add st p (Some w)) ops) p).1 = Some w
  ↔ Z.of_nat (pushes ops) < max_cache_capacity st.
Proof.
  intros Hp Hcap Hin Hops.
  pose proof (retained_first p w _ Hp Hcap st eq_refl Hin) as Hr.
  pose proof (retained_ops p w _ Hp Hcap ops 0 _ Hops Hr) as [_ Hr'].
  unfold ObjCache_Get. destruct (Z.eqb_spec p 0); [done|]. simpl in *.
  case_decide as Hd; [destruct Hr' as (-> & _)|rewrite Hr']; simpl; split; done.
Qed.

Lemma Get_after_Add_iff_witness :
  let ops := [OpAdd 32 (Some 2); OpGet 16; OpAdd 48 (Some 3)] in
  (ObjCache_Get (run_ops (ObjCache_Add (ObjCache_Init 2) 16 (Some 1)) ops) 16).1 = Some 1
  ↔ 2 < 2.
Proof.
  intros ops. apply (Get_after_Add_iff (ObjCache_Init 2) 16 1 ops).
  - lia.
  - by_compute.
  - by_compute.
  - by_compute.
Defined.

(** A stale key evicts a fresh entry.  [Delete] leaves the key in the queue, so
    when an address is reused and its old key is the oldest of a full queue, the
    very [Add] that stores the new wrapper evicts it: the next [Get] misses. *)
Theorem stale_key_evicts_fresh_entry st p w rest :
  p ≠ 0 → lru st = p :: rest → Z.of_nat (length (lru st)) = max_cache_capacity st →
  (ObjCache_Get (ObjCache_Add st p (Some w)) p).1 = None.
Proof.
  intros Hp Hl Hlen. destruct (Add_spec st p w Hp) as (_ & _ & Hc); [lia|].
  unfold ObjCache_Get. destruct (Z.eqb_spec p 0); [done|].
  replace (cache (lock_stripe (ObjCache_Add st p (Some w)) (get_stripe p)) !! p)
    with (None : option (option Z)); [done|]. symmetry. simpl. rewrite Hc.
  rewrite decide_True; [done|]. unfold overflow. rewrite length_app, <- Hlen. simpl.
  replace (length (lru st) + 1 - Z.to_nat (Z.of_nat (length (lru st))))%nat with 1%nat by lia.
  rewrite Hl. simpl. set_solver.
Qed.

Lemma stale_key_evicts_fresh_entry_witness :
  let st := run_ops (ObjCache_Init 2) [OpAdd 16 (Some 1); OpDelete 16; OpAdd 32 (Some 2)] in
  (ObjCache_Get (ObjCache_Add st 16 (Some 3)) 16).1 = None.
Proof. apply (stale_key_evicts_fresh_entry _ 16 3 [32]); [lia|reflexivity|reflexivity]. Defined.

(** ** The locks (builds with ithreads)

    Each interpreter has its own containers, but the stripes, the queue's mutex
    and the log's mutex are process-wide.  An operation is the sequence of its
    acquisitions and releases; which keys it evicts is data it does not share. *)
Inductive lock := Stripe (s : Z) | LruMutex | AuditMutex.

#[export] Instance lock_eq_dec : EqDecision lock.
Proof. solve_decision. Defined.
#[export] Program Instance lock_countable : Countable lock :=
  inj_countable' (λ l, match l with Stripe s => inl s | LruMutex => inr true | AuditMutex => inr false end)
    (λ x, match x with inl s => Stripe s | inr true => LruMutex | inr false => AuditMutex end) _.
Next Obligation. by intros []. Qed.

Inductive action := Acquire (l : lock) | Release (l : lock).

Definition locked (l : lock) (body : list action) : list action :=
  Acquire l :: body ++ [Release l].

Definition LogEvent_locks : list action := locked AuditMutex [].

Definition Get_locks (ptr : Z) : list action := locked (Stripe (get_stripe ptr)) LogEvent_locks.

Definition Delete_locks (ptr : Z) (found : bool) : list action :=
  locked (Stripe (get_stripe ptr)) (if found then LogEvent_locks else []).

Definition Add_locks (ptr : Z) (evicted : list Z) : list action :=
  locked (Stripe (get_stripe ptr)) [] ++ LogEvent_locks ++
  locked LruMutex (flat_map (λ e, locked (Stripe (get_stripe e)) LogEvent_locks) evicted).

Definition SetCapacity_locks : list action := locked LruMutex [].

Definition all_stripes : list lock := map (λ s, Stripe (Z.of_nat s)) (seq 0 16).

Definition Clear_locks : list action :=
  map Acquire all_stripes ++ locked LruMutex (locked AuditMutex []) ++
  map Release (rev all_stripes).

(** Threads run their remaining actions; [owner] says who holds each mutex. *)
Record machine := { threads : list (list action); owner : gmap lock nat }.

Inductive lock_step : machine → machine → Prop :=
  | step_acquire m i l rest :
      threads m !! i = Some (Acquire l :: rest) → owner m !! l = None →
      lock_step m {| threads := <[i := rest]> (threads m); owner := <[l := i]> (owner m) |}
  | step_release m i l rest :
      threads m !! i = Some (Release l :: rest) →
      lock_step m {| threads := <[i := rest]> (threads m); owner := delete l (owner m) |}.

Definition start (ps : list (list action)) : machine := {| threads := ps; owner := ∅ |}.

Definition finished (m : machine) : Prop := Forall (λ p, p = []) (threads m).
Definition deadlocked (m : machine) : Prop := ¬ finished m ∧ ∀ m', ¬ lock_step m m'.

(** A discipline that rules deadlock out: locks are taken in increasing rank,
    released while held, and none is kept at the end. *)
Fixpoint ordered (rank : lock → nat) (held : gset lock) (p : list action) : Prop :=
  match p with
  | [] => held = ∅
  | Acquire l :: p =>
      (∀ h, h ∈ held → (rank h < rank l)%nat) ∧ ordered rank ({[l]} ∪ held) p
  | Release l :: p => l ∈ held ∧ ordered rank (held ∖ {[l]}) p
  end.

Lemma ordered_held rank held held' p :
  held' = held → ordered rank held p → ordered rank held' p.
Proof. by intros ->. Qed.

(** Pieces that leave the held locks as they found them. *)
Definition balanced rank (held : gset lock) (p : list action) : Prop :=
  ∀ k, ordered rank held k → ordered rank held (p ++ k).

Lemma balanced_nil rank held : balanced rank held [].
Proof. by intros k. Qed.
Lemma balanced_app rank held p q :
  balanced rank held p → balanced rank held q → balanced rank held (p ++ q).
Proof. intros Hp Hq k Hk. rewrite <- app_assoc. auto. Qed.
Lemma balanced_flat_map {A} rank held (f : A → list action) xs :
  (∀ x, balanced rank held (f x)) → balanced rank held (flat_map f xs).
Proof. intros Hf. induction xs; simpl; eauto using balanced_app, balanced_nil. Qed.
Lemma balanced_locked rank held l body :
  (∀ h, h ∈ held → (rank h < rank l)%nat) → balanced rank ({[l]} ∪ held) body →
  balanced rank held (locked l body).
Proof.
  intros Hlt Hb k Hk. simpl. split; [done|]. rewrite <- app_assoc. apply Hb. simpl.
  split; [set_solver|]. eapply ordered_held; [|exact Hk].
  assert (l ∉ held) by (intros Hl%Hlt; lia). set_solver.
Qed.
Lemma balanced_ordered rank p : balanced rank ∅ p → ordered rank ∅ p.
Proof. intros H. rewrite <- (app_nil_r p). by apply H. Qed.

Section Deadlock.
Context (rank : lock → nat).

(** The locks thread [i] holds, by the owner map. *)
Definition holds (m : machine) (i : nat) : gset lock :=
  dom (filter (λ kv, kv.2 = i) (owner m)).

Lemma elem_of_holds m i l : l ∈ holds m i ↔ owner m !! l = Some i.
Proof.
  unfold holds. rewrite elem_of_dom. split.
  - intros [j Hj]. apply map_lookup_filter_Some in Hj as [? Hj]. simpl in Hj. congruence.
  - intros H. exists i. apply map_lookup_filter_Some. done.
Qed.

Definition disciplined (m : machine) : Prop :=
  (∀ l i, owner m !! l = Some i → (i < length (threads m))%nat) ∧
  ∀ i p, threads m !! i = Some p → ordered rank (holds m i) p.

Lemma start_disciplined ps : Forall (ordered rank ∅) ps → disciplined (start ps).
Proof.
  intros Hps. split; [done|]. intros i p Hi. simpl in Hi.
  replace (holds (start ps) i) with (∅ : gset lock).
  - by apply (Forall_lookup_1 _ _ _ _ Hps Hi).
  - symmetry. apply set_eq. intros l. rewrite elem_of_holds. set_solver.
Qed.

Lemma disciplined_step m m' : lock_step m m' → disciplined m → disciplined m'.
Proof.
  intros Hstep [Hown Hord]. destruct Hstep as [m i l rest Hi Hfree|m i l rest Hi];
    pose proof (Hord _ _ Hi) as [Hl Hrest]; split; simpl.
  - intros k j. rewrite length_insert. destruct (decide (k = l)) as [->|].
    + rewrite lookup_insert_eq. intros [= <-]. by eapply lookup_lt_Some.
    + rewrite lookup_insert_ne by done. apply Hown.
  - intros j p Hj. destruct (decide (i = j)) as [<-|].
    + rewrite list_lookup_insert_eq in Hj by (by eapply lookup_lt_Some). simplify_eq.
      eapply ordered_held; [|exact Hrest]. apply set_eq. intros k.
      rewrite elem_of_union, elem_of_singleton, !elem_of_holds. simpl.
      rewrite lookup_insert. case_decide; naive_solver.
    + rewrite list_lookup_insert_ne in Hj by done. eapply ordered_held; [|by apply Hord].
      apply set_eq. intros k. rewrite !elem_of_holds. simpl.
      rewrite lookup_insert. case_decide; naive_solver.
  - intros k j. rewrite length_insert, lookup_delete. case_decide; [done|apply Hown].
  - apply elem_of_holds in Hl.
    intros j p Hj. destruct (decide (i = j)) as [<-|].
    + rewrite list_lookup_insert_eq in Hj by (by eapply lookup_lt_Some). simplify_eq.
      eapply ordered_held; [|exact Hrest]. apply set_eq. intros k.
      rewrite elem_of_difference, elem_of_singleton, !elem_of_holds. simpl.
      rewrite lookup_delete. case_decide; naive_solver.
    + rewrite list_lookup_insert_ne in Hj by done. eapply ordered_held; [|by apply Hord].
      apply set_eq. intros k. rewrite !elem_of_holds. simpl.
      rewrite lookup_delete. case_decide; naive_solver.
Qed.

Lemma disciplined_reachable ps m :
  Forall (ordered rank ∅) ps → rtc lock_step (start ps) m → disciplined m.
Proof.
  intros Hps Hr. pose proof (start_disciplined ps Hps) as Hd. revert Hd.
  induction Hr; eauto using disciplined_step.
Qed.

(** A blocked thread waits for a lock whose owner waits for a higher one. *)
Lemma blocked_chain m i p : disciplined m → (∀ m', ¬ lock_step m m') →
  threads m !! i = Some p → p ≠ [] →
  ∃ l rest, p = Acquire l :: rest ∧
  ∃ j l' rest', threads m !! j = Some (Acquire l' :: rest') ∧ (rank l < rank l')%nat.
Proof.
  intros [Hown Hord] Hstuck Hi Hne. destruct p as [|[l|l] rest]; [done|..].
  2:{ destruct (Hstuck _ (step_release m i l rest Hi)). }
  exists l, rest. split; [done|].
  destruct (owner m !! l) as [j|] eqn:Hj.
  2:{ destruct (Hstuck _ (step_acquire m i l rest Hi Hj)). }
  destruct (lookup_lt_is_Some_2 _ _ (Hown _ _ Hj)) as [q Hq].
  pose proof (Hord _ _ Hq) as Hoq. apply elem_of_holds in Hj.
  destruct q as [|[l'|l'] rest']; simpl in Hoq.
  - rewrite Hoq in Hj. set_solver.
  - exists j, l', rest'. split; [done|]. by apply Hoq.
  - destruct (Hstuck _ (step_release m j l' rest' Hq)).
Qed.

Lemma disciplined_progress (bound : nat) m :
  (∀ l, (rank l < bound)%nat) → disciplined m → ¬ deadlocked m.
Proof.
  intros Hbound Hd [Hnf Hstuck].
  assert (∀ k i l rest, threads m !! i = Some (Acquire l :: rest) →
    (bound ≤ rank l + k)%nat → False) as Hloop.
  { induction k as [|k IH]; intros i l rest Hi Hk; [specialize (Hbound l); lia|].
    destruct (blocked_chain m i _ Hd Hstuck Hi) as (? & ? & [= <- <-] & j & l' & rest' & Hj & Hlt);
      [done|]. eapply IH; [exact Hj|lia]. }
  apply Hnf, Forall_lookup. intros i p Hi. destruct (decide (p = [])) as [|Hne]; [done|].
  destruct (blocked_chain m i p Hd Hstuck Hi Hne) as (l & rest & -> & _).
  exfalso. eapply (Hloop bound); [exact Hi|lia].
Qed.
End Deadlock.

Definition cache_rank (l : lock) : nat :=
  match l with LruMutex => 0 | Stripe _ => 1 | AuditMutex => 2 end.

Inductive cache_call : list action → Prop :=
  | call_add ptr evicted : cache_call (Add_locks ptr evicted)
  | call_get ptr : cache_call (Get_locks ptr)
  | call_delete ptr found : cache_call (Delete_locks ptr found)
  | call_capacity : cache_call SetCapacity_locks
  | call_log : cache_call LogEvent_locks.

Lemma cache_call_balanced p : cache_call p → balanced cache_rank ∅ p.
Proof.
  intros Hp. destruct Hp;
    repeat first [apply balanced_app | apply balanced_flat_map; intros | apply balanced_nil
                 | apply balanced_locked; [simpl; set_unfold; naive_solver lia|] | case_match].
Qed.
Lemma cache_call_ordered p : cache_call p → ordered cache_rank ∅ p.
Proof. intros Hp. by apply balanced_ordered, cache_call_balanced. Qed.

(** The cache's own operations cannot deadlock: any number of threads, each in
    any call of [Add] (whatever it evicts), [Get], [Delete], [SetCapacity] or
    [LogEvent], always leave one of them able to proceed until all are done. *)
Lemma cache_calls_deadlock_free ps m :
  Forall cache_call ps → rtc lock_step (start ps) m → ¬ deadlocked m.
Proof.
  intros Hps Hr. eapply (disciplined_progress cache_rank 3).
  - intros []; simpl; lia.
  - eapply disciplined_reachable; [|exact Hr].
    eapply Forall_impl; [exact Hps|]. apply cache_call_ordered.
Qed.

Lemma cache_calls_deadlock_free_witness :
  ¬ deadlocked (start [Add_locks 16 [32; 16]; Add_locks 32 [16]; Get_locks 16]).
Proof.
  apply (cache_calls_deadlock_free [Add_locks 16 [32; 16]; Add_locks 32 [16]; Get_locks 16]).
  - repeat (constructor; [constructor|]). constructor.
  - apply rtc_refl.
Defined.

(** *** [Clear] takes the stripes before the queue's mutex *)

Fixpoint drive (m : machine) (sched : list nat) : option machine :=
  match sched with
  | [] => Some m
  | i :: sched =>
      match threads m !! i with
      | Some (Acquire l :: rest) =>
          match owner m !! l with
          | None => drive {| threads := <[i := rest]> (threads m);
                             owner := <[l := i]> (owner m) |} sched
          | Some _ => None
          end
      | Some (Release l :: rest) =>
          drive {| threads := <[i := rest]> (threads m); owner := delete l (owner m) |} sched
      | _ => None
      end
  end.

Lemma drive_rtc sched : ∀ m m', drive m sched = Some m' → rtc lock_step m m'.
Proof.
  induction sched as [|i sched IH]; intros m m' H; simpl in H; [simplify_eq; apply rtc_refl|].
  destruct (threads m !! i) as [[|[l|l] rest]|] eqn:Hi; try done.
  - destruct (owner m !! l) eqn:Hl; [done|].
    eapply rtc_l; [by apply (step_acquire m i l rest)|]. auto.
  - eapply rtc_l; [by apply (step_release m i l rest)|]. auto.
Qed.

Lemma get_stripe_range ptr : 0 ≤ get_stripe ptr < 16.
Proof. apply Z.mod_pos_bound. done. Qed.

Definition Add_evicting (es : list Z) : list action :=
  flat_map (λ e, locked (Stripe (get_stripe e)) LogEvent_locks) es ++ [Release LruMutex].

(** The adding thread runs until it holds the queue's mutex. *)
Lemma Add_reaches_eviction p0 ptr es :
  rtc lock_step (start [p0; Add_locks ptr es])
    {| threads := [p0; Add_evicting es]; owner := {[LruMutex := 1%nat]} |}.
Proof.
  assert (∀ l (rest : list action),
    rtc lock_step {| threads := [p0; Acquire l :: Release l :: rest]; owner := ∅ |}
                  {| threads := [p0; rest]; owner := ∅ |}) as Hpair.
  { intros l rest. eapply rtc_l.
    { eapply (step_acquire _ 1 l); [reflexivity|apply lookup_empty]. }
    eapply rtc_l; [eapply (step_release _ 1 l); reflexivity|]. simpl.
    rewrite delete_insert_id by apply lookup_empty. apply rtc_refl. }
  etrans; [apply Hpair|]. etrans; [apply Hpair|].
  eapply rtc_l.
  { eapply (step_acquire _ 1 LruMutex); [reflexivity|apply lookup_empty]. }
  apply rtc_refl.
Qed.

(** The clearing thread then takes every stripe. *)
Lemma Clear_takes_stripes q :
  ∃ own, (∀ s, 0 ≤ s < 16 → own !! Stripe s = Some 0%nat) ∧ own !! LruMutex = Some 1%nat ∧
  rtc lock_step {| threads := [Clear_locks; q]; owner := {[LruMutex := 1%nat]} |}
    {| threads := [drop 16 Clear_locks; q]; owner := own |}.
Proof.
  destruct (drive {| threads := [Clear_locks; q]; owner := {[LruMutex := 1%nat]} |}
              (repeat 0%nat 16)) as [m|] eqn:E; [|vm_compute in E; discriminate].
  pose proof (drive_rtc _ _ _ E) as Hr. vm_compute in E. injection E as <-.
  eexists. split; [|split; [|exact Hr]]; [|vm_compute; reflexivity].
  intros s Hs. match goal with |- ?own !! _ = _ =>
    assert (Forall (λ n : nat, own !! Stripe (Z.of_nat n) = Some 0%nat) (seq 0 16)) as Hall
      by by_compute end.
  rewrite Forall_forall in Hall. specialize (Hall (Z.to_nat s)).
  rewrite Z2Nat.id in Hall by lia. apply Hall, elem_of_seq. lia.
Qed.

(** [Clear] against an evicting [Add] can deadlock.  [Clear] takes all stripes and
    then the queue's mutex; [Add] evicts while holding the queue's mutex and takes
    the evicted key's stripe.  For every added pointer and every nonempty list of
    evicted keys some interleaving leaves both threads waiting for ever. *)
Lemma Clear_Add_deadlock ptr e es :
  ∃ m, rtc lock_step (start [Clear_locks; Add_locks ptr (e :: es)]) m ∧ deadlocked m.
Proof.
  destruct (Clear_takes_stripes (Add_evicting (e :: es))) as (own & Hs & Hl & Hr).
  eexists. split; [etrans; [apply Add_reaches_eviction|exact Hr]|]. split.
  - intros Hf. unfold finished in Hf. simpl in Hf. apply Forall_cons_1 in Hf as [Hf _]. done.
  - intros m' Hstep. inversion Hstep as [? i l rest Hi Hfree|? i l rest Hi]; subst; simpl in *.
    + destruct i as [|[|i]]; simpl in Hi; simplify_eq.
      unfold Add_evicting in Hi. simpl in Hi. simplify_eq.
      rewrite Hs in Hfree by apply get_stripe_range. done.
    + destruct i as [|[|i]]; unfold Add_evicting in Hi; simpl in Hi; simplify_eq.
Qed.

(** ** Entries by key *)

Lemma read_pointer_bytes n : ∀ ptr, 0 ≤ ptr < 2 ^ (8 * Z.of_nat n) → read_pointer (pointer_bytes n ptr) = ptr.
Proof.
  induction n as [|n IH]; intros ptr Hp; [simpl in *; lia|]. cbn [pointer_bytes read_pointer foldr].
  fold (read_pointer (pointer_bytes n (ptr / 256))).
  rewrite Nat2Z.inj_succ, Z.mul_succ_r, Z.pow_add_r in Hp by lia. change (2 ^ 8) with 256 in Hp. rewrite IH.
  - pose proof (Z.div_mod ptr 256). lia.
  - split; [apply Z.div_pos; lia|apply Z.div_lt_upper_bound; lia].
Qed.

Lemma length_pointer_bytes n : ∀ ptr, length (pointer_bytes n ptr) = n.
Proof. induction n as [|n IH]; intros ptr; simpl; [done|by rewrite IH]. Qed.

(** The whole key deletes the entry of its pointer ... *)
Lemma DeleteEntry_exact st ptr : 0 ≤ ptr < 2 ^ 64 →
  ObjCache_DeleteEntry st (Some (pointer_bytes 8 ptr)) 8 = ObjCache_Delete st ptr.
Proof.
  intros Hp. unfold ObjCache_DeleteEntry. cbn [Z.eqb CACHE_KEY_LEN negb]. change (Z.to_nat CACHE_KEY_LEN) with 8%nat.
  rewrite take_ge by (by rewrite length_pointer_bytes). rewrite read_pointer_bytes; [done|].
  exact Hp.
Qed.

Lemma strlen_short n : ∀ ptr, 0 ≤ ptr < 2 ^ (8 * Z.of_nat n) → 0 ≤ strlen (pointer_bytes (S n) ptr) ≤ Z.of_nat n.
Proof.
  induction n as [|n IH]; intros ptr Hp.
  - assert (ptr = 0) as -> by (simpl in Hp; lia). by vm_compute.
  - rewrite Nat2Z.inj_succ, Z.mul_succ_r, Z.pow_add_r in Hp by lia. change (2 ^ 8) with 256 in Hp.
    assert (0 ≤ ptr / 256 < 2 ^ (8 * Z.of_nat n)) as Hq.
    { split; [apply Z.div_pos; lia|apply Z.div_lt_upper_bound; lia]. }
    specialize (IH (ptr / 256) Hq).
    change (pointer_bytes (S (S n)) ptr) with (ptr mod 256 :: pointer_bytes (S n) (ptr / 256)).
    destruct (pointer_bytes (S n) (ptr / 256)) as [|c l]; cbn [strlen] in *; repeat case_match; lia.
Qed.

(** ... but no key passed from Perl is whole: the addresses of a process are below 2^56,
    so a key has a zero byte, where [strlen] ends. *)
Lemma delete_cache_entry_ignores st ptr : 0 ≤ ptr < 2 ^ 56 → XS_delete_cache_entry st (pointer_bytes 8 ptr) = st.
Proof.
  intros Hp. unfold XS_delete_cache_entry, ObjCache_DeleteEntry.
  pose proof (strlen_short 7 ptr Hp) as Hl. destruct (Z.eqb_spec (strlen (pointer_bytes 8 ptr)) CACHE_KEY_LEN) as [E|]; [|done].
  exfalso. revert Hl. rewrite E. unfold CACHE_KEY_LEN. lia.
Qed.
