(* ===== verification/CacheThreads.v ===== *)
(** * The object cache in a process with threads (xs/protobuf/obj_cache.c)

    With ithreads every interpreter has containers of its own ([ObjCache]), but the audit
    ring, the lock statistics and the mutexes are static: all interpreters use the same.
    Here the calls are programs of single accesses to memory, run by any number of threads
    in any order (each access is atomic, and all threads see them in one order). *)

From S2P Require Import Prelude ObjCache.

(** ** State *)

(** What the registry of one interpreter holds. *)
Record local := { hash : gmap Z (option Z); queue : list Z; capacity : Z }.

Definition local_of (st : state) : local :=
  {| hash := cache st; queue := lru st; capacity := max_cache_capacity st |}.

(** [contention_stat_t]. *)
Record contention_stat := { acquisitions : Z; contentions : Z }.
Inductive stat_field := Acquisitions | Contentions.

(** The static variables: who holds each mutex, which mutexes were initialised, the ring,
    the statistics and [cache_mutexes_init].  [undefined] is set by a use of a mutex that
    POSIX leaves undefined: initialising it again, or locking it before. *)
Record shared := {
  held_by : gmap lock nat;
  ready : gset lock;
  audit : audit_log;
  contention_stats : gmap lock contention_stat;
  cache_mutexes_init : bool;
  undefined : bool;
}.

(** ** The calls, access by access *)

(** What is done while holding the mutex of the ring. *)
Inductive critical := AEvent (ty : event) (ptr : Z) | AReset | ARead.

Inductive instr :=
  (* ensure_mutexes_init *)
  | IEnsure | IMutexInit (l : lock) | IZeroStats | IAuditInit | IFlag
  (* LOCK_AND_PROFILE: trylock, the counters (a load, then a store), lock *)
  | ITry (l : lock) | ILoad (l : lock) (f : stat_field) | IStore (l : lock) (f : stat_field) (v : Z)
  | ILock (l : lock) | IUnlock (l : lock)
  (* the interpreter's own containers *)
  | IStoreWeak (ptr o : Z) | IDelete (ptr : Z) | IFetch (ptr : Z) | IExists (ptr : Z)
  | IPush (ptr : Z) | IEvict | ICapacity (c : Z) | IEmpty | IDeath (o : Z) | INull
  (* PerlUpb_ObjCache_LogEvent and the other uses of the ring *)
  | ILog (ty : event) (ptr : Z) | IAudit (a : critical)
  | LogSlot (ty : event) (ptr : Z) | LogAdvance | LogType (idx : nat) (ty : event)
  | LogPtr (idx : nat) (ptr : Z) | LogTime (idx : nat) (ty : event) (ptr : Z)
  | LogHead | LogCount | LogRead (n : nat) (acc : list audit_entry).

(** What a call answers: a wrapper or NULL, or the entries of the ring. *)
Inductive answer := AGet (o : option Z) | ALog (es : list audit_entry).

Inductive call :=
  | CInit
  | CAdd (ptr : Z) (obj : option Z)
  | CGet (ptr : Z)
  | CDelete (ptr : Z)
  | CSetCapacity (c : Z)
  | CClear (dirty : bool)
  | CGetAuditLog
  | CDeath (o : Z).

Definition stripe_lock (ptr : Z) : lock := Stripe (get_stripe ptr).

Definition Init_code : list instr := [IEnsure].
Definition Add_code (ptr o : Z) : list instr :=
  [IEnsure; ITry (stripe_lock ptr); IStoreWeak ptr o; IUnlock (stripe_lock ptr); ILog EvAdd ptr;
   ITry LruMutex; IPush ptr; IEvict; IUnlock LruMutex].
Definition Get_code (ptr : Z) : list instr :=
  [IEnsure; ITry (stripe_lock ptr); IFetch ptr; IUnlock (stripe_lock ptr)].
Definition Delete_code (ptr : Z) : list instr :=
  [IEnsure; ITry (stripe_lock ptr); IExists ptr; IUnlock (stripe_lock ptr)].
Definition SetCapacity_code (c : Z) : list instr := [IEnsure; ITry LruMutex; ICapacity c; IUnlock LruMutex].
Definition Clear_code (dirty : bool) : list instr :=
  IEnsure :: map ITry all_stripes ++ [ITry LruMutex] ++ (if dirty then [] else [IEmpty]) ++
  [IAudit AReset; IUnlock LruMutex] ++ map IUnlock (rev all_stripes).
Definition GetAuditLog_code : list instr := [IEnsure; IAudit ARead].

(** What a call does, with its early returns. *)
Definition body (c : call) : list instr :=
  match c with
  | CInit => Init_code
  | CAdd ptr None => []
  | CAdd ptr (Some o) => if ptr =? 0 then [] else Add_code ptr o
  | CGet ptr => if ptr =? 0 then [INull] else Get_code ptr
  | CDelete ptr => if ptr =? 0 then [] else Delete_code ptr
  | CSetCapacity c => SetCapacity_code c
  | CClear dirty => Clear_code dirty
  | CGetAuditLog => GetAuditLog_code
  | CDeath o => [IDeath o]
  end.

(** [while (av_len(lru) + 1 > max_cache_capacity)]: one turn. *)
Definition evict_turn (oldest : Z) : list instr :=
  [ITry (stripe_lock oldest); IDelete oldest; ILog EvEvict oldest; IUnlock (stripe_lock oldest); IEvict].

Definition section_of (a : critical) : list instr :=
  match a with
  | AEvent ty ptr => [LogSlot ty ptr]
  | AReset => [LogHead; LogCount]
  | ARead => [LogRead 0 []]
  end.

(** *** Accesses to the ring *)

Definition slot (l : audit_log) : nat := ((head l + count l) mod AUDIT_LOG_SIZE)%nat.
Definition advance (l : audit_log) : audit_log :=
  if (count l =? AUDIT_LOG_SIZE)%nat
  then {| entries := entries l; head := ((head l + 1) mod AUDIT_LOG_SIZE)%nat; count := count l; log_init := log_init l |}
  else {| entries := entries l; head := head l; count := S (count l); log_init := log_init l |}.
Definition on_entry (f : audit_entry → audit_entry) (idx : nat) (l : audit_log) : audit_log :=
  {| entries := alter f idx (entries l); head := head l; count := count l; log_init := log_init l |}.
Definition set_type (ty : event) : audit_entry → audit_entry := λ '(_, ptr, t), (ty, ptr, t).
Definition set_ptr (ptr : Z) : audit_entry → audit_entry := λ '(ty, _, t), (ty, ptr, t).
Definition set_time (now : Z) : audit_entry → audit_entry := λ '(ty, ptr, _), (ty, ptr, now).
Definition set_head (h : nat) (l : audit_log) : audit_log :=
  {| entries := entries l; head := h; count := count l; log_init := log_init l |}.
Definition set_count (c : nat) (l : audit_log) : audit_log :=
  {| entries := entries l; head := head l; count := c; log_init := log_init l |}.
Definition set_log_init (l : audit_log) : audit_log :=
  {| entries := entries l; head := head l; count := count l; log_init := true |}.

(** *** Accesses to the other static variables *)

Definition set_audit (f : audit_log → audit_log) (s : shared) : shared :=
  {| held_by := held_by s; ready := ready s; audit := f (audit s); contention_stats := contention_stats s;
     cache_mutexes_init := cache_mutexes_init s; undefined := undefined s |}.
Definition set_stats (f : gmap lock contention_stat → gmap lock contention_stat) (s : shared) : shared :=
  {| held_by := held_by s; ready := ready s; audit := audit s; contention_stats := f (contention_stats s);
     cache_mutexes_init := cache_mutexes_init s; undefined := undefined s |}.
Definition set_flag (s : shared) : shared :=
  {| held_by := held_by s; ready := ready s; audit := audit s; contention_stats := contention_stats s;
     cache_mutexes_init := true; undefined := undefined s |}.
Definition mutex_init (l : lock) (s : shared) : shared :=
  {| held_by := delete l (held_by s); ready := {[l]} ∪ ready s; audit := audit s; contention_stats := contention_stats s;
     cache_mutexes_init := cache_mutexes_init s; undefined := undefined s || bool_decide (l ∈ ready s) |}.
Definition mutex_lock (i : nat) (l : lock) (s : shared) : shared :=
  {| held_by := <[l := i]> (held_by s); ready := ready s; audit := audit s; contention_stats := contention_stats s;
     cache_mutexes_init := cache_mutexes_init s; undefined := undefined s || negb (bool_decide (l ∈ ready s)) |}.
Definition mutex_unlock (l : lock) (s : shared) : shared :=
  {| held_by := delete l (held_by s); ready := ready s; audit := audit s; contention_stats := contention_stats s;
     cache_mutexes_init := cache_mutexes_init s; undefined := undefined s |}.

Definition stat_of (s : shared) (l : lock) : contention_stat :=
  default {| acquisitions := 0; contentions := 0 |} (contention_stats s !! l).
Definition get_field (f : stat_field) (c : contention_stat) : Z :=
  match f with Acquisitions => acquisitions c | Contentions => contentions c end.
Definition put_field (f : stat_field) (v : Z) (c : contention_stat) : contention_stat :=
  match f with
  | Acquisitions => {| acquisitions := v; contentions := contentions c |}
  | Contentions => {| acquisitions := acquisitions c; contentions := v |}
  end.

Definition all_locks : list lock := all_stripes ++ [LruMutex; AuditMutex].

(** *** Accesses to the containers *)

Definition set_hash (h : gmap Z (option Z)) (l : local) : local :=
  {| hash := h; queue := queue l; capacity := capacity l |}.
Definition set_queue (q : list Z) (l : local) : local :=
  {| hash := hash l; queue := q; capacity := capacity l |}.
Definition set_capacity (c : Z) (l : local) : local :=
  {| hash := hash l; queue := queue l; capacity := c |}.

(** One access of thread [i] at time [now]: what the call still has to do for it, the
    containers, the static variables, and answers.  [None]: the thread waits. *)
Definition exec (i : nat) (now : Z) (x : instr) (l : local) (s : shared)
    : option (list instr * local * shared * list answer) :=
  match x with
  | IEnsure =>
      Some (if cache_mutexes_init s then []
            else map IMutexInit all_locks ++ [IZeroStats; IAuditInit; IFlag], l, s, [])
  | IMutexInit lk => Some ([], l, mutex_init lk s, [])
  | IZeroStats => Some ([], l, set_stats (λ _, ∅) s, [])
  | IAuditInit => Some ([], l, set_audit set_log_init s, [])
  | IFlag => Some ([], l, set_flag s, [])
  | ITry lk =>
      match held_by s !! lk with
      | None => Some ([ILoad lk Acquisitions], l, mutex_lock i lk s, [])
      | Some _ => Some ([ILoad lk Contentions; ILoad lk Acquisitions; ILock lk], l, s, [])
      end
  | ILoad lk f => Some ([IStore lk f (u64 (get_field f (stat_of s lk) + 1))], l, s, [])
  | IStore lk f v => Some ([], l, set_stats (insert lk (put_field f v (stat_of s lk))) s, [])
  | ILock lk =>
      match held_by s !! lk with
      | None => Some ([], l, mutex_lock i lk s, [])
      | Some _ => None
      end
  | IUnlock lk => Some ([], l, mutex_unlock lk s, [])
  | IStoreWeak ptr o => Some ([], set_hash (<[ptr := Some o]> (hash l)) l, s, [])
  | IDelete ptr => Some ([], set_hash (delete ptr (hash l)) l, s, [])
  | IFetch ptr =>
      match hash l !! ptr with
      | Some (Some o) => Some ([ILog EvHit ptr], l, s, [AGet (Some o)])
      | Some None => Some ([IDelete ptr; ILog EvMiss ptr], l, s, [AGet None])
      | None => Some ([ILog EvMiss ptr], l, s, [AGet None])
      end
  | IExists ptr =>
      Some (match hash l !! ptr with Some _ => [IDelete ptr; ILog EvDelete ptr] | None => [] end, l, s, [])
  | IPush ptr => Some ([], set_queue (queue l ++ [ptr]) l, s, [])
  | IEvict =>
      match queue l with
      | oldest :: q =>
          if capacity l <? Z.of_nat (length (queue l)) then Some (evict_turn oldest, set_queue q l, s, [])
          else Some ([], l, s, [])
      | [] => Some ([], l, s, [])
      end
  | ICapacity c => Some ([], set_capacity c l, s, [])
  | IEmpty => Some ([], set_queue [] (set_hash ∅ l), s, [])
  | IDeath o =>
      Some ([], set_hash ((λ w : option Z, if decide (w = Some o) then None else w) <$> hash l) l, s, [])
  | INull => Some ([], l, s, [AGet None])
  | ILog ty ptr => Some (if log_init (audit s) then [IAudit (AEvent ty ptr)] else [], l, s, [])
  | IAudit a =>
      match held_by s !! AuditMutex with
      | None => Some (section_of a ++ [IUnlock AuditMutex], l, mutex_lock i AuditMutex s, [])
      | Some _ => None
      end
  | LogSlot ty ptr =>
      let idx := slot (audit s) in
      Some ([LogAdvance; LogType idx ty; LogPtr idx ptr; LogTime idx ty ptr], l, s, [])
  | LogAdvance => Some ([], l, set_audit advance s, [])
  | LogType idx ty => Some ([], l, set_audit (on_entry (set_type ty) idx) s, [])
  | LogPtr idx ptr => Some ([], l, set_audit (on_entry (set_ptr ptr) idx) s, [])
  | LogTime idx _ _ => Some ([], l, set_audit (on_entry (set_time now) idx) s, [])
  | LogHead => Some ([], l, set_audit (set_head 0) s, [])
  | LogCount => Some ([], l, set_audit (set_count 0) s, [])
  | LogRead n acc =>
      if (n <? count (audit s))%nat then
        match entries (audit s) !! ((head (audit s) + n) mod AUDIT_LOG_SIZE)%nat with
        | Some e => Some ([LogRead (S n) (acc ++ [e])], l, s, [])
        | None => Some ([], l, s, [ALog acc])
        end
      else Some ([], l, s, [ALog acc])
  end.

(** ** The process *)

Record thread := { todo : list call; code : list instr; loc : local; outs : list answer }.
Record process := { thr : list thread; sh : shared }.

Definition tstep (i : nat) (now : Z) (p : process) : option process :=
  match thr p !! i with
  | None => None
  | Some th =>
      match code th, todo th with
      | x :: k, _ =>
          match exec i now x (loc th) (sh p) with
          | Some (q, l, s, a) =>
              Some {| thr := <[i := {| todo := todo th; code := q ++ k; loc := l; outs := outs th ++ a |}]> (thr p); sh := s |}
          | None => None
          end
      | [], c :: cs =>
          Some {| thr := <[i := {| todo := cs; code := body c; loc := loc th; outs := outs th |}]> (thr p); sh := sh p |}
      | [], [] => None
      end
  end.

Inductive pstep : process → process → Prop :=
  | pstep_thread i now p p' : tstep i now p = Some p' → pstep p p'.

Definition thread_done (th : thread) : Prop := todo th = [] ∧ code th = [].
Definition all_done (p : process) : Prop := Forall thread_done (thr p).

(** A thread is an interpreter with an empty cache and the calls it will make. *)
Definition launch (c : Z * list call) : thread :=
  {| todo := c.2; code := []; loc := local_of (ObjCache_Init c.1); outs := [] |}.
Definition boot (s : shared) (css : list (Z * list call)) : process :=
  {| thr := map launch css; sh := s |}.

(** The static variables before the first call of the process, and after
    [PerlUpb_ObjCache_Init] in the thread that loaded the module. *)
Definition fresh : shared :=
  {| held_by := ∅; ready := ∅; audit := empty_log false; contention_stats := ∅;
     cache_mutexes_init := false; undefined := false |}.
Definition loaded : shared :=
  {| held_by := ∅; ready := list_to_set all_locks; audit := empty_log true; contention_stats := ∅;
     cache_mutexes_init := true; undefined := false |}.

Fixpoint run_schedule (sched : list nat) (p : process) : option process :=
  match sched with
  | [] => Some p
  | i :: sched => match tstep i 0 p with Some p => run_schedule sched p | None => None end
  end.

(** ** One thread alone *)

(** A call with [ObjCache]'s functions, and what it tells the ring and answers. *)
Definition run_call (st : state) (c : call) : state :=
  match c with
  | CInit | CGetAuditLog => st
  | CAdd ptr obj => ObjCache_Add st ptr obj
  | CGet ptr => (ObjCache_Get st ptr).2
  | CDelete ptr => ObjCache_Delete st ptr
  | CSetCapacity c => ObjCache_SetCapacity st c
  | CClear dirty => ObjCache_Clear dirty st
  | CDeath o => perl_death st o
  end.
Definition run_calls (st : state) (cs : list call) : state := fold_left run_call cs st.

Inductive uev := ULog (ty : event) (ptr : Z) | UClear | URead.

Definition evicted (st : state) (ptr : Z) : list Z :=
  take (overflow (max_cache_capacity st) (lru st ++ [ptr])) (lru st ++ [ptr]).

Definition call_events (st : state) (c : call) : list uev :=
  match c with
  | CInit | CSetCapacity _ | CDeath _ | CAdd _ None => []
  | CAdd ptr (Some _) => if ptr =? 0 then [] else ULog EvAdd ptr :: map (ULog EvEvict) (evicted st ptr)
  | CGet ptr =>
      if ptr =? 0 then []
      else [ULog (match cache st !! ptr with Some (Some _) => EvHit | _ => EvMiss end) ptr]
  | CDelete ptr =>
      if ptr =? 0 then [] else match cache st !! ptr with Some _ => [ULog EvDelete ptr] | None => [] end
  | CClear _ => [UClear]
  | CGetAuditLog => [URead]
  end.
Definition call_gets (st : state) (c : call) : list (option Z) :=
  match c with CGet ptr => [(ObjCache_Get st ptr).1] | _ => [] end.

(** Of a whole list of calls. *)
Fixpoint alone {A} (f : state → call → list A) (st : state) (cs : list call) : list A :=
  match cs with [] => [] | c :: cs => f st c ++ alone f (run_call st c) cs end.

(** The events are those the functions of [ObjCache] log. *)
Definition log_uev (now : Z) (l : audit_log) (u : uev) : audit_log :=
  match u with ULog ty ptr => LogEvent l ty ptr now | UClear => set_count 0 (set_head 0 l) | URead => l end.

Lemma evict_loop_log q : ∀ st, log (evict_loop st q) =
  fold_left (log_uev (clock st)) (map (ULog EvEvict) (take (overflow (max_cache_capacity st) q) q)) (log st).
Proof.
  induction q as [|y q IH]; intros st; [done|]. cbn [evict_loop]. case_match; bool_to_prop.
  - rewrite IH. cbn [length] in *. unfold overflow. cbn [max_cache_capacity logged set_cache lock_stripe length].
    rewrite Nat.sub_succ_l by lia. done.
  - unfold overflow. replace (length (y :: q) - Z.to_nat (max_cache_capacity st))%nat with 0%nat by lia. done.
Qed.

Lemma call_events_logged st c : log (run_call st c) = fold_left (log_uev (clock st)) (call_events st c) (log st).
Proof.
  destruct c as [|ptr [o|]|ptr|ptr|c|dirty| |o]; try done.
  - cbn. unfold ObjCache_Add. destruct (ptr =? 0); [done|]. by rewrite evict_loop_log.
  - cbn. unfold ObjCache_Get. destruct (ptr =? 0); [done|]. cbn. by destruct (cache st !! ptr) as [[]|].
  - cbn. unfold ObjCache_Delete. destruct (ptr =? 0); [done|]. cbn. by destruct (cache st !! ptr).
Qed.

(** *** What is left of a call, whatever the others do *)

Inductive tev := TAcq (l : lock) | TRel (l : lock) | TEv (u : uev) | TGet (o : option Z).

Definition crossed (body : list tev) (lk : lock) : list tev := TAcq lk :: body ++ [TRel lk].

Definition section_effect (a : critical) : list tev :=
  match a with AEvent ty ptr => [TEv (ULog ty ptr)] | AReset => [TEv UClear] | ARead => [TEv URead] end.

Definition logged_event (ty : event) (ptr : Z) : list tev := crossed [TEv (ULog ty ptr)] AuditMutex.

Fixpoint evict_effect (q : list Z) (l : local) : list tev * local :=
  match q with
  | [] => ([], set_queue [] l)
  | oldest :: q' =>
      if capacity l <? Z.of_nat (length q) then
        let '(t, l') := evict_effect q' (set_hash (delete oldest (hash l)) l) in
        (crossed (logged_event EvEvict oldest) (stripe_lock oldest) ++ t, l')
      else ([], set_queue q l)
  end.

Definition effect (x : instr) (l : local) : list tev * local :=
  match x with
  | ITry lk | ILock lk => ([TAcq lk], l)
  | IUnlock lk => ([TRel lk], l)
  | IStoreWeak ptr o => ([], set_hash (<[ptr := Some o]> (hash l)) l)
  | IDelete ptr => ([], set_hash (delete ptr (hash l)) l)
  | IFetch ptr =>
      match hash l !! ptr with
      | Some (Some o) => (TGet (Some o) :: logged_event EvHit ptr, l)
      | Some None => (TGet None :: logged_event EvMiss ptr, set_hash (delete ptr (hash l)) l)
      | None => (TGet None :: logged_event EvMiss ptr, l)
      end
  | IExists ptr =>
      match hash l !! ptr with
      | Some _ => (logged_event EvDelete ptr, set_hash (delete ptr (hash l)) l)
      | None => ([], l)
      end
  | IPush ptr => ([], set_queue (queue l ++ [ptr]) l)
  | IEvict => evict_effect (queue l) l
  | ICapacity c => ([], set_capacity c l)
  | IEmpty => ([], set_queue [] (set_hash ∅ l))
  | IDeath o => ([], set_hash ((λ w : option Z, if decide (w = Some o) then None else w) <$> hash l) l)
  | INull => ([TGet None], l)
  | ILog ty ptr => (logged_event ty ptr, l)
  | IAudit a => (crossed (section_effect a) AuditMutex, l)
  | LogSlot ty ptr | LogTime _ ty ptr => ([TEv (ULog ty ptr)], l)
  | LogCount => ([TEv UClear], l)
  | LogRead _ _ => ([TEv URead], l)
  | _ => ([], l)
  end.

Definition seq_effect (f : local → list tev * local) (r : list tev * local) : list tev * local :=
  let '(t, l) := r in let '(t', l') := f l in (t ++ t', l').

Fixpoint behave (p : list instr) (l : local) : list tev * local :=
  match p with [] => ([], l) | x :: p => seq_effect (behave p) (effect x l) end.

Lemma seq_effect_eq f t l : seq_effect f (t, l) = (t ++ (f l).1, (f l).2).
Proof. unfold seq_effect. by destruct (f l). Qed.

Lemma behave_cons x p l : behave (x :: p) l = ((effect x l).1 ++ (behave p (effect x l).2).1, (behave p (effect x l).2).2).
Proof. cbn [behave]. destruct (effect x l). by rewrite seq_effect_eq. Qed.

Lemma behave_app p q l : behave (p ++ q) l = ((behave p l).1 ++ (behave q (behave p l).2).1, (behave q (behave p l).2).2).
Proof.
  revert l. induction p as [|x p IH]; intros l; [simpl; by destruct (behave q l)|].
  cbn [app]. rewrite !behave_cons, IH. cbn. by rewrite app_assoc.
Qed.

Definition events (t : list tev) : list uev := omap (λ e, match e with TEv u => Some u | _ => None end) t.
Definition gets (t : list tev) : list (option Z) := omap (λ e, match e with TGet o => Some o | _ => None end) t.
Definition locks (t : list tev) : list action :=
  omap (λ e, match e with TAcq l => Some (ObjCache.Acquire l) | TRel l => Some (ObjCache.Release l) | _ => None end) t.

Lemma evict_effect_spec q : ∀ st l, local_of st = set_queue (lru st) l →
  (evict_effect q l).2 = local_of (evict_loop st q) ∧
  events (evict_effect q l).1 = map (ULog EvEvict) (take (overflow (max_cache_capacity st) q) q) ∧
  gets (evict_effect q l).1 = [].
Proof.
  induction q as [|y q IH]; intros st [h qu c]; cbn; intros [= <- <-]; [done|].
  case_match; bool_to_prop.
  - specialize (IH (logged (set_cache (lock_stripe st (get_stripe y)) (delete y (cache st))) EvEvict y)
      {| hash := delete y (cache st); queue := qu; capacity := max_cache_capacity st |} eq_refl).
    unfold set_hash. cbn [hash queue capacity]. destruct (evict_effect q _) as [t l']. cbn in IH |- *. destruct IH as (-> & E & Eg).
    rewrite E, Eg. split_and!; [done| |done].
    unfold overflow. cbn [length]. rewrite Nat.sub_succ_l by (cbn [length] in *; lia). done.
  - split_and!; [done| |done]. replace (S (length q) - Z.to_nat (max_cache_capacity st))%nat with 0%nat by lia. done.
Qed.

(** A call does to the containers what [ObjCache] says. *)
Lemma body_alone st c : let r := behave (body c) (local_of st) in
  r.2 = local_of (run_call st c) ∧ events r.1 = call_events st c ∧ gets r.1 = call_gets st c.
Proof.
  destruct c as [|ptr [o|]|ptr|ptr|c|dirty| |o]; try done.
  - cbn. unfold ObjCache_Add. destruct (ptr =? 0); [done|].
    cbn [Add_code behave effect seq_effect set_queue set_hash queue hash capacity local_of].
    set (st' := lock_lru (logged (set_cache (lock_stripe st (get_stripe ptr)) (<[ptr := Some o]> (cache st))) EvAdd ptr)).
    destruct (evict_effect_spec (lru st ++ [ptr]) st'
      {| hash := <[ptr := Some o]> (cache st); queue := lru st ++ [ptr]; capacity := max_cache_capacity st |} eq_refl)
      as (E1 & E2 & E3).
    destruct (evict_effect _ _) as [t l']. cbn in *. subst l'. split; [done|].
    unfold events, gets in *. rewrite !omap_app, E2, E3. cbn. by rewrite app_nil_r.
  - cbn. unfold ObjCache_Get. destruct (ptr =? 0); [done|]. cbn. by destruct (cache st !! ptr) as [[]|].
  - cbn. unfold ObjCache_Delete. destruct (ptr =? 0); [done|]. cbn. by destruct (cache st !! ptr).
  - by destruct dirty.
Qed.

Definition plan (cs : list call) : list instr := flat_map body cs.

Lemma plan_alone cs : ∀ st, let r := behave (plan cs) (local_of st) in
  r.2 = local_of (run_calls st cs) ∧ events r.1 = alone call_events st cs ∧ gets r.1 = alone call_gets st cs.
Proof.
  induction cs as [|c cs IH]; intros st; [done|]. cbn [plan flat_map]. fold (plan cs).
  rewrite behave_app. destruct (body_alone st c) as (E1 & E2 & E3). rewrite E1.
  destruct (IH (run_call st c)) as (F1 & F2 & F3). cbn [fst snd]. split; [done|].
  unfold events, gets in *. rewrite !omap_app, E2, E3, F2, F3. done.
Qed.

(** ** One access *)

(** What an access of thread contributes to [behave]: the rest is left for later ones. *)
Definition emitted (x : instr) (l : local) (s : shared) : list tev :=
  match x with
  | ITry lk => match held_by s !! lk with None => [TAcq lk] | Some _ => [] end
  | ILock lk => [TAcq lk]
  | IUnlock lk => [TRel lk]
  | IFetch ptr => [TGet (default None (hash l !! ptr))]
  | INull => [TGet None]
  | IAudit _ => [TAcq AuditMutex]
  | LogTime _ ty ptr => [TEv (ULog ty ptr)]
  | LogCount => [TEv UClear]
  | LogRead n _ =>
      if decide (n < count (audit s) ∧ is_Some (entries (audit s) !! ((head (audit s) + n) mod AUDIT_LOG_SIZE)))%nat
      then [] else [TEv URead]
  | _ => []
  end.

Definition gets_of (a : list answer) : list (option Z) :=
  omap (λ x, match x with AGet o => Some o | _ => None end) a.
Definition logs_of (a : list answer) : list (list audit_entry) :=
  omap (λ x, match x with ALog es => Some es | _ => None end) a.

Definition initialising (x : instr) : bool :=
  match x with IMutexInit _ | IZeroStats | IAuditInit | IFlag => true | _ => false end.

(** The process is set up: nothing resets the mutexes any more. *)
Definition set_up (s : shared) : Prop := cache_mutexes_init s = true ∧ log_init (audit s) = true.

Lemma evict_effect_queue q r : ∀ l, evict_effect q (set_queue r l) = evict_effect q l.
Proof.
  induction q as [|y q IH]; intros l; [done|]. cbn. case_match; [|done]. by rewrite <- (IH (set_hash _ l)).
Qed.

Lemma exec_emits i now x l s q l' s' a k : set_up s → initialising x = false → exec i now x l s = Some (q, l', s', a) →
  behave (x :: k) l = (emitted x l s ++ (behave (q ++ k) l').1, (behave (q ++ k) l').2) ∧
  gets (emitted x l s) = gets_of a ∧ set_up s'.
Proof.
  intros [Hf Hi] Hx E. rewrite behave_cons, behave_app.
  destruct x; cbn in Hx; unfold exec in E; cbv zeta in E; try done;
    try (injection E as <- <- <- <-; repeat split; first [done | by rewrite ?Hf, ?Hi | unfold set_audit, advance; by destruct (count (audit s) =? AUDIT_LOG_SIZE)%nat]).
  - destruct (held_by s !! l0) eqn:Eh; injection E as <- <- <- <-; unfold emitted; rewrite Eh; done.
  - destruct (held_by s !! l0) eqn:Eh; [done|]. by injection E as <- <- <- <-.
  - destruct (hash l !! ptr) as [[o|]|] eqn:Eh; injection E as <- <- <- <-; unfold emitted, effect; rewrite Eh; done.
  - injection E as <- <- <- <-. unfold effect. by destruct (hash l !! ptr).
  - cbn [effect emitted]. destruct (queue l) as [|y q0] eqn:Eq; cbn [evict_effect].
    + injection E as <- <- <- <-. destruct l; cbn in Eq; by subst.
    + destruct (capacity l <? Z.of_nat (length (y :: q0))); injection E as <- <- <- <-.
      * rewrite <- (evict_effect_queue q0 q0). cbn.
        change (set_hash (delete y (hash l)) (set_queue q0 l)) with (set_queue q0 (set_hash (delete y (hash l)) l)).
        destruct (evict_effect q0 _) as [t l1]. cbn. by rewrite app_nil_r.
      * destruct l; cbn in Eq; by subst.
  - destruct (held_by s !! AuditMutex) eqn:Eh; [done|]. injection E as <- <- <- <-. by destruct a0.
  - unfold emitted. destruct (Nat.ltb_spec n (count (audit s))).
    + destruct (entries (audit s) !! _) eqn:Ee; injection E as <- <- <- <-.
      * rewrite decide_True by eauto. done.
      * rewrite decide_False by (intros [_ [? ?]]; congruence). done.
    + injection E as <- <- <- <-. rewrite decide_False by lia. done.
Qed.

Lemma exec_locks i now x l s q l' s' a : initialising x = false → exec i now x l s = Some (q, l', s', a) →
  match locks (emitted x l s) with
  | [] => held_by s' = held_by s
  | [ObjCache.Acquire lk] => held_by s !! lk = None ∧ held_by s' = <[lk := i]> (held_by s)
  | [ObjCache.Release lk] => held_by s' = delete lk (held_by s)
  | _ => False
  end.
Proof.
  intros Hx E. destruct x; cbn in Hx; unfold exec in E; cbv zeta in E; try done; try by injection E as <- <- <- <-.
  all: unfold emitted; repeat (case_match; cbn in *; simplify_eq; try done).
Qed.

(** ** The ring *)

(** The events of the process in the order the ring takes them. *)
Inductive hev := HLog (e : audit_entry) | HClear | HRead.

Definition see (xs : list audit_entry) (e : hev) : list audit_entry :=
  match e with HLog e => keep_last AUDIT_LOG_SIZE (xs ++ [e]) | HClear => [] | HRead => xs end.
Definition window (h : list (nat * hev)) : list audit_entry := fold_left (λ xs e, see xs e.2) h [].

(** What thread [i] does to the ring, and what it reads there. *)
Definition of_thread (i : nat) (h : list (nat * hev)) : list hev :=
  omap (λ e, if decide (e.1 = i) then Some e.2 else None) h.
Fixpoint reads (i : nat) (xs : list audit_entry) (h : list (nat * hev)) : list (list audit_entry) :=
  match h with
  | [] => []
  | (j, e) :: h =>
      match e with HRead => if decide (j = i) then [xs] else [] | _ => [] end ++ reads i (see xs e) h
  end.
Definition untimed (e : hev) : uev :=
  match e with HLog (ty, ptr, _) => ULog ty ptr | HClear => UClear | HRead => URead end.

Lemma window_snoc h i e : window (h ++ [(i, e)]) = see (window h) e.
Proof. unfold window. by rewrite fold_left_app. Qed.

Lemma of_thread_snoc i j h e : of_thread i (h ++ [(j, e)]) = of_thread i h ++ if decide (j = i) then [e] else [].
Proof. unfold of_thread. rewrite omap_app. cbn. by destruct (decide (j = i)). Qed.

Lemma reads_snoc i h j e : ∀ xs, reads i xs (h ++ [(j, e)]) = reads i xs h ++
  match e with HRead => if decide (j = i) then [fold_left (λ xs e, see xs e.2) h xs] else [] | _ => [] end.
Proof.
  induction h as [|[j' e'] h IH]; intros xs; cbn; [by rewrite app_nil_r|]. by rewrite IH, app_assoc.
Qed.

Lemma ring_reset l xs : ring l xs → ring (set_count 0 (set_head 0 l)) [].
Proof. intros []. split; cbn; try done; lia. Qed.

Lemma slot_lt l xs : ring l xs → (slot l < length (entries l))%nat.
Proof. intros Hr. rewrite (ring_size _ _ Hr). apply Nat.mod_upper_bound. pose proof audit_size_pos. lia. Qed.

(** The accesses of [LogEvent] together. *)
Lemma log_in_steps l xs ty ptr now : ring l xs →
  on_entry (set_time now) (slot l) (on_entry (set_ptr ptr) (slot l) (on_entry (set_type ty) (slot l) (advance l))) =
  LogEvent l ty ptr now.
Proof.
  intros Hr. pose proof (slot_lt _ _ Hr) as Hs. unfold LogEvent. rewrite (ring_init _ _ Hr). cbn [negb].
  fold (slot l). destruct (lookup_lt_is_Some_2 _ _ Hs) as [[[ty0 p0] t0] E].
  assert (entries (advance l) = entries l) as Ee by (unfold advance; by case_match).
  unfold on_entry. cbn [entries head count log_init]. rewrite Ee.
  replace (alter (set_time now) (slot l) (alter (set_ptr ptr) (slot l) (alter (set_type ty) (slot l) (entries l))))
    with (<[slot l := (ty, ptr, now)]> (entries l)); [unfold advance; destruct (count l =? AUDIT_LOG_SIZE)%nat; cbn [head count log_init]; by rewrite (ring_init _ _ Hr)|].
  apply list_eq. intros k. destruct (decide (k = slot l)) as [->|Hk].
  - rewrite list_lookup_insert_eq by done. by rewrite !list_lookup_alter_eq, E.
  - by rewrite list_lookup_insert_ne, !list_lookup_alter_ne by done.
Qed.

(** Inside a section: what the ring was ([base]), what it is now, what is left to do. *)
Inductive phase (base : audit_log) (xs : list audit_entry) : audit_log → list instr → Prop :=
  | phase_over : phase base xs base []
  | phase_slot ty ptr : phase base xs base [LogSlot ty ptr]
  | phase_advance ty ptr : let i := slot base in
      phase base xs base [LogAdvance; LogType i ty; LogPtr i ptr; LogTime i ty ptr]
  | phase_type ty ptr : let i := slot base in
      phase base xs (advance base) [LogType i ty; LogPtr i ptr; LogTime i ty ptr]
  | phase_ptr ty ptr : let i := slot base in
      phase base xs (on_entry (set_type ty) i (advance base)) [LogPtr i ptr; LogTime i ty ptr]
  | phase_time ty ptr : let i := slot base in
      phase base xs (on_entry (set_ptr ptr) i (on_entry (set_type ty) i (advance base))) [LogTime i ty ptr]
  | phase_head : phase base xs base [LogHead; LogCount]
  | phase_count : phase base xs (set_head 0 base) [LogCount]
  | phase_read n : (n ≤ length xs)%nat → phase base xs base [LogRead n (take n xs)].

Lemma phase_section base xs a : phase base xs base (section_of a).
Proof. destruct a; [constructor..|]. apply (phase_read base xs 0). lia. Qed.

(** An access inside a section: the section goes on, or the ring took one event. *)
Lemma phase_step base xs i now x ph l s q l' s' a : ring base xs → phase base xs (audit s) (x :: ph) →
  exec i now x l s = Some (q, l', s', a) → l' = l ∧ held_by s' = held_by s ∧ emitted x l s = map TEv (events (emitted x l s)) ∧
  ((events (emitted x l s) = [] ∧ a = [] ∧ phase base xs (audit s') (q ++ ph)) ∨
   ∃ e base', events (emitted x l s) = [untimed e] ∧ a = match e with HRead => [ALog xs] | _ => [] end ∧
     ring base' (see xs e) ∧ phase base' (see xs e) (audit s') (q ++ ph)).
Proof.
  intros Hr Hp E. remember (audit s) as al eqn:E1 in Hp. remember (x :: ph) as c eqn:Ec.
  destruct Hp as [|ty ptr|ty ptr|ty ptr|ty ptr|ty ptr| | |n Hn]; [done|injection Ec as <- <-; unfold exec in E; cbv zeta in E..].
  - injection E as <- <- <- <-. split_and!; try done. left. rewrite <- E1. repeat constructor.
  - injection E as <- <- <- <-. split_and!; try done. left. cbn. rewrite <- E1. repeat constructor.
  - injection E as <- <- <- <-. split_and!; try done. left. cbn. rewrite <- E1. repeat constructor.
  - injection E as <- <- <- <-. split_and!; try done. left. cbn. rewrite <- E1. repeat constructor.
  - injection E as <- <- <- <-. split_and!; try done. right. exists (HLog (ty, ptr, now)), (LogEvent base ty ptr now).
    cbn. rewrite <- E1, (log_in_steps _ _ _ _ _ Hr). split_and!; try done; [|constructor]. by apply ring_LogEvent.
  - injection E as <- <- <- <-. split_and!; try done. left. cbn. rewrite <- E1. repeat constructor.
  - injection E as <- <- <- <-. split_and!; try done. right. exists HClear, (set_count 0 (set_head 0 base)).
    cbn. rewrite <- E1. split_and!; try done; [|constructor]. by eapply ring_reset.
  - pose proof (ring_count _ _ Hr) as Hc. unfold emitted. rewrite <- E1 in *.
    destruct (Nat.ltb_spec n (count base)) as [Hlt|Hge].
    + pose proof (ring_at _ _ Hr n Hlt) as Hat. destruct (xs !! n) as [e|] eqn:Ex.
      2: { apply lookup_ge_None in Ex. lia. }
      rewrite Hat in E |- *. injection E as <- <- <- <-. rewrite decide_True by eauto. split_and!; try done. left.
      split_and!; try done. rewrite <- E1, <- (take_S_r _ _ _ Ex). apply phase_read. lia.
    + injection E as <- <- <- <-. rewrite decide_False by lia. split_and!; try done. right. exists HRead, base.
      cbn. rewrite take_ge by lia. rewrite <- E1. split_and!; try done. constructor.
Qed.

(** ** Code outside sections *)

Definition data_locks : list lock := all_stripes ++ [LruMutex].

Definition plain (x : instr) : Prop :=
  match x with
  | IMutexInit _ | IZeroStats | IAuditInit | IFlag => False
  | LogSlot _ _ | LogAdvance | LogType _ _ | LogPtr _ _ | LogTime _ _ _ | LogHead | LogCount | LogRead _ _ => False
  | ITry lk | ILock lk | IUnlock lk => lk ∈ data_locks
  | _ => True
  end.

Lemma stripe_lock_data ptr : stripe_lock ptr ∈ data_locks.
Proof.
  apply elem_of_app. left. unfold all_stripes. apply list_elem_of_In, in_map_iff.
  pose proof (get_stripe_range ptr). exists (Z.to_nat (get_stripe ptr)). split.
  - by rewrite Z2Nat.id by lia.
  - apply list_elem_of_In, elem_of_seq. lia.
Qed.

Lemma lru_data : LruMutex ∈ data_locks.
Proof. apply elem_of_app. right. by apply list_elem_of_singleton. Qed.

Lemma audit_not_data lk : lk ∈ data_locks → lk ≠ AuditMutex.
Proof.
  intros H ->. apply elem_of_app in H as [H|H%list_elem_of_singleton]; [|done].
  apply list_elem_of_In, in_map_iff in H as (? & ? & _). done.
Qed.

#[local] Hint Resolve stripe_lock_data lru_data : core.

Lemma plain_locks (f : lock → instr) ls : (∀ l, l ∈ data_locks → plain (f l)) → (∀ l, l ∈ ls → l ∈ data_locks) →
  Forall plain (map f ls).
Proof. intros Hf Hl. apply Forall_fmap, Forall_forall. intros l Hin. by apply Hf, Hl. Qed.

Lemma body_plain c : Forall plain (body c).
Proof.
  assert (∀ l, l ∈ all_stripes → l ∈ data_locks) as Hs by (intros l Hl; apply elem_of_app; by left).
  destruct c as [|ptr [o|]|ptr|ptr|c|dirty| |o]; cbn [body].
  7: { unfold Clear_code. apply Forall_cons_2; [exact I|]. apply Forall_app_2; [by apply plain_locks|]. apply Forall_app_2; [by repeat constructor|].
    apply Forall_app_2; [destruct dirty; by repeat constructor|]. apply Forall_app_2; [by repeat constructor|].
    apply plain_locks; [done|]. intros l Hl. by apply Hs, list_elem_of_In, in_rev, list_elem_of_In. }
  all: repeat case_match; unfold Init_code, Add_code, Get_code, Delete_code, SetCapacity_code, GetAuditLog_code.
  all: repeat (constructor; cbn; auto).
Qed.

#[local] Ltac plains :=
  repeat (apply Forall_cons_2; [first [exact I | assumption | apply stripe_lock_data]|]); apply Forall_nil_2.

Lemma plain_step i now x l s q l' s' a : plain x → set_up s → exec i now x l s = Some (q, l', s', a) →
  audit s' = audit s ∧ events (emitted x l s) = [] ∧ logs_of a = [] ∧
  (Forall plain q ∧ held_by s' !! AuditMutex = held_by s !! AuditMutex ∨
   ∃ c, q = section_of c ++ [IUnlock AuditMutex] ∧ held_by s !! AuditMutex = None ∧ held_by s' !! AuditMutex = Some i).
Proof.
  intros Hx [Hf Hi] E. destruct x; cbn [plain] in Hx; unfold exec in E; cbv zeta in E; try done.
  all: try (injection E as <- <- <- <-; split_and!; try done; left; rewrite ?Hf, ?Hi; split; [plains|done]).
  - destruct (held_by s !! l0) eqn:Eh; injection E as <- <- <- <-; unfold emitted; rewrite Eh; split_and!; try done; left.
    + split; [plains|done].
    + split; [plains|]. cbn. by rewrite lookup_insert_ne by (by apply audit_not_data).
  - destruct (held_by s !! l0) eqn:Eh; [done|]. injection E as <- <- <- <-. split_and!; try done. left.
    split; [plains|]. cbn. by rewrite lookup_insert_ne by (by apply audit_not_data).
  - injection E as <- <- <- <-. split_and!; try done. left.
    split; [plains|]. cbn. by rewrite lookup_delete_ne by (by apply audit_not_data).
  - destruct (hash l !! ptr) as [[o|]|] eqn:Eh; injection E as <- <- <- <-; split_and!; try done; left; (split; [plains|done]).
  - injection E as <- <- <- <-. split_and!; try done. left. split; [|done]. destruct (hash l !! ptr); plains.
  - destruct (queue l); [|destruct (capacity l <? _)]; injection E as <- <- <- <-; split_and!; try done; left;
      (split; [|done]); plains.
  - destruct (held_by s !! AuditMutex) eqn:Eh; [done|]. injection E as <- <- <- <-. split_and!; try done. right.
    eexists. split; [reflexivity|]. split; [done|]. cbn. apply lookup_insert_eq.
Qed.

(** What runs after the set-up: the mutexes it locks were initialised. *)
Definition usable (x : instr) : Prop :=
  match x with ITry lk | ILock lk => lk ∈ all_locks | _ => initialising x = false end.

Lemma usable_running x : usable x → initialising x = false.
Proof. by destruct x. Qed.

Lemma plain_usable x : plain x → usable x.
Proof.
  assert (∀ lk, lk ∈ data_locks → lk ∈ all_locks) as Hd.
  { intros lk H. unfold all_locks, data_locks in *. rewrite elem_of_app in *. set_solver. }
  destruct x; cbn [plain usable initialising]; auto; done.
Qed.

(** No use of a mutex is undefined. *)
Definition defined (s : shared) : Prop := ready s = list_to_set all_locks ∧ undefined s = false.

Lemma exec_defined i now x l s q l' s' a : usable x → defined s → exec i now x l s = Some (q, l', s', a) → defined s'.
Proof.
  intros Hx [Hr Hd] E.
  assert (∀ lk, lk ∈ all_locks → defined (mutex_lock i lk s)) as Hlock.
  { intros lk Hin. split; [done|]. cbn. rewrite Hd, Hr, bool_decide_eq_true_2; [done|]. by apply elem_of_list_to_set. }
  assert (AuditMutex ∈ all_locks) as Ha by (unfold all_locks; rewrite elem_of_app; set_solver).
  destruct x; cbn [usable initialising] in Hx; unfold exec in E; cbv zeta in E; try done;
    first [by injection E as <- <- <- <-
          | destruct (held_by s !! _); simplify_eq; eauto; done
          | repeat case_match; simplify_eq; done].
Qed.

(** ** Every schedule is a sequence of events *)

Definition rest (th : thread) : list tev * local := behave (code th ++ plan (todo th)) (loc th).

(** What thread [i] did and has left makes up its calls one after the other. *)
Definition accounted (h : list (nat * hev)) (i : nat) (c : Z * list call) (th : thread) : Prop :=
  let st := ObjCache_Init c.1 in
  (rest th).2 = local_of (run_calls st c.2) ∧
  map untimed (of_thread i h) ++ events (rest th).1 = alone call_events st c.2 ∧
  gets_of (outs th) ++ gets (rest th).1 = alone call_gets st c.2 ∧
  logs_of (outs th) = reads i [] h.

(** Who is in a section of the ring. *)
Definition in_section (h : list (nat * hev)) (p : process) : Prop :=
  (∀ i th, thr p !! i = Some th → held_by (sh p) !! AuditMutex ≠ Some i → Forall plain (code th)) ∧
  match held_by (sh p) !! AuditMutex with
  | None => ring (audit (sh p)) (window h)
  | Some j => ∃ th base ph k, thr p !! j = Some th ∧ code th = ph ++ IUnlock AuditMutex :: k ∧ Forall plain k ∧
      ring base (window h) ∧ phase base (window h) (audit (sh p)) ph
  end.

Record recorded (css : list (Z * list call)) (h : list (nat * hev)) (p : process) : Prop := {
  r_set_up : set_up (sh p);
  r_defined : defined (sh p);
  r_length : length (thr p) = length css;
  r_threads : ∀ i c th, css !! i = Some c → thr p !! i = Some th → accounted h i c th;
  r_section : in_section h p }.

(** At most one event is added by a step, and only its thread's account changes. *)
Definition added (i : nat) (e : option hev) : list (nat * hev) := match e with Some e => [(i, e)] | None => [] end.

Lemma accounted_other h i j e c th : i ≠ j → accounted h j c th → accounted (h ++ added i e) j c th.
Proof.
  intros Hij (H1 & H2 & H3 & H4). destruct e as [e|]; [|by rewrite app_nil_r].
  unfold accounted. cbn [added].
  rewrite of_thread_snoc, reads_snoc, decide_False, !app_nil_r by done. repeat split; try done.
  rewrite H4, decide_False by done. destruct e; by rewrite app_nil_r.
Qed.

Lemma accounted_own h i c th q l a t e :
  accounted h i c th →
  rest th = (t ++ (behave (q ++ plan (todo th)) l).1, (behave (q ++ plan (todo th)) l).2) →
  gets t = gets_of a → events t = map untimed (option_list e) →
  logs_of a = match e with Some HRead => [window h] | _ => [] end →
  accounted (h ++ added i e) i c {| todo := todo th; code := q; loc := l; outs := outs th ++ a |}.
Proof.
  intros (H1 & H2 & H3 & H4) Er Hg He Hl. rewrite Er in *. cbn [fst snd] in *. unfold accounted, rest. cbn [todo code loc outs].
  unfold gets_of, logs_of, events, gets in *. rewrite !omap_app in *. rewrite Hg, He in *.
  assert (map untimed (of_thread i (h ++ added i e)) = map untimed (of_thread i h) ++ (map untimed (option_list e))) as ->.
  { destruct e as [e|]; cbn [added]; [|by rewrite !app_nil_r].
    by rewrite of_thread_snoc, decide_True, map_app. }
  split_and!; [done|by rewrite <- app_assoc|by rewrite <- app_assoc|]. rewrite H4, Hl.
  destruct e as [e|]; cbn [added]; [|by rewrite !app_nil_r].
  rewrite reads_snoc, decide_True by done. done.
Qed.

(** The state of the ring after a step of thread [i]. *)
Lemma section_insert h p i th s' : thr p !! i = Some th →
  (∀ j th', j ≠ i → thr p !! j = Some th' → held_by s' !! AuditMutex ≠ Some j → Forall plain (code th')) →
  ∀ th1, (held_by s' !! AuditMutex ≠ Some i → Forall plain (code th1)) →
  match held_by s' !! AuditMutex with
  | None => ring (audit s') (window h)
  | Some j => ∃ th' base ph k, <[i := th1]> (thr p) !! j = Some th' ∧
      code th' = ph ++ IUnlock AuditMutex :: k ∧ Forall plain k ∧ ring base (window h) ∧ phase base (window h) (audit s') ph
  end → in_section h {| thr := <[i := th1]> (thr p); sh := s' |}.
Proof.
  intros Hi Ho th1 H1 Hs. pose proof (lookup_lt_Some _ _ _ Hi) as Hlt. split; cbn.
  - intros j th' Hj Hne. destruct (decide (j = i)) as [->|Hji].
    + rewrite list_lookup_insert_eq in Hj by done. injection Hj as <-. auto.
    + rewrite list_lookup_insert_ne in Hj by done. eauto.
  - done.
Qed.

(** The section another thread is in stays as it is. *)
Lemma section_other h p i th1 j : j ≠ i →
  (∃ th base ph k, thr p !! j = Some th ∧ code th = ph ++ IUnlock AuditMutex :: k ∧ Forall plain k ∧
    ring base (window h) ∧ phase base (window h) (audit (sh p)) ph) →
  ∃ th base ph k, <[i := th1]> (thr p) !! j = Some th ∧ code th = ph ++ IUnlock AuditMutex :: k ∧ Forall plain k ∧
    ring base (window h) ∧ phase base (window h) (audit (sh p)) ph.
Proof. intros Hji (th & base & ph & k & Hth & Hr). exists th, base, ph, k. by rewrite list_lookup_insert_ne. Qed.

(** An access outside the sections, or one that enters a section. *)
Lemma section_plain h p i now th x k q l' s' a outs' : in_section h p → set_up (sh p) → thr p !! i = Some th →
  code th = x :: k → held_by (sh p) !! AuditMutex ≠ Some i → exec i now x (loc th) (sh p) = Some (q, l', s', a) →
  in_section h {| thr := <[i := {| todo := todo th; code := q ++ k; loc := l'; outs := outs' |}]> (thr p); sh := s' |} ∧
  events (emitted x (loc th) (sh p)) = [] ∧ logs_of a = [].
Proof.
  intros [Hp Hs] Hu Hi Hc Hne E. pose proof (Hp _ _ Hi Hne) as Hpl. rewrite Hc in Hpl. apply Forall_cons in Hpl as [Hx Hk].
  destruct (plain_step _ _ _ _ _ _ _ _ _ Hx Hu E) as (Ea & Ee & El & [[Hq Hh]|(c & -> & Hn & Hh)]); (split; [|done]).
  - apply (section_insert _ _ _ th); [done|rewrite Hh; eauto|intros _; cbn; by apply Forall_app|]. rewrite Hh, Ea.
    destruct (held_by (sh p) !! AuditMutex) as [j|]; [|done]. apply section_other; [congruence|done].
  - apply (section_insert _ _ _ th); [done| |by rewrite Hh|].
    + intros j th' Hji Hj _. apply (Hp j); [done|]. by rewrite Hn.
    + rewrite Hh, Ea. rewrite Hn in Hs. eexists _, (audit (sh p)), (section_of c), k.
      split; [by apply list_lookup_insert_eq, (lookup_lt_Some _ _ _ Hi)|]. cbn. split; [by rewrite <- app_assoc|]. split_and!; [done..|apply phase_section].
Qed.

(** An access inside a section. *)
Lemma section_inside h p i now th x k q l' s' a outs' : in_section h p → thr p !! i = Some th →
  code th = x :: k → held_by (sh p) !! AuditMutex = Some i → exec i now x (loc th) (sh p) = Some (q, l', s', a) →
  ∃ e, in_section (h ++ added i e)
      {| thr := <[i := {| todo := todo th; code := q ++ k; loc := l'; outs := outs' |}]> (thr p); sh := s' |} ∧
    usable x ∧ events (emitted x (loc th) (sh p)) = map untimed (option_list e) ∧
    logs_of a = match e with Some HRead => [window h] | _ => [] end.
Proof.
  intros [Hp Hs] Hi Hc Hh E. rewrite Hh in Hs. destruct Hs as (th' & base & ph & k' & Hj & Ec & Hk & Hr & Hph).
  rewrite Hi in Hj. injection Hj as <-. rewrite Hc in Ec.
  assert (∀ j th', j ≠ i → thr p !! j = Some th' → Forall plain (code th')) as Ho.
  { intros j th' Hji Hj. apply (Hp j th' Hj). rewrite Hh. congruence. }
  destruct ph as [|y ph]; injection Ec as -> ->.
  - injection E as <- <- <- <-. exists None. rewrite app_nil_r. split_and!; try done.
    assert (audit (sh p) = base) as Ea by (by inversion Hph).
    apply (section_insert _ _ _ th); [done|by eauto|done|]. cbn. by rewrite lookup_delete_eq, Ea.
  - destruct (phase_step _ _ _ _ _ _ _ _ _ _ _ _ Hr Hph E) as (-> & Eh & _ & Hcase).
    assert (usable y) as Hy by (inversion Hph; done).
    destruct Hcase as [(Ee & -> & Hph')|(e & base' & Ee & -> & Hr' & Hph')]; [exists None|exists (Some e)];
      rewrite ?app_nil_r; rewrite Ee; split_and!; try done.
    + apply (section_insert _ _ _ th); [done|by eauto|by rewrite Eh|]. rewrite Eh, Hh.
      eexists _, base, (q ++ ph), k'. split; [by apply list_lookup_insert_eq, (lookup_lt_Some _ _ _ Hi)|]. cbn. by rewrite <- app_assoc.
    + cbn [added]. apply (section_insert _ _ _ th); [done|by eauto|by rewrite Eh|].
      rewrite Eh, Hh, window_snoc.
      eexists _, base', (q ++ ph), k'. split; [by apply list_lookup_insert_eq, (lookup_lt_Some _ _ _ Hi)|]. cbn. by rewrite <- app_assoc.
    + by destruct e.
Qed.

Lemma call_step h p i th c cs : in_section h p → thr p !! i = Some th → code th = [] →
  in_section h {| thr := <[i := {| todo := cs; code := body c; loc := loc th; outs := outs th |}]> (thr p); sh := sh p |}.
Proof.
  intros [Hp Hs] Hi Hc. apply (section_insert _ _ _ th); [done|by eauto|intros _; apply body_plain|].
  destruct (held_by (sh p) !! AuditMutex) as [j|]; [|done]. destruct (decide (j = i)) as [->|]; [|by apply section_other].
  destruct Hs as (th' & base & ph & k & Hj & Ec & _). rewrite Hi in Hj. injection Hj as <-. rewrite Hc in Ec. by destruct ph.
Qed.

Lemma recorded_step css h p p' : recorded css h p → pstep p p' → ∃ h', recorded css h' p'.
Proof.
  intros [Hu Hd Hl Ht Hs] Hst. inversion Hst as [i now p0 p1 E]; subst p0 p1. unfold tstep in E. destruct (thr _ !! i) as [th|] eqn:Hi; [|done].
  pose proof (lookup_lt_Some _ _ _ Hi) as Hlt.
  destruct (code th) as [|x k] eqn:Hc.
  - destruct (todo th) as [|c cs] eqn:Htodo; [done|]. injection E as <-. exists h. split; cbn; [done|done|by rewrite length_insert| |].
    + intros j cj th' Hj Hj'. destruct (decide (j = i)) as [->|Hji].
      * rewrite list_lookup_insert_eq in Hj' by done. injection Hj' as <-.
        specialize (Ht _ _ _ Hj Hi). unfold accounted, rest in *. by rewrite Hc, Htodo in Ht.
      * rewrite list_lookup_insert_ne in Hj' by done. eauto.
    + by apply call_step.
  - destruct (exec i now x (loc th) (sh p)) as [[[[q l'] s'] a]|] eqn:Ex; [|done]. injection E as <-.
    assert (∃ e, in_section (h ++ added i e)
      {| thr := <[i := {| todo := todo th; code := q ++ k; loc := l'; outs := outs th ++ a |}]> (thr p); sh := s' |} ∧
      usable x ∧ events (emitted x (loc th) (sh p)) = map untimed (option_list e) ∧
      logs_of a = match e with Some HRead => [window h] | _ => [] end) as (e & Hs' & Hx & Ee & El).
    { destruct (decide (held_by (sh p) !! AuditMutex = Some i)) as [Hh|Hh]; [by eapply section_inside|].
      exists None. rewrite app_nil_r. pose proof (proj1 Hs _ _ Hi Hh) as Hpl. rewrite Hc in Hpl.
      apply Forall_cons in Hpl as [Hpx _]. destruct (section_plain h p i now th x k q l' s' a (outs th ++ a)) as (? & ? & ?); [done..|].
      split_and!; try done. by apply plain_usable. }
    destruct (exec_emits _ _ _ _ _ _ _ _ _ (k ++ plan (todo th)) Hu (usable_running _ Hx) Ex) as (Eb & Eg & Hu').
    exists (h ++ added i e). split; cbn; [done|by eapply exec_defined|by rewrite length_insert| |done].
    intros j cj th' Hj Hj'. destruct (decide (j = i)) as [->|Hji].
    + rewrite list_lookup_insert_eq in Hj' by done. injection Hj' as <-. eapply accounted_own; [by eauto| |done..].
      unfold rest. rewrite Hc. rewrite <- app_assoc. exact Eb.
    + rewrite list_lookup_insert_ne in Hj' by done. apply accounted_other; [done|]. eauto.
Qed.

Lemma recorded_boot css : recorded css [] (boot loaded css).
Proof.
  split; cbn; [done|done|by rewrite length_map| |].
  - intros i c th Hc Hth. rewrite list_lookup_fmap, Hc in Hth. injection Hth as <-.
    destruct (plan_alone c.2 (ObjCache_Init c.1)) as (E1 & E2 & E3). by split_and!.
  - split; cbn; [|apply ring_empty]. intros i th Hth _. rewrite list_lookup_fmap in Hth.
    destruct (css !! i); [|done]. injection Hth as <-. constructor.
Qed.

Lemma recorded_reachable css p : rtc pstep (boot loaded css) p → ∃ h, recorded css h p.
Proof.
  intros Hr. assert (∃ h, recorded css h (boot loaded css)) as Hb by (eexists; apply recorded_boot).
  revert Hb. induction Hr as [|p0 p1 p2 Hst _ IH]; intros [h Hh]; [by exists h|].
  apply IH. by eapply recorded_step.
Qed.

(** C17: in any run of any number of threads, whatever the order of their accesses, what the
    ring holds at the end is the window of one sequence of events: each thread's events in
    it are those of its calls made alone, in its order, none lost and none torn; every
    [GetAuditLog] answered the window of a moment of that sequence; and the answers and
    the containers of each interpreter are those of its calls made alone.  No mutex is
    used in a way POSIX leaves undefined. *)
Theorem schedules_are_histories css p : rtc pstep (boot loaded css) p → all_done p →
  undefined (sh p) = false ∧ ∃ h : list (nat * hev), GetAuditLog (audit (sh p)) = window h ∧
  ∀ i cap cs, css !! i = Some (cap, cs) → ∃ th, thr p !! i = Some th ∧
    loc th = local_of (run_calls (ObjCache_Init cap) cs) ∧
    map untimed (of_thread i h) = alone call_events (ObjCache_Init cap) cs ∧
    gets_of (outs th) = alone call_gets (ObjCache_Init cap) cs ∧
    logs_of (outs th) = reads i [] h.
Proof.
  intros [h [_ [_ Hud] Hl Ht [_ Hs]]]%recorded_reachable Hd. split; [done|]. exists h. split.
  - destruct (held_by (sh p) !! AuditMutex) as [j|]; [|by apply read_ring]. exfalso.
    destruct Hs as (th & base & ph & k & Hj & Ec & _). destruct (Forall_lookup_1 _ _ _ _ Hd Hj) as [_ E].
    rewrite E in Ec. by destruct ph.
  - intros i cap cs Hc. destruct (lookup_lt_is_Some_2 (thr p) i) as [th Hth].
    { rewrite Hl. by eapply lookup_lt_Some. }
    exists th. split; [done|]. destruct (Ht _ _ _ Hc Hth) as (E1 & E2 & E3 & E4).
    destruct (Forall_lookup_1 _ _ _ _ Hd Hth) as [Etd Ecd]. unfold rest in *. rewrite Etd, Ecd in *. cbn in *.
    rewrite !app_nil_r in *. done.
Qed.

(** ** Every call returns *)

(** The most accesses a thread still makes when it is not kept waiting. *)
Definition cost_instr (x : instr) (l : local) : nat :=
  match x with
  | ITry _ => 6 | ILoad _ _ => 2 | LogSlot _ _ => 5 | ILog _ _ => 8
  | IFetch _ | IExists _ => 10
  | IEvict => 1 + 17 * length (queue l)
  | IAudit (AEvent _ _) => 7 | IAudit AReset => 4 | IAudit ARead => 3 + AUDIT_LOG_SIZE
  | LogRead n _ => 1 + (AUDIT_LOG_SIZE - n)
  | _ => 1
  end.
Fixpoint cost (p : list instr) (l : local) : nat :=
  match p with [] => 0 | x :: p => cost_instr x l + cost p (effect x l).2 end.

Lemma cost_app p q l : cost (p ++ q) l = (cost p l + cost q (behave p l).2)%nat.
Proof. revert l. induction p as [|x p IH]; intros l; [done|]. cbn [app cost]. rewrite IH, behave_cons. cbn. lia. Qed.

#[local] Opaque AUDIT_LOG_SIZE.

Lemma exec_cost i now x l s q l' s' a : set_up s → (count (audit s) ≤ AUDIT_LOG_SIZE)%nat →
  initialising x = false → exec i now x l s = Some (q, l', s', a) → (cost q l' < cost_instr x l)%nat.
Proof.
  intros [Hf Hi] Hcount Hx E. destruct x; cbn in Hx; unfold exec in E; cbv zeta in E; try done;
    try (injection E as <- <- <- <-; rewrite ?Hf, ?Hi; cbn; lia).
  - destruct (held_by s !! l0); injection E as <- <- <- <-; cbn; lia.
  - destruct (held_by s !! l0); [done|]. injection E as <- <- <- <-. cbn. lia.
  - destruct (hash l !! ptr) as [[o|]|]; injection E as <- <- <- <-; cbn; lia.
  - destruct (hash l !! ptr) as [[o|]|]; injection E as <- <- <- <-; cbn; lia.
  - destruct (queue l) as [|y qu] eqn:Eq; [injection E as <- <- <- <-; cbn; lia|].
    destruct (capacity l <? _); injection E as <- <- <- <-; cbn; rewrite ?Eq; cbn; lia.
  - destruct (held_by s !! AuditMutex); [done|]. injection E as <- <- <- <-. destruct a0; cbn; lia.
  - destruct (Nat.ltb_spec n (count (audit s))); [|injection E as <- <- <- <-; cbn; lia].
    destruct (entries (audit s) !! _); injection E as <- <- <- <-; cbn; lia.
Qed.

Lemma exec_count i now x l s q l' s' a : (count (audit s) ≤ AUDIT_LOG_SIZE)%nat →
  exec i now x l s = Some (q, l', s', a) → (count (audit s') ≤ AUDIT_LOG_SIZE)%nat.
Proof.
  intros Hc E. destruct x; unfold exec in E; cbv zeta in E; repeat case_match; simplify_eq; cbn; try lia; try done.
  unfold advance. destruct (Nat.eqb_spec (count (audit s)) AUDIT_LOG_SIZE); cbn; lia.
Qed.

Definition thread_cost (th : thread) : nat := cost (code th ++ plan (todo th)) (loc th) + length (todo th).
Definition process_cost (p : process) : nat := sum_list_with thread_cost (thr p).

Lemma sum_list_with_insert {A} (f : A → nat) (l : list A) i x y : l !! i = Some x →
  (sum_list_with f (<[i := y]> l) + f x = sum_list_with f l + f y)%nat.
Proof.
  revert i. induction l as [|z l IH]; intros [|i] Hi; [done..| |]; cbn in *; [injection Hi as ->; lia|].
  transitivity (f z + (sum_list_with f (<[i := y]> l) + f x))%nat; [symmetry; apply Nat.add_assoc|]. rewrite (IH i Hi). lia.
Qed.

(** At the head of running code nothing initialises. *)
Lemma recorded_head css h p i th x k : recorded css h p → thr p !! i = Some th → code th = x :: k → initialising x = false.
Proof.
  intros [_ _ _ _ [Hp Hs]] Hi Hc. destruct (decide (held_by (sh p) !! AuditMutex = Some i)) as [Hh|Hh].
  - rewrite Hh in Hs. destruct Hs as (th' & base & ph & k' & Hj & Ec & _ & _ & Hph). rewrite Hi in Hj. injection Hj as <-.
    rewrite Hc in Ec. by destruct Hph; injection Ec as -> _.
  - specialize (Hp _ _ Hi Hh). rewrite Hc in Hp. apply Forall_cons in Hp as [Hx _]. by destruct x.
Qed.

Lemma step_cost css h p p' : recorded css h p → (count (audit (sh p)) ≤ AUDIT_LOG_SIZE)%nat → pstep p p' →
  (process_cost p' < process_cost p)%nat ∧ (count (audit (sh p')) ≤ AUDIT_LOG_SIZE)%nat.
Proof.
  intros Hrec Hcount Hst. inversion Hst as [i now p0 p1 E]; subst p0 p1. unfold tstep in E.
  destruct (thr _ !! i) as [th|] eqn:Hi; [|done]. unfold process_cost. destruct (code th) as [|x k] eqn:Hc.
  - destruct (todo th) as [|c cs] eqn:Htodo; [done|]. injection E as <-. cbn [thr sh]. split; [|done].
    pose proof (sum_list_with_insert thread_cost (thr p) i th
      {| todo := cs; code := body c; loc := loc th; outs := outs th |} Hi) as Hsum.
    unfold thread_cost in Hsum at 2 4. rewrite Hc, Htodo in Hsum. cbn in Hsum. fold (plan cs) in Hsum. lia.
  - destruct (exec i now x (loc th) (sh p)) as [[[[q l'] s'] a]|] eqn:Ex; [|done]. injection E as <-. cbn [thr sh].
    split; [|by eapply exec_count].
    pose proof (recorded_head _ _ _ _ _ _ _ Hrec Hi Hc) as Hx. pose proof (r_set_up _ _ _ Hrec) as Hu.
    pose proof (exec_cost _ _ _ _ _ _ _ _ _ Hu Hcount Hx Ex) as Hcost.
    destruct (exec_emits _ _ _ _ _ _ _ _ _ [] Hu Hx Ex) as (Eb & _).
    pose proof (sum_list_with_insert thread_cost (thr p) i th
      {| todo := todo th; code := q ++ k; loc := l'; outs := outs th ++ a |} Hi) as Hsum.
    unfold thread_cost in Hsum at 2 4. rewrite Hc in Hsum. cbn [todo code loc app cost] in Hsum.
    rewrite <- app_assoc, !cost_app in Hsum. rewrite app_nil_r, behave_cons in Eb.
    apply (f_equal snd) in Eb. cbn in Eb. rewrite Eb in Hsum. lia.
Qed.

(** *** The locks alone *)

Definition thread_locks (th : thread) : list action := locks (rest th).1.
Definition lock_view (p : process) : machine := {| threads := thread_locks <$> thr p; owner := held_by (sh p) |}.

Lemma locks_app t t' : locks (t ++ t') = locks t ++ locks t'.
Proof. apply omap_app. Qed.

(** Each access is a step of the machine of [ObjCache], or none. *)
Lemma view_step css h p p' : recorded css h p → pstep p p' → lock_view p' = lock_view p ∨ lock_step (lock_view p) (lock_view p').
Proof.
  intros Hrec Hst. inversion Hst as [i now p0 p1 E]; subst p0 p1. unfold tstep in E.
  destruct (thr _ !! i) as [th|] eqn:Hi; [|done]. unfold lock_view.
  assert (∀ th', thread_locks th' = thread_locks th → thread_locks <$> <[i := th']> (thr p) = thread_locks <$> thr p) as Hsame.
  { intros th' E'. rewrite list_fmap_insert. apply list_insert_id. by rewrite list_lookup_fmap, Hi, E'. }
  destruct (code th) as [|x k] eqn:Hc.
  - destruct (todo th) as [|c cs] eqn:Htodo; [done|]. injection E as <-. left. cbn. rewrite Hsame; [done|].
    unfold thread_locks, rest. by rewrite Hc, Htodo.
  - destruct (exec i now x (loc th) (sh p)) as [[[[q l'] s'] a]|] eqn:Ex; [|done]. injection E as <-. cbn.
    pose proof (recorded_head _ _ _ _ _ _ _ Hrec Hi Hc) as Hx. pose proof (r_set_up _ _ _ Hrec) as Hu.
    destruct (exec_emits _ _ _ _ _ _ _ _ _ (k ++ plan (todo th)) Hu Hx Ex) as (Eb & _ & _).
    set (th' := {| todo := todo th; code := q ++ k; loc := l'; outs := outs th ++ a |}).
    assert (thread_locks th = locks (emitted x (loc th) (sh p)) ++ thread_locks th') as El.
    { unfold thread_locks, rest. cbn [todo code loc th']. rewrite Hc, <- app_assoc. change ((x :: k) ++ plan (todo th))
        with (x :: (k ++ plan (todo th))). rewrite Eb. cbn [fst]. apply locks_app. }
    pose proof (exec_locks _ _ _ _ _ _ _ _ _ Hx Ex) as Hl.
    assert (∀ ac, thread_locks th = ac :: thread_locks th' → (thread_locks <$> thr p) !! i = Some (ac :: thread_locks th')) as Hat
      by (intros ac E'; by rewrite list_lookup_fmap, Hi, <- E').
    destruct (locks (emitted x (loc th) (sh p))) as [|[lk|lk] [|? ?]]; try done.
    + left. rewrite Hl, Hsame; done.
    + right. destruct Hl as [Hf ->]. rewrite list_fmap_insert.
      refine (step_acquire {| threads := thread_locks <$> thr p; owner := held_by (sh p) |} i lk (thread_locks th') _ _); [by apply Hat|done].
    + right. rewrite Hl, list_fmap_insert.
      refine (step_release {| threads := thread_locks <$> thr p; owner := held_by (sh p) |} i lk (thread_locks th') _). by apply Hat.
Qed.

(** A thread that cannot move is done or waits for a lock that is held. *)
Lemma stuck_thread css h p i th : recorded css h p → thr p !! i = Some th → tstep i 0 p = None →
  thread_done th ∨ ∃ lk rest, thread_locks th = ObjCache.Acquire lk :: rest ∧ is_Some (held_by (sh p) !! lk).
Proof.
  intros Hrec Hi E. unfold tstep in E. rewrite Hi in E. destruct (code th) as [|x k] eqn:Hc.
  - destruct (todo th) eqn:Ht; [by left|done].
  - destruct (exec i 0 x (loc th) (sh p)) as [[[[q l'] s'] a]|] eqn:Ex; [done|]. right.
    unfold thread_locks, rest. rewrite Hc. cbn [app]. rewrite behave_cons. cbn [fst].
    unfold exec in Ex. destruct x; repeat case_match; simplify_eq; eexists _, _; (split; [reflexivity|by eexists]).
Qed.

(** The locks of a call are those [ObjCache] lists for it. *)
Lemma evict_effect_locks q : ∀ l, ∃ es,
  locks (evict_effect q l).1 = flat_map (λ e, locked (Stripe (get_stripe e)) LogEvent_locks) es.
Proof.
  induction q as [|y q IH]; intros l; [by exists []|]. cbn [evict_effect]. case_match; [|by exists []].
  destruct (IH (set_hash (delete y (hash l)) l)) as [es E]. exists (y :: es).
  destruct (evict_effect q _) as [t l']. cbn [fst] in *. rewrite locks_app, E. done.
Qed.

Definition clears (c : call) : bool := match c with CClear _ => true | _ => false end.

Lemma body_locks c l : clears c = false → locks (behave (body c) l).1 = [] ∨ cache_call (locks (behave (body c) l).1).
Proof.
  destruct c as [|ptr [o|]|ptr|ptr|c|dirty| |o]; intros Hc; cbn [body clears] in *; try done; try by left.
  - destruct (ptr =? 0); [by left|]. right. cbn.
    destruct (evict_effect_locks (queue l ++ [ptr]) (set_queue (queue l ++ [ptr]) (set_hash (<[ptr := Some o]> (hash l)) l))) as [es Ees].
    cbn in Ees. destruct (evict_effect _ _) as [t l']. cbn in *.
    rewrite omap_app, Ees. apply (call_add ptr es).
  - destruct (ptr =? 0); [by left|]. right. cbn. destruct (hash l !! ptr) as [[]|]; apply (call_get ptr).
  - destruct (ptr =? 0); [by left|]. right. cbn.
    destruct (hash l !! ptr); [apply (call_delete ptr true)|apply (call_delete ptr false)].
  - right. apply call_capacity.
  - right. apply call_log.
Qed.

Lemma plan_ordered cs : ∀ l, forallb (negb ∘ clears) cs → balanced cache_rank ∅ (locks (behave (plan cs) l).1).
Proof.
  induction cs as [|c cs IH]; intros l Hcs; [apply balanced_nil|]. cbn in Hcs. apply andb_prop_elim in Hcs as [Hc Hcs].
  cbn [plan flat_map]. fold (plan cs). rewrite behave_app. cbn [fst]. rewrite locks_app.
  apply balanced_app; [|by apply IH].
  destruct (body_locks c l) as [->|Hcall]; [by destruct (clears c)|apply balanced_nil|by apply cache_call_balanced].
Qed.

Lemma reached k : ∀ css h p0 p, recorded css h p0 → (count (audit (sh p0)) ≤ AUDIT_LOG_SIZE)%nat → nsteps pstep k p0 p →
  (∃ h', recorded css h' p) ∧ (process_cost p + k ≤ process_cost p0)%nat ∧ rtc lock_step (lock_view p0) (lock_view p).
Proof.
  induction k as [|k IH]; intros css h p0 p Hrec Hc Hn; inversion Hn as [|? ? p1 ? Hst Hn']; subst.
  - split_and!; [by exists h|lia|done].
  - destruct (step_cost _ _ _ _ Hrec Hc Hst) as [Hlt Hc']. destruct (recorded_step _ _ _ _ Hrec Hst) as [h' Hrec'].
    destruct (IH _ _ _ _ Hrec' Hc' Hn') as (? & ? & Hr). split_and!; [done|lia|].
    destruct (view_step _ _ _ _ Hrec Hst) as [E|Hl]; [by rewrite <- E|by eapply rtc_l].
Qed.

Lemma view_boot css : lock_view (boot loaded css) = start (map (λ c, locks (behave (plan c.2) (local_of (ObjCache_Init c.1))).1) css).
Proof. unfold lock_view, start, boot. cbn. f_equal. rewrite <- list_fmap_compose. by apply list_fmap_ext. Qed.

(** Either a thread can move or all are done, unless the locks are deadlocked. *)
Lemma moves_or_done css h p : recorded css h p → ¬ deadlocked (lock_view p) → all_done p ∨ ∃ p', pstep p p'.
Proof.
  intros Hrec Hnd. destruct (decide (Exists (λ i, is_Some (tstep i 0 p)) (seq 0 (length (thr p))))) as [He|Hne].
  { apply Exists_exists in He as (i & _ & [p' Hp]). right. exists p'. by econstructor. }
  assert (∀ i th, thr p !! i = Some th → thread_done th ∨
    ∃ lk rest, thread_locks th = ObjCache.Acquire lk :: rest ∧ is_Some (held_by (sh p) !! lk)) as Hst.
  { intros i th Hi. eapply stuck_thread; [done..|]. apply eq_None_not_Some. intros Hs. apply Hne, Exists_exists.
    exists i. split; [|done]. apply elem_of_seq. apply lookup_lt_Some in Hi. lia. }
  left. apply Forall_lookup. intros i th Hi. destruct (Hst i th Hi) as [|(lk & r & El & Hlk)]; [done|]. exfalso.
  apply Hnd. split.
  - intros Hf. unfold finished in Hf. cbn in Hf. rewrite Forall_fmap, Forall_lookup in Hf. specialize (Hf _ _ Hi). cbn in Hf. congruence.
  - intros m' Hm. inversion Hm as [? j l' r' Hj Hf|? j l' r' Hj]; subst; cbn in *; rewrite list_lookup_fmap in Hj;
      destruct (thr p !! j) as [th'|] eqn:Hj'; try done; injection Hj as Hj;
      (destruct (Hst j th' Hj') as [[E1 E2]|(lk' & r2 & E & [? Hh])];
        [unfold thread_locks, rest in Hj; by rewrite E1, E2 in Hj|congruence]).
Qed.

(** Calls other than [Clear] leave a thread that can go on until all have returned, which
    takes at most the accesses counted above. *)
Lemma calls_progress css k p : Forall (λ c, forallb (negb ∘ clears) c.2) css → nsteps pstep k (boot loaded css) p →
  (k ≤ process_cost (boot loaded css))%nat ∧ (all_done p ∨ ∃ p', pstep p p').
Proof.
  intros Hcs Hn.
  destruct (reached k css [] _ _ (recorded_boot css) (Nat.le_0_l _) Hn) as ([h Hrec] & Hk & Hr). split; [lia|].
  eapply moves_or_done; [done|]. apply (disciplined_progress cache_rank 3); [intros []; simpl; lia|].
  rewrite view_boot in Hr. eapply disciplined_reachable; [|exact Hr]. apply Forall_fmap.
  eapply Forall_impl; [exact Hcs|]. intros c Hc. cbn. by apply balanced_ordered, plan_ordered.
Qed.

(** C40: every call returns.  Any number of threads making any calls of the cache but
    [Clear]: there is a number of accesses after which, in whatever order they were made,
    all calls have returned; and as long as one has not, some thread can go on. *)
Theorem every_call_returns css : Forall (λ c, forallb (negb ∘ clears) c.2) css →
  ∃ n, ∀ k p, nsteps pstep k (boot loaded css) p → (k ≤ n)%nat ∧ (all_done p ∨ ∃ p', pstep p p').
Proof. intros Hcs. eexists. intros k p. by apply calls_progress. Qed.

Lemma every_call_returns_witness :
  let css := [(1, [CAdd 16 (Some 7); CAdd 32 (Some 8)]); (0, [CAdd 16 (Some 9); CGetAuditLog]); (4, [CGet 16; CDelete 32])] in
  Forall (λ c : Z * list call, forallb (negb ∘ clears) c.2) css ∧
  ∃ n, ∀ k p, nsteps pstep k (boot loaded css) p → (k ≤ n)%nat ∧ (all_done p ∨ ∃ p', pstep p p').
Proof. split; [repeat constructor|]. apply every_call_returns. repeat constructor. Defined.

(** ** Runs *)

Lemma run_schedule_rtc sched : ∀ p p', run_schedule sched p = Some p' → rtc pstep p p'.
Proof.
  induction sched as [|i sched IH]; intros p p' E; cbn in E; [by injection E as <-|].
  destruct (tstep i 0 p) as [p1|] eqn:E1; [|done]. eapply rtc_l; [by econstructor|]. auto.
Qed.

(** Two threads take turns; one that waits lets the other go on. *)
Fixpoint take_turns (fuel i : nat) (p : process) : process :=
  match fuel with
  | O => p
  | S fuel =>
      match tstep i 0 p with
      | Some p' => take_turns fuel (1 - i) p'
      | None => match tstep (1 - i) 0 p with Some p' => take_turns fuel i p' | None => p end
      end
  end.

Lemma take_turns_rtc fuel : ∀ i p, rtc pstep p (take_turns fuel i p).
Proof.
  induction fuel as [|fuel IH]; intros i p; [done|]. cbn [take_turns].
  destruct (tstep i 0 p) eqn:E; [eapply rtc_l; [by econstructor|apply IH]|].
  destruct (tstep (1 - i) 0 p) eqn:E'; [eapply rtc_l; [by econstructor|apply IH]|done].
Qed.

Definition doneb (p : process) : bool :=
  forallb (λ th, match todo th, code th with [], [] => true | _, _ => false end) (thr p).
Lemma doneb_done p : doneb p = true → all_done p.
Proof.
  intros H. apply Forall_lookup. intros i th Hi. unfold doneb in H. rewrite forallb_forall in H.
  specialize (H th (proj1 (list_elem_of_In _ _) (list_elem_of_lookup_2 _ _ _ Hi))). by destruct th as [[] [] ? ?].
Qed.

(** Two interpreters with room for one entry each. *)
Definition two : list (Z * list call) :=
  [(1, [CAdd 16 (Some 7); CGet 16; CGetAuditLog]); (1, [CAdd 16 (Some 8); CAdd 32 (Some 9); CDelete 32])].

Lemma schedules_are_histories_witness :
  let p := take_turns 300 0 (boot loaded two) in
  rtc pstep (boot loaded two) p ∧ all_done p ∧ undefined (sh p) = false ∧ ∃ h : list (nat * hev), GetAuditLog (audit (sh p)) = window h ∧
  ∀ i cap cs, two !! i = Some (cap, cs) → ∃ th, thr p !! i = Some th ∧
    loc th = local_of (run_calls (ObjCache_Init cap) cs) ∧
    map untimed (of_thread i h) = alone call_events (ObjCache_Init cap) cs ∧
    gets_of (outs th) = alone call_gets (ObjCache_Init cap) cs ∧
    logs_of (outs th) = reads i [] h.
Proof.
  intros p. assert (rtc pstep (boot loaded two) p) as Hr by apply take_turns_rtc.
  assert (all_done p) as Hd by (apply doneb_done; vm_compute; reflexivity).
  split; [exact Hr|]. split; [exact Hd|]. exact (schedules_are_histories two p Hr Hd).
Defined.

(** The events really mix: the second thread's first [Add] comes between two of the first's. *)
Example events_mix : map (λ e : audit_entry, e.1) (GetAuditLog (audit (sh (take_turns 300 0 (boot loaded two))))) =
  [(EvAdd, 16); (EvAdd, 16); (EvHit, 16); (EvAdd, 32); (EvEvict, 16); (EvDelete, 32)].
Proof. vm_compute. reflexivity. Qed.

(** [contentions++; acquisitions++] of a thread that found the mutex taken are made without
    it: here the holder reads the counter after the waiting thread and before its store.
    The mutex is taken twice, the counter says once. *)
Definition waits : list nat :=
  [0; 0; 0; 1; 1; 1; 1; 1; 1]%nat ++ repeat 0%nat 12 ++ repeat 1%nat 12.
Example acquisition_lost :
  option_map (λ p, (doneb p, stat_of (sh p) (stripe_lock 16))) (run_schedule waits (boot loaded [(5, [CGet 16]); (5, [CGet 16])])) =
  Some (true, {| acquisitions := 1; contentions := 1 |}).
Proof. vm_compute. reflexivity. Qed.

(** [ensure_mutexes_init] of two first calls at once: both find the flag unset.  The first sets
    up and takes the stripe, the second initialises it again and takes it too, while the
    first is still inside. *)
Definition both_first : list nat := [0; 0; 1; 1]%nat ++ repeat 0%nat 22.
Example initialised_while_held :
  let run sched := option_map (λ p, (held_by (sh p) !! stripe_lock 16, undefined (sh p)))
    (run_schedule sched (boot fresh [(5, [CGet 16]); (5, [CGet 16])])) in
  run both_first = Some (Some 0%nat, false) ∧ run (both_first ++ repeat 1%nat 22) = Some (Some 1%nat, true).
Proof. vm_compute. split; reflexivity. Qed.
