(* ===== verification/Serialize.v ===== *)
(** * Parsing, serialising and message streams (xs/message/serialize.c)

    The wire codec is the vendored upb library and the handles are Perl's I/O
    layer: both are interfaces here, classes with the laws they document.  What is
    modelled is what this file adds: temporary arenas, errors, the framing of
    messages on a handle and the buffers they are read into. *)

From S2P Require Import Prelude Varint Arena.

(** ** The libraries the file calls *)

(** [upb_DecodeStatus] and [upb_EncodeStatus]. *)
Inductive DecodeStatus :=
  | DecodeOk | DecodeOutOfMemory | DecodeMalformed | DecodeBadUtf8
  | DecodeMaxDepthExceeded | DecodeMissingRequired.

Inductive EncodeStatus :=
  | EncodeOk | EncodeOutOfMemory | EncodeMaxDepthExceeded | EncodeMissingRequired
  | EncodeMaxSizeExceeded.

#[export] Instance DecodeStatus_eq_dec : EqDecision DecodeStatus.
Proof. solve_decision. Defined.
#[export] Instance EncodeStatus_eq_dec : EqDecision EncodeStatus.
Proof. solve_decision. Defined.

(** A message type: [M] is the values of its messages.  [MiniTable] says whether
    [upb_MessageDef_MiniTable] answers, [Message_New] is [upb_Message_New],
    [Arena_Malloc n] whether [upb_Arena_Malloc] finds [n] bytes.  The text encoders
    put a sequence of pieces into their buffer, or stop with an error. *)
Class Upb (M : Type) := {
  MiniTable : bool;
  Message_New : option M;
  Arena_Malloc : Z → bool;
  upb_Decode : bytes → M → DecodeStatus * M;
  upb_Encode : bool → M → EncodeStatus * bytes;
  upb_JsonDecode : bytes → Z → M → option M;
  upb_Json_pieces : M → option (list bytes);
  upb_Text_pieces : M → list bytes;
}.

(** The codec's documented promise: what it encodes, it decodes. *)
Class UpbLaws (M : Type) `{Upb M} := {
  encode_bytes m bs : upb_Encode false m = (EncodeOk, bs) → bytes_ok bs;
  encode_size m bs : upb_Encode false m = (EncodeOk, bs) → Z.of_nat (length bs) < 2 ^ 31;
  decode_encode m bs empty : Message_New = Some empty →
    upb_Encode false m = (EncodeOk, bs) → upb_Decode bs empty = (DecodeOk, m);
}.

(** A Perl file handle.  [io_read h n] is [PerlIO_read] of [n] bytes: [None] is an
    error (-1), [Some bs] the bytes stored, none at the end of the stream.
    [io_write h bs] is [PerlIO_write]: the count it returns. *)
Class PerlIO (H : Type) := {
  io_read : H → Z → option bytes * H;
  io_write : H → bytes → Z * H;
  unread : H → bytes;
  sent : H → bytes;
}.

(** A handle that may deliver in pieces but never fails. *)
Class PerlIOReads (H : Type) `{PerlIO H} := {
  read_some h n : 0 < n → unread h ≠ [] →
    ∃ bs h', io_read h n = (Some bs, h') ∧ bs ≠ [] ∧ Z.of_nat (length bs) ≤ n ∧
             unread h = bs ++ unread h';
  read_end h n : unread h = [] → ∃ h', io_read h n = (Some [], h') ∧ unread h' = [];
}.

(** A handle that delivers all that is asked for while there is enough of it. *)
Class PerlIOFull (H : Type) `{PerlIO H} := {
  read_full h n : 0 ≤ n →
    ∃ h', io_read h n = (Some (take (Z.to_nat n) (unread h)), h') ∧
          unread h' = drop (Z.to_nat n) (unread h);
}.

(** A handle whose writes succeed completely. *)
Class PerlIOWrites (H : Type) `{PerlIO H} := {
  write_all h bs : ∃ h', io_write h bs = (Z.of_nat (length bs), h') ∧
    sent h' = sent h ++ bs ∧ unread h' = unread h;
}.

(** ** State

    [pool]: the interpreter's [upb_Arena]s.  [arena_refs]: the reference counts of
    the [Protobuf::Arena] objects.  [fp]: the handle. *)
Record world (H : Type) := {
  pool : Pool.state;
  arena_refs : gmap Z Z;
  fp : H;
}.
Arguments pool {_} _.
Arguments arena_refs {_} _.
Arguments fp {_} _.
Arguments Build_world {_} _ _ _.

Definition set_pool {H} (p : Pool.state) (w : world H) : world H :=
  {| pool := p; arena_refs := arena_refs w; fp := fp w |}.
Definition set_refs {H} (r : gmap Z Z) (w : world H) : world H :=
  {| pool := pool w; arena_refs := r; fp := fp w |}.
Definition set_fp {H} (h : H) (w : world H) : world H :=
  {| pool := pool w; arena_refs := arena_refs w; fp := h |}.

(** ** Arenas as these functions use them *)

Definition Acquire {H} (answer : option Z) : cmd (world H) (option Z) := λ w,
  let '(a, p) := Pool.Arena_Acquire (pool w) Pool.TRANSIENT answer in (Ret a, set_pool p w).

Definition Release {H} (a : option Z) : cmd (world H) unit := λ w,
  match Pool.Arena_Release (pool w) a Pool.TRANSIENT with
  | Ret p => (Ret tt, set_pool p w)
  | Croak msg => (Croak msg, w)
  | Fault why => (Fault why, w)
  end.

(** [PerlUpb_Arena_New]: [answer] is the new object, [None] when it croaks. *)
Definition Arena_New {H} (answer : option Z) : cmd (world H) Z :=
  match answer with
  | None => ccroak "Failed to acquire upb_Arena"
  | Some a => cmodify (λ w, set_refs (<[a := 1]> (arena_refs w)) w);; mret a
  end.

(** [SvREFCNT_dec(arena_sv)]: the last reference frees the object. *)
Definition REFCNT_dec {H} (a : Z) : cmd (world H) unit :=
  cmodify (λ w, set_refs
    (match arena_refs w !! a with
     | Some n => if n =? 1 then delete a (arena_refs w) else <[a := n - 1]> (arena_refs w)
     | None => arena_refs w
     end) w).

(** [PerlUpb_WrapMessage(msg, mdef, arena_sv, 0)] of a fresh message: the wrapper
    keeps a reference to the arena. *)
Definition wrap_message {H M} (m : M) (a : Z) : cmd (world H) (M * Z) :=
  cmodify (λ w, set_refs (<[a := default 0 (arena_refs w !! a) + 1]> (arena_refs w)) w);;
  mret (m, a).

(** [PerlUpb_DecodeStatus_Die(status, context)]. *)
Definition decode_description (s : DecodeStatus) : string :=
  match s with
  | DecodeOk => "Unknown error"
  | DecodeMalformed => "Protobuf wire format is malformed or corrupt"
  | DecodeOutOfMemory => "Out of memory during decoding (Arena allocation failed)"
  | DecodeBadUtf8 => "String field contains invalid UTF-8 data"
  | DecodeMaxDepthExceeded => "Message nesting depth exceeds the configured limit"
  | DecodeMissingRequired => "Message is missing required fields (proto2 only)"
  end.

Definition upb_DecodeStatus_String (s : DecodeStatus) : string :=
  match s with
  | DecodeOk => "Ok"
  | DecodeMalformed => "Wire format was corrupt"
  | DecodeOutOfMemory => "Arena alloc failed"
  | DecodeBadUtf8 => "String field had bad UTF-8"
  | DecodeMaxDepthExceeded => "Exceeded upb_DecodeOptions_MaxDepth"
  | DecodeMissingRequired => "Missing required field"
  end.

Definition DecodeStatus_Die {S} (status : DecodeStatus) (context : string) : cmd S unit :=
  if decide (status = DecodeOk) then mret tt
  else ccroak ("Failed to " +:+ context +:+ ": " +:+ decode_description status
               +:+ " (" +:+ upb_DecodeStatus_String status +:+ ")").

(** ** Messages in memory *)

Section Operations.
Context {M H : Type} `{Upb M} `{PerlIO H}.

Notation io := (cmd (world H)).

(** [PerlUpb_Message_Parse]; [def] says whether the descriptor is one. *)
Definition Parse (def : bool) (data : bytes) (answer : option Z) : io (M * Z) :=
  cguard def "descriptor_sv must be a Protobuf::MessageDescriptor";;
  a ← Arena_New answer;
  if negb MiniTable then REFCNT_dec a;; ccroak "Failed to get MiniTable for message"
  else
    match Message_New with
    | None => REFCNT_dec a;; ccroak "Failed to allocate upb_Message"
    | Some msg =>
        let '(status, msg) := upb_Decode data msg in
        (if decide (status = DecodeOk) then mret tt
         else REFCNT_dec a;; DecodeStatus_Die status "parse message");;
        r ← wrap_message msg a;
        REFCNT_dec a;;
        mret r
    end.

(** [PerlUpb_Message_FromJson]; [ignore_unknown] is the option of that name in the
    options hash. *)
Definition upb_JsonDecode_IgnoreUnknown : Z := 1.

Definition FromJson (def : bool) (json_str : bytes) (ignore_unknown : bool) (answer : option Z)
  : io (M * Z) :=
  cguard def "descriptor_sv must be a Protobuf::MessageDescriptor";;
  let options := if ignore_unknown then Z.lor 0 upb_JsonDecode_IgnoreUnknown else 0 in
  a ← Arena_New answer;
  if negb MiniTable then REFCNT_dec a;; ccroak "Failed to get MiniTable for message"
  else
    match Message_New with
    | None => REFCNT_dec a;; ccroak "Failed to allocate upb_Message"
    | Some msg =>
        match upb_JsonDecode json_str options msg with
        | None => REFCNT_dec a;; ccroak "Failed to parse JSON"
        | Some msg =>
            r ← wrap_message msg a;
            REFCNT_dec a;;
            mret r
        end
    end.

(** [PerlUpb_Message_ParseFrom]: [msg] is merged into, in place. *)
Definition ParseFrom (msg : option M) (data : bytes) : io M :=
  match msg with
  | None => ccroak "Invalid message object"
  | Some msg =>
      let '(status, msg) := upb_Decode data msg in
      (if decide (status = DecodeOk) then mret tt
       else DecodeStatus_Die status "parse and merge message");;
      mret msg
  end.

(** The encoder and its temporary arena; a NULL arena is dereferenced by it. *)
Definition Encode_with (det : bool) (msg : M) (arena : option Z) : io (EncodeStatus * bytes) :=
  match arena with
  | None => cfault "upb_Encode with a NULL arena"
  | Some _ => mret (upb_Encode det msg)
  end.

(** [PerlUpb_Message_Serialize] and, with [det], [.._Serialize_Deterministic]. *)
Definition Serialize (det : bool) (msg : option M) (answer : option Z) : io bytes :=
  match msg with
  | None => ccroak "Invalid message object"
  | Some msg =>
      cguard MiniTable "Failed to get MiniTable";;
      enc_arena ← Acquire answer;
      r ← Encode_with det msg enc_arena;
      let '(status, buf) := r in
      (if decide (status = EncodeOk) then mret tt
       else
         Release enc_arena;;
         if decide (status = EncodeMissingRequired)
         then ccroak "Failed to serialize message: Missing required fields"
         else ccroak "Failed to serialize message");;
      Release enc_arena;;
      mret buf
  end.

(** *** The text encoders' bounded buffer (json/encode.c [jsonenc_putbytes],
    [jsonenc_nullz]): [out] is what was stored, [room] the cells left. *)
Record jsonenc := { out : bytes; room : nat; overflow : Z }.

Definition putbytes (e : jsonenc) (data : bytes) : jsonenc :=
  let have := room e in
  if (length data <=? have)%nat then
    {| out := out e ++ data; room := have - length data; overflow := overflow e |}
  else
    {| out := out e ++ take have data; room := 0;
       overflow := overflow e + (Z.of_nat (length data) - Z.of_nat have) |}.

Definition nullz (e : jsonenc) (size : nat) : Z * bytes :=
  let ret := Z.of_nat (length (out e)) + overflow e in
  (ret,
   if (0 <? size)%nat then
     (if (room e =? 0)%nat then removelast (out e) else out e) ++ [0]
   else out e).

(** [upb_JsonEncode(.., buf, size, ..)]: the answer and the buffer, [None] an error. *)
Definition put_all (pieces : list bytes) (size : nat) : Z * bytes :=
  nullz (fold_left putbytes pieces {| out := []; room := size; overflow := 0 |}) size.

Definition upb_JsonEncode (msg : M) (size : nat) : option (Z * bytes) :=
  (λ pieces, put_all pieces size) <$> upb_Json_pieces msg.
Definition upb_TextEncode (msg : M) (size : nat) : Z * bytes :=
  put_all (upb_Text_pieces msg) size.

(** [newSVpvn(buf, encoded)]: reads [encoded] bytes of the buffer. *)
Definition newSVpvn {S} (buf : bytes) (encoded : Z) : cmd S bytes :=
  if encoded <=? Z.of_nat (length buf) then mret (take (Z.to_nat encoded) buf)
  else cfault "newSVpvn past the buffer".

(** [PerlUpb_Message_ToText] and [PerlUpb_Message_ToJson]; [mem] answers [malloc]. *)
Definition ToText (msg : option M) (mem : bool) : io bytes :=
  match msg with
  | None => ccroak "Invalid message object"
  | Some msg =>
      let size := (upb_TextEncode msg 0).1 in
      cguard mem "Out of memory encoding text format";;
      let '(encoded, buf) := upb_TextEncode msg (S (Z.to_nat size)) in
      newSVpvn buf encoded
  end.

Definition JsonText (msg : option M) (mem : bool) : io (Z * bytes) :=
  match msg with
  | None => ccroak "Invalid message object"
  | Some msg =>
      match upb_JsonEncode msg 0 with
      | None => ccroak "JSON Encode error"
      | Some (size, _) =>
          cguard mem "Out of memory encoding JSON";;
          match upb_JsonEncode msg (S (Z.to_nat size)) with
          | None => ccroak "JSON Encode error"
          | Some r => mret r
          end
      end
  end.

Definition ToJson (msg : option M) (mem : bool) : io bytes :=
  r ← JsonText msg mem; newSVpvn r.2 r.1.

(** [PerlUpb_Message_JsonToHandle]: the answer of the write is not looked at. *)
Definition JsonToHandle (msg : option M) (open mem : bool) : io unit :=
  match msg with
  | None => ccroak "Invalid message object"
  | Some _ =>
      cguard open "File handle not open for writing";;
      r ← JsonText msg mem;
      text ← newSVpvn r.2 r.1;
      cmodify (λ w, set_fp (io_write (fp w) text).2 w)
  end.

(** ** Messages on a handle *)

(** [PerlIO_write(fp, buf, n)]: the count. *)
Definition Write (bs : bytes) : io Z := λ w,
  let '(n, h) := io_write (fp w) bs in (Ret n, set_fp h w).

(** [WriteVarint(fp, val)]. *)
Definition WriteVarint_fp (val : Z) : io unit :=
  match WriteVarint val with
  | None => cfault "WriteVarint past buf[10]"
  | Some buf => Write buf;; mret tt
  end.

(** [PerlUpb_Message_ToHandle]. *)
Definition ToHandle (msg : option M) (open length_prefixed : bool) (answer : option Z)
  : io unit :=
  match msg with
  | None => ccroak "Invalid message object"
  | Some msg =>
      cguard open "File handle not open for writing";;
      enc_arena ← Acquire answer;
      r ← Encode_with false msg enc_arena;
      let '(status, buf) := r in
      (if decide (status = EncodeOk) then mret tt
       else Release enc_arena;; ccroak "Serialization failed");;
      let size := Z.of_nat (length buf) in
      (if length_prefixed then WriteVarint_fp size else mret tt);;
      (if 0 <? size then
         written ← Write buf;
         if written <? i64 size then
           Release enc_arena;; ccroak "Failed to write full message to handle"
         else mret tt
       else mret tt);;
      Release enc_arena
  end.

(** [ReadVarint(fp, &ok)]: [None] is [!ok].  [n] bounds the ten iterations of
    [while (shift < 64)]. *)
Fixpoint ReadVarint_loop (n : nat) (val shift : Z) : io (option Z) := λ w,
  match n with
  | O => (Ret None, w)
  | S n =>
      if shift <? 64 then
        match io_read (fp w) 1 with
        | (Some [byte], h) =>
            let w := set_fp h w in
            let val := varint_acc val byte shift in
            if Z.land byte 128 =? 0 then (Ret (Some val), w)
            else ReadVarint_loop n val (shift + 7) w
        | (_, h) => (Ret None, set_fp h w)
        end
      else (Ret None, w)
  end.

Definition ReadVarint : io (option Z) := ReadVarint_loop 10 0 0.

(** [PerlIO_read(fp, buf, n)] into a buffer that [malloc] may have failed to find. *)
Definition ReadInto (buf : bool) (n : Z) : io (option bytes) := λ w,
  let '(r, h) := io_read (fp w) n in
  match r with
  | Some (_ :: _) => if buf then (Ret r, set_fp h w) else (Fault "read into NULL", set_fp h w)
  | _ => (Ret r, set_fp h w)
  end.

(** The loop that reads to the end: [got] is the filled part of a buffer of
    [capacity] bytes at an address [buf] says is not NULL. *)
Fixpoint ReadAll (fuel : nat) (buf : bool) (capacity : Z) (got : bytes) : io bytes :=
  match fuel with
  | O => ccroak "out of fuel"
  | S fuel =>
      let total_read := Z.of_nat (length got) in
      let grow := total_read =? capacity in
      let new_capacity := if grow then u64 (capacity * 2) else capacity in
      let new_buf := if grow then Arena_Malloc new_capacity else buf in
      if grow && negb new_buf && (0 <? total_read) then cfault "memcpy to NULL"
      else
        r ← ReadInto new_buf (new_capacity - total_read);
        match r with
        | Some (b :: bs) => ReadAll fuel new_buf new_capacity (got ++ b :: bs)
        | _ => mret got
        end
  end.

(** The end of [FromHandle]: decode [total] bytes of a buffer that holds [bs]. *)
Definition Finish (a : Z) (bs : bytes) (total : Z) : io (option (M * Z)) :=
  match Message_New with
  | None => cfault "upb_Decode into a NULL message"
  | Some msg =>
      if Z.of_nat (length bs) <? total then cfault "upb_Decode past the bytes read"
      else
        let '(status, msg) := upb_Decode bs msg in
        (if decide (status = DecodeOk) then mret tt
         else REFCNT_dec a;; DecodeStatus_Die status "parse message from handle");;
        r ← wrap_message msg a;
        REFCNT_dec a;;
        mret (Some r)
  end.

(** [PerlUpb_Message_FromHandle]: [None] is [undef]. *)
Definition FromHandle (fuel : nat) (def open length_prefixed : bool) (answer : option Z)
  : io (option (M * Z)) :=
  cguard def "descriptor_sv must be a Protobuf::MessageDescriptor";;
  cguard open "File handle not open for reading";;
  a ← Arena_New answer;
  if length_prefixed then
    len ← ReadVarint;
    match len with
    | None => REFCNT_dec a;; mret None
    | Some total =>
        r ← ReadInto (Arena_Malloc total) total;
        let '(n, bs) := match r with
                        | Some bs => (Z.of_nat (length bs), bs)
                        | None => (-1, [])
                        end in
        if n <? i64 total then
          REFCNT_dec a;; ccroak "Unexpected EOF reading length-prefixed message"
        else Finish a bs total
    end
  else
    bs ← ReadAll fuel (Arena_Malloc 4096) 4096 [];
    Finish a bs (Z.of_nat (length bs)).

End Operations.

(** ** Concrete codecs and handles

    The interfaces are inhabited: a codec whose messages are their own encoding, a
    handle on a file, and a pipe that delivers its data in arbitrary pieces. *)

#[export] Instance raw_upb : Upb bytes := {
  MiniTable := true;
  Message_New := Some [];
  Arena_Malloc n := n <? 2 ^ 40;
  upb_Decode bs _ := (DecodeOk, bs);
  upb_Encode _ m := if bool_decide (bytes_ok m ∧ Z.of_nat (length m) < 2 ^ 31)
                    then (EncodeOk, m) else (EncodeMaxSizeExceeded, []);
  upb_JsonDecode text _ _ := Some text;
  upb_Json_pieces m := Some [[34]; m; [34]];
  upb_Text_pieces m := [m];
}.

#[export] Instance raw_upb_laws : UpbLaws bytes.
Proof.
  split; simpl.
  - intros m bs. case_bool_decide as E; [|done]. intros [= <-]. apply E.
  - intros m bs. case_bool_decide as E; [|done]. intros [= <-]. apply E.
  - intros m bs empty _. case_bool_decide; [|done]. by intros [= <-].
Qed.

Record file := { f_in : bytes; f_out : bytes }.

#[export] Instance file_io : PerlIO file := {
  io_read h n := (Some (take (Z.to_nat n) (f_in h)),
                  {| f_in := drop (Z.to_nat n) (f_in h); f_out := f_out h |});
  io_write h bs := (Z.of_nat (length bs), {| f_in := f_in h; f_out := f_out h ++ bs |});
  unread := f_in;
  sent := f_out;
}.

#[export] Instance file_full : PerlIOFull file.
Proof. split. intros h n _. simpl. eauto. Qed.
#[export] Instance file_writes : PerlIOWrites file.
Proof. split. intros h bs. simpl. eauto. Qed.

Fixpoint pipe_read (h : list bytes) (n : nat) : bytes * list bytes :=
  match h with
  | [] => ([], [])
  | [] :: h => pipe_read h n
  | chunk :: h => (take n chunk, drop n chunk :: h)
  end.

#[export] Instance pipe_io : PerlIO (list bytes) := {
  io_read h n := let '(bs, h) := pipe_read h (Z.to_nat n) in (Some bs, h);
  io_write h bs := (-1, h);
  unread := @concat Z;
  sent _ := [];
}.

#[export] Instance pipe_reads : PerlIOReads (list bytes).
Proof.
  split.
  - intros h n Hn Hne. simpl in *. induction h as [|[|b c] h IH]; simpl in *; [done|auto|].
    destruct (Z.to_nat n) as [|k] eqn:E; [lia|]. simpl. eexists _, _. split; [done|].
    split; [done|]. simpl. rewrite length_take. split; [lia|].
    by rewrite app_assoc, take_drop.
  - intros h n Hu. simpl in *. induction h as [|[|b c] h IH]; simpl in *; [eauto|auto|done].
Qed.

(** ** Temporary arenas *)

Section Temporaries.
Context {M H : Type} `{Upb M} `{PerlIO H}.

Definition pool_wf (p : Pool.state) : Prop := Pool.cached_set p ⊆ Pool.live p.

(** Acquiring and releasing leaves the arenas there were, less the cached one,
    which the pair consumed if there was one. *)
Lemma temporary_arena (p : Pool.state) x :
  pool_wf p → x ∉ Pool.live p →
  ∃ a p1 p2, Pool.Arena_Acquire p Pool.TRANSIENT (Some x) = (Some a, p1) ∧
    Pool.Arena_Release p1 (Some a) Pool.TRANSIENT = Ret p2 ∧ pool_wf p2 ∧
    Pool.live p2 = Pool.live p ∖ Pool.cached_set p.
Proof.
  unfold pool_wf, Pool.cached_set, Pool.Arena_Acquire, Pool.Arena_New. intros Hwf Hx.
  destruct p as [[[[c|] cap]|] lv]; simpl in *; eexists _, _, _; (split; [reflexivity|]);
    unfold Pool.Arena_Release, Pool.Arena_Free; simpl; (rewrite bool_decide_eq_true_2 by set_solver);
    (split; [reflexivity|]); simpl; set_solver.
Qed.

Lemma temporary (w : world H) x :
  pool_wf (pool w) → x ∉ Pool.live (pool w) →
  ∃ a p1 p, Acquire (Some x) w = (Ret (Some a), set_pool p1 w) ∧
    (∀ w' : world H, pool w' = p1 → Release (Some a) w' = (Ret tt, set_pool p w')) ∧
    pool_wf p ∧ Pool.live p = Pool.live (pool w) ∖ Pool.cached_set (pool w).
Proof.
  intros Hwf Hx. destruct (temporary_arena _ x Hwf Hx) as (a & p1 & p2 & E1 & E2 & Hwf2 & Hl).
  exists a, p1, p2. unfold Acquire, Release. rewrite E1. split_and!; [done| |done|done].
  intros w' ->. by rewrite E2.
Qed.

Definition encode_failed (status : EncodeStatus) : string :=
  if decide (status = EncodeMissingRequired)
  then "Failed to serialize message: Missing required fields"
  else "Failed to serialize message".

Lemma Serialize_spec det m x (w : world H) :
  MiniTable = true → pool_wf (pool w) → x ∉ Pool.live (pool w) →
  ∃ p, pool_wf p ∧ Pool.live p = Pool.live (pool w) ∖ Pool.cached_set (pool w) ∧
    Serialize det (Some m) (Some x) w =
      (match upb_Encode det m with
       | (EncodeOk, bs) => Ret bs
       | (status, _) => Croak (encode_failed status)
       end, set_pool p w).
Proof.
  intros Hmt Hwf Hx. destruct (temporary w x Hwf Hx) as (a & p1 & p & Ha & Hr & Hwf2 & Hl).
  exists p. split; [done|]. split; [done|]. unfold Serialize. rewrite Hmt. crun.
  destruct (upb_Encode det m) as [status bs] eqn:He.
  specialize (Hr (set_pool p1 w) eq_refl). crun. unfold encode_failed.
  by destruct status; simpl; crun.
Qed.

Lemma fail_ToHandle m x (w : world H) lp status bs :
  upb_Encode false m = (status, bs) → status ≠ EncodeOk →
  pool_wf (pool w) → x ∉ Pool.live (pool w) →
  ∃ p, pool_wf p ∧ Pool.live p = Pool.live (pool w) ∖ Pool.cached_set (pool w) ∧
    ToHandle (Some m) true lp (Some x) w = (Croak "Serialization failed", set_pool p w).
Proof.
  intros He Hne Hwf Hx. destruct (temporary w x Hwf Hx) as (a & p1 & p & Ha & Hr & Hwf2 & Hl).
  exists p. split; [done|]. split; [done|]. unfold ToHandle. crun.
  specialize (Hr (set_pool p1 w) eq_refl). crun. rewrite He.
  rewrite decide_False by done. by crun.
Qed.

(** [ToHandle] of an encodable message, for any answers of the handle. *)
Lemma ToHandle_spec m x (w : world H) lp bs :
  upb_Encode false m = (EncodeOk, bs) → Z.of_nat (length bs) < 2 ^ 31 →
  pool_wf (pool w) → x ∉ Pool.live (pool w) →
  ∃ p, pool_wf p ∧ Pool.live p = Pool.live (pool w) ∖ Pool.cached_set (pool w) ∧
    ToHandle (Some m) true lp (Some x) w =
      let size := Z.of_nat (length bs) in
      let h1 := if lp then (io_write (fp w) (default [] (WriteVarint size))).2 else fp w in
      if 0 <? size then
        let '(written, h2) := io_write h1 bs in
        (if written <? size then Croak "Failed to write full message to handle" else Ret tt,
         set_fp h2 (set_pool p w))
      else (Ret tt, set_fp h1 (set_pool p w)).
Proof.
  intros He Hlen Hwf Hx. destruct (temporary w x Hwf Hx) as (a & p1 & p & Ha & Hr & Hwf2 & Hl).
  exists p. split; [done|]. split; [done|]. unfold ToHandle. crun. rewrite He. simpl. crun.
  rewrite (i64_small (Z.of_nat (length bs))) by lia.
  destruct (WriteVarint_ok (Z.of_nat (length bs))) as (v & Hv & _); [lia|].
  set (h1 := if lp then (io_write (fp w) (default [] (WriteVarint (Z.of_nat (length bs))))).2
              else fp w).
  assert ((if lp then WriteVarint_fp (Z.of_nat (length bs)) else mret tt) (set_pool p1 w) =
          (Ret tt, set_fp h1 (set_pool p1 w))) as E1.
  { subst h1. destruct lp; [|by destruct w]. unfold WriteVarint_fp, Write. rewrite Hv.
    unfold mbind, cmd_bind. simpl. by destruct (io_write (fp w) v). }
  crun. destruct (0 <? Z.of_nat (length bs)); crun; [|exact (Hr (set_fp h1 (set_pool p1 w)) eq_refl)].
  assert (Write bs (set_fp h1 (set_pool p1 w)) =
          let '(n, h) := io_write h1 bs in (Ret n, set_fp h (set_pool p1 w))) as E2.
  { unfold Write. simpl. by destruct (io_write h1 bs). }
  destruct (io_write h1 bs) as [n h2]. simpl in E2.
  specialize (Hr (set_fp h2 (set_pool p1 w)) eq_refl).
  crun. destruct (n <? Z.of_nat (length bs)); crun; exact Hr.
Qed.

(** No temporary arena survives: whatever the encoder and the handle answer,
    [Serialize], [Serialize_Deterministic] and [ToHandle] end with the arenas there
    were before, less the preallocated one if they consumed it, also on the paths
    that croak, and they never fault. *)
Lemma temporaries_released det m x lp (w : world H) :
  MiniTable = true → (∀ m bs, upb_Encode false m = (EncodeOk, bs) → Z.of_nat (length bs) < 2 ^ 31) →
  pool_wf (pool w) → x ∉ Pool.live (pool w) →
  let left_over p := Pool.live p = Pool.live (pool w) ∖ Pool.cached_set (pool w) in
  let s := Serialize det (Some m) (Some x) w in
  let t := ToHandle (Some m) true lp (Some x) w in
  (safe s.1 ∧ left_over (pool s.2)) ∧ (safe t.1 ∧ left_over (pool t.2)).
Proof.
  intros Hmt Hsize Hwf Hx left_over s t. split.
  - destruct (Serialize_spec det m x w Hmt Hwf Hx) as (p & _ & Hp & E).
    subst s. rewrite E. simpl. split; [by destruct (upb_Encode det m) as [[] ?]|exact Hp].
  - subst t. destruct (upb_Encode false m) as [status bs] eqn:He.
    destruct (decide (status = EncodeOk)) as [->|Hne].
    + destruct (ToHandle_spec m x w lp bs He (Hsize _ _ He) Hwf Hx) as (p & _ & Hp & E).
      rewrite E. simpl. repeat case_match; simpl; done.
    + destruct (fail_ToHandle m x w lp status bs He Hne Hwf Hx) as (p & _ & Hp & E).
      rewrite E. done.
Qed.

End Temporaries.

(** ** Reading *)

Section Reading.
Context {M H : Type} `{Upb M} `{PerlIO H}.

Lemma ReadVarint_loop_spec `{!PerlIOFull H} n : ∀ val shift (w : world H),
  shift < 64 → 64 ≤ shift + 7 * Z.of_nat n →
  ∃ h', ReadVarint_loop n val shift w =
        (Ret (fst <$> decode_varint_loop val shift (unread (fp w))), set_fp h' w) ∧
    ∀ v rest, decode_varint_loop val shift (unread (fp w)) = Some (v, rest) → unread h' = rest.
Proof.
  induction n as [|n IH]; intros val shift w Hs Hn; [lia|]. simpl.
  destruct (Z.ltb_spec shift 64); [|lia].
  destruct (read_full (fp w) 1) as (h & Hr & Hu); [lia|]. rewrite Hr.
  destruct (unread (fp w)) as [|b rest] eqn:Hun; simpl in *; [by exists h|].
  destruct (Z.land b 128 =? 0); simpl.
  - exists h. split; [done|]. intros v r [= <- <-]. by rewrite Hu, drop_0.
  - destruct (Z.leb_spec 64 (shift + 7)) as [Hge|Hlt].
    + exists h. split; [|done]. destruct n as [|n]; [done|]. simpl.
      destruct (Z.ltb_spec (shift + 7) 64); [lia|done].
    + destruct (IH (varint_acc val b shift) (shift + 7) (set_fp h w)) as (h' & E & Hrest);
        [lia..|]. simpl in E, Hrest. rewrite Hu, drop_0 in E, Hrest.
      exists h'. rewrite E. done.
Qed.

Lemma ReadVarint_spec `{!PerlIOFull H} (w : world H) :
  ∃ h', ReadVarint w = (Ret (fst <$> decode_varint (unread (fp w))), set_fp h' w) ∧
    ∀ v rest, decode_varint (unread (fp w)) = Some (v, rest) → unread h' = rest.
Proof. apply ReadVarint_loop_spec; lia. Qed.

(** What decoding a complete buffer answers. *)
Definition decoded (bs : bytes) (a : Z) : outcome (option (M * Z)) :=
  match Message_New with
  | None => Fault "upb_Decode into a NULL message"
  | Some empty =>
      match upb_Decode bs empty with
      | (DecodeOk, m) => Ret (Some (m, a))
      | (status, _) => Croak ("Failed to parse message from handle: "
                       +:+ decode_description status +:+ " (" +:+
                       upb_DecodeStatus_String status +:+ ")")
      end
  end.

Definition keeps (o : outcome (option (M * Z))) (a : Z) (refs : gmap Z Z) : gmap Z Z :=
  match o with
  | Ret (Some _) | Fault _ => <[a := 1]> refs
  | _ => refs
  end.

Lemma drop_arena (w : world H) a refs h :
  refs !! a = None →
  REFCNT_dec a (set_fp h (set_refs (<[a := 1]> refs) w)) = (Ret tt, set_fp h (set_refs refs w)).
Proof.
  intros Ha. unfold REFCNT_dec, cmodify. simpl. rewrite lookup_insert_eq. simpl.
  by rewrite delete_insert_id.
Qed.

Lemma Finish_spec (w : world H) a bs refs h :
  refs !! a = None →
  Finish a bs (Z.of_nat (length bs)) (set_fp h (set_refs (<[a := 1]> refs) w)) =
    (decoded bs a, set_fp h (set_refs (keeps (decoded bs a) a refs) w)).
Proof.
  intros Ha. unfold Finish, decoded. destruct Message_New as [empty|]; [|done].
  rewrite Z.ltb_irrefl. destruct (upb_Decode bs empty) as [status m].
  pose proof (drop_arena w a refs h Ha).
  destruct status; simpl; crun.
  unfold mbind, cmd_bind, mret, cmd_ret, REFCNT_dec, cmodify. simpl.
  rewrite lookup_insert_eq. simpl. rewrite lookup_insert_eq. simpl.
  by rewrite !insert_insert_eq.
Qed.

(** The framed reader, branch by branch: the frame at the head of the stream. *)
Definition read_frame (stream : bytes) (a : Z) : outcome (option (M * Z)) * bytes :=
  match decode_varint stream with
  | None => (Ret None, [])
  | Some (total, rest) =>
      if total <=? Z.of_nat (length rest) then
        (decoded (take (Z.to_nat total) rest) a, drop (Z.to_nat total) rest)
      else (Croak "Unexpected EOF reading length-prefixed message", [])
  end.

Lemma FromHandle_framed `{!PerlIOFull H} fuel a (w : world H) :
  bytes_ok (unread (fp w)) → arena_refs w !! a = None →
  (∀ total rest, decode_varint (unread (fp w)) = Some (total, rest) →
     total < 2 ^ 63 ∧ Arena_Malloc total = true) →
  ∃ h', FromHandle fuel true true true (Some a) w =
      (let o := (read_frame (unread (fp w)) a).1 in
       (o, set_fp h' (set_refs (keeps o a (arena_refs w)) w))) ∧
    (∀ m, (read_frame (unread (fp w)) a).1 = Ret (Some m) →
          unread h' = (read_frame (unread (fp w)) a).2).
Proof.
  intros Hok Ha Hmem. unfold FromHandle, read_frame. crun.
  destruct (ReadVarint_spec (set_refs (<[a := 1]> (arena_refs w)) w)) as (h1 & E & Hrest).
  simpl in E, Hrest. 
  destruct (decode_varint (unread (fp w))) as [[total rest]|] eqn:Hd; simpl in E.
  2:{ pose proof (drop_arena w a (arena_refs w) h1 Ha). exists h1. split; [|done]. by crun. }
  destruct (Hmem _ _ eq_refl) as [Hsmall Hmalloc]. specialize (Hrest _ _ eq_refl).
  pose proof (decode_varint_range _ _ _ Hok Hd) as [Hnn _].
  destruct (read_full h1 total Hnn) as (h2 & Hr & Hu). rewrite Hrest in *.
  assert (ReadInto true total (set_fp h1 (set_refs (<[a:=1]> (arena_refs w)) w)) =
          (Ret (Some (take (Z.to_nat total) rest)),
           set_fp h2 (set_refs (<[a:=1]> (arena_refs w)) w))) as E2.
  { unfold ReadInto. simpl. rewrite Hr. by destruct (take _ rest). }
  rewrite (cbind_ret _ _ _ _ _ E). cbn beta iota. rewrite Hmalloc. crun.
  rewrite (i64_small total) by lia. rewrite length_take.
  destruct (Z.leb_spec total (Z.of_nat (length rest))).
  - destruct (Z.ltb_spec (Z.of_nat (Z.to_nat total `min` length rest)) total); [lia|].
    pose proof (Finish_spec w a (take (Z.to_nat total) rest) (arena_refs w) h2 Ha) as EF.
    rewrite length_take in EF.
    replace (Z.of_nat (Z.to_nat total `min` length rest)) with total in EF by lia.
    exists h2. rewrite EF. split; [done|]. intros m _. by rewrite Hu.
  - destruct (Z.ltb_spec (Z.of_nat (Z.to_nat total `min` length rest)) total); [|lia].
    pose proof (drop_arena w a (arena_refs w) h2 Ha). exists h2. split; [|done]. by crun.
Qed.

End Reading.

(** ** Streams of messages *)

Section Streams.
Context {M H : Type} `{Upb M} `{PerlIO H}.

(** Writing messages one after the other; [x] is the address the temporary arena of
    each call gets. *)
Fixpoint write_stream (x : Z) (ms : list M) : cmd (world H) unit :=
  match ms with
  | [] => mret tt
  | m :: ms => ToHandle (Some m) true true (Some x);; write_stream x ms
  end.

(** Reading one message per arena of [answers]. *)
Fixpoint read_stream (answers : list Z) : cmd (world H) (list (option (M * Z))) :=
  match answers with
  | [] => mret []
  | a :: answers =>
      r ← FromHandle 0 true true true (Some a);
      rs ← read_stream answers;
      mret (r :: rs)
  end.

Definition encodable (m : M) : Prop := ∃ bs, upb_Encode false m = (EncodeOk, bs).

(** The bytes a message has on the stream. *)
Definition frame (m : M) : bytes :=
  let bs := (upb_Encode false m).2 in
  default [] (WriteVarint (Z.of_nat (length bs))) ++ bs.

Lemma ToHandle_frame `{!UpbLaws M} `{!PerlIOWrites H} x m (w : world H) :
  encodable m → pool_wf (pool w) → x ∉ Pool.live (pool w) →
  ∃ w', ToHandle (Some m) true true (Some x) w = (Ret tt, w') ∧
    sent (fp w') = sent (fp w) ++ frame m ∧ unread (fp w') = unread (fp w) ∧
    pool_wf (pool w') ∧ x ∉ Pool.live (pool w').
Proof.
  intros [bs He] Hwf Hx. pose proof (encode_size m bs He) as Hlen.
  destruct (ToHandle_spec m x w true bs He Hlen Hwf Hx) as (p & Hwf2 & Hl & ->).
  unfold frame. rewrite He. simpl. cbv zeta.
  destruct (WriteVarint_ok (Z.of_nat (length bs))) as (v & Hv & _); [lia|]. rewrite Hv. simpl.
  destruct (write_all (fp w) v) as (h1 & E1 & Hs1 & Hu1). rewrite E1. simpl.
  destruct (Z.ltb_spec 0 (Z.of_nat (length bs))).
  - destruct (write_all h1 bs) as (h2 & E2 & Hs2 & Hu2). rewrite E2, Z.ltb_irrefl.
    eexists. split; [done|]. simpl. rewrite Hs2, Hs1, <- app_assoc.
    split_and!; [done|congruence|done|set_solver].
  - eexists. split; [done|]. simpl. destruct bs; [|simpl in *; lia]. rewrite app_nil_r.
    split_and!; [done|done|done|set_solver].
Qed.

Lemma write_stream_spec `{!UpbLaws M} `{!PerlIOWrites H} x ms : ∀ w : world H,
  Forall encodable ms → pool_wf (pool w) → x ∉ Pool.live (pool w) →
  ∃ w', write_stream x ms w = (Ret tt, w') ∧ sent (fp w') = sent (fp w) ++ concat (frame <$> ms).
Proof.
  induction ms as [|m ms IH]; intros w Hms Hwf Hx; simpl.
  { exists w. by rewrite app_nil_r. }
  apply Forall_cons_1 in Hms as [Hm Hms].
  destruct (ToHandle_frame x m w Hm Hwf Hx) as (w1 & E & Hs & _ & Hwf1 & Hx1).
  destruct (IH w1 Hms Hwf1 Hx1) as (w2 & E2 & Hs2). exists w2.
  rewrite (cbind_ret _ _ _ _ _ E), E2, Hs2, Hs, <- app_assoc. done.
Qed.

Lemma frame_ok `{!UpbLaws M} m : encodable m → bytes_ok (frame m).
Proof.
  intros [bs He]. unfold frame. rewrite He. simpl. apply bytes_ok_app.
  split; [|by eapply encode_bytes].
  destruct (WriteVarint_ok (Z.of_nat (length bs))) as (v & -> & Hsh & _);
    [pose proof (encode_size m bs He); lia|]. by apply varint_shape_ok.
Qed.

Lemma read_frame_spec `{!UpbLaws M} empty m rest a :
  Message_New = Some empty → encodable m → bytes_ok rest →
  read_frame (frame m ++ rest) a = (Ret (Some (m, a)), rest) ∧
  ∀ total tail, decode_varint (frame m ++ rest) = Some (total, tail) → total < 2 ^ 31.
Proof.
  intros Hnew [bs He] Hrest. unfold read_frame, frame. rewrite He. simpl. rewrite <- app_assoc.
  pose proof (encode_size m bs He) as Hlen. pose proof (encode_bytes m bs He) as Hbs.
  destruct (varint_roundtrip_app (Z.of_nat (length bs)) (bs ++ rest)) as (v & -> & _ & Hd);
    [lia|by apply bytes_ok_app|]. simpl. rewrite Hd. split; [|by intros ? ? [= <- _]].
  rewrite length_app. destruct (Z.leb_spec (Z.of_nat (length bs))
    (Z.of_nat (length bs + length rest))); [|lia].
  rewrite Nat2Z.id, take_app_length, drop_app_length. unfold decoded.
  by rewrite Hnew, (decode_encode m bs empty Hnew He).
Qed.

Lemma read_stream_spec `{!UpbLaws M} `{!PerlIOFull H} empty ms : ∀ answers (w : world H),
  Message_New = Some empty → (∀ n, n < 2 ^ 31 → Arena_Malloc n = true) →
  Forall encodable ms → length answers = S (length ms) → NoDup answers →
  (∀ a, a ∈ answers → arena_refs w !! a = None) →
  unread (fp w) = concat (frame <$> ms) →
  (read_stream answers w).1 = Ret ((Some <$> zip ms answers) ++ [None]).
Proof.
  induction ms as [|m ms IH]; intros [|a answers] w Hnew Hmem Hms Hlen Hnd Hfresh Hu;
    try done; simpl in Hlen.
  - destruct answers; [|done]. simpl in *.
    destruct (FromHandle_framed 0 a w) as (h & E & _); [rewrite Hu; constructor| | |].
    { apply Hfresh. set_solver. }
    { rewrite Hu. done. }
    rewrite Hu in E. simpl in E. by rewrite (cbind_ret _ _ _ _ _ E).
  - apply Forall_cons_1 in Hms as [Hm Hms]. csimpl in Hu. apply NoDup_cons in Hnd as [Hna Hnd].
    assert (bytes_ok (concat (frame <$> ms))) as Hok.
    { clear -Hms UpbLaws0. induction Hms; simpl; [constructor|].
      apply bytes_ok_app. auto using frame_ok. }
    destruct (read_frame_spec empty m (concat (frame <$> ms)) a Hnew Hm Hok) as [Hrf Hlt].
    destruct (FromHandle_framed 0 a w) as (h & E & Hrest).
    + rewrite Hu. apply bytes_ok_app. auto using frame_ok.
    + apply Hfresh. set_solver.
    + rewrite Hu. intros total rest Hd%Hlt. split; [lia|auto].
    + rewrite Hu, Hrf in E, Hrest. simpl in E, Hrest. specialize (Hrest _ eq_refl).
      cbn [read_stream]. rewrite (cbind_ret _ _ _ _ _ E).
      pose proof (IH answers (set_fp h (set_refs (<[a:=1]> (arena_refs w)) w)) Hnew Hmem Hms) as IH'.
      unfold mbind, cmd_bind. destruct (read_stream answers _) as [o w'] eqn:Er.
      simpl in IH'. rewrite IH'; [done|lia|done| |done].
      intros a' Ha'. rewrite lookup_insert_ne by set_solver. apply Hfresh. set_solver.
Qed.

End Streams.

(** C1: messages written to a handle one after the other, length-prefixed, are read
    back: for any codec that decodes what it encodes and any handles that write and
    read completely, every [ToHandle] succeeds, and as many [FromHandle]s on what was
    sent answer the same messages in the same order, each with its own arena, and one
    more answers [undef]. *)
Theorem stream_roundtrip {M H} `{UpbLaws M} `{PerlIOFull H} `{!PerlIOWrites H}
    empty x ms (w : world H) :
  Message_New = Some empty → (∀ n, n < 2 ^ 31 → Arena_Malloc n = true) →
  Forall encodable ms → pool_wf (pool w) → x ∉ Pool.live (pool w) → sent (fp w) = [] →
  ∃ w1, write_stream x ms w = (Ret tt, w1) ∧
  ∀ answers (w2 : world H),
    length answers = S (length ms) → NoDup answers →
    (∀ a, a ∈ answers → arena_refs w2 !! a = None) →
    unread (fp w2) = sent (fp w1) →
    (read_stream answers w2).1 = Ret ((Some <$> zip ms answers) ++ [None]).
Proof.
  intros Hnew Hmem Hms Hwf Hx Hs.
  destruct (write_stream_spec x ms w Hms Hwf Hx) as (w1 & E & Hsent). exists w1.
  split; [done|]. intros answers w2 Hlen Hnd Hfresh Hu.
  eapply read_stream_spec; eauto. by rewrite Hu, Hsent, Hs.
Qed.

Definition some_pool : Pool.state := {| Pool.registry := Some Pool.Registry_Init; Pool.live := ∅ |}.
Definition some_world (i : bytes) : world file :=
  {| pool := some_pool; arena_refs := ∅; fp := {| f_in := i; f_out := [] |} |}.

Lemma stream_roundtrip_witness :
  (read_stream [1; 2; 3] (some_world [3; 8; 150; 1; 0])).1 =
    Ret [Some ([8; 150; 1] : bytes, 1); Some ([], 2); None].
Proof.
  destruct (stream_roundtrip (M := bytes) (H := file) [] 64 [[8; 150; 1]; []] (some_world []))
    as (w1 & E & Hread).
  - reflexivity.
  - intros n Hn. apply Z.ltb_lt. lia.
  - repeat constructor; eexists; reflexivity.
  - by_compute.
  - set_solver.
  - reflexivity.
  - apply Hread; [reflexivity|by_compute|intros; reflexivity|].
    vm_compute in E. injection E as <-. reflexivity.
Defined.

Lemma temporaries_released_witness :
  let w := some_world [] in
  let s := Serialize true (Some ([300] : bytes)) (Some 64) w in
  safe s.1 ∧ Pool.live (pool s.2) = ∅.
Proof.
  intros w s.
  destruct (temporaries_released (M := bytes) (H := file) true [300] 64 true w) as [[Hs Hl] _].
  - reflexivity.
  - intros m bs. apply (encode_size (M := bytes)).
  - by_compute.
  - set_solver.
  - split; [exact Hs|]. etrans; [exact Hl|]. set_solver.
Defined.

(** *** The two parsers of strings *)

Section Parsers.
Context {M H : Type} `{Upb M} `{PerlIO H}.

(** A constructor that succeeded left its arena with one reference, the message's;
    one that failed left the arenas as they were. *)
Definition settled (o : outcome (M * Z)) (a : Z) (refs refs' : gmap Z Z) : Prop :=
  match o with
  | Ret (_, a') => a' = a ∧ refs' = <[a := 1]> refs
  | Croak _ => refs' = refs
  | Fault _ => False
  end.

Lemma drop_new_arena (w : world H) a refs :
  refs !! a = None →
  REFCNT_dec a (set_refs (<[a := 1]> refs) w) = (Ret tt, set_refs refs w).
Proof.
  intros Ha. unfold REFCNT_dec, cmodify. simpl. rewrite lookup_insert_eq. simpl.
  by rewrite delete_insert_id.
Qed.

Lemma wrap_new_message (w : world H) (m : M) a refs :
  (r ← wrap_message m a; REFCNT_dec a;; mret r) (set_refs (<[a := 1]> refs) w) =
  (Ret (m, a), set_refs (<[a := 1]> refs) w).
Proof.
  unfold wrap_message, REFCNT_dec, cmodify, mbind, cmd_bind, mret, cmd_ret. simpl.
  rewrite lookup_insert_eq. simpl. rewrite lookup_insert_eq. simpl. by rewrite !insert_insert_eq.
Qed.
End Parsers.

Ltac settle :=
  intros [= <- <-]; split; [done|]; intros ?; split;
  [intros [=]; subst; eauto | intros (? & ? & ? & ?); congruence].

(** Parsing neither leaks nor loses an arena: for any input bytes, any answer of
    the decoders and of the allocator, [Parse] and [FromJson] answer the decoded
    message holding the only reference to a fresh arena, or croak with every arena
    freed; they answer a message exactly when the decoder accepts. *)
Lemma parsers_settle_arenas {M H} `{Upb M} `{PerlIO H} data ign a (w : world H) :
  arena_refs w !! a = None →
  let '(o1, w1) := Parse (M := M) true data (Some a) w in
  let '(o2, w2) := FromJson (M := M) true data ign (Some a) w in
  (settled o1 a (arena_refs w) (arena_refs w1) ∧
   ∀ m, o1 = Ret (m, a) ↔ MiniTable = true ∧ ∃ e, Message_New = Some e ∧
                          upb_Decode data e = (DecodeOk, m)) ∧
  (settled o2 a (arena_refs w) (arena_refs w2) ∧
   ∀ m, o2 = Ret (m, a) ↔ MiniTable = true ∧ ∃ e, Message_New = Some e ∧
                          upb_JsonDecode data (if ign then 1 else 0) e = Some m).
Proof.
  intros Ha. pose proof (drop_new_arena w a (arena_refs w) Ha) as Hd.
  destruct (Parse true data (Some a) w) as [o1 w1] eqn:E1.
  destruct (FromJson true data ign (Some a) w) as [o2 w2] eqn:E2. split.
  - revert E1. unfold Parse. crun. destruct MiniTable; simpl; [|crun; settle].
    destruct Message_New as [e|]; [|crun; settle].
    destruct (upb_Decode data e) as [status m] eqn:Ed.
    destruct (decide (status = DecodeOk)) as [->|Hne].
    + erewrite cbind_ret by reflexivity. rewrite wrap_new_message. settle.
    + unfold DecodeStatus_Die. rewrite decide_False by done. crun. settle.
  - revert E2. unfold FromJson. crun. destruct MiniTable; simpl; [|crun; settle].
    destruct Message_New as [e|]; [|crun; settle].
    replace (if ign then Z.lor 0 upb_JsonDecode_IgnoreUnknown else 0)
      with (if ign then 1 else 0) by (by destruct ign).
    destruct (upb_JsonDecode data (if ign then 1 else 0) e) as [m|] eqn:Ej;
      [rewrite wrap_new_message|crun]; settle.
Qed.

Lemma parsers_settle_arenas_witness :
  let '(o, w) := Parse (M := bytes) true [8; 1] (Some 1) (some_world []) in
  settled o 1 ∅ (arena_refs w).
Proof.
  pose proof (parsers_settle_arenas (M := bytes) [8; 1] true 1 (some_world []) eq_refl) as Hp.
  destruct (Parse true [8; 1] (Some 1) (some_world [])) as [o1 w1].
  destruct (FromJson true [8; 1] true (Some 1) (some_world [])) as [o2 w2].
  apply Hp.
Defined.

(** ** Errors of the framed reader *)

(** A length prefix the arena cannot satisfy is undefined behaviour, not an
    error: the result of [upb_Arena_Malloc] is not tested, so when the stream
    announces such a length and at least one byte follows, the bytes are stored
    through a NULL pointer.  The prefix is the peer's. *)
Theorem unsatisfiable_length_faults {M H} `{Upb M} `{PerlIOFull H} fuel a (w : world H) total rest :
  decode_varint (unread (fp w)) = Some (total, rest) → 0 < total → rest ≠ [] →
  Arena_Malloc total = false →
  ¬ safe (FromHandle fuel true true true (Some a) w).1.
Proof.
  intros Hd Ht Hr Hm. unfold FromHandle. crun.
  destruct (ReadVarint_spec (set_refs (<[a := 1]> (arena_refs w)) w)) as (h1 & E & Hrest).
  simpl in E, Hrest. rewrite Hd in E. simpl in E. specialize (Hrest _ _ Hd).
  rewrite (cbind_ret _ _ _ _ _ E). cbn beta iota. rewrite Hm.
  destruct (read_full h1 total) as (h2 & Hr2 & _); [lia|].
  assert (ReadInto false total (set_fp h1 (set_refs (<[a:=1]> (arena_refs w)) w)) =
          (Fault "read into NULL", set_fp h2 (set_refs (<[a:=1]> (arena_refs w)) w))) as E2.
  { unfold ReadInto. simpl. rewrite Hr2, Hrest. destruct rest as [|b rest]; [done|].
    destruct (Z.to_nat total) eqn:Et; [lia|done]. }
  rewrite (cbind_fault _ _ _ _ _ E2). simpl. tauto.
Qed.

Lemma unsatisfiable_length_faults_witness :
  ¬ safe (FromHandle (M := bytes) 0 true true true (Some 1)
            (some_world [128; 128; 128; 128; 128; 128; 64; 7])).1.
Proof.
  eapply unsatisfiable_length_faults; [vm_compute; reflexivity|lia|done|reflexivity].
Defined.

(** A truncated frame is an error and frees everything: when fewer bytes follow
    than a (satisfiable) prefix announces, [FromHandle] croaks and the arena it
    created is gone. *)
Lemma truncated_frame_croaks {M H} `{Upb M} `{PerlIOFull H} fuel a (w : world H) total rest :
  bytes_ok (unread (fp w)) → arena_refs w !! a = None →
  decode_varint (unread (fp w)) = Some (total, rest) → Z.of_nat (length rest) < total < 2 ^ 63 →
  Arena_Malloc total = true →
  let '(o, w') := FromHandle fuel true true true (Some a) w in
  o = Croak "Unexpected EOF reading length-prefixed message" ∧ arena_refs w' = arena_refs w.
Proof.
  intros Hok Ha Hd Hlen Hmem.
  destruct (FromHandle_framed fuel a w Hok Ha) as (h & E & _).
  { intros ? ? Hd'. rewrite Hd in Hd'. simplify_eq. split; [lia|done]. }
  rewrite E. unfold read_frame. rewrite Hd. destruct (Z.leb_spec total (Z.of_nat (length rest))); [lia|].
  done.
Qed.

Lemma truncated_frame_croaks_witness :
  let '(o, w') := FromHandle (M := bytes) 0 true true true (Some 1) (some_world [5; 8; 1]) in
  o = Croak "Unexpected EOF reading length-prefixed message" ∧ arena_refs w' = ∅.
Proof.
  apply (truncated_frame_croaks (M := bytes) 0 1 (some_world [5; 8; 1]) 5 [8; 1]);
    [by_compute|reflexivity|reflexivity|simpl; lia|reflexivity].
Defined.

(** A failed write of the length is not reported: if the handle refuses the
    prefix but takes the payload, [ToHandle] returns normally and the stream holds
    the payload without its length. *)
Theorem prefix_failure_is_silent {M H} `{Upb M} `{PerlIO H} x m (w : world H) bs v h1 h2 :
  upb_Encode false m = (EncodeOk, bs) → Z.of_nat (length bs) < 2 ^ 31 →
  WriteVarint (Z.of_nat (length bs)) = Some v →
  pool_wf (pool w) → x ∉ Pool.live (pool w) →
  io_write (fp w) v = (-1, h1) → sent h1 = sent (fp w) →
  io_write h1 bs = (Z.of_nat (length bs), h2) → sent h2 = sent h1 ++ bs → bs ≠ [] →
  ∃ w', ToHandle (Some m) true true (Some x) w = (Ret tt, w') ∧
        sent (fp w') = sent (fp w) ++ bs.
Proof.
  intros He Hlen Hv Hwf Hx E1 Hs1 E2 Hs2 Hne.
  destruct (ToHandle_spec m x w true bs He Hlen Hwf Hx) as (p & _ & _ & ->).
  cbv zeta. rewrite Hv. simpl. rewrite E1. simpl. rewrite E2, Z.ltb_irrefl.
  destruct (Z.ltb_spec 0 (Z.of_nat (length bs))); [|destruct bs; [done|simpl in *; lia]].
  eexists. split; [done|]. simpl. by rewrite Hs2, Hs1.
Qed.

(** A handle that refuses its next [n] writes. *)
Definition flaky_io : PerlIO (nat * bytes) := {|
  io_read h n := (Some [], h);
  io_write h bs := match h with
                   | (S n, out) => (-1, (n, out))
                   | (O, out) => (Z.of_nat (length bs), (O, out ++ bs))
                   end;
  unread _ := [];
  sent h := h.2;
|}.

Lemma prefix_failure_is_silent_witness :
  let w := {| pool := some_pool; arena_refs := ∅; fp := (1%nat, [] : bytes) |} in
  ∃ w', @ToHandle bytes _ _ flaky_io (Some [8; 1]) true true (Some 64) w = (Ret tt, w') ∧
        (fp w').2 = [8; 1].
Proof.
  apply (@prefix_failure_is_silent bytes _ _ flaky_io 64 [8; 1]
    {| pool := some_pool; arena_refs := ∅; fp := (1%nat, [] : bytes) |}
    [8; 1] [2] (0%nat, []) (0%nat, [8; 1]));
    first [reflexivity | by_compute | simpl; lia | set_solver].
Defined.

(** ** Reading to the end of the stream *)

Section ReadToEnd.
Context {M H : Type} `{Upb M} `{PerlIOReads H}.

Lemma ReadAll_spec fuel : ∀ capacity got (w : world H),
  (length (unread (fp w)) < fuel)%nat →
  0 < capacity → Z.of_nat (length got) ≤ capacity ≤ 4096 + 2 * Z.of_nat (length got) →
  4096 + 2 * Z.of_nat (length got + length (unread (fp w))) < 2 ^ 62 →
  (∀ n, n ≤ 4096 + 2 * Z.of_nat (length got + length (unread (fp w))) →
        Arena_Malloc n = true) →
  ∃ h', ReadAll fuel true capacity got w = (Ret (got ++ unread (fp w)), set_fp h' w).
Proof.
  induction fuel as [|fuel IH]; intros capacity got w Hf Hc Hg Hsz Hmem; [lia|].
  cbn [ReadAll].
  set (grow := Z.of_nat (length got) =? capacity).
  set (cap := if grow then u64 (capacity * 2) else capacity).
  assert (Z.of_nat (length got) < cap ∧ cap ≤ 4096 + 2 * Z.of_nat (length got)) as [Hlt Hle].
  { subst cap grow. destruct (Z.eqb_spec (Z.of_nat (length got)) capacity);
      [rewrite u64_small|]; lia. }
  replace (if grow then Arena_Malloc cap else true) with true
    by (destruct grow; [symmetry; apply Hmem; lia|done]).
  rewrite andb_false_r, andb_false_l.
  destruct (unread (fp w)) as [|b bs] eqn:Hu.
  - destruct (read_end (fp w) (cap - Z.of_nat (length got)) Hu) as (h & Hr & _).
    exists h. rewrite app_nil_r. unfold ReadInto, mbind, cmd_bind. by rewrite Hr.
  - destruct (read_some (fp w) (cap - Z.of_nat (length got))) as (bs1 & h & Hr & Hne & Hl & Hu1);
      [lia|by rewrite Hu|]. destruct bs1 as [|b1 bs1]; [done|].
    assert (ReadInto true (cap - Z.of_nat (length got)) w =
            (Ret (Some (b1 :: bs1)), set_fp h w)) as E by (unfold ReadInto; by rewrite Hr).
    rewrite (cbind_ret _ _ _ _ _ E). cbn beta iota.
    assert (length (b :: bs) = S (length bs1 + length (unread h))) as El.
    { rewrite <- Hu, Hu1, length_app. done. }
    assert (length (got ++ b1 :: bs1) = length got + S (length bs1))%nat as Eg
      by (rewrite length_app; done).
    simpl length in Hl.
    destruct (IH cap (got ++ b1 :: bs1) (set_fp h w)) as (h' & E').
    + simpl fp. lia.
    + lia.
    + lia.
    + simpl fp. lia.
    + simpl fp. intros n Hn. apply Hmem. lia.
    + exists h'. rewrite E'. simpl. rewrite <- app_assoc. by rewrite <- Hu, Hu1.
Qed.
End ReadToEnd.

(** C36: reading to the end assembles the whole stream: whatever the sizes of the
    pieces the handle delivers, however often the buffer has to double, [FromHandle]
    without a length prefix terminates and answers what the decoder makes of exactly
    the bytes of the stream, keeping the arena only with a message.  One iteration
    per byte is enough. *)
Theorem read_to_end_exact {M H} `{Upb M} `{PerlIOReads H} fuel a (w : world H) :
  let data := unread (fp w) in
  (length data < fuel)%nat → Z.of_nat (length data) < 2 ^ 60 →
  (∀ n, n ≤ 4096 + 2 * Z.of_nat (length data) → Arena_Malloc n = true) →
  arena_refs w !! a = None →
  let '(o, w') := FromHandle fuel true true false (Some a) w in
  o = decoded data a ∧ arena_refs w' = keeps (decoded data a) a (arena_refs w).
Proof.
  intros data Hf Hlen Hmem Ha. unfold FromHandle. crun.
  rewrite Hmem by lia.
  destruct (ReadAll_spec fuel 4096 [] (set_refs (<[a := 1]> (arena_refs w)) w)) as (h & E);
    [done|lia|cbn; lia|subst data; cbn [length fp set_refs]; lia|done|].
  rewrite (cbind_ret _ _ _ _ _ E). cbn [app fp set_refs]. fold data.
  by rewrite (Finish_spec w a data (arena_refs w) h Ha).
Qed.

Lemma read_to_end_exact_witness :
  let w := {| pool := some_pool; arena_refs := ∅; fp := [[8]; []; [150; 1]] : list bytes |} in
  (FromHandle (M := bytes) 10 true true false (Some 1) w).1 = Ret (Some ([8; 150; 1], 1)).
Proof.
  intros w. pose proof (read_to_end_exact (M := bytes) 10 1 w) as Hr.
  destruct (FromHandle (M := bytes) 10 true true false (Some 1) w) as [o w'].
  apply Hr; [simpl; lia|simpl; lia|intros n Hn; apply Z.ltb_lt; simpl in *; lia|reflexivity].
Defined.

(** ** The two passes of the text formats *)

Lemma putbytes_all pieces : ∀ e,
  let e' := fold_left putbytes pieces e in
  let data := concat pieces in
  overflow e = 0 → 
  if (length data <=? room e)%nat then
    out e' = out e ++ data ∧ room e' = (room e - length data)%nat ∧ overflow e' = 0
  else True.
Proof.
  induction pieces as [|p pieces IH]; intros e; simpl; intros Ho.
  { rewrite app_nil_r. split_and!; [done|lia|done]. }
  destruct (Nat.leb_spec (length (p ++ concat pieces)) (room e)) as [Hle|]; [|done].
  rewrite length_app in Hle. specialize (IH (putbytes e p)). unfold putbytes in *.
  destruct (Nat.leb_spec (length p) (room e)); [|lia]. simpl in IH. specialize (IH Ho).
  destruct (Nat.leb_spec (length (concat pieces)) (room e - length p)); [|lia].
  destruct IH as (-> & -> & ->). rewrite <- app_assoc, length_app. split_and!; [done|lia|done].
Qed.

Lemma put_all_size pieces size : (put_all pieces size).1 = Z.of_nat (length (concat pieces)).
Proof.
  unfold put_all, nullz. simpl.
  assert (∀ e, Z.of_nat (length (out (fold_left putbytes pieces e))) +
                 overflow (fold_left putbytes pieces e) =
               Z.of_nat (length (out e)) + overflow e + Z.of_nat (length (concat pieces))) as Hs.
  { induction pieces as [|p pieces IH]; intros e; simpl; [lia|].
    rewrite IH, length_app. unfold putbytes. case_match; simpl; rewrite length_app; [lia|].
    rewrite length_take. apply Nat.leb_gt in H. lia. }
  rewrite Hs. simpl. lia.
Qed.

Lemma put_all_enough pieces size :
  (length (concat pieces) < size)%nat → (put_all pieces size).2 = concat pieces ++ [0].
Proof.
  intros Hlt. unfold put_all, nullz. simpl.
  pose proof (putbytes_all pieces {| out := []; room := size; overflow := 0 |} eq_refl) as Hp.
  simpl in Hp. destruct (Nat.leb_spec (length (concat pieces)) size); [|lia].
  destruct Hp as (-> & -> & _). simpl. destruct (Nat.ltb_spec 0 size); [|lia].
  by destruct (Nat.eqb_spec (size - length (concat pieces)) 0); [lia|].
Qed.

(** The measuring pass sizes the buffer exactly: the text of [ToJson] and
    [ToText] is the complete output of the encoder, none of it is cut off by the
    terminator and nothing is read past the buffer, whatever the pieces. *)
Lemma text_two_pass_exact {M H} `{Upb M} `{PerlIO H} m (w : world H) :
  ToText (Some m) true w = (Ret (concat (upb_Text_pieces m)), w) ∧
  ToJson (Some m) true w =
    (match upb_Json_pieces m with
     | Some pieces => Ret (concat pieces)
     | None => Croak "JSON Encode error"
     end, w).
Proof.
  assert (∀ pieces (w : world H),
    newSVpvn (put_all pieces (S (Z.to_nat (put_all pieces 0).1))).2
             (put_all pieces (S (Z.to_nat (put_all pieces 0).1))).1 w =
    (Ret (concat pieces), w)) as Hnew.
  { intros pieces w0. unfold newSVpvn. rewrite !put_all_size, Nat2Z.id.
    rewrite put_all_enough by lia. rewrite length_app.
    destruct (Z.leb_spec (Z.of_nat (length (concat pieces)))
                (Z.of_nat (length (concat pieces) + length [0]))); [|lia].
    by rewrite take_app_length. }
  split.
  - unfold ToText, upb_TextEncode. crun. specialize (Hnew (upb_Text_pieces m) w).
    destruct (put_all (upb_Text_pieces m) (S _)). apply Hnew.
  - unfold ToJson, JsonText, upb_JsonEncode.
    destruct (upb_Json_pieces m) as [pieces|]; [|done]. cbn [fmap option_fmap option_map].
    specialize (Hnew pieces w). destruct (put_all pieces 0) as [size buf]. cbn [fst] in Hnew.
    crun. exact Hnew.
Qed.
