(* ===== verification/PerlNumbers.v ===== *)
(** * Perl's numbers as the conversions see them

    Doubles, the casts between doubles and integers, and the C library's
    [strtoll] and [strtoull]. *)

From S2P Require Import Prelude.

(** ** Doubles

    An IEEE value: [Fin neg m e] is (-1)^neg * m * 2^e with [0 <= m].  Which of its
    representations a value has is immaterial to every operation below except
    equality. *)
Inductive nv := NaN | Inf (neg : bool) | Fin (neg : bool) (m e : Z).

#[export] Instance nv_eq_dec : EqDecision nv.
Proof. solve_decision. Defined.

Definition signed (neg : bool) (m : Z) : Z := if neg then - m else m.

(** [a < b] of C: false when either is not a number. *)
Definition nv_ltb (a b : nv) : bool :=
  match a, b with
  | NaN, _ | _, NaN => false
  | Inf s, Inf t => s && negb t
  | Inf s, Fin _ _ _ => s
  | Fin _ _ _, Inf t => negb t
  | Fin s m e, Fin t n f =>
      let k := Z.min e f in
      signed s m * 2 ^ (e - k) <? signed t n * 2 ^ (f - k)
  end.

(** The integer part of a finite value. *)
Definition trunc (neg : bool) (m e : Z) : Z := signed neg (Z.shiftl m e).

(** [m / 2^k] rounded to nearest, ties to even; [k <= 0] is exact. *)
Definition rne (m k : Z) : Z :=
  if k <=? 0 then m * 2 ^ (- k)
  else
    let q := m / 2 ^ k in
    let r := m mod 2 ^ k in
    if 2 * r <? 2 ^ k then q
    else if 2 ^ k <? 2 * r then q + 1
    else q + q mod 2.

(** Rounding to [p] bits with least exponent [emin] and finite values below
    [2^emax]: 53, -1074, 1024 is [double], 24, -149, 128 is [float]. *)
Definition round_to (p emin emax : Z) (x : nv) : nv :=
  match x with
  | Fin neg m e =>
      if m =? 0 then Fin neg 0 e
      else
        let e' := Z.max emin (e + (Z.log2 m + 1) - p) in
        let m' := rne m (e' - e) in
        if 2 ^ emax <=? m' * 2 ^ (Z.max e' 0) / 2 ^ (Z.max (- e') 0) then Inf neg
        else Fin neg m' e'
  | _ => x
  end.

(** [(float)x]. *)
Definition to_float (x : nv) : nv := round_to 24 (-149) 128 x.

(** [(double)z] of an integer below [2^64] in size. *)
Definition nv_of_Z (z : Z) : nv :=
  let neg := z <? 0 in
  let m := Z.abs z in
  if m <? 2 ^ 53 then Fin neg m 0
  else
    let k := Z.log2 m + 1 - 53 in
    Fin neg (rne m k) k.

(** [SvIV] and [SvUV] of a double ([I_V], [U_V]): saturating below, through an
    unsigned cast above, 0 for what is not a number. *)
Definition iv_of_nv (x : nv) : Z :=
  match x with
  | NaN => 0
  | Inf true => IV_MIN
  | Inf false => i64 UV_MAX
  | Fin neg m e =>
      let t := trunc neg m e in
      if t <? IV_MIN then IV_MIN else if t <=? UV_MAX then i64 t else i64 UV_MAX
  end.

Definition uv_of_nv (x : nv) : Z :=
  match x with
  | NaN => 0
  | Inf true => u64 IV_MIN
  | Inf false => UV_MAX
  | Fin neg m e =>
      let t := trunc neg m e in
      if t <? IV_MIN then u64 IV_MIN else if t <=? UV_MAX then u64 t else UV_MAX
  end.

(** [(int64_t)x] and [(uint64_t)x] of C: undefined when the value does not fit. *)
Definition int64_of_nv (x : nv) : outcome Z :=
  match x with
  | Fin neg m e =>
      let t := trunc neg m e in
      if (IV_MIN <=? t) && (t <=? IV_MAX) then Ret t else Fault "double out of range of int64_t"
  | _ => Fault "double out of range of int64_t"
  end.

Definition uint64_of_nv (x : nv) : outcome Z :=
  match x with
  | Fin neg m e =>
      let t := trunc neg m e in
      if (0 <=? t) && (t <=? UV_MAX) then Ret t else Fault "double out of range of uint64_t"
  | _ => Fault "double out of range of uint64_t"
  end.

(** ** [strtoll] and [strtoull], base 10 *)

Definition is_space (c : Z) : bool := (c =? 32) || ((9 <=? c) && (c <=? 13)).
Definition is_digit (c : Z) : bool := (48 <=? c) && (c <=? 57).

Fixpoint skip_space (s : bytes) : bytes :=
  match s with
  | c :: s' => if is_space c then skip_space s' else s
  | [] => []
  end.

(** The value of the digits at the head of [s], in front of [acc]. *)
Fixpoint digits (acc : Z) (s : bytes) : Z :=
  match s with
  | c :: s' => if is_digit c then digits (10 * acc + (c - 48)) s' else acc
  | [] => acc
  end.

(** Sign and magnitude. *)
Definition strto (s : bytes) : bool * Z :=
  match skip_space s with
  | 45 :: s => (true, digits 0 s)
  | 43 :: s => (false, digits 0 s)
  | s => (false, digits 0 s)
  end.

Definition strtoll (s : bytes) : Z :=
  let '(neg, n) := strto s in Z.max IV_MIN (Z.min IV_MAX (signed neg n)).

Definition strtoull (s : bytes) : Z :=
  let '(neg, n) := strto s in
  if UV_MAX <? n then UV_MAX else u64 (signed neg n).

(** Decimal notation, as [bstr] of a big integer writes it. *)
Fixpoint decimal_digits (fuel : nat) (n : Z) (acc : bytes) : bytes :=
  match fuel with
  | O => acc
  | S fuel =>
      let acc := (48 + n mod 10) :: acc in
      if n / 10 =? 0 then acc else decimal_digits fuel (n / 10) acc
  end.

Definition decimal (z : Z) : bytes :=
  let n := Z.abs z in
  let ds := decimal_digits (S (Z.to_nat (Z.log2 n))) n [] in
  if z <? 0 then 45 :: ds else ds.

(** ** Lemmas *)

Lemma digits_app acc ds s :
  Forall (λ c, is_digit c = true) ds →
  digits acc (ds ++ s) = digits (digits acc ds) s.
Proof.
  intros Hds. revert acc. induction Hds as [|c ds Hc Hds IH]; intros acc; simpl; [done|].
  rewrite Hc. apply IH.
Qed.

Lemma is_digit_mod n : 0 ≤ n → is_digit (48 + n mod 10) = true.
Proof.
  intros. unfold is_digit. pose proof (Z.mod_pos_bound n 10).
  destruct (Z.leb_spec 48 (48 + n mod 10)), (Z.leb_spec (48 + n mod 10) 57); lia || done.
Qed.

Lemma decimal_digits_spec fuel : ∀ n acc,
  0 ≤ n < 2 ^ Z.of_nat fuel → Forall (λ c, is_digit c = true) acc →
  ∃ ds, decimal_digits fuel n acc = ds ++ acc ∧ Forall (λ c, is_digit c = true) ds ∧
        (0 < fuel → ds ≠ [])%nat ∧ ∀ a, digits a ds = a * 10 ^ Z.of_nat (length ds) + n.
Proof.
  induction fuel as [|fuel IH]; intros n acc Hn Hacc.
  { exists []. simpl in *. split_and!; [done|constructor|lia|intros; simpl; lia]. }
  simpl. assert (2 ^ Z.of_nat (S fuel) = 2 * 2 ^ Z.of_nat fuel) as Hp
    by (rewrite Nat2Z.inj_succ, Z.pow_succ_r; lia).
  pose proof (Z.div_mod n 10). pose proof (Z.mod_pos_bound n 10).
  destruct (Z.eqb_spec (n / 10) 0) as [E|E].
  - exists [48 + n mod 10]. split; [done|]. split; [constructor; [|constructor]|].
    { apply is_digit_mod; lia. }
    split; [done|]. intros a. simpl. rewrite is_digit_mod by lia.
    change (10 ^ Z.of_nat 1) with 10. lia.
  - assert (0 ≤ n / 10) by (apply Z.div_pos; lia).
    destruct (IH (n / 10) ((48 + n mod 10) :: acc)) as (ds & E1 & Hds & Hne & Hval).
    { lia. }
    { constructor; [apply is_digit_mod; lia|done]. }
    exists (ds ++ [48 + n mod 10]). rewrite E1, <- app_assoc. split; [done|].
    split; [apply Forall_app; split; [done|constructor; [apply is_digit_mod; lia|constructor]]|].
    split; [by destruct ds|].
    intros a. rewrite digits_app, Hval by done. simpl. rewrite is_digit_mod by lia.
    rewrite length_app. simpl. rewrite Nat2Z.inj_add, Z.pow_add_r by lia.
    change (10 ^ Z.of_nat 1) with 10. lia.
Qed.

Lemma strto_decimal z : strto (decimal z) = (z <? 0, Z.abs z).
Proof.
  unfold decimal. set (n := Z.abs z).
  destruct (decimal_digits_spec (S (Z.to_nat (Z.log2 n))) n []) as (ds & -> & Hds & Hne & Hval).
  { subst n. destruct (decide (z = 0)) as [->|]; [simpl; lia|].
    rewrite Nat2Z.inj_succ, Z2Nat.id by apply Z.log2_nonneg.
    pose proof (Z.log2_spec (Z.abs z)). lia. }
  { constructor. }
  rewrite app_nil_r. specialize (Hne (Nat.lt_0_succ _)).
  assert (digits 0 ds = n) as Hd by (rewrite Hval; lia).
  destruct (z <? 0); unfold strto; simpl; [by rewrite Hd|].
  destruct ds as [|c ds]; [done|]. apply Forall_cons_1 in Hds as [Hc _].
  unfold is_digit in Hc. apply andb_true_iff in Hc as [H1 H2]. bool_to_prop. simpl.
  replace (is_space c) with false.
  2:{ symmetry. unfold is_space. apply orb_false_iff. split; [lia|].
      apply andb_false_iff. right. lia. }
  rewrite <- Hd. clear -H1 H2.
  assert (c = 48 ∨ c = 49 ∨ c = 50 ∨ c = 51 ∨ c = 52 ∨ c = 53 ∨ c = 54 ∨ c = 55 ∨ c = 56 ∨ c = 57)
    as Hc by lia.
  by repeat destruct Hc as [->|Hc]; [..|subst c].
Qed.

Lemma nv_of_Z_small z : - 2 ^ 53 < z < 2 ^ 53 → nv_of_Z z = Fin (z <? 0) (Z.abs z) 0.
Proof. intros. unfold nv_of_Z. destruct (Z.ltb_spec (Z.abs z) (2 ^ 53)); [done|lia]. Qed.

Lemma rne_lower m k j : 0 ≤ m → 0 ≤ k → 0 ≤ j → j * 2 ^ k ≤ m → j ≤ rne m k.
Proof.
  intros Hm Hk Hj Hle. unfold rne. pose proof (Z.pow_pos_nonneg 2 k).
  destruct (Z.leb_spec k 0); [replace k with 0 in * by lia; simpl in *; lia|].
  assert (j ≤ m / 2 ^ k) by (apply Z.div_le_lower_bound; lia).
  pose proof (Z.mod_pos_bound (m / 2 ^ k) 2). repeat case_match; lia.
Qed.

(** A double made from an integer keeps its order with the 32-bit limits. *)
Lemma nv_of_Z_limit z n :
  0 ≤ n < 2 ^ 53 →
  nv_ltb (Fin false n 0) (nv_of_Z z) = (n <? z) ∧ nv_ltb (nv_of_Z z) (Fin true n 0) = (z <? - n).
Proof.
  intros Hn. destruct (decide (- 2 ^ 53 < z < 2 ^ 53)).
  - rewrite nv_of_Z_small by done. unfold nv_ltb, signed. cbv zeta.
    change (Z.min 0 0) with 0. change (2 ^ (0 - 0)) with 1.
    destruct (Z.ltb_spec z 0); split;
      (match goal with |- (?a <? ?b) = (?c <? ?d) =>
         destruct (Z.ltb_spec a b), (Z.ltb_spec c d); first [done | lia] end).
  - unfold nv_of_Z. destruct (Z.ltb_spec (Z.abs z) (2 ^ 53)); [lia|].
    set (k := Z.log2 (Z.abs z) + 1 - 53).
    assert (52 < Z.log2 (Z.abs z) + 1) as Hlog.
    { enough (53 ≤ Z.log2 (Z.abs z)) by lia. apply Z.log2_le_pow2; lia. }
    assert (2 ^ 52 ≤ rne (Z.abs z) k) as Hr.
    { apply rne_lower; [lia|lia|lia|]. rewrite <- Z.pow_add_r by lia.
      replace (52 + k) with (Z.log2 (Z.abs z)) by lia.
      apply Z.log2_spec. lia. }
    assert (2 ^ 53 ≤ rne (Z.abs z) k * 2 ^ k) as Hbig.
    { replace (2 ^ 53) with (2 ^ 52 * 2 ^ 1) by done.
      apply Z.mul_le_mono_nonneg; [lia|done|lia|]. apply Z.pow_le_mono_r; [lia|].
      subst k. enough (53 ≤ Z.log2 (Z.abs z)) by lia. apply Z.log2_le_pow2; lia. }
    unfold nv_ltb, signed. replace (Z.min 0 k) with 0 by lia. replace (Z.min k 0) with 0 by lia.
    rewrite !Z.sub_0_r. change (2 ^ 0) with 1.
    destruct (Z.ltb_spec z 0); split;
      (match goal with |- (?a <? ?b) = (?c <? ?d) =>
         destruct (Z.ltb_spec a b), (Z.ltb_spec c d); first [done | lia] end).
Qed.
