(* ===== verification/Convert.v ===== *)
(** * Converting between Perl and upb values (xs/convert/sv_to_upb.c, upb_to_sv.c)

    Perl scalars and containers on one side, typed upb values on the other, and
    the message types that say which is expected. *)

From S2P Require Import Prelude PerlNumbers.

(** ** Descriptors *)

(** [upb_FieldType]. *)
Inductive FieldType :=
  | TDouble | TFloat | TInt64 | TUInt64 | TInt32 | TFixed64 | TFixed32 | TBool | TString
  | TGroup | TMessage | TBytes | TUInt32 | TEnum | TSFixed32 | TSFixed64 | TSInt32 | TSInt64.

#[export] Instance FieldType_eq_dec : EqDecision FieldType.
Proof. solve_decision. Defined.

(** What the conversions ask a [upb_FieldDef].  [f_sub] is the message type of a
    message, group or map field (for a map, its entry type), [f_enum] the values of
    its enum; [upb_FieldDef_IsRepeated] holds of maps too. *)
Record FieldDef := {
  f_name : bytes;
  f_number : Z;
  f_type : FieldType;
  f_repeated : bool;
  f_map : bool;
  f_sub : nat;
  f_enum : option (list (bytes * Z));
  f_oneof : option nat;
}.

Definition IsSubMessage (f : FieldDef) : bool :=
  match f_type f with TMessage | TGroup => true | _ => false end.

(** The message types of a pool, by number. *)
Abbreviation schema := (nat → list FieldDef).

(** ** Values *)

(** [upb_MessageValue]: which member of the union was written.  A message keeps its
    set fields by number, an array its elements, a map its entries. *)
Inductive value :=
  | VInt32 (z : Z) | VUInt32 (z : Z) | VInt64 (z : Z) | VUInt64 (z : Z)
  | VBool (b : bool) | VFloat (x : nv) | VDouble (x : nv) | VStr (s : bytes)
  | VMsg (def : nat) (fields : list (Z * value))
  | VArr (items : list value)
  | VMap (entries : list (value * value)).

(** Perl values.  [IV], [UV], [NV], [PV]: scalars by the slot that is valid ([UV]
    only above [IV_MAX], as Perl keeps it; a [PV] with its UTF-8 flag, a hash key
    likewise).  [BigInt]: a
    [Math::BigInt].  References: plain hashes in their iteration order, arrays
    ([tied] when they carry foreign tie magic) with holes, message objects, the
    containers tied to a field [g] of a message, objects of other classes that are hashes,
    anything else. *)
Inductive sv :=
  | Undef
  | IV (z : Z) | UV (z : Z) | NV (x : nv) | PV (s : bytes) (utf8 : bool)
  | BigInt (z : Z)
  | HashRef (entries : list (bytes * bool * sv))
  | ArrayRef (tied : bool) (items : list (option sv))
  | MsgObj (def : nat) (fields : list (Z * value))
  | TiedArray (g : FieldDef) (items : list value)
  | TiedHash (g : FieldDef) (entries : list (value * value))
  | Object (n : Z)
  | OtherRef.

(** Perl's reading of decimal strings as numbers, and of references as numbers
    (addresses, or what an overloaded class answers); the hash an object is, for what does
    not look at its class; and that no value holds itself: [sv_rank] is the nesting of
    hashes, arrays and objects. *)
Class PerlNum := {
  looks_like_number : bytes → bool;
  str_nv : bytes → nv;
  str_iv : bytes → Z;
  str_uv : bytes → Z;
  ref_nv : sv → nv;
  ref_iv : sv → Z;
  ref_uv : sv → Z;
  obj_hash : sv → list (bytes * bool * sv);
  sv_rank : sv → nat;
  rank_hash l kv : kv ∈ l → (sv_rank kv.2 < sv_rank (HashRef l))%nat;
  rank_array tied l e : Some e ∈ l → (sv_rank e < sv_rank (ArrayRef tied l))%nat;
  rank_obj s kv : kv ∈ obj_hash s → (sv_rank kv.2 < sv_rank s)%nat;
}.

(** *** Flags and coercions of Perl scalars *)

Definition SvIOK (s : sv) : bool := match s with IV _ | UV _ => true | _ => false end.
Definition SvUOK (s : sv) : bool := match s with UV _ => true | _ => false end.
Definition SvNOK (s : sv) : bool := match s with NV _ => true | _ => false end.
Definition SvPOK (s : sv) : bool := match s with PV _ _ => true | _ => false end.
Definition is_bigint (s : sv) : bool := match s with BigInt _ => true | _ => false end.

Section Coercions.
Context `{PerlNum}.

Definition SvNV (s : sv) : nv :=
  match s with
  | Undef => Fin false 0 0
  | IV z | UV z => nv_of_Z z
  | NV x => x
  | PV s _ => str_nv s
  | _ => ref_nv s
  end.

Definition SvIV (s : sv) : Z :=
  match s with
  | Undef => 0
  | IV z => z
  | UV z => i64 z
  | NV x => iv_of_nv x
  | PV s _ => str_iv s
  | _ => ref_iv s
  end.

Definition SvUV (s : sv) : Z :=
  match s with
  | Undef => 0
  | IV z => u64 z
  | UV z => z
  | NV x => uv_of_nv x
  | PV s _ => str_uv s
  | _ => ref_uv s
  end.

Definition SvTRUE (s : sv) : bool :=
  match s with
  | Undef => false
  | IV z | UV z => negb (z =? 0)
  | NV (Fin _ m _) => negb (m =? 0)
  | NV _ => true
  | PV s _ => negb (bool_decide (s = []) || bool_decide (s = [48]))
  | BigInt z => negb (z =? 0)
  | _ => true
  end.

Definition is_number (s : sv) : bool :=
  SvIOK s || SvNOK s || match s with PV s _ => looks_like_number s | _ => false end.
End Coercions.

(** [SvPVutf8]: a string without the flag is upgraded from Latin-1. *)
Fixpoint upgrade (s : bytes) : bytes :=
  match s with
  | [] => []
  | c :: s => if c <? 128 then c :: upgrade s
              else (192 + Z.shiftr c 6) :: (128 + Z.land c 63) :: upgrade s
  end.

Definition SvPVutf8 (s : bytes) (utf8 : bool) : bytes := if utf8 then s else upgrade s.

(** [SvPVbyte]: a flagged string is downgraded, and croaks on a wide character. *)
Fixpoint downgrade (s : bytes) : option bytes :=
  match s with
  | [] => Some []
  | c :: s' =>
      if c <? 128 then cons c <$> downgrade s'
      else
        match s' with
        | d :: s'' => if (c =? 194) || (c =? 195)
                      then cons (Z.land c 3 * 64 + Z.land d 63) <$> downgrade s''
                      else None
        | [] => None
        end
  end.

Definition SvPVbyte (s : bytes) (utf8 : bool) : outcome bytes :=
  if utf8 then
    match downgrade s with
    | Some b => Ret b
    | None => Croak "Wide character in subroutine entry"
    end
  else Ret s.

(** A C string ends at its first NUL. *)
Fixpoint cstr (s : bytes) : bytes :=
  match s with
  | [] => []
  | c :: s => if c =? 0 then [] else c :: cstr s
  end.

(** ** 64-bit integers (protobuf/utils.c) *)

Section Int64.
Context `{PerlNum}.

(** [PerlUpb_SVToI64] and [PerlUpb_SVToU64]. *)
Definition SVToI64 (s : sv) : outcome Z :=
  if SvIOK s then Ret (SvIV s)
  else
    match s with
    | BigInt z => Ret (strtoll (decimal z))
    | PV p _ => Ret (strtoll (cstr p))
    | _ => int64_of_nv (SvNV s)
    end.

Definition SVToU64 (s : sv) : outcome Z :=
  if SvUOK s || SvIOK s then Ret (SvUV s)
  else
    match s with
    | BigInt z => Ret (strtoull (decimal z))
    | PV p _ => Ret (strtoull (cstr p))
    | _ => uint64_of_nv (SvNV s)
    end.

(** [PerlUpb_I64ToSV] and [PerlUpb_U64ToSV], with 64-bit IVs: [newSVuv] keeps a value
    that fits as an IV. *)
Definition newSVuv (u : Z) : sv := if u <=? IV_MAX then IV u else UV u.
Definition I64ToSV (val : Z) : sv :=
  if (IV_MIN <=? val) && (val <=? IV_MAX) then IV val else BigInt val.
Definition U64ToSV (val : Z) : sv := if val <=? UV_MAX then newSVuv val else BigInt val.
End Int64.

(** ** From Perl to upb *)

Section ToUpb.
Context `{PerlNum} (sch : schema) (Arena_Malloc : Z → bool).

(** [verify_limits] against the doubles [lo] and [hi]. *)
Definition verify_limits (s : sv) (lo hi : nv) : outcome unit :=
  let val := SvNV s in
  if nv_ltb val lo || nv_ltb hi val then Croak "Value out of range for field" else Ret tt.

Definition int_limit (z : Z) : nv := Fin (z <? 0) (Z.abs z) 0.

(** The doubles the literals -3.402823466e+38 and 3.402823466e+38 denote. *)
Definition float_limit (neg : bool) : nv := Fin neg 9007198716850230 75.

(** [verify_limits_64]. *)
Definition verify_limits_64 (s : sv) (is_signed : bool) : outcome unit :=
  if is_bigint s then Ret tt
  else if is_signed then Ret tt
  else if SvUOK s then Ret tt
  else if SvNOK s then
    if nv_ltb (SvNV s) (Fin false 0 0) then Croak "Value out of range for unsigned field"
    else Ret tt
  else if SvIOK s then
    if SvIV s <? 0 then Croak "Value out of range for unsigned field" else Ret tt
  else Ret tt.

(** A key of a tied container as [hv_iterkey] answers it. *)
Definition key_text (k : value) : bytes :=
  match k with
  | VInt32 z | VUInt32 z | VInt64 z | VUInt64 z => decimal z
  | VBool b => if b then str "1" else []
  | VStr s => s
  | _ => []
  end.

Fixpoint assoc {A} (k : bytes) (l : list (bytes * A)) : option A :=
  match l with
  | [] => None
  | (k', a) :: l => if bool_decide (k = k') then Some a else assoc k l
  end.

(** [upb_MessageDef_FindFieldByName] and [..ByNumber]. *)
Definition FindFieldByName (def : nat) (name : bytes) : option FieldDef :=
  list_find (λ f, f_name f = name) (sch def) ≫= λ r, Some r.2.
Definition FindFieldByNumber (def : nat) (n : Z) : option FieldDef :=
  list_find (λ f, f_number f = n) (sch def) ≫= λ r, Some r.2.

(** [upb_Message_SetFieldByDef]: another member of the field's oneof is cleared. *)
Definition same_oneof (def : nat) (f : FieldDef) (n : Z) : bool :=
  match f_oneof f, FindFieldByNumber def n ≫= f_oneof with
  | Some o, Some o' => bool_decide (o = o')
  | _, _ => false
  end.

Definition SetFieldByDef (def : nat) (fields : list (Z * value)) (f : FieldDef) (v : value)
  : list (Z * value) :=
  filter (λ nv, nv.1 ≠ f_number f ∧ same_oneof def f nv.1 = false) fields ++ [(f_number f, v)].

(** [upb_Map_Set]. *)
Fixpoint value_eqb (a b : value) : bool :=
  match a, b with
  | VInt32 x, VInt32 y | VUInt32 x, VUInt32 y | VInt64 x, VInt64 y | VUInt64 x, VUInt64 y => x =? y
  | VBool x, VBool y => Bool.eqb x y
  | VStr x, VStr y => bool_decide (x = y)
  | _, _ => false
  end.

Fixpoint Map_Set (m : list (value * value)) (k v : value) : list (value * value) :=
  match m with
  | [] => [(k, v)]
  | (k', v') :: m => if value_eqb k k' then (k, v) :: m else (k', v') :: Map_Set m k v
  end.

Definition alloc_string (b : bytes) : outcome value :=
  if Arena_Malloc (Z.of_nat (length b)) then Ret (VStr b)
  else Croak "Arena allocation failed for string".

(** The hash of a message field: each key names a field of the target. *)
Fixpoint populate (rec : sv → FieldDef → outcome value) (def : nat)
    (entries : list (bytes * bool * sv)) (dst : list (Z * value)) : outcome (list (Z * value)) :=
  match entries with
  | [] => Ret dst
  | (key, _, val_sv) :: entries =>
      match FindFieldByName def (cstr key) with
      | None => Croak "Field not found in message"
      | Some sub_f =>
          sub_val ← rec val_sv sub_f;
          populate rec def entries (SetFieldByDef def dst sub_f sub_val)
      end
  end.

(** [convert_singular_sv_to_upb]; [rec] is [PerlUpb_SvToUpb] for the hash's values. *)
Definition convert_singular (rec : sv → FieldDef → outcome value) (s : sv) (f : FieldDef)
  : outcome value :=
  match f_type f with
  | TInt32 | TSInt32 | TSFixed32 =>
      if is_number s then
        verify_limits s (int_limit INT32_MIN) (int_limit INT32_MAX);;
        Ret (VInt32 (i32 (SvIV s)))
      else Croak "Expected an Integer"
  | TString =>
      match s with
      | PV p utf8 => alloc_string (SvPVutf8 p utf8)
      | _ => Croak "Expected a String"
      end
  | TBytes =>
      match s with
      | PV p utf8 => b ← SvPVbyte p utf8; alloc_string b
      | _ => Croak "Expected a Bytes"
      end
  | TBool => Ret (VBool (SvTRUE s))
  | TFloat =>
      if is_number s then
        verify_limits s (float_limit true) (float_limit false);;
        Ret (VFloat (to_float (SvNV s)))
      else Croak "Expected a Number"
  | TDouble => if is_number s then Ret (VDouble (SvNV s)) else Croak "Expected a Number"
  | TUInt32 | TFixed32 =>
      if is_number s then
        verify_limits s (int_limit 0) (int_limit UINT32_MAX);;
        Ret (VUInt32 (u32 (SvUV s)))
      else Croak "Expected an Unsigned Integer"
  | TInt64 | TSInt64 | TSFixed64 =>
      verify_limits_64 s true;; z ← SVToI64 s; Ret (VInt64 z)
  | TUInt64 | TFixed64 =>
      verify_limits_64 s false;; z ← SVToU64 s; Ret (VUInt64 z)
  | TEnum =>
      if SvIOK s then Ret (VInt32 (i32 (SvIV s)))
      else
        match s with
        | PV p utf8 =>
            match f_enum f with
            | None => Croak "Missing EnumDef"
            | Some values =>
                match assoc (SvPVutf8 p utf8) values with
                | Some n => Ret (VInt32 n)
                | None => Croak "Invalid enum name"
                end
            end
        | _ => Croak "Expected an Integer or Enum Name"
        end
  | TMessage | TGroup =>
      match s with
      | HashRef entries => VMsg (f_sub f) <$> populate rec (f_sub f) entries []
      | MsgObj def fields =>
          if bool_decide (def = f_sub f) then Ret (VMsg def fields)
          else Croak "Message type mismatch"
      | TiedHash _ [] => Ret (VMsg (f_sub f) [])
      | TiedHash _ ((k, _) :: _) => (* not an object; its values are not fetched *)
          match FindFieldByName (f_sub f) (cstr (key_text k)) with
          | None => Croak "Field not found in message"
          | Some _ => Croak "Cannot convert undef to non-message type"
          end
      | _ => Croak "Invalid message object"
      end
  end.

(** [PerlUpb_SvToUpb_BatchRaw], one element: no check of any kind. *)
Definition raw_element (t : FieldType) (s : sv) : outcome value :=
  match t with
  | TBool => Ret (VBool (SvTRUE s))
  | TInt32 | TSInt32 | TSFixed32 | TEnum => Ret (VInt32 (i32 (SvIV s)))
  | TUInt32 | TFixed32 => Ret (VUInt32 (u32 (SvUV s)))
  | TFloat => Ret (VFloat (to_float (SvNV s)))
  | TDouble => Ret (VDouble (SvNV s))
  | TInt64 | TSInt64 | TSFixed64 => z ← SVToI64 s; Ret (VInt64 z)
  | TUInt64 | TFixed64 => z ← SVToU64 s; Ret (VUInt64 z)
  | _ => Croak "Unsupported type for fast-path"
  end.

Fixpoint mapO {A B} (g : A → outcome B) (l : list A) : outcome (list B) :=
  match l with
  | [] => Ret []
  | a :: l => b ← g a; bs ← mapO g l; Ret (b :: bs)
  end.

(** Copying an element of a tied container as an element of [f]: a message is deep
    copied with the layout of [f]'s type, anything else by the size of [f]'s type.
    Reading it as another type than it was written is undefined. *)
Definition copy_element (f : FieldDef) (v : value) : outcome value :=
  match f_type f, v with
  | (TInt32 | TSInt32 | TSFixed32 | TEnum), VInt32 _
  | (TUInt32 | TFixed32), VUInt32 _
  | (TInt64 | TSInt64 | TSFixed64), VInt64 _
  | (TUInt64 | TFixed64), VUInt64 _
  | TBool, VBool _ | TFloat, VFloat _ | TDouble, VDouble _
  | (TString | TBytes), VStr _ => Ret v
  | (TMessage | TGroup), VMsg def _ =>
      if bool_decide (def = f_sub f) then Ret v else Fault "deep copy with another type's layout"
  | _, _ => Fault "value of another type"
  end.

Fixpoint copy_entries (kf vf : FieldDef) (src dst : list (value * value))
  : outcome (list (value * value)) :=
  match src with
  | [] => Ret dst
  | (k, v) :: src =>
      k ← copy_element kf k; v ← copy_element vf v; copy_entries kf vf src (Map_Set dst k v)
  end.

Fixpoint hash_entries (rec : sv → FieldDef → outcome value) (kf vf : FieldDef)
    (src : list (bytes * bool * sv)) (dst : list (value * value)) : outcome (list (value * value)) :=
  match src with
  | [] => Ret dst
  | (k, utf8, v) :: src =>
      k ← convert_singular rec (PV k utf8) kf;
      v ← convert_singular rec v vf;
      hash_entries rec kf vf src (Map_Set dst k v)
  end.

(** Whether the batch fast path serves the field's type. *)
Definition fast_path (f : FieldDef) : bool :=
  negb (IsSubMessage f) &&
  match f_type f with TString | TBytes => false | _ => true end.

(** One round of the slow path; [FETCH] of a foreign tied array answers something. *)
Definition array_item (rec : sv → FieldDef → outcome value) (tied : bool) (f : FieldDef)
    (o : option sv) : outcome value :=
  match (if tied then Some (default Undef o) else o) with
  | None => Croak "Error fetching element"
  | Some e => convert_singular rec e f
  end.

(** [PerlUpb_SvToUpb] after its first lines. *)
Definition SvToUpb_with (rec : sv → FieldDef → outcome value) (s : sv) (f : FieldDef)
  : outcome value :=
  match s with
  | Undef => Croak "Cannot convert undef to non-message type"
  | _ =>
      if f_repeated f then
        if f_map f then
          match FindFieldByNumber (f_sub f) 1, FindFieldByNumber (f_sub f) 2 with
          | Some kf, Some vf =>
              match s with
              | TiedHash g entries =>
                  if bool_decide (f_type g = f_type f) then VMap <$> copy_entries kf vf entries []
                  else Croak "Type mismatch when copying map field"
              | HashRef entries => VMap <$> hash_entries rec kf vf entries []
              | BigInt _ | MsgObj _ _ | Object _ => VMap <$> hash_entries rec kf vf (obj_hash s) []
              | _ => Croak "Expected a Hash Reference"
              end
          | _, _ => Fault "map entry type without key and value"
          end
        else
          match s with
          | TiedArray g items =>
              if bool_decide (f_type g = f_type f) then VArr <$> mapO (copy_element f) items
              else Croak "Type mismatch when copying repeated field"
          | ArrayRef tied items =>
              if negb tied && fast_path f then
                VArr <$> mapO (raw_element (f_type f)) (default Undef <$> items)
              else
                VArr <$> mapO (array_item rec tied f) items
          | _ => Croak "Expected an Array Reference"
          end
      else convert_singular rec s f
  end.

(** The recursion goes through the hashes of message fields. *)
Fixpoint SvToUpb_fuel (fuel : nat) (s : sv) (f : FieldDef) : outcome value :=
  match fuel with
  | O => Fault "out of fuel"
  | S fuel => SvToUpb_with (SvToUpb_fuel fuel) s f
  end.

End ToUpb.

(** The fuel a value needs. *)
Definition SvToUpb `{PerlNum} (sch : schema) (mem : Z → bool) (s : sv) (f : FieldDef) : outcome value :=
  SvToUpb_fuel sch mem (S (sv_rank s)) s f.

(** [PerlUpb_SvToUpb_Element]. *)
Definition SvToUpb_Element `{PerlNum} (sch : schema) (mem : Z → bool) (s : sv) (f : FieldDef)
  : outcome value :=
  convert_singular sch mem (SvToUpb_fuel sch mem (S (sv_rank s))) s f.

(** ** From upb to Perl *)

Section ToPerl.
Context (sch : schema).

(** [convert_singular_upb_to_sv]: the union is read as the field's type.  A message
    becomes the wrapper of it. *)
Definition convert_singular_to_sv (v : value) (f : FieldDef) : outcome sv :=
  match f_type f, v with
  | (TInt32 | TSInt32 | TSFixed32 | TEnum), VInt32 z => Ret (IV z)
  | TString, VStr b => Ret (PV b true)
  | TBytes, VStr b => Ret (PV b false)
  | TBool, VBool b => Ret (if b then IV 1 else PV [] false)
  | TFloat, VFloat x => Ret (NV x)
  | TDouble, VDouble x => Ret (NV x)
  | (TUInt32 | TFixed32), VUInt32 z => Ret (newSVuv z)
  | (TInt64 | TSInt64 | TSFixed64), VInt64 z => Ret (I64ToSV z)
  | (TUInt64 | TFixed64), VUInt64 z => Ret (U64ToSV z)
  | (TMessage | TGroup), VMsg def fields => Ret (MsgObj def fields)
  | _, _ => Fault "value of another type"
  end.

(** [PerlUpb_UpbToSv_Batch]: four at a time, then the rest. *)
Fixpoint UpbToSv_Batch (vals : list value) (f : FieldDef) : outcome (list sv) :=
  match vals with
  | a :: b :: c :: d :: vals =>
      a ← convert_singular_to_sv a f;
      b ← convert_singular_to_sv b f;
      c ← convert_singular_to_sv c f;
      d ← convert_singular_to_sv d f;
      out ← UpbToSv_Batch vals f;
      Ret (a :: b :: c :: d :: out)
  | vals => mapO (λ v, convert_singular_to_sv v f) vals
  end.

(** [upb_FieldDef_CType], for the types [PerlUpb_UpbToSv_BatchRaw] switches on. *)
Inductive CType :=
  | CBool | CFloat | CInt32 | CUInt32 | CEnum | CMessage | CDouble | CInt64 | CUInt64
  | CString | CBytes.

Definition FieldDef_CType (f : FieldDef) : CType :=
  match f_type f with
  | TDouble => CDouble | TFloat => CFloat
  | TInt64 | TSInt64 | TSFixed64 => CInt64
  | TUInt64 | TFixed64 => CUInt64
  | TInt32 | TSInt32 | TSFixed32 => CInt32
  | TUInt32 | TFixed32 => CUInt32
  | TBool => CBool | TString => CString | TBytes => CBytes
  | TGroup | TMessage => CMessage | TEnum => CEnum
  end.

Definition raw_to_sv (t : CType) (v : value) : outcome sv :=
  match t, v with
  | CBool, VBool b => Ret (if b then IV 1 else PV [] false)
  | (CInt32 | CEnum), VInt32 z => Ret (IV z)
  | CUInt32, VUInt32 z => Ret (newSVuv z)
  | CFloat, VFloat x | CDouble, VDouble x => Ret (NV x)
  | CInt64, VInt64 z => Ret (I64ToSV z)
  | CUInt64, VUInt64 z => Ret (U64ToSV z)
  | (CMessage | CString | CBytes), _ => Croak "Unsupported CType"
  | _, _ => Fault "value of another type"
  end.

(** [PerlUpb_UpbToSv_BatchRaw]. *)
Definition UpbToSv_BatchRaw (t : CType) (vals : list value) : outcome (list sv) :=
  mapO (raw_to_sv t) vals.

(** [PerlUpb_Message_ToSv].  Whether a field is emitted: a map field answers to
    [IsRepeated], so its presence is read through the layout of an array;
    [misread] is the size found that way. *)
Context (misread : list (value * value) → Z).

Definition get_field (fields : list (Z * value)) (n : Z) : option value :=
  snd <$> (list_find (λ nv, nv.1 = n) fields ≫= λ r, Some r.2).

Definition present (f : FieldDef) (v : option value) : bool :=
  match v with
  | None => false
  | Some (VArr items) => f_repeated f && (0 <? Z.of_nat (length items))
  | Some (VMap entries) => f_repeated f && (0 <? misread entries)
  | Some _ => negb (f_repeated f)
  end.

Definition ToSv_element (rec : value → outcome sv) (f : FieldDef) (v : value) : outcome sv :=
  if IsSubMessage f then rec v else convert_singular_to_sv v f.

(** A map key as a Perl hash key. *)
Definition hash_key (s : sv) : bytes * bool :=
  match s with
  | PV b utf8 => (b, utf8)
  | IV z | UV z | BigInt z => (decimal z, false)
  | _ => ([], false)
  end.

Fixpoint ToSv_fields (rec : value → outcome sv) (fields : list (Z * value)) (fs : list FieldDef)
  : outcome (list (bytes * bool * sv)) :=
  match fs with
  | [] => Ret []
  | f :: fs =>
      let v := get_field fields (f_number f) in
      here ←
        (if present f v then
           match v with
           | Some (VMap entries) =>
               if f_map f then
                 match FindFieldByNumber sch (f_sub f) 1, FindFieldByNumber sch (f_sub f) 2 with
                 | Some kf, Some vf =>
                     kvs ← mapO (λ kv : value * value,
                       k ← convert_singular_to_sv kv.1 kf;
                       w ← ToSv_element rec vf kv.2;
                       Ret (hash_key k, w)) entries;
                     Ret [(f_name f, false, HashRef kvs)]
                 | _, _ => Fault "map entry type without key and value"
                 end
               else Fault "value of another type"
           | Some (VArr items) =>
               if f_map f then Fault "value of another type"
               else
                 svs ← (if fast_path f then UpbToSv_BatchRaw (FieldDef_CType f) items
                        else mapO (ToSv_element rec f) items);
                 Ret [(f_name f, false, ArrayRef false (Some <$> svs))]
           | Some v => w ← ToSv_element rec f v; Ret [(f_name f, false, w)]
           | None => Ret []
           end
         else Ret []);
      rest ← ToSv_fields rec fields fs;
      Ret (here ++ rest)
  end.

Fixpoint Message_ToSv (fuel : nat) (v : value) : outcome sv :=
  match fuel with
  | O => Fault "out of fuel"
  | S fuel =>
      match v with
      | VMsg def fields => HashRef <$> ToSv_fields (Message_ToSv fuel) fields (sch def)
      | _ => Fault "not a message"
      end
  end.

End ToPerl.

Fixpoint value_depth (v : value) : nat :=
  match v with
  | VMsg _ fields => S (max_list ((λ nv, value_depth nv.2) <$> fields))
  | VArr items => max_list (value_depth <$> items)
  | VMap entries => max_list ((λ kv, value_depth kv.2) <$> entries)
  | _ => 0
  end.

(** [PerlUpb_Message_ToPerl]. *)
Definition Message_ToPerl (sch : schema) (misread : list (value * value) → Z) (v : value)
  : outcome sv := Message_ToSv sch misread (value_depth v) v.

(** ** Typing *)

Definition within (lo hi z : Z) : bool := (lo <=? z) && (z <=? hi).

Definition scalar_ok (t : FieldType) (v : value) : bool :=
  match t, v with
  | (TInt32 | TSInt32 | TSFixed32 | TEnum), VInt32 z => within INT32_MIN INT32_MAX z
  | (TUInt32 | TFixed32), VUInt32 z => within 0 UINT32_MAX z
  | (TInt64 | TSInt64 | TSFixed64), VInt64 z => within IV_MIN IV_MAX z
  | (TUInt64 | TFixed64), VUInt64 z => within 0 UV_MAX z
  | TBool, VBool _ | TFloat, VFloat _ | TDouble, VDouble _ => true
  | (TString | TBytes), VStr _ => true
  | _, _ => false
  end.

(** [elem_ok f v]: one element of field [f]; [field_ok f v]: what the field holds. *)
Inductive elem_ok (sch : schema) : FieldDef → value → Prop :=
  | ok_scalar f v : scalar_ok (f_type f) v = true → elem_ok sch f v
  | ok_message f fields :
      IsSubMessage f = true →
      Forall (λ nv, ∃ g, g ∈ sch (f_sub f) ∧ f_number g = nv.1 ∧ field_ok sch g nv.2) fields →
      elem_ok sch f (VMsg (f_sub f) fields)
with field_ok (sch : schema) : FieldDef → value → Prop :=
  | ok_single f v : f_repeated f = false → elem_ok sch f v → field_ok sch f v
  | ok_array f items :
      f_repeated f = true → f_map f = false → Forall (elem_ok sch f) items →
      field_ok sch f (VArr items)
  | ok_map f kf vf entries :
      f_repeated f = true → f_map f = true →
      FindFieldByNumber sch (f_sub f) 1 = Some kf → FindFieldByNumber sch (f_sub f) 2 = Some vf →
      Forall (λ kv, elem_ok sch kf kv.1 ∧ elem_ok sch vf kv.2) entries →
      field_ok sch f (VMap entries).

(** Perl values as Perl makes them: integers in their slots' ranges, wrapped
    messages and containers typed by their own descriptors. *)
Inductive sv_ok `{PerlNum} (sch : schema) : sv → Prop :=
  | sv_undef : sv_ok sch Undef
  | sv_iv z : within IV_MIN IV_MAX z = true → sv_ok sch (IV z)
  | sv_uv z : within (IV_MAX + 1) UV_MAX z = true → sv_ok sch (UV z)
  | sv_nv x : sv_ok sch (NV x)
  | sv_pv b utf8 : sv_ok sch (PV b utf8)
  | sv_bigint z : Forall (λ kv, sv_ok sch kv.2) (obj_hash (BigInt z)) → sv_ok sch (BigInt z)
  | sv_hash entries : Forall (λ kv, sv_ok sch kv.2) entries → sv_ok sch (HashRef entries)
  | sv_array tied items :
      Forall (λ o, ∀ e, o = Some e → sv_ok sch e) items → sv_ok sch (ArrayRef tied items)
  | sv_msg f fields : elem_ok sch f (VMsg (f_sub f) fields) →
      Forall (λ kv, sv_ok sch kv.2) (obj_hash (MsgObj (f_sub f) fields)) → sv_ok sch (MsgObj (f_sub f) fields)
  | sv_tied_array g items : Forall (elem_ok sch g) items → sv_ok sch (TiedArray g items)
  | sv_tied_hash g entries : field_ok sch g (VMap entries) → sv_ok sch (TiedHash g entries)
  | sv_object n : Forall (λ kv, sv_ok sch kv.2) (obj_hash (Object n)) → sv_ok sch (Object n)
  | sv_other : sv_ok sch OtherRef.

(** What the pool guarantees of a field: maps are repeated, enum numbers 32-bit. *)
Definition fielddef_ok (f : FieldDef) : Prop :=
  (f_map f = true → f_repeated f = true) ∧
  ∀ values, f_enum f = Some values → Forall (λ kn, within INT32_MIN INT32_MAX kn.2 = true) values.

Definition schema_ok (sch : schema) : Prop := ∀ def, Forall fielddef_ok (sch def).

Lemma within_spec lo hi z : within lo hi z = true ↔ lo ≤ z ≤ hi.
Proof. unfold within. rewrite andb_true_iff, !Z.leb_le. done. Qed.

Lemma within_i32 z : within INT32_MIN INT32_MAX (i32 z) = true.
Proof. apply within_spec. pose proof (i32_bound z). unfold INT32_MIN, INT32_MAX. lia. Qed.
Lemma within_u32 z : within 0 UINT32_MAX (u32 z) = true.
Proof. apply within_spec. pose proof (u32_bound z). unfold UINT32_MAX. lia. Qed.
Lemma within_i64 z : within IV_MIN IV_MAX (i64 z) = true.
Proof.
  apply within_spec. unfold i64, IV_MIN, IV_MAX.
  pose proof (Z.mod_pos_bound (z + 2 ^ 63) (2 ^ 64)). lia.
Qed.
Lemma within_u64 z : within 0 UV_MAX (u64 z) = true.
Proof. apply within_spec. pose proof (u64_bound z). unfold UV_MAX. lia. Qed.

Lemma strtoll_within s : within IV_MIN IV_MAX (strtoll s) = true.
Proof. apply within_spec. unfold strtoll, IV_MIN, IV_MAX. destruct (strto s). lia. Qed.
Lemma strtoull_within s : within 0 UV_MAX (strtoull s) = true.
Proof.
  unfold strtoull. destruct (strto s) as [neg n]. case_match; [done|]. apply within_u64.
Qed.

#[export] Hint Resolve within_i32 within_u32 within_i64 within_u64 strtoll_within strtoull_within
  : c_arith.

Section Soundness.
Context `{PerlNum} (sch : schema) (mem : Z → bool) (Hsch : schema_ok sch).

Lemma SVToI64_within s z : sv_ok sch s → SVToI64 s = Ret z → within IV_MIN IV_MAX z = true.
Proof.
  intros Hs. unfold SVToI64. destruct s; simpl; inversion Hs; subst;
    try (intros [= <-]; auto with c_arith; fail);
    unfold int64_of_nv; repeat case_match; intros; simplify_eq; bool_to_prop;
    apply within_spec; lia.
Qed.

Lemma SVToU64_within s z : sv_ok sch s → SVToU64 s = Ret z → within 0 UV_MAX z = true.
Proof.
  intros Hs. unfold SVToU64. destruct s; simpl; inversion Hs; subst;
    try (intros [= <-]; auto with c_arith; fail);
    try (intros [= <-]; match goal with E : within _ _ _ = true |- _ =>
           apply within_spec in E; apply within_spec; unfold IV_MAX in *; lia end);
    unfold uint64_of_nv; repeat case_match; intros; simplify_eq; bool_to_prop;
    apply within_spec; lia.
Qed.

Lemma find_number def n f :
  FindFieldByNumber sch def n = Some f → f ∈ sch def ∧ f_number f = n.
Proof.
  unfold FindFieldByNumber. destruct (list_find _ _) as [[i g]|] eqn:E; [|done].
  simpl. intros [= <-]. apply list_find_Some in E as (Hl & Hn & _).
  split; [by eapply list_elem_of_lookup_2|done].
Qed.

Lemma find_name def k f : FindFieldByName sch def k = Some f → f ∈ sch def.
Proof.
  unfold FindFieldByName. destruct (list_find _ _) as [[i g]|] eqn:E; [|done].
  simpl. intros [= <-]. apply list_find_Some in E as (Hl & Hn & _).
  by eapply list_elem_of_lookup_2.
Qed.

Lemma in_schema_ok def f : f ∈ sch def → fielddef_ok f.
Proof. intros Hin. specialize (Hsch def). rewrite Forall_forall in Hsch. by apply Hsch. Qed.

Definition member_ok (def : nat) (nv : Z * value) : Prop :=
  ∃ g, g ∈ sch def ∧ f_number g = nv.1 ∧ field_ok sch g nv.2.

Lemma SetField_ok def fields f v :
  f ∈ sch def → field_ok sch f v → Forall (member_ok def) fields →
  Forall (member_ok def) (SetFieldByDef sch def fields f v).
Proof.
  intros Hin Hv Hf. unfold SetFieldByDef. apply Forall_app. split.
  - apply Forall_forall. intros x Hx. apply list_elem_of_filter in Hx as [_ Hx].
    by eapply Forall_forall in Hf.
  - constructor; [|constructor]. by exists f.
Qed.

Lemma Map_Set_ok (P : value * value → Prop) m k v :
  P (k, v) → Forall P m → Forall P (Map_Set m k v).
Proof.
  intros Hkv. induction 1 as [|[k' v'] m Hx Hm IH]; simpl; [by repeat constructor|].
  case_match; by constructor.
Qed.

Lemma assoc_in {A} k (l : list (bytes * A)) a : assoc k l = Some a → (k, a) ∈ l.
Proof.
  induction l as [|[k' a'] l IH]; simpl; [done|].
  case_bool_decide; [intros [= <-]; subst; left|intros ?%IH; by right].
Qed.

Section Step.
Context (rec : sv → FieldDef → outcome value).
Context (Hrec : ∀ s f v, sv_ok sch s → fielddef_ok f → rec s f = Ret v → field_ok sch f v).

Lemma populate_ok def entries : ∀ dst out,
  Forall (λ kv, sv_ok sch kv.2) entries → Forall (member_ok def) dst →
  populate sch rec def entries dst = Ret out → Forall (member_ok def) out.
Proof.
  induction entries as [|[[k u] s] entries IH]; intros dst out Hs Hd; simpl; [by intros [= <-]|].
  apply Forall_cons_1 in Hs as [Hs1 Hs].
  destruct (FindFieldByName sch def (cstr k)) as [f|] eqn:Ef; [|done].
  apply find_name in Ef. intros (v & Hv & Hp)%bind_ret_inv.
  eapply IH; [done| |exact Hp]. apply SetField_ok; [done| |done].
  eapply Hrec; [done|by eapply in_schema_ok|done].
Qed.

Lemma convert_scalar_ok s f v :
  IsSubMessage f = false → sv_ok sch s → fielddef_ok f →
  convert_singular sch mem rec s f = Ret v → scalar_ok (f_type f) v = true.
Proof.
  intros Hsub Hs He. unfold convert_singular. unfold IsSubMessage in Hsub.
  destruct (f_type f) eqn:Et; try done; clear Hsub;
    try (case_match; [|done]; intros ([] & _ & [= <-])%bind_ret_inv; simpl; by auto with c_arith);
    try (intros ([] & _ & (z & Hz & [= <-])%bind_ret_inv)%bind_ret_inv;
         by first [eapply SVToI64_within | eapply SVToU64_within]).
  - case_match; [|done]. by intros [= <-].
  - by intros [= <-].
  - destruct s; try done. unfold alloc_string. case_match; [|done]. by intros [= <-].
  - destruct s; try done. intros (b & _ & Hb)%bind_ret_inv. revert Hb.
    unfold alloc_string. case_match; [|done]. by intros [= <-].
  - destruct (SvIOK s); [intros [= <-]; simpl; auto with c_arith|].
    destruct s; try done. destruct (f_enum f) as [values|] eqn:Ev; [|done].
    destruct (assoc _ _) as [n|] eqn:Ea; [|done]. intros [= <-]. simpl.
    apply assoc_in in Ea. destruct He as [_ He]. specialize (He _ Ev). rewrite Forall_forall in He. apply (He _ Ea).
Qed.

Lemma convert_message_ok s f v :
  IsSubMessage f = true → sv_ok sch s → convert_singular sch mem rec s f = Ret v → elem_ok sch f v.
Proof.
  intros Hsub Hs. unfold convert_singular.
  assert (match s with
          | HashRef entries => VMsg (f_sub f) <$> populate sch rec (f_sub f) entries []
          | MsgObj def fields =>
              if bool_decide (def = f_sub f) then Ret (VMsg def fields)
              else Croak "Message type mismatch"
          | TiedHash _ [] => Ret (VMsg (f_sub f) [])
          | TiedHash _ ((k, _) :: _) =>
              match FindFieldByName sch (f_sub f) (cstr (key_text k)) with
              | None => Croak "Field not found in message"
              | Some _ => Croak "Cannot convert undef to non-message type"
              end
          | _ => Croak "Invalid message object"
          end = Ret v → elem_ok sch f v) as Hmain.
  { destruct s; try done.
    - destruct (populate sch rec (f_sub f) entries []) as [fields| |] eqn:Ep; try done.
      intros [= <-]. apply ok_message; [done|]. inversion Hs; subst.
      by eapply populate_ok; [|constructor|].
    - case_bool_decide as Hd; [|done]. intros [= <-]. inversion Hs as [| | | | | | | |g ? Hm ?| | | |]; subst.
      inversion Hm as [? ? Hsc|? ? _ Hall]; subst; [by destruct (f_type g)|].
      assert (f_sub g = f_sub f) as Hd by done. rewrite Hd in *. by apply ok_message.
    - destruct entries as [|[k ?] ?]; [|by case_match]. intros [= <-]. by apply ok_message. }
  unfold IsSubMessage in Hsub. by destruct (f_type f).
Qed.

Lemma convert_singular_ok s f v :
  sv_ok sch s → fielddef_ok f → convert_singular sch mem rec s f = Ret v → elem_ok sch f v.
Proof.
  intros Hs He Hc. destruct (IsSubMessage f) eqn:Hsub; [by eapply convert_message_ok|].
  by eapply ok_scalar, convert_scalar_ok.
Qed.

Lemma raw_element_ok f s v :
  fast_path f = true → sv_ok sch s → raw_element (f_type f) s = Ret v → elem_ok sch f v.
Proof.
  unfold fast_path, IsSubMessage. intros Hf Hs Hr. apply ok_scalar.
  revert Hr. unfold raw_element. destruct (f_type f); try done;
    try (intros [= <-]; simpl; by auto with c_arith);
    intros (z & Hz & [= <-])%bind_ret_inv; by first [eapply SVToI64_within | eapply SVToU64_within].
Qed.

(** A copy that returns read every union as it was written. *)
Lemma copy_element_ok g f v v' :
  elem_ok sch g v → copy_element f v = Ret v' → elem_ok sch f v'.
Proof.
  intros Hg Hc. unfold copy_element in Hc. destruct Hg as [g v Hsc|g fields Hsub Hall].
  - assert (scalar_ok (f_type f) v = true ∧ v' = v) as [? ->].
    { destruct (f_type f), v; try done; simplify_eq/=; split; try done;
        by destruct (f_type g). }
    by apply ok_scalar.
  - assert (f_sub g = f_sub f ∧ v' = VMsg (f_sub g) fields ∧ IsSubMessage f = true)
      as (Hd & -> & Hf).
    { unfold IsSubMessage. destruct (f_type f); try done;
        (destruct (decide (f_sub g = f_sub f)) as [e|];
         [rewrite bool_decide_eq_true_2 in Hc by done; by simplify_eq
         |by rewrite bool_decide_eq_false_2 in Hc by done]). }
    rewrite Hd in *. by apply ok_message.
Qed.

Lemma mapO_Forall {A B} (g : A → outcome B) (P : A → Prop) (Q : B → Prop) l : ∀ out,
  (∀ a b, P a → g a = Ret b → Q b) → Forall P l → mapO g l = Ret out → Forall Q out.
Proof.
  induction l as [|a l IH]; intros out Hg Hl; simpl; [intros [= <-]; constructor|].
  apply Forall_cons_1 in Hl as [Ha Hl]. intros (b & Hb & (bs & Hbs & [= <-])%bind_ret_inv)%bind_ret_inv.
  constructor; [by eapply Hg|by eapply IH].
Qed.

Lemma hash_entries_ok kf vf src : ∀ dst out,
  fielddef_ok kf → fielddef_ok vf → Forall (λ kv, sv_ok sch kv.2) src →
  Forall (λ kv, elem_ok sch kf kv.1 ∧ elem_ok sch vf kv.2) dst →
  hash_entries sch mem rec kf vf src dst = Ret out →
  Forall (λ kv, elem_ok sch kf kv.1 ∧ elem_ok sch vf kv.2) out.
Proof.
  induction src as [|[[k u] s] src IH]; intros dst out Hk Hv Hs Hd; simpl; [by intros [= <-]|].
  apply Forall_cons_1 in Hs as [Hs1 Hs].
  intros (kv & Hkv & (vv & Hvv & Hrest)%bind_ret_inv)%bind_ret_inv.
  eapply IH; [done..| |exact Hrest]. apply Map_Set_ok; [|done].
  split; [by eapply convert_singular_ok, Hkv; [constructor|]|by eapply convert_singular_ok].
Qed.


Lemma copy_entries_ok kf0 vf0 kf vf src : ∀ dst out,
  Forall (λ kv, elem_ok sch kf0 kv.1 ∧ elem_ok sch vf0 kv.2) src →
  Forall (λ kv, elem_ok sch kf kv.1 ∧ elem_ok sch vf kv.2) dst →
  copy_entries kf vf src dst = Ret out →
  Forall (λ kv, elem_ok sch kf kv.1 ∧ elem_ok sch vf kv.2) out.
Proof.
  induction src as [|[k v] src IH]; intros dst out Hs Hd; simpl; [by intros [= <-]|].
  apply Forall_cons_1 in Hs as [[Hk Hv] Hs].
  intros (k' & Hk' & (v' & Hv' & Hrest)%bind_ret_inv)%bind_ret_inv.
  eapply IH; [exact Hs| |exact Hrest]. apply Map_Set_ok; [|done].
  split; [exact (copy_element_ok _ _ _ _ Hk Hk')|exact (copy_element_ok _ _ _ _ Hv Hv')].
Qed.

Lemma fmap_Ret_inv {A B} (g : A → B) (m : outcome A) b :
  g <$> m = Ret b → ∃ a, m = Ret a ∧ b = g a.
Proof. destruct m; try done. intros [= <-]. eauto. Qed.

Lemma array_item_ok tied f items out :
  fielddef_ok f → Forall (λ o : option sv, ∀ e, o = Some e → sv_ok sch e) items →
  mapO (array_item sch mem rec tied f) items = Ret out →
  Forall (elem_ok sch f) out.
Proof.
  intros He Hi. apply mapO_Forall with (P := λ o : option sv, ∀ e, o = Some e → sv_ok sch e);
    [|done]. intros o b Ho Hb. unfold array_item in Hb.
  destruct tied, o as [e|]; simpl in Hb; try done; eapply convert_singular_ok; eauto; constructor.
Qed.

Lemma SvToUpb_with_ok s f v :
  sv_ok sch s → fielddef_ok f →
  SvToUpb_with sch mem rec s f = Ret v → field_ok sch f v.
Proof.
  intros Hs He. pose proof (proj1 He) as Hmap. unfold SvToUpb_with.
  destruct (f_repeated f) eqn:Er.
  2:{ intros Hc. apply ok_single; [done|]. destruct s; try done; by eapply convert_singular_ok. }
  destruct (f_map f) eqn:Em.
  - destruct s; try done;
      (destruct (FindFieldByNumber sch (f_sub f) 1) as [kf|] eqn:Ek; [|done];
       destruct (FindFieldByNumber sch (f_sub f) 2) as [vf|] eqn:Ev; [|done]); try done.
    1-3, 5: pose proof (proj1 (find_number _ _ _ Ek)); pose proof (proj1 (find_number _ _ _ Ev));
      intros (out & Hout & ->)%fmap_Ret_inv; eapply ok_map; try done; inversion Hs; subst;
      eapply hash_entries_ok; [..|exact Hout]; try done; by eapply in_schema_ok.
    + case_bool_decide; [|done]. intros (out & Hout & ->)%fmap_Ret_inv. eapply ok_map; try done.
      inversion Hs as [| | | | | | | | | |? ? Hg| |]; subst.
      inversion Hg as [? ? Hgr Hge| |? kf0 vf0 ? ? ? ? ? Hall]; subst; try done.
      * inversion Hge; subst. by destruct (f_type g).
      * eapply copy_entries_ok; [exact Hall|constructor|exact Hout].
  - destruct s; try done.
    + intros Hv. case_match eqn:Ef.
      * apply andb_true_iff in Ef as [_ Ef]. apply fmap_Ret_inv in Hv as (out & Hout & ->).
        apply ok_array; try done. inversion Hs as [| | | | | | |? ? Hi| | | | |]; subst.
        eapply mapO_Forall with (P := sv_ok sch); [| |exact Hout].
        { intros a b Ha Hb. by eapply raw_element_ok. }
        apply Forall_fmap. eapply Forall_impl; [exact Hi|]. intros [e|] Hx; simpl; [by apply Hx|constructor].
      * apply fmap_Ret_inv in Hv as (out & Hout & ->). apply ok_array; try done.
        inversion Hs; subst. by eapply array_item_ok.
    + case_bool_decide; [|done]. intros (out & Hout & ->)%fmap_Ret_inv. apply ok_array; try done.
      inversion Hs; subst. eapply mapO_Forall; [|done|exact Hout].
      intros a b Ha Hb. by eapply copy_element_ok.
Qed.
End Step.
End Soundness.

(** ** The recursion *)

Section Fuel.
Context `{PerlNum} (sch : schema) (mem : Z → bool).

Lemma populate_ext rec1 rec2 def entries : ∀ dst,
  (∀ kv f, kv ∈ entries → rec1 kv.2 f = rec2 kv.2 f) →
  populate sch rec1 def entries dst = populate sch rec2 def entries dst.
Proof.
  induction entries as [|[[k u] s] entries IH]; intros dst Hr; simpl; [done|].
  destruct (FindFieldByName sch def (cstr k)) as [f|]; [|done].
  pose proof (Hr (k, u, s) f (list_elem_of_here _ _)) as E. simpl in E. rewrite E.
  destruct (rec2 s f); try done. rewrite !bind_Ret. apply IH.
  intros kv g Hin. apply Hr. by right.
Qed.

Lemma convert_singular_ext rec1 rec2 s f :
  (∀ l kv g, s = HashRef l → kv ∈ l → rec1 kv.2 g = rec2 kv.2 g) →
  convert_singular sch mem rec1 s f = convert_singular sch mem rec2 s f.
Proof.
  intros Hr. unfold convert_singular.
  assert (∀ entries, s = HashRef entries →
    populate sch rec1 (f_sub f) entries [] = populate sch rec2 (f_sub f) entries []) as Hp.
  { intros entries ->. apply populate_ext. intros kv g Hin. by eapply Hr. }
  destruct (f_type f); try done; destruct s; try done; by rewrite (Hp _ eq_refl).
Qed.

Lemma convert_singular_rank rec1 rec2 s f :
  (∀ s' g, (sv_rank s' < sv_rank s)%nat → rec1 s' g = rec2 s' g) →
  convert_singular sch mem rec1 s f = convert_singular sch mem rec2 s f.
Proof. intros Hr. apply convert_singular_ext. intros l kv g -> Hin. by apply Hr, rank_hash. Qed.

Lemma hash_entries_ext rec1 rec2 kf vf src : ∀ dst,
  (∀ kv s' g, kv ∈ src → (sv_rank s' < sv_rank kv.2)%nat → rec1 s' g = rec2 s' g) →
  hash_entries sch mem rec1 kf vf src dst = hash_entries sch mem rec2 kf vf src dst.
Proof.
  induction src as [|[[k u] s] src IH]; intros dst Hr; simpl; [done|].
  rewrite (convert_singular_ext rec1 rec2 (PV k u) kf) by done.
  rewrite (convert_singular_rank rec1 rec2 s vf)
    by (intros s' g Hd; apply (Hr (k, u, s)); [left|done]).
  destruct (convert_singular sch mem rec2 (PV k u) kf); try done. rewrite !bind_Ret.
  destruct (convert_singular sch mem rec2 s vf); try done. rewrite !bind_Ret.
  apply IH. intros kv s' g Hin. apply (Hr kv). by right.
Qed.

Lemma mapO_ext {A B} (g1 g2 : A → outcome B) l :
  (∀ a, a ∈ l → g1 a = g2 a) → mapO g1 l = mapO g2 l.
Proof.
  intros Hg. induction l as [|a l IH]; simpl; [done|].
  rewrite Hg by left. destruct (g2 a); try done. rewrite !bind_Ret, IH; [done|].
  intros b Hb. apply Hg. by right.
Qed.

Lemma SvToUpb_with_ext rec1 rec2 s f :
  (∀ s' g, (sv_rank s' < sv_rank s)%nat → rec1 s' g = rec2 s' g) →
  SvToUpb_with sch mem rec1 s f = SvToUpb_with sch mem rec2 s f.
Proof.
  intros Hr. pose proof (convert_singular_rank rec1 rec2 s f Hr) as Hc.
  unfold SvToUpb_with. destruct (f_repeated f); [|by destruct s].
  destruct (f_map f).
  - destruct (FindFieldByNumber sch (f_sub f) 1) as [kf|]; [|by destruct s].
    destruct (FindFieldByNumber sch (f_sub f) 2) as [vf|]; [|by destruct s].
    destruct s; try done; f_equal; apply hash_entries_ext; intros kv s' g Hin Hd; apply Hr;
      (etrans; [exact Hd|by first [apply rank_hash|apply rank_obj]]).
  - destruct s; try done. case_match; [done|]. f_equal. apply mapO_ext.
    intros o Hin. unfold array_item.
    assert (∀ e, o = Some e → convert_singular sch mem rec1 e f = convert_singular sch mem rec2 e f)
      as Ho.
    { intros e ->. apply convert_singular_rank. intros s' g Hd. apply Hr.
      etrans; [exact Hd|by apply rank_array]. }
    destruct tied, o as [e|]; simpl; auto.
Qed.

(** More fuel than the nesting of the value changes nothing. *)
Lemma SvToUpb_fuel_enough fuel : ∀ s f,
  (sv_rank s < fuel)%nat → SvToUpb_fuel sch mem fuel s f = SvToUpb sch mem s f.
Proof.
  unfold SvToUpb. induction fuel as [fuel IH] using lt_wf_ind. intros s f Hd.
  destruct fuel as [|fuel]; [lia|]. cbn [SvToUpb_fuel]. apply SvToUpb_with_ext.
  intros s' g Hd'. rewrite (IH fuel) by lia.
  destruct (sv_rank s) as [|d] eqn:E; [lia|].
  destruct (decide (d < fuel)%nat).
  - by rewrite (IH (S d)) by lia.
  - assert (fuel = S d) as -> by lia. by rewrite (IH (S d)) by lia.
Qed.

(** Nor is that much ever used up. *)
Definition ends {A} (o : outcome A) : Prop := o ≠ Fault "out of fuel".

Lemma ends_bind {A B} (m : outcome A) (k : A → outcome B) : ends m → (∀ a, ends (k a)) → ends (m ≫= k).
Proof. unfold ends. destruct m; intros Hm Hk; [apply Hk|done|]. intros [= ->]. by apply Hm. Qed.
Lemma ends_fmap {A B} (k : A → B) (m : outcome A) : ends m → ends (k <$> m).
Proof. unfold ends. destruct m; intros Hm; [done|done|]. intros [= ->]. by apply Hm. Qed.

#[local] Ltac ends_auto :=
  repeat first [progress intros | apply ends_bind | apply ends_fmap | done | (by intros [=]) | case_match].

Lemma ends_mapO {A B} (g : A → outcome B) l : (∀ a, a ∈ l → ends (g a)) → ends (mapO g l).
Proof.
  induction l as [|a l IH]; intros Hg; simpl; [done|].
  apply ends_bind; [apply Hg; left|]. intros b. apply ends_bind; [|done]. apply IH. intros x Hx. apply Hg. by right.
Qed.

Lemma ends_int64 s : ends (SVToI64 s) ∧ ends (SVToU64 s).
Proof. unfold SVToI64, SVToU64, int64_of_nv, uint64_of_nv. split; ends_auto. Qed.

Lemma ends_populate rec def entries : ∀ dst,
  (∀ kv f, kv ∈ entries → ends (rec kv.2 f)) → ends (populate sch rec def entries dst).
Proof.
  induction entries as [|[[k u] s] entries IH]; intros dst Hr; simpl; [done|].
  case_match; [|done]. apply ends_bind; [apply (Hr (k, u, s)); left|].
  intros v. apply IH. intros kv g Hin. apply Hr. by right.
Qed.

Lemma ends_singular rec s f :
  (∀ s' g, (sv_rank s' < sv_rank s)%nat → ends (rec s' g)) → ends (convert_singular sch mem rec s f).
Proof.
  intros Hr. pose proof (ends_int64 s) as [HI HU].
  assert (∀ entries, s = HashRef entries → ends (populate sch rec (f_sub f) entries [])) as Hp.
  { intros entries ->. apply ends_populate. intros kv g Hin. by apply Hr, rank_hash. }
  unfold convert_singular, alloc_string, verify_limits, verify_limits_64, SvPVbyte. clear Hr.
  destruct (f_type f); ends_auto; by apply Hp.
Qed.

Lemma ends_flat rec s f : (∀ l, s ≠ HashRef l) → ends (convert_singular sch mem rec s f).
Proof.
  intros Hs. rewrite (convert_singular_ext rec (λ _ _, Croak "")); [by apply ends_singular|].
  intros l ? ? ->. by destruct (Hs l).
Qed.

Lemma ends_hash rec kf vf src : ∀ dst,
  (∀ kv s' g, kv ∈ src → (sv_rank s' < sv_rank kv.2)%nat → ends (rec s' g)) →
  ends (hash_entries sch mem rec kf vf src dst).
Proof.
  induction src as [|[[k u] s] src IH]; intros dst Hr; simpl; [done|].
  apply ends_bind; [|intros k'; apply ends_bind; [|intros v; apply IH; intros kv s' g Hin; apply (Hr kv); by right]].
  - by apply ends_flat.
  - apply ends_singular. intros s' g. apply (Hr (k, u, s)). left.
Qed.

Lemma ends_copy f v : ends (copy_element f v).
Proof. unfold copy_element. destruct (f_type f), v; ends_auto. Qed.

Lemma ends_copy_entries kf vf src : ∀ dst, ends (copy_entries kf vf src dst).
Proof.
  induction src as [|[k v] src IH]; intros dst; simpl; [done|].
  apply ends_bind; [apply ends_copy|intros ?]. apply ends_bind; [apply ends_copy|intros ?]. apply IH.
Qed.

Lemma SvToUpb_with_ends rec s f :
  (∀ s' g, (sv_rank s' < sv_rank s)%nat → ends (rec s' g)) → ends (SvToUpb_with sch mem rec s f).
Proof.
  intros Hr. pose proof (ends_singular rec s f Hr) as Hc.
  unfold SvToUpb_with. destruct (f_repeated f); [|by destruct s].
  destruct (f_map f).
  - destruct (FindFieldByNumber sch (f_sub f) 1) as [kf|]; [|by destruct s].
    destruct (FindFieldByNumber sch (f_sub f) 2) as [vf|]; [|by destruct s].
    destruct s; try done; try case_match; try done; apply ends_fmap; try apply ends_copy_entries;
      apply ends_hash; intros kv s' g Hin Hd; apply Hr;
      (etrans; [exact Hd|by first [apply rank_hash|apply rank_obj]]).
  - destruct s; try done; case_match; try done; apply ends_fmap, ends_mapO; intros o Hin.
    + pose proof (ends_int64 o) as [HI HU]. unfold raw_element. ends_auto.
    + unfold array_item. destruct tied, o as [e|]; simpl; try done; try (by apply ends_flat);
        apply ends_singular; intros s' g Hd; apply Hr; (etrans; [exact Hd|by apply rank_array]).
    + apply ends_copy.
Qed.

Lemma SvToUpb_fuel_ends fuel : ∀ s f, (sv_rank s < fuel)%nat → ends (SvToUpb_fuel sch mem fuel s f).
Proof.
  induction fuel as [|fuel IH]; intros s f Hd; [lia|]. apply SvToUpb_with_ends.
  intros s' g Hd'. apply IH. lia.
Qed.

Lemma SvToUpb_unfold s f :
  SvToUpb sch mem s f = SvToUpb_with sch mem (SvToUpb sch mem) s f.
Proof.
  unfold SvToUpb at 1. cbn [SvToUpb_fuel]. apply SvToUpb_with_ext.
  intros s' g Hd. by apply SvToUpb_fuel_enough.
Qed.
End Fuel.

Lemma fuel_well_typed `{PerlNum} sch mem fuel : schema_ok sch → ∀ s f v,
  sv_ok sch s → fielddef_ok f → SvToUpb_fuel sch mem fuel s f = Ret v → field_ok sch f v.
Proof.
  intros Hsch. induction fuel as [|fuel IH]; intros s f v Hs Hf; simpl; [done|].
  by eapply SvToUpb_with_ok.
Qed.

(** C21: conversion from Perl is type-sound and ends: for every Perl value as Perl makes
    them that does not hold itself, and every field, it ends (the recursion never goes
    deeper than the nesting of the value, and any larger bound gives the same answer), and
    a value it answers has the field's type, in range for its width, elementwise for arrays
    and maps and recursively for messages built from hashes, whatever the numeric reading of
    strings and references and whatever is in the hashes that objects are. *)
Theorem SvToUpb_well_typed `{PerlNum} sch mem s f :
  schema_ok sch → fielddef_ok f → sv_ok sch s →
  SvToUpb sch mem s f ≠ Fault "out of fuel" ∧
  (∀ fuel, (sv_rank s < fuel)%nat → SvToUpb_fuel sch mem fuel s f = SvToUpb sch mem s f) ∧
  ∀ v, SvToUpb sch mem s f = Ret v → field_ok sch f v.
Proof.
  intros Hsch Hf Hs. split_and!.
  - apply SvToUpb_fuel_ends. lia.
  - intros fuel Hd. by rewrite SvToUpb_fuel_enough.
  - intros v Hv. by eapply fuel_well_typed.
Qed.

(** A reading of numbers in strings: the digits at their start; objects with pointers. *)
Definition some_hash (s : sv) : list (bytes * bool * sv) :=
  match s with
  | BigInt z => [(str "sign", false, PV (str (if z <? 0 then "-" else "+")) false); (str "value", false, ArrayRef false [])]
  | MsgObj _ _ => [(str "_upb_ptr", false, IV 4096); (str "_arena_sv", false, Object 0); (str "_mdef_ptr", false, IV 8192)]
  | Object _ => [(str "_arena_ptr", false, IV 16)]
  | _ => []
  end.
Fixpoint sv_depth (s : sv) : nat :=
  match s with
  | HashRef entries => S (max_list ((λ kv, sv_depth kv.2) <$> entries))
  | ArrayRef _ items => S (max_list ((λ o, match o with Some e => sv_depth e | None => O end) <$> items))
  | BigInt _ | MsgObj _ _ => 3
  | Object _ => 2
  | _ => 1
  end.

Lemma depth_hash (entries : list (bytes * bool * sv)) kv :
  kv ∈ entries → (sv_depth kv.2 < sv_depth (HashRef entries))%nat.
Proof.
  intros Hin. simpl. apply Nat.lt_succ_r, max_list_elem_of_le. apply list_elem_of_fmap. by exists kv.
Qed.
Lemma depth_array tied items e : Some e ∈ items → (sv_depth e < sv_depth (ArrayRef tied items))%nat.
Proof.
  intros Hin. simpl. apply Nat.lt_succ_r, max_list_elem_of_le. apply list_elem_of_fmap. by exists (Some e).
Qed.
Lemma depth_object s kv : kv ∈ some_hash s → (sv_depth kv.2 < sv_depth s)%nat.
Proof. destruct s; simpl; rewrite ?elem_of_cons, ?elem_of_nil; intros Hin; naive_solver (simpl; lia). Qed.

Definition digit_num : PerlNum := {|
  looks_like_number s := bool_decide (s ≠ []) && forallb is_digit s;
  str_nv s := nv_of_Z (strtoll s);
  str_iv s := strtoll s;
  str_uv s := strtoull s;
  ref_nv _ := Fin false 0 0;
  ref_iv _ := 0;
  ref_uv _ := 0;
  obj_hash := some_hash;
  sv_rank := sv_depth;
  rank_hash := depth_hash;
  rank_array := depth_array;
  rank_obj := depth_object;
|}.

(** message Point { int32 x = 1; repeated sint32 xs = 2; map<string, int32> m = 3;
    Point next = 4; } and the entry type of its map. *)
Definition field0 (name : string) (n : Z) (t : FieldType) : FieldDef :=
  {| f_name := str name; f_number := n; f_type := t; f_repeated := false; f_map := false;
     f_sub := 0; f_enum := None; f_oneof := None |}.
Definition repeated_field (f : FieldDef) (map : bool) (sub : nat) : FieldDef :=
  {| f_name := f_name f; f_number := f_number f; f_type := f_type f; f_repeated := true;
     f_map := map; f_sub := sub; f_enum := f_enum f; f_oneof := None |}.
Definition point_x := field0 "x" 1 TInt32.
Definition point_xs := repeated_field (field0 "xs" 2 TSInt32) false 0.
Definition point_m := repeated_field (field0 "m" 3 TMessage) true 1.
Definition point_next := field0 "next" 4 TMessage.
Definition points : schema := λ def,
  match def with
  | O => [point_x; point_xs; point_m; point_next]
  | S O => [field0 "key" 1 TString; field0 "value" 2 TInt32]
  | _ => []
  end.

Lemma points_ok : schema_ok points.
Proof.
  intros [|[|def]]; repeat constructor; simpl; try done.
Qed.

Lemma SvToUpb_well_typed_witness :
  let s := HashRef [(str "x", false, IV 7); (str "m", false, Object 0);
                    (str "xs", false, ArrayRef false [Some (IV 1); Some (IV (-2))])] in
  field_ok points point_next
    (VMsg 0 [(1, VInt32 7); (3, VMap [(VStr (str "_arena_ptr"), VInt32 16)]); (2, VArr [VInt32 1; VInt32 (-2)])]).
Proof.
  intros s.
  assert (sv_ok (H := digit_num) points s) as Hs.
  { subst s. repeat first [constructor | progress intros; simplify_eq/=]. }
  apply (SvToUpb_well_typed (H := digit_num) points (λ _, true) s point_next);
    [apply points_ok|by repeat constructor|exact Hs|vm_compute; reflexivity].
Defined.

(** For a map field every hash will do: a pool's or an arena's object, a message of any
    type, a [Math::BigInt].  For a message field a hash tied to a map is a plain hash
    whose values are undefined. *)
Example objects_are_hashes :
  let to s f := SvToUpb (H := digit_num) points (λ _, true) s f in
  to (Object 0) point_m = Ret (VMap [(VStr (str "_arena_ptr"), VInt32 16)]) ∧
  to (MsgObj 0 []) point_m = Croak "Expected an Integer" ∧
  to (TiedHash point_m []) point_next = Ret (VMsg 0 []) ∧
  to (TiedHash point_m [(VStr (str "x"), VInt32 1)]) point_next = Croak "Cannot convert undef to non-message type".
Proof. by vm_compute. Qed.

(** ** Scalars *)

Section Scalars.
Context `{PerlNum} (sch : schema) (mem : Z → bool) (rec : sv → FieldDef → outcome value).
Notation to_upb := (convert_singular sch mem rec).

Definition croaks {A} (m : outcome A) : Prop := match m with Croak _ => True | _ => False end.

Lemma int_limit_neg n : 0 < n → int_limit (- n) = Fin true n 0.
Proof. intros. unfold int_limit. destruct (Z.ltb_spec (- n) 0); [|lia]. f_equal. lia. Qed.
Lemma int_limit_pos n : 0 ≤ n → int_limit n = Fin false n 0.
Proof. intros. unfold int_limit. destruct (Z.ltb_spec n 0); [lia|]. f_equal. lia. Qed.

(** [verify_limits] of an integer against integer limits is the integer test. *)
Lemma verify_limits_int s z lo hi :
  SvNV s = nv_of_Z z → 0 ≤ lo < 2 ^ 53 → 0 ≤ hi < 2 ^ 53 →
  verify_limits s (if lo =? 0 then int_limit 0 else int_limit (- lo)) (int_limit hi) =
    if within (- lo) hi z then Ret tt else Croak "Value out of range for field".
Proof.
  intros Hs Hlo Hhi. unfold verify_limits. rewrite Hs, (int_limit_pos hi) by lia.
  destruct (nv_of_Z_limit z hi Hhi) as [-> _].
  assert (nv_ltb (nv_of_Z z) (if lo =? 0 then int_limit 0 else int_limit (- lo)) = (z <? - lo)) as ->.
  { destruct (nv_of_Z_limit z lo Hlo) as [_ <-]. destruct (Z.eqb_spec lo 0) as [->|].
    - rewrite int_limit_pos by lia. by destruct (nv_of_Z z).
    - by rewrite int_limit_neg by lia. }
  unfold within. destruct (Z.ltb_spec z (- lo)), (Z.leb_spec (- lo) z),
    (Z.ltb_spec hi z), (Z.leb_spec z hi); try lia; done.
Qed.

Lemma verify_int32 s z :
  SvNV s = nv_of_Z z →
  verify_limits s (int_limit INT32_MIN) (int_limit INT32_MAX) =
    if within INT32_MIN INT32_MAX z then Ret tt else Croak "Value out of range for field".
Proof. intros Hs. apply (verify_limits_int s z (2 ^ 31) INT32_MAX Hs); unfold INT32_MAX; lia. Qed.

Lemma verify_uint32 s z :
  SvNV s = nv_of_Z z →
  verify_limits s (int_limit 0) (int_limit UINT32_MAX) =
    if within 0 UINT32_MAX z then Ret tt else Croak "Value out of range for field".
Proof. intros Hs. apply (verify_limits_int s z 0 UINT32_MAX Hs); unfold UINT32_MAX; lia. Qed.

Definition is_int32 (t : FieldType) : bool :=
  match t with TInt32 | TSInt32 | TSFixed32 => true | _ => false end.
Definition is_uint32 (t : FieldType) : bool :=
  match t with TUInt32 | TFixed32 => true | _ => false end.

Lemma to_upb_int32 f s :
  is_int32 (f_type f) = true →
  to_upb s f = if is_number s then
                 verify_limits s (int_limit INT32_MIN) (int_limit INT32_MAX);;
                 Ret (VInt32 (i32 (SvIV s)))
               else Croak "Expected an Integer".
Proof. unfold convert_singular. by destruct (f_type f). Qed.

Lemma to_upb_uint32 f s :
  is_uint32 (f_type f) = true →
  to_upb s f = if is_number s then
                 verify_limits s (int_limit 0) (int_limit UINT32_MAX);;
                 Ret (VUInt32 (u32 (SvUV s)))
               else Croak "Expected an Unsigned Integer".
Proof. unfold convert_singular. by destruct (f_type f). Qed.

(** A finite double within integer limits has its integer part within them. *)
Lemma trunc_within neg m e n lo hi :
  0 ≤ m → 0 ≤ lo → 0 ≤ hi → n = trunc neg m e →
  nv_ltb (Fin neg m e) (Fin true lo 0) = false → nv_ltb (Fin false hi 0) (Fin neg m e) = false →
  - lo ≤ n ≤ hi.
Proof.
  intros Hm Hlo Hhi -> H1 H2. unfold nv_ltb, trunc, signed in *. bool_to_prop.
  destruct (decide (0 ≤ e)) as [He|He].
  - rewrite (Z.min_r e 0), (Z.min_l 0 e) in * by lia. replace (e - 0) with e in * by lia.
    replace (0 - 0) with 0 in * by lia. change (2 ^ 0) with 1 in *. rewrite Z.shiftl_mul_pow2 by lia.
    destruct neg; nia.
  - rewrite (Z.min_l e 0), (Z.min_r 0 e) in * by lia. replace (e - e) with 0 in * by lia.
    replace (0 - e) with (- e) in * by lia.
    change (2 ^ 0) with 1 in *. pose proof (Z.pow_pos_nonneg 2 (- e)).
    rewrite Z.shiftl_div_pow2 by lia.
    assert (0 ≤ m / 2 ^ (- e)) by (apply Z.div_pos; lia).
    destruct neg.
    + assert (m / 2 ^ (- e) ≤ lo) by (apply Z.div_le_upper_bound; lia). lia.
    + assert (m / 2 ^ (- e) ≤ hi) by (apply Z.div_le_upper_bound; lia). lia.
Qed.
End Scalars.

(** C38: 32-bit signed fields take exactly the integers that fit.  An integer SV is
    stored unchanged when it is in [-2^31, 2^31 - 1] and croaks otherwise; a double
    is stored truncated when it lies between the limits, NaN as 0, and anything
    else croaks: no accepted number is wrapped around. *)
Theorem int32_exact `{PerlNum} sch mem rec f z neg m e :
  is_int32 (f_type f) = true → IV_MIN ≤ z ≤ UV_MAX → 0 ≤ m →
  (let s := if z <=? IV_MAX then IV z else UV z in
   if within INT32_MIN INT32_MAX z
   then convert_singular sch mem rec s f = Ret (VInt32 z)
   else croaks (convert_singular sch mem rec s f)) ∧
  (let x := Fin neg m e in
   if nv_ltb x (int_limit INT32_MIN) || nv_ltb (int_limit INT32_MAX) x
   then croaks (convert_singular sch mem rec (NV x) f)
   else convert_singular sch mem rec (NV x) f = Ret (VInt32 (trunc neg m e))) ∧
  convert_singular sch mem rec (NV NaN) f = Ret (VInt32 0) ∧
  ∀ s, croaks (convert_singular sch mem rec (NV (Inf s)) f).
Proof.
  intros Ht Hz Hm. split_and!.
  - intros s. rewrite to_upb_int32 by done.
    assert (is_number s = true ∧ SvNV s = nv_of_Z z) as [-> Hs]
      by (subst s; destruct (z <=? IV_MAX); done).
    rewrite (verify_int32 s z Hs). destruct (within INT32_MIN INT32_MAX z) eqn:Hw; [|done].
    apply within_spec in Hw. unfold INT32_MIN, INT32_MAX in Hw. simpl. subst s.
    destruct (Z.leb_spec z IV_MAX); [|unfold IV_MAX in *; lia]. simpl. by rewrite i32_small by lia.
  - intros x. rewrite to_upb_int32 by done. simpl is_number. cbv iota.
    unfold verify_limits. simpl SvNV. fold x.
    destruct (nv_ltb x (int_limit INT32_MIN) || nv_ltb (int_limit INT32_MAX) x) eqn:E; [done|].
    bool_to_prop.
    assert (- 2 ^ 31 ≤ trunc neg m e ≤ 2 ^ 31 - 1) as Hb
      by (apply (trunc_within neg m e _ (2 ^ 31) (2 ^ 31 - 1)); done || lia).
    rewrite bind_Ret. simpl. unfold IV_MIN, UV_MAX.
    destruct (Z.ltb_spec (trunc neg m e) (- 2 ^ 63)); [lia|].
    destruct (Z.leb_spec (trunc neg m e) (2 ^ 64 - 1)); [|lia].
    by rewrite i64_small, i32_small by lia.
  - by rewrite to_upb_int32.
  - intros []; by rewrite to_upb_int32.
Qed.

Lemma int32_exact_witness :
  convert_singular (H := digit_num) points (λ _, true) (λ _ _, Croak "") (IV (-2147483648)) point_x
    = Ret (VInt32 (-2147483648)) ∧
  convert_singular (H := digit_num) points (λ _, true) (λ _ _, Croak "") (NV (Fin true 7 (-1))) point_x
    = Ret (VInt32 (-3)).
Proof.
  pose proof (int32_exact (H := digit_num) points (λ _, true) (λ _ _, Croak "") point_x
    (-2147483648) true 7 (-1)) as (H1 & H2 & _); [done|by vm_compute|done|].
  split; [exact H1|exact H2].
Defined.

(** *** Round trip *)

(** A [VFloat] carries a float. *)
Definition float_value (v : value) : Prop := match v with VFloat x => to_float x = x | _ => True end.

(** Inside the limits the setter checks, which are below the largest float and the
    infinities. *)
Definition survives (v : value) : bool :=
  match v with VFloat x => negb (nv_ltb x (float_limit true) || nv_ltb (float_limit false) x) | _ => true end.

(** C2: the way of a scalar to Perl and back: a value of the field's type, turned into an SV
    by [PerlUpb_UpbToSv] and set again, is stored unchanged: all integers of all widths,
    also above 2^63, booleans, doubles, NaN, strings and bytes with their UTF-8 flag, and
    the floats inside the setter's limits.  A float outside them (the largest float and the
    infinities, [float_max_rejected]) is answered and then refused with an error. *)
Theorem scalar_roundtrip `{PerlNum} sch mem f v :
  scalar_ok (f_type f) v = true → float_value v → (∀ n, mem n = true) →
  ∃ s, convert_singular_to_sv v f = Ret s ∧
       ∀ rec, if survives v then convert_singular sch mem rec s f = Ret v
              else croaks (convert_singular sch mem rec s f).
Proof.
  intros Hok Hset Hmem. unfold convert_singular_to_sv.
  destruct (f_type f) eqn:Et, v; try done; simpl in Hok;
    try apply within_spec in Hok; (eexists; split; [reflexivity|]); intros rec;
    first
    [ (* 32-bit signed *)
      rewrite to_upb_int32 by (by rewrite Et);
      rewrite (verify_int32 (IV z) z) by done;
      rewrite (proj2 (within_spec _ _ _) Hok); simpl;
      unfold INT32_MIN, INT32_MAX in *; by rewrite i32_small by lia
    | (* 32-bit unsigned *)
      rewrite to_upb_uint32 by (by rewrite Et); unfold newSVuv, UINT32_MAX, IV_MAX in *;
      destruct (Z.leb_spec z (2 ^ 63 - 1)); [|lia];
      rewrite (verify_uint32 (IV z) z) by done; unfold UINT32_MAX;
      rewrite (proj2 (within_spec _ _ _) Hok); simpl;
      rewrite u64_small by lia; by rewrite u32_small by lia
    | (* 64-bit *)
      unfold convert_singular; rewrite Et; unfold I64ToSV;
      rewrite (proj2 (within_spec _ _ _) Hok : (IV_MIN <=? z) && (z <=? IV_MAX) = true); done
    | unfold convert_singular; rewrite Et; unfold U64ToSV, newSVuv, UV_MAX, IV_MAX in *;
      destruct (Z.leb_spec z (2 ^ 64 - 1)); [|lia];
      destruct (Z.leb_spec z (2 ^ 63 - 1)); unfold verify_limits_64, SVToU64; simpl; [|done];
      destruct (Z.ltb_spec z 0); [lia|]; simpl; by rewrite u64_small by lia
    | unfold convert_singular; rewrite Et; simpl;
      unfold alloc_string; by rewrite Hmem
    | unfold convert_singular; rewrite Et; by destruct b
    | unfold convert_singular, survives; rewrite Et; unfold is_number, verify_limits; cbn [SvIOK SvNOK SvNV orb];
      destruct (_ || _); cbn [negb]; [done|]; by rewrite bind_Ret, Hset
    | unfold convert_singular; rewrite Et; simpl; unfold INT32_MIN, INT32_MAX in *;
      by rewrite i32_small by lia
    | unfold convert_singular; by rewrite Et ].
Qed.

Lemma scalar_roundtrip_witness :
  (∃ s, convert_singular_to_sv (VUInt64 (2 ^ 64 - 1)) (field0 "u" 9 TUInt64) = Ret s ∧
        ∀ rec, convert_singular (H := digit_num) points (λ _, true) rec s (field0 "u" 9 TUInt64)
               = Ret (VUInt64 (2 ^ 64 - 1))) ∧
  ∃ s, convert_singular_to_sv (VFloat (Inf true)) (field0 "f" 9 TFloat) = Ret s ∧
       ∀ rec, croaks (convert_singular (H := digit_num) points (λ _, true) rec s (field0 "f" 9 TFloat)).
Proof.
  split.
  - apply (scalar_roundtrip (H := digit_num) points (λ _, true) (field0 "u" 9 TUInt64) (VUInt64 (2 ^ 64 - 1)));
      [reflexivity|exact I|reflexivity].
  - apply (scalar_roundtrip (H := digit_num) points (λ _, true) (field0 "f" 9 TFloat) (VFloat (Inf true)));
      reflexivity.
Defined.

(** The float limit is too small: the largest float, which a message can carry
    and Perl can read, is refused when it is set again, and so is infinity. *)
Theorem float_max_rejected `{PerlNum} sch mem rec f x :
  f_type f = TFloat → x = Fin false (2 ^ 24 - 1) 104 ∨ x = Inf false ∨ x = Inf true →
  to_float x = x ∧ convert_singular_to_sv (VFloat x) f = Ret (NV x) ∧
  croaks (convert_singular sch mem rec (NV x) f).
Proof.
  intros Ht Hx. unfold convert_singular_to_sv, convert_singular. rewrite Ht.
  by destruct Hx as [-> | [-> | ->]].
Qed.

Lemma float_max_rejected_witness :
  croaks (convert_singular (H := digit_num) points (λ _, true) (λ _ _, Croak "")
            (NV (Fin false (2 ^ 24 - 1) 104)) (field0 "f" 9 TFloat)).
Proof. by apply (float_max_rejected (H := digit_num)); [|left]. Defined.

(** *** The batch paths *)

(** C37: whatever scalar the checked converter of a field accepts, the batch converter of
    repeated fields stores as the same value, for every scalar type; an enum element given
    by name (a string) apart.  The batch converter accepts more: it does not check
    ([repeated_skips_checks]). *)
Theorem batch_agrees_with_checked `{PerlNum} sch mem rec f s v :
  fast_path f = true → (f_type f = TEnum → SvPOK s = false) →
  convert_singular sch mem rec s f = Ret v → raw_element (f_type f) s = Ret v.
Proof.
  unfold fast_path, IsSubMessage, convert_singular, raw_element. intros Hf He Hc.
  destruct (f_type f); try done;
    try (destruct (is_number s); [|done]);
    try (apply bind_ret_inv in Hc as ([] & _ & Hc)); try done.
  destruct (SvIOK s); [done|]. specialize (He eq_refl). by destruct s.
Qed.

Lemma batch_agrees_with_checked_witness :
  raw_element (H := digit_num) TSInt32 (IV 5) = Ret (VInt32 5).
Proof.
  apply (batch_agrees_with_checked (H := digit_num) points (λ _, true) (λ _ _, Croak "")
           point_xs (IV 5)); [reflexivity|discriminate|reflexivity].
Defined.

(** Repeated 32-bit fields are not range checked.  The same integer that makes a
    singular field croak is stored wrapped around modulo 2^32 in an element of a
    repeated one, and a name assigned to a repeated enum is stored as the number its
    text starts with. *)
Lemma repeated_skips_checks `{PerlNum} sch mem rec f z name utf8 :
  f_repeated f = true → f_map f = false → IV_MIN ≤ z ≤ IV_MAX →
  (is_int32 (f_type f) = true → within INT32_MIN INT32_MAX z = false →
     croaks (convert_singular sch mem rec (IV z) f) ∧
     SvToUpb_with sch mem rec (ArrayRef false [Some (IV z)]) f = Ret (VArr [VInt32 (i32 z)])) ∧
  (is_uint32 (f_type f) = true → within 0 UINT32_MAX z = false →
     croaks (convert_singular sch mem rec (IV z) f) ∧
     SvToUpb_with sch mem rec (ArrayRef false [Some (IV z)]) f = Ret (VArr [VUInt32 (u32 (u64 z))])) ∧
  (f_type f = TEnum →
     SvToUpb_with sch mem rec (ArrayRef false [Some (PV name utf8)]) f
       = Ret (VArr [VInt32 (i32 (str_iv name))])).
Proof.
  intros Hr Hm Hz. split_and!.
  - intros Ht Hw. split.
    + rewrite to_upb_int32 by done. simpl. rewrite (verify_int32 _ z) by done. by rewrite Hw.
    + unfold SvToUpb_with, fast_path, IsSubMessage. rewrite Hr, Hm. by destruct (f_type f).
  - intros Ht Hw. split.
    + rewrite to_upb_uint32 by done. simpl. rewrite (verify_uint32 _ z) by done. by rewrite Hw.
    + unfold SvToUpb_with, fast_path, IsSubMessage. rewrite Hr, Hm. by destruct (f_type f).
  - intros Ht. unfold SvToUpb_with, fast_path, IsSubMessage. by rewrite Hr, Hm, Ht.
Qed.

Lemma repeated_skips_checks_witness :
  SvToUpb (H := digit_num) points (λ _, true) (ArrayRef false [Some (IV (2 ^ 31))]) point_xs
    = Ret (VArr [VInt32 (- 2 ^ 31)]).
Proof.
  pose proof (repeated_skips_checks (H := digit_num) points (λ _, true)
    (SvToUpb_fuel (H := digit_num) points (λ _, true) 2) point_xs (2 ^ 31) [] false) as Hs.
  destruct Hs as (Hs & _ & _); [reflexivity|reflexivity|by_compute|].
  apply Hs; reflexivity.
Defined.

(** The unrolled batch conversion to Perl, four elements at a time, and the raw
    batch over the array's storage both compute the element-by-element conversion,
    errors and their order included. *)
Lemma batch_to_sv_elementwise vals f :
  UpbToSv_Batch vals f = mapO (λ v, convert_singular_to_sv v f) vals ∧
  (fast_path f = true →
   UpbToSv_BatchRaw (FieldDef_CType f) vals = mapO (λ v, convert_singular_to_sv v f) vals).
Proof.
  split.
  - assert (∀ n vals, (length vals ≤ n)%nat →
      UpbToSv_Batch vals f = mapO (λ v, convert_singular_to_sv v f) vals) as Hall; [|by eapply Hall].
    clear vals. induction n as [|n IH]; intros [|a [|b [|c [|d vals]]]] Hlen; try done;
      simpl in Hlen; try lia.
    cbn [UpbToSv_Batch mapO]. rewrite IH by lia.
    destruct (convert_singular_to_sv a f); [|done|done].
    destruct (convert_singular_to_sv b f); [|done|done].
    destruct (convert_singular_to_sv c f); [|done|done].
    destruct (convert_singular_to_sv d f); [|done|done].
    simpl. by destruct (mapO _ vals).
  - intros Hf. unfold UpbToSv_BatchRaw. apply mapO_ext. intros v _.
    unfold fast_path, IsSubMessage, raw_to_sv, FieldDef_CType, convert_singular_to_sv in *.
    by destruct (f_type f), v.
Qed.

Lemma batch_to_sv_elementwise_witness :
  UpbToSv_BatchRaw CInt32 [VInt32 3; VInt32 (-4)] = Ret [IV 3; IV (-4)].
Proof. by apply (batch_to_sv_elementwise [VInt32 3; VInt32 (-4)] point_xs). Defined.

(** *** 64-bit fields *)

Lemma cstr_digits ds : Forall (λ c, is_digit c = true) ds → cstr ds = ds.
Proof.
  induction 1 as [|c ds Hc Hds IH]; simpl; [done|].
  destruct (Z.eqb_spec c 0) as [->|]; [done|]. by rewrite IH.
Qed.

Lemma cstr_decimal z : cstr (decimal z) = decimal z.
Proof.
  unfold decimal.
  destruct (decimal_digits_spec (S (Z.to_nat (Z.log2 (Z.abs z)))) (Z.abs z) [])
    as (ds & -> & Hds & _); [|constructor|].
  { destruct (decide (z = 0)) as [->|]; [simpl; lia|].
    rewrite Nat2Z.inj_succ, Z2Nat.id by apply Z.log2_nonneg.
    pose proof (Z.log2_spec (Z.abs z)). lia. }
  rewrite app_nil_r. destruct (z <? 0); simpl; by rewrite cstr_digits.
Qed.

Definition is_uint64 (t : FieldType) : bool := match t with TUInt64 | TFixed64 => true | _ => false end.
Definition is_int64 (t : FieldType) : bool :=
  match t with TInt64 | TSInt64 | TSFixed64 => true | _ => false end.

(** Range checks of 64-bit fields miss most sources.  Into an unsigned field a
    negative IV croaks, but the same number as a decimal string or a big integer is
    stored modulo 2^64, and one that is too large saturates; into a signed field an
    unsigned IV above 2^63 is stored as the negative number with the same bits.  None
    of these croaks. *)
Theorem int64_checks_by_source `{PerlNum} sch mem rec f z :
  (is_uint64 (f_type f) = true →
     (IV_MIN ≤ z < 0 →
        croaks (convert_singular sch mem rec (IV z) f) ∧
        ∀ s, s = PV (decimal z) false ∨ s = BigInt z →
             convert_singular sch mem rec s f = Ret (VUInt64 (2 ^ 64 + z))) ∧
     (UV_MAX < z → ∀ s, s = PV (decimal z) false ∨ s = BigInt z →
             convert_singular sch mem rec s f = Ret (VUInt64 UV_MAX))) ∧
  (is_int64 (f_type f) = true → IV_MAX < z ≤ UV_MAX →
     convert_singular sch mem rec (UV z) f = Ret (VInt64 (z - 2 ^ 64))).
Proof.
  assert (is_uint64 (f_type f) = true → ∀ s, s = PV (decimal z) false ∨ s = BigInt z →
    convert_singular sch mem rec s f = Ret (VUInt64 (strtoull (decimal z)))) as Hstr.
  { intros Ht s Hs. unfold convert_singular, SVToU64.
    destruct Hs as [-> | ->]; destruct (f_type f); try done; simpl; by rewrite ?cstr_decimal. }
  assert (strtoull (decimal z) = if UV_MAX <? Z.abs z then UV_MAX else u64 z) as Hval.
  { unfold strtoull. rewrite strto_decimal. case_match; [done|]. f_equal.
    unfold signed. destruct (Z.ltb_spec z 0); lia. }
  rewrite Hval in Hstr. unfold UV_MAX, IV_MIN, IV_MAX in *. split.
  - intros Ht. specialize (Hstr Ht). split.
    + intros Hz. split.
      * unfold convert_singular, verify_limits_64. simpl.
        destruct (Z.ltb_spec z 0); [|lia]. by destruct (f_type f).
      * intros s Hs. rewrite (Hstr s Hs). destruct (Z.ltb_spec (2 ^ 64 - 1) (Z.abs z)); [lia|].
        do 2 f_equal. unfold u64. rewrite <- (Z.mod_add z 1) by done.
        rewrite Z.mod_small; lia.
    + intros Hz s Hs. rewrite (Hstr s Hs). destruct (Z.ltb_spec (2 ^ 64 - 1) (Z.abs z)); [done|lia].
  - intros Ht Hz. unfold convert_singular, SVToI64. simpl.
    replace (i64 z) with (z - 2 ^ 64); [by destruct (f_type f)|].
    unfold i64. rewrite <- (Z.mod_add (z + 2 ^ 63) (-1)) by done. rewrite Z.mod_small; lia.
Qed.

Lemma int64_checks_by_source_witness :
  convert_singular (H := digit_num) points (λ _, true) (λ _ _, Croak "") (BigInt (-1))
    (field0 "u" 9 TUInt64) = Ret (VUInt64 (2 ^ 64 - 1)).
Proof.
  destruct (int64_checks_by_source (H := digit_num) points (λ _, true) (λ _ _, Croak "")
    (field0 "u" 9 TUInt64) (-1)) as [Hu _].
  destruct (Hu eq_refl) as [Hneg _]. destruct Hneg as [_ Hs]; [by_compute|].
  apply Hs. by right.
Defined.

(** *** Copying tied containers *)

(** Assigning one map field to another compares only the field types, which are
    the same for all maps: copying a map with integer keys into one with string keys
    passes the test and reads each key as a string that was never there; and a
    repeated message field is copied with the target's layout whatever its own
    message type. *)
Lemma tied_copy_confusion `{PerlNum} sch mem rec f g kf vf b v rest def fields items :
  f_repeated f = true → f_type f = TMessage → f_type g = TMessage →
  FindFieldByNumber sch (f_sub f) 1 = Some kf → FindFieldByNumber sch (f_sub f) 2 = Some vf →
  f_type kf = TString → def ≠ f_sub f →
  (f_map f = true →
     ¬ safe (SvToUpb_with sch mem rec (TiedHash g ((VInt32 b, v) :: rest)) f)) ∧
  (f_map f = false →
     ¬ safe (SvToUpb_with sch mem rec (TiedArray g (VMsg def fields :: items)) f)).
Proof.
  intros Hr Htf Htg Hk Hv Ht Hd. unfold SvToUpb_with, copy_element.
  rewrite Hr, Hk, Hv, Htf, Htg. split; intros ->; simpl.
  - unfold copy_element. rewrite Ht. simpl. tauto.
  - rewrite bool_decide_eq_false_2 by done. simpl. tauto.
Qed.

(** A second map field whose entries have integer keys. *)
Definition int_map := repeated_field (field0 "im" 5 TMessage) true 2.

Lemma tied_copy_confusion_witness :
  ¬ safe (SvToUpb_with (H := digit_num) points (λ _, true) (λ _ _, Croak "")
            (TiedHash int_map [(VInt32 1, VInt32 2)]) point_m).
Proof.
  pose proof (tied_copy_confusion (H := digit_num) points (λ _, true) (λ _ _, Croak "")
    point_m int_map (field0 "key" 1 TString) (field0 "value" 2 TInt32) 1 (VInt32 2) [] 7 [] [])
    as Hc.
  destruct Hc as [Hc _]; [reflexivity..|discriminate|]. apply Hc. reflexivity.
Defined.
