(* ===== verification/Names.v ===== *)
(** * Class names (xs/protobuf/utils.c)

    Protobuf names to Perl class names and back, with the vector fast paths, the
    buffers the results are written to, and the stash of a message type. *)

From S2P Require Import Prelude.

Definition DOT : Z := 46.
Definition COLON : Z := 58.
Definition SLASH : Z := 47.
Definition UNDERSCORE : Z := 95.

(** A C string: no NUL inside. *)
Definition cstring (s : bytes) : Prop := Forall (λ c, c ≠ 0) s.

(** Writing [text] and its NUL to a buffer of [cap] bytes. *)
Definition into_buffer (cap : Z) (text : bytes) : outcome bytes :=
  if Z.of_nat (length text) + 1 <=? cap then Ret text else Fault "write past the buffer".

(** ** The vector loops *)

(** [find_special_chars_avx2]: the mask of a chunk is zero. *)
Definition no_special (chunk : bytes) : bool :=
  forallb (λ c, negb (c =? DOT) && negb (c =? COLON)) chunk.

(** [while (remaining >= w)]: chunks of [w] bytes are copied until one has a dot or a
    colon; what is copied, and the rest. *)
Fixpoint copy_chunks (fuel w : nat) (s : bytes) : bytes * bytes :=
  match fuel with
  | O => ([], s)
  | S fuel =>
      if (w <=? length s)%nat && no_special (take w s) then
        let '(d, rest) := copy_chunks fuel w (drop w s) in (take w s ++ d, rest)
      else ([], s)
  end.

(** [while ( *s )] of [PerlUpb_ClassNameToFullName]. *)
Fixpoint class_to_full (s : bytes) : bytes :=
  match s with
  | 58 :: 58 :: s => 46 :: class_to_full s
  | c :: s => c :: class_to_full s
  | [] => []
  end.

Definition ClassNameToFullName (class_name : bytes) : outcome bytes :=
  let len := Z.of_nat (length class_name) in
  let '(d1, s) := copy_chunks (length class_name) 32 class_name in
  let '(d2, s) := copy_chunks (length class_name) 16 s in
  into_buffer (len + 1) (d1 ++ d2 ++ class_to_full s).

(** [PerlUpb_FullNameToClassName]: the dots are counted first. *)
Fixpoint full_to_class (s : bytes) : bytes :=
  match s with
  | c :: s => if c =? DOT then COLON :: COLON :: full_to_class s else c :: full_to_class s
  | [] => []
  end.

Definition count_dots (s : bytes) : Z := Z.of_nat (length (filter (λ c, c = DOT) s)).

Definition FullNameToClassName (full_name : bytes) : outcome bytes :=
  let len := Z.of_nat (length full_name) in
  let dots := count_dots full_name in
  let '(d, s) := copy_chunks (length full_name) 32 full_name in
  into_buffer (len + dots + 1) (d ++ full_to_class s).

(** ** Paths *)

Definition upcase (c : Z) : Z := if (97 <=? c) && (c <=? 122) then c - 32 else c.

(** [capitalize_path]; [prev] is the byte before, [None] at the start. *)
Fixpoint capitalize_loop (prev : option Z) (s : bytes) : bytes :=
  match s with
  | [] => []
  | c :: s' =>
      (if match prev with None => true | Some p => p =? DOT end then [upcase c]
       else if c =? DOT then [COLON; COLON] else [c]) ++ capitalize_loop (Some c) s'
  end.

Definition capitalize_path (s : bytes) : outcome (option bytes) :=
  match s with
  | [] => Ret None
  | _ => Some <$> into_buffer (Z.of_nat (length s) * 2 + 1) (capitalize_loop None s)
  end.

(** [strrchr(s, '/')] and what follows, [strchr(base, '.')] and what precedes. *)
Fixpoint after_last_slash (s : bytes) : bytes :=
  match s with
  | [] => []
  | c :: s' =>
      if existsb (Z.eqb SLASH) s' then after_last_slash s'
      else if c =? SLASH then s' else s
  end.

Fixpoint before_dot (s : bytes) : bytes :=
  match s with
  | [] => []
  | c :: s => if c =? DOT then [] else c :: before_dot s
  end.

(** The loop of [get_file_module]: a [continue] leaves [first] set. *)
Fixpoint camel_loop (first : bool) (prev : Z) (s : bytes) : bytes :=
  match s with
  | [] => []
  | c :: s' =>
      if first || (prev =? UNDERSCORE) then
        if c =? UNDERSCORE then camel_loop first c s'
        else upcase c :: camel_loop false c s'
      else if c =? UNDERSCORE then camel_loop false c s'
      else c :: camel_loop false c s'
  end.

Definition get_file_module (proto_file : bytes) : outcome bytes :=
  let base := before_dot (after_last_slash proto_file) in
  into_buffer (Z.of_nat (length base) + 1) (camel_loop true 0 base).

(** ** The stash of a message type *)

(** What [PerlUpb_GetMessageStash] asks a [upb_MessageDef]. *)
Record MessageNames := { full_name : bytes; file_name : bytes; package : bytes }.

Fixpoint is_prefix (p s : bytes) : bool :=
  match p, s with
  | [], _ => true
  | c :: p, d :: s => (c =? d) && is_prefix p s
  | _, _ => false
  end.

Definition drop_dot (s : bytes) : bytes :=
  match s with c :: s' => if c =? DOT then s' else s | [] => [] end.

Definition rel_name (m : MessageNames) : bytes :=
  let rel := drop_dot (full_name m) in
  if (0 <? Z.of_nat (length (package m))) && is_prefix (package m) rel
  then drop_dot (drop (length (package m)) rel)
  else rel.

Definition stash_class (m : MessageNames) : outcome bytes :=
  file_mod ← get_file_module (file_name m);
  pkg_mod ← capitalize_path (package m);
  msg ← capitalize_path (rel_name m);
  let msg_path := default (str "UnknownMessage") msg in
  let total_len :=
    match pkg_mod with Some p => Z.of_nat (length p) + 2 | None => 0 end
    + Z.of_nat (length file_mod) + 2 + Z.of_nat (length msg_path) + 1 in
  into_buffer total_len
    (match pkg_mod with
     | Some p => p ++ str "::" ++ file_mod ++ str "::" ++ msg_path
     | None => file_mod ++ str "::" ++ msg_path
     end).

(** [stash_cache] maps a message type to its class; [isa] is each class's [@ISA]. *)
Record stashes := { stash_cache : gmap Z bytes; isa : gmap bytes (list bytes) }.

(** [snprintf(isa_name, 1024, "%s::ISA", class_name)], less the suffix: the package
    whose [@ISA] the name denotes, if it still ends in it. *)
Definition isa_name (class : bytes) : bytes := take 1023 (class ++ str "::ISA").

Definition base_class : bytes := str "Protobuf::Message".

Definition GetMessageStash (st : stashes) (mdef : Z) (m : MessageNames)
  : outcome (bytes * stashes) :=
  match stash_cache st !! mdef with
  | Some class => Ret (class, st)
  | None =>
      class ← stash_class m;
      let name := isa_name class in
      let parents := default [] (isa st !! name) in
      let parents := if bool_decide (base_class ∈ parents) then parents
                     else parents ++ [base_class] in
      Ret (class, {| stash_cache := <[mdef := class]> (stash_cache st);
                     isa := <[name := parents]> (isa st) |})
  end.

(** [@ISA] of a class, as method lookup finds it. *)
Definition parents_of (st : stashes) (class : bytes) : list bytes :=
  default [] (isa st !! (class ++ str "::ISA")).

(** ** The vector loops change nothing *)

Lemma copy_chunks_spec fuel w : ∀ s d rest,
  copy_chunks fuel w s = (d, rest) → s = d ++ rest ∧ no_special d = true.
Proof.
  induction fuel as [|fuel IH]; intros s d rest; simpl; [by intros [= <- <-]|].
  case_match eqn:E; [|by intros [= <- <-]].
  destruct (copy_chunks fuel w (drop w s)) as [d' r'] eqn:Ec. intros [= <- <-].
  apply IH in Ec as [Hs Hn]. apply andb_true_iff in E as [_ E].
  split; [by rewrite <- app_assoc, <- Hs, take_drop|].
  unfold no_special in *. by rewrite forallb_app, E, Hn.
Qed.

Lemma class_to_full_plain d s : no_special d = true → class_to_full (d ++ s) = d ++ class_to_full s.
Proof.
  induction d as [|c d IH]; [done|]. simpl. intros [Hc Hd]%andb_true_iff.
  apply andb_true_iff in Hc as [_ Hc%negb_true_iff%Z.eqb_neq].
  rewrite <- IH by done. unfold COLON in Hc.
  destruct c as [|p|p]; try done. do 6 (destruct p as [p|p|]; try done).
Qed.

Lemma full_to_class_plain d s : no_special d = true → full_to_class (d ++ s) = d ++ full_to_class s.
Proof.
  induction d as [|c d IH]; [done|]. simpl. intros [Hc Hd]%andb_true_iff.
  apply andb_true_iff in Hc as [Hc%negb_true_iff _]. rewrite Hc, IH; done.
Qed.

Lemma class_to_full_step c s :
  class_to_full (c :: s) =
    match s with
    | d :: s' => if (c =? COLON) && (d =? COLON) then DOT :: class_to_full s'
                 else c :: class_to_full s
    | [] => [c]
    end.
Proof.
  destruct s as [|d s]; [by destruct c as [|p|p]; try done;
    do 6 (destruct p as [p|p|]; try done)|].
  destruct (Z.eqb_spec c COLON) as [->|Hc]; simpl.
  - destruct (Z.eqb_spec d COLON) as [->|Hd]; [done|].
    destruct d as [|p|p]; try done. do 6 (destruct p as [p|p|]; try done).
  - unfold COLON in Hc. destruct c as [|p|p]; try done. do 6 (destruct p as [p|p|]; try done).
Qed.

Lemma class_to_full_length n : ∀ s, (length s ≤ n)%nat → (length (class_to_full s) ≤ length s)%nat.
Proof.
  induction n as [|n IH]; intros [|c [|d s]] Hn; try (simpl in *; lia).
  - rewrite class_to_full_step. done.
  - rewrite class_to_full_step. simpl in Hn. case_match; simpl.
    + pose proof (IH s). lia.
    + pose proof (IH (d :: s)). simpl in *. lia.
Qed.

Lemma full_to_class_length s :
  Z.of_nat (length (full_to_class s)) = Z.of_nat (length s) + count_dots s.
Proof.
  unfold count_dots. induction s as [|c s IH]; [done|]. simpl full_to_class.
  rewrite filter_cons. destruct (Z.eqb_spec c DOT) as [->|].
  - rewrite decide_True by done. simpl length. lia.
  - rewrite decide_False by done. simpl length. lia.
Qed.

(** The vector fast paths are exact and the buffers suffice: for every name
    [ClassNameToFullName] and [FullNameToClassName] return what their byte loops
    alone compute, [::] for [.], without writing past the buffer that was sized from
    the length (and the dots). *)
Lemma names_vector_exact s :
  ClassNameToFullName s = Ret (class_to_full s) ∧
  FullNameToClassName s = Ret (full_to_class s).
Proof.
  unfold ClassNameToFullName, FullNameToClassName, into_buffer.
  destruct (copy_chunks (length s) 32 s) as [d1 s1] eqn:E1.
  destruct (copy_chunks (length s) 16 s1) as [d2 s2] eqn:E2.
  apply copy_chunks_spec in E1 as [Hs1 Hn1]. apply copy_chunks_spec in E2 as [Hs2 Hn2].
  split.
  - rewrite <- !class_to_full_plain, <- Hs2, <- Hs1 by done.
    pose proof (class_to_full_length (length s) s).
    destruct (Z.leb_spec (Z.of_nat (length (class_to_full s)) + 1) (Z.of_nat (length s) + 1));
      [done|lia].
  - rewrite <- full_to_class_plain, <- Hs1 by done. rewrite full_to_class_length.
    by destruct (Z.leb_spec (Z.of_nat (length s) + count_dots s + 1)
                   (Z.of_nat (length s) + count_dots s + 1)); [|lia].
Qed.

Lemma class_full_inverse n : ∀ s, (length s ≤ n)%nat → COLON ∉ s → class_to_full (full_to_class s) = s.
Proof.
  induction n as [|n IH]; intros [|c s] Hn Hs; try done; [simpl in Hn; lia|].
  simpl full_to_class. apply not_elem_of_cons in Hs as [Hc Hs]. simpl in Hn.
  destruct (Z.eqb_spec c DOT) as [->|].
  - rewrite class_to_full_step. simpl. rewrite IH; [done|lia|done].
  - rewrite class_to_full_step. specialize (IH s ltac:(lia) Hs).
    destruct (full_to_class s) as [|d r]; [by destruct s|].
    rewrite (proj2 (Z.eqb_neq c COLON)) by done. cbn [andb]. by rewrite IH.
Qed.

(** The class name of a message determines its full name: converting a name
    without colons to a class and back gives the name again. *)
Lemma names_roundtrip s :
  COLON ∉ s →
  (c ← FullNameToClassName s; ClassNameToFullName c) = Ret s.
Proof.
  intros Hs. destruct (names_vector_exact s) as [_ ->]. rewrite bind_Ret.
  destruct (names_vector_exact (full_to_class s)) as [-> _].
  by rewrite (class_full_inverse (length s)).
Qed.

Lemma names_roundtrip_witness :
  (c ← FullNameToClassName (str "google.protobuf.compiler.CodeGeneratorRequest");
   ClassNameToFullName c) = Ret (str "google.protobuf.compiler.CodeGeneratorRequest").
Proof. apply names_roundtrip. by_compute. Defined.

(** ** The module of a file *)

(** Splitting at underscores. *)
Fixpoint split_underscore (s : bytes) : list bytes :=
  match s with
  | [] => [[]]
  | c :: s =>
      let ws := split_underscore s in
      if c =? UNDERSCORE then [] :: ws
      else match ws with w :: ws => (c :: w) :: ws | [] => [[c]] end
  end.

Definition capitalize (w : bytes) : bytes :=
  match w with c :: w => upcase c :: w | [] => [] end.

Lemma split_underscore_cons s : ∃ w ws, split_underscore s = w :: ws.
Proof.
  induction s as [|c s (w & ws & IH)]; simpl; [eauto|]. rewrite IH. case_match; eauto.
Qed.

Lemma camel_loop_spec s : ∀ first prev,
  camel_loop first prev s =
    if first || (prev =? UNDERSCORE) then concat (capitalize <$> split_underscore s)
    else match split_underscore s with
         | w :: ws => w ++ concat (capitalize <$> ws)
         | [] => []
         end.
Proof.
  induction s as [|c s IH]; intros first prev; simpl; [by case_match|].
  destruct (split_underscore_cons s) as (w & ws & E). rewrite !IH, E.
  destruct (Z.eqb_spec c UNDERSCORE) as [->|Hc]; simpl; [by rewrite orb_true_r; destruct (first || _)|].
  by destruct (first || _).
Qed.

Lemma camel_length s : ∀ first prev, (length (camel_loop first prev s) ≤ length s)%nat.
Proof.
  induction s as [|c s IH]; intros first prev; simpl; [lia|].
  repeat case_match; simpl; pose proof (IH first c); pose proof (IH false c); lia.
Qed.

(** The module of a .proto file is the CamelCase of its base name: what follows
    the last slash and precedes the first dot is split at its underscores, runs of
    them included, and every part is capitalised; the buffer of the base name's size
    is enough. *)
Lemma file_module_camel_case path :
  get_file_module path =
    Ret (concat (capitalize <$> split_underscore (before_dot (after_last_slash path)))).
Proof.
  unfold get_file_module, into_buffer. set (base := before_dot _).
  pose proof (camel_length base true 0). rewrite camel_loop_spec. simpl orb. cbv iota.
  rewrite camel_loop_spec in H. simpl orb in H. cbv iota in H.
  by destruct (Z.leb_spec (Z.of_nat (length (concat (capitalize <$> split_underscore base))) + 1)
                 (Z.of_nat (length base) + 1)); [|lia].
Qed.

(** ** Stashes *)

Lemma capitalize_length s : ∀ prev, (length (capitalize_loop prev s) ≤ 2 * length s)%nat.
Proof.
  induction s as [|c s IH]; intros prev; simpl; [lia|]. rewrite length_app.
  pose proof (IH (Some c)). repeat case_match; simpl; lia.
Qed.

Lemma capitalize_path_safe s : ∃ r, capitalize_path s = Ret r.
Proof.
  unfold capitalize_path, into_buffer. destruct s as [|c s]; [eauto|].
  pose proof (capitalize_length (c :: s) None).
  destruct (Z.leb_spec (Z.of_nat (length (capitalize_loop None (c :: s))) + 1)
              (Z.of_nat (length (c :: s)) * 2 + 1)); [simpl; eauto|lia].
Qed.

Lemma stash_class_safe m : ∃ class, stash_class m = Ret class.
Proof.
  unfold stash_class. rewrite file_module_camel_case, bind_Ret.
  destruct (capitalize_path_safe (package m)) as [pkg ->]. rewrite bind_Ret.
  destruct (capitalize_path_safe (rel_name m)) as [msg ->]. rewrite bind_Ret.
  unfold into_buffer. set (file := concat _). set (path := default _ msg).
  destruct pkg as [p|].
  - case_match eqn:E; [eauto|]. apply Z.leb_gt in E. rewrite !length_app in E. simpl in E. lia.
  - case_match eqn:E; [eauto|]. apply Z.leb_gt in E. rewrite !length_app in E. simpl in E. lia.
Qed.

Definition stash_inv (st : stashes) : Prop :=
  (∀ k v, isa st !! k = Some v → v = [base_class] ∧ (length k ≤ 1023)%nat) ∧
  ∀ mdef class, stash_cache st !! mdef = Some class → isa st !! isa_name class = Some [base_class].

Lemma isa_name_length class : (length (isa_name class) ≤ 1023)%nat.
Proof. unfold isa_name. rewrite length_take. lia. Qed.

Lemma GetMessageStash_inv st mdef m class st' :
  stash_inv st → GetMessageStash st mdef m = Ret (class, st') →
  stash_inv st' ∧ stash_cache st' !! mdef = Some class ∧ stash_cache st ⊆ stash_cache st'.
Proof.
  intros [Hisa Hcache]. unfold GetMessageStash.
  destruct (stash_cache st !! mdef) as [c|] eqn:Ec; [by intros [= <- <-]|].
  destruct (stash_class_safe m) as [c ->]. rewrite bind_Ret.
  set (ps := if bool_decide _ then _ else _).
  assert (ps = [base_class]) as ->.
  { subst ps. destruct (isa st !! isa_name c) as [v|] eqn:Ei; simpl; [|done].
    destruct (Hisa _ _ Ei) as [-> _]. by rewrite bool_decide_eq_true_2 by set_solver. }
  intros [= <- <-]. split; [split|split]; simpl.
  - intros k v. rewrite lookup_insert. case_decide as E; [|apply Hisa].
    intros [= <-]. subst k. split; [done|apply isa_name_length].
  - intros k c'. rewrite lookup_insert. case_decide as E.
    + intros [= <-]. by rewrite lookup_insert_eq.
    + intros Hl. rewrite lookup_insert. case_decide; [done|by eapply Hcache].
  - by rewrite lookup_insert_eq.
  - by apply insert_subseteq.
Qed.

Fixpoint get_stashes (st : stashes) (reqs : list (Z * MessageNames)) : outcome stashes :=
  match reqs with
  | [] => Ret st
  | (mdef, m) :: reqs => r ← GetMessageStash st mdef m; get_stashes r.2 reqs
  end.

Definition no_stashes : stashes := {| stash_cache := ∅; isa := ∅ |}.

Lemma get_stashes_inv reqs : ∀ st, stash_inv st →
  ∃ st', get_stashes st reqs = Ret st' ∧ stash_inv st' ∧ stash_cache st ⊆ stash_cache st' ∧
         ∀ mdef m, (mdef, m) ∈ reqs → is_Some (stash_cache st' !! mdef).
Proof.
  induction reqs as [|[mdef m] reqs IH]; intros st Hinv; simpl.
  { exists st. split_and!; [done|done|done|]. intros ?? []%not_elem_of_nil. }
  assert (∃ r, GetMessageStash st mdef m = Ret r) as [[class st1] E].
  { unfold GetMessageStash. destruct (stash_cache st !! mdef); [eauto|].
    destruct (stash_class_safe m) as [c ->]. rewrite bind_Ret. eauto. }
  destruct (GetMessageStash_inv st mdef m class st1 Hinv E) as (Hinv1 & Hl & Hsub).
  destruct (IH st1 Hinv1) as (st2 & E2 & Hinv2 & Hsub2 & Hall). exists st2.
  rewrite E, bind_Ret. split_and!; [done|done|by etrans|].
  intros mdef' m' [[= -> ->]|Hin]%elem_of_cons; [|by eapply Hall].
  exists class. by eapply lookup_weaken.
Qed.

(** Message classes inherit, if their names are short.  After any sequence of
    [GetMessageStash] calls, which all succeed, every requested type has a class; its
    [@ISA] is exactly [Protobuf::Message], once, when the class name has at most 1018
    bytes, and is empty when it is longer, because the name of the [@ISA] variable is
    cut off at 1023 bytes. *)
Lemma message_class_inherits reqs :
  ∃ st, get_stashes no_stashes reqs = Ret st ∧
  ∀ mdef m, (mdef, m) ∈ reqs → ∃ class, stash_cache st !! mdef = Some class ∧
    parents_of st class = if (length class <=? 1018)%nat then [base_class] else [].
Proof.
  destruct (get_stashes_inv reqs no_stashes) as (st & E & [Hisa Hcache] & _ & Hall).
  { by split. }
  exists st. split; [done|]. intros mdef m Hin.
  destruct (Hall mdef m Hin) as [class Hc]. exists class. split; [done|].
  unfold parents_of. destruct (Nat.leb_spec (length class) 1018).
  - specialize (Hcache _ _ Hc). unfold isa_name in Hcache.
    rewrite take_ge in Hcache; [by rewrite Hcache|]. rewrite length_app. simpl. lia.
  - destruct (isa st !! (class ++ str "::ISA")) as [v|] eqn:Ei; [|done].
    destruct (Hisa _ _ Ei) as [_ Hlen]. rewrite length_app in Hlen. simpl in Hlen. lia.
Qed.

Lemma message_class_inherits_witness :
  ∃ st, get_stashes no_stashes [(1, {| file_name := str "a.proto"; package := str "p"; full_name := str "p.M" |})] = Ret st ∧
  ∀ mdef m, (mdef, m) ∈ [(1, {| file_name := str "a.proto"; package := str "p"; full_name := str "p.M" |})] →
    ∃ class, stash_cache st !! mdef = Some class ∧
    parents_of st class = if (length class <=? 1018)%nat then [base_class] else [].
Proof. exact (message_class_inherits [(1, {| file_name := str "a.proto"; package := str "p"; full_name := str "p.M" |})]). Defined.
