(* ===== verification/Handles.v ===== *)
(** * Container wrappers

    What the operations of the container wrappers (repeated fields, maps, sets of
    unknown fields) have in common: the pointers behind the receiver. *)

From S2P Require Import Prelude PerlNumbers Convert.

(** What [PerlUpb_GetArenaBoundObject] and [GetFieldDef] find in the receiver. *)
Record handle := { has_ptr : bool; has_fdef : bool }.
Definition live : handle := {| has_ptr := true; has_fdef := true |}.

(** [PL_sv_yes] and [PL_sv_no]. *)
Definition yesno (b : bool) : sv := if b then IV 1 else PV [] false.

Section Handles.
Context {S : Type}.

(** [if (!ptr) return dflt;] and [if (!ptr || !f) return dflt;]. *)
Definition with_ptr {B} (self : handle) (dflt : B) (m : cmd S B) : cmd S B :=
  if negb (has_ptr self) then mret dflt else m.
Definition with_fdef {B} (self : handle) (dflt : B) (m : cmd S B) : cmd S B :=
  if negb (has_ptr self) || negb (has_fdef self) then mret dflt else m.

(** A call that does not look at the container. *)
Definition of_outcome {B} (m : outcome B) : cmd S B := λ s, (m, s).

(** An answer of [void]. *)
Definition void (m : cmd S unit) : cmd S sv := m;; mret Undef.
End Handles.
