(* ===== verification/Repeated.v ===== *)
(** * Repeated fields (xs/repeated/repeated.c over vendor/upb/message/array.c)

    The growable array of upb and the operations of [Protobuf::Internal::Repeated]
    on it, refined to operations on lists. *)

From S2P Require Import Prelude PerlNumbers Convert Handles.

(** ** [upb_Array]

    [cells]: the allocated storage, its length the capacity; [None] is memory that
    was never written.  [size]: the elements in use. *)
Record upb_Array (A : Type) := { cells : list (option A); size : nat }.
Arguments cells {_} _.
Arguments size {_} _.
Arguments Build_upb_Array {_} _ _.

Section Array.
Context {A : Type}.
Implicit Types (arr : upb_Array A) (v : A).

(** [upb_Array_New(arena, type)]: a capacity of four. *)
Definition Array_New : upb_Array A := {| cells := replicate 4 None; size := 0 |}.

(** [upb_Array_Get] and [upb_Array_Set]: plain reads and writes of the storage. *)
Definition Array_Get arr (i : nat) : outcome A :=
  match cells arr !! i with
  | Some (Some v) => Ret v
  | Some None => Fault "read of uninitialised storage"
  | None => Fault "read past the array"
  end.

Definition Array_Set arr (i : nat) v : outcome (upb_Array A) :=
  if (i <? length (cells arr))%nat
  then Ret {| cells := <[i := Some v]> (cells arr); size := size arr |}
  else Fault "write past the array".

(** [while (new_capacity < min_capacity) new_capacity *= 2]. *)
Fixpoint grow_capacity (fuel : nat) (new_capacity min_capacity : nat) : nat :=
  match fuel with
  | O => new_capacity
  | S fuel =>
      if (new_capacity <? min_capacity)%nat
      then grow_capacity fuel (2 * new_capacity) min_capacity else new_capacity
  end.

(** [_upb_Array_Realloc]; [mem] is the arena's answer.  The new storage starts with
    the old bytes. *)
Definition Array_Realloc arr (min_capacity : nat) (mem : bool) : option (upb_Array A) :=
  let new_capacity := grow_capacity min_capacity (Nat.max (length (cells arr)) 4) min_capacity in
  if mem
  then Some {| cells := cells arr ++ replicate (new_capacity - length (cells arr)) None;
               size := size arr |}
  else None.

(** [_upb_Array_ResizeUninitialized]. *)
Definition ResizeUninitialized arr (n : nat) (mem : bool) : option (upb_Array A) :=
  arr ← (if (length (cells arr) <? n)%nat then Array_Realloc arr n mem else Some arr);
  Some {| cells := cells arr; size := n |}.

(** [upb_Array_Append]. *)
Definition Array_Append arr v (mem : bool) : outcome (option (upb_Array A)) :=
  match ResizeUninitialized arr (size arr + 1) mem with
  | None => Ret None
  | Some arr => Some <$> Array_Set arr (size arr - 1) v
  end.

(** [upb_Array_Move]: memmove of whole elements. *)
Definition Array_Move arr (dst src count : nat) : outcome (upb_Array A) :=
  if (dst + count <=? length (cells arr))%nat && (src + count <=? length (cells arr))%nat
  then Ret {| cells := take dst (cells arr) ++ take count (drop src (cells arr))
                       ++ drop (dst + count) (cells arr);
              size := size arr |}
  else Fault "memmove past the array".

(** [upb_Array_Insert], [upb_Array_Delete], [upb_Array_Resize]. *)
Definition Array_Insert arr (i count : nat) (mem : bool) : outcome (option (upb_Array A)) :=
  let oldsize := size arr in
  match ResizeUninitialized arr (size arr + count) mem with
  | None => Ret None
  | Some arr => Some <$> Array_Move arr (i + count) i (oldsize - i)
  end.

Definition Array_Delete arr (i count : nat) : outcome (upb_Array A) :=
  let tail := (i + count)%nat in
  if (tail <=? size arr)%nat then
    arr ← Array_Move arr i tail (size arr - tail);
    Ret {| cells := cells arr; size := (size arr - count)%nat |}
  else Fault "delete past the end".

Definition Array_Resize arr (n : nat) (zero : A) (mem : bool) : option (upb_Array A) :=
  let oldsize := size arr in
  arr ← ResizeUninitialized arr n mem;
  Some (if (oldsize <? n)%nat
        then {| cells := take oldsize (cells arr) ++ replicate (n - oldsize) (Some zero)
                         ++ drop n (cells arr);
                size := size arr |}
        else arr).
End Array.

(** ** [Protobuf::Internal::Repeated]

    The element type of the field: what a zeroed element is, and the conversions. *)
Class Element (A : Type) := {
  zero : A;
  UpbToSv_Element : A → outcome sv;
  SvToUpb_Elt : sv → outcome A;
}.

Section Repeated.
Context {A : Type} `{Element A}.
Notation call := (cmd (upb_Array A)).

(** An operation of the array: the new array on success. *)
Definition array_op (m : upb_Array A → outcome (option (upb_Array A))) (fail : string)
  : call unit := λ arr,
  match m arr with
  | Ret (Some arr') => (Ret tt, arr')
  | Ret None => (Croak fail, arr)
  | Croak msg => (Croak msg, arr)
  | Fault why => (Fault why, arr)
  end.

Definition Repeated_GetItem (self : handle) (index : Z) : call sv :=
  with_fdef self Undef $
  arr ← cget;
  if (index <? 0) || (Z.of_nat (size arr) <=? index) then mret Undef
  else val ← of_outcome (Array_Get arr (Z.to_nat index)); of_outcome (UpbToSv_Element val).

Definition Repeated_SetItem (self : handle) (index : Z) (val_sv : sv) : call unit :=
  with_fdef self tt $
  arr ← cget;
  if (index <? 0) || (Z.of_nat (size arr) <=? index)
  then ccroak "Index out of bounds for repeated field"
  else
    val ← of_outcome (SvToUpb_Elt val_sv);
    array_op (λ arr, Some <$> Array_Set arr (Z.to_nat index) val) "".

Definition Repeated_Append (self : handle) (val_sv : sv) (mem : bool) : call unit :=
  with_fdef self tt $
  val ← of_outcome (SvToUpb_Elt val_sv);
  array_op (λ arr, Array_Append arr val mem) "Failed to append to repeated field".

(** [index + count] is computed in [int]. *)
Definition Repeated_Delete (self : handle) (index count : Z) : call unit :=
  with_ptr self tt $
  arr ← cget;
  let n := Z.of_nat (size arr) in
  if (index <? 0) || (n <? index) then mret tt
  else if (index + count <? INT32_MIN) || (INT32_MAX <? index + count)
  then cfault "signed overflow"
  else
    let count := if i32 n <? index + count then i32 (n - index) else count in
    if count <=? 0 then mret tt
    else array_op (λ arr, Some <$> Array_Delete arr (Z.to_nat index) (Z.to_nat count)) "".

Definition Repeated_Size (self : handle) : call Z :=
  with_ptr self 0 $
  arr ← cget; mret (i32 (Z.of_nat (size arr))).

(** The conversion croaks, past the call to [upb_Array_Delete] that would undo the
    insertion. *)
Definition Repeated_Insert (self : handle) (index : Z) (val_sv : sv) (mem : bool) : call unit :=
  with_fdef self tt $
  arr ← cget;
  if (index <? 0) || (Z.of_nat (size arr) <? index)
  then ccroak "Index out of bounds for repeated field insert"
  else
    array_op (λ arr, Array_Insert arr (Z.to_nat index) 1 mem) "Failed to insert into repeated field";;
    val ← of_outcome (SvToUpb_Elt val_sv);
    array_op (λ arr, Some <$> Array_Set arr (Z.to_nat index) val) "".

Definition Repeated_Resize (self : handle) (n : Z) (mem : bool) : call unit :=
  with_ptr self tt $
  if n <? 0 then ccroak "Negative size for repeated field resize"
  else array_op (λ arr, Ret (Array_Resize arr (Z.to_nat n) zero mem))
         "Failed to resize repeated field".

(** The answer of the resize to zero, without an arena, is not looked at. *)
Definition Repeated_Clear (self : handle) : call unit :=
  with_ptr self tt $
  λ arr,
  (Ret tt, default arr (Array_Resize arr 0 zero false)).

(** The calls Perl code makes, with the arena's answer where they allocate. *)
Inductive rop :=
  | OGet (index : Z) | OSet (index : Z) (s : sv) | OAppend (s : sv)
  | ODelete (index count : Z) | OSize | OInsert (index : Z) (s : sv)
  | OResize (n : Z) | OClear.

Definition run_op (self : handle) (op : rop) (mem : bool) : call sv :=
  match op with
  | OGet i => Repeated_GetItem self i
  | OSet i s => void (Repeated_SetItem self i s)
  | OAppend s => void (Repeated_Append self s mem)
  | ODelete i n => void (Repeated_Delete self i n)
  | OSize => n ← Repeated_Size self; mret (IV n)
  | OInsert i s => void (Repeated_Insert self i s mem)
  | OResize n => void (Repeated_Resize self n mem)
  | OClear => void (Repeated_Clear self)
  end.

(** A sequence of calls, each in an [eval]. *)
Fixpoint run_ops (self : handle) (ops : list (rop * bool)) (arr : upb_Array A) : list (outcome sv) * upb_Array A :=
  match ops with
  | [] => ([], arr)
  | (op, mem) :: ops =>
      let '(out, arr) := run_op self op mem arr in
      let '(outs, arr) := run_ops self ops arr in (out :: outs, arr)
  end.

(** ** The specification: a list

    An element is [None] when its storage was never written, which only an insertion that
    fails at the end leaves behind. *)

Definition at_index (xs : list (option A)) (i : Z) : option (option A) :=
  if i <? 0 then None else xs !! Z.to_nat i.

Definition converted (s : sv) (xs : list (option A)) (k : A → list (option A)) : outcome sv * list (option A) :=
  match SvToUpb_Elt s with
  | Ret v => (Ret Undef, k v)
  | Croak msg => (Croak msg, xs)
  | Fault why => (Fault why, xs)
  end.

Definition inserted (i : Z) (c : option A) (xs : list (option A)) : list (option A) :=
  take (Z.to_nat i) xs ++ c :: drop (Z.to_nat i) xs.

(** [c]: what the storage behind the last element held.  An insertion whose value does not
    convert has already made room: the element that was at the index is there twice, or, at
    the end, what the storage held has become an element. *)
Definition spec_op (c : option A) (op : rop) (xs : list (option A)) : outcome sv * list (option A) :=
  match op with
  | OGet i =>
      (match at_index xs i with
       | Some (Some x) => UpbToSv_Element x
       | Some None => Fault "read of uninitialised storage"
       | None => Ret Undef
       end, xs)
  | OSet i s =>
      match at_index xs i with
      | Some _ => converted s xs (λ v, <[Z.to_nat i := Some v]> xs)
      | None => (Croak "Index out of bounds for repeated field", xs)
      end
  | OAppend s => converted s xs (λ v, xs ++ [Some v])
  | ODelete i n =>
      if (0 <=? i) && (i <=? Z.of_nat (length xs)) && ((i + n <? INT32_MIN) || (INT32_MAX <? i + n))
      then (Fault "signed overflow", xs)
      else (Ret Undef, if (0 <=? i) && (0 <? n)
                       then take (Z.to_nat i) xs ++ drop (Z.to_nat i + Z.to_nat n) xs else xs)
  | OSize => (Ret (IV (Z.of_nat (length xs))), xs)
  | OInsert i s =>
      if (0 <=? i) && (i <=? Z.of_nat (length xs))
      then converted s (inserted i (default c (xs !! Z.to_nat i)) xs) (λ v, inserted i (Some v) xs)
      else (Croak "Index out of bounds for repeated field insert", xs)
  | OResize n =>
      if n <? 0 then (Croak "Negative size for repeated field resize", xs)
      else (Ret Undef, take (Z.to_nat n) xs ++ replicate (Z.to_nat n - length xs) (Some zero))
  | OClear => (Ret Undef, [])
  end.

(** What a call may answer: the list operation, or out of memory with the list as it
    was. *)
Inductive allowed : list (rop * bool) → list (option A) → list (outcome sv) → list (option A) → Prop :=
  | allowed_nil xs : allowed [] xs [] xs
  | allowed_op c op mem ops xs out xs' outs ys :
      spec_op c op xs = (out, xs') → allowed ops xs' outs ys →
      allowed ((op, mem) :: ops) xs (out :: outs) ys
  | allowed_oom op ops xs msg outs ys :
      allowed ops xs outs ys → allowed ((op, false) :: ops) xs (Croak msg :: outs) ys.

(** The longest the list gets. *)
Definition longest (op : rop) (n : Z) : Z :=
  match op with OAppend _ | OInsert _ _ => n + 1 | OResize m => Z.max n m | _ => n end.

(** ** Representation *)

Definition repr (arr : upb_Array A) (xs : list (option A)) : Prop :=
  size arr = length xs ∧ ∃ rest, cells arr = xs ++ rest.

Lemma repr_new : repr Array_New [].
Proof. split; [done|]. by eexists. Qed.

Lemma grow_capacity_ge fuel : ∀ c m, (0 < c)%nat → (m ≤ c + fuel)%nat → (m ≤ grow_capacity fuel c m)%nat.
Proof.
  induction fuel as [|fuel IH]; intros c m Hc Hm; simpl; [lia|].
  destruct (Nat.ltb_spec c m); [|lia]. apply IH; lia.
Qed.

Lemma ResizeUninitialized_spec (arr : upb_Array A) n mem :
  (mem = true ∨ (n ≤ length (cells arr))%nat) →
  ∃ rest, ResizeUninitialized arr n mem = Some {| cells := cells arr ++ rest; size := n |} ∧
          (n ≤ length (cells arr ++ rest))%nat.
Proof.
  intros Hm. unfold ResizeUninitialized, Array_Realloc.
  destruct (Nat.ltb_spec (length (cells arr)) n) as [Hlt|Hge].
  - destruct Hm as [->|?]; [|lia]. simpl. eexists. split; [done|].
    rewrite length_app, length_replicate.
    pose proof (grow_capacity_ge n (Nat.max (length (cells arr)) 4) n). lia.
  - exists []. rewrite app_nil_r. simpl. by destruct arr.
Qed.

Lemma repr_lookup arr xs i x : repr arr xs → xs !! i = Some x → cells arr !! i = Some x.
Proof. intros [_ [rest ->]] Hx. rewrite lookup_app_l; [done|by eapply lookup_lt_Some]. Qed.

Lemma repr_cells arr xs : repr arr xs → (length xs ≤ length (cells arr))%nat.
Proof. intros [_ [rest ->]]. rewrite length_app. lia. Qed.

Lemma repr_set arr xs i v :
  repr arr xs → (i < length xs)%nat →
  ∃ arr', Array_Set arr i v = Ret arr' ∧ repr arr' (<[i := Some v]> xs).
Proof.
  intros Hr Hi. pose proof (repr_cells _ _ Hr). destruct Hr as [Hs [rest Hc]].
  unfold Array_Set. destruct (Nat.ltb_spec i (length (cells arr))); [|lia].
  eexists. split; [done|]. split; [by rewrite length_insert|]. exists rest. simpl.
  by rewrite Hc, insert_app_l by lia.
Qed.

Lemma repr_append arr xs v mem :
  repr arr xs → mem = true →
  ∃ arr', Array_Append arr v mem = Ret (Some arr') ∧ repr arr' (xs ++ [Some v]).
Proof.
  intros [Hs [rest Hc]] ->. unfold Array_Append.
  destruct (ResizeUninitialized_spec arr (size arr + 1) true) as (more & -> & Hlen); [by left|].
  unfold Array_Set. cbn [cells size]. replace (size arr + 1 - 1)%nat with (size arr) by lia.
  destruct (Nat.ltb_spec (size arr) (length (cells arr ++ more))); [|lia]. simpl.
  eexists. split; [done|]. split; [rewrite length_app; simpl; lia|].
  rewrite Hc in *. rewrite <- app_assoc in *. simpl.
  rewrite Hs, insert_app_r_alt by done.
  rewrite Nat.sub_diag. rewrite !length_app in Hlen.
  destruct (rest ++ more) as [|c cs] eqn:E.
  { apply (f_equal length) in E. rewrite length_app in E. simpl in E. lia. }
  exists cs. by rewrite <- app_assoc.
Qed.

Lemma Array_Move_spec (arr : upb_Array A) dst src count :
  (dst + count ≤ length (cells arr))%nat → (src + count ≤ length (cells arr))%nat →
  Array_Move arr dst src count =
    Ret {| cells := take dst (cells arr) ++ take count (drop src (cells arr))
                    ++ drop (dst + count) (cells arr);
           size := size arr |}.
Proof.
  intros H1 H2. unfold Array_Move.
  destruct (Nat.leb_spec (dst + count) (length (cells arr))); [|lia].
  destruct (Nat.leb_spec (src + count) (length (cells arr))); [done|lia].
Qed.

(** Making room keeps the element that was at the index in place, if there was one;
    otherwise whatever the storage holds. *)
Lemma repr_insert arr xs i mem :
  repr arr xs → (i ≤ length xs)%nat → mem = true →
  ∃ arr' c, Array_Insert arr i 1 mem = Ret (Some arr') ∧ size arr' = S (length xs) ∧
    (∃ rest, cells arr' = take i xs ++ default c (xs !! i) :: drop i xs ++ rest).
Proof.
  intros [Hs [rest Hc]] Hi ->. unfold Array_Insert.
  destruct (ResizeUninitialized_spec arr (size arr + 1) true) as (more & -> & Hlen); [by left|].
  rewrite Hc in *. rewrite <- app_assoc in *. rewrite Hs in *.
  rewrite Array_Move_spec; cbn [cells size]; [|lia..]. simpl. rewrite !length_app in Hlen.
  replace (i + 1 + (length xs - i))%nat with (length xs + 1)%nat by lia.
  rewrite drop_app_le by lia. rewrite (take_app_length' (drop i _)) by (rewrite length_drop; lia).
  destruct (decide (i = length xs)) as [->|Hne].
  - rewrite drop_ge by done. rewrite lookup_ge_None_2 by lia. rewrite take_app_ge by lia.
    replace (length xs + 1 - length xs)%nat with 1%nat by lia.
    destruct (rest ++ more) as [|c cs] eqn:E.
    { apply (f_equal length) in E. rewrite length_app in E. simpl in E. lia. }
    eexists _, c. split; [done|]. cbn [size cells default]. split; [lia|].
    exists (drop (length xs + 1) (xs ++ c :: cs)).
    rewrite (take_ge xs) by lia. by rewrite <- app_assoc.
  - destruct (lookup_lt_is_Some_2 xs i) as [x Hx]; [lia|].
    eexists _, x. split; [done|]. simpl. split; [lia|].
    eexists. rewrite Hx, take_app_le, Nat.add_1_r, (take_S_r _ _ _ Hx), <- app_assoc by lia. by simpl.
Qed.

Lemma repr_delete arr xs i count :
  repr arr xs → (i + count ≤ length xs)%nat →
  ∃ arr', Array_Delete arr i count = Ret arr' ∧ repr arr' (take i xs ++ drop (i + count) xs).
Proof.
  intros Hr Hle. pose proof (repr_cells _ _ Hr). destruct Hr as [Hs [rest Hc]].
  unfold Array_Delete. rewrite Hs. destruct (Nat.leb_spec (i + count) (length xs)); [|lia].
  rewrite Array_Move_spec by lia. rewrite bind_Ret. eexists. split; [done|].
  split; simpl; [rewrite length_app, length_take, length_drop; lia|].
  rewrite Hc. eexists. rewrite take_app_le by lia. rewrite drop_app_le by lia.
  rewrite (take_app_length' (drop (i + count) _)) by (rewrite length_drop; lia).
  by rewrite <- app_assoc.
Qed.

Lemma repr_resize arr xs n mem :
  repr arr xs → (mem = true ∨ (n ≤ length xs)%nat) →
  ∃ arr', Array_Resize arr n zero mem = Some arr' ∧
          repr arr' (take n xs ++ replicate (n - length xs) (Some zero)).
Proof.
  intros Hr Hm. pose proof (repr_cells _ _ Hr). destruct Hr as [Hs [rest Hc]].
  unfold Array_Resize.
  destruct (ResizeUninitialized_spec arr n mem) as (more & -> & Hlen);
    [destruct Hm; [by left|right; lia]|].
  rewrite Hs, Hc in *. rewrite <- app_assoc in *. simpl.
  destruct (Nat.ltb_spec (length xs) n) as [Hlt|Hge]; (eexists; split; [done|]).
  - split; simpl; [rewrite length_app, length_take, length_replicate; lia|].
    eexists. rewrite take_app_le by lia.
    rewrite !(take_ge xs) by lia. by rewrite <- app_assoc.
  - replace (n - length xs)%nat with 0%nat by lia. simpl. rewrite app_nil_r.
    split; simpl; [rewrite length_take; lia|].
    exists (drop n xs ++ rest ++ more). by rewrite (app_assoc (take n _)), take_drop.
Qed.

(** ** Each call is its list operation *)

Lemma at_index_spec arr xs i : repr arr xs →
  (at_index xs i = None ∧ ((i <? 0) || (Z.of_nat (size arr) <=? i)) = true) ∨
  (∃ x, at_index xs i = Some x ∧ ((i <? 0) || (Z.of_nat (size arr) <=? i)) = false ∧
        xs !! Z.to_nat i = Some x ∧ (Z.to_nat i < length xs)%nat).
Proof.
  intros [Hs _]. unfold at_index. rewrite Hs. destruct (Z.ltb_spec i 0); [by left|].
  destruct (Z.leb_spec (Z.of_nat (length xs)) i).
  - left. split; [|done]. apply lookup_ge_None. lia.
  - right. destruct (lookup_lt_is_Some_2 xs (Z.to_nat i)) as [x Hx]; [lia|].
    exists x. repeat split; [done..|lia].
Qed.

(** The array after a call stands for the list after the operation, or the arena
    said no. *)
Definition simulates (op : rop) (mem : bool) (arr : upb_Array A) (xs : list (option A)) : Prop :=
  ∃ out arr', run_op live op mem arr = (out, arr') ∧
    ((∃ c xs', spec_op c op xs = (out, xs') ∧ repr arr' xs') ∨
     (mem = false ∧ (∃ msg, out = Croak msg) ∧ arr' = arr)).

(** Evaluates a call up to its first use of the array. *)
#[local] Ltac eval_call :=
  unfold simulates, run_op, void, spec_op, converted, Repeated_GetItem, Repeated_SetItem,
    Repeated_Append, Repeated_Delete, Repeated_Size, Repeated_Insert, Repeated_Resize,
    Repeated_Clear, with_ptr, with_fdef, array_op, of_outcome, ccroak, cfault, cget, mret, cmd_ret, mbind, cmd_bind;
  cbn [live has_ptr has_fdef negb orb].
#[local] Ltac as_specified := do 2 eexists; (split; [reflexivity|]); left; exists None; eexists; (split; [reflexivity|]).

Lemma sim_get arr xs i mem : repr arr xs → simulates (OGet i) mem arr xs.
Proof.
  intros Hr. eval_call.
  destruct (at_index_spec arr xs i Hr) as [[-> ->]|(x & -> & -> & Hx & _)]; cbn beta iota.
  - by as_specified.
  - unfold Array_Get. rewrite (repr_lookup _ _ _ _ Hr Hx). destruct x; cbn beta iota; by as_specified.
Qed.

Lemma sim_set arr xs i s mem : repr arr xs → simulates (OSet i s) mem arr xs.
Proof.
  intros Hr. eval_call.
  destruct (at_index_spec arr xs i Hr) as [[-> ->]|(x & -> & -> & _ & Hi)]; cbn beta iota;
    [by as_specified|].
  destruct (SvToUpb_Elt s) as [v|msg|why]; cbn beta iota; [|by as_specified..].
  destruct (repr_set arr xs (Z.to_nat i) v Hr Hi) as (arr' & -> & Hr'). by as_specified.
Qed.

Lemma append_oom (arr : upb_Array A) v : ∀ out, Array_Append arr v false = out →
  out = Ret None ∨ Array_Append arr v true = out.
Proof.
  intros out. unfold Array_Append, ResizeUninitialized, Array_Realloc.
  destruct (_ <? _)%nat; simpl; auto.
Qed.

Lemma insert_oom (arr : upb_Array A) i :
  Array_Insert arr i 1 false = Ret None ∨ Array_Insert arr i 1 false = Array_Insert arr i 1 true.
Proof.
  unfold Array_Insert, ResizeUninitialized, Array_Realloc. destruct (_ <? _)%nat; simpl; auto.
Qed.

Lemma resize_oom (arr : upb_Array A) n :
  Array_Resize arr n zero false = None ∨ Array_Resize arr n zero false = Array_Resize arr n zero true.
Proof.
  unfold Array_Resize, ResizeUninitialized, Array_Realloc.
  destruct (length (cells arr) <? n)%nat; simpl; auto.
Qed.

Lemma sim_append arr xs s mem : repr arr xs → simulates (OAppend s) mem arr xs.
Proof.
  intros Hr. eval_call.
  destruct (SvToUpb_Elt s) as [v|msg|why]; cbn beta iota; [|by as_specified..].
  destruct (repr_append arr xs v true Hr eq_refl) as (arr' & E & Hr').
  destruct mem; [rewrite E; by as_specified|].
  destruct (append_oom arr v _ eq_refl) as [->|E']; [|rewrite <- E', E; by as_specified].
  do 2 eexists. split; [done|]. right. by eauto.
Qed.

Lemma sim_delete arr xs i n mem :
  repr arr xs → Z.of_nat (length xs) ≤ INT32_MAX → simulates (ODelete i n) mem arr xs.
Proof.
  unfold INT32_MAX. intros Hr Hlen. eval_call. pose proof Hr as [Hs _].
  rewrite Hs, !i32_small by lia.
  destruct (Z.ltb_spec i 0); destruct (Z.leb_spec 0 i); try lia; cbn [orb andb]; [by as_specified|].
  destruct (Z.ltb_spec (Z.of_nat (length xs)) i) as [Hi|Hi]; destruct (Z.leb_spec i (Z.of_nat (length xs)));
    try lia; cbn [andb].
  { destruct (0 <? n); [|by as_specified]. as_specified. rewrite take_ge, drop_ge by lia.
    by rewrite app_nil_r. }
  destruct (_ || _); [by as_specified|].
  destruct (Z.ltb_spec (Z.of_nat (length xs)) (i + n)).
  - destruct (Z.ltb_spec 0 n); [|lia]. rewrite i32_small by lia.
    destruct (Z.leb_spec (Z.of_nat (length xs) - i) 0).
    + as_specified. rewrite take_ge, drop_ge by lia. by rewrite app_nil_r.
    + destruct (repr_delete arr xs (Z.to_nat i) (Z.to_nat (Z.of_nat (length xs) - i)) Hr)
        as (arr' & -> & Hr'); [lia|]. as_specified.
      rewrite (drop_ge xs) in Hr' by lia. by rewrite (drop_ge xs) by lia.
  - destruct (Z.leb_spec n 0); destruct (Z.ltb_spec 0 n); try lia; [by as_specified|].
    destruct (repr_delete arr xs (Z.to_nat i) (Z.to_nat n) Hr) as (arr' & -> & Hr'); [lia|].
    by as_specified.
Qed.

Lemma repr_fill arr xs i c v rest :
  (i ≤ length xs)%nat → cells arr = take i xs ++ c :: drop i xs ++ rest → size arr = S (length xs) →
  repr arr (take i xs ++ c :: drop i xs) ∧
  ∃ arr2, Array_Set arr i v = Ret arr2 ∧ repr arr2 (take i xs ++ Some v :: drop i xs).
Proof.
  intros Hi Hc Hs.
  assert (∀ d, length (take i xs ++ d :: drop i xs) = S (length xs)) as Hl.
  { intros d. rewrite length_app. simpl. rewrite length_take, length_drop. lia. }
  split; [split; [by rewrite Hl|exists rest; by rewrite Hc, <- app_assoc]|].
  unfold Array_Set. rewrite Hc.
  destruct (Nat.ltb_spec i (length (take i xs ++ c :: drop i xs ++ rest)));
    [|rewrite length_app, length_take in *; simpl in *; lia].
  eexists. split; [done|]. split; simpl; [by rewrite Hl|].
  exists rest. rewrite insert_app_r_alt by (rewrite length_take; lia).
  rewrite length_take, Nat.min_l, Nat.sub_diag by lia. simpl. by rewrite <- app_assoc.
Qed.

Lemma sim_insert arr xs i s mem : repr arr xs → simulates (OInsert i s) mem arr xs.
Proof.
  intros Hr. eval_call. pose proof Hr as [Hs _]. rewrite Hs. unfold inserted.
  destruct (Z.ltb_spec i 0); destruct (Z.leb_spec 0 i); try lia; cbn [orb andb]; [by as_specified|].
  destruct (Z.ltb_spec (Z.of_nat (length xs)) i); destruct (Z.leb_spec i (Z.of_nat (length xs)));
    try lia; [by as_specified|].
  destruct (repr_insert arr xs (Z.to_nat i) true Hr) as (arr' & c & E & Hs' & (rest & Hc)); [lia|done|].
  assert (Array_Insert arr (Z.to_nat i) 1 mem = Ret None ∧ mem = false ∨
          Array_Insert arr (Z.to_nat i) 1 mem = Ret (Some arr')) as [[-> ->]| ->].
  { destruct mem; [by right|]. destruct (insert_oom arr (Z.to_nat i)) as [|E']; [by left|right; by rewrite E']. }
  { do 2 eexists. split; [done|]. right. by eauto. }
  destruct (SvToUpb_Elt s) as [v|msg|why]; cbn beta iota.
  - destruct (repr_fill arr' xs (Z.to_nat i) _ v rest ltac:(lia) Hc Hs') as [_ (arr2 & -> & Hr2)]. by as_specified.
  - do 2 eexists. split; [reflexivity|]. left. exists c. eexists. split; [reflexivity|].
    by eapply repr_fill with (v := zero); [lia|..].
  - do 2 eexists. split; [reflexivity|]. left. exists c. eexists. split; [reflexivity|].
    by eapply repr_fill with (v := zero); [lia|..].
Qed.

Lemma sim_resize arr xs n mem : repr arr xs → simulates (OResize n) mem arr xs.
Proof.
  intros Hr. eval_call. destruct (n <? 0); [by as_specified|].
  destruct (repr_resize arr xs (Z.to_nat n) true Hr) as (arr' & E & Hr'); [by left|].
  destruct mem; [rewrite E; by as_specified|].
  destruct (resize_oom arr (Z.to_nat n)) as [->|E'].
  - do 2 eexists. split; [done|]. right. by eauto.
  - rewrite E', E. by as_specified.
Qed.

Lemma sim_clear arr xs mem : repr arr xs → simulates OClear mem arr xs.
Proof.
  intros Hr. eval_call.
  destruct (repr_resize arr xs 0 false Hr) as (arr' & -> & Hr'); [right; lia|]. by as_specified.
Qed.

Lemma sim_size arr xs mem :
  repr arr xs → Z.of_nat (length xs) ≤ INT32_MAX → simulates OSize mem arr xs.
Proof.
  unfold INT32_MAX. intros Hr Hlen. eval_call. pose proof Hr as [-> _]. rewrite i32_small by lia.
  by as_specified.
Qed.

#[local] Hint Resolve sim_get sim_set sim_append sim_delete sim_size sim_insert sim_resize
  sim_clear : core.

Lemma sim_op op mem arr xs :
  repr arr xs → Z.of_nat (length xs) ≤ INT32_MAX → simulates op mem arr xs.
Proof. destruct op; simpl; auto. Qed.

Lemma longest_le op n : n ≤ longest op n.
Proof. destruct op; simpl; lia. Qed.

Lemma spec_op_longest c op xs out xs' :
  spec_op c op xs = (out, xs') → Z.of_nat (length xs') ≤ longest op (Z.of_nat (length xs)).
Proof.
  intros Hs. destruct op; simpl in *; unfold converted, inserted in *;
    repeat case_match; simplify_eq/=;
    rewrite ?length_app, ?length_insert, ?length_take, ?length_drop, ?length_replicate; simpl;
    rewrite ?length_drop; lia.
Qed.

Lemma longest_mono op n m : n ≤ m → longest op n ≤ longest op m.
Proof. destruct op; simpl; lia. Qed.

Lemma longest_run_mono ops : ∀ n m, n ≤ m →
  foldl (λ n op, longest op n) n ops ≤ foldl (λ n op, longest op n) m ops.
Proof. induction ops as [|op ops IH]; intros n m Hnm; simpl; [done|]. auto using longest_mono. Qed.

Lemma longest_run_ge ops : ∀ n, n ≤ foldl (λ n op, longest op n) n ops.
Proof.
  induction ops as [|op ops IH]; intros n; simpl; [done|].
  etrans; [apply (longest_le op)|apply IH].
Qed.

(** Only an insertion that fails leaves storage that was never written as an element. *)
Definition inserts_convert (op : rop) : Prop :=
  match op with OInsert _ s => ∃ v, SvToUpb_Elt s = Ret v | _ => True end.

Lemma spec_op_written c op xs out xs' :
  inserts_convert op → Forall is_Some xs → spec_op c op xs = (out, xs') → Forall is_Some xs'.
Proof.
  intros Hc Hw Hs.
  assert (∀ n m v, Forall is_Some (take n xs ++ Some v :: drop m xs)) as Hmid.
  { intros. apply Forall_app. split; [by apply Forall_take|]. constructor; [done|by apply Forall_drop]. }
  destruct op; simpl in Hc, Hs; unfold converted, inserted in Hs; repeat case_match; simplify_eq/=;
    rewrite ?Forall_app; split_and?; try done; auto using Forall_take, Forall_drop.
  - by apply Forall_insert.
  - by destruct Hc as [? ?].
  - by destruct Hc as [? ?].
  - by apply Forall_replicate.
Qed.

(** C5: the repeated field of a live wrapper refines a list.  Whatever calls Perl code makes
    on it in whatever order, as long as it stays below 2^31 elements: every answer, croaks
    included, and the elements left are those of the list operations, except that a call
    whose allocation fails croaks and leaves the elements alone; the C code never writes
    past the allocation, and reads storage that was not written only where the list has such
    an element.  As an operation of the list, an insertion whose value does not convert
    croaks and still makes the list longer, by a copy of the element at the index or, at the
    end, by whatever the storage holds; and a deletion whose index and count overflow an
    [int] is undefined.  When all insertions convert, every element is a written one. *)
Theorem Repeated_refines_list ops : ∀ arr xs,
  repr arr xs →
  foldl (λ n op, longest op n) (Z.of_nat (length xs)) ops.*1 ≤ INT32_MAX →
  ∃ outs arr' ys, run_ops live ops arr = (outs, arr') ∧ allowed ops xs outs ys ∧ repr arr' ys ∧
    (Forall inserts_convert ops.*1 → Forall is_Some xs → Forall is_Some ys).
Proof.
  induction ops as [|[op mem] ops IH]; intros arr xs Hr Hlen; csimpl in *.
  { eexists _, _, xs. split; [done|]. split_and!; [constructor|done|done]. }
  pose proof (longest_run_ge ops.*1 (longest op (Z.of_nat (length xs)))).
  pose proof (longest_le op (Z.of_nat (length xs))).
  destruct (sim_op op mem arr xs) as (out & arr' & -> & [(c & xs' & Hs & Hr')|(-> & [msg ->] & ->)]);
    [done..|lia| |].
  - destruct (IH arr' xs' Hr') as (outs & arr2 & ys & -> & Ha & Hr2 & Hw).
    { etrans; [|apply Hlen]. apply longest_run_mono. by eapply spec_op_longest. }
    do 3 eexists. split; [done|]. split_and!; [by econstructor|done|].
    intros [Hop Hops]%Forall_cons_1 Hxs. by eapply Hw, spec_op_written.
  - destruct (IH arr xs Hr) as (outs & arr2 & ys & -> & Ha & Hr2 & Hw).
    { etrans; [|apply Hlen]. by apply longest_run_mono. }
    do 3 eexists. split; [done|]. split_and!; [by constructor|done|].
    intros [_ Hops]%Forall_cons_1. by apply Hw.
Qed.
End Repeated.

(** ** A field of [sint32] *)

#[local] Instance sint32_element : Element value := {|
  zero := VInt32 0;
  UpbToSv_Element v := convert_singular_to_sv v point_xs;
  SvToUpb_Elt s :=
    @Convert.SvToUpb_Element digit_num points (λ _, true) s point_xs;
|}.

Definition ints (l : list Z) : upb_Array value :=
  {| cells := Some <$> (VInt32 <$> l); size := length l |}.

Definition vints (l : list Z) : list (option value) := Some <$> (VInt32 <$> l).

Lemma repr_ints l : repr (ints l) (vints l).
Proof. split; [unfold vints; cbn [size ints]; by rewrite !length_fmap|]. exists []. by rewrite app_nil_r. Qed.

(** With an insertion that does not convert. *)
Definition some_calls : list (rop * bool) :=
  [(OAppend (IV 7), true); (OInsert 1 (IV 8), false); (OInsert 1 (PV (str "nope") false), true);
   (ODelete 0 1, true); (OGet 5, true)].

Lemma Repeated_refines_list_witness :
  ∃ outs arr' ys, run_ops live some_calls (ints [1; 2; 3; 4]) = (outs, arr') ∧
    allowed some_calls (vints [1; 2; 3; 4]) outs ys ∧ repr arr' ys ∧
    (Forall inserts_convert some_calls.*1 → Forall is_Some (vints [1; 2; 3; 4]) → Forall is_Some ys).
Proof.
  apply (Repeated_refines_list some_calls (ints [1; 2; 3; 4]) (vints [1; 2; 3; 4])).
  - apply (repr_ints [1; 2; 3; 4]).
  - by_compute.
Defined.

(** An insertion whose value does not convert croaks and still makes the field longer: the
    code that would take the new element out again is never reached. *)
Example failed_insert_grows :
  let '(out, arr) := Repeated_Insert live 1 (PV (str "nope") false) true (ints [1; 2]) in
  out = Croak "Expected an Integer" ∧ size arr = 3%nat ∧
  (λ i, (Repeated_GetItem live i arr).1) <$> [0; 1; 2] = [Ret (IV 1); Ret (IV 2); Ret (IV 2)].
Proof. by vm_compute. Qed.

(** At the end of a fresh field the new element is memory that was never written. *)
Example failed_insert_uninitialised :
  let '(out, arr) := Repeated_Insert live 0 (PV (str "nope") false) true Array_New in
  out = Croak "Expected an Integer" ∧ size arr = 1%nat ∧
  (Repeated_GetItem live 0 arr).1 = Fault "read of uninitialised storage".
Proof. vm_compute. auto. Qed.
