(* ===== verification/HashTable.v ===== *)
(** * The hash table under protobuf maps (vendor/upb/hash/common.c)

    [upb_table]: a chained scatter table with Brent's variation.  Every key has a main
    position; the entries that share one form a list threaded through the table, its
    head in the main position.  The table is refined to a finite map. *)

From S2P Require Import Prelude.

(** [upb_tabent] and [upb_table].  [None]: an entry whose key is the empty key; what
    else it holds is never read.  [next]: the index of the next entry of the chain. *)
Record tabent (K V : Type) := { key : K; val : V; next : option nat }.
Arguments key {_ _} _.
Arguments val {_ _} _.
Arguments next {_ _} _.
Arguments Build_tabent {_ _} _ _ _.

Record upb_table (K V : Type) := {
  entries : list (option (tabent K V));
  count : Z;
  mask : Z;
}.
Arguments entries {_ _} _.
Arguments count {_ _} _.
Arguments mask {_ _} _.
Arguments Build_upb_table {_ _} _ _ _.

Definition set_next {K V} (e : tabent K V) (n : option nat) : tabent K V :=
  {| key := key e; val := val e; next := n |}.

Definition table_size {K V} (t : upb_table K V) : Z := mask t + 1.

(** [_upb_log2_table_size]: the bits of the mask. *)
Definition popcnt32 (z : Z) : nat :=
  length (filter (λ i : nat, Z.testbit z (Z.of_nat i) = true) (seq 0 32)).

Section Table.
Context {K V : Type} `{EqDecision K}.
Variable hashfunc : K → Z.
Implicit Types (t : upb_table K V) (ents : list (option (tabent K V))) (e : tabent K V).

(** [upb_getentry]: the main position of a key. *)
Definition mainpos t (k : K) : nat := Z.to_nat (Z.land (hashfunc k) (mask t)).

(** A load factor of 0.875. *)
Definition isfull t : bool := count t =? table_size t - Z.shiftr (table_size t) 3.

(** [init(t, size_lg2, arena)]; [mem] is the arena's answer. *)
Definition init (size_lg2 : nat) (mem : bool) : option (upb_table K V) :=
  if (32 <=? size_lg2)%nat then None
  else if mem
  then Some {| entries := replicate (2 ^ size_lg2) None; count := 0;
               mask := 2 ^ Z.of_nat size_lg2 - 1 |}
  else None.

(** [emptyent]: the first empty entry after [e], wrapping around. *)
Fixpoint empty_from ents (i n : nat) : option nat :=
  match n with
  | O => None
  | S n => match ents !! i with
           | Some None => Some i
           | _ => empty_from ents (S i) n
           end
  end.

Definition emptyent ents (i : nat) : option nat :=
  match empty_from ents (S i) (length ents - S i) with
  | Some j => Some j
  | None => empty_from ents 0 (length ents)
  end.

(** The loop of [findentry]. *)
Fixpoint chase ents (k : K) (fuel : nat) (i : nat) : outcome (option nat) :=
  match fuel with
  | O => Fault "endless chain"
  | S fuel =>
      match ents !! i with
      | Some (Some e) =>
          if decide (key e = k) then Ret (Some i)
          else match next e with None => Ret None | Some j => chase ents k fuel j end
      | _ => Fault "chain through an empty entry"
      end
  end.

Definition findentry t (k : K) : outcome (option nat) :=
  if count t =? 0 then Ret None
  else match entries t !! mainpos t k with
       | Some None => Ret None
       | _ => chase (entries t) k (length (entries t)) (mainpos t k)
       end.

Definition lookup_table t (k : K) : outcome (option V) :=
  i ← findentry t k;
  match i with
  | None => Ret None
  | Some i => match entries t !! i with
              | Some (Some e) => Ret (Some (val e))
              | _ => Fault "no entry"
              end
  end.

(** [while (chain->next != mainpos_e) chain = chain->next]. *)
Fixpoint find_prev ents (target : nat) (fuel : nat) (i : nat) : outcome (nat * tabent K V) :=
  match fuel with
  | O => Fault "endless chain"
  | S fuel =>
      match ents !! i with
      | Some (Some e) =>
          match next e with
          | None => Fault "end of chain"
          | Some j => if decide (j = target) then Ret (i, e) else find_prev ents target fuel j
          end
      | _ => Fault "chain through an empty entry"
      end
  end.

(** [insert]: the key is not in the table and the table is not full. *)
Definition insert_table t (k : K) (v : V) : outcome (upb_table K V) :=
  let ents := entries t in
  let main := mainpos t k in
  let put ents i nx :=
    Ret {| entries := <[i := Some {| key := k; val := v; next := nx |}]> ents;
           count := count t + 1; mask := mask t |} in
  match ents !! main with
  | None => Fault "entry outside the table"
  | Some None => put ents main None
  | Some (Some m) =>
      match emptyent ents main with
      | None => Fault "no empty entry"
      | Some new =>
          let chain := mainpos t (key m) in
          if decide (chain = main)
          then put (<[main := Some (set_next m (Some new))]> ents) new (next m)
          else
            let ents := <[new := Some m]> ents in
            '(p, ep) ← find_prev ents main (length ents) chain;
            put (<[p := Some (set_next ep (Some new))]> ents) main None
      end
  end.

(** [while (chain->next && !eql(chain->next->key, key)) chain = chain->next]. *)
Fixpoint find_before ents (k : K) (fuel : nat) (i : nat) : outcome (nat * tabent K V) :=
  match fuel with
  | O => Fault "endless chain"
  | S fuel =>
      match ents !! i with
      | Some (Some e) =>
          match next e with
          | None => Ret (i, e)
          | Some j =>
              match ents !! j with
              | Some (Some ej) =>
                  if decide (key ej = k) then Ret (i, e) else find_before ents k fuel j
              | _ => Fault "chain through an empty entry"
              end
          end
      | _ => Fault "chain through an empty entry"
      end
  end.

(** [rm]: the removed value, if the key was there. *)
Definition rm t (k : K) : outcome (option V * upb_table K V) :=
  let ents := entries t in
  let chain := mainpos t k in
  let removed v ents :=
    Ret (Some v, {| entries := ents; count := count t - 1; mask := mask t |}) in
  match ents !! chain with
  | None => Fault "entry outside the table"
  | Some None => Ret (None, t)
  | Some (Some e) =>
      if decide (key e = k) then
        match next e with
        | Some move =>
            match ents !! move with
            | Some (Some em) => removed (val e) (<[move := None]> (<[chain := Some em]> ents))
            | _ => Fault "chain through an empty entry"
            end
        | None => removed (val e) (<[chain := None]> ents)
        end
      else
        '(p, ep) ← find_before ents k (length ents) chain;
        match next ep with
        | None => Ret (None, t)
        | Some r =>
            match ents !! r with
            | Some (Some er) =>
                removed (val er) (<[p := Some (set_next ep (next er))]> (<[r := None]> ents))
            | _ => Fault "chain through an empty entry"
            end
        end
  end.

(** [next]: the next entry in use after index [i], which is -1 at the beginning. *)
Fixpoint next_loop t (fuel : nat) (i : Z) : Z :=
  match fuel with
  | O => SIZE_MAX - 1
  | S fuel =>
      if table_size t <=? i + 1 then SIZE_MAX - 1
      else match entries t !! Z.to_nat (i + 1) with
           | Some (Some _) => i + 1
           | _ => next_loop t fuel (i + 1)
           end
  end.
Definition next_index t (i : Z) : Z := next_loop t (S (length (entries t))) i.

(** [upb_strtable_next2]: the entry and the iterator behind it. *)
Definition next2 t (iter : Z) : option (K * V * Z) :=
  let tab_idx := next_index t iter in
  if tab_idx <? table_size t
  then match entries t !! Z.to_nat tab_idx with
       | Some (Some e) => Some (key e, val e, tab_idx)
       | _ => None
       end
  else None.

(** [upb_strtable_resize]: every entry into a new table. *)
Fixpoint rehash t (fuel : nat) (iter : Z) (new : upb_table K V) : outcome (upb_table K V) :=
  match fuel with
  | O => Ret new
  | S fuel =>
      match next2 t iter with
      | None => Ret new
      | Some (k, v, iter) => new ← insert_table new k v; rehash t fuel iter new
      end
  end.

Definition resize t (size_lg2 : nat) (mem : bool) : outcome (option (upb_table K V)) :=
  match init size_lg2 mem with
  | None => Ret None
  | Some new => Some <$> rehash t (S (length (entries t))) (-1) new
  end.

(** [upb_strtable_insert] and the hash part of [upb_inttable_insert]: the table grows
    when it is full.  [mem]: the arena's answer for the new table; [copied]: whether
    the key could be copied (always, in an integer table). *)
Definition table_insert t (k : K) (v : V) (mem copied : bool) : outcome (bool * upb_table K V) :=
  grown ← (if isfull t then resize t (popcnt32 (mask t) + 1) mem else Ret (Some t));
  match grown with
  | None => Ret (false, t)
  | Some t => if copied then pair true <$> insert_table t k v else Ret (false, t)
  end.

(** [upb_strtable_clear]. *)
Definition table_clear t : upb_table K V :=
  {| entries := replicate (length (entries t)) None; count := 0; mask := mask t |}.

(** ** Chains

    The entries in use, by index. *)
Abbreviation view := (nat → option (tabent K V)).
Definition use ents : view := λ i, mjoin (ents !! i).

Definition hd_or (l : list nat) (x : option nat) : option nat :=
  match l with [] => x | j :: _ => Some j end.

(** [l] are consecutive entries of a chain, the last one pointing to [x]. *)
Fixpoint seg (E : view) (l : list nat) (x : option nat) : Prop :=
  match l with
  | [] => True
  | i :: l => (∃ e, E i = Some e ∧ next e = hd_or l x) ∧ seg E l x
  end.

(** [l] is the chain of main position [h]: it starts there, ends, and holds exactly
    the entries whose keys have that position. *)
Definition chain_of (pos : K → nat) (E : view) (h : nat) (l : list nat) : Prop :=
  seg E l None ∧ (l = [] ∨ hd_or l None = Some h) ∧
  ∀ i, i ∈ l ↔ ∃ e, E i = Some e ∧ pos (key e) = h.

Definition chained (pos : K → nat) (E : view) : Prop := ∀ h, ∃ l, chain_of pos E h l.

Implicit Types E : view.

Lemma seg_app E l1 l2 x : seg E (l1 ++ l2) x ↔ seg E l1 (hd_or l2 x) ∧ seg E l2 x.
Proof.
  induction l1 as [|i l1 IH]; simpl; [naive_solver|]. rewrite IH.
  assert (hd_or (l1 ++ l2) x = hd_or l1 (hd_or l2 x)) as -> by (by destruct l1). naive_solver.
Qed.

Lemma seg_frame E E' l x : seg E l x → (∀ i, i ∈ l → E' i = E i) → seg E' l x.
Proof.
  induction l as [|i l IH]; simpl; [done|]. intros [(e & He & Hn) Hs] Hf. split.
  - exists e. by rewrite Hf by set_solver.
  - apply IH; [done|]. set_solver.
Qed.

Lemma seg_det E : ∀ l1 l2, seg E l1 None → seg E l2 None →
  hd_or l1 None = hd_or l2 None → l1 = l2.
Proof.
  induction l1 as [|i l1 IH]; intros [|j l2]; simpl; try done.
  intros [(e & He & Hn) H1] [(e' & He' & Hn') H2] [= <-]. simplify_eq. f_equal. apply IH; congruence.
Qed.

Lemma seg_NoDup E l : seg E l None → NoDup l.
Proof.
  induction l as [|i l IH]; [constructor|]. intros Hs. constructor; [|by apply IH; destruct Hs].
  intros (l1 & l2 & ->)%list_elem_of_split.
  assert (i :: l1 ++ i :: l2 = i :: l2) as Eq.
  { apply (seg_det E); [done| |done]. change (i :: l1 ++ i :: l2) with ((i :: l1) ++ i :: l2) in Hs.
    by apply seg_app in Hs as [_ ?]. }
  apply (f_equal length) in Eq. simpl in Eq. rewrite length_app in Eq. simpl in Eq. lia.
Qed.

Lemma seg_in_use E l x i : seg E l x → i ∈ l → ∃ e, E i = Some e.
Proof.
  induction l as [|j l IH]; [by intros ? ?%not_elem_of_nil|]. simpl.
  intros [(e & He & _) Hs] [->|Hi]%elem_of_cons; eauto.
Qed.

(** Changing one chain is enough. *)
Lemma chained_change pos E E' h0 :
  chained pos E →
  (∀ i, E' i = E i ∨
        ((∀ e, E i = Some e → pos (key e) = h0) ∧ (∀ e, E' i = Some e → pos (key e) = h0))) →
  (∀ l, chain_of pos E h0 l → ∃ l', chain_of pos E' h0 l') →
  chained pos E'.
Proof.
  intros Hc Hf H0 h. destruct (Hc h) as [l Hl].
  destruct (decide (h = h0)) as [->|Hne]; [by eapply H0|].
  destruct Hl as (Hs & Hh & Hi). exists l. split_and!; [|done|].
  - eapply seg_frame; [done|]. intros i Hil. destruct (Hf i) as [|[Ho _]]; [done|].
    apply Hi in Hil as (e & He & <-). by destruct Hne; apply Ho.
  - intros i. rewrite Hi. destruct (Hf i) as [->|[Ho Hn]]; [done|]. naive_solver.
Qed.

(** *** The ways the operations change a chain *)

(** A chain and its entry [i], split there. *)
Lemma chain_split pos E h l i e :
  chain_of pos E h l → E i = Some e → pos (key e) = h →
  ∃ l1 l2, l = l1 ++ i :: l2 ∧ seg E l1 (Some i) ∧ next e = hd_or l2 None ∧ seg E l2 None ∧
    ∀ j, j ∈ l1 ++ l2 → j ≠ i ∧ ∃ ej, E j = Some ej ∧ pos (key ej) = h.
Proof.
  intros (Hs & _ & Hi) He Hp. assert (i ∈ l) as Hil by naive_solver.
  apply list_elem_of_split in Hil as (l1 & l2 & ->). exists l1, l2.
  pose proof (seg_NoDup _ _ Hs) as (_ & Hd & Hd')%NoDup_app.
  apply seg_app in Hs as [Hs1 [(e' & He' & Hn) Hs2]]. simplify_eq.
  apply NoDup_cons in Hd' as [? _]. split_and!; [done..|].
  intros j Hj. split; [set_solver|]. apply Hi. set_solver.
Qed.

Lemma chain_start pos E h e : chained pos E → E h = None →
  (∀ i e, E i = Some e → pos (key e) ≠ h) → pos (key e) = h → next e = None →
  ∀ E', (∀ i, E' i = if decide (i = h) then Some e else E i) → chained pos E'.
Proof.
  intros Hc Hh Hno Hp Hn E' HE'. apply (chained_change pos E E' h); [done| |].
  - intros i. rewrite HE'. destruct (decide (i = h)) as [->|]; [right|by left]. naive_solver.
  - intros _ _. exists [h]. split_and!; simpl.
    + split; [|done]. exists e. by rewrite HE', decide_True.
    + by right.
    + intros i. rewrite list_elem_of_singleton, HE'. case_decide; naive_solver.
Qed.

Lemma chain_append pos E p ep n e : chained pos E → E p = Some ep → E n = None →
  pos (key e) = pos (key ep) → next e = next ep →
  ∀ E', (∀ i, E' i = if decide (i = n) then Some e
                     else if decide (i = p) then Some (set_next ep (Some n)) else E i) →
  chained pos E'.
Proof.
  intros Hc Hp Hn Hpos Hnext E' HE'. assert (n ≠ p) by congruence.
  apply (chained_change pos E E' (pos (key ep))); [done| |].
  - intros i. rewrite HE'. repeat case_decide; subst; [right|right|by left]; naive_solver.
  - intros l Hl. destruct (chain_split _ _ _ _ _ _ Hl Hp eq_refl)
      as (l1 & l2 & -> & Hs1 & Hnp & Hs2 & Ho).
    assert (∀ i, i ∈ l1 ++ l2 → E' i = E i) as Hf.
    { intros i (? & ei & ? & ?)%Ho. rewrite HE', !decide_False; [done|congruence..]. }
    exists (l1 ++ p :: n :: l2). destruct Hl as (_ & Hh & Hi). split_and!.
    + apply seg_app. split; [eapply seg_frame; [done|set_solver]|]. simpl. split_and!.
      * exists (set_next ep (Some n)). by rewrite HE', decide_False, decide_True.
      * exists e. rewrite HE', decide_True by done. by rewrite <- Hnp.
      * eapply seg_frame; [done|set_solver].
    + right. destruct Hh as [?|Hh]; [by destruct l1|]. by destruct l1.
    + intros i. specialize (Hi i). rewrite elem_of_app, !elem_of_cons in *. rewrite HE'.
      repeat case_decide; subst; naive_solver.
Qed.

(** The entry [m] at [i], not a head, moves to the empty [n]; its predecessor follows. *)
Lemma chain_move pos E p ep i m n : chained pos E → E p = Some ep → next ep = Some i →
  E i = Some m → E n = None → pos (key ep) = pos (key m) → p ≠ i →
  ∀ E', (∀ j, E' j = if decide (j = i) then None else if decide (j = n) then Some m
                     else if decide (j = p) then Some (set_next ep (Some n)) else E j) →
  chained pos E'.
Proof.
  intros Hc Hp Hnp Hm Hn Hpos Hpi E' HE'. assert (n ≠ p) by congruence. assert (n ≠ i) by congruence.
  apply (chained_change pos E E' (pos (key m))); [done| |].
  - intros j. rewrite HE'. repeat case_decide; subst; [right|right|right|by left]; naive_solver.
  - intros l Hl. destruct (chain_split _ _ _ _ _ _ Hl Hp Hpos)
      as (l1 & l2 & -> & Hs1 & Hnp' & Hs2 & Ho).
    rewrite Hnp in Hnp'. destruct l2 as [|i' l2]; [done|]. simpl in Hnp'. injection Hnp' as <-.
    destruct Hs2 as [(m' & Hm' & Hnm) Hs2]. simplify_eq.
    pose proof (seg_NoDup _ _ (proj1 Hl)) as Hd.
    assert (∀ j, j ∈ l1 ++ l2 → E' j = E j) as Hf.
    { intros j Hj. destruct (Ho j) as (? & ej & ? & ?); [set_solver|].
      rewrite HE', !decide_False; [done|congruence..|]. intros ->.
      apply NoDup_app in Hd as (_ & Hd & [_ [? _]%NoDup_cons]%NoDup_cons). set_solver. }
    exists (l1 ++ p :: n :: l2). destruct Hl as (_ & Hh & Hi). split_and!.
    + apply seg_app. split; [eapply seg_frame; [done|set_solver]|]. simpl. split_and!.
      * exists (set_next ep (Some n)). rewrite HE', decide_False, decide_False, decide_True by congruence. done.
      * exists m. rewrite HE', decide_False, decide_True by done. by rewrite <- Hnm.
      * eapply seg_frame; [done|set_solver].
    + right. destruct Hh as [?|Hh]; [by destruct l1|]. by destruct l1.
    + intros j. specialize (Hi j). rewrite elem_of_app, !elem_of_cons in *. rewrite HE'.
      case_decide; [subst j|case_decide; [subst j|case_decide; [subst j|]]].
      * split; [|by intros (? & [=] & _)]. intros [?|[?|[?|?]]]; [|congruence..|];
          apply NoDup_app in Hd as (_ & Hd & [_ [? _]%NoDup_cons]%NoDup_cons); set_solver.
      * split; [by eauto|auto].
      * split; [by eauto|auto].
      * rewrite <- Hi. tauto.
Qed.

(** The entry [r] behind [p] leaves its chain. *)
Lemma chain_unlink pos E p ep r er : chained pos E → E p = Some ep → next ep = Some r →
  E r = Some er → pos (key ep) = pos (key er) →
  ∀ E', (∀ j, E' j = if decide (j = p) then Some (set_next ep (next er))
                     else if decide (j = r) then None else E j) →
  chained pos E'.
Proof.
  intros Hc Hp Hnp Hr Hpos E' HE'.
  apply (chained_change pos E E' (pos (key er))); [done| |].
  - intros j. rewrite HE'. repeat case_decide; subst; [right|right|by left]; naive_solver.
  - intros l Hl. destruct (chain_split _ _ _ _ _ _ Hl Hp Hpos)
      as (l1 & l2 & -> & Hs1 & Hnp' & Hs2 & Ho).
    rewrite Hnp in Hnp'. destruct l2 as [|r' l2]; [done|]. simpl in Hnp'. injection Hnp' as <-.
    destruct Hs2 as [(m' & Hm' & Hnm) Hs2]. simplify_eq.
    pose proof (seg_NoDup _ _ (proj1 Hl)) as Hd.
    assert (r ∉ l1 ++ p :: l2) as Hrl.
    { apply NoDup_app in Hd as (_ & Hd & [? [? _]%NoDup_cons]%NoDup_cons). set_solver. }
    assert (∀ j, j ∈ l1 ++ l2 → E' j = E j) as Hf.
    { intros j Hj. destruct (Ho j) as (? & ej & ? & ?); [set_solver|].
      rewrite HE', !decide_False; [done|set_solver..]. }
    exists (l1 ++ p :: l2). destruct Hl as (_ & Hh & Hi). split_and!.
    + apply seg_app. split; [eapply seg_frame; [done|set_solver]|]. simpl. split.
      * exists (set_next ep (next er)). by rewrite HE', decide_True.
      * eapply seg_frame; [done|set_solver].
    + right. destruct Hh as [?|Hh]; [by destruct l1|]. by destruct l1.
    + intros j. specialize (Hi j). rewrite elem_of_app, !elem_of_cons in *. rewrite HE'.
      case_decide; [subst j|case_decide; [subst j|]].
      * split; [by eauto|auto].
      * split; [|by intros (? & [=] & _)]. intros Hj. destruct Hrl. set_solver.
      * rewrite <- Hi. tauto.
Qed.

(** The head of a chain leaves it: the next entry moves in, if there is one. *)
Lemma chain_behead pos E h e : chained pos E → E h = Some e → pos (key e) = h →
  ∀ E', match next e with
        | None => ∀ j, E' j = if decide (j = h) then None else E j
        | Some m => ∃ em, E m = Some em ∧
            ∀ j, E' j = if decide (j = m) then None else if decide (j = h) then Some em else E j
        end → chained pos E'.
Proof.
  intros Hc Hh Hp E' HE'. destruct (Hc h) as [l0 Hl0].
  destruct (chain_split _ _ _ _ _ _ Hl0 Hh Hp) as (l1 & l2 & El & Hs1 & Hn & Hs2 & Ho).
  assert (l1 = []) as ->.
  { destruct Hl0 as (Hs & [->|Hd] & _); [by destruct l1|]. subst l0. destruct l1 as [|x l1]; [done|].
    simpl in Hd. injection Hd as ->. destruct (Ho h) as [? _]; [set_solver|done]. }
  simpl in El, Ho. subst l0. rewrite Hn in HE'.
  assert (pos (key e) = h) as Hpe by done.
  destruct l2 as [|m l2]; simpl in HE'.
  - apply (chained_change pos E E' h); [done| |].
    + intros j. rewrite HE'. case_decide; subst; [right|by left]. naive_solver.
    + intros _ _. exists []. split_and!; [done|by left|]. destruct Hl0 as (_ & _ & Hi).
      intros j. specialize (Hi j). rewrite list_elem_of_singleton in Hi. rewrite HE'.
      split; [by intros ?%not_elem_of_nil|]. case_decide; naive_solver.
  - destruct HE' as (em & Hm & HE'). destruct (Ho m) as (Hmh & em' & Hm' & Hpm); [set_solver|].
    simplify_eq. pose proof (seg_NoDup _ _ Hs2) as [Hml _]%NoDup_cons.
    destruct Hs2 as [(em' & Hm' & Hnm) Hs2]. simplify_eq.
    apply (chained_change pos E E' (pos (key e))); [done| |].
    + intros j. rewrite HE'. repeat case_decide; subst; [right|right|by left]; naive_solver.
    + intros _ _. exists (pos (key e) :: l2). destruct Hl0 as (_ & _ & Hi). split_and!; simpl.
      * split; [exists em; by rewrite HE', decide_False, decide_True|].
        eapply seg_frame; [done|]. intros j Hj. destruct (Ho j) as (? & _); [set_solver|].
        rewrite HE', !decide_False; [done|done|congruence].
      * by right.
      * intros j. specialize (Hi j). rewrite !elem_of_cons in *. rewrite HE'.
        case_decide; [subst j|case_decide; [subst j|]].
        -- split; [|by intros (? & [=] & _)]. by intros [?|?].
        -- split; [by eauto|auto].
        -- rewrite <- Hi. tauto.
Qed.

(** ** Contents and well-formedness *)

Definition kv e : K * V := (key e, val e).
Definition contents t : list (K * V) := omap (fmap kv) (entries t).

Record wf t : Prop := {
  wf_size : ∃ lg : nat, (lg < 32)%nat ∧ mask t = 2 ^ Z.of_nat lg - 1 ∧
                        length (entries t) = (2 ^ lg)%nat;
  wf_count : count t = Z.of_nat (length (contents t));
  wf_load : count t ≤ table_size t - Z.shiftr (table_size t) 3;
  wf_chained : chained (mainpos t) (use (entries t));
  wf_keys : NoDup (contents t).*1;
}.

Lemma use_Some ents i e : use ents i = Some e ↔ ents !! i = Some (Some e).
Proof. unfold use. destruct (ents !! i) as [[]|]; simpl; naive_solver. Qed.
Lemma use_None ents i : ents !! i = Some None → use ents i = None.
Proof. unfold use. by intros ->. Qed.

Lemma use_insert ents i x : (i < length ents)%nat →
  ∀ j, use (<[i := x]> ents) j = if decide (j = i) then x else use ents j.
Proof.
  intros Hi j. unfold use. rewrite list_lookup_insert.
  destruct (decide (j = i)) as [->|]; case_decide; naive_solver.
Qed.

Lemma omap_insert ents i x y : ents !! i = Some y →
  omap (fmap kv) [y] ++ omap (fmap kv) (<[i := x]> ents) ≡ₚ
  omap (fmap kv) [x] ++ omap (fmap kv) ents.
Proof.
  intros Hy. rewrite insert_take_drop by (by eapply lookup_lt_Some).
  rewrite <- (take_drop_middle _ _ _ Hy) at 3. rewrite !omap_app.
  change (x :: drop (S i) ents) with ([x] ++ drop (S i) ents).
  change (y :: drop (S i) ents) with ([y] ++ drop (S i) ents). rewrite !omap_app.
  set (a := omap _ (take i ents)). set (b := omap _ (drop _ ents)).
  set (u := omap _ [y]). set (w := omap _ [x]). rewrite !(Permutation_app_comm a).
  rewrite !(Permutation_app_comm _ b), !app_assoc, (Permutation_app_comm u), <- !app_assoc.
  rewrite !(Permutation_app_comm b). solve_Permutation.
Qed.

Lemma omap_fill ents i e : ents !! i = Some None →
  omap (fmap kv) (<[i := Some e]> ents) ≡ₚ kv e :: omap (fmap kv) ents.
Proof. intros Hi. by apply (omap_insert ents i (Some e)) in Hi. Qed.
Lemma omap_clear ents i e : ents !! i = Some (Some e) →
  kv e :: omap (fmap kv) (<[i := None]> ents) ≡ₚ omap (fmap kv) ents.
Proof. intros Hi. by apply (omap_insert ents i None) in Hi. Qed.
Lemma omap_relink ents i e e' : ents !! i = Some (Some e) → kv e' = kv e →
  omap (fmap kv) (<[i := Some e']> ents) ≡ₚ omap (fmap kv) ents.
Proof.
  intros Hi Hk. apply (omap_insert ents i (Some e')) in Hi. csimpl in Hi. rewrite Hk in Hi.
  by apply Permutation_cons_inv in Hi.
Qed.

Lemma omap_replace ents i e e' : ents !! i = Some (Some e) →
  kv e :: omap (fmap kv) (<[i := Some e']> ents) ≡ₚ kv e' :: omap (fmap kv) ents.
Proof. intros Hi. by apply (omap_insert ents i (Some e')) in Hi. Qed.

Lemma in_contents t k v :
  (k, v) ∈ contents t ↔ ∃ i e, use (entries t) i = Some e ∧ key e = k ∧ val e = v.
Proof.
  unfold contents. rewrite list_elem_of_omap. split.
  - intros ([e|] & (i & Hi)%list_elem_of_lookup_1 & Hk); [injection Hk as <- <-|done].
    exists i, e. by rewrite use_Some.
  - intros (i & e & He%use_Some & <- & <-). exists (Some e). split; [|done].
    by eapply list_elem_of_lookup_2.
Qed.

Lemma in_keys t k : k ∈ (contents t).*1 ↔ ∃ i e, use (entries t) i = Some e ∧ key e = k.
Proof.
  rewrite list_elem_of_fmap. split.
  - intros ([k' v] & -> & (i & e & ? & ? & ?)%in_contents). eauto.
  - intros (i & e & He & <-). exists (kv e). split; [done|]. apply in_contents. eauto.
Qed.

Lemma mainpos_lt t k : wf t → (mainpos t k < length (entries t))%nat.
Proof.
  intros [(lg & _ & Hm & ->) _ _ _ _]. unfold mainpos.
  change (2 ^ Z.of_nat lg - 1) with (Z.pred (2 ^ Z.of_nat lg)) in Hm.
  rewrite Hm, <- Z.ones_equiv, Z.land_ones by lia.
  pose proof (Z.mod_pos_bound (hashfunc k) (2 ^ Z.of_nat lg)).
  assert (Z.of_nat (2 ^ lg) = 2 ^ Z.of_nat lg) by (by rewrite Nat2Z.inj_pow). lia.
Qed.

Lemma table_size_length t : wf t → table_size t = Z.of_nat (length (entries t)).
Proof.
  intros [(lg & _ & Hm & ->) _ _ _ _]. unfold table_size. rewrite Hm, Nat2Z.inj_pow. lia.
Qed.

(** Where a table is not full some entry is empty. *)
Lemma empty_entry ents : (length (omap (fmap kv) ents) < length ents)%nat →
  ∃ i, ents !! i = Some None.
Proof.
  induction ents as [|[e|] ents IH]; csimpl; [lia| |].
  - intros Hlt. destruct IH as [i Hi]; [lia|]. by exists (S i).
  - intros _. by exists 0%nat.
Qed.

Lemma empty_from_Some ents n : ∀ i j, empty_from ents i n = Some j → ents !! j = Some None.
Proof.
  induction n as [|n IH]; intros i j; simpl; [done|].
  destruct (ents !! i) as [[e|]|] eqn:Ei; [apply IH| |apply IH]. by intros [= <-].
Qed.
Lemma empty_from_found ents n : ∀ i j, (i ≤ j < i + n)%nat → ents !! j = Some None →
  is_Some (empty_from ents i n).
Proof.
  induction n as [|n IH]; intros i j Hij Hj; simpl; [lia|].
  destruct (decide (i = j)) as [->|]; [rewrite Hj; eauto|].
  destruct (ents !! i) as [[e|]|]; [| |]; try (apply (IH (S i) j); [lia|done]). eauto.
Qed.

Lemma emptyent_spec ents i : (length (omap (fmap kv) ents) < length ents)%nat →
  ∃ n, emptyent ents i = Some n ∧ ents !! n = Some None.
Proof.
  intros (j & Hj)%empty_entry. unfold emptyent.
  destruct (empty_from ents (S i) _) as [n|] eqn:E; [eauto using empty_from_Some|].
  destruct (empty_from_found ents (length ents) 0 j) as [n Hn]; [|done|].
  - apply lookup_lt_Some in Hj. lia.
  - rewrite Hn. eauto using empty_from_Some.
Qed.

(** *** The walks along a chain *)

(** A chain is no longer than the table. *)
Lemma seg_length ents l : seg (use ents) l None → (length l ≤ length ents)%nat.
Proof.
  intros Hs. rewrite <- (length_seq (length ents) 0). apply submseteq_length, NoDup_submseteq.
  - by eapply seg_NoDup.
  - intros i Hi. destruct (seg_in_use _ _ _ _ Hs Hi) as [e He%use_Some].
    apply lookup_lt_Some in He. apply elem_of_seq. lia.
Qed.

Lemma chase_spec ents k : ∀ l i fuel, seg (use ents) (i :: l) None → (length l < fuel)%nat →
  ∃ r, chase ents k fuel i = Ret r ∧
    match r with
    | Some j => ∃ e, use ents j = Some e ∧ key e = k
    | None => ∀ j e, j ∈ i :: l → use ents j = Some e → key e ≠ k
    end.
Proof.
  induction l as [|i' l IH]; intros i [|fuel] Hs Hlen; simpl in Hlen; try lia; simpl;
    destruct Hs as [(e & He & Hn) Hs]; pose proof He as He'%use_Some; rewrite He';
    (case_decide; [exists (Some i); eauto|]); simpl in Hn; rewrite Hn.
  - exists None. split; [done|]. intros j e' ->%list_elem_of_singleton. congruence.
  - destruct (IH i' fuel Hs) as (r & -> & Hr); [lia|]. exists r. split; [done|].
    destruct r; [done|]. intros j e' [->|Hj]%elem_of_cons; [congruence|]. by apply Hr.
Qed.

Lemma find_prev_spec ents target : ∀ l i fuel, seg (use ents) (i :: l) None →
  (length l < fuel)%nat → target ∈ l →
  ∃ p ep, find_prev ents target fuel i = Ret (p, ep) ∧ use ents p = Some ep ∧
    next ep = Some target ∧ p ∈ i :: l.
Proof.
  induction l as [|i' l IH]; intros i fuel Hs Hlen Ht; [by apply not_elem_of_nil in Ht|].
  destruct fuel as [|fuel]; simpl in Hlen; [lia|]. simpl.
  destruct Hs as [(e & He & Hn) Hs]. pose proof He as He'%use_Some. rewrite He'.
  simpl in Hn. rewrite Hn. case_decide as Ei.
  - subst i'. exists i, e. split_and!; [done..|set_solver].
  - destruct (IH i' fuel Hs) as (p & ep & -> & ? & ? & Hp); [lia|set_solver|].
    exists p, ep. split_and!; [done..|set_solver].
Qed.

Lemma find_before_spec ents k : ∀ l i fuel, seg (use ents) (i :: l) None →
  (length l < fuel)%nat →
  ∃ p ep, find_before ents k fuel i = Ret (p, ep) ∧ use ents p = Some ep ∧ p ∈ i :: l ∧
    match next ep with
    | Some r => ∃ er, use ents r = Some er ∧ key er = k ∧ r ∈ l
    | None => ∀ j e, j ∈ l → use ents j = Some e → key e ≠ k
    end.
Proof.
  induction l as [|i' l IH]; intros i fuel Hs Hlen; (destruct fuel as [|fuel]; simpl in Hlen; [lia|]);
    simpl; destruct Hs as [(e & He & Hn) Hs]; pose proof He as He'%use_Some; rewrite He';
    simpl in Hn; rewrite Hn.
  - exists i, e. rewrite Hn. split_and!; [done..|set_solver|]. by intros j e' ?%not_elem_of_nil.
  - destruct Hs as [(e' & Hi' & Hn') Hs]. pose proof Hi' as Hi''%use_Some. rewrite Hi''.
    case_decide as Ek.
    + exists i, e. rewrite Hn. split_and!; [done..|set_solver|]. exists e'. split_and!; [done..|set_solver].
    + destruct (IH i' fuel) as (p & ep & -> & Hp & Hpl & Hm); [split; eauto|lia|].
      exists p, ep. split_and!; [done..|set_solver|]. destruct (next ep).
      * destruct Hm as (er & ? & ? & ?). exists er. split_and!; [done..|set_solver].
      * intros j e'' [->|Hj]%elem_of_cons; [congruence|by apply Hm].
Qed.

(** ** Each operation *)

Lemma use_lt ents i e : use ents i = Some e → (i < length ents)%nat.
Proof. intros He%use_Some. by eapply lookup_lt_Some. Qed.

(** Where a key has main position [h], the entry there has it too. *)
Lemma head_in_use pos E h j ej : chained pos E → E j = Some ej → pos (key ej) = h →
  ∃ e l, E h = Some e ∧ pos (key e) = h ∧ chain_of pos E h (h :: l) ∧ j ∈ h :: l.
Proof.
  intros Hc Hj Hp. destruct (Hc h) as [l Hl]. pose proof Hl as (Hs & Hh & Hi).
  assert (j ∈ l) as Hjl by (apply Hi; eauto).
  destruct Hh as [->|Hh]; [by apply not_elem_of_nil in Hjl|].
  destruct l as [|i l]; [done|]. injection Hh as ->.
  destruct (proj1 (Hi h)) as (e & He & Hpe); [set_solver|]. eauto 10.
Qed.

(** The entry behind an entry is another one of its chain. *)
Lemma next_in_chain pos E i e m : chained pos E → E i = Some e → next e = Some m →
  m ≠ i ∧ ∃ em, E m = Some em ∧ pos (key em) = pos (key e).
Proof.
  intros Hc He Hn. destruct (Hc (pos (key e))) as [l Hl].
  destruct (chain_split _ _ _ _ _ _ Hl He eq_refl) as (l1 & l2 & _ & _ & Hn2 & _ & Ho).
  rewrite Hn in Hn2. destruct l2 as [|m' l2]; [done|]. injection Hn2 as <-. apply Ho. set_solver.
Qed.

(** A walk from a main position runs along one chain: its own, or the rest of the
    chain of a guest, and then nothing in the table has this position. *)
Lemma walk_from pos E i e : chained pos E → E i = Some e →
  ∃ l, seg E (i :: l) None ∧
    (∀ j, j ∈ i :: l → ∃ ej, E j = Some ej ∧ pos (key ej) = pos (key e)) ∧
    (∀ j ej, E j = Some ej → pos (key ej) = i → j ∈ i :: l ∧ pos (key e) = i).
Proof.
  intros Hc He. destruct (Hc (pos (key e))) as [lc Hl].
  destruct (chain_split _ _ _ _ _ _ Hl He eq_refl) as (l1 & l & -> & Hs1 & Hn & Hs & Ho).
  exists l. split_and!.
  - split; [|done]. by exists e.
  - intros j [->|Hj]%elem_of_cons; [by exists e|]. apply Ho. set_solver.
  - intros j ej Hj Hp. destruct (head_in_use _ _ _ _ _ Hc Hj Hp) as (e' & li & He' & Hpe & Hli & Hjl).
    assert (e' = e) as -> by congruence. split; [|done].
    rewrite <- (seg_det E (i :: li) (i :: l)); [done|by apply Hli| |done].
    split; [by exists e|done].
Qed.

Lemma findentry_spec t k : wf t →
  ∃ r, findentry t k = Ret r ∧
    match r with
    | Some i => ∃ e, use (entries t) i = Some e ∧ key e = k
    | None => k ∉ (contents t).*1
    end.
Proof.
  intros Hwf. unfold findentry. pose proof (mainpos_lt t k Hwf) as Hlt.
  destruct (Z.eqb_spec (count t) 0) as [Hc|_].
  { exists None. split; [done|]. rewrite (wf_count t Hwf) in Hc.
    destruct (contents t); [apply not_elem_of_nil|simpl in Hc; lia]. }
  pose proof (wf_chained t Hwf) as Hch.
  destruct (lookup_lt_is_Some_2 _ _ Hlt) as [[e|] He]; rewrite He.
  - apply use_Some in He. destruct (walk_from _ _ _ _ Hch He) as (l & Hs & _ & Hall).
    destruct (chase_spec (entries t) k l (mainpos t k) (length (entries t)) Hs) as (r & -> & Hr).
    { apply seg_length in Hs. simpl in Hs. lia. }
    exists r. split; [done|]. destruct r as [i|]; [done|].
    intros (j & ej & Hj & Hk)%in_keys. destruct (Hall j ej Hj) as [Hjl _]; [by rewrite Hk|].
    by eapply Hr.
  - exists None. split; [done|]. intros (j & ej & Hj & <-)%in_keys.
    destruct (head_in_use _ _ _ _ _ Hch Hj eq_refl) as (e & _ & He'%use_Some & _). congruence.
Qed.

Lemma wf_update t ents c kvs : wf t → length ents = length (entries t) →
  omap (fmap kv) ents ≡ₚ kvs → NoDup kvs.*1 → c = Z.of_nat (length kvs) →
  c ≤ table_size t - Z.shiftr (table_size t) 3 → chained (mainpos t) (use ents) →
  wf {| entries := ents; count := c; mask := mask t |}.
Proof.
  intros Hwf Hlen Hkv Hnd -> Hload Hch. split; simpl; try done.
  - destruct (wf_size t Hwf) as (lg & ? & ? & ?). exists lg. by rewrite Hlen.
  - unfold contents. simpl. by rewrite Hkv.
  - unfold contents. simpl. by rewrite Hkv.
Qed.

(** Writing entries back: what remains to show is what they hold and their chains. *)
Lemma wf_inserted t ents k v : wf t → count t ≠ table_size t - Z.shiftr (table_size t) 3 → k ∉ (contents t).*1 →
  length ents = length (entries t) → omap (fmap kv) ents ≡ₚ (k, v) :: contents t → chained (mainpos t) (use ents) →
  let t' := {| entries := ents; count := count t + 1; mask := mask t |} in
  wf t' ∧ contents t' ≡ₚ (k, v) :: contents t ∧ mask t' = mask t.
Proof.
  intros Hwf Hfull Hk Hlen Hkv Hc. pose proof (wf_load t Hwf). pose proof (wf_count t Hwf). split; [|done].
  eapply wf_update; [done..| | |lia|done].
  - csimpl. constructor; [done|]. by apply wf_keys.
  - simpl. lia.
Qed.

Lemma wf_removed t ents k v : wf t → length ents = length (entries t) →
  (k, v) :: omap (fmap kv) ents ≡ₚ contents t → chained (mainpos t) (use ents) →
  let t' := {| entries := ents; count := count t - 1; mask := mask t |} in
  wf t' ∧ contents t ≡ₚ (k, v) :: contents t'.
Proof.
  intros Hwf Hlen Hkv Hc. split; [|by rewrite <- Hkv]. pose proof (wf_load t Hwf). pose proof (wf_count t Hwf).
  pose proof (wf_keys t Hwf) as Hnd. rewrite <- Hkv in Hnd. csimpl in Hnd.
  apply NoDup_cons in Hnd as [_ Hnd]. apply Permutation_length in Hkv as Hl. simpl in Hl.
  eapply wf_update; [done|done|reflexivity|done| |lia|done]. lia.
Qed.

(** The new key takes a free main position. *)
Lemma fill_main t k v : wf t → entries t !! mainpos t k = Some None →
  let e := {| key := k; val := v; next := None |} in
  chained (mainpos t) (use (<[mainpos t k := Some e]> (entries t))).
Proof.
  intros Hwf Hm e. pose proof (wf_chained t Hwf) as Hch. pose proof (mainpos_lt t k Hwf).
  apply (chain_start (mainpos t) (use (entries t)) (mainpos t k) e); [done|by apply use_None| |done..|by apply use_insert].
  intros i ei Hi Hp. destruct (head_in_use _ _ _ _ _ Hch Hi Hp) as (e' & _ & He'%use_Some & _). congruence.
Qed.

(** The entry in its place belongs to another chain: it moves to [n], and its
    predecessor [p] follows it there. *)
Lemma displaced t k v m n p ep : wf t → entries t !! mainpos t k = Some (Some m) → entries t !! n = Some None →
  use (entries t) p = Some ep → next ep = Some (mainpos t k) → mainpos t (key ep) = mainpos t (key m) →
  mainpos t (key m) ≠ mainpos t k → p ≠ n → p ≠ mainpos t k →
  let e := {| key := k; val := v; next := None |} in
  let ents := <[mainpos t k := Some e]> (<[p := Some (set_next ep (Some n))]> (<[n := Some m]> (entries t))) in
  omap (fmap kv) ents ≡ₚ (k, v) :: contents t ∧ chained (mainpos t) (use ents).
Proof.
  intros Hwf Hm Hn Hp Hpn Hpp Emain Hpnn Hpk e ents. pose proof (wf_chained t Hwf) as Hch.
  pose proof (mainpos_lt t k Hwf) as Hlt. pose proof Hm as Hm'%use_Some. pose proof (use_None _ _ Hn) as Hn'.
  pose proof (lookup_lt_Some _ _ _ Hn) as Hnlt. pose proof (use_lt _ _ _ Hp) as Hplt.
  assert (n ≠ mainpos t k) as Hne by congruence. split.
  - assert (omap (fmap kv) (<[p := Some (set_next ep (Some n))]> (<[n := Some m]> (entries t)))
            ≡ₚ kv m :: contents t) as Hin.
    { rewrite (omap_relink _ p ep); [by apply omap_fill| |done].
      rewrite list_lookup_insert_ne by done. by apply use_Some. }
    apply (Permutation_cons_inv (a := kv m)). rewrite perm_swap, <- Hin.
    apply (omap_replace _ _ m e). by rewrite !list_lookup_insert_ne by done.
  - set (E1 j := if decide (j = mainpos t k) then None else if decide (j = n) then Some m
                 else if decide (j = p) then Some (set_next ep (Some n)) else use (entries t) j).
    assert (chained (mainpos t) E1) as Hc1.
    { by apply (chain_move (mainpos t) (use (entries t)) p ep (mainpos t k) m n). }
    apply (chain_start (mainpos t) E1 (mainpos t k) e); [done| | |done..|].
    + unfold E1. by rewrite decide_True.
    + unfold E1. intros i ei Hi Hpi. repeat case_decide; simplify_eq; try congruence.
      * simpl in Hpi. congruence.
      * destruct (head_in_use _ _ _ _ _ Hch Hi Hpi) as (e' & _ & He' & Hpe & _). congruence.
    + intros i. unfold ents. rewrite !use_insert by (rewrite ?length_insert; done). unfold E1.
      repeat case_decide; congruence.
Qed.

(** The predecessor is found, and it is neither the free entry nor the main position. *)
Lemma predecessor t k m n : wf t → entries t !! mainpos t k = Some (Some m) → entries t !! n = Some None →
  mainpos t (key m) ≠ mainpos t k → let ents := <[n := Some m]> (entries t) in
  ∃ p ep, find_prev ents (mainpos t k) (length ents) (mainpos t (key m)) = Ret (p, ep) ∧
    use (entries t) p = Some ep ∧ next ep = Some (mainpos t k) ∧ mainpos t (key ep) = mainpos t (key m) ∧
    p ≠ n ∧ p ≠ mainpos t k.
Proof.
  intros Hwf Hm Hn Emain ents. pose proof (wf_chained t Hwf) as Hch. pose proof Hm as Hm'%use_Some.
  pose proof (use_None _ _ Hn) as Hn'. pose proof (lookup_lt_Some _ _ _ Hn) as Hnlt.
  destruct (head_in_use _ _ _ _ _ Hch Hm' eq_refl) as (e0 & l & He0 & Hp0 & Hl & Hml).
  apply elem_of_cons in Hml as [?|Hml]; [done|].
  destruct (find_prev_spec ents (mainpos t k) l (mainpos t (key m)) (length ents)) as (p & ep & E & Hp & Hpn & Hpl); [|  |done|].
  { eapply seg_frame; [apply Hl|]. intros i Hi. unfold ents. rewrite use_insert by done.
    rewrite decide_False; [done|]. intros ->. destruct (seg_in_use _ _ _ _ (proj1 Hl) Hi) as [??]. congruence. }
  { unfold ents. rewrite length_insert. pose proof (seg_length _ _ (proj1 Hl)) as Hle. simpl in Hle. lia. }
  assert (p ≠ n) as Hpnn.
  { intros ->. destruct (seg_in_use _ _ _ _ (proj1 Hl) Hpl) as [??]. congruence. }
  unfold ents in Hp. rewrite use_insert, decide_False in Hp by done. exists p, ep. split_and!; try done.
  - destruct Hl as (_ & _ & Hi). apply Hi in Hpl as (e' & He' & ?). by simplify_eq.
  - intros ->. by destruct (next_in_chain _ _ _ _ _ Hch Hp Hpn).
Qed.

Lemma insert_table_spec t k v : wf t → isfull t = false → k ∉ (contents t).*1 →
  ∃ t', insert_table t k v = Ret t' ∧ wf t' ∧ contents t' ≡ₚ (k, v) :: contents t ∧
    mask t' = mask t.
Proof.
  intros Hwf Hfull Hk. unfold isfull in Hfull. apply Z.eqb_neq in Hfull.
  pose proof (mainpos_lt t k Hwf) as Hlt. pose proof (wf_chained t Hwf) as Hch. unfold insert_table.
  destruct (lookup_lt_is_Some_2 _ _ Hlt) as [[m|] Hm]; rewrite Hm; cbn beta iota.
  2: { eexists. split; [done|]. apply wf_inserted; [done..|by rewrite length_insert|by apply omap_fill|by apply fill_main]. }
  destruct (emptyent_spec (entries t) (mainpos t k)) as (n & -> & Hn).
  { pose proof (table_size_length t Hwf). pose proof (wf_load t Hwf). pose proof (wf_count t Hwf). fold (contents t).
    pose proof (Z.shiftr_nonneg (table_size t) 3). lia. }
  pose proof (lookup_lt_Some _ _ _ Hn) as Hnlt. assert (n ≠ mainpos t k) as Hne by congruence.
  case_decide as Emain; cbn beta iota.
  - eexists. split; [done|]. apply wf_inserted; [done..|by rewrite !length_insert| |].
    + rewrite omap_fill by (by rewrite list_lookup_insert_ne by done). apply perm_skip. by apply omap_relink with m.
    + apply (chain_append (mainpos t) (use (entries t)) (mainpos t k) m n
        {| key := k; val := v; next := next m |}); [done|by apply use_Some|by apply use_None|done..|].
      intros i. rewrite !use_insert by (rewrite ?length_insert; done). done.
  - destruct (predecessor t k m n Hwf Hm Hn Emain) as (p & ep & -> & Hp & Hpn & Hpp & Hpnn & Hpk).
    rewrite bind_Ret. destruct (displaced t k v m n p ep) as [Hkv Hc]; [done..|].
    eexists. split; [done|]. apply wf_inserted; [done..|by rewrite !length_insert|done|done].
Qed.

Lemma rm_spec t k : wf t → ∃ r t', rm t k = Ret (r, t') ∧ wf t' ∧
  match r with
  | Some v => contents t ≡ₚ (k, v) :: contents t'
  | None => t' = t ∧ k ∉ (contents t).*1
  end.
Proof.
  intros Hwf. pose proof (wf_chained t Hwf) as Hch.
  pose proof (mainpos_lt t k Hwf) as Hlt.
  unfold rm.
  destruct (lookup_lt_is_Some_2 _ _ Hlt) as [[e|] He]; rewrite He; cbn beta iota.
  2: { exists None, t. split_and!; [done..|]. intros (j & ej & Hj & <-)%in_keys.
       destruct (head_in_use _ _ _ _ _ Hch Hj eq_refl) as (? & _ & He'%use_Some & _). congruence. }
  pose proof He as He'%use_Some. case_decide as Ek.
  { subst k. destruct (next e) as [m|] eqn:En.
    - destruct (next_in_chain _ _ _ _ _ Hch He' En) as (Hne & em & Hm & Hpm).
      pose proof Hm as Hm'%use_Some. pose proof (use_lt _ _ _ Hm) as Hmlt. rewrite Hm'.
      eexists _, _. split; [done|]. apply wf_removed; [done|by rewrite !length_insert| |].
      + apply (Permutation_cons_inv (a := kv em)). change (key e, val e) with (kv e).
        rewrite perm_swap, (omap_clear _ _ em) by (by rewrite list_lookup_insert_ne by done).
        by apply omap_replace.
      + apply (chain_behead (mainpos t) (use (entries t)) (mainpos t (key e)) e); [done..|].
        rewrite En. exists em. split; [done|]. intros j.
        by rewrite !use_insert by (by rewrite ?length_insert).
    - eexists _, _. split; [done|]. apply wf_removed; [done|by rewrite length_insert|by apply (omap_clear _ _ e)|].
      apply (chain_behead (mainpos t) (use (entries t)) (mainpos t (key e)) e); [done..|].
      rewrite En. by apply use_insert. }
  destruct (walk_from _ _ _ _ Hch He') as (l & Hs & Hsame & Hall).
  destruct (find_before_spec (entries t) k l (mainpos t k) (length (entries t)) Hs)
    as (p & ep & -> & Hp & Hpl & Hr).
  { apply seg_length in Hs. simpl in Hs. lia. }
  rewrite bind_Ret. cbn beta iota. destruct (next ep) as [r|] eqn:Hn.
  - destruct Hr as (er & Hr & <- & Hrl). pose proof Hr as Hr'%use_Some. rewrite Hr'.
    destruct (next_in_chain _ _ _ _ _ Hch Hp Hn) as (Hne & er' & Hr2 & Hpr). simplify_eq.
    pose proof (use_lt _ _ _ Hr) as Hrlt. pose proof (use_lt _ _ _ Hp) as Hplt.
    eexists _, _. split; [done|]. apply wf_removed; [done|by rewrite !length_insert| |].
    + change (key er, val er) with (kv er). rewrite (omap_relink _ p ep); [by apply omap_clear| |done].
      rewrite list_lookup_insert_ne by done. by apply use_Some.
    + apply (chain_unlink (mainpos t) (use (entries t)) p ep r er); [done..|].
      intros j. by rewrite !use_insert by (by rewrite ?length_insert).
  - exists None, t. split_and!; [done..|]. intros (j & ej & Hj & <-)%in_keys.
    destruct (Hall j ej Hj eq_refl) as [[->|Hjl]%elem_of_cons _]; [congruence|].
    by apply (Hr j ej).
Qed.

(** ** New tables, iteration and growing *)

Lemma omap_replicate_None n : omap (fmap kv) (replicate n (@None (tabent K V))) = [].
Proof. by induction n. Qed.

Lemma use_replicate n i : use (replicate n None) i = None.
Proof. unfold use. destruct (replicate n None !! i) eqn:E; [|done]. by apply lookup_replicate in E as [-> _]. Qed.

Lemma wf_empty n m : (∃ lg : nat, (lg < 32)%nat ∧ m = 2 ^ Z.of_nat lg - 1 ∧ n = (2 ^ lg)%nat) →
  wf {| entries := replicate n None; count := 0; mask := m |}.
Proof.
  intros (lg & Hlg & -> & ->). split; unfold contents; simpl; rewrite ?omap_replicate_None; try done.
  - exists lg. by rewrite length_replicate.
  - unfold table_size. simpl. rewrite Z.shiftr_div_pow2 by lia.
    change (2 ^ 3) with 8. set (n := 2 ^ Z.of_nat lg).
    assert (0 < n) by (by apply Z.pow_pos_nonneg; lia).
    pose proof (Z.div_mod (n - 1 + 1) 8). pose proof (Z.mod_pos_bound (n - 1 + 1) 8). lia.
  - intros h. exists []. split_and!; [done|by left|]. intros i.
    split; [by intros ?%not_elem_of_nil|]. intros (e & He & _). by rewrite use_replicate in He.
  - constructor.
Qed.

Lemma popcnt32_mask lg : (lg < 32)%nat → popcnt32 (2 ^ Z.of_nat lg - 1) = lg.
Proof. intros Hlg. do 32 (destruct lg as [|lg]; [vm_compute; reflexivity|]). lia. Qed.

(** The pairs from index [i] on. *)
Definition from t (i : Z) : list (K * V) := omap (fmap kv) (drop (Z.to_nat i) (entries t)).

Lemma from_0 t : from t 0 = contents t.
Proof. done. Qed.

Lemma next_loop_spec t : wf t → ∀ fuel i, -1 ≤ i < table_size t → table_size t ≤ i + Z.of_nat fuel →
  let j := next_loop t fuel i in
  (j = SIZE_MAX - 1 ∧ from t (i + 1) = []) ∨
  (i < j < table_size t ∧ ∃ e, entries t !! Z.to_nat j = Some (Some e) ∧
     from t (i + 1) = kv e :: from t (j + 1)).
Proof.
  intros Hwf. pose proof (table_size_length t Hwf) as Hsz.
  induction fuel as [|fuel IH]; intros i Hi Hfuel; simpl; [lia|].
  destruct (Z.leb_spec (table_size t) (i + 1)) as [Hge|Hlt].
  { left. split; [done|]. unfold from. by rewrite drop_ge by lia. }
  destruct (lookup_lt_is_Some_2 (entries t) (Z.to_nat (i + 1))) as [o Ho]; [lia|]. rewrite Ho.
  assert (from t (i + 1) = omap (fmap kv) [o] ++ from t (i + 1 + 1)) as ->.
  { unfold from. rewrite (drop_S _ _ _ Ho), <- omap_app.
    by replace (Z.to_nat (i + 1 + 1)) with (S (Z.to_nat (i + 1))) by lia. }
  destruct o as [e|]; csimpl.
  - right. split; [lia|]. by exists e.
  - destruct (IH (i + 1)) as [?|(? & ?)]; [lia|lia|by left|]. right. split; [lia|done].
Qed.

(** The iterator gives the pairs in the order of the table. *)
Lemma next2_spec t iter : wf t → -1 ≤ iter < table_size t →
  match next2 t iter with
  | None => from t (iter + 1) = []
  | Some (k, v, j) => iter < j < table_size t ∧ from t (iter + 1) = (k, v) :: from t (j + 1)
  end.
Proof.
  intros Hwf Hi. unfold next2, next_index. pose proof (table_size_length t Hwf) as Hsz.
  destruct (wf_size t Hwf) as (lg & Hlg & Hm & Hlen).
  assert (table_size t < SIZE_MAX - 1) as Hmax.
  { unfold table_size. rewrite Hm. unfold SIZE_MAX.
    assert (2 ^ Z.of_nat lg < 2 ^ 32) by (apply Z.pow_lt_mono_r; lia). lia. }
  destruct (next_loop_spec t Hwf (S (length (entries t))) iter Hi) as [[-> Hf]|(Hj & e & He & Hf)];
    [lia| |].
  - destruct (Z.ltb_spec (SIZE_MAX - 1) (table_size t)); [lia|done].
  - destruct (Z.ltb_spec (next_loop t (S (length (entries t))) iter) (table_size t)); [|lia].
    by rewrite He.
Qed.

Lemma rehash_spec t : wf t → ∀ fuel iter new, wf new → -1 ≤ iter < table_size t →
  table_size t ≤ iter + Z.of_nat fuel →
  NoDup (contents new ++ from t (iter + 1)).*1 →
  Z.of_nat (length (contents new ++ from t (iter + 1)))
    ≤ table_size new - Z.shiftr (table_size new) 3 →
  ∃ t', rehash t fuel iter new = Ret t' ∧ wf t' ∧ mask t' = mask new ∧
        contents t' ≡ₚ contents new ++ from t (iter + 1).
Proof.
  intros Hwf. induction fuel as [|fuel IH]; intros iter new Hnew Hi Hfuel Hnd Hload; [lia|]. simpl.
  pose proof (next2_spec t iter Hwf Hi) as Hn.
  destruct (next2 t iter) as [[[k v] j]|].
  2: { exists new. split_and!; [done..|]. by rewrite Hn, app_nil_r. }
  destruct Hn as [Hj Hf]. rewrite Hf in *.
  destruct (insert_table_spec new k v Hnew) as (new' & -> & Hnew' & Hc' & Hm').
  { unfold isfull. apply Z.eqb_neq. rewrite (wf_count new Hnew).
    rewrite length_app in Hload. simpl in Hload. lia. }
  { rewrite fmap_app, fmap_cons in Hnd. simpl in Hnd. apply NoDup_app in Hnd as (_ & Hd & _).
    intros Hk. by apply (Hd k Hk); left. }
  rewrite bind_Ret.
  assert (contents new' ++ from t (j + 1) ≡ₚ contents new ++ (k, v) :: from t (j + 1)) as Hp.
  { rewrite Hc'. simpl. by rewrite Permutation_middle. }
  destruct (IH j new' Hnew') as (t' & -> & Ht' & Hmt & Hct).
  - lia.
  - lia.
  - by rewrite Hp.
  - unfold table_size in *. by rewrite Hp, Hm'.
  - exists t'. split_and!; [done..|by rewrite Hmt|]. by rewrite Hct.
Qed.

Lemma resize_spec t mem : wf t →
  ∃ r, resize t (popcnt32 (mask t) + 1) mem = Ret r ∧
    match r with
    | Some t' => wf t' ∧ contents t' ≡ₚ contents t ∧ isfull t' = false
    | None => mem = false ∨ 2 ^ 31 ≤ Z.of_nat (length (entries t))
    end.
Proof.
  intros Hwf. destruct (wf_size t Hwf) as (lg & Hlg & Hm & Hlen). unfold resize, init.
  rewrite Hm, popcnt32_mask by done. destruct (Nat.leb_spec 32 (lg + 1)).
  { exists None. split; [done|]. right. rewrite Hlen, Nat2Z.inj_pow. apply Z.pow_le_mono_r; lia. }
  destruct mem; [|exists None; split; [done|by left]].
  set (new := Build_upb_table _ _ _).
  assert (wf new) as Hnew by (apply wf_empty; by exists (lg + 1)%nat).
  pose proof (table_size_length t Hwf) as Hsz. pose proof (wf_load t Hwf) as Hload.
  assert (table_size new = 2 * table_size t) as Hnsz.
  { unfold new, table_size. simpl. rewrite Hm, Nat2Z.inj_add, Z.pow_add_r by lia. lia. }
  assert (contents new = []) as Hempty by apply omap_replicate_None.
  assert (0 < table_size t) as Hpos.
  { rewrite Hsz, Hlen. assert (2 ^ lg ≠ 0)%nat by (by apply Nat.pow_nonzero). lia. }
  assert (count t < table_size new - Z.shiftr (table_size new) 3) as Hlt.
  { rewrite Hnsz. rewrite Z.shiftr_div_pow2 in * by lia. change (2 ^ 3) with 8 in *.
    pose proof (Z.div_mod (table_size t) 8). pose proof (Z.mod_pos_bound (table_size t) 8).
    pose proof (Z.div_mod (2 * table_size t) 8). pose proof (Z.mod_pos_bound (2 * table_size t) 8). lia. }
  rewrite (wf_count t Hwf) in Hlt.
  destruct (rehash_spec t Hwf (S (length (entries t))) (-1) new Hnew) as (t' & -> & Ht' & Hmt & Hct).
  - lia.
  - lia.
  - rewrite Hempty. by apply wf_keys.
  - rewrite Hempty. change (from t (-1 + 1)) with (contents t). simpl. lia.
  - exists (Some t'). split; [done|]. rewrite Hempty in Hct. split_and!; [done..|].
    unfold isfull. apply Z.eqb_neq. rewrite (wf_count t' Ht'), Hct.
    unfold table_size in *. rewrite Hmt. by apply Z.lt_neq.
Qed.

Lemma table_insert_spec t k v mem copied : wf t → k ∉ (contents t).*1 →
  ∃ b t', table_insert t k v mem copied = Ret (b, t') ∧ wf t' ∧
    contents t' ≡ₚ (if b : bool then (k, v) :: contents t else contents t) ∧
    (mem = true → copied = true →
     (isfull t = true → Z.of_nat (length (entries t)) < 2 ^ 31) → b = true).
Proof.
  intros Hwf Hk. unfold table_insert.
  assert (∃ r, (if isfull t then resize t (popcnt32 (mask t) + 1) mem else Ret (Some t)) = Ret r ∧
    match r with
    | Some t' => wf t' ∧ contents t' ≡ₚ contents t ∧ isfull t' = false
    | None => isfull t = true ∧ (mem = false ∨ 2 ^ 31 ≤ Z.of_nat (length (entries t)))
    end) as ([t1|] & -> & Hr).
  { destruct (isfull t) eqn:E; [|by exists (Some t)].
    destruct (resize_spec t mem Hwf) as (r & -> & Hr). exists r. split; [done|]. by destruct r. }
  - destruct Hr as (Hwf1 & Hc1 & Hf1). rewrite bind_Ret. destruct copied.
    + destruct (insert_table_spec t1 k v Hwf1 Hf1) as (t' & -> & ? & Hc' & _); [by rewrite Hc1|].
      exists true, t'. split_and!; [done..| |done]. by rewrite Hc', Hc1.
    + exists false, t1. by split_and!.
  - rewrite bind_Ret. exists false, t. split_and!; [done..|]. intros -> _ Hlt.
    destruct Hr as [Hf [?|?]]; [done|]. specialize (Hlt Hf). lia.
Qed.
End Table.

(** ** The table is a finite map *)
Section Models.
Context {K V : Type} `{Countable K}.
Variable hashfunc : K → Z.
Implicit Types (t : upb_table K V) (m : gmap K V).

Definition models t m : Prop := wf hashfunc t ∧ map_to_list m ≡ₚ contents t.

Lemma models_lookup t m k v : models t m → m !! k = Some v ↔ (k, v) ∈ contents t.
Proof. intros [_ Hp]. by rewrite <- Hp, elem_of_map_to_list. Qed.

Lemma models_fresh t m k : models t m → m !! k = None ↔ k ∉ (contents t).*1.
Proof.
  intros Hm. rewrite eq_None_not_Some. split; intros Hn; contradict Hn.
  - apply list_elem_of_fmap in Hn as ([k' v] & -> & Hkv). exists v. by eapply models_lookup.
  - destruct Hn as [v Hv]. apply list_elem_of_fmap. exists (k, v). split; [done|]. by eapply models_lookup.
Qed.

Lemma models_size t m : models t m → count t = Z.of_nat (size m).
Proof. intros [Hwf Hp]. by rewrite (wf_count _ _ Hwf), <- Hp, length_map_to_list. Qed.

Lemma lookup_models t m k : models t m → lookup_table hashfunc t k = Ret (m !! k).
Proof.
  intros Hm. unfold lookup_table. destruct (findentry_spec hashfunc t k (proj1 Hm)) as ([i|] & -> & Hr);
    rewrite bind_Ret.
  - destruct Hr as (e & He & <-). pose proof He as He'%use_Some. rewrite He'. do 2 f_equal.
    symmetry. eapply models_lookup; [done|]. apply in_contents. eauto.
  - f_equal. symmetry. by eapply models_fresh.
Qed.

Lemma rm_models t m k : models t m →
  ∃ t', rm hashfunc t k = Ret (m !! k, t') ∧ models t' (delete k m).
Proof.
  intros Hm. pose proof Hm as [Hwf Hp].
  destruct (rm_spec hashfunc t k Hwf) as (r & t' & -> & Hwf' & Hr). exists t'. destruct r as [v|].
  - assert (m !! k = Some v) as Hk by (eapply models_lookup; [done|]; rewrite Hr; set_solver).
    rewrite Hk. split; [done|]. split; [done|].
    rewrite <- (insert_delete_id m k v Hk), map_to_list_insert in Hp by (apply lookup_delete_eq).
    rewrite Hr in Hp. by apply Permutation_cons_inv in Hp.
  - destruct Hr as [-> Hn]. eapply models_fresh in Hn; [|done]. rewrite Hn. split; [done|].
    by rewrite delete_id.
Qed.

Lemma insert_models t m k v mem copied : models t m → m !! k = None →
  ∃ b t', table_insert hashfunc t k v mem copied = Ret (b, t') ∧
    models t' (if b : bool then <[k := v]> m else m) ∧
    (mem = true → copied = true → Z.of_nat (size m) < 2 ^ 30 → b = true).
Proof.
  intros Hm Hn. pose proof Hm as [Hwf Hp].
  destruct (table_insert_spec hashfunc t k v mem copied Hwf) as (b & t' & -> & Hwf' & Hc & Hb).
  { by eapply models_fresh. }
  exists b, t'. split; [done|]. split.
  - split; [done|]. rewrite Hc. destruct b; [|done]. by rewrite map_to_list_insert, Hp.
  - intros Hmem Hcp Hsz. apply Hb; [done..|]. unfold isfull. intros Hf%Z.eqb_eq.
    rewrite (models_size _ _ Hm), (table_size_length hashfunc t Hwf), Z.shiftr_div_pow2 in Hf by lia.
    change (2 ^ 3) with 8 in Hf.
    pose proof (Z.div_mod (Z.of_nat (length (entries t))) 8).
    pose proof (Z.mod_pos_bound (Z.of_nat (length (entries t))) 8). lia.
Qed.

Lemma clear_models t m : models t m → models (table_clear t) ∅.
Proof.
  intros [Hwf _]. split.
  - apply wf_empty. destruct (wf_size _ _ Hwf) as (lg & ? & ? & ->). by exists lg.
  - unfold contents. simpl. by rewrite omap_replicate_None, map_to_list_empty.
Qed.

Lemma init_models lg mem t : init lg mem = Some t → models t ∅.
Proof.
  unfold init. destruct (Nat.leb_spec 32 lg); [done|]. destruct mem; [|done]. intros [= <-]. split.
  - apply wf_empty. by exists lg.
  - unfold contents. simpl. by rewrite omap_replicate_None, map_to_list_empty.
Qed.

(** *** Iteration *)

(** The answers of [next2], each from the iterator of the one before. *)
Fixpoint iterate t (fuel : nat) (iter : Z) : list (K * V) :=
  match fuel with
  | O => []
  | S fuel => match next2 t iter with
              | Some (k, v, iter) => (k, v) :: iterate t fuel iter
              | None => []
              end
  end.

Lemma iterate_spec t : wf hashfunc t → ∀ fuel iter,
  -1 ≤ iter < table_size t → table_size t ≤ iter + Z.of_nat fuel →
  iterate t fuel iter = from t (iter + 1).
Proof.
  intros Hwf. induction fuel as [|fuel IH]; intros iter Hi Hf; [lia|]. simpl.
  pose proof (next2_spec hashfunc t iter Hwf Hi) as Hn. destruct (next2 t iter) as [[[k v] j]|]; [|done].
  destruct Hn as [Hj ->]. f_equal. apply IH; lia.
Qed.

(** An iteration over a table that does not change meets every pair of the map
    exactly once, and then ends.  *)
Theorem iterate_complete t m : models t m →
  iterate t (S (length (entries t))) (-1) ≡ₚ map_to_list m.
Proof.
  intros [Hwf Hp]. rewrite iterate_spec, Hp; [done|done| |].
  - pose proof (table_size_length hashfunc t Hwf). pose proof (mainpos_lt hashfunc t).
    destruct (wf_size _ _ Hwf) as (lg & ? & ? & Hl). assert (2 ^ lg ≠ 0)%nat by (by apply Nat.pow_nonzero). lia.
  - pose proof (table_size_length hashfunc t Hwf). lia.
Qed.

(** Removing the pair an iteration is at can hide another one from it.  When the
    pair is the head of a chain that goes on further along in the table, the next
    entry of the chain moves to the index the iterator is at: it stays in the map and
    is not met any more.  *)
Lemma removal_hides_entry t m i j e ej :
  models t m → use (entries t) i = Some e → mainpos hashfunc t (key e) = i →
  next e = Some j → use (entries t) j = Some ej → (i < j)%nat →
  ∃ t', rm hashfunc t (key e) = Ret (Some (val e), t') ∧
    models t' (delete (key e) m) ∧ delete (key e) m !! key ej = Some (val ej) ∧
    ∀ fuel, table_size t' ≤ Z.of_nat i + Z.of_nat fuel →
      (key ej, val ej) ∉ iterate t' fuel (Z.of_nat i).
Proof.
  intros Hm He Hmain Hn Hj Hij. pose proof Hm as [Hwf _].
  destruct (rm_models t m (key e) Hm) as (t' & Hrm & Hm').
  assert (m !! key e = Some (val e)) as Hk by (eapply models_lookup; [done|]; apply in_contents; eauto).
  rewrite Hk in Hrm. exists t'. split; [done|]. split; [done|].
  assert (entries t' = <[j := None]> (<[i := Some ej]> (entries t))) as Hents.
  { unfold rm in Hrm. rewrite Hmain in Hrm. pose proof He as He'%use_Some. rewrite He' in Hrm.
    rewrite decide_True, Hn in Hrm by done. pose proof Hj as Hj'%use_Some. rewrite Hj' in Hrm.
    by injection Hrm as <-. }
  pose proof (use_lt _ _ _ He) as Hilt. pose proof (use_lt _ _ _ Hj) as Hjlt.
  assert ((key ej, val ej) ∈ contents t') as Hin.
  { apply in_contents. exists i, ej. split; [|done].
    rewrite Hents, !use_insert by (by rewrite ?length_insert).
    rewrite decide_False, decide_True by lia. done. }
  split; [by eapply models_lookup|]. intros fuel Hfuel.
  pose proof Hm' as [Hwf' _].
  rewrite iterate_spec; [|done| |done].
  - intros Hfrom. pose proof (wf_keys _ _ Hwf') as Hnd.
    assert (contents t' = omap (fmap kv) (take (Z.to_nat (Z.of_nat i + 1)) (entries t')) ++
              from t' (Z.of_nat i + 1)) as Hsplit.
    { unfold from. by rewrite <- omap_app, take_drop. }
    rewrite Hsplit, fmap_app in Hnd. apply NoDup_app in Hnd as (_ & Hnd & _).
    apply (Hnd (key ej)); apply list_elem_of_fmap; exists (key ej, val ej); (split; [done|]); [|done].
    apply list_elem_of_omap. exists (Some ej). split; [|done].
    apply (list_elem_of_lookup_2 _ i). rewrite lookup_take_lt by lia.
    rewrite Hents, list_lookup_insert_ne by lia. by apply list_lookup_insert_eq.
  - pose proof (table_size_length hashfunc t' Hwf') as ->. rewrite Hents, !length_insert. lia.
Qed.

(** C6: the table refines a finite map, whatever the hash function: looking up,
    removing, inserting a new key and clearing do what they do on the map and never
    leave the table; only an insertion that finds the table full and no memory to
    grow it fails, with the map as it was.  *)
Theorem table_refines_map t m : models t m →
  count t = Z.of_nat (size m) ∧
  (∀ k, lookup_table hashfunc t k = Ret (m !! k)) ∧
  (∀ k, ∃ t', rm hashfunc t k = Ret (m !! k, t') ∧ models t' (delete k m)) ∧
  (∀ k v mem copied, m !! k = None →
    ∃ b t', table_insert hashfunc t k v mem copied = Ret (b, t') ∧
      models t' (if b : bool then <[k := v]> m else m) ∧
      (mem = true → copied = true → Z.of_nat (size m) < 2 ^ 30 → b = true)) ∧
  models (table_clear t) ∅.
Proof.
  intros Hm. split_and!.
  - by apply models_size.
  - intros k. by apply lookup_models.
  - intros k. by apply rm_models.
  - intros k v mem copied. by apply insert_models.
  - by eapply clear_models.
Qed.
End Models.

(** ** Integer keys *)

(** [upb_inthash]. *)
Definition upb_inthash (k : Z) : Z := Z.lxor (u32 k) (u32 (Z.shiftr k 32)).

(** A table of eight entries with two keys on one chain: 9 has the main position of 1
    and stands behind it, at index 2. *)
Definition sample_entry (k v : Z) (n : option nat) : option (tabent Z Z) :=
  Some {| key := k; val := v; next := n |}.
Definition sample1 : upb_table Z Z :=
  {| entries := <[1%nat := sample_entry 1 10 None]> (replicate 8 None); count := 1; mask := 7 |}.
Definition sample : upb_table Z Z :=
  {| entries := <[2%nat := sample_entry 9 90 None]>
                  (<[1%nat := sample_entry 1 10 (Some 2%nat)]> (replicate 8 None));
     count := 2; mask := 7 |}.

Lemma sample_models : models upb_inthash sample (<[9 := 90]> (<[1 := 10]> (∅ : gmap Z Z))).
Proof.
  assert (models upb_inthash {| entries := replicate 8 None; count := 0; mask := 7 |} (∅ : gmap Z Z)) as H0.
  { by apply (init_models upb_inthash 3 true). }
  destruct (insert_models _ _ _ 1 10 true true H0 eq_refl) as (b & t1 & E & H1 & Hb).
  rewrite Hb in H1 by (by_compute || done). clear Hb.
  replace t1 with sample1 in H1 by (by injection E). clear E t1.
  destruct (insert_models _ _ _ 9 90 true true H1 eq_refl) as (b' & t2 & E & H2 & Hb).
  rewrite Hb in H2 by (by_compute || done). by replace t2 with sample in H2 by (by injection E).
Qed.

Lemma iterate_complete_witness :
  iterate sample 9 (-1) ≡ₚ map_to_list (<[9 := 90]> (<[1 := 10]> (∅ : gmap Z Z))).
Proof. exact (iterate_complete upb_inthash sample _ sample_models). Defined.

Lemma removal_hides_entry_witness :
  ∃ t', rm upb_inthash sample 1 = Ret (Some 10, t') ∧
    models upb_inthash t' (delete 1 (<[9 := 90]> (<[1 := 10]> (∅ : gmap Z Z)))) ∧
    delete 1 (<[9 := 90]> (<[1 := 10]> (∅ : gmap Z Z))) !! 9 = Some 90 ∧
    ∀ fuel, table_size t' ≤ Z.of_nat 1 + Z.of_nat fuel → (9, 90) ∉ iterate t' fuel (Z.of_nat 1).
Proof.
  apply (removal_hides_entry upb_inthash sample _ 1 2
    {| key := 1; val := 10; next := Some 2%nat |} {| key := 9; val := 90; next := None |} sample_models);
    (reflexivity || lia).
Defined.

Lemma table_refines_map_witness :
  count sample = Z.of_nat (size (<[9 := 90]> (<[1 := 10]> (∅ : gmap Z Z)))) ∧
  (∀ k, lookup_table upb_inthash sample k = Ret ((<[9 := 90]> (<[1 := 10]> (∅ : gmap Z Z))) !! k)).
Proof.
  destruct (table_refines_map upb_inthash sample _ sample_models) as (H1 & H2 & _). exact (conj H1 H2).
Defined.
