(* ===== verification/MapContainer.v ===== *)
(** * Map fields (xs/map/map.c, xs/map/iterator.c over vendor/upb/message/map.c)

    The two kinds of tables behind a [upb_Map], stated as an interface, and the
    operations and the iterator of [Protobuf::Internal::Map] on it. *)

From S2P Require Import Prelude PerlNumbers Convert Handles HashTable.

(** ** The interface of a map's table *)

(** [t_insert] is told the arena's answers for the table and for the key. [t_next]
    answers the entry behind an iterator, which is -1 at the beginning, and the new
    iterator. *)
Class Table (T K V : Type) := {
  t_lookup : T → K → outcome (option V);
  t_remove : T → K → outcome (option V * T);
  t_insert : T → K → V → bool → bool → outcome (bool * T);
  t_clear : T → T;
  t_count : T → Z;
  t_next : T → Z → option (K * V) * Z;
}.

(** The iterator is at the end and stays there. *)
Definition ended `{Table T K V} (t : T) (iter : Z) : Prop :=
  ∃ j, t_next t iter = (None, j) ∧ t_next t j = (None, j).

(** From [iter] on come exactly the pairs [l]. *)
Fixpoint walk `{Table T K V} (t : T) (iter : Z) (l : list (K * V)) : Prop :=
  match l with
  | [] => ended t iter
  | kv :: l => ∃ j, t_next t iter = (Some kv, j) ∧ walk t j l
  end.

Class TableLaws (T K V : Type) `{Countable K, !Table T K V} := {
  t_models : T → gmap K V → Prop;
  t_lookup_ok t m k : t_models t m → t_lookup t k = Ret (m !! k);
  t_remove_ok t m k : t_models t m → ∃ t', t_remove t k = Ret (m !! k, t') ∧ t_models t' (delete k m);
  t_insert_ok t m k v mem copied : t_models t m → m !! k = None →
    ∃ b t', t_insert t k v mem copied = Ret (b, t') ∧ t_models t' (if b : bool then <[k := v]> m else m) ∧
      (mem = true → copied = true → Z.of_nat (size m) < 2 ^ 30 → b = true);
  t_clear_ok t m : t_models t m → t_models (t_clear t) ∅;
  t_count_ok t m : t_models t m → t_count t = Z.of_nat (size m);
  t_walk_ok t m : t_models t m → ∃ l, walk t (-1) l ∧ l ≡ₚ map_to_list m;
}.

(** ** String tables *)
Section StrTable.
Context {V : Type} (strhash : bytes → Z).

Definition strtable_next (t : upb_table bytes V) (iter : Z) : option (bytes * V) * Z :=
  match next2 t iter with
  | Some (k, v, j) => (Some (k, v), j)
  | None => (None, iter)
  end.

Definition strtable : Table (upb_table bytes V) bytes V := {|
  t_lookup := lookup_table strhash;
  t_remove := rm strhash;
  t_insert := table_insert strhash;
  t_clear := table_clear;
  t_count := count;
  t_next := strtable_next;
|}.

Lemma strtable_walk t : wf strhash t → ∀ n iter, (n = Z.to_nat (table_size t - iter)) →
  -1 ≤ iter < table_size t → @walk _ _ _ strtable t iter (from t (iter + 1)).
Proof.
  intros Hwf. induction n as [n IH] using lt_wf_ind. intros iter Hn Hi.
  pose proof (next2_spec strhash t iter Hwf Hi) as Hnext.
  destruct (next2 t iter) as [[[k v] j]|] eqn:E.
  - destruct Hnext as [Hj ->]. exists j. split; [cbn; unfold strtable_next; by rewrite E|].
    eapply IH; [|reflexivity|]; lia.
  - rewrite Hnext. exists iter. cbn. unfold strtable_next. by rewrite E.
Qed.

#[program] Definition strtable_laws : @TableLaws (upb_table bytes V) bytes V _ _ strtable := {|
  t_models := models strhash;
|}.
Next Obligation. intros t m k. apply lookup_models. Qed.
Next Obligation. intros t m k. apply rm_models. Qed.
Next Obligation. intros t m k v mem copied. apply insert_models. Qed.
Next Obligation. intros t m. apply clear_models. Qed.
Next Obligation. intros t m. apply models_size. Qed.
Next Obligation.
  intros t m [Hwf Hp]. exists (contents t). split; [|by symmetry].
  change (contents t) with (from t (-1 + 1)). eapply strtable_walk; [done|reflexivity|].
  pose proof (table_size_length strhash t Hwf).
  destruct (wf_size _ _ Hwf) as (lg & ? & ? & Hl). assert (2 ^ lg ≠ 0)%nat by (by apply Nat.pow_nonzero). lia.
Qed.
End StrTable.

(** ** Integer tables

    [upb_inttable]: an array part for the keys below [array_size], which is 1 in the
    table of a map, and a hash part for the other keys. *)
Record upb_inttable (V : Type) := { array0 : option V; hpart : upb_table Z V }.
Arguments array0 {_} _.
Arguments hpart {_} _.
Arguments Build_upb_inttable {_} _ _.

Section IntTable.
Context {V : Type}.
Implicit Types t : upb_inttable V.

Definition inttable_lookup t (k : Z) : outcome (option V) :=
  if k =? 0 then Ret (array0 t) else lookup_table upb_inthash (hpart t) k.

Definition inttable_remove t (k : Z) : outcome (option V * upb_inttable V) :=
  if k =? 0 then Ret (array0 t, {| array0 := None; hpart := hpart t |})
  else '(v, h) ← rm upb_inthash (hpart t) k; Ret (v, {| array0 := array0 t; hpart := h |}).

Definition inttable_insert t (k : Z) (v : V) (mem : bool) : outcome (bool * upb_inttable V) :=
  if k =? 0 then Ret (true, {| array0 := Some v; hpart := hpart t |})
  else '(b, h) ← table_insert upb_inthash (hpart t) k v mem true;
       Ret (b, {| array0 := array0 t; hpart := h |}).

Definition inttable_clear t : upb_inttable V :=
  {| array0 := None; hpart := table_clear (hpart t) |}.

Definition inttable_count t : Z := count (hpart t) + match array0 t with Some _ => 1 | None => 0 end.

Definition INTPTR_MAX : Z := 2 ^ 63 - 1.

(** The array part first; then [i] is backed up to one position before the table. *)
Definition inttable_next t (i : Z) : option (Z * V) * Z :=
  let table (i : Z) :=
    match next2 (hpart t) (i - 1) with
    | Some (k, v, tab_idx) => (Some (k, v), tab_idx + 1)
    | None => (None, INTPTR_MAX - 1)
    end in
  if i + 1 <? 1 then
    match array0 t with
    | Some v => (Some (0, v), 0)
    | None => table 0
    end
  else table (if i + 1 <=? 1 then 0 else i).

Definition inttable : Table (upb_inttable V) Z V := {|
  t_lookup := inttable_lookup;
  t_remove := inttable_remove;
  t_insert t k v mem _ := inttable_insert t k v mem;
  t_clear := inttable_clear;
  t_count := inttable_count;
  t_next := inttable_next;
|}.

Definition int_models t (m : gmap Z V) : Prop :=
  array0 t = m !! 0 ∧ models upb_inthash (hpart t) (delete 0 m).

Lemma inttable_next_table t i : 0 ≤ i →
  inttable_next t i = match next2 (hpart t) (i - 1) with
                      | Some (k, v, tab_idx) => (Some (k, v), tab_idx + 1)
                      | None => (None, INTPTR_MAX - 1)
                      end.
Proof.
  intros Hi. unfold inttable_next. destruct (Z.ltb_spec (i + 1) 1); [lia|].
  destruct (Z.leb_spec (i + 1) 1); [|done]. by replace i with 0 by lia.
Qed.

Lemma next2_past (t : upb_table Z V) i : wf upb_inthash t → table_size t ≤ i → i < 2 ^ 63 → next2 t i = None.
Proof.
  intros Hwf Hi _. unfold next2, next_index. simpl.
  destruct (Z.leb_spec (table_size t) (i + 1)); [|lia].
  destruct (wf_size _ _ Hwf) as (lg & Hlg & Hm & _). unfold table_size in *. rewrite Hm in *.
  assert (2 ^ Z.of_nat lg < 2 ^ 32) by (apply Z.pow_lt_mono_r; lia).
  destruct (Z.ltb_spec (SIZE_MAX - 1) (2 ^ Z.of_nat lg - 1 + 1)); [unfold SIZE_MAX in *; lia|done].
Qed.

Lemma int_end t : wf upb_inthash (hpart t) → inttable_next t (INTPTR_MAX - 1) = (None, INTPTR_MAX - 1).
Proof.
  intros Hwf. rewrite inttable_next_table by (unfold INTPTR_MAX; lia).
  rewrite next2_past; [done|done| |unfold INTPTR_MAX; lia].
  destruct (wf_size _ _ Hwf) as (lg & Hlg & Hm & _). unfold table_size. rewrite Hm.
  assert (2 ^ Z.of_nat lg < 2 ^ 32) by (apply Z.pow_lt_mono_r; lia). unfold INTPTR_MAX. lia.
Qed.

Lemma int_walk t : wf upb_inthash (hpart t) → ∀ n i, n = Z.to_nat (table_size (hpart t) - i) →
  0 ≤ i ≤ table_size (hpart t) → @walk _ _ _ inttable t i (from (hpart t) i).
Proof.
  intros Hwf. induction n as [n IH] using lt_wf_ind. intros i Hn Hi.
  pose proof (next2_spec upb_inthash (hpart t) (i - 1) Hwf) as Hnext.
  replace (i - 1 + 1) with i in Hnext by lia.
  destruct (next2 (hpart t) (i - 1)) as [[[k v] j]|] eqn:E.
  - destruct Hnext as [Hj ->]; [lia|]. exists (j + 1).
    split; [cbn; by rewrite inttable_next_table, E by lia|]. eapply IH; [|reflexivity|]; lia.
  - rewrite Hnext by lia. exists (INTPTR_MAX - 1). cbn.
    rewrite inttable_next_table, E by lia. split; [done|]. by apply int_end.
Qed.

Lemma table_size_pos (t : upb_table Z V) : wf upb_inthash t → 0 < table_size t.
Proof.
  intros Hwf. pose proof (table_size_length _ t Hwf). destruct (wf_size _ _ Hwf) as (lg & ? & ? & Hl).
  assert (2 ^ lg ≠ 0)%nat by (by apply Nat.pow_nonzero). lia.
Qed.

Lemma int_lookup_ok t m k : int_models t m → inttable_lookup t k = Ret (m !! k).
Proof.
  intros [H0 Hm]. unfold inttable_lookup. destruct (Z.eqb_spec k 0) as [->|Hk]; [by rewrite H0|].
  by rewrite (lookup_models _ _ _ _ Hm), lookup_delete_ne.
Qed.

Lemma int_remove_ok t m k : int_models t m →
  ∃ t', inttable_remove t k = Ret (m !! k, t') ∧ int_models t' (delete k m).
Proof.
  intros [H0 Hm]. unfold inttable_remove. destruct (Z.eqb_spec k 0) as [->|Hk].
  - eexists. split; [by rewrite H0|]. split; simpl; [by rewrite lookup_delete_eq|].
    by rewrite delete_delete_eq.
  - destruct (rm_models _ _ _ k Hm) as (h & E & Hm'). rewrite lookup_delete_ne in E by done.
    rewrite E. eexists. split; [done|]. split; simpl; [by rewrite lookup_delete_ne|].
    by rewrite delete_delete.
Qed.

Lemma int_insert_ok t m k v mem : int_models t m → m !! k = None →
  ∃ b t', inttable_insert t k v mem = Ret (b, t') ∧ int_models t' (if b : bool then <[k := v]> m else m) ∧
    (mem = true → Z.of_nat (size m) < 2 ^ 30 → b = true).
Proof.
  intros [H0 Hm] Hn. unfold inttable_insert. destruct (Z.eqb_spec k 0) as [->|Hk].
  - do 2 eexists. split; [done|]. split; [|done]. split; simpl; [by rewrite lookup_insert_eq|].
    by rewrite delete_insert_eq.
  - destruct (insert_models _ _ _ k v mem true Hm) as (b & h & -> & Hm' & Hb).
    { by rewrite lookup_delete_ne. }
    exists b. eexists. split; [done|]. split.
    + split; destruct b; simpl; rewrite ?lookup_insert_ne by done; try done.
      by rewrite delete_insert_ne.
    + intros Hmem Hsz. apply Hb; [done..|]. pose proof (map_size_delete 0 m) as ->.
      destruct (m !! 0); simpl; lia.
Qed.

Lemma int_count_ok t m : int_models t m → inttable_count t = Z.of_nat (size m).
Proof.
  intros [H0 Hm]. unfold inttable_count. rewrite (models_size _ _ _ Hm), H0.
  destruct (m !! 0) as [v|] eqn:E.
  - rewrite <- (insert_delete_id m 0 v E) at 2. rewrite map_size_insert_None by (apply lookup_delete_eq). lia.
  - rewrite delete_id by done. lia.
Qed.

Lemma int_walk_ok t m : int_models t m → ∃ l, @walk _ _ _ inttable t (-1) l ∧ l ≡ₚ map_to_list m.
Proof.
  intros [H0 [Hwf Hp]]. pose proof (table_size_pos _ Hwf).
  assert (@walk _ _ _ inttable t 0 (contents (hpart t))) as Hw.
  { change (contents (hpart t)) with (from (hpart t) 0). eapply int_walk; [done|reflexivity|lia]. }
  destruct (m !! 0) as [v|] eqn:E.
  - exists ((0, v) :: contents (hpart t)). split.
    + exists 0. split; [|done]. cbn. unfold inttable_next. by rewrite H0.
    + rewrite <- Hp, <- map_to_list_insert by (apply lookup_delete_eq). by rewrite insert_delete_id.
  - exists (contents (hpart t)). split; [|by rewrite <- Hp, delete_id].
    assert (inttable_next t (-1) = inttable_next t 0) as E0.
    { unfold inttable_next at 1. simpl. by rewrite H0. }
    destruct (contents (hpart t)) as [|kv l]; simpl in Hw |- *.
    + destruct Hw as (j & Hj & Hj'). exists j. cbn in *. by rewrite E0.
    + destruct Hw as (j & Hj & Hj'). exists j. cbn in *. by rewrite E0.
Qed.

#[program] Definition inttable_laws : @TableLaws (upb_inttable V) Z V _ _ inttable := {|
  t_models := int_models;
|}.
Next Obligation. intros t m k. apply int_lookup_ok. Qed.
Next Obligation. intros t m k. apply int_remove_ok. Qed.
Next Obligation.
  intros t m k v mem copied Hm Hn. cbn. destruct (int_insert_ok t m k v mem Hm Hn) as (b & t' & ? & ? & ?).
  exists b, t'. auto.
Qed.
Next Obligation.
  intros t m [_ Hm]. split; [done|]. simpl. rewrite delete_empty. by eapply clear_models.
Qed.
Next Obligation. intros t m. apply int_count_ok. Qed.
Next Obligation. intros t m. apply int_walk_ok. Qed.
End IntTable.

(** ** Keys

    [_upb_map_tointkey] and [_upb_map_fromkey] of an integer key: its bytes, without
    sign extension. *)
Definition tointkey (v : value) : outcome Z :=
  match v with
  | VInt32 z => Ret (u32 z)
  | VUInt32 z | VUInt64 z => Ret z
  | VInt64 z => Ret (u64 z)
  | VBool b => Ret (if b then 1 else 0)
  | _ => Fault "not an integer key"
  end.

Definition fromintkey (t : FieldType) (z : Z) : value :=
  match t with
  | TInt32 | TSInt32 | TSFixed32 | TEnum => VInt32 (i32 z)
  | TUInt32 | TFixed32 => VUInt32 (u32 z)
  | TInt64 | TSInt64 | TSFixed64 => VInt64 (i64 z)
  | TUInt64 | TFixed64 => VUInt64 z
  | _ => VBool (negb (z =? 0))
  end.

Definition tostrkey (v : value) : outcome bytes :=
  match v with VStr s => Ret s | _ => Fault "not a string key" end.

Definition integer_key (t : FieldType) : bool :=
  match t with
  | TDouble | TFloat | TString | TBytes | TMessage | TGroup => false
  | _ => true
  end.

Lemma i32_u32 z : INT32_MIN ≤ z ≤ INT32_MAX → i32 (u32 z) = z.
Proof.
  unfold INT32_MIN, INT32_MAX, i32, u32. intros Hz.
  rewrite Z.add_mod_idemp_l, Z.mod_small by lia. lia.
Qed.
Lemma i64_u64 z : IV_MIN ≤ z ≤ IV_MAX → i64 (u64 z) = z.
Proof.
  unfold IV_MIN, IV_MAX, i64, u64. intros Hz.
  rewrite Z.add_mod_idemp_l, Z.mod_small by lia. lia.
Qed.

(** Every value a key field can hold survives the way into the table and out. *)
Lemma intkey_roundtrip t v : integer_key t = true → scalar_ok t v = true →
  ∃ k, tointkey v = Ret k ∧ 0 ≤ k < 2 ^ 64 ∧ fromintkey t k = v.
Proof.
  intros Ht Hv. destruct t, v as [z|z|z|z|b| | | | | |]; try discriminate; simpl in Hv |- *;
    rewrite ?within_spec in Hv; unfold UINT32_MAX, UV_MAX in *; eexists; (split; [done|]); split;
    try (pose proof (u32_bound z); lia); try (pose proof (u64_bound z); lia); try lia;
    rewrite ?i32_u32, ?i64_u64, ?u32_small by lia; try done; by destruct b.
Qed.

(** ** [Protobuf::Internal::Map] *)

(** The arena's answers in one [upb_Map_Insert]: for the view of a string value, for
    a larger table, for the copy of the key. *)
Record answers := { value_mem : bool; table_mem : bool; key_mem : bool }.

(** [upb_MapInsertStatus]. *)
Inductive MapInsertStatus := Inserted | Replaced | OutOfMemory.

Section Map.
Context {T K : Type} `{TableLaws T K value} `{PerlNum}.
Variables (sch : schema) (amem : Z → bool).

(** The key and value fields of the entry, and how the table keeps keys. *)
Variables (key_f val_f : FieldDef) (tokey : value → outcome K) (fromkey : K → value).
Notation call := (cmd T).

Definition key_arg (s : sv) : outcome K := SvToUpb_Element sch amem s key_f ≫= tokey.
Definition val_arg (s : sv) : outcome value := SvToUpb_Element sch amem s val_f.
Definition key_out (k : K) : outcome sv := convert_singular_to_sv (fromkey k) key_f.
Definition val_out (v : value) : outcome sv := convert_singular_to_sv v val_f.

Definition is_string (v : value) : bool := match v with VStr _ => true | _ => false end.

(** [_upb_Map_Insert]: the old entry goes first. *)
Definition Map_Insert (t : T) (k : K) (v : value) (a : answers) : outcome (MapInsertStatus * T) :=
  if is_string v && negb (value_mem a) then Ret (OutOfMemory, t)
  else
    '(removed, t) ← t_remove t k;
    '(ok, t) ← t_insert t k v (table_mem a) (key_mem a);
    Ret (if negb ok then OutOfMemory
         else match removed with Some _ => Replaced | None => Inserted end, t).

Definition table_op {B} (m : T → outcome (B * T)) : call B := λ t,
  match m t with
  | Ret (b, t') => (Ret b, t')
  | Croak msg => (Croak msg, t)
  | Fault why => (Fault why, t)
  end.

Definition Map_GetItem (self : handle) (key_sv : sv) : call sv :=
  with_fdef self Undef $
  key ← of_outcome (key_arg key_sv);
  t ← cget;
  v ← of_outcome (t_lookup t key);
  match v with Some v => of_outcome (val_out v) | None => mret Undef end.

Definition Map_Exists (self : handle) (key_sv : sv) : call bool :=
  with_fdef self false $
  key ← of_outcome (key_arg key_sv);
  t ← cget;
  v ← of_outcome (t_lookup t key);
  mret (bool_decide (is_Some v)).

(** The status of [upb_Map_Set] is not looked at. *)
Definition Map_SetItem (self : handle) (key_sv value_sv : sv) (a : answers) : call unit :=
  with_fdef self tt $
  key ← of_outcome (key_arg key_sv);
  val ← of_outcome (val_arg value_sv);
  table_op (λ t, Map_Insert t key val a);;
  mret tt.

Definition Map_DeleteItem (self : handle) (key_sv : sv) : call unit :=
  with_fdef self tt $
  key ← of_outcome (key_arg key_sv);
  table_op (λ t, t_remove t key);;
  mret tt.

Definition Map_Clear (self : handle) : call unit :=
  with_ptr self tt $ cmodify t_clear.

Definition Map_Size (self : handle) : call Z :=
  with_ptr self 0 $ t ← cget; mret (i32 (t_count t)).

(** *** The calls of Perl code and their specification *)

Inductive mop :=
  | MGet (k : sv) | MExists (k : sv) | MSet (k v : sv) (a : answers) | MDelete (k : sv)
  | MClear | MSize.

Definition run_mop (self : handle) (op : mop) : call sv :=
  match op with
  | MGet k => Map_GetItem self k
  | MExists k => b ← Map_Exists self k; mret (yesno b)
  | MSet k v a => void (Map_SetItem self k v a)
  | MDelete k => void (Map_DeleteItem self k)
  | MClear => void (Map_Clear self)
  | MSize => n ← Map_Size self; mret (IV n)
  end.

Fixpoint run_mops (self : handle) (ops : list mop) (t : T) : list (outcome sv) * T :=
  match ops with
  | [] => ([], t)
  | op :: ops =>
      let '(out, t) := run_mop self op t in
      let '(outs, t) := run_mops self ops t in (out :: outs, t)
  end.

Implicit Types m : gmap K value.

Definition with_arg {A} (arg : outcome A) (m : gmap K value) (f : A → outcome sv * gmap K value)
  : outcome sv * gmap K value :=
  match arg with
  | Ret a => f a
  | Croak msg => (Croak msg, m)
  | Fault why => (Fault why, m)
  end.

Definition spec_mop (op : mop) m : outcome sv * gmap K value :=
  match op with
  | MGet k => with_arg (key_arg k) m (λ k,
      (match m !! k with Some v => val_out v | None => Ret Undef end, m))
  | MExists k => with_arg (key_arg k) m (λ k, (Ret (yesno (bool_decide (is_Some (m !! k)))), m))
  | MSet k v _ => with_arg (key_arg k) m (λ k, with_arg (val_arg v) m (λ v, (Ret Undef, <[k := v]> m)))
  | MDelete k => with_arg (key_arg k) m (λ k, (Ret Undef, delete k m))
  | MClear => (Ret Undef, ∅)
  | MSize => (Ret (IV (Z.of_nat (size m))), m)
  end.

(** An assignment for which there is no memory is not reported: the map may keep what
    it had under the key, or lose it. *)
Definition oom_mop (op : mop) m (out : outcome sv) m' : Prop :=
  match op with
  | MSet k _ a =>
      (value_mem a && table_mem a && key_mem a = false ∨ 2 ^ 30 ≤ Z.of_nat (size m)) ∧
      out = Ret Undef ∧ ∃ k', key_arg k = Ret k' ∧ (m' = m ∨ m' = delete k' m)
  | _ => False
  end.

Inductive mops_allowed : list mop → gmap K value → list (outcome sv) → gmap K value → Prop :=
  | mops_nil m : mops_allowed [] m [] m
  | mops_cons op ops m out m' outs m'' :
      spec_mop op m = (out, m') ∨ oom_mop op m out m' →
      mops_allowed ops m' outs m'' → mops_allowed (op :: ops) m (out :: outs) m''.

Lemma Map_Insert_spec t m k v a : t_models t m →
  ∃ st t', Map_Insert t k v a = Ret (st, t') ∧
    match st with
    | OutOfMemory => (value_mem a && table_mem a && key_mem a = false ∨ 2 ^ 30 ≤ Z.of_nat (size m)) ∧
                     (t_models t' m ∨ t_models t' (delete k m))
    | _ => t_models t' (<[k := v]> m)
    end.
Proof.
  intros Hm. unfold Map_Insert. destruct (is_string v && negb (value_mem a)) eqn:Es.
  { apply andb_true_iff in Es as [_ Es%negb_true_iff]. do 2 eexists. split; [done|].
    rewrite Es. auto. }
  destruct (t_remove_ok t m k Hm) as (t1 & -> & Hm1). rewrite bind_Ret. cbn beta iota.
  destruct (t_insert_ok t1 (delete k m) k v (table_mem a) (key_mem a) Hm1) as (b & t2 & -> & Hm2 & Hb).
  { apply lookup_delete_eq. }
  rewrite bind_Ret. cbn beta iota. do 2 eexists. split; [done|]. destruct b; simpl.
  - rewrite insert_delete_eq in Hm2. by destruct (m !! k).
  - split; [|by right]. destruct (table_mem a), (key_mem a); rewrite ?andb_false_r; auto.
    right. apply Z.nlt_ge. intros Hlt. discriminate Hb; [done..|].
    assert (size (delete k m) ≤ size m)%nat by (apply map_subseteq_size, delete_subseteq). lia.
Qed.

#[local] Ltac eval_call :=
  unfold run_mop, void, Map_GetItem, Map_Exists, Map_SetItem, Map_DeleteItem, Map_Clear, Map_Size,
    with_fdef, with_ptr, table_op, of_outcome, cmodify, cget, mret, cmd_ret, mbind, cmd_bind;
  cbn [live has_ptr has_fdef negb orb].

(** One call. *)
Lemma mop_simulates op t m : t_models t m → Z.of_nat (size m) ≤ INT32_MAX →
  ∃ out t' m', run_mop live op t = (out, t') ∧ t_models t' m' ∧
    (spec_mop op m = (out, m') ∨ oom_mop op m out m').
Proof.
  intros Hm Hsz. destruct op as [k|k|k v a|k| |]; eval_call; unfold spec_mop, with_arg.
  - destruct (key_arg k); [|by eauto 10..]. rewrite (t_lookup_ok _ _ _ Hm).
    destruct (m !! a); eauto 10.
  - destruct (key_arg k); [|by eauto 10..]. rewrite (t_lookup_ok _ _ _ Hm). eauto 10.
  - destruct (key_arg k) as [k'| |] eqn:Ek; [|by eauto 10..].
    destruct (val_arg v) as [v'| |]; [|by eauto 10..].
    destruct (Map_Insert_spec t m k' v' a Hm) as (st & t' & -> & Hst).
    destruct st; [by eauto 10..|]. destruct Hst as [Hno [Ht|Ht]]; do 3 eexists; (split; [done|]);
      (split; [done|]); right; unfold oom_mop; eauto 10.
  - destruct (key_arg k) as [k'| |]; [|by eauto 10..].
    destruct (t_remove_ok t m k' Hm) as (t' & -> & Ht'). eauto 10.
  - do 3 eexists. split; [done|]. split; [by eapply t_clear_ok|]. by left.
  - rewrite (t_count_ok _ _ Hm), i32_small by (unfold INT32_MAX in *; lia). eauto 10.
Qed.

(** The largest the map gets. *)
Definition grows (op : mop) : Z := match op with MSet _ _ _ => 1 | _ => 0 end.

Lemma spec_mop_size op m out m' : spec_mop op m = (out, m') ∨ oom_mop op m out m' →
  Z.of_nat (size m') ≤ Z.of_nat (size m) + grows op.
Proof.
  intros [Hs|Ho].
  - destruct op; simpl in *; unfold with_arg in *; repeat case_match; simplify_eq/=; try lia.
    + rewrite map_size_insert. case_match; simpl; lia.
    + rewrite map_size_delete. case_match; simpl; lia.
    + rewrite map_size_empty. lia.
  - destruct op; simpl in Ho |- *; try done. destruct Ho as (_ & _ & k' & _ & [->| ->]); [lia|].
    rewrite map_size_delete. case_match; simpl; lia.
Qed.

(** C4: the map field of a live wrapper refines a finite map, on either kind of table.
    Whatever calls Perl code makes on it in whatever order, as long as it stays below
    2^31 entries: every answer, croaks of the conversions included, and the entries
    left are those of the map operations; only an assignment that finds no memory
    (or already 2^30 entries) answers as if it had succeeded and leaves the map as it
    was, or without the entry it was to replace.  *)
Theorem Map_refines_gmap ops : ∀ t m,
  t_models t m →
  Z.of_nat (size m) + foldr Z.add 0 (grows <$> ops) ≤ INT32_MAX →
  ∃ outs t' m', run_mops live ops t = (outs, t') ∧ mops_allowed ops m outs m' ∧ t_models t' m'.
Proof.
  induction ops as [|op ops IH]; intros t m Hm Hsz; csimpl in *.
  { eexists _, _, m. split; [done|]. split; [constructor|done]. }
  assert (0 ≤ foldr Z.add 0 (grows <$> ops)) as Hpos.
  { clear. induction ops as [|o ops IH]; csimpl; [done|]. destruct o; simpl; lia. }
  destruct (mop_simulates op t m Hm) as (out & t' & m' & -> & Hm' & Hs).
  { destruct op; simpl in *; lia. }
  destruct (IH t' m' Hm') as (outs & t2 & m2 & -> & Ha & Hm2).
  { pose proof (spec_mop_size _ _ _ _ Hs). lia. }
  do 3 eexists. split; [done|]. split; [by econstructor|done].
Qed.

(** ** The iterator *)

(** [PerlUpb_MapIterator]; [cur]: the entry in [key] and [val], which hold nothing
    before the first entry. *)
Record map_iter := { it : Z; cur : option (K * value) }.
Definition GetIterator : map_iter := {| it := -1; cur := None |}.

(** The map and the iterator, [None] once freed. *)
Notation icall := (cmd (T * option map_iter)).

Definition Iterator_NextKey (has_map : bool) : icall sv := λ s,
  match s with
  | (_, None) => (Ret Undef, s)
  | (t, Some iter) =>
      if negb has_map then (Ret Undef, s)
      else match t_next t (it iter) with
           | (Some (k, v), j) => (key_out k, (t, Some {| it := j; cur := Some (k, v) |}))
           | (None, j) => (Ret Undef, (t, Some {| it := j; cur := cur iter |}))
           end
  end.

Definition Iterator_Value : icall sv := λ s,
  match s with
  | (_, None) => (Ret Undef, s)
  | (_, Some iter) =>
      match cur iter with
      | None => (Fault "read of an uninitialised value", s)
      | Some (_, v) => (val_out v, s)
      end
  end.

Definition MapIterator_Free : icall unit := λ s, (Ret tt, (s.1, None)).

(** [while (defined($k = $iter->next_key)) { push @pairs, [$k, $iter->value] }]. *)
Fixpoint each (fuel : nat) : icall (list (sv * sv)) :=
  match fuel with
  | O => mret []
  | S fuel =>
      k ← Iterator_NextKey true;
      match k with
      | Undef => mret []
      | k => v ← Iterator_Value; rest ← each fuel; mret ((k, v) :: rest)
      end
  end.

Lemma key_out_defined k s : key_out k = Ret s → s ≠ Undef.
Proof.
  unfold key_out, convert_singular_to_sv, newSVuv, I64ToSV, U64ToSV, newSVuv.
  destruct (f_type key_f), (fromkey k); intros [= <-]; repeat case_match; done.
Qed.

(** The Perl pair of an entry. *)
Definition pair_out (kv : K * value) (out : sv * sv) : Prop :=
  key_out kv.1 = Ret out.1 ∧ val_out kv.2 = Ret out.2.

Lemma each_walk t l : ∀ fuel outs iter, Forall2 pair_out l outs → walk t (it iter) l →
  (length l < fuel)%nat →
  ∃ iter', each fuel (t, Some iter) = (Ret outs, (t, Some iter')) ∧ t_next t (it iter') = (None, it iter').
Proof.
  induction l as [|[k v] l IH]; intros [|fuel] outs iter Ho Hw Hf; simpl in Hf; try lia; simpl.
  - inversion Ho; subst. destruct Hw as (j & Hj & Hend). unfold mbind, cmd_bind, Iterator_NextKey. simpl.
    rewrite Hj. simpl. eexists. split; [done|]. done.
  - inversion Ho as [|? [ks vs] ? outs' [Hk Hv] Ho']; subst. destruct Hw as (j & Hj & Hw). simpl in Hk, Hv.
    destruct (IH fuel outs' {| it := j; cur := Some (k, v) |} Ho' Hw) as (iter' & E & Hend); [lia|].
    exists iter'. split; [|done]. pose proof (key_out_defined _ _ Hk) as Hd.
    rewrite (cbind_ret _ _ _ ks (t, Some {| it := j; cur := Some (k, v) |})).
    2: { unfold Iterator_NextKey. simpl. by rewrite Hj, Hk. }
    assert ((v0 ← Iterator_Value; rest ← each fuel; mret ((ks, v0) :: rest))
              (t, Some {| it := j; cur := Some (k, v) |}) = (Ret ((ks, vs) :: outs'), (t, Some iter'))) as Ht.
    { rewrite (cbind_ret _ _ _ vs (t, Some {| it := j; cur := Some (k, v) |})) by (simpl; by rewrite Hv).
      by rewrite (cbind_ret _ _ _ _ _ E). }
    by destruct ks.
Qed.

(** C22: an iterator over a map that does not change meets every entry exactly once,
    key and value together, and then answers undef for ever.  *)
Theorem each_complete t m :
  t_models t m → (∀ kv, kv ∈ map_to_list m → ∃ o, pair_out kv o) →
  ∃ l outs iter', each (S (size m)) (t, Some GetIterator) = (Ret outs, (t, Some iter')) ∧
    l ≡ₚ map_to_list m ∧ Forall2 pair_out l outs ∧
    Iterator_NextKey true (t, Some iter') = (Ret Undef, (t, Some iter')).
Proof.
  intros Hm Hout. destruct (t_walk_ok t m Hm) as (l & Hw & Hp).
  assert (∃ outs, Forall2 pair_out l outs) as [outs Ho].
  { assert (∀ kv, kv ∈ l → ∃ o, pair_out kv o) as Hl.
    { intros kv Hkv. apply Hout. by rewrite <- Hp. }
    clear Hw Hp. induction l as [|kv l IH]; [by exists []|].
    destruct IH as [outs Ho]; [intros; apply Hl; set_solver|].
    destruct (Hl kv) as [o Hkv]; [set_solver|]. exists (o :: outs). by constructor. }
  destruct (each_walk t l (S (size m)) outs GetIterator Ho Hw) as (iter' & E & Hend).
  { rewrite Hp, length_map_to_list. lia. }
  exists l, outs, iter'. split_and!; [done..|]. unfold Iterator_NextKey. simpl. rewrite Hend. by destruct iter'.
Qed.

(** ** The hash of all entries *)

(** [SvPVutf8] for a string key field and [SvPVbyte] for the others. *)
Definition key_bytes (s : sv) : outcome bytes :=
  match s, f_type key_f with
  | PV b utf8, TString => Ret (SvPVutf8 b utf8)
  | PV b utf8, _ => SvPVbyte b utf8
  | _, _ => Ret (hash_key s).1
  end.

(** [hv_store] with a positive length: a key without the UTF-8 flag. *)
Fixpoint hv_store (h : list (bytes * bool * sv)) (k : bytes) (v : sv) : list (bytes * bool * sv) :=
  match h with
  | [] => [(k, false, v)]
  | (k', flag, v') :: h =>
      if bool_decide (k' = k) && negb flag then (k, false, v) :: h else (k', flag, v') :: hv_store h k v
  end.

Fixpoint as_hash_loop (t : T) (fuel : nat) (iter : Z) (h : list (bytes * bool * sv))
  : outcome (list (bytes * bool * sv)) :=
  match fuel with
  | O => Fault "endless iteration"
  | S fuel =>
      match t_next t iter with
      | (None, _) => Ret h
      | (Some (k, v), j) =>
          k_sv ← key_out k;
          v_sv ← val_out v;
          key_str ← key_bytes k_sv;
          as_hash_loop t fuel j (hv_store h key_str v_sv)
      end
  end.

Definition Map_AsHash (self : handle) : call sv :=
  with_fdef self Undef $
  t ← cget;
  h ← of_outcome (as_hash_loop t (S (Z.to_nat (t_count t))) (-1) []);
  mret (HashRef h).

(** The entry of the hash for an entry of the map. *)
Definition hash_out (kv : K * value) (e : bytes * bool * sv) : Prop :=
  e.1.2 = false ∧ (k ← key_out kv.1; key_bytes k) = Ret e.1.1 ∧ val_out kv.2 = Ret e.2.

Lemma hv_store_fresh h k v : k ∉ h.*1.*1 → hv_store h k v = h ++ [(k, false, v)].
Proof.
  induction h as [|[[k' fl] v'] h IH]; csimpl; [done|]. intros [Hne Hh]%not_elem_of_cons.
  rewrite bool_decide_eq_false_2 by done. simpl. by rewrite IH.
Qed.

Lemma as_hash_walk t l : ∀ fuel iter h outs, Forall2 hash_out l outs → walk t iter l →
  (length l < fuel)%nat → NoDup (h ++ outs).*1.*1 →
  as_hash_loop t fuel iter h = Ret (h ++ outs).
Proof.
  induction l as [|[k v] l IH]; intros [|fuel] iter h outs Ho Hw Hf Hnd; simpl in Hf; try lia; simpl.
  - inversion Ho; subst. destruct Hw as (j & -> & _). by rewrite app_nil_r.
  - inversion Ho as [|? [[kb fl] vs] ? outs' (Hfl & Hk & Hv) Ho']; subst. simpl in *. subst fl.
    destruct Hw as (j & -> & Hw). destruct (key_out k) as [ks| |]; try done. simpl in Hk |- *.
    rewrite Hv. simpl. rewrite Hk. simpl.
    rewrite hv_store_fresh.
    + rewrite (IH fuel j _ outs' Ho' Hw); [by rewrite <- app_assoc|lia|by rewrite <- app_assoc].
    + rewrite !fmap_app in Hnd. csimpl in Hnd. apply NoDup_app in Hnd as (_ & Hnd & _).
      intros Hin. apply (Hnd kb Hin). by left.
Qed.

(** The hash has one entry per entry of the map, all with keys that do not carry the
    UTF-8 flag. *)
Lemma AsHash_spec t m l outs :
  t_models t m → walk t (-1) l → l ≡ₚ map_to_list m → Forall2 hash_out l outs → NoDup outs.*1.*1 →
  Map_AsHash live t = (Ret (HashRef outs), t).
Proof.
  intros Hm Hw Hp Ho Hnd. unfold Map_AsHash, with_fdef. cbn [live has_ptr has_fdef negb orb].
  unfold mbind, cmd_bind, cget, of_outcome. rewrite (t_count_ok _ _ Hm), Nat2Z.id.
  rewrite (as_hash_walk t l _ _ [] outs Ho Hw); [done| |done].
  rewrite Hp, length_map_to_list. lia.
Qed.
End Map.

(** ** A [map<int32, int32>] and a [map<string, int32>] *)

#[local] Existing Instance inttable.
#[local] Existing Instance inttable_laws.

Definition int_key := field0 "key" 1 TInt32.
Definition str_key := field0 "key" 1 TString.
Definition int_val := field0 "value" 2 TInt32.

Definition empty_ints : upb_inttable value :=
  {| array0 := None; hpart := {| entries := replicate 8 None; count := 0; mask := 7 |} |}.

Lemma empty_ints_models : int_models empty_ints ∅.
Proof. split; [done|]. rewrite delete_empty. by apply (init_models upb_inthash 3 true). Qed.

Definition enough : answers := {| value_mem := true; table_mem := true; key_mem := true |}.

Definition some_calls : list mop :=
  [MSet (IV (-1)) (IV 7) enough; MSet (PV (str "0") false) (IV 8) enough; MGet (IV (-1));
   MDelete (IV 0); MExists (IV 0); MGet (PV (str "x") false); MSize].

#[local] Existing Instance digit_num.
Lemma Map_refines_gmap_witness :
  ∃ outs t' m', run_mops points (λ _, true) int_key int_val tointkey live some_calls empty_ints = (outs, t') ∧
    mops_allowed points (λ _, true) int_key int_val tointkey some_calls ∅ outs m' ∧ t_models t' m'.
Proof.
  apply (Map_refines_gmap points (λ _, true) int_key int_val tointkey some_calls empty_ints ∅).
  - exact empty_ints_models.
  - by_compute.
Defined.

Example some_calls_answers :
  (run_mops points (λ _, true) int_key int_val tointkey live some_calls empty_ints).1 =
  [Ret Undef; Ret Undef; Ret (IV 7); Ret Undef; Ret (PV [] false); Croak "Expected an Integer"; Ret (IV 1)].
Proof. vm_compute. reflexivity. Qed.

Definition one_int : upb_inttable value :=
  {| array0 := Some (VInt32 5); hpart := {| entries := replicate 8 None; count := 0; mask := 7 |} |}.

Lemma one_int_models : int_models one_int {[0 := VInt32 5]}.
Proof.
  split; [done|]. replace (delete 0 {[0 := VInt32 5]}) with (∅ : gmap Z value) by (vm_compute; reflexivity).
  by apply (init_models upb_inthash 3 true).
Qed.

Lemma each_complete_witness :
  ∃ l outs iter', each int_key int_val (fromintkey TInt32) (S (size ({[0 := VInt32 5]} : gmap Z value)))
      (one_int, Some GetIterator) = (Ret outs, (one_int, Some iter')) ∧
    l ≡ₚ map_to_list ({[0 := VInt32 5]} : gmap Z value) ∧
    Forall2 (pair_out int_key int_val (fromintkey TInt32)) l outs ∧
    Iterator_NextKey int_key (fromintkey TInt32) true (one_int, Some iter') = (Ret Undef, (one_int, Some iter')).
Proof.
  apply (each_complete int_key int_val (fromintkey TInt32) one_int {[0 := VInt32 5]}).
  - exact one_int_models.
  - intros kv Hkv. rewrite map_to_list_singleton in Hkv. apply list_elem_of_singleton in Hkv as ->.
    exists (IV 0, IV 5). by split.
Defined.

(** A string key outside ASCII comes out of [AsHash] as its UTF-8 bytes read as Latin-1. *)
Example AsHash_key_bytes :
  let e_acute := [195; 169] in
  let t := {| entries := [Some {| key := e_acute; val := VInt32 5; next := None |}]; count := 1; mask := 0 |} in
  (@Map_AsHash _ _ (strtable (λ _, 0)) str_key int_val VStr live t).1 =
    Ret (HashRef [(e_acute, false, IV 5)]) ∧
  (@Iterator_NextKey _ _ (strtable (λ _, 0)) str_key VStr true (t, Some GetIterator)).1 =
    Ret (PV e_acute true).
Proof. vm_compute. auto. Qed.
