(* ===== verification/Accessors.v ===== *)
(** * Field access and the memoizing accessors (xs/message/access.c,
    xs/protobuf/fast_accessors.c)

    The operations on one field of a message, and the XSUBs installed for the fields of
    a message class, which keep the answers of the getters in a hash of the object. *)

From S2P Require Import Prelude PerlNumbers Convert Handles.

(** ** The values of fields

    What the accessors need of the conversions.  [V]: a scalar, or the identity of a
    sub-message or container. *)
Class FieldValues (V : Type) := {
  fv_default : FieldDef → V;
  fv_to_sv : V → FieldDef → outcome sv;
  fv_of_sv : sv → FieldDef → outcome V;
}.

(** A message object: the pointers behind it and its magic, the set fields, the hash
    under ["_cache"], and the two flags in [mg_private]. *)
Record message (V : Type) := {
  xs_backed : bool;
  has_msg : bool;
  has_magic : bool;
  write_heavy : bool;
  fields : gmap Z V;
  cache : option (gmap bytes sv);
  dirty : bool;
}.
Arguments xs_backed {_} _.
Arguments has_msg {_} _.
Arguments has_magic {_} _.
Arguments write_heavy {_} _.
Arguments fields {_} _.
Arguments cache {_} _.
Arguments dirty {_} _.
Arguments Build_message {_} _ _ _ _ _ _ _.

Section Accessors.
Context {V : Type} `{FieldValues V}.

(** The fields of the message type, which of them have presence, and which share a
    oneof. *)
Variables (fs : list FieldDef) (presence : FieldDef → bool) (siblings : FieldDef → Z → bool).

(** The methods of messages that are not XS-backed. *)
Notation call := (cmd (message V)).
Variables (perl_set : FieldDef → sv → call unit) (perl_get perl_has : FieldDef → call sv)
          (perl_clear : FieldDef → call unit).

Definition set_fields (m : gmap Z V) : call unit :=
  cmodify (λ s, Build_message (xs_backed s) (has_msg s) (has_magic s) (write_heavy s) m (cache s) (dirty s)).
Definition set_cache (c : option (gmap bytes sv)) : call unit :=
  cmodify (λ s, Build_message (xs_backed s) (has_msg s) (has_magic s) (write_heavy s) (fields s) c (dirty s)).
Definition set_dirty (d : bool) : call unit :=
  cmodify (λ s, Build_message (xs_backed s) (has_msg s) (has_magic s) (write_heavy s) (fields s) (cache s) d).

(** ** access.c *)

(** [upb_Message_Mutable] on a container: the one there is, or the new one the arena
    gives. *)
Definition Mutable (f : FieldDef) (made : V) : call V :=
  s ← cget;
  match fields s !! f_number f with
  | Some v => mret v
  | None => set_fields (<[f_number f := made]> (fields s));; mret made
  end.

Definition Message_GetField (f : FieldDef) (made : V) : call sv :=
  s ← cget;
  cguard (has_msg s) "Invalid message object";;
  if f_repeated f || f_map f
  then val ← Mutable f made; of_outcome (fv_to_sv val f)
  else of_outcome (fv_to_sv (default (fv_default f) (fields s !! f_number f)) f).

(** Setting a member of a oneof unsets the others. *)
Definition SetFieldByDef (m : gmap Z V) (f : FieldDef) (v : V) : gmap Z V :=
  <[f_number f := v]> (filter (λ nv, siblings f nv.1 = false) m).

Definition Message_SetField (f : FieldDef) (val_sv : sv) : call unit :=
  s ← cget;
  cguard (has_msg s) "Invalid message object";;
  val ← of_outcome (fv_of_sv val_sv f);
  set_fields (SetFieldByDef (fields s) f val).

Definition Message_HasField (f : FieldDef) : call bool :=
  s ← cget;
  cguard (has_msg s) "Invalid message object";;
  cguard (presence f) "Field does not have presence";;
  mret (bool_decide (is_Some (fields s !! f_number f))).

Definition Message_ClearField (f : FieldDef) : call unit :=
  s ← cget;
  cguard (has_msg s) "Invalid message object";;
  set_fields (delete (f_number f) (fields s)).

(** ** fast_accessors.c *)

(** After a change: the cache is out of date, unless it is never used. *)
Definition mark_dirty : call unit :=
  s ← cget;
  if has_magic s && negb (write_heavy s) then set_dirty true else mret tt.

Definition set_and_mark (f : FieldDef) (val_sv : sv) : call unit :=
  Message_SetField f val_sv;; mark_dirty.

Definition SvOK (s : sv) : bool := match s with Undef => false | _ => true end.

Definition cached_get (f : FieldDef) (made : V) : call sv :=
  s ← cget;
  (if has_magic s && dirty s then set_cache None;; set_dirty false else mret tt);;
  s ← cget;
  let cache_hv := default ∅ (cache s) in
  set_cache (Some cache_hv);;
  let fetch :=
    result ← Message_GetField f made;
    set_cache (Some (<[f_name f := result]> cache_hv));;
    mret result in
  match cache_hv !! f_name f with
  | Some cached => if SvOK cached then mret cached else fetch
  | None => fetch
  end.

(** [PerlUpb_FastAccessor]: [$msg->field] and [$msg->field($value)]. *)
Definition FastAccessor (f : FieldDef) (arg : option sv) (made : V) : call sv :=
  s ← cget;
  if negb (xs_backed s) then
    match arg with
    | Some v => void (perl_set f v)
    | None => perl_get f
    end
  else
    match arg with
    | Some v => void (set_and_mark f v)
    | None =>
        if has_magic s && write_heavy s then Message_GetField f made
        else cached_get f made
    end.

Definition FastSetter (f : FieldDef) (v : sv) : call sv :=
  s ← cget;
  void (if negb (xs_backed s) then perl_set f v else set_and_mark f v).

Definition FastHas (f : FieldDef) : call sv :=
  s ← cget;
  if negb (xs_backed s) then perl_has f
  else b ← Message_HasField f; mret (yesno b).

Definition FastClear (f : FieldDef) : call sv :=
  s ← cget;
  void (if negb (xs_backed s) then perl_clear f else Message_ClearField f;; mark_dirty).

(** The calls, with the container the arena would give. *)
Inductive acall :=
  | AGet (f : FieldDef) (made : V) | ASet (f : FieldDef) (v : sv) | ASetter (f : FieldDef) (v : sv)
  | AHas (f : FieldDef) | AClear (f : FieldDef).

Definition run_acall (c : acall) : call sv :=
  match c with
  | AGet f made => FastAccessor f None made
  | ASet f v => FastAccessor f (Some v) (fv_default f)
  | ASetter f v => FastSetter f v
  | AHas f => FastHas f
  | AClear f => FastClear f
  end.

Fixpoint run_acalls (cs : list acall) (s : message V) : list (outcome sv) * message V :=
  match cs with
  | [] => ([], s)
  | c :: cs =>
      let '(out, s) := run_acall c s in
      let '(outs, s) := run_acalls cs s in (out :: outs, s)
  end.

(** ** The same without a cache *)

Definition plain_acall (c : acall) : call sv :=
  match c with
  | AGet f made => Message_GetField f made
  | ASet f v | ASetter f v => void (Message_SetField f v)
  | AHas f => b ← Message_HasField f; mret (yesno b)
  | AClear f => void (Message_ClearField f)
  end.

Fixpoint plain_acalls (cs : list acall) (s : message V) : list (outcome sv) * message V :=
  match cs with
  | [] => ([], s)
  | c :: cs =>
      let '(out, s) := plain_acall c s in
      let '(outs, s) := plain_acalls cs s in (out :: outs, s)
  end.

Definition acall_field (c : acall) : FieldDef :=
  match c with AGet f _ | ASet f _ | ASetter f _ | AHas f | AClear f => f end.

(** What a field reads as now, without touching the message. *)
Definition reads_as (m : gmap Z V) (f : FieldDef) (s : sv) : Prop :=
  match m !! f_number f with
  | Some v => fv_to_sv v f = Ret s
  | None => f_repeated f || f_map f = false ∧ fv_to_sv (fv_default f) f = Ret s
  end.

(** The cache is out of date or right. *)
Definition coherent (s : message V) : Prop :=
  xs_backed s = true ∧ has_magic s = true ∧ has_msg s = true ∧
  (dirty s = true ∨ write_heavy s = true ∨
   ∀ f x, f ∈ fs → default ∅ (cache s) !! f_name f = Some x → x ≠ Undef → reads_as (fields s) f x).

(** The same message, but for the cache. *)
Definition same_message (s p : message V) : Prop := fields s = fields p ∧ has_msg s = has_msg p.

Hypothesis names_distinct : ∀ f g, f ∈ fs → g ∈ fs → f_name f = f_name g → f = g.
Hypothesis numbers_distinct : ∀ f g, f ∈ fs → g ∈ fs → f_number f = f_number g → f = g.

#[local] Ltac reduce := cbn [xs_backed has_msg has_magic write_heavy fields cache dirty negb andb orb].
#[local] Ltac eval_call :=
  unfold run_acall, plain_acall, FastAccessor, FastSetter, FastHas, FastClear, set_and_mark, mark_dirty,
    Message_SetField, Message_HasField, Message_ClearField, Message_GetField, Mutable,
    set_fields, set_cache, set_dirty, void, of_outcome, cguard, ccroak, cmodify, cget, mret, cmd_ret, mbind, cmd_bind;
  reduce.

(** Reading a field of a live message: it may give the field its container. *)
Lemma GetField_live f made s : has_msg s = true →
  ∃ out m', Message_GetField f made s =
      (out, Build_message (xs_backed s) (has_msg s) (has_magic s) (write_heavy s) m' (cache s) (dirty s)) ∧
    (m' = fields s ∨
     (f_repeated f || f_map f = true ∧ fields s !! f_number f = None ∧ m' = <[f_number f := made]> (fields s))) ∧
    (∀ x, out = Ret x → reads_as m' f x).
Proof.
  intros Hm. destruct s as [b hm mg wh m c d]. simpl in *. subst hm. eval_call. unfold reads_as.
  destruct (f_repeated f || f_map f) eqn:Ec; reduce.
  - destruct (m !! f_number f) as [v|] eqn:Ev.
    + exists (fv_to_sv v f), m. split_and!; [done|by left|]. intros x Hx. by rewrite Ev.
    + eexists _, _. split_and!; [done|right; by split_and!|]. intros x Hx. by rewrite lookup_insert_eq.
  - eexists _, m. split_and!; [done|by left|]. intros x Hx. destruct (m !! f_number f); [done|by split].
Qed.

Lemma reads_as_mono m f made g x : f ∈ fs → g ∈ fs →
  f_repeated f || f_map f = true → m !! f_number f = None →
  reads_as m g x → reads_as (<[f_number f := made]> m) g x.
Proof.
  unfold reads_as. intros Hf Hg Hc Hn Hr. destruct (decide (f_number f = f_number g)) as [E|E].
  - pose proof (numbers_distinct _ _ Hf Hg E). subst g. rewrite Hn in Hr. destruct Hr. congruence.
  - by rewrite lookup_insert_ne.
Qed.

(** Reading what reads as [x]. *)
Lemma GetField_reads f made s x : has_msg s = true → reads_as (fields s) f x →
  Message_GetField f made s = (Ret x, s).
Proof.
  intros Hm Hr. destruct s as [b hm mg wh m c d]. simpl in *. subst hm. unfold reads_as in Hr. eval_call.
  destruct (m !! f_number f) as [v|] eqn:Ev; simpl in *.
  - destruct (f_repeated f || f_map f); reduce; rewrite ?Ev; simpl; by rewrite Hr.
  - destruct Hr as [-> ->]. done.
Qed.

(** One call. *)
Definition simulated (c : acall) (s p : message V) : Prop :=
  ∃ out s' p', run_acall c s = (out, s') ∧ plain_acall c p = (out, p') ∧
    coherent s' ∧ same_message s' p'.

Lemma coherent_live s : coherent s → xs_backed s = true ∧ has_magic s = true ∧ has_msg s = true.
Proof. unfold coherent. tauto. Qed.

Lemma GetField_same f made s p : same_message s p → has_msg s = true →
  ∃ out m', Message_GetField f made s =
      (out, Build_message (xs_backed s) (has_msg s) (has_magic s) (write_heavy s) m' (cache s) (dirty s)) ∧
    Message_GetField f made p =
      (out, Build_message (xs_backed p) (has_msg p) (has_magic p) (write_heavy p) m' (cache p) (dirty p)).
Proof.
  intros [Hf Hh] Hm. destruct s as [b hm mg wh m c d], p as [b' hm' mg' wh' m' c' d']. simpl in *. subst.
  eval_call. destruct (f_repeated f || f_map f); reduce.
  - destruct (m' !! f_number f); reduce; eauto.
  - eauto.
Qed.

(** Nothing in the cache: the field is read, and what it reads as is kept. *)
Lemma fetch_simulated f made s p : f ∈ fs → same_message s p → coherent s → write_heavy s = false →
  dirty s = false →
  let fetch := result ← Message_GetField f made;
    set_cache (Some (<[f_name f := result]> (default ∅ (cache s))));; mret result in
  ∃ out s' p', fetch s = (out, s') ∧ Message_GetField f made p = (out, p') ∧
    coherent s' ∧ same_message s' p'.
Proof.
  intros Hf Hsame Hc Hwh Hd fetch. pose proof (coherent_live _ Hc) as (Hb & Hmg & Hm).
  destruct (GetField_live f made s Hm) as (out & m' & E & Hm' & Hr).
  destruct (GetField_same f made s p Hsame Hm) as (out2 & m2 & E2 & E3).
  rewrite E in E2. injection E2 as <- <-.
  assert (∀ g x, g ∈ fs → reads_as (fields s) g x → reads_as m' g x) as Hmono.
  { intros g x Hg Hx. destruct Hm' as [->|(? & ? & ->)]; [done|]. by apply reads_as_mono. }
  destruct Hc as (_ & _ & _ & [?|[?|Hc]]); [congruence..|].
  assert (∀ c, (∀ g x, g ∈ fs → c !! f_name g = Some x → x ≠ Undef → reads_as m' g x) →
    coherent (Build_message (xs_backed s) (has_msg s) (has_magic s) (write_heavy s) m' (Some c) (dirty s))) as Hco.
  { intros c Hcc. split_and!; [done..|]. right. right. done. }
  unfold fetch. destruct out as [x|msg|why].
  - rewrite (cbind_ret _ _ _ _ _ E). rewrite E3. do 3 eexists. split; [reflexivity|]. split; [done|].
    split; [|by split; [|apply Hsame]]. apply Hco. intros g y Hg Hy Hne. destruct (decide (f_name f = f_name g)) as [En|En].
    + pose proof (names_distinct _ _ Hf Hg En). subst g. rewrite lookup_insert_eq in Hy. simplify_eq. by apply Hr.
    + rewrite lookup_insert_ne in Hy by done. apply Hmono; [done|]. by apply Hc.
  - rewrite (cbind_croak _ _ _ _ _ E), E3. do 3 eexists. split; [reflexivity|]. split; [done|].
    split; [|by split; [|apply Hsame]]. split_and!; [done..|]. right. right.
    intros g y Hg Hy Hne. apply Hmono; [done|]. by apply Hc.
  - rewrite (cbind_fault _ _ _ _ _ E), E3. do 3 eexists. split; [reflexivity|]. split; [done|].
    split; [|by split; [|apply Hsame]]. split_and!; [done..|]. right. right.
    intros g y Hg Hy Hne. apply Hmono; [done|]. by apply Hc.
Qed.

Lemma cached_get_simulated f made s p : f ∈ fs → same_message s p → coherent s → write_heavy s = false →
  ∃ out s' p', cached_get f made s = (out, s') ∧ Message_GetField f made p = (out, p') ∧
    coherent s' ∧ same_message s' p'.
Proof.
  intros Hf Hsame Hc Hwh. pose proof (coherent_live _ Hc) as (Hb & Hmg & Hm).
  set (c1 := if dirty s then None else cache s).
  set (s1 := Build_message (xs_backed s) (has_msg s) (has_magic s) (write_heavy s) (fields s)
               (Some (default ∅ c1)) false).
  assert (coherent s1) as Hc1.
  { split_and!; [done..|]. right. right. simpl. intros g x Hg Hx Hne. unfold c1 in Hx.
    destruct (dirty s) eqn:Hd; [simpl in Hx; by rewrite lookup_empty in Hx|].
    destruct Hc as (_ & _ & _ & [?|[?|Hc]]); [congruence..|]. by apply Hc. }
  assert (same_message s1 p) as Hs1 by done.
  pose proof (fetch_simulated f made s1 p Hf Hs1 Hc1 Hwh eq_refl) as Hfetch.
  assert (cached_get f made s =
    match default ∅ c1 !! f_name f with
    | Some cached => if SvOK cached then mret cached else
        result ← Message_GetField f made;
        set_cache (Some (<[f_name f := result]> (default ∅ c1)));; mret result
    | None => result ← Message_GetField f made;
        set_cache (Some (<[f_name f := result]> (default ∅ c1)));; mret result
    end s1) as ->.
  { unfold cached_get, c1, s1. destruct s as [b hm mg wh m c d]. simpl in *. subst.
    unfold set_cache, set_dirty, cmodify, cget, mret, cmd_ret, mbind, cmd_bind. destruct d; reflexivity. }
  simpl in Hfetch. destruct (default ∅ c1 !! f_name f) as [x|] eqn:Ex; [|done].
  destruct (SvOK x) eqn:Eok; [|done].
  assert (reads_as (fields s) f x) as Hr.
  { destruct Hc1 as (_ & _ & _ & [?|[?|Hc1]]); [done|simpl in *; congruence|].
    apply (Hc1 f x); [done|done|by destruct x]. }
  exists (Ret x), s1, p. split_and!; [done| |done|done].
  apply GetField_reads; [by rewrite <- (proj2 Hsame)|by rewrite <- (proj1 Hsame)].
Qed.

Lemma acall_simulated c s p : acall_field c ∈ fs → same_message s p → coherent s → simulated c s p.
Proof.
  intros Hf Hsame Hc. pose proof (coherent_live _ Hc) as (Hb & Hmg & Hm). unfold simulated.
  assert (∀ m', let s' := Build_message (xs_backed s) (has_msg s) (has_magic s) (write_heavy s) m' (cache s)
                  (if negb (write_heavy s) then true else dirty s) in coherent s') as Hdirty.
  { intros m'. split_and!; [done..|]. simpl. destruct (write_heavy s); auto. }
  destruct c as [f made|f v|f v|f|f]; simpl in Hf.
  - unfold run_acall, plain_acall, FastAccessor.
    rewrite (cbind_ret _ _ _ s s) by done. rewrite Hb, Hmg. simpl.
    destruct (write_heavy s) eqn:Hwh; [|by apply cached_get_simulated].
    destruct (GetField_same f made s p Hsame Hm) as (out & m2 & -> & ->).
    do 3 eexists. split_and!; [done..| |by split; [|apply Hsame]]. split_and!; [done..|]. auto.
  - destruct s as [b hm mg wh m ca d], p as [b' hm' mg' wh' m' ca' d']. destruct Hsame as [E1 E2].
    simpl in *. subst. eval_call. destruct (fv_of_sv v f) as [x| |]; reduce.
    + destruct wh; reduce; do 3 eexists; (split_and!; [done..|apply Hdirty|done]).
    + do 3 eexists; split_and!; done.
    + do 3 eexists; split_and!; done.
  - destruct s as [b hm mg wh m ca d], p as [b' hm' mg' wh' m' ca' d']. destruct Hsame as [E1 E2].
    simpl in *. subst. eval_call. destruct (fv_of_sv v f) as [x| |]; reduce.
    + destruct wh; reduce; do 3 eexists; (split_and!; [done..|apply Hdirty|done]).
    + do 3 eexists; split_and!; done.
    + do 3 eexists; split_and!; done.
  - destruct s as [b hm mg wh m ca d], p as [b' hm' mg' wh' m' ca' d']. destruct Hsame as [E1 E2].
    simpl in *. subst. eval_call. destruct (presence f); reduce; do 3 eexists; split_and!; done.
  - destruct s as [b hm mg wh m ca d], p as [b' hm' mg' wh' m' ca' d']. destruct Hsame as [E1 E2].
    simpl in *. subst. eval_call. destruct wh; reduce; do 3 eexists; (split_and!; [done..|apply Hdirty|done]).
Qed.

(** C12: the memoizing accessors answer like plain field access.  Whatever getters,
    setters, [has_] and [clear_] methods are called on a live message object in
    whatever order, with or without the write-heavy profile: every answer, croaks
    included, and the fields left are those of calls that read and write the message
    directly.  *)
Theorem accessors_coherent cs : ∀ s p,
  Forall (λ c, acall_field c ∈ fs) cs → same_message s p → coherent s →
  let '(outs, s') := run_acalls cs s in
  let '(outs', p') := plain_acalls cs p in
  outs = outs' ∧ fields s' = fields p' ∧ coherent s'.
Proof.
  induction cs as [|c cs IH]; intros s p Hcs Hsame Hc; simpl.
  { split_and!; [done|apply Hsame|done]. }
  inversion_clear Hcs as [|?? Hf Hcs'].
  destruct (acall_simulated c s p Hf Hsame Hc) as (out & s1 & p1 & -> & -> & Hc1 & Hsame1).
  specialize (IH s1 p1 Hcs' Hsame1 Hc1).
  destruct (run_acalls cs s1) as [outs s'], (plain_acalls cs p1) as [outs' p'].
  destruct IH as (-> & ? & ?). done.
Qed.

(** A change made past the accessors, as [clear_field] of the Perl class does with
    [PerlUpb_Message_ClearField], leaves the old answer in the cache: the getter goes
    on giving it. *)
Theorem unmarked_clear_is_stale f v x s :
  coherent s → write_heavy s = false → f_repeated f || f_map f = false → x ≠ Undef →
  fields s !! f_number f = Some v → fv_to_sv v f = Ret x → dirty s = false →
  default ∅ (cache s) !! f_name f = Some x →
  ∃ s1 s2, Message_ClearField f s = (Ret tt, s1) ∧ fields s1 !! f_number f = None ∧
    run_acall (AGet f v) s1 = (Ret x, s2).
Proof.
  intros Hc Hwh _ Hne _ _ Hd Hx. pose proof (coherent_live _ Hc) as (Hb & Hmg & Hm).
  destruct s as [b hm mg wh m c d]. simpl in *. subst. do 2 eexists. split; [done|].
  split; [apply lookup_delete_eq|]. unfold run_acall, FastAccessor, cached_get.
  unfold set_cache, set_dirty, set_fields, cmodify, cget, mret, cmd_ret, mbind, cmd_bind. reduce.
  destruct c as [c|]; simpl in Hx; [|by rewrite lookup_empty in Hx]. simpl. rewrite Hx.
  by destruct x.
Qed.
End Accessors.

(** ** [PerlUpb_InstallFastAccessors] *)

Inductive xsub := XAccessor | XSetter | XHas | XClear.

(** [snprintf] into 512 bytes. *)
Definition full_name (perl_class prefix name : bytes) : bytes :=
  take 511 (perl_class ++ str "::" ++ prefix ++ name).

Definition accessors_of (perl_class : bytes) (presence : FieldDef → bool) (f : FieldDef)
  : list (bytes * (xsub * FieldDef)) :=
  let name := full_name perl_class in
  [(name [] (f_name f), (XAccessor, f)); (name (str "set_") (f_name f), (XSetter, f))] ++
  (if presence f then [(name (str "has_") (f_name f), (XHas, f))] else []) ++
  [(name (str "clear_") (f_name f), (XClear, f))].

(** [newXS] replaces a sub of the same name. *)
Definition InstallFastAccessors (perl_class : bytes) (presence : FieldDef → bool) (fs : list FieldDef)
  (subs : gmap bytes (xsub * FieldDef)) : gmap bytes (xsub * FieldDef) :=
  foldl (λ subs f, foldl (λ subs nx, <[nx.1 := nx.2]> subs) subs (accessors_of perl_class presence f)) subs fs.

Lemma newXS_other l : ∀ (subs : gmap bytes (xsub * FieldDef)) n, n ∉ l.*1 →
  foldl (λ subs nx, <[nx.1 := nx.2]> subs) subs l !! n = subs !! n.
Proof.
  induction l as [|[n' x] l IH]; intros subs n Hn; csimpl in *; [done|].
  apply not_elem_of_cons in Hn as [Hne Hn]. rewrite IH by done. by apply lookup_insert_ne.
Qed.

Lemma newXS_all l : ∀ (subs : gmap bytes (xsub * FieldDef)) n x, NoDup l.*1 → (n, x) ∈ l →
  foldl (λ subs nx, <[nx.1 := nx.2]> subs) subs l !! n = Some x.
Proof.
  induction l as [|[n' x'] l IH]; intros subs n x Hnd Hin; csimpl in *; [by apply not_elem_of_nil in Hin|].
  apply NoDup_cons in Hnd as [Hn Hnd]. apply elem_of_cons in Hin as [[= -> ->]|Hin].
  - rewrite newXS_other by done. apply lookup_insert_eq.
  - by apply IH.
Qed.

(** Every sub is installed for its field, unless two of their names agree (within 511
    bytes). *)
Lemma InstallFastAccessors_spec perl_class presence fs subs n x :
  NoDup (fs ≫= accessors_of perl_class presence).*1 → (n, x) ∈ fs ≫= accessors_of perl_class presence →
  InstallFastAccessors perl_class presence fs subs !! n = Some x.
Proof.
  intros Hnd Hin. unfold InstallFastAccessors.
  assert (∀ subs, foldl (λ subs f, foldl (λ subs nx, <[nx.1 := nx.2]> subs) subs (accessors_of perl_class presence f)) subs fs =
    foldl (λ subs nx, <[nx.1 := nx.2]> subs) subs (fs ≫= accessors_of perl_class presence)) as ->.
  { clear. induction fs as [|f fs IH]; intros subs; [done|]. rewrite bind_cons, foldl_app, <- IH. reflexivity. }
  by apply newXS_all.
Qed.

(** A field [set_x] behind a field [x] takes the name of its setter. *)
Example accessor_collision :
  let x := field0 "x" 1 TInt32 in
  let set_x := field0 "set_x" 2 TInt32 in
  InstallFastAccessors (str "C") (λ _, true) [x; set_x] ∅ !! str "C::set_x" = Some (XAccessor, set_x).
Proof. vm_compute. reflexivity. Qed.

(** ** Scalar fields *)

#[local] Instance int32_values : FieldValues value := {|
  fv_default _ := VInt32 0;
  fv_to_sv := convert_singular_to_sv;
  fv_of_sv s f := @Convert.SvToUpb digit_num points (λ _, true) s f;
|}.

Definition fresh_message (m : gmap Z value) : message value :=
  {| xs_backed := true; has_msg := true; has_magic := true; write_heavy := false; fields := m;
     cache := None; dirty := false |}.

Definition some_acalls : list acall :=
  [AGet point_x (VInt32 0); ASet point_x (IV 5); AGet point_x (VInt32 0); AGet point_x (VInt32 0);
   AClear point_x; AHas point_x; AGet point_x (VInt32 0)].

Lemma accessors_coherent_witness :
  let '(outs, s') := run_acalls (λ _, true) (λ _ _, false) (λ _ _, mret tt) (λ _, mret Undef) (λ _, mret Undef)
                       (λ _, mret tt) some_acalls (fresh_message ∅) in
  let '(outs', p') := plain_acalls (λ _, true) (λ _ _, false) some_acalls (fresh_message ∅) in
  outs = outs' ∧ fields s' = fields p' ∧ coherent [point_x] s'.
Proof.
  apply (accessors_coherent [point_x] (λ _, true) (λ _ _, false) (λ _ _, mret tt) (λ _, mret Undef)
           (λ _, mret Undef) (λ _, mret tt)).
  - intros f g Hf Hg _. set_solver.
  - intros f g Hf Hg _. set_solver.
  - repeat constructor.
  - by split.
  - split_and!; [done..|]. right. right. intros f x _ Hx. simpl in Hx. by rewrite lookup_empty in Hx.
Defined.
