(* ===== verification/Containers.v ===== *)
(** * Descriptor containers (xs/descriptor_containers/)

    The sequences and maps of descriptors Perl code is given, over tables of functions
    that read the descriptors, and the iterator over the maps. *)

From S2P Require Import Prelude PerlNumbers Convert Handles.

(** ** The tables of functions

    [PerlUpb_ByNameMap_VTable], [PerlUpb_ByNumberMap_VTable] and
    [PerlUpb_GenericSequence_VTable], applied to their parent while it is alive; [None] is a
    NULL answer.  What the functions of an index do out of range is theirs: [Fault] if they
    read past an array.  [KA]: the answer of [key], NULL or a name, or a number. *)
Record map_vtable (K KA I : Type) := {
  vt_count : Z;
  vt_lookup : K → option I;
  vt_key : Z → outcome KA;
  vt_value : Z → outcome (option I);
}.
Arguments vt_count {_ _ _} _.
Arguments vt_lookup {_ _ _} _ _.
Arguments vt_key {_ _ _} _ _.
Arguments vt_value {_ _ _} _ _.
Abbreviation by_name_vtable := (map_vtable bytes (option bytes)).
Abbreviation by_number_vtable := (map_vtable Z Z).

Record seq_vtable (I : Type) := { sq_count : Z; sq_get : Z → outcome (option I) }.
Arguments sq_count {_} _.
Arguments sq_get {_} _ _.

Section Containers.
Context {I : Type} (wrap : I → sv).

(** What a container object points to: a block from [malloc].  [parent]: the upb definition
    it is of, by address; [parent_sv] and [container]: the scalars it holds a reference to. *)
Inductive block :=
  | ByName (vt : by_name_vtable I) (parent parent_sv : nat)
  | ByNumber (vt : by_number_vtable I) (parent parent_sv : nat)
  | Sequence (vt : seq_vtable I) (parent parent_sv : nat)
  | MapIterator (container : nat) (index : Z).

(** The blocks in use, the integer in the scalar of each object (0: freed), the references
    counted on each scalar, and the definitions whose pools are there. *)
Record heap := { blocks : gmap nat block; ivs : gmap nat nat; refs : gmap nat Z; live : gset nat }.

Notation call := (cmd heap).

Definition SvREFCNT_inc (s : nat) (h : heap) : heap :=
  {| blocks := blocks h; ivs := ivs h; refs := <[s := default 0 (refs h !! s) + 1]> (refs h); live := live h |}.
Definition SvREFCNT_dec (s : nat) (h : heap) : heap :=
  {| blocks := blocks h; ivs := ivs h; refs := <[s := default 0 (refs h !! s) - 1]> (refs h); live := live h |}.

(** The scalar a block holds. *)
Definition holds (b : block) : nat :=
  match b with ByName _ _ s | ByNumber _ _ s | Sequence _ _ s => s | MapIterator c _ => c end.

(** [malloc], a copy of the reference to the scalar, a new blessed object. [ptr] and
    [obj] are what the allocators answer. *)
Definition New (b : block) (ptr obj : nat) : call unit := λ h,
  (Ret tt, SvREFCNT_inc (holds b)
     {| blocks := <[ptr := b]> (blocks h); ivs := <[obj := ptr]> (ivs h); refs := refs h; live := live h |}).

(** The block behind an object, NULL after [Free]. *)
Definition deref (obj : nat) : call (option block) := λ h,
  match ivs h !! obj with
  | None | Some O => (Ret None, h)
  | Some ptr => match blocks h !! ptr with
                | Some b => (Ret (Some b), h)
                | None => (Fault "use after free", h)
                end
  end.

(** The [_Get] functions: the block, if the object has the class. *)
Definition ByNameMap_Get (obj : nat) : call (option (by_name_vtable I * nat)) :=
  b ← deref obj; mret (match b with Some (ByName vt p _) => Some (vt, p) | _ => None end).
Definition ByNumberMap_Get (obj : nat) : call (option (by_number_vtable I * nat)) :=
  b ← deref obj; mret (match b with Some (ByNumber vt p _) => Some (vt, p) | _ => None end).
Definition GenericSequence_Get (obj : nat) : call (option (seq_vtable I * nat)) :=
  b ← deref obj; mret (match b with Some (Sequence vt p _) => Some (vt, p) | _ => None end).
Definition DescriptorMapIterator_Get (obj : nat) : call (option (nat * Z)) :=
  b ← deref obj; mret (match b with Some (MapIterator c i) => Some (c, i) | _ => None end).

(** A function of a table, applied to the parent. *)
Definition on_parent {A} (parent : nat) (answer : outcome A) : call A :=
  h ← cget;
  if bool_decide (parent ∈ live h) then of_outcome answer else cfault "use of a freed definition".

Definition wrapped (item : option I) : sv :=
  match item with Some item => wrap item | None => Undef end.

(** *** by_name_map.c, by_number_map.c *)

Definition name_sv (k : bytes) : sv := PV k false.
Definition number_sv (n : Z) : sv := newSVuv n.

Definition ByNameMap_Count (obj : nat) : call Z :=
  map ← ByNameMap_Get obj;
  match map with Some (vt, p) => on_parent p (Ret (vt_count vt)) | None => mret 0 end.
Definition ByNameMap_Lookup (obj : nat) (name : bytes) : call sv :=
  map ← ByNameMap_Get obj;
  match map with
  | Some (vt, p) => item ← on_parent p (Ret (vt_lookup vt name)); mret (wrapped item)
  | None => mret Undef
  end.
Definition ByNameMap_Key (obj : nat) (index : Z) : call sv :=
  map ← ByNameMap_Get obj;
  match map with
  | Some (vt, p) => key ← on_parent p (vt_key vt index); mret (from_option name_sv Undef key)
  | None => mret Undef
  end.
Definition ByNameMap_Value (obj : nat) (index : Z) : call sv :=
  map ← ByNameMap_Get obj;
  match map with
  | Some (vt, p) => item ← on_parent p (vt_value vt index); mret (wrapped item)
  | None => mret Undef
  end.

(** The loop over all indices; [hv_store] replaces an entry of the same key. *)
Fixpoint hash_loop (vt : by_name_vtable I) (p : nat) (indices : list nat) (hv : gmap bytes sv) : call (gmap bytes sv) :=
  match indices with
  | [] => mret hv
  | i :: indices =>
      key ← on_parent p (vt_key vt (Z.of_nat i));
      item ← on_parent p (vt_value vt (Z.of_nat i));
      hash_loop vt p indices
        (match key, item with Some key, Some item => <[key := wrap item]> hv | _, _ => hv end)
  end.
Definition ByNameMap_AsHash (obj : nat) : call (option (gmap bytes sv)) :=
  map ← ByNameMap_Get obj;
  match map with
  | Some (vt, p) =>
      count ← on_parent p (Ret (vt_count vt));
      hv ← hash_loop vt p (seq 0 (Z.to_nat count)) ∅;
      mret (Some hv)
  | None => mret None
  end.

Definition ByNumberMap_Count (obj : nat) : call Z :=
  map ← ByNumberMap_Get obj;
  match map with Some (vt, p) => on_parent p (Ret (vt_count vt)) | None => mret 0 end.
Definition ByNumberMap_Lookup (obj : nat) (num : Z) : call sv :=
  map ← ByNumberMap_Get obj;
  match map with
  | Some (vt, p) => item ← on_parent p (Ret (vt_lookup vt num)); mret (wrapped item)
  | None => mret Undef
  end.
Definition ByNumberMap_Key (obj : nat) (index : Z) : call sv :=
  map ← ByNumberMap_Get obj;
  match map with
  | Some (vt, p) => key ← on_parent p (vt_key vt index); mret (number_sv key)
  | None => mret Undef
  end.
Definition ByNumberMap_Value (obj : nat) (index : Z) : call sv :=
  map ← ByNumberMap_Get obj;
  match map with
  | Some (vt, p) => item ← on_parent p (vt_value vt index); mret (wrapped item)
  | None => mret Undef
  end.

(** *** generic_sequence.c: the index is passed on as it is *)

Definition GenericSequence_Count (obj : nat) : call Z :=
  seq ← GenericSequence_Get obj;
  match seq with Some (vt, p) => on_parent p (Ret (sq_count vt)) | None => mret 0 end.
Definition GenericSequence_GetItem (obj : nat) (index : Z) : call sv :=
  seq ← GenericSequence_Get obj;
  match seq with
  | Some (vt, p) => item ← on_parent p (sq_get vt index); mret (wrapped item)
  | None => mret Undef
  end.

(** *** iterators.c *)

Definition set_index (obj : nat) (c : nat) (index : Z) : call unit := λ h,
  match ivs h !! obj with
  | Some ptr =>
      (Ret tt, {| blocks := <[ptr := MapIterator c index]> (blocks h); ivs := ivs h; refs := refs h; live := live h |})
  | None => (Fault "no object", h)
  end.

Definition DescriptorMapIterator_NextKey (obj : nat) : call sv :=
  iter ← DescriptorMapIterator_Get obj;
  match iter with
  | None => mret Undef
  | Some (c, index) =>
      name_map ← ByNameMap_Get c;
      match name_map with
      | Some (vt, p) =>
          count ← on_parent p (Ret (vt_count vt));
          if count <=? index then mret Undef
          else set_index obj c (index + 1);; ByNameMap_Key c index
      | None =>
          num_map ← ByNumberMap_Get c;
          match num_map with
          | Some (vt, p) =>
              count ← on_parent p (Ret (vt_count vt));
              if count <=? index then mret Undef
              else set_index obj c (index + 1);; ByNumberMap_Key c index
          | None => mret Undef
          end
      end
  end.

Definition DescriptorMapIterator_NextValue (obj : nat) : call sv :=
  iter ← DescriptorMapIterator_Get obj;
  match iter with
  | None => mret Undef
  | Some (c, index) =>
      if index =? 0 then mret Undef
      else
        let current_index := index - 1 in
        name_map ← ByNameMap_Get c;
        match name_map with
        | Some _ => ByNameMap_Value c current_index
        | None =>
            num_map ← ByNumberMap_Get c;
            match num_map with
            | Some _ => ByNumberMap_Value c current_index
            | None => mret Undef
            end
        end
  end.

(** *** New and Free *)

Definition ByNameMap_New (parent_sv parent : nat) (vt : by_name_vtable I) : nat → nat → call unit :=
  New (ByName vt parent parent_sv).
Definition ByNumberMap_New (parent_sv parent : nat) (vt : by_number_vtable I) : nat → nat → call unit :=
  New (ByNumber vt parent parent_sv).
Definition GenericSequence_New (parent_sv parent : nat) (vt : seq_vtable I) : nat → nat → call unit :=
  New (Sequence vt parent parent_sv).
Definition DescriptorMapIterator_New (container : nat) : nat → nat → call unit :=
  New (MapIterator container 0).

(** The reference is given back, the block freed, the integer cleared, if the object
    has the class [cls]. *)
Definition Free (cls : block → bool) (obj : nat) : call unit := λ h,
  match deref obj h with
  | (Ret (Some b), h) =>
      if negb (cls b) then (Ret tt, h)
      else (Ret tt, SvREFCNT_dec (holds b)
         {| blocks := delete (default O (ivs h !! obj)) (blocks h); ivs := <[obj := O]> (ivs h); refs := refs h;
            live := live h |})
  | (Ret None, h) => (Ret tt, h)
  | (Croak msg, h) => (Croak msg, h)
  | (Fault why, h) => (Fault why, h)
  end.

Definition ByNameMap_Free : nat → call unit := Free (λ b, match b with ByName _ _ _ => true | _ => false end).
Definition ByNumberMap_Free : nat → call unit := Free (λ b, match b with ByNumber _ _ _ => true | _ => false end).
Definition GenericSequence_Free : nat → call unit := Free (λ b, match b with Sequence _ _ _ => true | _ => false end).
Definition DescriptorMapIterator_Free : nat → call unit :=
  Free (λ b, match b with MapIterator _ _ => true | _ => false end).

(** *** The calls of Perl code *)

(** And, last, a pool freed: its definitions are gone. *)
Inductive cop :=
  | CNewName (parent_sv parent : nat) (vt : by_name_vtable I) (ptr obj : nat)
  | CNewNumber (parent_sv parent : nat) (vt : by_number_vtable I) (ptr obj : nat)
  | CNewSequence (parent_sv parent : nat) (vt : seq_vtable I) (ptr obj : nat)
  | CNewIterator (container ptr obj : nat)
  | CFreeName (obj : nat) | CFreeNumber (obj : nat) | CFreeSequence (obj : nat) | CFreeIterator (obj : nat)
  | CName (obj : nat) (name : bytes) | CNameAt (obj : nat) (index : Z) | CHash (obj : nat)
  | CNumber (obj : nat) (num : Z) | CNumberAt (obj : nat) (index : Z)
  | CItem (obj : nat) (index : Z) | CCount (obj : nat)
  | CNextKey (obj : nat) | CNextValue (obj : nat)
  | CPoolFreed (definitions : gset nat).

Definition run_cop (op : cop) : call sv :=
  match op with
  | CNewName s parent vt ptr obj => void (ByNameMap_New s parent vt ptr obj)
  | CNewNumber s parent vt ptr obj => void (ByNumberMap_New s parent vt ptr obj)
  | CNewSequence s parent vt ptr obj => void (GenericSequence_New s parent vt ptr obj)
  | CNewIterator c ptr obj => void (DescriptorMapIterator_New c ptr obj)
  | CFreeName obj => void (ByNameMap_Free obj)
  | CFreeNumber obj => void (ByNumberMap_Free obj)
  | CFreeSequence obj => void (GenericSequence_Free obj)
  | CFreeIterator obj => void (DescriptorMapIterator_Free obj)
  | CName obj name => ByNameMap_Lookup obj name
  | CNameAt obj index => ByNameMap_Key obj index;; ByNameMap_Value obj index
  | CHash obj => ByNameMap_AsHash obj;; mret Undef
  | CNumber obj num => ByNumberMap_Lookup obj num
  | CNumberAt obj index => ByNumberMap_Key obj index;; ByNumberMap_Value obj index
  | CItem obj index => GenericSequence_GetItem obj index
  | CCount obj => ByNameMap_Count obj;; ByNumberMap_Count obj;; GenericSequence_Count obj;; mret Undef
  | CNextKey obj => DescriptorMapIterator_NextKey obj
  | CNextValue obj => DescriptorMapIterator_NextValue obj
  | CPoolFreed ds =>
      cmodify (λ h, {| blocks := blocks h; ivs := ivs h; refs := refs h; live := live h ∖ ds |});; mret Undef
  end.

(** ** What the calls are for

    Tables answer below their count. *)
Definition table_ok {K KA} (vt : map_vtable K KA I) : Prop :=
  0 ≤ vt_count vt ∧ ∀ i, 0 ≤ i < vt_count vt → (∃ k, vt_key vt i = Ret k) ∧ ∃ v, vt_value vt i = Ret v.
Definition seq_ok (vt : seq_vtable I) : Prop := ∀ i, 0 ≤ i < sq_count vt → ∃ v, sq_get vt i = Ret v.
Definition block_ok (b : block) : Prop :=
  match b with
  | ByName vt _ _ => table_ok vt
  | ByNumber vt _ _ => table_ok vt
  | Sequence vt _ _ => seq_ok vt
  | MapIterator _ _ => True
  end.

Definition parent_of (b : block) : option nat :=
  match b with ByName _ p _ | ByNumber _ p _ | Sequence _ p _ => Some p | MapIterator _ _ => None end.
Definition block_count (b : block) : Z :=
  match b with
  | ByName vt _ _ => vt_count vt
  | ByNumber vt _ _ => vt_count vt
  | Sequence vt _ _ => sq_count vt
  | MapIterator _ _ => 0
  end.

(** The block behind an object. *)
Definition block_of (obj : nat) (h : heap) : option block :=
  ptr ← ivs h !! obj; if decide (ptr = O) then None else blocks h !! ptr.

(** The definition a container is of is alive; an index is below the count. *)
Definition parent_alive (obj : nat) (h : heap) : Prop :=
  ∀ b p, block_of obj h = Some b → parent_of b = Some p → p ∈ live h.
Definition index_ok (obj : nat) (i : Z) (h : heap) : Prop :=
  ∀ b, block_of obj h = Some b → parent_of b ≠ None → 0 ≤ i < block_count b.

(** The allocators answer memory that is not in use. *)
Definition unused (ptr obj : nat) (h : heap) : Prop :=
  ptr ≠ O ∧ blocks h !! ptr = None ∧ ivs h !! obj = None.
Definition sound (op : cop) (h : heap) : Prop :=
  match op with
  | CNewName _ _ vt ptr obj => unused ptr obj h ∧ table_ok vt
  | CNewNumber _ _ vt ptr obj => unused ptr obj h ∧ table_ok vt
  | CNewSequence _ _ vt ptr obj => unused ptr obj h ∧ seq_ok vt
  | CNewIterator _ ptr obj => unused ptr obj h
  | CFreeName _ | CFreeNumber _ | CFreeSequence _ | CFreeIterator _ | CPoolFreed _ => True
  | CName obj _ | CHash obj | CNumber obj _ | CCount obj => parent_alive obj h
  | CNameAt obj i | CNumberAt obj i | CItem obj i => parent_alive obj h ∧ index_ok obj i h
  | CNextKey obj | CNextValue obj => ∀ c i, block_of obj h = Some (MapIterator c i) → parent_alive c h
  end.

Inductive reachable (refs0 : gmap nat Z) (live0 : gset nat) : heap → Prop :=
  | reach_start : reachable refs0 live0 {| blocks := ∅; ivs := ∅; refs := refs0; live := live0 |}
  | reach_step h op out h' :
      reachable refs0 live0 h → sound op h → run_cop op h = (out, h') → reachable refs0 live0 h'.

(** The blocks that hold a reference to a scalar. *)
Definition holders (h : heap) (s : nat) : nat := size (filter (λ pb, holds pb.2 = s) (blocks h)).

Record heap_ok (refs0 : gmap nat Z) (h : heap) : Prop := {
  ok_live : ∀ obj ptr, ivs h !! obj = Some ptr → ptr ≠ O → is_Some (blocks h !! ptr);
  ok_unique : ∀ o1 o2 ptr, ivs h !! o1 = Some ptr → ivs h !! o2 = Some ptr → ptr ≠ O → o1 = o2;
  ok_refs : ∀ s, default 0 (refs h !! s) = default 0 (refs0 !! s) + Z.of_nat (holders h s);
  ok_blocks : ∀ ptr b, blocks h !! ptr = Some b → block_ok b;
  ok_index : ∀ obj c i, block_of obj h = Some (MapIterator c i) →
    0 ≤ i ∧ (0 < i → is_Some (ivs h !! c) ∧ ∀ b, block_of c h = Some b → i ≤ block_count b);
}.

Lemma block_of_at obj ptr h : ivs h !! obj = Some ptr → ptr ≠ O → block_of obj h = blocks h !! ptr.
Proof. intros E Hp. unfold block_of. rewrite E. cbn. by rewrite decide_False. Qed.

Lemma block_of_inv obj h b : block_of obj h = Some b →
  ∃ ptr, ivs h !! obj = Some ptr ∧ ptr ≠ O ∧ blocks h !! ptr = Some b.
Proof.
  unfold block_of. destruct (ivs h !! obj) as [ptr|]; [|done]. cbn. case_decide; [done|]. eauto.
Qed.

Lemma block_of_ok refs0 h obj b : heap_ok refs0 h → block_of obj h = Some b → block_ok b.
Proof. intros Hok (ptr & _ & _ & Hb)%block_of_inv. by eapply ok_blocks. Qed.

Lemma deref_block refs0 h obj : heap_ok refs0 h → deref obj h = (Ret (block_of obj h), h).
Proof.
  intros Hok. unfold deref, block_of. destruct (ivs h !! obj) as [[|ptr]|] eqn:E; [done| |done].
  destruct (ok_live _ _ Hok obj (S ptr) E) as [b Hb]; [done|]. cbn. by rewrite Hb.
Qed.

(** Reads leave the heap alone. *)
Lemma Gets_ok refs0 h obj : heap_ok refs0 h →
  ByNameMap_Get obj h = (Ret (match block_of obj h with Some (ByName vt p _) => Some (vt, p) | _ => None end), h) ∧
  ByNumberMap_Get obj h = (Ret (match block_of obj h with Some (ByNumber vt p _) => Some (vt, p) | _ => None end), h) ∧
  GenericSequence_Get obj h = (Ret (match block_of obj h with Some (Sequence vt p _) => Some (vt, p) | _ => None end), h) ∧
  DescriptorMapIterator_Get obj h =
    (Ret (match block_of obj h with Some (MapIterator c i) => Some (c, i) | _ => None end), h).
Proof.
  intros Hok. pose proof (deref_block _ _ obj Hok) as E.
  unfold ByNameMap_Get, ByNumberMap_Get, GenericSequence_Get, DescriptorMapIterator_Get.
  by rewrite !(cbind_ret _ _ _ _ _ E).
Qed.

Lemma on_parent_ok {A} p (a : A) h : p ∈ live h → on_parent p (Ret a) h = (Ret a, h).
Proof. intros Hp. unfold on_parent. rewrite (cbind_ret _ _ h h h) by done. by rewrite bool_decide_eq_true_2. Qed.

#[local] Ltac on_table := repeat first
  [ erewrite cbind_ret by eassumption | erewrite cbind_ret by (by apply on_parent_ok) | progress cbn beta iota ].

(** What is asked of a live container without an index, and at one below its count. *)
Lemma reads_ok refs0 h obj : heap_ok refs0 h → parent_alive obj h →
  (∀ name, ∃ v, ByNameMap_Lookup obj name h = (Ret v, h)) ∧ (∀ num, ∃ v, ByNumberMap_Lookup obj num h = (Ret v, h)) ∧
  (∃ n, ByNameMap_Count obj h = (Ret n, h)) ∧ (∃ n, ByNumberMap_Count obj h = (Ret n, h)) ∧
  (∃ n, GenericSequence_Count obj h = (Ret n, h)).
Proof.
  intros Hok Ha. destruct (Gets_ok _ _ obj Hok) as (E1 & E2 & E3 & _).
  unfold ByNameMap_Lookup, ByNumberMap_Lookup, ByNameMap_Count, ByNumberMap_Count, GenericSequence_Count.
  assert (∀ b p, block_of obj h = Some b → parent_of b = Some p → p ∈ live h) as Hp by apply Ha. clear Ha.
  rewrite !(cbind_ret _ _ _ _ _ E1), !(cbind_ret _ _ _ _ _ E2), !(cbind_ret _ _ _ _ _ E3).
  split_and!; intros; destruct (block_of obj h) as [[]|]; try by eexists.
  all: try rewrite on_parent_ok by (by eapply Hp); on_table; try by eexists.
  all: rewrite (cbind_ret _ _ _ _ _ (on_parent_ok _ _ _ (Hp _ _ eq_refl eq_refl))); by eexists.
Qed.
Lemma items_ok refs0 h obj i : heap_ok refs0 h → parent_alive obj h → index_ok obj i h →
  (∃ v, ByNameMap_Key obj i h = (Ret v, h)) ∧ (∃ v, ByNameMap_Value obj i h = (Ret v, h)) ∧
  (∃ v, ByNumberMap_Key obj i h = (Ret v, h)) ∧ (∃ v, ByNumberMap_Value obj i h = (Ret v, h)) ∧
  ∃ v, GenericSequence_GetItem obj i h = (Ret v, h).
Proof.
  intros Hok Ha Hi. destruct (Gets_ok _ _ obj Hok) as (E1 & E2 & E3 & _).
  unfold ByNameMap_Key, ByNumberMap_Key, ByNameMap_Value, ByNumberMap_Value, GenericSequence_GetItem.
  rewrite !(cbind_ret _ _ _ _ _ E1), !(cbind_ret _ _ _ _ _ E2), (cbind_ret _ _ _ _ _ E3).
  destruct (block_of obj h) as [b|] eqn:Eb; [|split_and!; by eexists].
  pose proof (block_of_ok _ _ _ _ Hok Eb) as Hb. specialize (Hi b Eb).
  destruct b as [vt p s|vt p s|vt p s|c j]; cbn in Hb, Hi; [| | |split_and!; by eexists].
  - specialize (Ha _ p Eb eq_refl). destruct Hb as [_ Hb]. destruct (Hb i (Hi ltac:(done))) as ([k ->] & [v ->]).
    rewrite !(cbind_ret _ _ _ _ _ (on_parent_ok p _ h Ha)). split_and!; by eexists.
  - specialize (Ha _ p Eb eq_refl). destruct Hb as [_ Hb]. destruct (Hb i (Hi ltac:(done))) as ([k ->] & [v ->]).
    rewrite !(cbind_ret _ _ _ _ _ (on_parent_ok p _ h Ha)). split_and!; by eexists.
  - specialize (Ha _ p Eb eq_refl). destruct (Hb i (Hi ltac:(done))) as [v ->].
    rewrite (cbind_ret _ _ _ _ _ (on_parent_ok p _ h Ha)). split_and!; by eexists.
Qed.

Lemma hash_loop_ok vt p h indices : table_ok vt → p ∈ live h → ∀ hv,
  Forall (λ i, Z.of_nat i < vt_count vt) indices → ∃ hv', hash_loop vt p indices hv h = (Ret hv', h).
Proof.
  intros [_ Ht] Hp. induction indices as [|i indices IH]; intros hv Hi; cbn [hash_loop]; [by eexists|].
  apply Forall_cons_1 in Hi as [Hi His]. destruct (Ht (Z.of_nat i)) as ([k ->] & [v ->]); [lia|].
  rewrite !(cbind_ret _ _ _ _ _ (on_parent_ok p _ h Hp)). by apply IH.
Qed.

Lemma AsHash_ok refs0 h obj : heap_ok refs0 h → parent_alive obj h → ∃ r, ByNameMap_AsHash obj h = (Ret r, h).
Proof.
  intros Hok Ha. destruct (Gets_ok _ _ obj Hok) as (E & _). unfold ByNameMap_AsHash. rewrite (cbind_ret _ _ _ _ _ E).
  destruct (block_of obj h) as [[vt p s| | |]|] eqn:Eb; try by eexists.
  specialize (Ha _ p Eb eq_refl). rewrite (cbind_ret _ _ _ _ _ (on_parent_ok p _ h Ha)).
  pose proof (block_of_ok _ _ _ _ Hok Eb) as Ht. cbn in Ht.
  destruct (hash_loop_ok vt p h (seq 0 (Z.to_nat (vt_count vt))) Ht Ha ∅) as [hv Eh].
  { apply Forall_forall. intros i Hi%elem_of_seq. lia. }
  rewrite (cbind_ret _ _ _ _ _ Eh). by eexists.
Qed.

(** *** Counting references *)

Lemma holders_insert h ptr b s : blocks h !! ptr = None →
  size (filter (λ pb, holds pb.2 = s) (<[ptr := b]> (blocks h))) =
    (holders h s + (if decide (holds b = s) then 1 else 0))%nat.
Proof.
  intros Hn. rewrite map_filter_insert. unfold holders. case_decide as E; simpl in E.
  - rewrite map_size_insert_None; [rewrite decide_True by done; lia|].
    apply map_lookup_filter_None. by left.
  - rewrite delete_id, decide_False by (done || (apply map_lookup_filter_None; by left)). lia.
Qed.

Lemma holders_delete h ptr b s : blocks h !! ptr = Some b →
  holders h s = (size (filter (λ pb, holds pb.2 = s) (delete ptr (blocks h))) +
                 (if decide (holds b = s) then 1 else 0))%nat.
Proof.
  intros Hb. set (h' := {| blocks := delete ptr (blocks h); ivs := ivs h; refs := refs h; live := live h |}).
  pose proof (holders_insert h' ptr b s (lookup_delete_eq _ _)) as Hs. simpl in Hs.
  by rewrite insert_delete_id in Hs.
Qed.

Lemma refs_at (r : gmap nat Z) s s' z :
  default 0 (<[s := default 0 (r !! s) + z]> r !! s') = default 0 (r !! s') + (if decide (s = s') then z else 0).
Proof.
  destruct (decide (s = s')) as [->|Hne]; [by rewrite lookup_insert_eq|].
  rewrite lookup_insert_ne by done. lia.
Qed.

(** *** The calls that change the heap *)

Lemma New_ok refs0 h b ptr obj : heap_ok refs0 h → unused ptr obj h → block_ok b →
  (∀ c i, b = MapIterator c i → i = 0) →
  ∃ h', New b ptr obj h = (Ret tt, h') ∧ heap_ok refs0 h'.
Proof.
  intros Hok (Hp & Hb & Ho) Hbo Hi0. pose proof Hok as [Hl Hu Hr Hbs Hx]. eexists. split; [done|].
  set (h' := SvREFCNT_inc _ _).
  assert (∀ o, o ≠ obj → block_of o h' = block_of o h) as Hsame.
  { intros o Hne. unfold block_of. simpl. rewrite lookup_insert_ne by done.
    destruct (ivs h !! o) as [p|] eqn:E; [|done]. cbn. case_decide; [done|].
    destruct (Hl _ _ E) as [x Hx']; [done|]. by rewrite lookup_insert_ne by congruence. }
  assert (block_of obj h' = Some b) as Hnew.
  { rewrite (block_of_at obj ptr); [|apply lookup_insert_eq|done]. apply lookup_insert_eq. }
  split; simpl.
  - intros o p. rewrite lookup_insert_Some. intros [[<- <-]|[Hne Hop]] Hp0; [by rewrite lookup_insert_eq|].
    rewrite lookup_insert_is_Some. destruct (decide (ptr = p)); [by left|right]. eauto.
  - intros o1 o2 p. rewrite !lookup_insert_Some.
    intros [[<- <-]|[Hne1 H1]] [[<- E]|[Hne2 H2]] Hp0; try done; [| |by eapply Hu].
    + destruct (Hl _ _ H2 Hp0). congruence.
    + subst p. destruct (Hl _ _ H1 Hp0). congruence.
  - intros s. rewrite refs_at, Hr. unfold holders at 2. simpl. rewrite holders_insert by done.
    case_decide; lia.
  - intros p c. rewrite lookup_insert_Some. intros [[_ <-]|[_ ?]]; [done|eauto].
  - intros o c i E. destruct (decide (o = obj)) as [->|Hne].
    + rewrite Hnew in E. injection E as ->. rewrite (Hi0 c i eq_refl). lia.
    + rewrite Hsame in E by done. destruct (Hx o c i E) as [Hi H]. split; [done|]. intros Hpos.
      destruct (H Hpos) as [Hc Hcount]. assert (c ≠ obj) as Hco by (intros ->; rewrite Ho in Hc; by destruct Hc as [? [=]]).
      rewrite lookup_insert_ne by done. split; [done|]. intros b'. rewrite Hsame by done; apply Hcount.
Qed.

Lemma Free_ok refs0 h cls obj : heap_ok refs0 h → ∃ h', Free cls obj h = (Ret tt, h') ∧ heap_ok refs0 h'.
Proof.
  intros Hok. unfold Free. rewrite (deref_block _ _ obj Hok).
  destruct (block_of obj h) as [b|] eqn:Eb; [|by eexists]. destruct (cls b); cbn [negb]; [|by eexists].
  apply block_of_inv in Eb as (ptr & Ho & Hp & Hb). destruct Hok as [Hl Hu Hr Hbs Hx]. eexists. split; [done|].
  rewrite Ho. set (h' := SvREFCNT_dec _ _).
  assert (∀ o, block_of o h' = if decide (o = obj) then None else block_of o h) as Hsame.
  { intros o. unfold block_of. simpl. case_decide as E; [by rewrite E, lookup_insert_eq|].
    rewrite lookup_insert_ne by done. destruct (ivs h !! o) as [p|] eqn:Eo; [|done]. cbn. case_decide; [done|].
    rewrite lookup_delete_ne; [done|]. intros ->. by destruct E; eapply Hu. }
  split; simpl.
  - intros o p. rewrite lookup_insert_Some. intros [[<- <-]|[Hne Hop]] Hp0; [done|].
    rewrite lookup_delete_ne; [by eapply Hl|]. intros ->. by destruct Hne; eapply Hu.
  - intros o1 o2 p. rewrite !lookup_insert_Some.
    intros [[<- <-]|[Hne1 H1]] [[<- E']|[Hne2 H2]] Hp0; try done; try congruence. by eapply Hu.
  - intros s. unfold Z.sub. rewrite refs_at, Hr, (holders_delete h ptr b s Hb). unfold holders. simpl.
    case_decide; lia.
  - intros p c [_ ?]%lookup_delete_Some. eauto.
  - intros o c i E. rewrite Hsame in E. case_decide; [done|]. destruct (Hx o c i E) as [Hi H']. split; [done|].
    intros Hpos. destruct (H' Hpos) as [Hc Hcount]. split.
    + rewrite lookup_insert_is_Some. destruct (decide (obj = c)); [by left|by right].
    + intros b'. rewrite Hsame. case_decide; [done|]. apply Hcount.
Qed.
Lemma set_index_ok refs0 h obj c i b : heap_ok refs0 h → block_of obj h = Some (MapIterator c i) →
  block_of c h = Some b → i < block_count b →
  ∃ h', set_index obj c (i + 1) h = (Ret tt, h') ∧ heap_ok refs0 h' ∧ live h' = live h ∧
    block_of obj h' = Some (MapIterator c (i + 1)) ∧ ∀ o, o ≠ obj → block_of o h' = block_of o h.
Proof.
  intros Hok Eb Ec Hi. pose proof Hok as [Hl Hu Hr Hbs Hx]. destruct (Hx _ _ _ Eb) as [Hi0 _].
  apply block_of_inv in Eb as (ptr & Ho & Hp & Hb). unfold set_index. rewrite Ho. eexists. split; [done|].
  set (h' := {| blocks := _; ivs := _; refs := _; live := _ |}).
  assert (∀ o, block_of o h' = if decide (o = obj) then Some (MapIterator c (i + 1)) else block_of o h) as Hsame.
  { intros o. unfold block_of. simpl. case_decide as E.
    - rewrite E, Ho. cbn. rewrite decide_False by done. apply lookup_insert_eq.
    - destruct (ivs h !! o) as [p|] eqn:Eo; [|done]. cbn. case_decide; [done|].
      rewrite lookup_insert_ne; [done|]. intros ->. by destruct E; eapply Hu. }
  assert (c ≠ obj) as Hco.
  { intros ->. unfold block_of in Ec. rewrite Ho in Ec. cbn in Ec. rewrite decide_False in Ec by done.
    rewrite Hb in Ec. injection Ec as <-. cbn in Hi. lia. }
  split_and!; [|done|by rewrite Hsame, decide_True|intros o Hne; by rewrite Hsame, decide_False].
  split; simpl.
  - intros o p Hop Hp0. rewrite lookup_insert_is_Some. destruct (decide (ptr = p)); [by left|right]. eauto.
  - done.
  - intros s. rewrite Hr, (holders_delete h ptr _ s Hb). unfold holders. simpl.
    rewrite <- insert_delete_eq.
    set (h2 := {| blocks := delete ptr (blocks h); ivs := ivs h; refs := refs h; live := live h |}).
    pose proof (holders_insert h2 ptr (MapIterator c (i + 1)) s (lookup_delete_eq _ _)) as Hs. simpl in Hs.
    by rewrite Hs.
  - intros p x. rewrite lookup_insert_Some. intros [[_ <-]|[_ ?]]; [done|eauto].
  - intros o c' j E. rewrite Hsame in E.
    assert (∀ b', block_of obj h' = Some b' → block_count b' = 0) as Hz
      by (intros b'; rewrite Hsame, decide_True by done; by intros [= <-]).
    case_decide as Eo.
    + injection E as <- <-. split; [lia|]. intros _. apply block_of_inv in Ec as Hc'.
      destruct Hc' as (cptr & Hc' & _). split; [by eexists|]. intros b'. rewrite Hsame, decide_False by done.
      rewrite Ec. intros [= <-]. lia.
    + destruct (Hx o c' j E) as [Hj H']. split; [done|]. intros Hpos. destruct (H' Hpos) as [Hc Hcount].
      split; [done|]. intros b'. rewrite Hsame. case_decide as E'; [|apply Hcount].
      subst c'. intros [= <-]. cbn. rewrite (block_of_at obj ptr) in Hcount by done. specialize (Hcount _ Hb).
      cbn in Hcount. lia.
Qed.

Lemma PoolFreed_ok refs0 h ds : heap_ok refs0 h →
  heap_ok refs0 {| blocks := blocks h; ivs := ivs h; refs := refs h; live := live h ∖ ds |}.
Proof. intros [Hl Hu Hr Hbs Hx]. by split. Qed.

Lemma NextKey_ok refs0 obj h : heap_ok refs0 h → (∀ c i, block_of obj h = Some (MapIterator c i) → parent_alive c h) →
  ∃ v h', DescriptorMapIterator_NextKey obj h = (Ret v, h') ∧ heap_ok refs0 h'.
Proof.
  intros Hok Ha. unfold DescriptorMapIterator_NextKey.
  destruct (Gets_ok _ _ obj Hok) as (_ & _ & _ & E). rewrite (cbind_ret _ _ _ _ _ E).
  destruct (block_of obj h) as [[| | |c i]|] eqn:Eb; try by do 2 eexists. specialize (Ha c i eq_refl).
  destruct (Gets_ok _ _ c Hok) as (E1 & E2 & _). rewrite (cbind_ret _ _ _ _ _ E1).
  destruct (ok_index _ _ Hok _ _ _ Eb) as [Hi _].
  assert (∀ b, block_of c h = Some b → parent_of b ≠ None → i < block_count b → ∃ h', set_index obj c (i + 1) h = (Ret tt, h') ∧
    heap_ok refs0 h' ∧ parent_alive c h' ∧ index_ok c i h') as Hset.
  { intros b Ec Hpb Hlt. destruct (set_index_ok refs0 h obj c i b Hok Eb Ec Hlt) as (h' & Es & Hok' & Hlv & Ho' & Hs).
    assert (c ≠ obj) as Hne by (intros ->; rewrite Ec in Eb; injection Eb as ->; done).
    exists h'. split_and!; [done|done| |]; intros b' *; rewrite (Hs c Hne).
    - rewrite Hlv. apply Ha.
    - rewrite Ec. intros [= <-]. lia. }
  destruct (block_of c h) as [[vt p s|vt p s|vt p s|c' i']|] eqn:Ec; cbn beta iota.
  - rewrite (cbind_ret _ _ _ _ _ (on_parent_ok p _ h (Ha _ p Ec eq_refl))).
    destruct (Z.leb_spec (vt_count vt) i); [by do 2 eexists|].
    destruct (Hset _ eq_refl ltac:(done) ltac:(done)) as (h' & Es & Hok' & Ha' & Hi').
    destruct (items_ok refs0 h' c i Hok' Ha' Hi') as ([v Ev] & _).
    rewrite (cbind_ret _ _ _ _ _ Es), Ev. by do 2 eexists.
  - rewrite (cbind_ret _ _ _ _ _ E2). cbn beta iota.
    rewrite (cbind_ret _ _ _ _ _ (on_parent_ok p _ h (Ha _ p Ec eq_refl))).
    destruct (Z.leb_spec (vt_count vt) i); [by do 2 eexists|].
    destruct (Hset _ eq_refl ltac:(done) ltac:(done)) as (h' & Es & Hok' & Ha' & Hi').
    destruct (items_ok refs0 h' c i Hok' Ha' Hi') as (_ & _ & [v Ev] & _).
    rewrite (cbind_ret _ _ _ _ _ Es), Ev. by do 2 eexists.
  - rewrite (cbind_ret _ _ _ _ _ E2). by do 2 eexists.
  - rewrite (cbind_ret _ _ _ _ _ E2). by do 2 eexists.
  - rewrite (cbind_ret _ _ _ _ _ E2). by do 2 eexists.
Qed.

Lemma NextValue_ok refs0 obj h : heap_ok refs0 h → (∀ c i, block_of obj h = Some (MapIterator c i) → parent_alive c h) →
  ∃ v, DescriptorMapIterator_NextValue obj h = (Ret v, h).
Proof.
  intros Hok Ha. unfold DescriptorMapIterator_NextValue.
  destruct (Gets_ok _ _ obj Hok) as (_ & _ & _ & E). rewrite (cbind_ret _ _ _ _ _ E).
  destruct (block_of obj h) as [[| | |c i]|] eqn:Eb; try by eexists. specialize (Ha c i eq_refl).
  destruct (Z.eqb_spec i 0); [by eexists|]. cbn zeta.
  destruct (Gets_ok _ _ c Hok) as (E1 & E2 & _). rewrite (cbind_ret _ _ _ _ _ E1).
  destruct (ok_index _ _ Hok _ _ _ Eb) as [Hi Hcount]. destruct Hcount as [_ Hcount]; [lia|].
  destruct (items_ok refs0 h c (i - 1) Hok Ha) as (_ & [v Ev] & _ & [v' Ev'] & _).
  { intros b Ec _. specialize (Hcount b Ec). lia. }
  destruct (block_of c h) as [[vt p s|vt p s|vt p s|c' i']|] eqn:Ec; cbn beta iota;
    try rewrite (cbind_ret _ _ _ _ _ E2); by eexists.
Qed.
(** One call: no undefined behaviour, no croak, and the heap stays in order. *)
Lemma run_cop_ok refs0 op h : heap_ok refs0 h → sound op h →
  ∃ v h', run_cop op h = (Ret v, h') ∧ heap_ok refs0 h'.
Proof.
  intros Hok Hs.
  assert (∀ b ptr obj, unused ptr obj h → block_ok b → (∀ c i, b = MapIterator c i → i = 0) →
    ∃ v h', void (New b ptr obj) h = (Ret v, h') ∧ heap_ok refs0 h') as Hnew.
  { intros b ptr obj Hu Hb Hi. destruct (New_ok _ _ b ptr obj Hok Hu Hb Hi) as (h' & E & Hok'). unfold void.
    rewrite (cbind_ret _ _ _ _ _ E). by do 2 eexists. }
  assert (∀ cls obj, ∃ v h', void (Free cls obj) h = (Ret v, h') ∧ heap_ok refs0 h') as Hfree.
  { intros cls obj. destruct (Free_ok _ _ cls obj Hok) as (h' & E & Hok'). unfold void.
    rewrite (cbind_ret _ _ _ _ _ E). by do 2 eexists. }
  destruct op as [s p vt ptr obj|s p vt ptr obj|s p vt ptr obj|c ptr obj| | | | |obj name|obj index|obj|obj num|obj index
    |obj index|obj|obj|obj|ds]; cbn [run_cop sound] in *; try (by apply Hfree).
  - destruct Hs. by apply Hnew.
  - destruct Hs. by apply Hnew.
  - destruct Hs. by apply Hnew.
  - apply Hnew; [done|done|]. by intros ? ? [= _ <-].
  - destruct (reads_ok _ _ _ Hok Hs) as (H & _). destruct (H name) as [v E]. by exists v, h.
  - destruct (items_ok _ _ _ _ Hok (proj1 Hs) (proj2 Hs)) as ([v E] & [v' E'] & _).
    rewrite (cbind_ret _ _ _ _ _ E). by exists v', h.
  - destruct (AsHash_ok _ _ _ Hok Hs) as [v E]. rewrite (cbind_ret _ _ _ _ _ E). by do 2 eexists.
  - destruct (reads_ok _ _ _ Hok Hs) as (_ & H & _). destruct (H num) as [v E]. by exists v, h.
  - destruct (items_ok _ _ _ _ Hok (proj1 Hs) (proj2 Hs)) as (_ & _ & [v E] & [v' E'] & _).
    rewrite (cbind_ret _ _ _ _ _ E). by exists v', h.
  - destruct (items_ok _ _ _ _ Hok (proj1 Hs) (proj2 Hs)) as (_ & _ & _ & _ & [v E]). by exists v, h.
  - destruct (reads_ok _ _ _ Hok Hs) as (_ & _ & [n1 E1] & [n2 E2] & [n3 E3]). crun. by do 2 eexists.
  - by apply NextKey_ok.
  - destruct (NextValue_ok _ obj h Hok Hs) as [v E]. by exists v, h.
  - do 2 eexists. split; [done|]. by apply PoolFreed_ok.
Qed.

Lemma reachable_ok refs0 live0 h : reachable refs0 live0 h → heap_ok refs0 h.
Proof.
  induction 1 as [|h op out h' _ Hok Hs E].
  - split; simpl; try (intros *; rewrite lookup_empty; done).
    intros s. unfold holders. simpl. rewrite map_filter_empty, map_size_empty. lia.
  - destruct (run_cop_ok _ _ _ Hok Hs) as (v & h2 & E2 & Hok2). congruence.
Qed.

(** C20: the descriptor containers and iterators are memory-safe while their definitions
    are there.  Whatever containers and iterators Perl code creates, uses and frees, in
    whatever order and as often as it likes, and whatever pools are freed in between: as
    long as a container is only read while the definition it is of is alive, and an index
    it is given is below its count (the index of an iterator always is), no call touches a
    freed block or definition, reads out of range or croaks, and every scalar they were
    created from has exactly one reference more per container or iterator that still holds
    it.  What is said of the tables is that they answer below their count. *)
Theorem containers_safe refs0 live0 h op : reachable refs0 live0 h → sound op h →
  (∃ v h', run_cop op h = (Ret v, h') ∧ reachable refs0 live0 h') ∧
  ∀ s, default 0 (refs h !! s) = default 0 (refs0 !! s) + Z.of_nat (holders h s).
Proof.
  intros Hr Hs. pose proof (reachable_ok _ _ _ Hr) as Hok. split; [|apply (ok_refs _ _ Hok)].
  destruct (run_cop_ok _ _ _ Hok Hs) as (v & h' & E & _). exists v, h'. split; [done|].
  by eapply reach_step.
Qed.

(** *** Walking a map *)

(** What stands at an index of the container a block is. *)
Definition entry_at (b : block) (i : Z) : outcome (sv * sv) :=
  match b with
  | ByName vt _ _ => k ← vt_key vt i; v ← vt_value vt i; Ret (from_option name_sv Undef k, wrapped v)
  | ByNumber vt _ _ => k ← vt_key vt i; v ← vt_value vt i; Ret (number_sv k, wrapped v)
  | _ => Ret (Undef, Undef)
  end.
Definition is_map (b : block) : Prop := match b with ByName _ _ _ | ByNumber _ _ _ => True | _ => False end.

(** [NextKey] and [NextValue], [n] times. *)
Fixpoint walk_map (obj : nat) (n : nat) : call (list (sv * sv)) :=
  match n with
  | O => mret []
  | S n =>
      k ← DescriptorMapIterator_NextKey obj;
      v ← DescriptorMapIterator_NextValue obj;
      rest ← walk_map obj n;
      mret ((k, v) :: rest)
  end.

Lemma step_map refs0 h obj c b i : heap_ok refs0 h → block_of obj h = Some (MapIterator c i) → block_of c h = Some b →
  is_map b → parent_alive c h → i < block_count b →
  ∃ k v h', entry_at b i = Ret (k, v) ∧ DescriptorMapIterator_NextKey obj h = (Ret k, h') ∧
    DescriptorMapIterator_NextValue obj h' = (Ret v, h') ∧ heap_ok refs0 h' ∧
    block_of obj h' = Some (MapIterator c (i + 1)) ∧ block_of c h' = Some b ∧ parent_alive c h'.
Proof.
  intros Hok Eb Ec Hm Ha Hi. destruct (ok_index _ _ Hok _ _ _ Eb) as [Hi0 _].
  destruct (set_index_ok refs0 h obj c i b Hok Eb Ec Hi) as (h' & Es & Hok' & Hlv & Ho' & Hsame).
  assert (c ≠ obj) as Hne by (intros ->; rewrite Ec in Eb; injection Eb as ->; done).
  assert (block_of c h' = Some b) as Ec' by (by rewrite Hsame).
  assert (parent_alive c h') as Ha' by (intros b' p; rewrite Hlv, Hsame by done; apply Ha).
  destruct (Gets_ok _ _ obj Hok) as (_ & _ & _ & E). destruct (Gets_ok _ _ c Hok) as (E1 & E2 & _).
  destruct (Gets_ok _ _ obj Hok') as (_ & _ & _ & E'). destruct (Gets_ok _ _ c Hok') as (E1' & E2' & _).
  rewrite Eb in E. rewrite Ho' in E'. rewrite Ec in E1, E2. rewrite Ec' in E1', E2'.
  pose proof (block_of_ok _ _ _ _ Hok Ec) as Hb.
  unfold DescriptorMapIterator_NextKey, DescriptorMapIterator_NextValue,
    ByNameMap_Key, ByNumberMap_Key, ByNameMap_Value, ByNumberMap_Value.
  assert (∀ p, parent_of b = Some p → p ∈ live h ∧ p ∈ live h') as Hp by (intros p Ep; split; [by eapply Ha|by eapply Ha']).
  destruct b as [vt p s|vt p s| |]; try done; destruct Hb as [_ Hb]; destruct (Hb i) as ([k Ek] & [v Ev]); [done| |done|];
    destruct (Hp p eq_refl) as [Hp1 Hp2]; cbn [entry_at block_count] in *; rewrite Ek, Ev, !bind_Ret;
    do 3 eexists; (split; [done|]); (split; [|split; [|done]]).
  - rewrite (cbind_ret _ _ _ _ _ E), (cbind_ret _ _ _ _ _ E1), (cbind_ret _ _ _ _ _ (on_parent_ok p _ h Hp1)).
    destruct (Z.leb_spec (vt_count vt) i); [lia|].
    rewrite (cbind_ret _ _ _ _ _ Es), (cbind_ret _ _ _ _ _ E1'), Ek.
    by rewrite (cbind_ret _ _ _ _ _ (on_parent_ok p _ h' Hp2)).
  - rewrite (cbind_ret _ _ _ _ _ E'). destruct (Z.eqb_spec (i + 1) 0); [lia|]. cbn zeta.
    rewrite !(cbind_ret _ _ _ _ _ E1'). replace (i + 1 - 1) with i by lia. rewrite Ev.
    by rewrite (cbind_ret _ _ _ _ _ (on_parent_ok p _ h' Hp2)).
  - rewrite (cbind_ret _ _ _ _ _ E), (cbind_ret _ _ _ _ _ E1), (cbind_ret _ _ _ _ _ E2),
      (cbind_ret _ _ _ _ _ (on_parent_ok p _ h Hp1)).
    destruct (Z.leb_spec (vt_count vt) i); [lia|].
    rewrite (cbind_ret _ _ _ _ _ Es), (cbind_ret _ _ _ _ _ E2'), Ek.
    by rewrite (cbind_ret _ _ _ _ _ (on_parent_ok p _ h' Hp2)).
  - rewrite (cbind_ret _ _ _ _ _ E'). destruct (Z.eqb_spec (i + 1) 0); [lia|]. cbn zeta.
    rewrite (cbind_ret _ _ _ _ _ E1'), !(cbind_ret _ _ _ _ _ E2'). replace (i + 1 - 1) with i by lia. rewrite Ev.
    by rewrite (cbind_ret _ _ _ _ _ (on_parent_ok p _ h' Hp2)).
Qed.

(** Walking a live descriptor map by [NextKey] and [NextValue] gives the key and the
    value of every index, in order. *)
Lemma walk_map_complete refs0 n : ∀ h obj c b i,
  heap_ok refs0 h → block_of obj h = Some (MapIterator c i) → block_of c h = Some b → is_map b → parent_alive c h →
  Z.of_nat n = block_count b - i →
  ∃ l h', mapO (λ j, entry_at b (i + Z.of_nat j)) (seq 0 n) = Ret l ∧ walk_map obj n h = (Ret l, h').
Proof.
  induction n as [|n IH]; intros h obj c b i Hok Eb Ec Hm Ha Hn; [by do 2 eexists|].
  destruct (step_map refs0 h obj c b i Hok Eb Ec Hm Ha) as (k & v & h1 & Ee & Ek & Ev & Hok1 & Eb1 & Ec1 & Ha1); [lia|].
  destruct (IH h1 obj c b (i + 1) Hok1 Eb1 Ec1 Hm Ha1) as (l & h2 & El & Ew); [lia|].
  exists ((k, v) :: l), h2. cbn [walk_map seq mapO]. rewrite Z.add_0_r, Ee, bind_Ret. split.
  - assert (∀ ns, mapO (λ j, entry_at b (i + Z.of_nat j)) (S <$> ns) = mapO (λ j, entry_at b (i + 1 + Z.of_nat j)) ns) as E.
    { induction ns as [|m ns IHn]; [done|]. cbn [fmap list_fmap mapO]. fold (S <$> ns). rewrite IHn.
      by replace (i + Z.of_nat (S m)) with (i + 1 + Z.of_nat m) by lia. }
    by rewrite <- fmap_S_seq, E, El.
  - by rewrite (cbind_ret _ _ _ _ _ Ek), (cbind_ret _ _ _ _ _ Ev), (cbind_ret _ _ _ _ _ Ew).
Qed.
End Containers.

(** ** Two fields by name *)

(** Out of range upb reads past its array of fields. *)
Definition field_at (i : Z) : outcome FieldDef :=
  if i <? 0 then Fault "index out of range"
  else match [point_x; point_next] !! Z.to_nat i with Some f => Ret f | None => Fault "index out of range" end.
Definition point_fields : by_name_vtable FieldDef := {|
  vt_count := 2;
  vt_lookup name := FindFieldByName points 0 name;
  vt_key i := f ← field_at i; Ret (Some (f_name f));
  vt_value i := Some <$> field_at i;
|}.
Definition point_sequence : seq_vtable FieldDef := {| sq_count := 2; sq_get i := Some <$> field_at i |}.
Definition wrap_field (f : FieldDef) : sv := IV (f_number f).

Lemma point_fields_ok : table_ok point_fields.
Proof.
  split; [done|]. cbn. intros i Hi. assert (i = 0 ∨ i = 1) as [-> | ->] by lia; split; by eexists.
Qed.

(** The map is made, and an iterator of it. *)
Definition made : heap (I := FieldDef) :=
  {| blocks := {[1%nat := ByName point_fields 5 7]}; ivs := {[11%nat := 1%nat]}; refs := {[7%nat := 1]}; live := {[5%nat]} |}.

Lemma containers_safe_witness :
  (∃ v h', run_cop wrap_field (CNameAt 11 1) made = (Ret v, h') ∧ reachable wrap_field ∅ {[5%nat]} h') ∧
  ∀ s, default 0 (refs made !! s) = default 0 ((∅ : gmap nat Z) !! s) + Z.of_nat (holders made s).
Proof.
  apply (containers_safe wrap_field ∅ {[5%nat]} made (CNameAt 11 1)).
  - apply (reach_step wrap_field ∅ {[5%nat]} {| blocks := ∅; ivs := ∅; refs := ∅; live := {[5%nat]} |}
      (CNewName 7 5 point_fields 1 11) (Ret Undef)); [constructor| |vm_compute; reflexivity].
    split; [by split_and!|apply point_fields_ok].
  - split.
    + intros b p. vm_compute. intros [= <-] [= <-]. reflexivity.
    + intros b. vm_compute. intros [= <-] _. split; [discriminate|reflexivity].
Defined.

(** A container keeps the Perl object it was made from, not the pool: once that is freed,
    every read is of freed memory.  And an index is not looked at. *)
Example freed_definition :
  let run op h := run_cop wrap_field op h in
  let h := (run (CPoolFreed {[5%nat]}) made).2 in
  (run (CCount 11) h).1 = Fault "use of a freed definition" ∧ (run (CName 11 (str "x")) h).1 = Fault "use of a freed definition" ∧
  (run (CFreeName 11) h).1 = Ret Undef.
Proof. by vm_compute. Qed.

Example index_out_of_range :
  let h := (run_cop wrap_field (CNewSequence 7 5 point_sequence 2 12) made).2 in
  (λ i, (run_cop wrap_field (CItem 12 i) h).1) <$> [0; 1; 2; -1] =
    [Ret (IV 1); Ret (IV 4); Fault "index out of range"; Fault "index out of range"].
Proof. by vm_compute. Qed.

Example walk_two_fields :
  let h := (run_cop wrap_field (CNewIterator 11 2 12) made).2 in
  let '(l, h) := walk_map wrap_field 12 2 h in
  l = Ret [(PV (str "x") false, IV 1); (PV (str "next") false, IV 4)] ∧
  (DescriptorMapIterator_NextKey 12 h).1 = Ret Undef.
Proof. by vm_compute. Qed.
