(* ===== verification/Wrappers.v ===== *)
(** * Perl wrappers of C objects (xs/protobuf/utils.c, xs/descriptor/base.h)

    The Perl hash that stands for a message, container or descriptor: its creation and
    its registration in the object cache, the checks that get the C pointer back, and
    the clean-up when Perl frees it. *)

From S2P Require Import Prelude.
From S2P Require ObjCache.

(** ** Perl's side *)

(** [SV *]: [NULL] is a missing [option]. *)
Inductive psv := PUndef | PPlain | PRef (o : Z).

(** What an IV slot of a hash holds, if it is there: an integer, or something else. *)
Inductive slot := SIV (ptr : Z) | SOther.

#[export] Instance psv_eq_dec : EqDecision psv.
Proof. solve_decision. Defined.
#[export] Instance slot_eq_dec : EqDecision slot.
Proof. solve_decision. Defined.

(** A hash with the entries the C code reads, or a value of another type. *)
Inductive body :=
  | HV (upb_ptr : option slot) (arena_sv : option psv) (pool_ptr : option slot)
  | NotHV (type : Z).

(** [ext_magic]: the magic with [wrapper_vtbl], its pointer and flags. *)
Record object := {
  refcnt : nat;
  stash : option string;
  contents : body;
  ext_magic : option (Z * Z) }.

(** The slot of a pool's wrapper. *)
Definition pool_slot (ob : object) : option slot :=
  match contents ob with HV _ _ pool => pool | NotHV _ => None end.

Record world := {
  objects : gmap Z object;
  next_object : Z;
  oc : ObjCache.state }.

Definition set_objects (m : gmap Z object) (w : world) : world :=
  {| objects := m; next_object := next_object w; oc := oc w |}.
Definition set_oc (c : ObjCache.state) (w : world) : world :=
  {| objects := objects w; next_object := next_object w; oc := c |}.

Abbreviation call := (cmd world).

(** A new object, with one reference. *)
Definition new_object (ob : object) : call Z := λ w,
  (Ret (next_object w),
   {| objects := <[next_object w := ob]> (objects w); next_object := next_object w + 1; oc := oc w |}).

(** The object a reference points to. *)
Definition SvRV (o : Z) : call object := λ w,
  match objects w !! o with
  | Some ob => (Ret ob, w)
  | None => (Fault "freed SV", w)
  end.

Definition with_refcnt (ob : object) (n : nat) : object :=
  {| refcnt := n; stash := stash ob; contents := contents ob; ext_magic := ext_magic ob |}.

Definition REFCNT_inc (o : Z) : call unit :=
  ob ← SvRV o;
  cmodify (λ w, set_objects (<[o := with_refcnt ob (S (refcnt ob))]> (objects w)) w).

(** [wrapper_cleanup], which the magic of a dying wrapper calls. *)
Definition wrapper_cleanup (dirty : bool) (ob : object) (w : world) : world :=
  match ext_magic ob with
  | Some (ptr, _) => if dirty then w else set_oc (ObjCache.ObjCache_Delete (oc w) ptr) w
  | None => w
  end.

(** [SvREFCNT_dec]: the last reference frees the object, which clears the weak
    references to it, runs its magic, and releases the arena it holds. *)
Fixpoint REFCNT_dec (fuel : nat) (o : Z) (w : world) : world :=
  match fuel, objects w !! o with
  | S fuel, Some ob =>
      match refcnt ob with
      | S (S n) => set_objects (<[o := with_refcnt ob (S n)]> (objects w)) w
      | _ =>
          let w := set_oc (ObjCache.perl_death (oc w) o) w in
          let w := wrapper_cleanup false ob w in
          let w := set_objects (delete o (objects w)) w in
          match contents ob with
          | HV _ (Some (PRef a)) _ => REFCNT_dec fuel a w
          | _ => w
          end
      end
  | _, _ => w
  end.

(** [newSVsv]: a copy of a reference is another reference. *)
Definition newSVsv (sv : psv) : call psv :=
  match sv with
  | PRef o => REFCNT_inc o;; mret sv
  | _ => mret sv
  end.

Definition SvOK (sv : option psv) : bool :=
  match sv with None | Some PUndef => false | _ => true end.

(** ** utils.c *)

Section Wrappers.
(** [sv_derived_from] on class names. *)
Context (derived : string → string → bool).

Definition sv_derived_from (ob : object) (class : string) : bool :=
  match stash ob with Some c => derived c class | None => false end.

Definition GetMagic (sv : option psv) : call (option (Z * Z)) :=
  match sv with
  | Some (PRef o) => ob ← SvRV o; mret (ext_magic ob)
  | _ => mret None
  end.

Definition WrapArenaBoundObject (ptr : Z) (arena_sv : option psv) (class : string) (flags : Z)
  : call psv :=
  if ptr =? 0 then mret PUndef
  else
    w ← cget;
    let '(cached, c) := ObjCache.ObjCache_Get (oc w) ptr in
    cput (set_oc c w);;
    match cached with
    | Some o => REFCNT_inc o;; mret (PRef o)
    | None =>
        arena ← (match arena_sv with
                 | Some PUndef | None => mret None
                 | Some sv => sv ← newSVsv sv; mret (Some sv)
                 end : call (option psv));
        o ← new_object {| refcnt := 1; stash := Some class; contents := HV (Some (SIV ptr)) arena None;
                          ext_magic := Some (ptr, flags) |};
        cmodify (λ w, set_oc (ObjCache.ObjCache_Add (oc w) ptr (Some o)) w);;
        mret (PRef o)
    end.

(** [PerlUpb_GetArenaBoundObject_Silent]: the pointer, 0 for NULL. *)
Definition GetArenaBoundObject_Silent (sv : option psv) (class_name : option string) : call Z :=
  match sv with
  | Some (PRef o) =>
      ob ← SvRV o;
      match contents ob with
      | NotHV _ => mret 0
      | HV upb_ptr _ _ =>
          if match class_name with Some c => negb (sv_derived_from ob c) | None => false end
          then mret 0
          else match ext_magic ob with
               | None => mret 0
               | Some _ => mret (match upb_ptr with Some (SIV p) => p | _ => 0 end)
               end
      end
  | _ => mret 0
  end.

(** The messages without their arguments. *)
Definition GetArenaBoundObject (sv : option psv) (class_name : option string) : call Z :=
  if negb (SvOK sv) then mret 0
  else
    ptr ← GetArenaBoundObject_Silent sv class_name;
    if negb (ptr =? 0) then mret ptr
    else match sv with
    | Some (PRef o) =>
        ob ← SvRV o;
        if bool_decide (stash ob = None) then ccroak "Invalid message object: got unblessed reference"
        else if match class_name with Some c => negb (sv_derived_from ob c) | None => true end
        then ccroak "Invalid message object: expected another class"
        else match contents ob with
        | NotHV _ => ccroak "Invalid message object: underlying SV is not HASH"
        | HV _ _ _ => ccroak "Invalid message object: _upb_ptr missing"
        end
    | _ => ccroak "Invalid message object: SV is not a reference"
    end.

Definition IsXSBacked (sv : option psv) : call bool :=
  match sv with
  | Some (PRef o) =>
      ob ← SvRV o;
      mret (match contents ob with HV (Some _) _ _ => true | _ => false end)
  | _ => mret false
  end.

Definition GetArenaFromObject (sv : option psv) : call (option psv) :=
  match sv with
  | Some (PRef o) =>
      ob ← SvRV o;
      mret (match contents ob with HV _ arena _ => arena | NotHV _ => None end)
  | _ => mret None
  end.

(** ** Histories *)

(** Perl makes some other object (an arena, a hash thawed from a dump), wraps a
    pointer, drops a reference, changes or empties the cache. *)
Inductive wop :=
  | WObject (class : option string) (c : body)
  | WWrap (ptr : Z) (arena_sv : option psv) (class : string) (flags : Z)
  | WDrop (o : Z)
  | WSetCapacity (capacity : Z)
  | WClear.

Definition run_wop (op : wop) : call psv :=
  match op with
  | WObject class c =>
      o ← new_object {| refcnt := 1; stash := class; contents := c; ext_magic := None |};
      mret (PRef o)
  | WWrap ptr arena class flags => WrapArenaBoundObject ptr arena class flags
  | WDrop o => cmodify (λ w, REFCNT_dec (S (size (objects w))) o w);; mret PUndef
  | WSetCapacity n => cmodify (λ w, set_oc (ObjCache.ObjCache_SetCapacity (oc w) n) w);; mret PUndef
  | WClear => cmodify (λ w, set_oc (ObjCache.ObjCache_Clear false (oc w)) w);; mret PUndef
  end.

Fixpoint run_wops (ops : list wop) (w : world) : world :=
  match ops with
  | [] => w
  | op :: ops => run_wops ops (run_wop op w).2
  end.

Definition no_objects (capacity : Z) : world :=
  {| objects := ∅; next_object := 1; oc := ObjCache.ObjCache_Init capacity |}.
End Wrappers.

(** ** What the cache can answer *)

Lemma evict_loop_sub q : ∀ st, ObjCache.cache (ObjCache.evict_loop st q) ⊆ ObjCache.cache st.
Proof.
  induction q as [|k q IH]; intros st; simpl; [done|]. case_match; [|done].
  etrans; [apply IH|]. simpl. apply delete_subseteq.
Qed.

Lemma Add_sub st ptr o k v :
  ObjCache.cache (ObjCache.ObjCache_Add st ptr (Some o)) !! k = Some v →
  (k = ptr ∧ v = Some o) ∨ ObjCache.cache st !! k = Some v.
Proof.
  unfold ObjCache.ObjCache_Add. destruct (ptr =? 0); [auto|]. intros H.
  eapply lookup_weaken in H; [|apply evict_loop_sub]. simpl in H.
  apply lookup_insert_Some in H. naive_solver.
Qed.

Lemma cache_answer st ptr r st' : ObjCache.ObjCache_Get st ptr = (r, st') →
  ObjCache.cache st' ⊆ ObjCache.cache st ∧
  (∀ o, r = Some o → ptr ≠ 0 ∧ ObjCache.cache st !! ptr = Some (Some o)).
Proof.
  unfold ObjCache.ObjCache_Get. destruct (Z.eqb_spec ptr 0); [naive_solver|]. simpl.
  destruct (ObjCache.cache st !! ptr) as [[o|]|] eqn:E; intros [= <- <-]; simpl.
  - naive_solver.
  - split; [apply delete_subseteq|done].
  - naive_solver.
Qed.

Lemma Delete_sub st ptr : ObjCache.cache (ObjCache.ObjCache_Delete st ptr) ⊆ ObjCache.cache st.
Proof.
  unfold ObjCache.ObjCache_Delete. destruct (ptr =? 0); [done|]. simpl.
  destruct (_ !! ptr); simpl; [apply delete_subseteq|done].
Qed.

Lemma perl_death_spec st o k v : ObjCache.cache (ObjCache.perl_death st o) !! k = Some (Some v) →
  v ≠ o ∧ ObjCache.cache st !! k = Some (Some v).
Proof.
  simpl. rewrite lookup_fmap. intros (w & E & Hw)%fmap_Some.
  case_decide; [done|]. subst w. naive_solver.
Qed.

(** ** The invariant *)

(** A wrapper of [ptr]: a blessed hash with the pointer in its slot and its magic. *)
Definition wraps_as (class : string) (ob : object) (ptr : Z) : Prop :=
  stash ob = Some class ∧ (∃ arena pool, contents ob = HV (Some (SIV ptr)) arena pool) ∧
  (∃ flags, ext_magic ob = Some (ptr, flags)).

Definition wraps (kind : Z → string) (ob : object) (ptr : Z) : Prop := wraps_as (kind ptr) ob ptr.

(** Every cached object is alive and stands, in the sense of [R], for its key. *)
Record cache_inv (R : object → Z → Prop) (w : world) : Prop := {
  inv_cached : ∀ ptr o, ObjCache.cache (oc w) !! ptr = Some (Some o) →
    ptr ≠ 0 ∧ ∃ ob, objects w !! o = Some ob ∧ R ob ptr;
  inv_next : ∀ o, is_Some (objects w !! o) → o < next_object w }.

Section Cache_inv.
Context (R : object → Z → Prop).
Context (R_same : ∀ ob ob' ptr, stash ob' = stash ob → contents ob' = contents ob →
  ext_magic ob' = ext_magic ob → R ob ptr → R ob' ptr).

(** A state whose cache knows no more and whose wrappers are still there. *)
Lemma inv_weaken w w' :
  cache_inv R w → next_object w ≤ next_object w' →
  (∀ ptr o, ObjCache.cache (oc w') !! ptr = Some (Some o) →
    ObjCache.cache (oc w) !! ptr = Some (Some o) ∧
    ∀ ob, objects w !! o = Some ob → ∃ ob', objects w' !! o = Some ob' ∧ stash ob' = stash ob ∧
      contents ob' = contents ob ∧ ext_magic ob' = ext_magic ob) →
  (∀ o, is_Some (objects w' !! o) → is_Some (objects w !! o) ∨ o < next_object w') →
  cache_inv R w'.
Proof.
  intros [Hc Hn] Hle Hsub Hobj. split.
  - intros ptr o (Hin & Hk)%Hsub. destruct (Hc ptr o Hin) as (Hp & ob & Hob & Hw).
    destruct (Hk ob Hob) as (ob' & Hob' & E1 & E2 & E3).
    split; [done|]. exists ob'. split; [done|]. by apply (R_same ob).
  - intros o [H|H]%Hobj; [|done]. specialize (Hn o H). lia.
Qed.

Lemma inv_oc w c : cache_inv R w →
  (∀ k v, ObjCache.cache c !! k = Some (Some v) → ObjCache.cache (oc w) !! k = Some (Some v)) →
  cache_inv R (set_oc c w).
Proof. intros Hi Hs. eapply inv_weaken; [done|simpl; lia|naive_solver|naive_solver]. Qed.

Lemma inv_refcnt w o ob n : cache_inv R w → objects w !! o = Some ob →
  cache_inv R (set_objects (<[o := with_refcnt ob n]> (objects w)) w).
Proof.
  intros Hi Ho. eapply inv_weaken; [done|simpl; lia| |]; simpl.
  - intros ptr o' Hin. split; [done|]. intros ob' Hob'. destruct (decide (o' = o)) as [->|].
    + rewrite Ho in Hob'. injection Hob' as <-. rewrite lookup_insert_eq. eauto.
    + rewrite lookup_insert_ne by done. eauto.
  - intros o' H. destruct (decide (o' = o)) as [->|]; [left; eauto|].
    rewrite lookup_insert_ne in H by done. auto.
Qed.

Lemma inv_delete w o : cache_inv R w →
  (∀ ptr, ObjCache.cache (oc w) !! ptr ≠ Some (Some o)) →
  cache_inv R (set_objects (delete o (objects w)) w).
Proof.
  intros Hi Ho. eapply inv_weaken; [done|simpl; lia| |]; simpl.
  - intros ptr o' Hin. split; [done|]. intros ob' Hob'.
    rewrite lookup_delete_ne by naive_solver. eauto.
  - intros o' H. rewrite lookup_delete in H. case_decide; [by destruct H|auto].
Qed.

Lemma REFCNT_dec_inv fuel : ∀ o w, cache_inv R w → cache_inv R (REFCNT_dec fuel o w).
Proof.
  induction fuel as [|fuel IH]; intros o w Hi; [done|]. cbn [REFCNT_dec].
  destruct (objects w !! o) as [ob|] eqn:Ho; [|done].
  set (w1 := set_oc (ObjCache.perl_death (oc w) o) w).
  set (w2 := wrapper_cleanup false ob w1).
  assert (cache_inv R (set_objects (delete o (objects w2)) w2)) as Hi2.
  { assert (cache_inv R w1) as Hi1 by (apply inv_oc; [done|]; by intros k v [_ ?]%perl_death_spec).
    assert (cache_inv R w2 ∧ ∀ k v, ObjCache.cache (oc w2) !! k = Some v →
      ObjCache.cache (oc w1) !! k = Some v) as [Hi2 Hsub].
    { unfold w2, wrapper_cleanup. destruct (ext_magic ob) as [[ptr f]|]; [|done].
      assert (∀ k v, ObjCache.cache (ObjCache.ObjCache_Delete (oc w1) ptr) !! k = Some v →
        ObjCache.cache (oc w1) !! k = Some v) as Hd
        by (intros k v H; by eapply lookup_weaken; [|apply Delete_sub]).
      split; [|done]. apply inv_oc; [done|]. intros k v. apply Hd. }
    apply inv_delete; [done|]. intros ptr Hc. apply Hsub, perl_death_spec in Hc. naive_solver. }
  destruct (refcnt ob) as [|[|n]]; [| |by apply inv_refcnt];
    destruct (contents ob) as [? [[| |a]|] ?|]; auto.
Qed.

Lemma new_object_inv w ob : cache_inv R w → cache_inv R (new_object ob w).2.
Proof.
  intros Hi. eapply inv_weaken; [done|simpl; lia| |]; simpl.
  - intros ptr o Hin. split; [done|]. intros ob' Hob'.
    assert (o < next_object w) by (destruct Hi as [_ Hn]; eauto).
    rewrite lookup_insert_ne by lia. eauto.
  - intros o H. destruct (decide (o = next_object w)) as [->|]; [right; lia|].
    rewrite lookup_insert_ne in H by done. auto.
Qed.

Lemma inv_add w ptr o ob : cache_inv R w → ptr ≠ 0 → objects w !! o = Some ob → R ob ptr →
  cache_inv R (set_oc (ObjCache.ObjCache_Add (oc w) ptr (Some o)) w).
Proof.
  intros [Hc Hn] Hp Ho Hw. split; [|done]. intros ptr' o' [[-> [= ->]]|H]%Add_sub; eauto.
Qed.

(** A reference that is alive. *)
Definition sv_live (w : world) (sv : psv) : Prop :=
  match sv with PRef o => is_Some (objects w !! o) | _ => True end.

(** Objects stay, up to their reference counts; what is new is not a pool. *)
Record extends (w w' : world) : Prop := {
  ext_old : ∀ k ob, objects w !! k = Some ob → ∃ n, objects w' !! k = Some (with_refcnt ob n);
  ext_new : ∀ k ob', objects w' !! k = Some ob' → is_Some (objects w !! k) ∨ pool_slot ob' = None }.

Lemma extends_objects w w' : objects w' = objects w → extends w w'.
Proof.
  intros E. split; rewrite E; intros k ob H; [exists (refcnt ob); by destruct ob|by left].
Qed.

Lemma extends_trans w1 w2 w3 : extends w1 w2 → extends w2 w3 → extends w1 w3.
Proof.
  intros [H12 N12] [H23 N23]. split.
  - intros k ob (n & H)%H12. apply H23 in H as (m & H). by exists m.
  - intros k ob' H. destruct (N23 k ob' H) as [[ob2 Hk]|Hk]; [|auto].
    destruct (H23 _ _ Hk) as [n Hn]. rewrite Hn in H. injection H as <-.
    destruct (N12 k ob2 Hk); auto.
Qed.

Lemma extends_new w ob : (∀ o, is_Some (objects w !! o) → o < next_object w) →
  pool_slot ob = None → extends w (new_object ob w).2.
Proof.
  intros Hn Hp. split; intros k ob'; simpl.
  - intros H. assert (k < next_object w) by eauto. rewrite lookup_insert_ne by lia.
    exists (refcnt ob'). by destruct ob'.
  - rewrite lookup_insert. case_decide; [naive_solver|eauto].
Qed.

Lemma REFCNT_inc_ret w o : is_Some (objects w !! o) → cache_inv R w →
  ∃ w', REFCNT_inc o w = (Ret tt, w') ∧ cache_inv R w' ∧ oc w' = oc w ∧
    next_object w' = next_object w ∧
    (∀ k ob, objects w !! k = Some ob → ∃ n, objects w' !! k = Some (with_refcnt ob n)) ∧
    extends w w'.
Proof.
  intros [ob Ho] Hi. unfold REFCNT_inc, SvRV, mbind, cmd_bind. rewrite Ho.
  eexists. split; [done|]. split_and!; [by apply inv_refcnt|done|done| |];
    [|split; [|intros k ob' Hk; left; simpl in Hk; rewrite lookup_insert in Hk; case_decide; naive_solver]];
    simpl; intros k ob' Hk; (destruct (decide (k = o)) as [->|];
      [rewrite Ho in Hk; injection Hk as <-; rewrite lookup_insert_eq; eauto
      |rewrite lookup_insert_ne by done; exists (refcnt ob'); by destruct ob']).
Qed.

Lemma newSVsv_ret w sv : sv_live w sv → cache_inv R w →
  ∃ w', newSVsv sv w = (Ret sv, w') ∧ cache_inv R w' ∧ oc w' = oc w ∧ extends w w'.
Proof.
  intros Hl Hi. destruct sv as [| |o];
    [eexists; by split_and!; [..|apply extends_objects]
    |eexists; by split_and!; [..|apply extends_objects]|].
  destruct (REFCNT_inc_ret w o Hl Hi) as (w' & E & Hi' & Ho & _ & _ & Hx).
  exists w'. unfold newSVsv. by rewrite (cbind_ret _ _ _ _ _ E).
Qed.
Lemma Get_inv w ptr r c : cache_inv R w → ObjCache.ObjCache_Get (oc w) ptr = (r, c) →
  cache_inv R (set_oc c w) ∧ ∀ o, r = Some o → ∃ ob, objects w !! o = Some ob ∧ R ob ptr.
Proof.
  intros Hi [Hsub Hr]%cache_answer. split.
  - apply inv_oc; [done|]. intros k v H. by eapply lookup_weaken.
  - intros o [_ Hc]%Hr. destruct Hi as [Hi _]. by destruct (Hi _ _ Hc) as [_ ?].
Qed.

Lemma Wrap_spec w ptr arena_sv class flags : cache_inv R w → ptr ≠ 0 →
  (∀ ob, wraps_as class ob ptr → R ob ptr) →
  (∀ sv, arena_sv = Some sv → sv_live w sv) →
  ∃ o w', WrapArenaBoundObject ptr arena_sv class flags w = (Ret (PRef o), w') ∧
    cache_inv R w' ∧ extends w w' ∧ ∃ ob, objects w' !! o = Some ob ∧ R ob ptr.
Proof.
  intros Hi Hp HR Ha. unfold WrapArenaBoundObject. rewrite (proj2 (Z.eqb_neq ptr 0)) by done.
  rewrite (cbind_ret _ _ w w w) by done.
  destruct (ObjCache.ObjCache_Get (oc w) ptr) as [r c] eqn:Eg.
  destruct (Get_inv w ptr r c Hi Eg) as [Hi1 Hr].
  rewrite (cbind_ret _ _ w tt (set_oc c w)) by done. set (w1 := set_oc c w) in *.
  assert (extends w w1) as Hx1 by (by apply extends_objects).
  destruct r as [o|].
  - destruct (Hr o eq_refl) as (ob & Ho & Hw).
    destruct (REFCNT_inc_ret w1 o ltac:(by exists ob) Hi1) as (w2 & E & Hi2 & _ & _ & Hk & Hx2).
    rewrite (cbind_ret _ _ _ _ _ E). exists o, w2. split_and!; [done|done|by eapply extends_trans|].
    destruct (Hk o ob Ho) as [n Hn]. exists (with_refcnt ob n). split; [done|]. by apply (R_same ob).
  - assert (∃ arena w2, (match arena_sv with
        | Some PUndef | None => mret None
        | Some sv => sv ← newSVsv sv; mret (Some sv) end : call (option psv)) w1 = (Ret arena, w2) ∧
        cache_inv R w2 ∧ extends w1 w2) as (arena & w2 & E & Hi2 & Hx2).
    { destruct arena_sv as [sv|]; [|exists None, w1; by split_and!; [..|apply extends_objects]].
      assert (sv_live w1 sv) as Hl by (specialize (Ha sv eq_refl); by destruct sv).
      destruct (newSVsv_ret w1 sv Hl Hi1) as (w2 & E & Hi2 & _ & Hx2).
      destruct sv as [| |a]; [exists None, w1; by split_and!; [..|apply extends_objects]
        |exists (Some PPlain), w2|exists (Some (PRef a)), w2];
        by rewrite (cbind_ret _ _ _ _ _ E). }
    rewrite (cbind_ret _ _ _ _ _ E).
    set (ob := {| refcnt := 1; stash := _; contents := _; ext_magic := _ |}).
    assert (cache_inv R (new_object ob w2).2) as Hi3 by (by apply new_object_inv).
    assert (extends w2 (new_object ob w2).2) as Hx3 by (apply extends_new; [apply Hi2|done]).
    assert (R ob ptr) as Hw by (apply HR; split_and!; simpl; eauto).
    rewrite (cbind_ret _ _ w2 (next_object w2) (new_object ob w2).2) by done.
    set (w3 := (new_object ob w2).2) in *.
    assert (objects w3 !! next_object w2 = Some ob) as Ho by (apply lookup_insert_eq).
    rewrite (cbind_ret _ _ w3 tt
      (set_oc (ObjCache.ObjCache_Add (oc w3) ptr (Some (next_object w2))) w3)) by done.
    eexists _, _. split; [done|]. split_and!; [by eapply inv_add| |by exists ob].
    apply (extends_trans _ w3); [|by apply extends_objects].
    by apply (extends_trans _ w2); [apply (extends_trans _ w1)|].
Qed.
End Cache_inv.

Definition inv (kind : Z → string) : world → Prop := cache_inv (wraps kind).

Lemma wraps_same kind ob ob' ptr : stash ob' = stash ob → contents ob' = contents ob →
  ext_magic ob' = ext_magic ob → wraps kind ob ptr → wraps kind ob' ptr.
Proof. unfold wraps, wraps_as. by intros -> -> ->. Qed.

(** Dropping references removes objects and changes nothing else but counts. *)
Lemma REFCNT_dec_same fuel : ∀ o w k ob', objects (REFCNT_dec fuel o w) !! k = Some ob' →
  ∃ ob n, objects w !! k = Some ob ∧ ob' = with_refcnt ob n.
Proof.
  assert (∀ ob, ob = with_refcnt ob (refcnt ob)) as Hid by (by intros []).
  induction fuel as [|fuel IH]; intros o w k ob'; cbn [REFCNT_dec]; [eauto|].
  destruct (objects w !! o) as [ob|] eqn:Ho; [|eauto].
  set (w1 := wrapper_cleanup false ob _). set (w2 := set_objects (delete o (objects w1)) w1).
  assert (objects w1 = objects w) as E1.
  { unfold w1, wrapper_cleanup. by destruct (ext_magic ob) as [[]|]. }
  assert (∀ k ob', objects w2 !! k = Some ob' → ∃ ob n, objects w !! k = Some ob ∧ ob' = with_refcnt ob n)
    as H2.
  { intros k' c. unfold w2. simpl. rewrite E1. intros [_ H]%lookup_delete_Some. eauto. }
  destruct (refcnt ob) as [|[|n]];
    [destruct (contents ob) as [? [[| |a]|] ?|]|destruct (contents ob) as [? [[| |a]|] ?|]|];
    try (by apply H2); try (intros (c & n & Hc & ->)%IH; destruct (H2 _ _ Hc) as (d & m & Hd & ->); by exists d, n).
  simpl. rewrite lookup_insert. case_decide as E; [|eauto]. intros [= <-]. subst k. eauto.
Qed.

Lemma REFCNT_dec_objects fuel o w k ob' : objects (REFCNT_dec fuel o w) !! k = Some ob' →
  ∃ ob, objects w !! k = Some ob ∧ contents ob' = contents ob.
Proof. intros (ob & n & Ho & ->)%REFCNT_dec_same. by exists ob. Qed.

Lemma REFCNT_dec_last fuel o w ob : objects w !! o = Some ob → (refcnt ob ≤ 1)%nat →
  objects (REFCNT_dec (S fuel) o w) !! o = None.
Proof.
  intros Ho Hr. cbn [REFCNT_dec]. rewrite Ho.
  set (w1 := wrapper_cleanup false ob _). set (w2 := set_objects (delete o (objects w1)) w1).
  assert (objects w2 !! o = None) as H2 by (unfold w2; apply lookup_delete_eq).
  destruct (refcnt ob) as [|[|n]]; [| |lia];
    destruct (contents ob) as [? [[| |a]|] ?|]; try done;
    (destruct (objects (REFCNT_dec fuel a w2) !! o) as [c|] eqn:E; [|done];
     apply REFCNT_dec_objects in E as (d & Hd & _); congruence).
Qed.

(** ** Wrapping and unwrapping *)

Section Round_trip.
Context (derived : string → string → bool) (kind : Z → string).

(** A wrapper with a reference of the caller's. *)
Definition wrapper_of (w : world) (o ptr : Z) : Prop :=
  ∃ ob, objects w !! o = Some ob ∧ wraps kind ob ptr.

Lemma unwrap_as w o ob cls ptr class : objects w !! o = Some ob → wraps_as cls ob ptr → ptr ≠ 0 →
  GetArenaBoundObject derived (Some (PRef o)) (Some class) w =
    if derived cls class then (Ret ptr, w) else (Croak "Invalid message object: expected another class", w).
Proof.
  intros Ho (Hs & (arena & pool & Hc) & (flags & Hm)) Hp.
  assert (SvRV o w = (Ret ob, w)) as Er by (unfold SvRV; by rewrite Ho).
  assert (GetArenaBoundObject_Silent derived (Some (PRef o)) (Some class) w =
    (Ret (if derived cls class then ptr else 0), w)) as E.
  { unfold GetArenaBoundObject_Silent. rewrite (cbind_ret _ _ _ _ _ Er).
    unfold sv_derived_from. rewrite Hc, Hs, Hm. by destruct (derived cls class). }
  unfold GetArenaBoundObject. cbn [SvOK negb]. rewrite (cbind_ret _ _ _ _ _ E).
  destruct (derived cls class) eqn:Hd; [by rewrite (proj2 (Z.eqb_neq ptr 0))|].
  cbn [Z.eqb negb]. rewrite (cbind_ret _ _ _ _ _ Er). unfold sv_derived_from. rewrite Hs.
  by rewrite bool_decide_eq_false_2, Hd.
Qed.

Lemma unwrap w o ptr class : wrapper_of w o ptr → ptr ≠ 0 → derived (kind ptr) class = true →
  GetArenaBoundObject derived (Some (PRef o)) (Some class) w = (Ret ptr, w).
Proof. intros (ob & Ho & Hw) Hp Hd. by rewrite (unwrap_as w o ob (kind ptr) ptr class Ho Hw Hp), Hd. Qed.

End Round_trip.

(** *** Histories *)

(** A wrapper of a pointer as its own class. *)
Definition stands_for (ob : object) (ptr : Z) : Prop := ptr ≠ 0 ∧ ∃ class, wraps_as class ob ptr.

Lemma stands_for_same ob ob' ptr : stash ob' = stash ob → contents ob' = contents ob →
  ext_magic ob' = ext_magic ob → stands_for ob ptr → stands_for ob' ptr.
Proof. unfold stands_for, wraps_as. by intros -> -> ->. Qed.

(** All that carries the magic is a wrapper, and what is cached is of its key. *)
Record wrappers_ok (w : world) : Prop := {
  wo_cache : cache_inv stands_for w;
  wo_magic : ∀ o ob ptr flags, objects w !! o = Some ob → ext_magic ob = Some (ptr, flags) → stands_for ob ptr }.

(** What a call makes is the wrapper it was asked for. *)
Lemma REFCNT_inc_same o w k ob' : objects (REFCNT_inc o w).2 !! k = Some ob' →
  ∃ ob n, objects w !! k = Some ob ∧ ob' = with_refcnt ob n.
Proof.
  assert (∀ ob, ob = with_refcnt ob (refcnt ob)) as Hid by (by intros []).
  unfold REFCNT_inc, SvRV, mbind, cmd_bind. destruct (objects w !! o) as [ob|] eqn:Ho; [|eauto].
  simpl. rewrite lookup_insert. case_decide as E; [|eauto]. intros [= <-]. subst k. eauto.
Qed.

Lemma newSVsv_same sv w k ob' : objects (newSVsv sv w).2 !! k = Some ob' →
  ∃ ob n, objects w !! k = Some ob ∧ ob' = with_refcnt ob n.
Proof.
  assert (∀ ob, ob = with_refcnt ob (refcnt ob)) as Hid by (by intros []).
  destruct sv as [| |o]; simpl; [eauto..|]. unfold mbind, cmd_bind.
  pose proof (REFCNT_inc_same o w k ob') as H. destruct (REFCNT_inc o w) as [[]?]; exact H.
Qed.

Lemma arena_copy_same arena_sv w1 w2 r :
  (match arena_sv with
   | Some PUndef | None => mret None
   | Some sv => sv ← newSVsv sv; mret (Some sv)
   end : call (option psv)) w1 = (r, w2) →
  ∀ k ob', objects w2 !! k = Some ob' → ∃ ob n, objects w1 !! k = Some ob ∧ ob' = with_refcnt ob n.
Proof.
  assert (∀ ob, ob = with_refcnt ob (refcnt ob)) as Hid by (by intros []).
  intros E k ob'. destruct arena_sv as [[| |o]|]; [injection E as _ <-; eauto|injection E as _ <-; eauto| |injection E as _ <-; eauto].
  pose proof (newSVsv_same (PRef o) w1 k ob') as H. revert E.
  unfold mbind at 1, cmd_bind at 1. destruct (newSVsv (PRef o) w1) as [[]?]; intros [= <- <-]; exact H.
Qed.

Lemma Wrap_objects ptr arena_sv class flags w k ob' : ptr ≠ 0 →
  objects (WrapArenaBoundObject ptr arena_sv class flags w).2 !! k = Some ob' →
  (∃ ob n, objects w !! k = Some ob ∧ ob' = with_refcnt ob n) ∨ wraps_as class ob' ptr.
Proof.
  assert (∀ ob, ob = with_refcnt ob (refcnt ob)) as Hid by (by intros []).
  intros Hp. unfold WrapArenaBoundObject. rewrite (proj2 (Z.eqb_neq ptr 0)) by done.
  rewrite (cbind_ret _ _ w w w) by done. destruct (ObjCache.ObjCache_Get (oc w) ptr) as [r c].
  rewrite (cbind_ret _ _ w tt (set_oc c w)) by done. set (w1 := set_oc c w). destruct r as [o|].
  { pose proof (REFCNT_inc_same o w1 k ob') as H. unfold mbind, cmd_bind.
    destruct (REFCNT_inc o w1) as [[]?]; intros Hk; left; by apply H. }
  unfold mbind at 1, cmd_bind at 1. destruct (_ w1) as [r w2] eqn:E.
  pose proof (arena_copy_same arena_sv w1 w2 r) as H2. specialize (H2 E).
  destruct r as [a| |]; [|intros Hk; left; by apply H2..].
  clear E. unfold new_object, mbind, cmd_bind, cmodify. simpl. rewrite lookup_insert. case_decide as E; [|intros Hk; left; by apply H2].
  intros [= <-]. right. split_and!; simpl; eauto.
Qed.

(** Arenas that are given are alive. *)
Definition wop_live (w : world) (op : wop) : Prop :=
  match op with WWrap _ (Some sv) _ _ => sv_live w sv | _ => True end.
Fixpoint wops_live (ops : list wop) (w : world) : Prop :=
  match ops with
  | [] => True
  | op :: ops => wop_live w op ∧ wops_live ops (run_wop op w).2
  end.

Lemma wrappers_sub w w' : wrappers_ok w → cache_inv stands_for w' →
  (∀ k ob', objects w' !! k = Some ob' →
    (∃ ob n, objects w !! k = Some ob ∧ ob' = with_refcnt ob n) ∨ ext_magic ob' = None ∨
    ∃ ptr, stands_for ob' ptr) → wrappers_ok w'.
Proof.
  intros [_ Hm] Hc Hs. split; [done|]. intros o ob ptr flags Ho He.
  destruct (Hs o ob Ho) as [(ob0 & n & Ho0 & ->)|[E|(p & Hp & class & E1 & E2 & (fl & E3))]]; [|congruence|].
  - by apply (stands_for_same ob0), (Hm o ob0 ptr flags).
  - rewrite E3 in He. injection He as -> ->. split; [done|]. exists class. by split_and!; eauto.
Qed.

Lemma run_wop_wrappers op w : wrappers_ok w → wop_live w op → wrappers_ok (run_wop op w).2.
Proof.
  assert (∀ ob, ob = with_refcnt ob (refcnt ob)) as Hid by (by intros []).
  intros Hi Hl. pose proof (wo_cache _ Hi) as Hc.
  destruct op as [class c|ptr arena class flags|o|n|]; cbn [run_wop].
  - apply (wrappers_sub w); [done|apply (new_object_inv _ stands_for_same w _ Hc)|].
    intros k ob'. simpl. rewrite lookup_insert. case_decide; [intros [= <-]; auto|eauto].
  - destruct (decide (ptr = 0)) as [->|Hp]; [done|].
    destruct (Wrap_spec _ stands_for_same w ptr arena class flags Hc Hp) as (o & w' & E & Hc' & _).
    { intros ob Hw. split; [done|by exists class]. }
    { by intros sv ->. }
    apply (wrappers_sub w); [done|by rewrite E|]. intros k ob' [?|Hw]%Wrap_objects; [by left| |done].
    right. right. exists ptr. split; [done|by exists class].
  - change (wrappers_ok (REFCNT_dec (S (size (objects w))) o w)).
    apply (wrappers_sub w); [done|by apply (REFCNT_dec_inv _ stands_for_same)|].
    intros k ob' Hk%REFCNT_dec_same. by left.
  - apply (wrappers_sub w); [done|by apply (inv_oc _ stands_for_same)|]. simpl. eauto.
  - apply (wrappers_sub w); [done| |simpl; eauto].
    change (cache_inv stands_for (set_oc (ObjCache.ObjCache_Clear false (oc w)) w)).
    apply (inv_oc _ stands_for_same); [done|]. intros k v. simpl. by rewrite lookup_empty.
Qed.

Lemma run_wops_wrappers ops : ∀ w, wrappers_ok w → wops_live ops w → wrappers_ok (run_wops ops w).
Proof.
  induction ops as [|op ops IH]; intros w Hi; [done|].
  intros [Hop Hops]. apply IH; [by apply run_wop_wrappers|done].
Qed.

Lemma no_objects_inv R capacity : cache_inv R (no_objects capacity).
Proof. split; simpl; intros *; rewrite lookup_empty; [done|intros []; done]. Qed.

Lemma no_objects_wrappers capacity : wrappers_ok (no_objects capacity).
Proof. split; [apply no_objects_inv|]. simpl. intros *. by rewrite lookup_empty. Qed.

(** C18: a wrapper always stands for its pointer.  After any history of wrapping (the same
    address as several classes, one after the other or at once, among them), dropping
    references (with the clean-up of the wrappers that die), making other objects and
    resizing or emptying the cache: from every live wrapper [PerlUpb_GetArenaBoundObject]
    reads back exactly its pointer for every class it derives from, and croaks for every
    other class.  Wrapping any pointer succeeds and answers a live wrapper of just that
    pointer: of the class asked for, unless it is a wrapper that was there before. *)
Theorem wrapper_stands_for_pointer derived capacity ops : wops_live ops (no_objects capacity) →
  let w := run_wops ops (no_objects capacity) in
  (∀ o ob ptr flags, objects w !! o = Some ob → ext_magic ob = Some (ptr, flags) →
     ∃ c, stash ob = Some c ∧
     ∀ class, GetArenaBoundObject derived (Some (PRef o)) (Some class) w =
       if derived c class then (Ret ptr, w)
       else (Croak "Invalid message object: expected another class", w)) ∧
  ∀ ptr arena_sv class flags, ptr ≠ 0 → (∀ sv, arena_sv = Some sv → sv_live w sv) →
  ∃ o ob c w', WrapArenaBoundObject ptr arena_sv class flags w = (Ret (PRef o), w') ∧
    objects w' !! o = Some ob ∧ stash ob = Some c ∧ (c = class ∨ is_Some (objects w !! o)) ∧
    ∀ class', GetArenaBoundObject derived (Some (PRef o)) (Some class') w' =
      if derived c class' then (Ret ptr, w')
      else (Croak "Invalid message object: expected another class", w').
Proof.
  intros Hops w. assert (wrappers_ok w) as [Hc Hm].
  { apply run_wops_wrappers; [apply no_objects_wrappers|done]. }
  split.
  - intros o ob ptr flags Ho He. destruct (Hm o ob ptr flags Ho He) as (Hp & c & Hw).
    exists c. split; [apply Hw|]. intros class. by apply (unwrap_as _ _ _ ob).
  - intros ptr arena_sv class flags Hp Ha.
    destruct (Wrap_spec _ stands_for_same w ptr arena_sv class flags Hc Hp)
      as (o & w' & E & _ & _ & ob & Ho & _ & c & Hw); [|done|].
    { intros ob Hw. split; [done|by exists class]. }
    exists o, ob, c, w'. split_and!; [done|done|apply Hw| |intros class'; by apply (unwrap_as _ _ _ ob)].
    destruct (Wrap_objects ptr arena_sv class flags w o ob Hp) as [(ob0 & n & -> & _)|Hw'];
      [by rewrite E|by right|left]. destruct Hw as [E1 _], Hw' as [E2 _]. congruence.
Qed.

Definition one_kind (_ : Z) : string := "Protobuf::Message".
Definition same_class (a b : string) : bool := bool_decide (a = b).

(** A cache of one entry; the wrapper of 16 is pushed out and made again. *)
Definition crowded : list wop :=
  [WWrap 16 None "Protobuf::Message" 0; WWrap 32 None "Protobuf::Message" 0;
   WWrap 16 None "Protobuf::Message" 0].

Lemma wrapper_stands_for_pointer_witness :
  let w := run_wops crowded (no_objects 1) in
  (∀ o ob ptr flags, objects w !! o = Some ob → ext_magic ob = Some (ptr, flags) →
     ∃ c, stash ob = Some c ∧
     ∀ class, GetArenaBoundObject same_class (Some (PRef o)) (Some class) w =
       if same_class c class then (Ret ptr, w)
       else (Croak "Invalid message object: expected another class", w)) ∧
  ∀ ptr arena_sv class flags, ptr ≠ 0 → (∀ sv, arena_sv = Some sv → sv_live w sv) →
  ∃ o ob c w', WrapArenaBoundObject ptr arena_sv class flags w = (Ret (PRef o), w') ∧
    objects w' !! o = Some ob ∧ stash ob = Some c ∧ (c = class ∨ is_Some (objects w !! o)) ∧
    ∀ class', GetArenaBoundObject same_class (Some (PRef o)) (Some class') w' =
      if same_class c class' then (Ret ptr, w')
      else (Croak "Invalid message object: expected another class", w').
Proof. apply (wrapper_stands_for_pointer same_class 1 crowded). repeat split. Defined.

(** *** Where identity is lost *)

(** The clean-up of an evicted wrapper unregisters the newer wrapper of its pointer:
    wrapper 1 of pointer 16 is evicted, wrapper 3 takes its place; when 1 dies, 3 is
    alive but no longer found, and the pointer gets a third wrapper. *)
Example cleanup_unregisters_newer_wrapper :
  let w := run_wops crowded (no_objects 1) in
  (WrapArenaBoundObject 16 None "Protobuf::Message" 0 w).1 = Ret (PRef 3) ∧
  let w := run_wops [WDrop 1] w in
  is_Some (objects w !! 3) ∧
  (WrapArenaBoundObject 16 None "Protobuf::Message" 0 w).1 = Ret (PRef 4).
Proof. split; [by vm_compute|]. split; [by_compute|by vm_compute]. Qed.

(** A hash thawed from a dump has the slot but not the magic: the accessors' test
    accepts it, the unwrapping croaks. *)
Example thawed_object_is_xs_backed :
  let w := run_wops [WObject (Some "Protobuf::Message"%string) (HV (Some (SIV 16)) None None)]
             (no_objects 8) in
  (IsXSBacked (Some (PRef 1)) w).1 = Ret true ∧
  (GetArenaBoundObject same_class (Some (PRef 1)) (Some "Protobuf::Message"%string) w).1 =
    Croak "Invalid message object: _upb_ptr missing".
Proof. split; by vm_compute. Qed.
