(* ===== verification/DescriptorPool.v ===== *)
(** * Descriptor pools (xs/descriptor_pool/*.c, upb/reflection/def_pool.c)

    A pool of definitions: adding serialized files and sets of files to it, the
    look-ups, the Perl objects that stand for pools, and freezing. *)

From S2P Require Import Prelude Wrappers.
From S2P Require ObjCache.

(** ** upb's pool *)

(** [upb_deftype_t]: [UPB_DEFTYPE_FIELD] is [EXT]. *)
Inductive deftype := EXT | MSG | ENUM | ENUMVAL | SERVICE.

#[export] Instance deftype_eq_dec : EqDecision deftype.
Proof. solve_decision. Defined.

(** What a symbol stands for: the definition and the file it belongs to. *)
Record def := { def_type : deftype; def_ptr : Z; def_file : Z }.

Record upb_DefPool := { syms : gmap bytes def; files : gmap bytes Z }.

Definition empty_pool : upb_DefPool := {| syms := ∅; files := ∅ |}.

(** [upb_Status]: a message of at most 510 bytes. *)
Definition SetErrorFormat (text : bytes) : bytes := take 510 text.

(** [_upb_DefPool_InsertSym]. *)
Definition InsertSym (s : upb_DefPool) (sym : bytes) (v : def) : upb_DefPool + bytes :=
  match syms s !! sym with
  | Some _ => inr (SetErrorFormat (str "duplicate symbol '" ++ sym ++ str "'"))
  | None => inl {| syms := <[sym := v]> (syms s); files := files s |}
  end.

(** [remove_filedef]. *)
Definition remove_filedef (s : upb_DefPool) (file : Z) : upb_DefPool :=
  {| syms := filter (λ kv, def_file kv.2 ≠ file) (syms s); files := files s |}.

(** [_upb_DefPool_Unpack] after the lookup; 0 is NULL. *)
Definition Unpack (s : upb_DefPool) (sym : bytes) (type : deftype) : Z :=
  match syms s !! sym with
  | Some d => if decide (def_type d = type) then def_ptr d else 0
  | None => 0
  end.

Definition FindMessageByName (s : upb_DefPool) (sym : bytes) : Z := Unpack s sym MSG.
Definition FindEnumByName (s : upb_DefPool) (sym : bytes) : Z := Unpack s sym ENUM.
Definition FindServiceByName (s : upb_DefPool) (sym : bytes) : Z := Unpack s sym SERVICE.
Definition FindFileByName (s : upb_DefPool) (name : bytes) : Z := default 0 (files s !! name).

(** [strstr(msg, what)]. *)
Fixpoint starts_with (p s : bytes) : bool :=
  match p, s with
  | [], _ => true
  | c :: p, d :: s => (c =? d) && starts_with p s
  | _, _ => false
  end.
Fixpoint strstr (s what : bytes) : bool :=
  starts_with what s || match s with [] => false | _ :: s => strstr s what end.

(** [strrchr(msg, ' ')], and what follows it. *)
Definition SPACE : Z := 32.
Fixpoint after_last_space (s : bytes) : option bytes :=
  match s with
  | [] => None
  | c :: s =>
      match after_last_space s with
      | Some r => Some r
      | None => if c =? SPACE then Some s else None
      end
  end.

Section Pool.
(** Files as [upb] decodes them: [google_protobuf_FileDescriptorProto_parse] and
    [..._FileDescriptorSet_parse]; a file's name; the symbols [_upb_FileDef_Create] puts
    into a pool for a file, one after the other, and the error it raises after them, if
    any; the name of a file; the nested extension [upb_DefPool_FindExtensionByName] takes
    for a message in a message set, 0 if there is none. *)
Context {P : Type}.
Context (parse_file : bytes → option P) (parse_set : bytes → option (list P)).
Context (proto_name : P → bytes).
Context (create : upb_DefPool → P → list (bytes * deftype * Z) * option bytes).
Context (FileDef_Name : Z → bytes).
Context (message_set_extension : Z → Z).

Fixpoint insert_syms (s : upb_DefPool) (file : Z) (l : list (bytes * deftype * Z))
  : upb_DefPool * option bytes :=
  match l with
  | [] => (s, None)
  | (sym, type, ptr) :: l =>
      match InsertSym s sym {| def_type := type; def_ptr := ptr; def_file := file |} with
      | inl s => insert_syms s file l
      | inr error => (s, Some error)
      end
  end.

(** [_upb_DefPool_AddFile], memory sufficing; [file] is the new [upb_FileDef]. *)
Definition AddFile (s : upb_DefPool) (proto : P) (file : Z) : upb_DefPool * (Z + bytes) :=
  match files s !! proto_name proto with
  | Some _ => (s, inr (SetErrorFormat (str "duplicate file name " ++ proto_name proto)))
  | None =>
      let '(l, error) := create s proto in
      let '(s', duplicate) := insert_syms s file l in
      match duplicate, error with
      | None, None =>
          ({| syms := syms s'; files := <[proto_name proto := file]> (files s') |}, inl file)
      | Some e, _ | None, Some e => (remove_filedef s' file, inr (SetErrorFormat e))
      end
  end.

Definition FindExtensionByName (s : upb_DefPool) (sym : bytes) : Z :=
  match syms s !! sym with
  | Some d =>
      match def_type d with
      | EXT => def_ptr d
      | MSG => message_set_extension (def_ptr d)
      | _ => 0
      end
  | None => 0
  end.

(** [upb_FileDef_Name(upb_..._File(d))]. *)
Definition name_of_file (s : upb_DefPool) (sym : bytes) : bytes :=
  match syms s !! sym with Some d => FileDef_Name (def_file d) | None => [] end.

(** ** The library's pools *)

(** [PerlUpb_DescriptorPool]. *)
Record raw_pool := { pool : Z; frozen : bool }.

(** [temps] counts the transient arenas in use; [generated_sv] is the Perl variable
    [_generated_pool_ptr]. *)
Record pworld := {
  perl : world;
  raws : gmap Z raw_pool;
  pools : gmap Z upb_DefPool;
  next_c : Z;
  generated_pool_ptr : Z;
  generated_sv : option Z;
  temps : Z }.

Abbreviation pcall := (cmd pworld).

Definition set_perl (p : world) (w : pworld) : pworld :=
  {| perl := p; raws := raws w; pools := pools w; next_c := next_c w;
     generated_pool_ptr := generated_pool_ptr w; generated_sv := generated_sv w; temps := temps w |}.
Definition set_raws (r : gmap Z raw_pool) (w : pworld) : pworld :=
  {| perl := perl w; raws := r; pools := pools w; next_c := next_c w;
     generated_pool_ptr := generated_pool_ptr w; generated_sv := generated_sv w; temps := temps w |}.
Definition set_pools (p : gmap Z upb_DefPool) (w : pworld) : pworld :=
  {| perl := perl w; raws := raws w; pools := p; next_c := next_c w;
     generated_pool_ptr := generated_pool_ptr w; generated_sv := generated_sv w; temps := temps w |}.
Definition set_generated (g : Z) (sv : option Z) (w : pworld) : pworld :=
  {| perl := perl w; raws := raws w; pools := pools w; next_c := next_c w;
     generated_pool_ptr := g; generated_sv := sv; temps := temps w |}.
Definition set_temps (n : Z) (w : pworld) : pworld :=
  {| perl := perl w; raws := raws w; pools := pools w; next_c := next_c w;
     generated_pool_ptr := generated_pool_ptr w; generated_sv := generated_sv w; temps := n |}.

(** A call of the Perl side. *)
Definition on_perl {A} (m : call A) : pcall A := λ w,
  let '(r, p) := m (perl w) in (r, set_perl p w).

(** A fresh C address. *)
Definition fresh_c : pcall Z := λ w,
  (Ret (next_c w),
   {| perl := perl w; raws := raws w; pools := pools w; next_c := next_c w + 16;
      generated_pool_ptr := generated_pool_ptr w; generated_sv := generated_sv w; temps := temps w |}).

Definition raw_at (r : Z) : pcall raw_pool := λ w,
  match raws w !! r with Some p => (Ret p, w) | None => (Fault "freed PerlUpb_DescriptorPool", w) end.
Definition pool_at (p : Z) : pcall upb_DefPool := λ w,
  match pools w !! p with Some s => (Ret s, w) | None => (Fault "freed upb_DefPool", w) end.

(** [upb_DefPool_New]; [mem] whether memory suffices. *)
Definition DefPool_New (mem : bool) : pcall Z :=
  if mem then
    p ← fresh_c;
    cmodify (λ w, set_pools (<[p := empty_pool]> (pools w)) w);;
    mret p
  else mret 0.

Definition DefPool_Free (p : Z) : pcall unit :=
  pool_at p;;
  cmodify (λ w, set_pools (delete p (pools w)) w).

(** ** pool.c *)

Definition pool_class : string := "Protobuf::DescriptorPool".

Definition malloc_raw (p : Z) : pcall Z :=
  r ← fresh_c;
  cmodify (λ w, set_raws (<[r := {| pool := p; frozen := false |}]> (raws w)) w);;
  mret r.

Definition DescriptorPool_CreateRaw (mem : bool) : pcall Z :=
  p ← DefPool_New mem;
  if p =? 0 then ccroak "Failed to create upb_DefPool" else malloc_raw p.

Definition DescriptorPool_DestroyRaw (dirty : bool) (ptr : Z) : pcall unit :=
  if dirty then mret tt
  else if ptr =? 0 then mret tt
  else
    p ← raw_at ptr;
    w ← cget;
    (if negb (pool p =? 0) && negb (pool p =? generated_pool_ptr w) then
       on_perl (cmodify (λ w, set_oc (ObjCache.ObjCache_Delete (oc w) (pool p)) w));;
       DefPool_Free (pool p)
     else mret tt);;
    cmodify (λ w, set_raws (delete ptr (raws w)) w).

(** The class check and the IV of [_pool_ptr]; [None] where the C code gives up. *)
Definition pool_ptr_iv (sv : option psv) : pcall (option Z) :=
  match sv with
  | Some (PRef o) =>
      ob ← on_perl (SvRV o);
      if bool_decide (stash ob = Some pool_class) then
        mret (match pool_slot ob with Some (SIV r) => Some r | _ => None end)
      else ccroak "Argument is not a Protobuf::DescriptorPool object"
  | _ => ccroak "Argument is not a Protobuf::DescriptorPool object"
  end.

(** 0 is NULL. *)
Definition DescriptorPool_GetPool (sv : option psv) : pcall Z :=
  r ← pool_ptr_iv sv;
  match r with
  | None => mret 0
  | Some r => if r =? 0 then mret 0 else p ← raw_at r; mret (pool p)
  end.

Definition DescriptorPool_Freeze (sv : option psv) : pcall unit :=
  p ← DescriptorPool_GetPool sv;
  if p =? 0 then mret tt
  else
    r ← pool_ptr_iv sv;
    let r := default 0 r in
    raw ← raw_at r;
    cmodify (λ w, set_raws (<[r := {| pool := pool raw; frozen := true |}]> (raws w)) w).

Definition DescriptorPool_IsFrozen (sv : option psv) : pcall bool :=
  p ← DescriptorPool_GetPool sv;
  if p =? 0 then mret false
  else
    r ← pool_ptr_iv sv;
    raw ← raw_at (default 0 r);
    mret (frozen raw).

(** A blessed hash with [_pool_ptr]. *)
Definition pool_object (r : Z) : object :=
  {| refcnt := 1; stash := Some pool_class; contents := HV None None (Some (SIV r));
     ext_magic := None |}.

(** The wrapper of [p], registered in the object cache. *)
Definition wrap_pool (p r : Z) : pcall psv :=
  o ← on_perl (new_object (pool_object r));
  on_perl (cmodify (λ w, set_oc (ObjCache.ObjCache_Add (oc w) p (Some o)) w));;
  mret (PRef o).

Definition DescriptorPool_New (mem : bool) : pcall psv :=
  r ← DescriptorPool_CreateRaw mem;
  raw ← raw_at r;
  wrap_pool (pool raw) r.

Definition DescriptorPool_GetWrapper (p : Z) : pcall psv :=
  if p =? 0 then mret PUndef
  else
    w ← cget;
    let '(cached, c) := ObjCache.ObjCache_Get (oc (perl w)) p in
    on_perl (cmodify (set_oc c));;
    match cached with
    | Some o => on_perl (REFCNT_inc o);; mret (PRef o)
    | None => r ← malloc_raw p; wrap_pool p r
    end.

Definition DescriptorPool_Free (sv : option psv) : pcall unit :=
  match sv with
  | Some (PRef o) =>
      ob ← on_perl (SvRV o);
      if bool_decide (stash ob = Some pool_class) then
        match contents ob with
        | HV u a (Some (SIV r)) =>
            DescriptorPool_DestroyRaw false r;;
            on_perl (cmodify (λ w, set_objects (<[o :=
              {| refcnt := refcnt ob; stash := stash ob; contents := HV u a (Some (SIV 0));
                 ext_magic := ext_magic ob |}]> (objects w)) w))
        | _ => mret tt
        end
      else mret tt
  | _ => mret tt
  end.

Definition DescriptorPool_GetPoolRaw (ptr : Z) : pcall Z :=
  if ptr =? 0 then mret 0 else p ← raw_at ptr; mret (pool p).

Definition DescriptorPool_FileCount (sv : option psv) : pcall Z := mret 0.
Definition DescriptorPool_GetFile (sv : option psv) (index : Z) : pcall psv := mret PUndef.

Definition DescriptorPool_GeneratedPool (mem : bool) : pcall psv :=
  w ← cget;
  (if generated_pool_ptr w =? 0 then
     match generated_sv w with
     | Some p => cmodify (set_generated p (Some p))
     | None =>
         p ← DefPool_New mem;
         cmodify (set_generated p (Some p))
     end
   else mret tt);;
  w ← cget;
  DescriptorPool_GetWrapper (generated_pool_ptr w).

(** ** add.c *)

(** [upb_DefPool_AddFile] on the pool at [p]. *)
Definition DefPool_AddFile (p : Z) (proto : P) : pcall (Z + bytes) :=
  s ← pool_at p;
  file ← fresh_c;
  let '(s, r) := AddFile s proto file in
  cmodify (λ w, set_pools (<[p := s]> (pools w)) w);;
  mret r.

(** The explanation of a failure: the part in brackets after the status message. *)
Definition explain (s : upb_DefPool) (msg : bytes) : option bytes :=
  if strstr msg (str "duplicate symbol") then
    match after_last_space msg with
    | Some symbol =>
        let '(type_str, existing_file_name) :=
          if negb (FindMessageByName s symbol =? 0) then (str "message", name_of_file s symbol)
          else if negb (FindEnumByName s symbol =? 0) then (str "enum", name_of_file s symbol)
          else if negb (FindServiceByName s symbol =? 0) then (str "service", name_of_file s symbol)
          else (str "symbol", str "unknown file") in
        Some (str " (duplicate " ++ type_str ++ str " '" ++ symbol ++ str "' already defined in " ++
              existing_file_name ++ str ")")
    | None => None
    end
  else if strstr msg (str "duplicate file name") then
    Some (str " (already defined in this DescriptorPool)")
  else None.

Definition add_failure (head : bytes) (s : upb_DefPool) (msg : bytes) : string :=
  text (head ++ msg ++ default [] (explain s msg)).

Definition Acquire : pcall unit := cmodify (λ w, set_temps (temps w + 1) w).
Definition Release : pcall unit := cmodify (λ w, set_temps (temps w - 1) w).

Definition file_class : string := "Protobuf::Descriptor::File".
Definition FileDef_GetWrapper (f : Z) : pcall psv :=
  on_perl (WrapArenaBoundObject f None file_class 0).

(** [SvPVbyte]: [None] is a string with wide characters. *)
Definition SvPVbyte (serialized : option bytes) : pcall bytes :=
  match serialized with
  | Some data => mret data
  | None => ccroak "Wide character in subroutine entry"
  end.

Definition AddSerializedFile (self : option psv) (serialized : option bytes) : pcall psv :=
  is_frozen ← DescriptorPool_IsFrozen self;
  cguard (negb is_frozen) "Cannot add file to a frozen DescriptorPool";;
  p ← DescriptorPool_GetPool self;
  if p =? 0 then mret PUndef
  else
    data ← SvPVbyte serialized;
    Acquire;;
    match parse_file data with
    | None => Release;; ccroak "Failed to parse FileDescriptorProto"
    | Some proto =>
        r ← DefPool_AddFile p proto;
        Release;;
        match r with
        | inl file => FileDef_GetWrapper file
        | inr msg =>
            s ← pool_at p;
            ccroak (add_failure (str "Failed to add file to pool: ") s msg)
        end
    end.

(** [%zu]. *)
Fixpoint decimal_nat (fuel n : nat) (acc : bytes) : bytes :=
  match fuel with
  | O => acc
  | S fuel =>
      let acc := (48 + Z.of_nat (n mod 10)) :: acc in
      if (n <? 10)%nat then acc else decimal_nat fuel (n / 10) acc
  end.

(** [for (size_t i = 0; i < n; i++)]: the wrappers pushed to [av]. *)
Fixpoint add_files (p : Z) (i : nat) (l : list P) : pcall (list psv) :=
  match l with
  | [] => mret []
  | proto :: l =>
      r ← DefPool_AddFile p proto;
      match r with
      | inl file =>
          wrapper ← FileDef_GetWrapper file;
          rest ← add_files p (S i) l;
          mret (wrapper :: rest)
      | inr msg =>
          Release;;
          s ← pool_at p;
          ccroak (add_failure (str "Failed to add file " ++ decimal_nat (S i) i [] ++
                               str " to pool: ") s msg)
      end
  end.

Definition AddSerializedFileDescriptorSet (self : option psv) (serialized : option bytes)
  : pcall (option (list psv)) :=
  is_frozen ← DescriptorPool_IsFrozen self;
  cguard (negb is_frozen) "Cannot add file to a frozen DescriptorPool";;
  p ← DescriptorPool_GetPool self;
  if p =? 0 then mret None
  else
    data ← SvPVbyte serialized;
    Acquire;;
    match parse_set data with
    | None => Release;; ccroak "Failed to parse FileDescriptorSet"
    | Some l =>
        av ← add_files p 0 l;
        Release;;
        mret (Some av)
    end.

(** ** find.c *)

(** What is looked for, and the class of its wrapper. *)
Inductive sought := AFile | AMessage | AnEnum | AService | AnExtension.

Definition class_of (k : sought) : string :=
  match k with
  | AFile => file_class
  | AMessage => "Protobuf::Descriptor::MessageDef"
  | AnEnum => "Protobuf::Descriptor::Enum"
  | AService => "Protobuf::Descriptor::Service"
  | AnExtension => "Protobuf::Descriptor::Field"
  end.

Definition upb_find (k : sought) : upb_DefPool → bytes → Z :=
  match k with
  | AFile => FindFileByName
  | AMessage => FindMessageByName
  | AnEnum => FindEnumByName
  | AService => FindServiceByName
  | AnExtension => FindExtensionByName
  end.

(** The five functions differ in these two. *)
Definition find_by_name (k : sought) (self : option psv) (name : bytes) : pcall psv :=
  p ← DescriptorPool_GetPool self;
  if p =? 0 then mret PUndef
  else
    s ← pool_at p;
    on_perl (WrapArenaBoundObject (upb_find k s name) None (class_of k) 0).

Definition DescriptorPool_FindFileByName := find_by_name AFile.
Definition DescriptorPool_FindMessageByName := find_by_name AMessage.
Definition DescriptorPool_FindEnumByName := find_by_name AnEnum.
Definition DescriptorPool_FindServiceByName := find_by_name AService.
Definition DescriptorPool_FindExtensionByName := find_by_name AnExtension.

(** ** Adding a file, to upb's pool *)

(** The symbols of a pool belong to files of the pool. *)
Definition pool_ok (s : upb_DefPool) : Prop :=
  ∀ sym d, syms s !! sym = Some d → ∃ name, files s !! name = Some (def_file d).

Lemma insert_syms_spec file l : ∀ s s' r, insert_syms s file l = (s', r) →
  files s' = files s ∧ syms s ⊆ syms s' ∧
  (∀ sym d, syms s' !! sym = Some d → syms s !! sym = Some d ∨ def_file d = file) ∧
  match r with
  | None => ∀ sym type ptr, (sym, type, ptr) ∈ l →
      syms s' !! sym = Some {| def_type := type; def_ptr := ptr; def_file := file |}
  | Some e => ∃ sym, sym ∈ l.*1.*1 ∧ is_Some (syms s' !! sym) ∧
      e = SetErrorFormat (str "duplicate symbol '" ++ sym ++ str "'")
  end.
Proof.
  induction l as [|[[sym type] ptr] l IH]; intros s s' r; cbn [insert_syms].
  { intros [= <- <-]. split_and!; [done|done|auto|]. by intros ??? ?%not_elem_of_nil. }
  unfold InsertSym. destruct (syms s !! sym) as [d|] eqn:E.
  - intros [= <- <-]. split_and!; [done|done|auto|]. exists sym. rewrite !fmap_cons.
    split_and!; [by left|by eexists|done].
  - intros H. apply IH in H as (Hf & Hsub & Hnew & Hr). cbn [syms files] in *.
    assert (syms s ⊆ syms s') as Hs by (etrans; [by apply insert_subseteq|done]).
    split_and!; [done|done| |].
    + intros sym' d [H|H]%Hnew; [|auto]. apply lookup_insert_Some in H as [[-> <-]|[_ H]]; auto.
    + destruct r as [e|].
      * destruct Hr as (sym' & Hin & ? & ?). exists sym'. rewrite !fmap_cons.
        split_and!; [by right|done|done].
      * intros sym' type' ptr' [[= -> -> ->]|Hin]%elem_of_cons; [|by apply Hr].
        eapply lookup_weaken; [|exact Hsub]. apply lookup_insert_eq.
Qed.

Lemma remove_filedef_undo s s' file :
  files s' = files s → syms s ⊆ syms s' →
  (∀ sym d, syms s' !! sym = Some d → syms s !! sym = Some d ∨ def_file d = file) →
  (∀ sym d, syms s !! sym = Some d → def_file d ≠ file) →
  remove_filedef s' file = s.
Proof.
  intros Hf Hsub Hnew Hold. unfold remove_filedef. rewrite Hf.
  assert (filter (λ kv, def_file kv.2 ≠ file) (syms s') = syms s) as ->; [|by destruct s].
  apply map_eq. intros sym. apply option_eq. intros d. rewrite map_lookup_filter_Some. simpl.
  split.
  - intros [[H|H]%Hnew Hd]; [done|congruence].
  - intros H. split; [by eapply lookup_weaken|by eapply Hold].
Qed.

(** A failure leaves the pool as it was; a success adds the file and its symbols. *)
Lemma AddFile_spec s proto file s' r :
  AddFile s proto file = (s', r) →
  (∀ sym d, syms s !! sym = Some d → def_file d ≠ file) →
  match r with
  | inr e => s' = s
  | inl f => f = file ∧ files s !! proto_name proto = None ∧
      files s' = <[proto_name proto := file]> (files s) ∧ syms s ⊆ syms s' ∧
      (∀ sym d, syms s' !! sym = Some d → syms s !! sym = Some d ∨ def_file d = file) ∧
      ∀ sym type ptr, (sym, type, ptr) ∈ (create s proto).1 →
        syms s' !! sym = Some {| def_type := type; def_ptr := ptr; def_file := file |}
  end.
Proof.
  unfold AddFile. destruct (files s !! proto_name proto) as [f|] eqn:Ef; [by intros [= <- <-]|].
  destruct (create s proto) as [l error]. destruct (insert_syms s file l) as [s1 dup] eqn:Ei.
  apply insert_syms_spec in Ei as (Hf & Hsub & Hnew & Hr).
  intros H Hold. destruct dup as [e|]; [|destruct error as [e|]]; injection H as <- <-.
  - by apply remove_filedef_undo.
  - by apply remove_filedef_undo.
  - cbn [syms files fst]. rewrite Hf. by split_and!.
Qed.

(** *** What adding a file should do

    A file fits if its name and its symbols are new, no symbol comes twice, and its builder
    raises nothing; then exactly its symbols are added to those there are. *)
Definition file_fits (s : upb_DefPool) (proto : P) : bool :=
  bool_decide (files s !! proto_name proto = None) && bool_decide ((create s proto).2 = None) &&
  bool_decide (NoDup (create s proto).1.*1.*1) &&
  forallb (λ x : bytes * deftype * Z, bool_decide (syms s !! x.1.1 = None)) (create s proto).1.

Definition entry_of (file : Z) (x : bytes * deftype * Z) : bytes * def :=
  (x.1.1, {| def_type := x.1.2; def_ptr := x.2; def_file := file |}).
Definition with_file (s : upb_DefPool) (proto : P) (file : Z) : upb_DefPool :=
  {| syms := list_to_map (entry_of file <$> (create s proto).1) ∪ syms s;
     files := <[proto_name proto := file]> (files s) |}.

(** The files that fit, from the first on: how many, and the pool they make; the [i]-th has
    its definition at [file + 16 i]. *)
Fixpoint prefix_added (s : upb_DefPool) (file : Z) (l : list P) : nat * upb_DefPool :=
  match l with
  | [] => (0%nat, s)
  | proto :: l =>
      if file_fits s proto
      then let '(n, s') := prefix_added (with_file s proto file) (file + 16) l in (S n, s')
      else (0%nat, s)
  end.

Lemma insert_syms_exact file l : ∀ s,
  match insert_syms s file l with
  | (s', None) => s' = {| syms := list_to_map (entry_of file <$> l) ∪ syms s; files := files s |} ∧
      NoDup l.*1.*1 ∧ Forall (λ x : bytes * deftype * Z, syms s !! x.1.1 = None) l
  | (_, Some _) => ¬ (NoDup l.*1.*1 ∧ Forall (λ x : bytes * deftype * Z, syms s !! x.1.1 = None) l)
  end.
Proof.
  induction l as [|[[sym type] ptr] l IH]; intros s; cbn [insert_syms].
  { split_and!; [|constructor|constructor]. destruct s. simpl. by rewrite (left_id_L ∅ (∪)). }
  unfold InsertSym. destruct (syms s !! sym) as [d|] eqn:E.
  { intros [_ H]. apply Forall_cons in H as [H _]. simpl in H. congruence. }
  specialize (IH {| syms := <[sym := {| def_type := type; def_ptr := ptr; def_file := file |}]> (syms s); files := files s |}).
  rewrite !fmap_cons. cbn [fst syms files entry_of] in *.
  assert (∀ l', Forall (λ x : bytes * deftype * Z, <[sym := {| def_type := type; def_ptr := ptr; def_file := file |}]> (syms s) !! x.1.1 = None) l' ↔
    sym ∉ l'.*1.*1 ∧ Forall (λ x : bytes * deftype * Z, syms s !! x.1.1 = None) l') as Hnew.
  { induction l' as [|[[sym' ?] ?] l' IH']; [split; [split; [apply not_elem_of_nil|constructor]|constructor]|].
    rewrite !Forall_cons, IH', !fmap_cons, not_elem_of_cons, lookup_insert_None. simpl. clear. intuition congruence. }
  destruct (insert_syms _ file l) as [s' [e|]].
  - intros [[H1 H2]%NoDup_cons [_ H3]%Forall_cons]. apply IH. split; [done|]. by apply Hnew.
  - destruct IH as (-> & Hnd & [Hn Hall]%Hnew). split_and!; [|by apply NoDup_cons|by apply Forall_cons]. f_equal.
    cbn [fmap list_fmap list_to_map foldr uncurry entry_of fst snd].
    rewrite <- insert_union_r; [by rewrite insert_union_l|]. apply not_elem_of_list_to_map_1.
    intros (x & -> & Hx)%list_elem_of_fmap. apply list_elem_of_fmap in Hx as (y & -> & Hy). apply Hn.
    apply list_elem_of_fmap. exists y.1. split; [done|]. by apply list_elem_of_fmap_2.
Qed.

(** Adding a file does that, or leaves the pool as it was. *)
Lemma AddFile_exact s proto file : (∀ sym d, syms s !! sym = Some d → def_file d ≠ file) →
  if file_fits s proto then AddFile s proto file = (with_file s proto file, inl file)
  else ∃ e, AddFile s proto file = (s, inr e).
Proof.
  intros Hold. destruct (AddFile s proto file) as [s' r] eqn:E. pose proof (AddFile_spec _ _ _ _ _ E Hold) as Hs.
  unfold file_fits. unfold AddFile in E |- *. destruct (files s !! proto_name proto) as [f|] eqn:Ef.
  { rewrite bool_decide_eq_false_2 by done. cbn [andb]. injection E as <- <-. by eexists. }
  rewrite bool_decide_eq_true_2 by done. pose proof (insert_syms_exact file (create s proto).1 s) as Hi.
  unfold with_file. destruct (create s proto) as [l error]. cbn [fst snd] in E, Hi |- *.
  destruct (insert_syms s file l) as [s1 [e|]].
  - injection E as <- <-. destruct (_ && _ && _ && _) eqn:Eb; [|rewrite Hs; by eexists]. exfalso. apply Hi.
    apply andb_true_iff in Eb as [[[_ _]%andb_true_iff H1%bool_decide_eq_true]%andb_true_iff H2]. split; [done|].
    apply Forall_forall. intros x Hx%list_elem_of_In. by apply (proj1 (forallb_forall _ _) H2), bool_decide_eq_true in Hx.
  - destruct Hi as (-> & H1 & H2). rewrite (bool_decide_eq_true_2 (NoDup _)) by done.
    assert (forallb (λ x : bytes * deftype * Z, bool_decide (syms s !! x.1.1 = None)) l = true) as ->.
    { apply forallb_forall. intros x Hx%list_elem_of_In. apply bool_decide_eq_true_2. by rewrite Forall_forall in H2; apply H2. }
    destruct error as [e|]; [rewrite bool_decide_eq_false_2 by done|rewrite bool_decide_eq_true_2 by done]; cbn [andb];
      injection E as <- <-; [rewrite Hs; by eexists|done].
Qed.

(** ** Histories of the pool calls *)

(** [DEMOLISH], which Perl calls when the last reference to a pool goes, and the end of
    the object. *)
Definition drop (o : Z) : pcall unit :=
  ob ← on_perl (SvRV o);
  (if (refcnt ob <=? 1)%nat && bool_decide (stash ob = Some pool_class) then
     match pool_slot ob with
     | Some (SIV r) => if r =? 0 then mret tt else DescriptorPool_DestroyRaw false r
     | _ => mret tt
     end
   else mret tt);;
  on_perl (cmodify (λ w, REFCNT_dec (S (size (objects w))) o w)).

(** [Protobuf::DescriptorPool->new]: a hash around a raw pool. *)
Definition moo_new (mem : bool) : pcall psv :=
  r ← DescriptorPool_CreateRaw mem;
  o ← on_perl (new_object (pool_object r));
  mret (PRef o).

Inductive pop :=
  | PNew (mem : bool) | PMoo (mem : bool) | PGenerated (mem : bool)
  | PFreeze (o : Z) | PIsFrozen (o : Z) | PFree (o : Z) | PDrop (o : Z)
  | PAdd (o : Z) (serialized : option bytes) | PAddSet (o : Z) (serialized : option bytes)
  | PFind (k : sought) (o : Z) (name : bytes).

Definition run_pop (op : pop) : pcall psv :=
  match op with
  | PNew mem => DescriptorPool_New mem
  | PMoo mem => moo_new mem
  | PGenerated mem => DescriptorPool_GeneratedPool mem
  | PFreeze o => DescriptorPool_Freeze (Some (PRef o));; mret PUndef
  | PIsFrozen o => DescriptorPool_IsFrozen (Some (PRef o));; mret PPlain
  | PFree o => DescriptorPool_Free (Some (PRef o));; mret PUndef
  | PDrop o => drop o;; mret PUndef
  | PAdd o serialized => AddSerializedFile (Some (PRef o)) serialized
  | PAddSet o serialized => AddSerializedFileDescriptorSet (Some (PRef o)) serialized;; mret PPlain
  | PFind k o name => find_by_name k (Some (PRef o)) name
  end.

(** The object a call is made on. *)
Definition pop_object (op : pop) : option Z :=
  match op with
  | PNew _ | PMoo _ | PGenerated _ => None
  | PFreeze o | PIsFrozen o | PFree o | PDrop o | PAdd o _ | PAddSet o _ | PFind _ o _ => Some o
  end.

(** A program that calls methods of live objects only. *)
Inductive run_pops : pworld → list pop → pworld → Prop :=
  | run_nil w : run_pops w [] w
  | run_cons w op ops r w1 w' :
      (∀ o, pop_object op = Some o → is_Some (objects (perl w) !! o)) →
      run_pop op w = (r, w1) → run_pops w1 ops w' → run_pops w (op :: ops) w'.

Definition no_pools (capacity : Z) : pworld :=
  {| perl := no_objects capacity; raws := ∅; pools := ∅; next_c := 16; generated_pool_ptr := 0;
     generated_sv := None; temps := 0 |}.

(** ** Ownership *)

(** [Wrappers]' invariant, with nothing asked of cached objects but to be alive. *)
Definition cached_alive : world → Prop := cache_inv (λ _ _, True).

Record pinv (w : pworld) : Prop := {
  p_cache : cached_alive (perl w);
  p_slot : ∀ o ob r, objects (perl w) !! o = Some ob → pool_slot ob = Some (SIV r) → r ≠ 0 →
    is_Some (raws w !! r);
  p_owner : ∀ o1 o2 ob1 ob2 r, objects (perl w) !! o1 = Some ob1 → objects (perl w) !! o2 = Some ob2 →
    pool_slot ob1 = Some (SIV r) → pool_slot ob2 = Some (SIV r) → r ≠ 0 → o1 = o2;
  p_raw : ∀ r rw, raws w !! r = Some rw → is_Some (pools w !! pool rw);
  p_unshared : ∀ r1 r2 rw1 rw2, raws w !! r1 = Some rw1 → raws w !! r2 = Some rw2 →
    pool rw1 = pool rw2 → pool rw1 ≠ generated_pool_ptr w → r1 = r2;
  p_generated : generated_pool_ptr w ≠ 0 → is_Some (pools w !! generated_pool_ptr w);
  p_static : generated_sv w = None ∧ generated_pool_ptr w = 0 ∨
    generated_sv w = Some (generated_pool_ptr w);
  p_next : 0 < next_c w;
  p_raw_next : ∀ r, is_Some (raws w !! r) → 0 < r < next_c w;
  p_pool_next : ∀ p s, pools w !! p = Some s → 0 < p < next_c w ∧
    ∀ sym d, syms s !! sym = Some d → def_file d < next_c w }.

(** The invariant, and as many temporary arenas as before. *)
Definition settled (n : Z) (w : pworld) : Prop := pinv w ∧ temps w = n.
Definition keeps {A} (m : pcall A) (n : Z) : pworld → Prop := wp m (λ _, settled n) (settled n).

(** ** Changes that keep the invariant *)

Lemma pinv_perl w p : pinv w → cached_alive p →
  (∀ o ob', objects p !! o = Some ob' → pool_slot ob' = None ∨ pool_slot ob' = Some (SIV 0) ∨
    ∃ ob, objects (perl w) !! o = Some ob ∧ pool_slot ob' = pool_slot ob) →
  pinv (set_perl p w).
Proof using Type.
  clear parse_file parse_set proto_name create FileDef_Name message_set_extension P.
  intros [] Hc Hs. split; try done; simpl.
  - intros o ob r Ho Hr Hn. destruct (Hs o ob Ho) as [E|[E|(ob0 & Ho0 & E)]]; [congruence..|].
    rewrite E in Hr. eauto.
  - intros o1 o2 ob1 ob2 r H1 H2 E1 E2 Hn.
    destruct (Hs o1 ob1 H1) as [?|[?|(c1 & ? & F1)]]; [congruence..|].
    destruct (Hs o2 ob2 H2) as [?|[?|(c2 & ? & F2)]]; [congruence..|].
    apply (p_owner0 o1 o2 c1 c2 r); congruence.
Qed.

Lemma pinv_temps w n : pinv w → pinv (set_temps n w).
Proof. by intros []. Qed.

Lemma pinv_extends w p : pinv w → cached_alive p → extends (perl w) p → pinv (set_perl p w).
Proof.
  intros Hi Hc [Hold Hnew]. apply pinv_perl; [done|done|]. intros o ob' Ho.
  destruct (Hnew o ob' Ho) as [[ob H]|H]; [|auto]. right; right. exists ob. split; [done|].
  destruct (Hold o ob H) as [n E]. rewrite E in Ho. by injection Ho as <-.
Qed.

Lemma pinv_set_pool w p s' : pinv w → is_Some (pools w !! p) →
  (∀ sym d, syms s' !! sym = Some d → def_file d < next_c w) →
  pinv (set_pools (<[p := s']> (pools w)) w).
Proof.
  intros [] [s Hp] Hd. split; try done; simpl.
  - intros r rw H. rewrite lookup_insert. case_decide; [by eexists|eauto].
  - intros H. rewrite lookup_insert. case_decide; [by eexists|eauto].
  - intros q t. rewrite lookup_insert. case_decide as E; [|apply p_pool_next0].
    intros [= <-]. subst q. by destruct (p_pool_next0 p s Hp).
Qed.

Lemma pinv_frozen w r rw b : pinv w → raws w !! r = Some rw →
  pinv (set_raws (<[r := {| pool := pool rw; frozen := b |}]> (raws w)) w).
Proof.
  intros [] Hr. split; try done; simpl.
  - intros o ob r' H1 H2 H3. rewrite lookup_insert. case_decide; [by eexists|eauto].
  - intros r' rw'. rewrite lookup_insert.
    case_decide as E; [intros [= <-]; by eapply (p_raw0 r rw)|apply p_raw0].
  - assert (∀ r' rw', <[r := {| pool := pool rw; frozen := b |}]> (raws w) !! r' = Some rw' →
      ∃ rw0, raws w !! r' = Some rw0 ∧ pool rw0 = pool rw') as Hx.
    { intros r' rw'. rewrite lookup_insert. case_decide as E; [|eauto].
      intros [= <-]. subst r'. by exists rw. }
    intros r1 r2 rw1 rw2 (a & H1 & E1)%Hx (c & H2 & E2)%Hx Ep Eg.
    apply (p_unshared0 r1 r2 a c); congruence.
  - intros r' [x H]. apply p_raw_next0. rewrite lookup_insert in H. case_decide; [subst r'|]; eauto.
Qed.

(** Freeing a raw pool no object names any more. *)
Lemma pinv_del_raw w r : pinv w →
  (∀ o ob, objects (perl w) !! o = Some ob → pool_slot ob ≠ Some (SIV r)) →
  pinv (set_raws (delete r (raws w)) w).
Proof using Type.
  clear parse_file parse_set proto_name create FileDef_Name message_set_extension P.
  intros [] Ho. split; try done; simpl.
  - intros o ob r' H1 H2 H3. rewrite lookup_delete_ne by naive_solver. eauto.
  - intros r' rw' H%lookup_delete_Some. naive_solver.
  - intros r1 r2 rw1 rw2 H1%lookup_delete_Some H2%lookup_delete_Some. naive_solver.
  - intros r' [x H%lookup_delete_Some]. naive_solver.
Qed.

(** Freeing a pool no raw pool names any more. *)
Lemma pinv_del_pool w p : pinv w → p ≠ generated_pool_ptr w →
  (∀ r rw, raws w !! r = Some rw → pool rw ≠ p) →
  pinv (set_pools (delete p (pools w)) w).
Proof using Type.
  clear parse_file parse_set proto_name create FileDef_Name message_set_extension P.
  intros [] Hg Hr. split; try done; simpl.
  - intros r rw H. rewrite lookup_delete_ne by (symmetry; eauto). eauto.
  - intros H. rewrite lookup_delete_ne by done. eauto.
  - intros q s H%lookup_delete_Some. naive_solver.
Qed.

(** ** Calls of the Perl side *)

Lemma alive_same : ∀ ob ob' ptr, stash ob' = stash ob → contents ob' = contents ob →
  ext_magic ob' = ext_magic ob → (λ (_ : object) (_ : Z), True) ob ptr → True.
Proof. done. Qed.

Lemma wp_perl {A} (m : call A) w r p (Q : A → pworld → Prop) E :
  m (perl w) = (Ret r, p) → Q r (set_perl p w) → wp (on_perl m) Q E w.
Proof. intros H HQ. unfold wp, on_perl. by rewrite H. Qed.

Lemma wp_SvRV o ob (Q : object → pworld → Prop) E w :
  objects (perl w) !! o = Some ob → Q ob w → wp (on_perl (SvRV o)) Q E w.
Proof.
  intros Ho HQ. apply (wp_perl _ _ ob (perl w)); [unfold SvRV; by rewrite Ho|].
  by destruct w.
Qed.

Lemma wp_raw r rw (Q : raw_pool → pworld → Prop) E w :
  raws w !! r = Some rw → Q rw w → wp (raw_at r) Q E w.
Proof. intros Hr. unfold wp, raw_at. by rewrite Hr. Qed.

Lemma wp_pool p s (Q : upb_DefPool → pworld → Prop) E w :
  pools w !! p = Some s → Q s w → wp (pool_at p) Q E w.
Proof. intros Hp. unfold wp, pool_at. by rewrite Hp. Qed.

Lemma wp_wrap f class (Q : psv → pworld → Prop) E w : pinv w →
  Q PUndef w →
  (∀ sv p, pinv (set_perl p w) → extends (perl w) p → sv_live p sv → Q sv (set_perl p w)) →
  wp (on_perl (WrapArenaBoundObject f None class 0)) Q E w.
Proof.
  intros Hi HU HQ. destruct (decide (f = 0)) as [->|Hf].
  - apply (wp_perl _ _ PUndef (perl w)); [done|]. by destruct w.
  - destruct (Wrap_spec (λ _ _, True) alive_same (perl w) f None class 0)
      as (o & p & E' & Hc & Hx & ob & Ho & _); [apply Hi|done|done|done|].
    apply (wp_perl _ _ (PRef o) p); [done|]. apply HQ; [by apply pinv_extends|done|by exists ob].
Qed.

(** A change of the cache that adds nothing. *)
Lemma pinv_oc w c : pinv w →
  (∀ k v, ObjCache.cache c !! k = Some (Some v) → ObjCache.cache (oc (perl w)) !! k = Some (Some v)) →
  pinv (set_perl (set_oc c (perl w)) w).
Proof.
  intros Hi Hc. apply pinv_extends; [done| |by apply extends_objects].
  apply (inv_oc _ alive_same); [apply Hi|done].
Qed.

(** ** The pool behind an object *)

(** [GetPool] on a live object: a croak, NULL, or the pool of its raw pool. *)
Lemma wp_pool_ptr_iv o ob (Q : option Z → pworld → Prop) (E : pworld → Prop) w :
  objects (perl w) !! o = Some ob → E w →
  (stash ob = Some pool_class →
   Q (match pool_slot ob with Some (SIV r) => Some r | _ => None end) w) →
  wp (pool_ptr_iv (Some (PRef o))) Q E w.
Proof.
  intros Ho HE HQ. apply wp_bind. eapply wp_SvRV; [done|]. simpl.
  case_bool_decide; [by apply wp_ret, HQ|done].
Qed.

Lemma wp_GetPool o ob (Q : Z → pworld → Prop) (E : pworld → Prop) w :
  pinv w → objects (perl w) !! o = Some ob → E w → Q 0 w →
  (∀ r rw, pool_slot ob = Some (SIV r) → stash ob = Some pool_class → r ≠ 0 →
     raws w !! r = Some rw → pool rw ≠ 0 → Q (pool rw) w) →
  wp (DescriptorPool_GetPool (Some (PRef o))) Q E w.
Proof.
  intros Hi Ho HE H0 HQ. unfold DescriptorPool_GetPool. apply wp_bind.
  eapply wp_pool_ptr_iv; [done|done|]. intros Hs.
  destruct (pool_slot ob) as [[r|]|] eqn:Ep; try by apply wp_ret.
  destruct (Z.eqb_spec r 0) as [->|Hr]; [by apply wp_ret|]. apply wp_bind.
  destruct (p_slot w Hi o ob r Ho Ep Hr) as [rw Hrw]. eapply wp_raw; [done|].
  apply wp_ret, (HQ r); [done..|].
  destruct (p_raw w Hi r rw Hrw) as [s Hs']. destruct (p_pool_next w Hi _ _ Hs'). lia.
Qed.

Lemma wp_IsFrozen o ob (Q : bool → pworld → Prop) (E : pworld → Prop) w :
  pinv w → objects (perl w) !! o = Some ob → E w → (∀ b, Q b w) →
  wp (DescriptorPool_IsFrozen (Some (PRef o))) Q E w.
Proof.
  intros Hi Ho HE HQ. apply wp_bind. eapply wp_GetPool; [done|done|done| |].
  - rewrite Z.eqb_refl. by apply wp_ret.
  - intros r rw Hs Hc Hr Hrw Hp. rewrite (proj2 (Z.eqb_neq _ _)) by done.
    apply wp_bind. eapply wp_pool_ptr_iv; [done|done|]. intros _. rewrite Hs.
    apply wp_bind. eapply wp_raw; [done|]. by apply wp_ret.
Qed.

Lemma keeps_Freeze o ob n w : settled n w → objects (perl w) !! o = Some ob →
  keeps (DescriptorPool_Freeze (Some (PRef o))) n w.
Proof.
  intros [Hi Ht] Ho. apply wp_bind. eapply wp_GetPool; [done|done|done| |].
  - rewrite Z.eqb_refl. by apply wp_ret.
  - intros r rw Hs Hc Hr Hrw Hp. rewrite (proj2 (Z.eqb_neq _ _)) by done.
    apply wp_bind. eapply wp_pool_ptr_iv; [done|done|]. intros _. rewrite Hs.
    apply wp_bind. eapply wp_raw; [done|].
    split; [by apply pinv_frozen|done].
Qed.

(** ** Adding files *)

Lemma AddFile_bound s proto file s' r :
  AddFile s proto file = (s', r) →
  (∀ sym d, syms s !! sym = Some d → def_file d < file) →
  ∀ sym d, syms s' !! sym = Some d → def_file d < file + 16.
Proof.
  intros H Hb sym d Hd. apply AddFile_spec in H; [|intros sym' d' H'; specialize (Hb _ _ H'); lia].
  destruct r as [f|e]; [|subst s'; specialize (Hb _ _ Hd); lia].
  destruct H as (-> & _ & _ & _ & Hnew & _).
  destruct (Hnew sym d Hd) as [H|H]; [specialize (Hb _ _ H)|]; lia.
Qed.

Lemma wp_fresh (Q : Z → pworld → Prop) E w : pinv w →
  (∀ w', pinv w' → next_c w' = next_c w + 16 → perl w' = perl w → raws w' = raws w →
     pools w' = pools w → generated_pool_ptr w' = generated_pool_ptr w →
     generated_sv w' = generated_sv w → temps w' = temps w → Q (next_c w) w') →
  wp fresh_c Q E w.
Proof.
  intros [] HQ. apply HQ; try done. split; try done; simpl.
  - lia.
  - intros r H%p_raw_next0. lia.
  - intros p s [? Hd]%p_pool_next0. split; [lia|]. intros sym d Hsd%Hd. lia.
Qed.

Lemma wp_AddFile p s proto (Q : Z + bytes → pworld → Prop) E w n : settled n w →
  pools w !! p = Some s →
  (∀ r s' w', settled n w' → pools w' !! p = Some s' → perl w' = perl w →
     generated_pool_ptr w' = generated_pool_ptr w →
     AddFile s proto (next_c w) = (s', r) → Q r w') →
  wp (DefPool_AddFile p proto) Q E w.
Proof.
  intros [Hi Ht] Hp HQ. apply wp_bind. eapply wp_pool; [done|]. apply wp_bind.
  apply wp_fresh; [done|]. intros w1 Hi1 Hn Hperl Hraws Hpools Hg Hgs Ht1.
  destruct (AddFile s proto (next_c w)) as [s' r] eqn:Ea. apply wp_bind.
  assert (pinv (set_pools (<[p := s']> (pools w1)) w1)).
  { apply pinv_set_pool; [done|rewrite Hpools; by eexists|]. rewrite Hn.
    eapply AddFile_bound; [done|]. destruct (p_pool_next w Hi p s Hp) as [_ Hd]. done. }
  apply (HQ r s'); [split; [done|by rewrite <- Ht, <- Ht1]| |done|done|done].
  simpl. apply lookup_insert_eq.
Qed.

Lemma keeps_bind {A B} (m : pcall A) (k : A → pcall B) n w :
  wp m (λ a, keeps (k a) n) (settled n) w → keeps (m ≫= k) n w.
Proof. apply wp_bind. Qed.

Lemma keeps_croak {A} msg n w : settled n w → keeps (ccroak msg : pcall A) n w.
Proof. done. Qed.

Lemma keeps_ret {A} (a : A) n w : settled n w → keeps (mret a) n w.
Proof. done. Qed.

Lemma keeps_FileDef_GetWrapper f n w : settled n w → keeps (FileDef_GetWrapper f) n w.
Proof. intros [Hi Ht]. apply wp_wrap; [done|done|]. by intros sv p Hi' _ _. Qed.

Lemma settled_temps n m w : settled n w → settled m (set_temps m w).
Proof. intros [Hi _]. split; [by apply pinv_temps|done]. Qed.

(** The two ways into the pool of an object that both additions share. *)
Lemma keeps_enter {A} o ob n w (k : Z → pcall A) (undef : A) : settled n w →
  objects (perl w) !! o = Some ob →
  (∀ p s, p ≠ 0 → pools w !! p = Some s → keeps (k p) n w) →
  keeps (is_frozen ← DescriptorPool_IsFrozen (Some (PRef o));
         cguard (negb is_frozen) "Cannot add file to a frozen DescriptorPool";;
         p ← DescriptorPool_GetPool (Some (PRef o));
         if p =? 0 then mret undef else k p) n w.
Proof.
  intros Hs Ho Hk. apply keeps_bind. eapply wp_IsFrozen; [apply Hs|done|done|].
  intros [|]; [by apply keeps_bind|]. apply keeps_bind, wp_ret, keeps_bind.
  eapply wp_GetPool; [apply Hs|done|done| |].
  - by rewrite Z.eqb_refl.
  - intros r rw _ _ _ Hrw Hp. rewrite (proj2 (Z.eqb_neq _ _)) by done.
    destruct Hs as [Hi _]. destruct (p_raw w Hi r rw Hrw) as [s Hps]. by eapply Hk.
Qed.

Lemma keeps_SvPVbyte {A} serialized (k : bytes → pcall A) n w : settled n w →
  (∀ data, keeps (k data) n w) → keeps (SvPVbyte serialized ≫= k) n w.
Proof. intros Hs Hk. apply keeps_bind. destruct serialized; [apply Hk|done]. Qed.

Lemma keeps_AddSerializedFile o ob serialized n w : settled n w →
  objects (perl w) !! o = Some ob → keeps (AddSerializedFile (Some (PRef o)) serialized) n w.
Proof.
  intros Hs Ho. eapply keeps_enter; [done|done|]. intros p s Hp0 Hp.
  apply keeps_SvPVbyte; [done|]. intros data. apply keeps_bind, wp_modify.
  set (w1 := set_temps _ _). assert (settled (n + 1) w1) as Hs1.
  { destruct Hs as [Hi <-]. by eapply settled_temps. }
  assert (∀ w', settled (n + 1) w' → settled n (set_temps (temps w' - 1) w')) as Hrel.
  { intros w' [Hi' Ht']. replace (temps w' - 1) with n by lia. by apply (settled_temps (n + 1)). }
  destruct (parse_file data) as [proto|].
  - apply keeps_bind. eapply (wp_AddFile p s); [exact Hs1|done|].
    intros r s' w' Hs' Hp' _ _ _. apply keeps_bind, wp_modify.
    destruct r as [file|msg]; [apply keeps_FileDef_GetWrapper; by apply (Hrel w')|].
    apply keeps_bind. eapply wp_pool; [done|].
    apply keeps_croak. by apply (Hrel w').
  - apply keeps_bind, wp_modify, keeps_croak. by apply (Hrel w1).
Qed.

Lemma wp_add_files p l : ∀ i s n w, settled (n + 1) w → pools w !! p = Some s →
  wp (add_files p i l) (λ _, settled (n + 1)) (settled n) w.
Proof.
  induction l as [|proto l IH]; intros i s n w Hs Hp; [done|]. cbn [add_files].
  apply wp_bind. eapply (wp_AddFile p s); [exact Hs|done|].
  intros [file|msg] s' w' Hs' Hp' _ _ _.
  - apply wp_bind. apply wp_wrap; [apply Hs'| |].
    + apply wp_bind. eapply wp_mono; [by eapply IH|]. done.
    + intros sv pl Hi' _ _. apply wp_bind. eapply wp_mono; [eapply IH|done].
      * split; [done|]. apply Hs'.
      * done.
  - apply wp_bind, wp_modify, wp_bind. eapply wp_pool; [done|]. destruct Hs' as [Hi' Ht'].
    split; [by apply pinv_temps|]. simpl. lia.
Qed.

Lemma keeps_AddSet o ob serialized n w : settled n w →
  objects (perl w) !! o = Some ob →
  keeps (AddSerializedFileDescriptorSet (Some (PRef o)) serialized) n w.
Proof.
  intros Hs Ho. eapply keeps_enter; [done|done|]. intros p s Hp0 Hp.
  apply keeps_SvPVbyte; [done|]. intros data. apply keeps_bind, wp_modify.
  set (w1 := set_temps _ _). assert (settled (n + 1) w1) as Hs1.
  { destruct Hs as [Hi <-]. by eapply settled_temps. }
  destruct (parse_set data) as [l|].
  - apply keeps_bind. eapply wp_mono; [by eapply wp_add_files|].
    intros av w' [Hi' Ht']. apply keeps_bind, wp_modify. split; [by apply pinv_temps|]. simpl. lia.
  - apply keeps_bind, wp_modify. destruct Hs1 as [Hi1 Ht1]. split; [by apply pinv_temps|]. unfold w1 in *. simpl in *. lia.
Qed.

Lemma keeps_find k o ob name n w : settled n w → objects (perl w) !! o = Some ob →
  keeps (find_by_name k (Some (PRef o)) name) n w.
Proof.
  intros [Hi Ht] Ho. apply keeps_bind. eapply wp_GetPool; [done|done|done| |].
  - by rewrite Z.eqb_refl.
  - intros r rw _ _ _ Hrw Hp. rewrite (proj2 (Z.eqb_neq _ _)) by done.
    destruct (p_raw w Hi r rw Hrw) as [s Hs]. apply keeps_bind. eapply wp_pool; [done|].
    apply wp_wrap; [done|done|]. by intros sv p Hi' _ _.
Qed.

(** ** Making pools *)

(** No raw pool names [p] yet. *)
Definition unowned (p : Z) (w : pworld) : Prop := ∀ r rw, raws w !! r = Some rw → pool rw ≠ p.
(** No object names the raw pool [r] yet. *)
Definition unnamed (r : Z) (w : pworld) : Prop :=
  ∀ o ob, objects (perl w) !! o = Some ob → pool_slot ob ≠ Some (SIV r).

Lemma wp_DefPool_New mem (Q : Z → pworld → Prop) E w n : settled n w →
  (settled n w → Q 0 w) →
  (∀ p w', settled n w' → p ≠ 0 → is_Some (pools w' !! p) → unowned p w' →
     generated_pool_ptr w' = generated_pool_ptr w → generated_sv w' = generated_sv w → Q p w') →
  wp (DefPool_New mem) Q E w.
Proof.
  intros Hs H0 HQ. unfold DefPool_New. destruct mem; [|by apply wp_ret, H0]. destruct Hs as [Hi Ht].
  apply wp_bind, wp_fresh; [done|]. intros w1 Hi1 Hn _ Hraws Hpools Hg Hgs Ht1.
  apply wp_bind, wp_modify, wp_ret. pose proof (p_next w Hi).
  assert (pools w !! next_c w = None) as Hnone.
  { destruct (pools w !! next_c w) as [s|] eqn:Ep; [|done]. apply (p_pool_next w Hi) in Ep. lia. }
  assert (unowned (next_c w) w1) as Hu.
  { intros r rw Hr Ep. rewrite Hraws in Hr. destruct (p_raw w Hi r rw Hr) as [s Hs]. congruence. }
  apply HQ; [|lia|simpl; rewrite lookup_insert_eq; by eexists|done|done|done].
  split; [|simpl; congruence]. destruct Hi1. split; try done; simpl.
  - intros r rw [s Hr]%p_raw0. exists s. rewrite lookup_insert_ne; [done|]. congruence.
  - intros [s Hs]%p_generated0. exists s. rewrite lookup_insert_ne; [done|]. congruence.
  - intros q s. rewrite lookup_insert. case_decide as E1; [|apply p_pool_next0].
    intros [= <-]. subst q. split; [lia|]. intros sym d. simpl. by rewrite lookup_empty.
Qed.

Lemma wp_malloc_raw p (Q : Z → pworld → Prop) E w n : settled n w →
  is_Some (pools w !! p) → p = generated_pool_ptr w ∨ unowned p w →
  (∀ r w', settled n w' → r ≠ 0 → raws w' !! r = Some {| pool := p; frozen := false |} →
     unnamed r w' → perl w' = perl w → generated_pool_ptr w' = generated_pool_ptr w → Q r w') →
  wp (malloc_raw p) Q E w.
Proof.
  intros [Hi Ht] Hp Hu HQ. apply wp_bind, wp_fresh; [done|].
  intros w1 Hi1 Hn Hperl Hraws Hpools Hg Hgs Ht1. apply wp_bind, wp_modify, wp_ret.
  pose proof (p_next w Hi). assert (raws w !! next_c w = None) as Hnone.
  { destruct (raws w !! next_c w) as [x|] eqn:Ep; [|done].
    destruct (p_raw_next w Hi (next_c w)); [by eexists|lia]. }
  assert (∀ r rw, <[next_c w := {| pool := p; frozen := false |}]> (raws w1) !! r = Some rw →
    r = next_c w ∧ pool rw = p ∨ r ≠ next_c w ∧ raws w1 !! r = Some rw) as Hx.
  { intros r rw. rewrite lookup_insert. case_decide; [intros [= <-]|]; auto. }
  assert (unnamed (next_c w) w1) as Hun.
  { intros o ob Ho Hs. destruct (p_slot w1 Hi1 o ob _ Ho Hs) as [rw Hr]; [lia|].
    congruence. }
  apply HQ; [|lia|simpl; apply lookup_insert_eq|done|done|done].
  split; [|simpl; congruence]. destruct Hi1. split; try done; simpl.
  - intros o ob r H1 H2 H3. rewrite lookup_insert. case_decide; [by eexists|eauto].
  - intros r rw [[_ ->]|[_ Hr]]%Hx; [by rewrite Hpools|eauto].
  - intros r1 r2 rw1 rw2 [[-> E1]|[N1 H1]]%Hx [[-> E2]|[N2 H2]]%Hx Ep Eg; [done| | |eauto].
    + destruct Hu as [->|Hu]; [congruence|]. rewrite Hraws in H2. destruct (Hu _ _ H2). congruence.
    + destruct Hu as [->|Hu]; [congruence|]. rewrite Hraws in H1. destruct (Hu _ _ H1). congruence.
  - intros r [rw [[-> _]|[_ Hr]]%Hx]; [lia|]. eapply p_raw_next0. by eexists.
Qed.

(** A new object that names a raw pool of its own. *)
Lemma wp_new_owner r rw (Q : Z → pworld → Prop) E w n : settled n w → r ≠ 0 →
  raws w !! r = Some rw → unnamed r w →
  (∀ o w', settled n w' → is_Some (objects (perl w') !! o) → Q o w') →
  wp (on_perl (new_object (pool_object r))) Q E w.
Proof.
  intros [Hi Ht] Hr0 Hr Hun HQ. apply (wp_perl _ _ (next_object (perl w))
    (new_object (pool_object r) (perl w)).2); [done|]. set (o := next_object (perl w)).
  apply HQ; [|simpl; rewrite lookup_insert_eq; by eexists]. split; [|done].
  assert (cached_alive (new_object (pool_object r) (perl w)).2) as Hc
    by (apply (new_object_inv _ alive_same), Hi).
  assert (∀ k ob, objects (new_object (pool_object r) (perl w)).2 !! k = Some ob →
    k = o ∧ pool_slot ob = Some (SIV r) ∨ objects (perl w) !! k = Some ob) as Hx.
  { intros k ob. simpl. rewrite lookup_insert. case_decide; [intros [= <-]|]; auto. }
  destruct Hi. split; try done; cbn [set_perl perl raws pools next_c].
  - intros k ob r' [[_ E1]|Hk]%Hx E2 Hn; [|eauto]. exists rw. congruence.
  - intros k1 k2 ob1 ob2 r' [[-> E1]|H1]%Hx [[-> E2]|H2]%Hx F1 F2 Hn.
    + done.
    + destruct (Hun _ _ H2). congruence.
    + destruct (Hun _ _ H1). congruence.
    + eauto.
Qed.

Lemma keeps_wrap_pool p r rw n w : settled n w → r ≠ 0 → raws w !! r = Some rw → unnamed r w →
  p ≠ 0 → keeps (wrap_pool p r) n w.
Proof.
  intros Hs Hr0 Hr Hun Hp. apply keeps_bind. eapply wp_new_owner; [done|done|done|done|].
  intros o w1 [Hi1 Ht1] [ob Ho]. apply keeps_bind.
  eapply wp_perl; [done|]. apply keeps_ret. split; [|done].
  apply pinv_extends; [done| |by apply extends_objects].
  by eapply (inv_add _ (perl w1) p o ob); [apply Hi1|..].
Qed.

Lemma wp_CreateRaw mem (Q : Z → pworld → Prop) w n : settled n w →
  (∀ r rw w', settled n w' → r ≠ 0 → raws w' !! r = Some rw → pool rw ≠ 0 → unnamed r w' → Q r w') →
  wp (DescriptorPool_CreateRaw mem) Q (settled n) w.
Proof.
  intros Hs HQ. apply wp_bind. eapply wp_DefPool_New; [done|done|].
  intros p w1 Hs1 Hp0 Hp Hu _ _. rewrite (proj2 (Z.eqb_neq _ _)) by done.
  eapply wp_malloc_raw; [done|done|by right|].
  intros r w2 Hs2 Hr0 Hr Hun _ _. by eapply HQ.
Qed.

Lemma keeps_New mem n w : settled n w → keeps (DescriptorPool_New mem) n w.
Proof.
  intros Hs. apply keeps_bind. apply wp_CreateRaw; [done|]. intros r rw w1 Hs1 Hr0 Hr Hp Hun.
  apply keeps_bind. eapply wp_raw; [done|]. by eapply keeps_wrap_pool.
Qed.

Lemma keeps_moo_new mem n w : settled n w → keeps (moo_new mem) n w.
Proof.
  intros Hs. apply keeps_bind. apply wp_CreateRaw; [done|]. intros r rw w1 Hs1 Hr0 Hr Hp Hun.
  apply keeps_bind. eapply wp_new_owner; [done|done|done|done|]. by intros o w2 Hs2 _.
Qed.

Lemma keeps_GetWrapper n w : settled n w →
  keeps (DescriptorPool_GetWrapper (generated_pool_ptr w)) n w.
Proof.
  intros [Hi Ht]. unfold DescriptorPool_GetWrapper.
  destruct (Z.eqb_spec (generated_pool_ptr w) 0) as [E0|Hg]; [done|].
  apply keeps_bind, wp_get.
  destruct (ObjCache.ObjCache_Get (oc (perl w)) (generated_pool_ptr w)) as [c oc'] eqn:Eg.
  destruct (Get_inv _ alive_same (perl w) _ _ _ (p_cache w Hi) Eg) as [Hc Hr].
  assert (settled n (set_perl (set_oc oc' (perl w)) w)) as Hs1.
  { split; [|done]. apply pinv_extends; [done|done|by apply extends_objects]. }
  set (w1 := set_perl _ w) in *. apply keeps_bind. eapply wp_perl; [done|]. fold w1.
  destruct c as [o|].
  - destruct (Hr o eq_refl) as (ob & Ho & _). apply keeps_bind.
    destruct (REFCNT_inc_ret _ alive_same (perl w1) o) as (p2 & E2 & Hc2 & _ & _ & _ & Hx2);
      [by exists ob|apply Hs1|].
    eapply wp_perl; [done|]. apply keeps_ret. split; [|apply Hs1].
    apply pinv_extends; [apply Hs1|done|done].
  - apply keeps_bind. eapply wp_malloc_raw; [done|by apply (p_generated w Hi)|by left|].
    intros r w2 Hs2 Hr0 Hr2 Hun _ _. by eapply keeps_wrap_pool.
Qed.

Lemma pinv_generated w p : pinv w → generated_pool_ptr w = 0 →
  (p ≠ 0 → is_Some (pools w !! p) ∧ unowned p w) →
  pinv (set_generated p (Some p) w).
Proof.
  intros [] Hg Hp. split; try done; simpl.
  - intros r1 r2 rw1 rw2 H1 H2 E N. apply (p_unshared0 r1 r2 rw1 rw2); try done.
    destruct (p_raw0 _ _ H1) as [s Hs]. rewrite Hg. destruct (p_pool_next0 _ _ Hs). lia.
  - intros Hn. by apply Hp.
  - by right.
Qed.

Lemma keeps_GeneratedPool mem n w : settled n w → keeps (DescriptorPool_GeneratedPool mem) n w.
Proof.
  intros Hs. unfold DescriptorPool_GeneratedPool. apply keeps_bind.
  apply wp_get, keeps_bind.
  enough (wp (if generated_pool_ptr w =? 0 then
      match generated_sv w with
      | Some p => cmodify (set_generated p (Some p))
      | None => p ← DefPool_New mem; cmodify (set_generated p (Some p))
      end else mret tt) (λ _, settled n) (settled n) w) as H.
  { eapply wp_mono; [exact H|]. intros [] w1 Hs1. apply keeps_bind.
    apply wp_get. by apply keeps_GetWrapper. }
  destruct (Z.eqb_spec (generated_pool_ptr w) 0) as [Hg|Hg]; [|by apply wp_ret].
  destruct Hs as [Hi Ht]. destruct (p_static w Hi) as [[Hsv _]|Hsv]; rewrite Hsv.
  - apply wp_bind. eapply wp_DefPool_New; [by split| |].
    + intros _. apply wp_modify. split; [|done]. by apply pinv_generated.
    + intros p w1 [Hi1 Ht1] Hp0 Hp Hu Hg1 _. apply wp_modify.
      split; [|done]. apply pinv_generated; [done|congruence|done].
  - apply wp_modify. split; [|done]. apply pinv_generated; [done|done|congruence].
Qed.

(** ** Destroying pools *)

Definition destroyed (r : Z) (rw : raw_pool) (w : pworld) : pworld :=
  let w := if negb (pool rw =? 0) && negb (pool rw =? generated_pool_ptr w) then
             set_pools (delete (pool rw) (pools w))
               (set_perl (set_oc (ObjCache.ObjCache_Delete (oc (perl w)) (pool rw)) (perl w)) w)
           else w in
  set_raws (delete r (raws w)) w.

Lemma wp_DestroyRaw r rw (Q : unit → pworld → Prop) E w :
  raws w !! r = Some rw → is_Some (pools w !! pool rw) → r ≠ 0 → Q tt (destroyed r rw w) →
  wp (DescriptorPool_DestroyRaw false r) Q E w.
Proof.
  intros Hr [s Hs] Hn HQ. unfold DescriptorPool_DestroyRaw, destroyed in *.
  rewrite (proj2 (Z.eqb_neq r 0)) by done. apply wp_bind. eapply wp_raw; [done|].
  apply wp_bind, wp_get, wp_bind. destruct (_ && _); [|by apply wp_ret, wp_modify].
  apply wp_bind. eapply wp_perl; [done|]. apply wp_bind. eapply wp_pool; [done|].
  by apply wp_modify, wp_modify.
Qed.

Lemma destroyed_objects r rw w : objects (perl (destroyed r rw w)) = objects (perl w) ∧
  next_object (perl (destroyed r rw w)) = next_object (perl w) ∧ temps (destroyed r rw w) = temps w.
Proof. unfold destroyed. by destruct (_ && _). Qed.

Lemma destroyed_alive r rw w : cached_alive (perl w) → cached_alive (perl (destroyed r rw w)).
Proof.
  intros Hc. unfold destroyed. destruct (_ && _); [|done].
  apply (inv_oc _ alive_same); [done|]. intros k v H. eapply lookup_weaken; [exact H|apply Delete_sub].
Qed.

(** A raw pool may go together with the object that names it. *)
Lemma pinv_destroyed w o ob r rw p : pinv w → objects (perl w) !! o = Some ob →
  pool_slot ob = Some (SIV r) → r ≠ 0 → raws w !! r = Some rw → cached_alive p →
  (∀ o' ob', objects p !! o' = Some ob' → pool_slot ob' = None ∨ pool_slot ob' = Some (SIV 0) ∨
    o' ≠ o ∧ ∃ ob, objects (perl w) !! o' = Some ob ∧ pool_slot ob' = pool_slot ob) →
  pinv (set_perl p (destroyed r rw w)).
Proof using Type.
  clear parse_file parse_set proto_name create FileDef_Name message_set_extension P.
  intros Hi Ho Hs Hr0 Hr Hc Hp.
  assert (pinv (set_perl p w)) as Hi1 by (apply pinv_perl; [done|done|naive_solver]).
  assert (pinv (set_raws (delete r (raws w)) (set_perl p w))) as Hi2.
  { apply (pinv_del_raw (set_perl p w)); [done|]. intros o' ob' Ho' Hs'. simpl in Ho'.
    destruct (Hp o' ob' Ho') as [?|[?|(Hne & c & Hc' & E)]]; [congruence..|].
    apply Hne, (p_owner w Hi o' o c ob r); congruence. }
  unfold destroyed. destruct (_ && _) eqn:Eb; [|done].
  apply andb_true_iff in Eb as [_ Hg%negb_true_iff%Z.eqb_neq].
  apply (pinv_del_pool (set_raws (delete r (raws w)) (set_perl p w))); [done|done|].
  intros r' rw' H E. simpl in H. apply lookup_delete_Some in H as [Hne H].
  apply Hne. symmetry. apply (p_unshared w Hi r' r rw' rw); congruence.
Qed.

Lemma keeps_Free o ob n w : settled n w → objects (perl w) !! o = Some ob →
  keeps (DescriptorPool_Free (Some (PRef o))) n w.
Proof.
  intros [Hi Ht] Ho. apply keeps_bind. eapply wp_SvRV; [done|].
  case_bool_decide; [|done]. destruct (contents ob) as [u a [[r|]|]|] eqn:Ec; try done.
  assert (∀ w', objects (perl w') = objects (perl w) → cached_alive (perl w') →
    let p := set_objects (<[o := {| refcnt := refcnt ob; stash := stash ob;
                 contents := HV u a (Some (SIV 0)); ext_magic := ext_magic ob |}]>
                 (objects (perl w'))) (perl w') in
    cached_alive p ∧ ∀ o' ob', objects p !! o' = Some ob' →
      pool_slot ob' = None ∨ pool_slot ob' = Some (SIV 0) ∨
      o' ≠ o ∧ ∃ ob, objects (perl w) !! o' = Some ob ∧ pool_slot ob' = pool_slot ob) as Hz.
  { intros w' Eo [Hc Hn] p. unfold p. split; [split|]; simpl.
    - intros ptr o' Hptr. destruct (Hc ptr o' Hptr) as (? & c & Ho' & _). split; [done|].
      rewrite lookup_insert. case_decide; eauto.
    - intros o' H'. apply Hn. rewrite lookup_insert in H'. case_decide as E; [|done]. subst o'.
      rewrite Eo. by exists ob.
    - intros o' ob'. rewrite lookup_insert. case_decide as E; [intros [= <-]; auto|].
      intros H'. right; right. split; [done|]. exists ob'. by rewrite <- Eo. }
  apply keeps_bind. destruct (decide (r = 0)) as [->|Hr0].
  - apply wp_ret. eapply wp_perl; [done|].
    destruct (Hz w eq_refl (p_cache w Hi)) as [Hc Hp]. split; [|done].
    apply pinv_perl; [done|done|]. intros o' ob' Ho'. destruct (Hp o' ob' Ho') as [?|[?|[_ ?]]]; auto.
  - assert (pool_slot ob = Some (SIV r)) as Hs by (unfold pool_slot; by rewrite Ec).
    destruct (p_slot w Hi o ob r Ho Hs Hr0) as [rw Hr].
    eapply wp_DestroyRaw; [done|by eapply (p_raw w Hi)|done|].
    destruct (destroyed_objects r rw w) as (Eo & _ & Et). eapply wp_perl; [done|].
    destruct (Hz _ Eo (destroyed_alive r rw w (p_cache w Hi))) as [Hc Hp].
    split; [by eapply pinv_destroyed|etrans; [exact Et|exact Ht]].
Qed.

Lemma drop_objects w ob o : objects (perl w) !! o = Some ob →
  let p := REFCNT_dec (S (size (objects (perl w)))) o (perl w) in
  ∀ o' ob', objects p !! o' = Some ob' →
    ((refcnt ob ≤ 1)%nat → o' ≠ o) ∧
    ∃ c, objects (perl w) !! o' = Some c ∧ pool_slot ob' = pool_slot c.
Proof.
  intros Ho p o' ob' Ho'. split.
  - intros Hr ->. unfold p in Ho'. by rewrite (REFCNT_dec_last _ o (perl w) ob) in Ho'.
  - destruct (REFCNT_dec_objects _ _ _ _ _ Ho') as (c & Hc & E). exists c. split; [done|].
    unfold pool_slot. by rewrite E.
Qed.

Lemma keeps_drop o ob n w : settled n w → objects (perl w) !! o = Some ob → keeps (drop o) n w.
Proof using Type.
  clear parse_file parse_set proto_name create FileDef_Name message_set_extension P.
  intros [Hi Ht] Ho. apply keeps_bind. eapply wp_SvRV; [done|]. apply keeps_bind.
  assert (keeps (on_perl (cmodify (λ w, REFCNT_dec (S (size (objects w))) o w))) n w) as Hplain.
  { eapply wp_perl; [done|]. split; [|done]. apply pinv_perl; [done| |].
    - apply (REFCNT_dec_inv _ alive_same), Hi.
    - intros o' ob' H. destruct (drop_objects w ob o Ho o' ob' H) as [_ ?]. auto. }
  destruct (_ && _) eqn:Eb; [|by apply wp_ret]. apply andb_true_iff in Eb as [Hr1%Nat.leb_le _].
  destruct (pool_slot ob) as [[r|]|] eqn:Es; [|by apply wp_ret..].
  destruct (Z.eqb_spec r 0) as [->|Hr0]; [by apply wp_ret|].
  destruct (p_slot w Hi o ob r Ho Es Hr0) as [rw Hr].
  eapply wp_DestroyRaw; [done|by eapply (p_raw w Hi)|done|].
  destruct (destroyed_objects r rw w) as (Eo & _ & Et). eapply wp_perl; [done|].
  split; [|etrans; [exact Et|exact Ht]]. eapply pinv_destroyed; [done|done|done|done|done| |].
  - apply (REFCNT_dec_inv _ alive_same). by apply destroyed_alive, Hi.
  - intros o' ob' H. rewrite <- Eo in Ho.
    destruct (drop_objects _ ob o Ho o' ob' H) as (Hne & c & Hc & E).
    rewrite Eo in Hc. right; right. split; [by apply Hne|]. by exists c.
Qed.

Lemma keeps_pop op n w : settled n w →
  (∀ o, pop_object op = Some o → is_Some (objects (perl w) !! o)) → keeps (run_pop op) n w.
Proof.
  intros Hs Hl. assert (∀ o A B (m : pcall A) (b : B), pop_object op = Some o →
    (∀ ob, objects (perl w) !! o = Some ob → keeps m n w) → keeps (m;; mret b) n w) as Hthen.
  { intros o A B m b Ho Hm. destruct (Hl o Ho) as [ob Hob]. apply keeps_bind.
    eapply wp_mono; [by apply (Hm ob)|]. intros x w' Hs'. by apply keeps_ret. }
  destruct op as [mem|mem|mem|o|o|o|o|o serialized|o serialized|k o name]; cbn [run_pop].
  - by apply keeps_New.
  - by apply keeps_moo_new.
  - by apply keeps_GeneratedPool.
  - eapply Hthen; [done|]. intros ob Ho. by eapply keeps_Freeze.
  - eapply Hthen; [done|]. intros ob Ho. eapply wp_IsFrozen; [apply Hs|done|done|done].
  - eapply Hthen; [done|]. intros ob Ho. by eapply keeps_Free.
  - eapply Hthen; [done|]. intros ob Ho. by eapply keeps_drop.
  - destruct (Hl o eq_refl) as [ob Ho]. by eapply keeps_AddSerializedFile.
  - eapply Hthen; [done|]. intros ob Ho. by eapply keeps_AddSet.
  - destruct (Hl o eq_refl) as [ob Ho]. by eapply keeps_find.
Qed.

Lemma no_pools_settled capacity : settled 0 (no_pools capacity).
Proof.
  split; [|done]. split; simpl; try (intros *; rewrite lookup_empty; by intros ?); try done.
  - split; simpl; intros *; rewrite lookup_empty; [done|by intros []].
  - by left.
Qed.

Lemma run_pops_settled w ops w' : run_pops w ops w' → settled 0 w → settled 0 w'.
Proof.
  induction 1 as [|w op ops r w1 w' Hl Hr _ IH]; [done|]. intros Hs. apply IH.
  pose proof (keeps_pop op 0 w Hs Hl) as Hk. unfold keeps, wp in Hk. rewrite Hr in Hk.
  by destruct r.
Qed.

(** C19: the calls on pools own their memory.  After any history of making pools,
    getting the generated one, freezing, adding files and sets of files (well-formed or
    not, found duplicate or not), looking up, freeing and dropping references, with
    methods called on live objects, the next call returns or croaks and never touches a
    freed pool or wrapper structure; every wrapper structure left has its pool, no two
    share one but for the generated pool, which stays; and every temporary arena has
    been given back.  [PerlUpb_DescriptorPool_GetWrapper] on a pool other than the generated
    one is not among the calls: it makes a second owner ([second_wrapper_frees_twice]). *)
Theorem pools_safe capacity ops w op :
  run_pops (no_pools capacity) ops w →
  (∀ o, pop_object op = Some o → is_Some (objects (perl w) !! o)) →
  ∃ r w', run_pop op w = (r, w') ∧ safe r ∧ temps w' = 0 ∧
    (∀ a rw, raws w' !! a = Some rw → is_Some (pools w' !! pool rw)) ∧
    (∀ a b ra rb, raws w' !! a = Some ra → raws w' !! b = Some rb → pool ra = pool rb →
       a = b ∨ pool ra = generated_pool_ptr w') ∧
    (generated_pool_ptr w' ≠ 0 → is_Some (pools w' !! generated_pool_ptr w')).
Proof.
  intros Hrun Hl. pose proof (run_pops_settled _ _ _ Hrun (no_pools_settled capacity)) as Hs.
  pose proof (keeps_pop op 0 w Hs Hl) as Hk. unfold keeps, wp in Hk.
  destruct (run_pop op w) as [r w']. exists r, w'.
  assert (safe r ∧ settled 0 w') as [Hsafe [Hi Ht]] by (by destruct r).
  split_and!; [done|done|done|apply Hi| |apply Hi].
  intros a b ra rb Ha Hb E. destruct (decide (pool ra = generated_pool_ptr w')); [by right|left].
  by apply (p_unshared w' Hi a b ra rb).
Qed.

(** ** Sets of files *)

Definition set_error (i : nat) (s : upb_DefPool) (e : bytes) : string :=
  add_failure (str "Failed to add file " ++ decimal_nat (S i) i [] ++ str " to pool: ") s e.

Lemma FileDef_GetWrapper_ret f w : pinv w → 0 < f → ∃ sv p,
  FileDef_GetWrapper f w = (Ret sv, set_perl p w) ∧ pinv (set_perl p w).
Proof.
  intros Hi Hf. destruct (Wrap_spec (λ _ _, True) alive_same (perl w) f None file_class 0)
    as (o & p & E & Hc & Hx & ob & Ho & _); [apply Hi|lia|done|done|].
  exists (PRef o), p. split; [|by apply pinv_extends].
  unfold FileDef_GetWrapper, on_perl. by rewrite E.
Qed.

Lemma AddFile_ret p s proto w : pinv w → pools w !! p = Some s →
  ∃ w', DefPool_AddFile p proto w = (Ret (AddFile s proto (next_c w)).2, w') ∧
    pinv w' ∧ pools w' = <[p := (AddFile s proto (next_c w)).1]> (pools w) ∧
    next_c w' = next_c w + 16 ∧ temps w' = temps w.
Proof.
  intros Hi Hp.
  assert (wp (DefPool_AddFile p proto) (λ _, settled (temps w)) (settled (temps w)) w) as Hk.
  { eapply wp_AddFile; [by split|done|]. by intros r s' w' [Hi' Ht'] _ _ _ _. }
  unfold DefPool_AddFile, wp in *.
  rewrite (cbind_ret _ _ w s w) in * by (unfold pool_at; by rewrite Hp).
  rewrite (cbind_ret fresh_c _ w _ _ eq_refl) in *.
  destruct (AddFile s proto (next_c w)) as [s' r]. eexists. split; [done|].
  destruct Hk as [Hi' _]. by split_and!.
Qed.

Lemma add_files_spec p l : ∀ i s w, pinv w → pools w !! p = Some s →
  let '(n, s') := prefix_added s (next_c w) l in
  ∃ w', pools w' = <[p := s']> (pools w) ∧
  match l !! n with
  | None => ∃ av, add_files p i l w = (Ret av, w') ∧ length av = length l ∧ temps w' = temps w
  | Some proto => ∃ e, (AddFile s' proto (next_c w + 16 * Z.of_nat n)).2 = inr e ∧
      add_files p i l w = (Croak (set_error (i + n) s' e), w') ∧ temps w' = temps w - 1
  end.
Proof.
  induction l as [|proto l IH]; intros i s w Hi Hp; cbn [prefix_added add_files].
  { exists w. split; [by rewrite insert_id|]. by exists []. }
  destruct (AddFile_ret p s proto w Hi Hp) as (w1 & E & Hi1 & Hp1 & Hn1 & Ht1).
  rewrite (cbind_ret _ _ _ _ _ E). rewrite <- Hn1.
  assert (∀ sym d, syms s !! sym = Some d → def_file d ≠ next_c w) as Hnew.
  { intros sym d H. destruct (p_pool_next w Hi p s Hp) as [_ Hd]. specialize (Hd _ _ H). lia. }
  pose proof (AddFile_exact s proto (next_c w) Hnew) as Hsp. destruct (file_fits s proto).
  - rewrite Hsp in E, Hp1 |- *. cbn [fst snd] in E, Hp1 |- *. set (s1 := with_file s proto (next_c w)).
    destruct (FileDef_GetWrapper_ret (next_c w) w1 Hi1) as (sv & pl & E2 & Hi2);
      [apply (p_next w Hi)|].
    rewrite (cbind_ret _ _ _ _ _ E2).
    assert (pools (set_perl pl w1) !! p = Some s1) as Hp2.
    { simpl. rewrite Hp1. apply lookup_insert_eq. }
    specialize (IH (S i) s1 (set_perl pl w1) Hi2 Hp2). cbn [set_perl next_c pools temps] in IH.
    destruct (prefix_added s1 (next_c w1) l) as [n s'].
    destruct IH as (w' & Hp' & IH). exists w'.
    split; [by rewrite Hp', Hp1, insert_insert_eq|]. change ((proto :: l) !! S n) with (l !! n). destruct (l !! n) as [proto'|].
    + destruct IH as (e & He & IH & Ht'). exists e. rewrite (cbind_croak _ _ _ _ _ IH).
      replace (S i + n)%nat with (i + S n)%nat by lia. split_and!; [|done|by rewrite <- Ht1].
      rewrite <- He, Hn1. do 2 f_equal. lia.
    + destruct IH as (av & IH & Hav & Ht'). rewrite (cbind_ret _ _ _ _ _ IH).
      exists (sv :: av). split_and!; [done|simpl; lia|]. by rewrite <- Ht1.
  - destruct Hsp as [e He]. rewrite He in E, Hp1 |- *. cbn [fst snd] in E, Hp1 |- *.
    exists (set_temps (temps w1 - 1) w1). split; [done|]. exists e. split; [by rewrite Z.add_0_r, He|]. rewrite Nat.add_0_r.
    rewrite (cbind_ret Release _ _ tt (set_temps (temps w1 - 1) w1)) by done.
    rewrite (cbind_ret (pool_at p) _ _ s (set_temps (temps w1 - 1) w1)).
    + split; [done|]. simpl. by rewrite Ht1.
    + unfold pool_at. simpl. by rewrite Hp1, lookup_insert_eq.
Qed.

(** An object through which the pool [s] at [p] can be changed. *)
Definition open_pool (w : pworld) (o p : Z) (s : upb_DefPool) : Prop :=
  ∃ ob r, objects (perl w) !! o = Some ob ∧ stash ob = Some pool_class ∧
    pool_slot ob = Some (SIV r) ∧ r ≠ 0 ∧ raws w !! r = Some {| pool := p; frozen := false |} ∧
    p ≠ 0 ∧ pools w !! p = Some s.

Lemma GetPool_at w o ob r rw :
  objects (perl w) !! o = Some ob → stash ob = Some pool_class → pool_slot ob = Some (SIV r) →
  r ≠ 0 → raws w !! r = Some rw →
  DescriptorPool_GetPool (Some (PRef o)) w = (Ret (pool rw), w) ∧
  pool_ptr_iv (Some (PRef o)) w = (Ret (Some r), w) ∧ raw_at r w = (Ret rw, w).
Proof.
  intros Ho Hc Hs Hr0 Hr.
  assert (pool_ptr_iv (Some (PRef o)) w = (Ret (Some r), w)) as E.
  { unfold pool_ptr_iv. rewrite (cbind_ret _ _ w ob w).
    - by rewrite bool_decide_eq_true_2, Hs by done.
    - unfold on_perl, SvRV. rewrite Ho. by destruct w. }
  assert (raw_at r w = (Ret rw, w)) as Er by (unfold raw_at; by rewrite Hr).
  split_and!; [|done|done]. unfold DescriptorPool_GetPool. rewrite (cbind_ret _ _ _ _ _ E).
  rewrite (proj2 (Z.eqb_neq r 0)) by done. by rewrite (cbind_ret _ _ _ _ _ Er).
Qed.

Lemma IsFrozen_at w o ob r rw :
  objects (perl w) !! o = Some ob → stash ob = Some pool_class → pool_slot ob = Some (SIV r) →
  r ≠ 0 → raws w !! r = Some rw → pool rw ≠ 0 →
  DescriptorPool_IsFrozen (Some (PRef o)) w = (Ret (frozen rw), w).
Proof.
  intros Ho Hc Hs Hr0 Hr Hp. destruct (GetPool_at w o ob r rw Ho Hc Hs Hr0 Hr) as (E1 & E2 & E3).
  unfold DescriptorPool_IsFrozen. rewrite (cbind_ret _ _ _ _ _ E1).
  rewrite (proj2 (Z.eqb_neq _ 0)) by done. rewrite (cbind_ret _ _ _ _ _ E2). cbn [default].
  by rewrite (cbind_ret _ _ _ _ _ E3).
Qed.

(** C35: a set of files is added up to its first failure.  On a live, unfrozen pool
    [add_serialized_file_descriptor_set] adds the files of a set in order while they fit:
    while name and symbols are new, none comes twice, and the builder raises nothing.  If
    all do, it returns one wrapper for each; if the [n]-th does not, it croaks with that
    number and upb's message.  In both cases the pool then holds what it held, with the
    symbols and the names of the files before the [n]-th and nothing more, so the failing
    one leaves no symbol behind.  Other pools are untouched and the temporary arena is
    given back either way. *)
Theorem file_set_keeps_prefix w o p s data l :
  pinv w → open_pool w o p s → parse_set data = Some l →
  let '(n, s') := prefix_added s (next_c w) l in
  ∃ w', pools w' = <[p := s']> (pools w) ∧ temps w' = temps w ∧
  match l !! n with
  | None => ∃ av, length av = length l ∧
      AddSerializedFileDescriptorSet (Some (PRef o)) (Some data) w = (Ret (Some av), w')
  | Some proto => ∃ e, (AddFile s' proto (next_c w + 16 * Z.of_nat n)).2 = inr e ∧
      AddSerializedFileDescriptorSet (Some (PRef o)) (Some data) w = (Croak (set_error n s' e), w')
  end.
Proof.
  intros Hi (ob & r & Ho & Hc & Hs & Hr0 & Hr & Hp0 & Hp) Hl.
  destruct (GetPool_at w o ob r _ Ho Hc Hs Hr0 Hr) as (E1 & _ & _).
  pose proof (IsFrozen_at w o ob r _ Ho Hc Hs Hr0 Hr Hp0) as E2. cbn [frozen] in E2.
  unfold AddSerializedFileDescriptorSet. rewrite (cbind_ret _ _ _ _ _ E2). cbn [negb].
  rewrite (cbind_ret _ _ w tt w) by done. rewrite (cbind_ret _ _ _ _ _ E1). cbn [pool].
  rewrite (proj2 (Z.eqb_neq p 0)) by done. rewrite (cbind_ret _ _ w data w) by done.
  set (w1 := set_temps (temps w + 1) w). rewrite (cbind_ret Acquire _ w tt w1) by done.
  rewrite Hl. pose proof (add_files_spec p l 0 s w1 (pinv_temps w _ Hi) Hp) as H.
  change (next_c w1) with (next_c w) in H.
  destruct (prefix_added s (next_c w) l) as [n s']. destruct H as (w' & Hp' & H).
  destruct (l !! n) as [proto|].
  - destruct H as (e & He & H & Ht). exists w'. split_and!; [done|simpl in Ht; lia|]. exists e. split; [exact He|].
    by rewrite (cbind_croak _ _ _ _ _ H).
  - destruct H as (av & H & Hav & Ht). exists (set_temps (temps w' - 1) w').
    split_and!; [done|simpl in *; lia|]. exists av. split; [done|].
    by rewrite (cbind_ret _ _ _ _ _ H).
Qed.

(** A frozen pool's object adds nothing. *)
Lemma frozen_adds_nothing w o ob r rw serialized :
  objects (perl w) !! o = Some ob → stash ob = Some pool_class → pool_slot ob = Some (SIV r) →
  r ≠ 0 → raws w !! r = Some rw → pool rw ≠ 0 → frozen rw = true →
  AddSerializedFile (Some (PRef o)) serialized w =
    (Croak "Cannot add file to a frozen DescriptorPool", w) ∧
  AddSerializedFileDescriptorSet (Some (PRef o)) serialized w =
    (Croak "Cannot add file to a frozen DescriptorPool", w).
Proof.
  intros Ho Hc Hs Hr0 Hr Hp Hf. pose proof (IsFrozen_at w o ob r rw Ho Hc Hs Hr0 Hr Hp) as E.
  rewrite Hf in E. unfold AddSerializedFile, AddSerializedFileDescriptorSet.
  by rewrite !(cbind_ret _ _ _ _ _ E).
Qed.

(** ** The explanation of duplicates *)

Definition QUOTE : Z := 39.

Lemma after_last_space_app t u : SPACE ∉ u → after_last_space (t ++ SPACE :: u) = Some u.
Proof.
  intros Hu. assert (after_last_space u = None) as Hn.
  { induction u as [|c u IH]; [done|]. apply not_elem_of_cons in Hu as [Hc Hu]. simpl.
    rewrite IH by done. by destruct (Z.eqb_spec c SPACE). }
  induction t as [|c t IH]; simpl; [by rewrite Hn|]. by rewrite IH.
Qed.

Lemma take_notin {A} (x : A) n l : x ∉ l → x ∉ take n l.
Proof. intros Hx Hin. apply Hx. rewrite <- (take_drop n l). set_solver. Qed.

(** The file with the first definition of a duplicate symbol is never named: what is
    looked up is the symbol with the quotes of the message, which no pool contains. *)
Lemma duplicate_never_located s sym :
  (∀ name, is_Some (syms s !! name) → head name ≠ Some QUOTE) → SPACE ∉ sym →
  let msg := SetErrorFormat (str "duplicate symbol '" ++ sym ++ str "'") in
  let shown := take 493 (QUOTE :: sym ++ [QUOTE]) in
  explain s msg = Some (str " (duplicate symbol '" ++ shown ++
    str "' already defined in unknown file)").
Proof.
  intros Hq Hsp msg shown.
  assert (msg = str "duplicate symbol" ++ SPACE :: shown) as ->.
  { unfold msg, SetErrorFormat. rewrite take_app. done. }
  assert (SPACE ∉ shown) as Hs.
  { apply take_notin. rewrite not_elem_of_cons, not_elem_of_app, not_elem_of_cons.
    split_and!; [done|done|done|apply not_elem_of_nil]. }
  assert (syms s !! shown = None) as Hn.
  { destruct (syms s !! shown) as [d|] eqn:E; [|done].
    exfalso. apply (Hq shown); [by rewrite E|done]. }
  unfold explain. assert (∀ p t, strstr (p ++ t) p = true) as Hstr.
  { intros p t. assert (starts_with p (p ++ t) = true) as E.
    { clear. induction p as [|c p IH]; [by destruct t|]. simpl. by rewrite Z.eqb_refl, IH. }
    destruct (p ++ t); cbn [strstr]; by rewrite E. }
  rewrite Hstr, after_last_space_app by done.
  unfold FindMessageByName, FindEnumByName, FindServiceByName, Unpack. rewrite Hn. done.
Qed.

(** Histories by evaluation. *)
Fixpoint exec (w : pworld) (ops : list pop) : pworld :=
  match ops with [] => w | op :: ops => exec (run_pop op w).2 ops end.

Fixpoint lives (w : pworld) (ops : list pop) : bool :=
  match ops with
  | [] => true
  | op :: ops =>
      match pop_object op with
      | Some o => bool_decide (is_Some (objects (perl w) !! o))
      | None => true
      end && lives (run_pop op w).2 ops
  end.

Lemma exec_run w ops : lives w ops = true → run_pops w ops (exec w ops).
Proof.
  revert w. induction ops as [|op ops IH]; intros w; [constructor|].
  intros [Ho Hl]%andb_true_iff. apply (run_cons _ _ _ (run_pop op w).1 (run_pop op w).2).
  - intros o E. rewrite E in Ho. by apply bool_decide_eq_true in Ho.
  - by destruct (run_pop op w).
  - by apply IH.
Qed.
End Pool.

(** ** Concrete pools: a file is a byte, its only message has one more *)

Definition toy_file (data : bytes) : option bytes :=
  match data with [c] => Some [c] | _ => None end.
Definition toy_set (data : bytes) : option (list bytes) := Some (map (λ c, [c]) data).
Definition toy_create (s : upb_DefPool) (name : bytes) : list (bytes * deftype * Z) * option bytes :=
  ([(77 :: name, MSG, 65536 + 16 * hd 0 name)], None).

Definition toy_run := run_pop toy_file toy_set id toy_create (λ f, []) (λ m, 0).
Definition toy_exec := exec toy_file toy_set id toy_create (λ f, []) (λ m, 0).

Definition toy_history : list pop :=
  [PGenerated true; PAdd 1 (Some [65]); PMoo true; PAddSet 3 (Some [66; 67]); PDrop 3].

Lemma pools_safe_witness :
  ∃ r w', toy_run (PAdd 1 (Some [65])) (toy_exec (no_pools 2) toy_history) = (r, w') ∧ safe r ∧
    temps w' = 0 ∧
    (∀ a rw, raws w' !! a = Some rw → is_Some (pools w' !! pool rw)) ∧
    (∀ a b ra rb, raws w' !! a = Some ra → raws w' !! b = Some rb → pool ra = pool rb →
       a = b ∨ pool ra = generated_pool_ptr w') ∧
    (generated_pool_ptr w' ≠ 0 → is_Some (pools w' !! generated_pool_ptr w')).
Proof.
  apply (pools_safe toy_file toy_set id toy_create (λ f, []) (λ m, 0) 2 toy_history).
  - apply exec_run. vm_compute. reflexivity.
  - intros o [= <-]. by_compute.
Defined.

(** A set whose third file is a duplicate of the first. *)
Lemma file_set_keeps_prefix_witness :
  let w := toy_exec (no_pools 8) [PGenerated true] in
  ∃ w', pools w' = <[16 := (prefix_added id toy_create empty_pool (next_c w) [[65]; [66]; [65]]).2]> (pools w) ∧
    temps w' = temps w ∧
    AddSerializedFileDescriptorSet toy_set id toy_create (λ f, []) (Some (PRef 1)) (Some [65; 66; 65]) w =
      (Croak (text (str "Failed to add file 2 to pool: duplicate file name A (already defined in this DescriptorPool)")), w').
Proof.
  intros w.
  pose proof (file_set_keeps_prefix toy_set id toy_create (λ f, []) w 1 16 empty_pool
    [65; 66; 65] [[65]; [66]; [65]]) as H.
  destruct H as (w' & H1 & H2 & H3).
  - apply (run_pops_settled toy_file toy_set id toy_create (λ f, []) (λ m, 0) (no_pools 8) [PGenerated true]).
    + apply exec_run. vm_compute. reflexivity.
    + apply no_pools_settled.
  - exists (pool_object 32), 32. split_and!; try done; by vm_compute.
  - done.
  - destruct H3 as (e & He & H3). exists w'. split_and!; [exact H1|exact H2|].
    vm_compute in He. injection He as <-. etrans; [exact H3|]. by vm_compute.
Defined.

(** *** Freezing is per wrapper *)

(** The generated pool is frozen, the wrapper dropped; the next wrapper of the same
    pool is not frozen and adds a file. *)
Example generated_freeze_forgotten :
  let w := toy_exec (no_pools 8) [PGenerated true; PFreeze 1; PDrop 1; PGenerated true] in
  (toy_run (PAdd 2 (Some [65])) w).1 = Ret (PRef 3) ∧
  (toy_run (PAdd 1 (Some [65])) (toy_exec (no_pools 8) [PGenerated true; PFreeze 1])).1 =
    Croak "Cannot add file to a frozen DescriptorPool".
Proof. split; by vm_compute. Qed.

(** Two wrappers of one pool, made when the first was evicted from the object cache,
    each free it. *)
Example second_wrapper_frees_twice :
  let w := toy_exec (no_pools 1) [PNew true; PGenerated true] in
  let '(r, w) := DescriptorPool_GetWrapper 16 w in
  r = Ret (PRef 3) ∧
  (toy_run (PDrop 3) (toy_run (PDrop 1) w).2).1 = Fault "freed upb_DefPool".
Proof. vm_compute. split; reflexivity. Qed.
