(* ===== verification/ProtocNames.v ===== *)
(** * Names in the code generator (protoc/helpers.cc, protoc/generator.cc)

    The string helpers of the protoc plugin, the Perl package of a file, the table
    that maps message types to Perl classes, and the agreement of those classes with
    the ones the runtime ([Names]) gives the same types. *)

From S2P Require Import Prelude Names.

(** ** helpers.cc *)

(** [ConsumePrefix]: what is left of the view, if it has the prefix. *)
Definition ConsumePrefix (s prefix : bytes) : option bytes :=
  if (length prefix <=? length s)%nat && bool_decide (take (length prefix) s = prefix)
  then Some (drop (length prefix) s) else None.

(** [string_view::find] of a character. *)
Fixpoint find_char (c : Z) (s : bytes) : option nat :=
  match s with
  | [] => None
  | d :: s => if d =? c then Some 0%nat else S <$> find_char c s
  end.

(** [while (start < s.length())], on what is left from [start]. *)
Fixpoint split_from (fuel : nat) (s : bytes) (delim : Z) : list bytes :=
  match fuel, s with
  | O, _ | _, [] => []
  | S fuel, _ :: _ =>
      match find_char delim s with
      | None => [s]
      | Some e => take e s :: split_from fuel (drop (S e) s) delim
      end
  end.

Definition SplitString (s : bytes) (delim : Z) : list bytes := split_from (length s) s delim.

(** [res += toupper(segment[0]); res += segment.substr(1)], in the C locale. *)
Definition camel_segment (res segment : bytes) : bytes :=
  match segment with
  | [] => res
  | c :: rest => res ++ [upcase c] ++ rest
  end.

Definition ToCamelCase (s : bytes) : bytes :=
  foldl camel_segment [] (SplitString s UNDERSCORE).

Definition is_upper (c : Z) : bool := (65 <=? c) && (c <=? 90).
Definition downcase (c : Z) : Z := if is_upper c then c + 32 else c.

(** The loop of [ToSnakeCase]; [prev] is [s[i - 1]]. *)
Fixpoint snake_loop (prev : option Z) (s : bytes) : bytes :=
  match s with
  | [] => []
  | c :: s =>
      (if is_upper c then
         match prev with
         | Some p => if negb (p =? UNDERSCORE) then [UNDERSCORE] else []
         | None => []
         end ++ [downcase c]
       else [c]) ++ snake_loop (Some c) s
  end.

Definition ToSnakeCase (s : bytes) : bytes := snake_loop None s.

Definition GetDefaultHost (proto_pkg : bytes) : bytes :=
  let sub := match ConsumePrefix proto_pkg (str "google.cloud.") with
             | Some sub => Some sub
             | None => ConsumePrefix proto_pkg (str "google.")
             end in
  match sub with
  | Some sub =>
      match find_char DOT sub with
      | Some e => take e sub ++ str ".googleapis.com:443"
      | None => str "localhost:443"
      end
  | None => str "localhost:443"
  end.

Definition package_segment (acc : bytes * bool) (segment : bytes) : bytes * bool :=
  let '(res, first) := acc in
  (camel_segment (if negb first then res ++ str "::" else res) segment, false).

Definition CapitalizePackage (s : bytes) : bytes :=
  (foldl package_segment ([], true) (SplitString s DOT)).1.

(** ** The descriptors of a request *)

Record FieldProto := { field_name : bytes; field_type : Z; field_type_name : bytes }.
Record EnumValueProto := { value_name : bytes; value_number : Z }.
Record EnumProto := { enum_name : bytes; enum_value : list EnumValueProto }.

Inductive MessageProto := DescriptorProto {
  message_name : bytes;
  message_field : list FieldProto;
  message_enum_type : list EnumProto;
  message_nested_type : list MessageProto }.

Record MethodProto := { method_name : bytes; input_type : bytes; output_type : bytes }.
Record ServiceProto := { service_name : bytes; service_method : list MethodProto }.

Record FileProto := {
  file_proto_name : bytes;
  file_package : bytes;
  file_dependency : list bytes;
  file_message_type : list MessageProto;
  file_enum_type : list EnumProto;
  file_service : list ServiceProto }.

(** Induction that reaches the nested messages. *)
Section MessageProto_ind.
Context (P : MessageProto → Prop).
Context (step : ∀ m, Forall P (message_nested_type m) → P m).

Fixpoint MessageProto_nested_ind (m : MessageProto) : P m :=
  step m (let fix go (ms : list MessageProto) : Forall P ms :=
            match ms with
            | [] => List.Forall_nil P
            | m :: ms => @List.Forall_cons _ P m ms (MessageProto_nested_ind m) (go ms)
            end in go (message_nested_type m)).
End MessageProto_ind.

(** ** The package of a file *)

(** [find_last_of(c)], and the text before it (all of it if there is none). *)
Definition has_char (c : Z) (s : bytes) : bool := existsb (Z.eqb c) s.

Fixpoint before_last_dot (s : bytes) : bytes :=
  match s with
  | [] => []
  | c :: s' => if (c =? DOT) && negb (has_char DOT s') then []
               else if negb (has_char DOT s) then s else c :: before_last_dot s'
  end.

Definition GetPerlPackage (f : FileProto) : bytes :=
  let file_segment := before_last_dot (after_last_slash (file_proto_name f)) in
  let camel_file_segment := ToCamelCase file_segment in
  let base_package := CapitalizePackage (file_package f) in
  match base_package with
  | [] => camel_file_segment
  | _ => base_package ++ str "::" ++ camel_file_segment
  end.

(** ** The tables of the generator *)

Definition BuildPackageMap (files : list FileProto) : gmap bytes bytes :=
  foldl (λ m f, <[file_proto_name f := GetPerlPackage f]> m) ∅ files.

Fixpoint RegisterTypesRecursively (proto_prefix perl_prefix : bytes)
    (types : gmap bytes bytes) (m : MessageProto) : gmap bytes bytes :=
  let full_proto := proto_prefix ++ str "." ++ message_name m in
  let full_perl := perl_prefix ++ str "::" ++ message_name m in
  foldl (RegisterTypesRecursively full_proto full_perl) (<[full_proto := full_perl]> types)
    (message_nested_type m).

Definition BuildTypeMap (file_to_package : gmap bytes bytes) (files : list FileProto)
  : gmap bytes bytes :=
  foldl (λ types f,
    let perl_pkg := default [] (file_to_package !! file_proto_name f) in
    let proto_pkg := str "." ++ file_package f in
    foldl (RegisterTypesRecursively proto_pkg perl_pkg) types (file_message_type f)) ∅ files.

(** The members of [PerlCodeGenerator] but the arena. *)
Record PerlCodeGenerator := {
  request_files : list FileProto;
  file_to_generate : list bytes;
  file_to_package : gmap bytes bytes;
  type_to_perl_class : gmap bytes bytes;
  package_name : bytes }.

Definition new_generator (files : list FileProto) (to_generate : list bytes) : PerlCodeGenerator :=
  let pkgs := BuildPackageMap files in
  {| request_files := files; file_to_generate := to_generate; file_to_package := pkgs;
     type_to_perl_class := BuildTypeMap pkgs files; package_name := [] |}.

Definition ResolvePerlClass (g : PerlCodeGenerator) (proto_type : bytes) : bytes :=
  match type_to_perl_class g !! proto_type with
  | Some class => class
  | None => CapitalizePackage (default proto_type (ConsumePrefix proto_type (str ".")))
  end.

Example host_cloud : GetDefaultHost (str "google.cloud.vision.v1") = str "vision.googleapis.com:443".
Proof. reflexivity. Qed.
Example snake_acronym : ToSnakeCase (str "GetIAMPolicy") = str "get_i_a_m_policy".
Proof. reflexivity. Qed.
Example package_trailing : CapitalizePackage (str "a..b.") = str "A::::B".
Proof. reflexivity. Qed.

(** ** Splitting *)

Fixpoint join_with (sep : bytes) (l : list bytes) : bytes :=
  match l with
  | [] => []
  | [s] => s
  | s :: l => s ++ sep ++ join_with sep l
  end.

(** The pieces between delimiters, a trailing empty one included. *)
Fixpoint pieces (delim : Z) (s : bytes) : list bytes :=
  match s with
  | [] => [[]]
  | c :: s =>
      let ws := pieces delim s in
      if c =? delim then [] :: ws
      else match ws with w :: ws => (c :: w) :: ws | [] => [[c]] end
  end.

Lemma pieces_underscore s : pieces UNDERSCORE s = split_underscore s.
Proof. induction s as [|c s IH]; simpl; [done|]. by rewrite IH. Qed.

Lemma pieces_one c s : c ∉ s → pieces c s = [s].
Proof.
  induction s as [|d s IH]; simpl; [done|]. intros [Hd Hs]%not_elem_of_cons.
  rewrite IH by done. by destruct (Z.eqb_spec d c).
Qed.

Lemma pieces_app c p q : c ∉ p → pieces c (p ++ c :: q) = p :: pieces c q.
Proof.
  induction p as [|d p IH]; simpl; [by rewrite Z.eqb_refl|].
  intros [Hd Hp]%not_elem_of_cons. rewrite IH by done. by destruct (Z.eqb_spec d c).
Qed.

Lemma find_char_Some c s e :
  find_char c s = Some e → s = take e s ++ c :: drop (S e) s ∧ c ∉ take e s.
Proof.
  revert e. induction s as [|d s IH]; intros e; simpl; [done|].
  destruct (Z.eqb_spec d c) as [->|Hd].
  - intros [= <-]. by split; [|apply not_elem_of_nil].
  - destruct (find_char c s) as [e'|]; [|done]. intros [= <-].
    destruct (IH e' eq_refl) as [Hs Hn]. cbn [take drop app]. split; [by rewrite <- Hs|].
    by apply not_elem_of_cons.
Qed.

Lemma find_char_None c s : find_char c s = None → c ∉ s.
Proof.
  induction s as [|d s IH]; simpl; [by intros _ ?%not_elem_of_nil|].
  destruct (Z.eqb_spec d c); [done|]. destruct (find_char c s); [done|].
  intros _. apply not_elem_of_cons. auto.
Qed.

Lemma split_from_pieces c fuel : ∀ s, (length s ≤ fuel)%nat →
  ∃ tl, (tl = [] ∨ tl = [[]]) ∧ pieces c s = split_from fuel s c ++ tl.
Proof.
  induction fuel as [|fuel IH]; intros s Hl.
  { destruct s; [|simpl in Hl; lia]. exists [[]]. auto. }
  destruct s as [|d s]; [exists [[]]; auto|].
  cbn [split_from]. remember (d :: s) as t. destruct (find_char c t) as [e|] eqn:Ef.
  - apply find_char_Some in Ef as [Ht Hn].
    destruct (IH (drop (S e) t)) as (tl & Htl & E).
    { rewrite length_drop. subst t. simpl in *. lia. }
    exists tl. split; [done|]. rewrite Ht at 1. by rewrite pieces_app, E.
  - apply find_char_None in Ef. exists []. rewrite pieces_one by done. auto.
Qed.

Lemma SplitString_pieces s c :
  ∃ tl, (tl = [] ∨ tl = [[]]) ∧ pieces c s = SplitString s c ++ tl.
Proof. by apply split_from_pieces. Qed.

(** A name made of segments: none empty, none with the delimiter. *)
Definition segment_ok (c : Z) (w : bytes) : Prop := w ≠ [] ∧ c ∉ w.

Lemma pieces_join c l : l ≠ [] → Forall (λ w, c ∉ w) l → pieces c (join_with [c] l) = l.
Proof.
  induction l as [|w l IH]; [done|]. intros _ [Hw Hl]%Forall_cons.
  destruct l as [|w' l]; [by apply pieces_one|].
  change (join_with [c] (w :: w' :: l)) with (w ++ c :: join_with [c] (w' :: l)).
  rewrite pieces_app by done. by rewrite IH.
Qed.

(** The loop of [SplitString] ends, and recovers the segments of a well-formed name. *)
Lemma SplitString_join c l :
  l ≠ [] → Forall (segment_ok c) l → SplitString (join_with [c] l) c = l.
Proof.
  intros Hne Hl. destruct (SplitString_pieces (join_with [c] l) c) as (tl & Htl & E).
  rewrite pieces_join in E; [|done|apply (Forall_impl _ _ _ Hl); by intros ? [_ ?]].
  destruct Htl as [-> | ->]; [by rewrite app_nil_r in E|].
  rewrite E in Hl. apply Forall_app in Hl as [_ Hl]. inversion Hl as [|?? [? _]]. done.
Qed.

(** ** Case conversions *)

Lemma camel_segment_capitalize res w : camel_segment res w = res ++ capitalize w.
Proof. destruct w; simpl; [by rewrite app_nil_r|done]. Qed.

Lemma camel_fold l : ∀ res, foldl camel_segment res l = res ++ concat (capitalize <$> l).
Proof.
  induction l as [|w l IH]; intros res; simpl; [by rewrite app_nil_r|].
  by rewrite IH, camel_segment_capitalize, <- app_assoc.
Qed.

(** The generator's CamelCase is the runtime's, for every string. *)
Lemma ToCamelCase_split s : ToCamelCase s = concat (capitalize <$> split_underscore s).
Proof.
  unfold ToCamelCase. rewrite camel_fold, <- pieces_underscore. simpl.
  destruct (SplitString_pieces s UNDERSCORE) as (tl & Htl & ->).
  rewrite fmap_app, concat_app. destruct Htl as [-> | ->]; simpl; by rewrite app_nil_r.
Qed.

Lemma package_fold l : ∀ res,
  (foldl package_segment (res, false) l).1 =
    res ++ concat (map (λ w, str "::" ++ capitalize w) l).
Proof.
  induction l as [|w l IH]; intros res; [simpl; by rewrite app_nil_r|].
  cbn [foldl package_segment negb map concat]. rewrite IH, camel_segment_capitalize.
  by rewrite <- !app_assoc.
Qed.

Lemma join_cons sep w l :
  join_with sep (w :: l) = w ++ concat (map (app sep) l).
Proof.
  revert w. induction l as [|w' l IH]; intros w; [simpl; by rewrite app_nil_r|].
  change (join_with sep (w :: w' :: l)) with (w ++ sep ++ join_with sep (w' :: l)).
  rewrite IH. simpl. by rewrite <- app_assoc.
Qed.

Lemma CapitalizePackage_join l :
  l ≠ [] → Forall (segment_ok DOT) l →
  CapitalizePackage (join_with [DOT] l) = join_with (str "::") (capitalize <$> l).
Proof.
  intros Hne Hl. unfold CapitalizePackage. rewrite SplitString_join by done.
  destruct l as [|w l]; [done|]. cbn [foldl package_segment negb].
  rewrite package_fold, camel_segment_capitalize, fmap_cons, join_cons. cbn [app]. f_equal.
  clear Hl Hne. induction l as [|v l IH]; [done|].
  rewrite !fmap_cons, !concat_cons. f_equal. exact IH.
Qed.

Lemma capitalize_loop_plain w s : ∀ p,
  DOT ∉ w → p ≠ DOT → capitalize_loop (Some p) (w ++ s) =
    w ++ capitalize_loop (Some (List.last w p)) s.
Proof.
  induction w as [|c w IH]; intros p Hw Hp; [done|].
  apply not_elem_of_cons in Hw as [Hc Hw]. cbn [app capitalize_loop].
  rewrite (proj2 (Z.eqb_neq p DOT)), (proj2 (Z.eqb_neq c DOT)) by done. cbn [app].
  rewrite IH by done. f_equal. f_equal. f_equal. f_equal.
  clear. destruct w; [done|]. revert z. induction w; intros; [done|]. simpl in *. auto.
Qed.

Lemma last_not_dot w p : DOT ∉ w → p ≠ DOT → List.last w p ≠ DOT.
Proof.
  revert p. induction w as [|c w IH]; intros p Hw Hp; [done|].
  apply not_elem_of_cons in Hw as [Hc Hw]. destruct w; [done|]. by apply IH.
Qed.

Lemma capitalize_loop_start prev w s :
  match prev with None => True | Some p => p = DOT end → segment_ok DOT w →
  ∃ p, p ≠ DOT ∧ capitalize_loop prev (w ++ s) = capitalize w ++ capitalize_loop (Some p) s.
Proof.
  intros Hprev [Hne Hw]. destruct w as [|c w]; [done|].
  apply not_elem_of_cons in Hw as [Hc Hw]. exists (List.last w c).
  split; [by apply last_not_dot|]. cbn [app capitalize_loop capitalize].
  destruct prev as [p|]; [subst p; rewrite Z.eqb_refl|]; by rewrite capitalize_loop_plain.
Qed.

Lemma capitalize_loop_join prev l :
  match prev with None => True | Some p => p = DOT end → Forall (segment_ok DOT) l →
  capitalize_loop prev (join_with [DOT] l) = join_with (str "::") (capitalize <$> l).
Proof.
  revert prev. induction l as [|w l IH]; intros prev Hprev Hl; [done|].
  apply Forall_cons in Hl as [Hw Hl]. destruct l as [|w' l].
  - destruct (capitalize_loop_start prev w [] Hprev Hw) as (p & _ & E).
    rewrite !app_nil_r in E. simpl. rewrite E. done.
  - change (join_with [DOT] (w :: w' :: l)) with (w ++ DOT :: join_with [DOT] (w' :: l)).
    destruct (capitalize_loop_start prev w (DOT :: join_with [DOT] (w' :: l)) Hprev Hw)
      as (p & Hp & ->).
    cbn [capitalize_loop]. rewrite (proj2 (Z.eqb_neq p DOT)) by done. rewrite Z.eqb_refl.
    rewrite IH by done. done.
Qed.

(** ** The type table *)

Fixpoint message_paths (m : MessageProto) : list (list bytes) :=
  [message_name m] :: (cons (message_name m) <$> concat (map message_paths (message_nested_type m))).

Definition file_paths (f : FileProto) : list (list bytes) :=
  concat (map message_paths (file_message_type f)).

(** [upb]'s full name of the message at [path] ([_upb_DefBuilder_MakeFullName]). *)
Definition upb_full_name (f : FileProto) (path : list bytes) : bytes :=
  match file_package f with
  | [] => join_with [DOT] path
  | pkg => join_with [DOT] (pkg :: path)
  end.

(** What the runtime asks of the message at [path]. *)
Definition runtime_names (f : FileProto) (path : list bytes) : MessageNames :=
  {| full_name := upb_full_name f path; file_name := file_proto_name f;
     package := file_package f |}.

Definition prefixed (sep : bytes) (p : bytes) (path : list bytes) : bytes :=
  p ++ concat (map (app sep) path).

Definition insert_all (l : list (bytes * bytes)) (m : gmap bytes bytes) : gmap bytes bytes :=
  foldl (λ m kv, <[kv.1 := kv.2]> m) m l.

Definition types_at (proto perl : bytes) (paths : list (list bytes)) : list (bytes * bytes) :=
  map (λ path, (prefixed (str ".") proto path, prefixed (str "::") perl path)) paths.

Lemma insert_all_app l l' m : insert_all (l ++ l') m = insert_all l' (insert_all l m).
Proof. apply foldl_app. Qed.

Lemma types_at_cons proto perl n paths :
  types_at proto perl (cons n <$> paths) =
  types_at (proto ++ str "." ++ n) (perl ++ str "::" ++ n) paths.
Proof.
  unfold types_at. rewrite <- list_fmap_compose. apply list_fmap_ext. intros _ path _.
  unfold prefixed, compose. rewrite !fmap_cons, !concat_cons, <- !app_assoc. done.
Qed.

Lemma Register_fold ms :
  Forall (λ m, ∀ proto perl types, RegisterTypesRecursively proto perl types m =
    insert_all (types_at proto perl (message_paths m)) types) ms →
  ∀ proto perl types, foldl (RegisterTypesRecursively proto perl) types ms =
    insert_all (types_at proto perl (concat (map message_paths ms))) types.
Proof.
  induction 1 as [|m ms Hm _ IH]; intros proto perl types; [done|].
  rewrite fmap_cons, concat_cons. unfold types_at at 1. rewrite fmap_app, insert_all_app.
  cbn [foldl]. by rewrite IH, Hm.
Qed.

Lemma Register_spec m proto perl types :
  RegisterTypesRecursively proto perl types m =
  insert_all (types_at proto perl (message_paths m)) types.
Proof.
  revert proto perl types. induction m as [m IH] using MessageProto_nested_ind.
  intros proto perl types. destruct m as [n fs es ms]. cbn [RegisterTypesRecursively].
  cbn [message_nested_type] in IH. rewrite (Register_fold ms IH).
  cbn [message_paths message_name message_nested_type].
  unfold types_at at 2. rewrite fmap_cons. cbn [insert_all foldl fst snd].
  rewrite <- types_at_cons. unfold insert_all, types_at. f_equal. f_equal;
    unfold prefixed; cbn [map concat]; by rewrite app_nil_r.
Qed.

Definition file_types (pkgs : gmap bytes bytes) (f : FileProto) : list (bytes * bytes) :=
  types_at (str "." ++ file_package f) (default [] (pkgs !! file_proto_name f)) (file_paths f).

Lemma BuildTypeMap_spec pkgs files :
  BuildTypeMap pkgs files = insert_all (concat (map (file_types pkgs) files)) ∅.
Proof.
  unfold BuildTypeMap. generalize (∅ : gmap bytes bytes) as m.
  induction files as [|f files IH]; intros m; [done|].
  rewrite fmap_cons, concat_cons, insert_all_app. cbn [foldl]. rewrite IH.
  rewrite (Register_fold (file_message_type f)); [done|].
  apply Forall_true. intros m' proto perl types. apply Register_spec.
Qed.

Lemma insert_all_fresh l k : ∀ m, k ∉ l.*1 → insert_all l m !! k = m !! k.
Proof.
  induction l as [|[k' v'] l IH]; intros m Hk; [done|].
  apply not_elem_of_cons in Hk as [Hk Hl]. cbn [insert_all foldl fst snd] in *.
  change (insert_all l (<[k' := v']> m) !! k = m !! k).
  by rewrite IH, lookup_insert_ne by done.
Qed.

Lemma insert_all_lookup l k v : ∀ m, NoDup l.*1 → (k, v) ∈ l → insert_all l m !! k = Some v.
Proof.
  induction l as [|[k' v'] l IH]; intros m; [by intros _ ?%not_elem_of_nil|].
  rewrite fmap_cons, NoDup_cons. intros [Hk' Hnd] Hin.
  change (insert_all l (<[k' := v']> m) !! k = Some v).
  apply elem_of_cons in Hin as [[= -> ->]|Hin]; [|by apply IH].
  rewrite insert_all_fresh by done. by apply lookup_insert_eq.
Qed.

Lemma BuildPackageMap_lookup files f :
  NoDup (file_proto_name <$> files) → f ∈ files →
  BuildPackageMap files !! file_proto_name f = Some (GetPerlPackage f).
Proof.
  intros Hnd Hin. unfold BuildPackageMap.
  assert (∀ m, foldl (λ m f, <[file_proto_name f := GetPerlPackage f]> m) m files =
    insert_all ((λ f, (file_proto_name f, GetPerlPackage f)) <$> files) m) as ->.
  { clear. induction files as [|f' files IH]; intros m; [done|]. apply IH. }
  apply insert_all_lookup; [by rewrite <- list_fmap_compose|].
  by apply (list_elem_of_fmap_2 (λ f, (file_proto_name f, GetPerlPackage f))).
Qed.

(** ** The classes of the generator are those of the runtime *)

Definition dotted_name (s : bytes) : Prop :=
  ∃ segments, segments ≠ [] ∧ Forall (segment_ok DOT) segments ∧ s = join_with [DOT] segments.

(** A name the runtime's capitalisation leaves alone. *)
Definition capitalized (w : bytes) : Prop := segment_ok DOT w ∧ capitalize w = w.

Lemma before_dot_none s : has_char DOT s = false → before_dot s = s.
Proof.
  induction s as [|c s IH]; [done|]. unfold has_char in *. cbn [existsb before_dot].
  intros [Hc Hs]%orb_false_iff. rewrite Z.eqb_sym in Hc. by rewrite Hc, IH.
Qed.

Lemma has_char_count s : has_char DOT s = false ↔ count_dots s = 0.
Proof.
  unfold count_dots, has_char. induction s as [|c s IH]; [done|].
  cbn [existsb]. rewrite orb_false_iff, filter_cons, Z.eqb_neq.
  destruct (decide (c = DOT)) as [->|Hc]; simpl; [split; [tauto|lia]|]. rewrite IH.
  intuition congruence.
Qed.

(** With at most one dot, the first is the last. *)
Lemma before_last_dot_eq s : count_dots s ≤ 1 → before_last_dot s = before_dot s.
Proof.
  induction s as [|c s IH]; [done|]. intros Hc. cbn [before_last_dot before_dot].
  destruct (has_char DOT s) eqn:Es.
  - assert (count_dots s ≠ 0) by (intros H%has_char_count; congruence).
    unfold count_dots in *. rewrite filter_cons in Hc.
    destruct (Z.eqb_spec c DOT) as [->|Hn].
    + rewrite decide_True in Hc by done. simpl in Hc. lia.
    + rewrite decide_False in Hc by done. cbn [andb negb]. unfold has_char in *. cbn [existsb].
      rewrite Es, orb_true_r. cbn [negb]. rewrite IH; [done|]. simpl in Hc. lia.
  - destruct (Z.eqb_spec c DOT) as [->|Hn]; [done|]. cbn [andb].
    assert (has_char DOT (c :: s) = false) as ->.
    { unfold has_char in *. cbn [existsb]. rewrite Es, orb_false_r.
      by apply Z.eqb_neq. }
    cbn [negb]. by rewrite before_dot_none.
Qed.

Lemma capitalize_path_ret s : s ≠ [] → capitalize_path s = Ret (Some (capitalize_loop None s)).
Proof.
  intros Hs. destruct (capitalize_path_safe s) as [r Hr]. unfold capitalize_path, into_buffer in *.
  destruct s as [|c s]; [done|]. by case_match.
Qed.

Lemma stash_class_text m pkg msg :
  capitalize_path (package m) = Ret (Some pkg) → capitalize_path (rel_name m) = Ret (Some msg) →
  stash_class m = Ret (pkg ++ str "::" ++
    ToCamelCase (before_dot (after_last_slash (file_name m))) ++ str "::" ++ msg).
Proof.
  intros Hp Hm. destruct (stash_class_safe m) as [class Hc]. rewrite Hc.
  unfold stash_class in Hc. rewrite file_module_camel_case, bind_Ret, Hp, bind_Ret, Hm, bind_Ret in Hc.
  rewrite ToCamelCase_split. unfold into_buffer in Hc. case_match; [|done]. by injection Hc as <-.
Qed.

Lemma is_prefix_app p s : is_prefix p (p ++ s) = true.
Proof. induction p as [|c p IH]; simpl; [done|]. by rewrite Z.eqb_refl, IH. Qed.

Lemma join_head c l : l ≠ [] → Forall (segment_ok c) l →
  ∃ d s, join_with [c] l = d :: s ∧ d ≠ c.
Proof.
  intros Hne Hl. destruct l as [|[|d w] l]; [done|by inversion Hl as [|?? [??]]|].
  apply Forall_cons in Hl as [[_ [? _]%not_elem_of_cons] _].
  destruct l; simpl; eauto.
Qed.

Lemma rel_name_path f path :
  dotted_name (file_package f) → path ≠ [] →
  rel_name (runtime_names f path) = join_with [DOT] path.
Proof.
  intros (segs & Hne & Hl & Hp) Hpath. unfold rel_name, runtime_names, upb_full_name.
  cbn [full_name package].
  destruct (join_head DOT segs Hne Hl) as (d & s & E & Hd). rewrite Hp, E. cbn [length].
  rewrite join_cons. destruct path as [|n path]; [done|]. cbn [map concat].
  change ((d :: s) ++ ?x) with (d :: s ++ x). cbn [drop_dot].
  rewrite (proj2 (Z.eqb_neq d DOT)) by done. change (d :: s ++ ?x) with ((d :: s) ++ x). rewrite is_prefix_app.
  destruct (Z.ltb_spec 0 (Z.of_nat (S (length s)))); [|lia]. cbn [andb].
  change (S (length s)) with (length (d :: s)). rewrite drop_app_length.
  cbn [drop_dot app]. by rewrite Z.eqb_refl, join_cons.
Qed.

Lemma capitalized_join path :
  Forall capitalized path → capitalize_loop None (join_with [DOT] path) = join_with (str "::") path.
Proof.
  intros Hp. rewrite capitalize_loop_join; [|done|apply (Forall_impl _ _ _ Hp); by intros ? [? _]].
  f_equal. induction Hp as [|w path [_ Hw] _ IH]; [done|]. by rewrite fmap_cons, Hw, IH.
Qed.

(** The types of a request, as [file_types] registers them. *)
Definition request_types (files : list FileProto) : list (bytes * bytes) :=
  concat (map (file_types (BuildPackageMap files)) files).

Lemma ResolvePerlClass_registered files gen f path :
  NoDup (file_proto_name <$> files) → NoDup (request_types files).*1 →
  f ∈ files → path ∈ file_paths f →
  ResolvePerlClass (new_generator files gen)
      (prefixed (str ".") (str "." ++ file_package f) path) =
    prefixed (str "::") (GetPerlPackage f) path.
Proof.
  intros Hn Ht Hf Hpath. unfold ResolvePerlClass, new_generator. cbn [type_to_perl_class].
  rewrite BuildTypeMap_spec. erewrite insert_all_lookup; [done|done|].
  apply list_elem_of_In, in_concat. exists (file_types (BuildPackageMap files) f).
  split; [by apply in_map, list_elem_of_In|]. apply list_elem_of_In.
  unfold file_types. rewrite (BuildPackageMap_lookup files f) by done.
  by apply (list_elem_of_fmap_2 (λ path, (prefixed (str ".") (str "." ++ file_package f) path,
    prefixed (str "::") (GetPerlPackage f) path))).
Qed.

Lemma class_agreement files gen f path :
  NoDup (file_proto_name <$> files) → NoDup (request_types files).*1 →
  f ∈ files → path ∈ file_paths f →
  dotted_name (file_package f) →
  count_dots (after_last_slash (file_proto_name f)) ≤ 1 →
  path ≠ [] → Forall capitalized path →
  stash_class (runtime_names f path) =
    Ret (ResolvePerlClass (new_generator files gen) (DOT :: upb_full_name f path)).
Proof.
  intros Hn Ht Hf Hpath Hpkg Hdots Hne Hcap.
  assert (DOT :: upb_full_name f path = prefixed (str ".") (str "." ++ file_package f) path) as ->.
  { unfold upb_full_name, prefixed. destruct Hpkg as (segs & Hs & Hl & E).
    destruct (join_head DOT segs Hs Hl) as (d & s & E' & _). rewrite E, E', join_cons. done. }
  rewrite (ResolvePerlClass_registered files gen f path) by done.
  pose proof (rel_name_path f path Hpkg Hne) as Hrel.
  destruct Hpkg as (segs & Hs & Hl & E). destruct path as [|n path]; [done|].
  assert (file_package f ≠ []).
  { destruct (join_head DOT segs Hs Hl) as (d & s & E' & _). by rewrite E, E'. }
  rewrite (stash_class_text _ (join_with (str "::") (capitalize <$> segs))
    (join_with (str "::") (n :: path))).
  - f_equal. unfold prefixed, GetPerlPackage. cbn [runtime_names file_name].
    rewrite before_last_dot_eq by done. rewrite E, CapitalizePackage_join by done.
    rewrite join_cons. destruct segs as [|[|c w] segs]; [done|by inversion Hl as [|?? [? _]]|].
    rewrite fmap_cons, !join_cons. cbn [capitalize app map concat].
    change (upcase c :: ?x) with ([upcase c] ++ x). by rewrite <- !app_assoc.
  - cbn [runtime_names package]. rewrite capitalize_path_ret by done.
    by rewrite E, capitalize_loop_join.
  - rewrite Hrel, capitalize_path_ret; [by rewrite capitalized_join|].
    apply Forall_cons in Hcap as [[[? ?] _] _]. destruct n; [done|]. by destruct path.
Qed.

(** C11: generated code and runtime agree on classes.  For every message, nested ones
    included, of a request whose file and type names are distinct: if its file has a
    package of non-empty segments, the file's base name has at most one dot, and the
    message names on its path are capitalised, then the class [ResolvePerlClass]
    writes into generated code for the type's full name is the class whose stash
    [PerlUpb_GetMessageStash] blesses messages of that type into. *)
Theorem generated_classes_are_runtime_classes files gen f path :
  NoDup (file_proto_name <$> files) → NoDup (request_types files).*1 →
  f ∈ files → path ∈ file_paths f →
  dotted_name (file_package f) →
  count_dots (after_last_slash (file_proto_name f)) ≤ 1 →
  path ≠ [] → Forall capitalized path →
  stash_class (runtime_names f path) =
    Ret (ResolvePerlClass (new_generator files gen) (DOT :: upb_full_name f path)).
Proof. apply class_agreement. Qed.

Definition leaf (n : bytes) (nested : list MessageProto) : MessageProto :=
  {| message_name := n; message_field := []; message_enum_type := []; message_nested_type := nested |}.

Definition vision_file : FileProto :=
  {| file_proto_name := str "google/cloud/image_annotator.proto"; file_package := str "google.vision";
     file_dependency := []; file_message_type := [leaf (str "Request") [leaf (str "Feature") []]];
     file_enum_type := []; file_service := [] |}.

Lemma generated_classes_are_runtime_classes_witness :
  stash_class (runtime_names vision_file [str "Request"; str "Feature"]) =
    Ret (ResolvePerlClass (new_generator [vision_file] [])
      (DOT :: upb_full_name vision_file [str "Request"; str "Feature"])) ∧
  stash_class (runtime_names vision_file [str "Request"; str "Feature"]) =
    Ret (str "Google::Vision::ImageAnnotator::Request::Feature").
Proof.
  split; [|by vm_compute].
  apply (generated_classes_are_runtime_classes [vision_file] [] vision_file);
    [by_compute|by_compute|by left|by_compute| |by_compute|done|].
  - exists [str "google"; str "vision"].
    split_and!; [done| |by vm_compute]. repeat constructor; by_compute.
  - repeat constructor; by_compute.
Defined.

(** *** Where they part *)

Lemma count_dots_app s t : count_dots (s ++ t) = count_dots s + count_dots t.
Proof. unfold count_dots. rewrite filter_app, length_app. lia. Qed.

Lemma count_dots_nonneg s : 0 ≤ count_dots s.
Proof. unfold count_dots. lia. Qed.

Lemma message_paths_nonempty m path : path ∈ message_paths m → path ≠ [].
Proof.
  destruct m as [n fs es ms]. cbn [message_paths].
  intros [->|(p & -> & _)%list_elem_of_fmap]%elem_of_cons; done.
Qed.

Lemma request_types_dots files k v : (k, v) ∈ request_types files → 2 ≤ count_dots k.
Proof.
  intros (ts & Hts & Hin)%list_elem_of_In%in_concat.
  apply in_map_iff in Hts as (f & <- & _). apply list_elem_of_In in Hin.
  apply list_elem_of_fmap in Hin as (path & E & Hp).
  apply (f_equal fst) in E. cbn [fst] in E. subst k.
  apply list_elem_of_In, in_concat in Hp as (ps & Hps & Hp).
  apply in_map_iff in Hps as (m & <- & _).
  apply list_elem_of_In, message_paths_nonempty in Hp. destruct path as [|n path]; [done|].
  unfold prefixed. change (str ".") with [DOT].
  rewrite fmap_cons, concat_cons, !count_dots_app.
  change (count_dots [DOT]) with 1.
  pose proof (count_dots_nonneg (file_package f)). pose proof (count_dots_nonneg n).
  pose proof (count_dots_nonneg (concat (app [DOT] <$> path))). lia.
Qed.

(** A type of a file without a package is never found in the generator's table: its
    keys have two dots at least, [..Foo] for [.Foo]. *)
Lemma unpackaged_types_unresolved files gen n :
  count_dots n = 0 →
  ResolvePerlClass (new_generator files gen) (DOT :: n) = CapitalizePackage n.
Proof.
  intros Hn. unfold ResolvePerlClass, new_generator. cbn [type_to_perl_class].
  rewrite BuildTypeMap_spec.
  destruct (decide (DOT :: n ∈ (request_types files).*1)) as [Hin|Hout].
  - apply list_elem_of_fmap in Hin as ([k v] & E & Hkv%request_types_dots). simpl in E. subst k.
    change (DOT :: n) with ([DOT] ++ n) in Hkv. rewrite count_dots_app, Hn in Hkv.
    change (count_dots [DOT]) with 1 in Hkv. lia.
  - fold (request_types files). rewrite insert_all_fresh by done. rewrite lookup_empty.
    done.
Qed.

Definition plain_file : FileProto :=
  {| file_proto_name := str "addressbook.proto"; file_package := []; file_dependency := [];
     file_message_type := [leaf (str "Person") []]; file_enum_type := []; file_service := [] |}.

Example unpackaged_class_differs :
  ResolvePerlClass (new_generator [plain_file] []) (str ".Person") = str "Person" ∧
  stash_class (runtime_names plain_file [str "Person"]) = Ret (str "Addressbook::Person").
Proof. split; by vm_compute. Qed.

(** A second dot in the file name: the runtime stops at the first, the generator at
    the last, leaving a dot in the name of the Perl package. *)
Example second_dot_differs :
  let f := {| file_proto_name := str "api.v1.proto"; file_package := str "p"; file_dependency := [];
              file_message_type := [leaf (str "M") []]; file_enum_type := []; file_service := [] |} in
  GetPerlPackage f = str "P::Api.v1" ∧
  stash_class (runtime_names f [str "M"]) = Ret (str "P::Api::M").
Proof. split; by vm_compute. Qed.

(** A message name that starts with a lower-case letter is capitalised by the runtime only. *)
Example lower_case_differs :
  let f := {| file_proto_name := str "f.proto"; file_package := str "p"; file_dependency := [];
              file_message_type := [leaf (str "m") []]; file_enum_type := []; file_service := [] |} in
  ResolvePerlClass (new_generator [f] []) (str ".p.m") = str "P::F::m" ∧
  stash_class (runtime_names f [str "m"]) = Ret (str "P::F::M").
Proof. split; by vm_compute. Qed.
