(* ===== verification/ProtocModule.v ===== *)
(** * The generated modules (protoc/generator.cc)

    The printers of the protoc plugin: the Perl module of a file with its embedded
    descriptor, its types library, and the response with their paths. *)

From S2P Require Import Prelude Names PerlNumbers ProtocNames.

(** ** Text *)

(** A C string literal: backslash-n is a newline. *)
Definition NL : Z := 10.
Fixpoint unescape (s : bytes) : bytes :=
  match s with
  | 92 :: 110 :: s => NL :: unescape s
  | c :: s => c :: unescape s
  | [] => []
  end.
Definition lit (s : string) : bytes := unescape (str s).

(** [for (...) ss << f(x)]. *)
Definition for_each {A} (l : list A) (f : A → bytes) : bytes := concat (map f l).

Definition FieldTypeToString (type : Z) : bytes :=
  str match type with
      | 1 => "Double" | 2 => "Float" | 3 => "Int64" | 4 => "UInt64" | 5 => "Int32"
      | 6 => "Fixed64" | 7 => "Fixed32" | 8 => "Bool" | 9 => "String" | 10 => "Group"
      | 11 => "Message" | 12 => "Bytes" | 13 => "UInt32" | 14 => "Enum" | 15 => "SFixed32"
      | 16 => "SFixed64" | 17 => "SInt32" | 18 => "SInt64" | _ => "Unknown"
      end.

(** ** The embedded descriptor *)

Definition b64_table : bytes :=
  str "ABCDEFGHIJKLMNOPQRSTUVWXYZabcdefghijklmnopqrstuvwxyz0123456789+/".
Definition b64_char (i : Z) : Z := nth (Z.to_nat i) b64_table 0.
Definition PAD : Z := 61.

(** One turn of the loop: the bytes [buf[i]], and [buf[i + 1]], [buf[i + 2]] if there. *)
Definition b64_group (x : Z) (y z : option Z) : bytes :=
  let val := Z.shiftl x 16 in
  let val := match y with Some y => Z.lor val (Z.shiftl y 8) | None => val end in
  let val := match z with Some z => Z.lor val z | None => val end in
  [b64_char (Z.land (Z.shiftr val 18) 63);
   b64_char (Z.land (Z.shiftr val 12) 63);
   match y with Some _ => b64_char (Z.land (Z.shiftr val 6) 63) | None => PAD end;
   match z with Some _ => b64_char (Z.land val 63) | None => PAD end].

(** [for (size_t i = 0; i < size; i += 3)]; [k] is [i / 3]. *)
Fixpoint b64_loop (k : Z) (buf : bytes) : bytes :=
  let newline := if (k + 1) mod 18 =? 0 then [NL] else [] in
  match buf with
  | [] => []
  | [x] => b64_group x None None ++ newline
  | [x; y] => b64_group x (Some y) None ++ newline
  | x :: y :: z :: buf => b64_group x (Some y) (Some z) ++ newline ++ b64_loop (k + 1) buf
  end.

(** ** The main module *)

Section Module.
(** [upb]'s encoder applied to a file descriptor ([..._serialize]). *)
Context (serialize : FileProto → bytes).

Definition PROTOBUF_PERL_VERSION : bytes := str "0.05".

Definition module_head (package_name : bytes) : bytes :=
  lit "package " ++ package_name ++ lit ";\n\n" ++
  lit "use strict;\n" ++
  lit "use warnings;\n\n" ++
  lit "our $VERSION = '" ++ PROTOBUF_PERL_VERSION ++ lit "';\n\n" ++
  lit "use Protobuf::Message;\n" ++
  lit "use Protobuf::DescriptorPool;\n" ++
  lit "use Protobuf::Internal qw(:all);\n" ++
  lit "use MIME::Base64;\n\n" ++
  lit "BEGIN {\n".

Definition dependency_requires (pkgs : gmap bytes bytes) (deps : list bytes) : bytes :=
  for_each deps (λ dep,
    match pkgs !! dep with
    | Some pkg => lit "    eval { require " ++ pkg ++ lit " };\n"
    | None => []
    end).

Definition heredoc_open : bytes := lit "    my $descriptor_b64 = <<'EOF';\n".

Definition register_call : bytes :=
  lit "    Protobuf::DescriptorPool->generated_pool->add_serialized_file(MIME::Base64::decode_base64($descriptor_b64));\n".

Definition descriptor_block (f : FileProto) : bytes :=
  b64_loop 0 (serialize f) ++
  lit "\nEOF\n" ++
  register_call ++
  lit "}\n\n".

Definition field_comments (m : MessageProto) : bytes :=
  lit "    # Fields for " ++ message_name m ++ lit "\n" ++
  for_each (message_field m) (λ f,
    lit "    # Field: " ++ field_name f ++ lit " Type: " ++ decimal (field_type f) ++
    lit " (" ++ field_type_name f ++ lit ")\n") ++
  lit "\n".

Definition message_pod (package_name : bytes) (m : MessageProto) : bytes :=
  let name := package_name ++ lit "::" ++ message_name m in
  lit "=pod\n\n" ++
  lit "=head1 NAME\n\n" ++
  name ++ lit " - Compiled Protocol Buffers message class\n\n" ++
  lit "=head1 SYNOPSIS\n\n" ++
  lit "    use " ++ package_name ++ lit ";\n\n" ++
  lit "    my $msg = " ++ name ++ lit "->new(\n" ++
  match message_field m with
  | f :: _ => lit "        " ++ field_name f ++ lit " => $value,\n"
  | [] => []
  end ++
  lit "    );\n\n" ++
  lit "=head1 FIELDS\n\n" ++
  lit "=over 4\n\n" ++
  for_each (message_field m) (λ f,
    lit "=item * B<" ++ field_name f ++ lit ">\n\n" ++
    lit "Type: " ++ FieldTypeToString (field_type f) ++
    match field_type_name f with [] => [] | t => lit " (" ++ t ++ lit ")" end ++
    lit "\n\n") ++
  lit "=back\n\n" ++
  lit "=cut\n\n".

Definition enum_block (msg_name : bytes) (e : EnumProto) : bytes :=
  lit "# Enum: " ++ msg_name ++ lit "::" ++ enum_name e ++ lit "\n" ++
  for_each (enum_value e) (λ ev,
    lit "our $" ++ msg_name ++ lit "_" ++ value_name ev ++ lit " = " ++
    decimal (value_number ev) ++ lit ";\n") ++
  lit "\n" ++
  lit "=pod\n\n" ++
  lit "=head2 Enum: " ++ msg_name ++ lit "::" ++ enum_name e ++ lit "\n\n" ++
  lit "Values:\n\n" ++
  lit "=over 4\n\n" ++
  for_each (enum_value e) (λ ev,
    lit "=item * C<" ++ value_name ev ++ lit "> => " ++ decimal (value_number ev) ++ lit "\n\n") ++
  lit "=back\n\n" ++
  lit "=cut\n\n".

Definition message_block (package_name : bytes) (m : MessageProto) : bytes :=
  lit "# === Message: " ++ package_name ++ lit "::" ++ message_name m ++ lit " ===\n" ++
  field_comments m ++
  message_pod package_name m ++
  for_each (message_enum_type m) (enum_block (message_name m)).

Definition service_pod (package_name srv_name default_host : bytes) : bytes :=
  lit "=pod\n\n" ++
  lit "=head1 NAME\n\n" ++
  package_name ++ lit "::" ++ srv_name ++
  lit "Client - Client stub representing the remote " ++ srv_name ++ lit " service\n\n" ++
  lit "=head1 DESCRIPTION\n\n" ++
  lit "This class acts as a local client stub for the remote gRPC service.\n" ++
  lit "It delegates call dispatching to an underlying L<Google::gRPC::Client>\n" ++
  lit "instance, ensuring type-safe request parsing and response mapping.\n\n" ++
  lit "=head1 CONFIGURATION AND ENVIRONMENT\n\n" ++
  lit "=head2 target\n\n" ++
  lit "The endpoint target address. Defaults to C<" ++ default_host ++ lit ">.\n\n" ++
  lit "=head2 credentials\n\n" ++
  lit "The authentication credentials provider. Defaults to application default credentials via L<Google::Auth>.\n\n" ++
  lit "=cut\n\n".

Definition client_attributes (default_host : bytes) : bytes :=
  lit "use Moo;\n" ++
  lit "use Google::Auth;\n" ++
  lit "use Google::gRPC::Client;\n\n" ++
  lit "has credentials => ( is => 'ro', default => sub { Google::Auth->default() } );\n" ++
  lit "has target      => ( is => 'ro', default => '" ++ default_host ++ lit "' );\n\n" ++
  lit "has _grpc_client => (\n" ++
  lit "    is => 'ro',\n" ++
  lit "    lazy => 1,\n" ++
  lit "    builder => sub {\n" ++
  lit "        my $self = shift;\n" ++
  lit "        return Google::gRPC::Client->new(\n" ++
  lit "            target     => $self->target,\n" ++
  lit "            auth_token => $self->credentials->get_token(),\n" ++
  lit "        );\n" ++
  lit "    }\n" ++
  lit ");\n\n".

Definition client_method (g : PerlCodeGenerator) (proto_pkg srv_name : bytes) (m : MethodProto)
  : bytes :=
  let req_class := ResolvePerlClass g (input_type m) in
  let res_class := ResolvePerlClass g (output_type m) in
  lit "sub " ++ ToSnakeCase (method_name m) ++ lit " {\n" ++
  lit "    my ($self, $args) = @_;\n" ++
  lit "    my $req = ref($args) eq 'HASH'\n" ++
  lit "        ? " ++ req_class ++ lit "->new($args)\n" ++
  lit "        : $args;\n" ++
  lit "    return $self->_grpc_client->call({\n" ++
  lit "        service        => '" ++ proto_pkg ++ lit "." ++ srv_name ++ lit "',\n" ++
  lit "        method         => '" ++ method_name m ++ lit "',\n" ++
  lit "        request        => $req,\n" ++
  lit "        response_class => '" ++ res_class ++ lit "',\n" ++
  lit "    });\n" ++
  lit "}\n\n".

Definition service_block (g : PerlCodeGenerator) (proto_pkg : bytes) (srv : ServiceProto) : bytes :=
  let default_host := GetDefaultHost proto_pkg in
  let srv_name := service_name srv in
  lit "# === Service Client: " ++ package_name g ++ lit "::" ++ srv_name ++ lit "Client ===\n" ++
  lit "package " ++ package_name g ++ lit "::" ++ srv_name ++ lit "Client;\n\n" ++
  service_pod (package_name g) srv_name default_host ++
  client_attributes default_host ++
  for_each (service_method srv) (client_method g proto_pkg srv_name).

Definition GenerateModule (g : PerlCodeGenerator) (f : FileProto) : bytes :=
  module_head (package_name g) ++
  dependency_requires (file_to_package g) (file_dependency f) ++
  heredoc_open ++
  descriptor_block f ++
  lit "# Message definitions\n\n" ++
  for_each (file_message_type f) (message_block (package_name g)) ++
  for_each (file_service f) (service_block g (file_package f)) ++
  lit "1;\n".

(** ** The types library *)

Definition PrintMessageTypes (m : MessageProto) (current_package : bytes) : bytes :=
  let msg_name := message_name m in
  let full_perl_class := current_package ++ lit "::" ++ msg_name in
  lit "declare '" ++ msg_name ++ lit "',\n" ++
  lit "    as InstanceOf['" ++ full_perl_class ++ lit "'];\n\n" ++
  lit "coerce '" ++ msg_name ++ lit "',\n" ++
  lit "    from HashRef, via { '" ++ full_perl_class ++ lit "'->new($_) };\n\n" ++
  lit "declare 'Repeated" ++ msg_name ++ lit "',\n" ++
  lit "    as ArrayRef[" ++ msg_name ++ lit "()];\n\n" ++
  lit "coerce 'Repeated" ++ msg_name ++ lit "',\n" ++
  lit "    from ArrayRef[HashRef], via { [ map { '" ++ full_perl_class ++
  lit "'->new($_) } @$_ ] };\n\n" ++
  lit "declare 'MapString" ++ msg_name ++ lit "',\n" ++
  lit "    as HashRef[" ++ msg_name ++ lit "()];\n\n".

Definition PrintEnumTypes (e : EnumProto) (current_package : bytes) : bytes :=
  lit "declare '" ++ enum_name e ++ lit "',\n" ++
  lit "    as (Int | Str);\n\n".

Fixpoint PrintTypesRecursively (current_package : bytes) (m : MessageProto) : bytes :=
  let full_msg_name := current_package ++ lit "::" ++ message_name m in
  PrintMessageTypes m current_package ++
  for_each (message_enum_type m) (λ e, PrintEnumTypes e full_msg_name) ++
  for_each (message_nested_type m) (PrintTypesRecursively full_msg_name).

Definition GenerateTypes (g : PerlCodeGenerator) (f : FileProto) : bytes :=
  lit "package " ++ package_name g ++ lit "::Types;\n\n" ++
  lit "use strict;\n" ++
  lit "use warnings;\n\n" ++
  lit "use Type::Library -base;\n" ++
  lit "use Type::Utils -all;\n" ++
  lit "use Types::Standard -types;\n\n" ++
  for_each (file_enum_type f) (λ e, PrintEnumTypes e (package_name g)) ++
  for_each (file_message_type f) (PrintTypesRecursively (package_name g)) ++
  lit "1;\n".

(** ** The response *)

(** [p.find("//")]. *)
Fixpoint find_slashes (p : bytes) : option nat :=
  match p with
  | [] => None
  | c :: p' =>
      match p' with
      | d :: _ => if (c =? SLASH) && (d =? SLASH) then Some 0%nat else S <$> find_slashes p'
      | [] => None
      end
  end.

(** [while ((double_slash = p.find("//")) != npos)]; [None] out of fuel. *)
Fixpoint collapse (fuel : nat) (p : bytes) : option bytes :=
  match find_slashes p with
  | None => Some p
  | Some i =>
      match fuel with
      | O => None
      | S fuel => collapse fuel (take i p ++ [SLASH] ++ drop (i + 2) p)
      end
  end.

Definition slashes (p : bytes) : bytes := map (λ c, if c =? COLON then SLASH else c) p.

Definition module_path (package_name : bytes) : option bytes :=
  collapse (length package_name) (slashes package_name).

Record CodeGeneratorResponse := {
  supported_features : Z;
  minimum_edition : Z;
  maximum_edition : Z;
  response_file : list (bytes * bytes) }.

Definition FEATURE_PROTO3_OPTIONAL : Z := 1.
Definition FEATURE_SUPPORTS_EDITIONS : Z := 2.

Definition set_package_name (g : PerlCodeGenerator) (p : bytes) : PerlCodeGenerator :=
  {| request_files := request_files g; file_to_generate := file_to_generate g;
     file_to_package := file_to_package g; type_to_perl_class := type_to_perl_class g;
     package_name := p |}.

(** One turn of the loop over [file_to_generate]: [package_name_] is a member and
    keeps its last value. *)
Definition generate_file (g : PerlCodeGenerator) (name : bytes)
  : option (PerlCodeGenerator * list (bytes * bytes)) :=
  match List.find (λ f, bool_decide (file_proto_name f = name)) (request_files g) with
  | None => Some (g, [])
  | Some f =>
      let g := match file_to_package g !! name with
               | Some p => set_package_name g p
               | None => g
               end in
      let module_content := GenerateModule g f in
      p ← module_path (package_name g);
      let types_content := GenerateTypes g f in
      Some (g, [(p ++ str ".pm", module_content); (p ++ str "/Types.pm", types_content)])
  end.

Fixpoint generate_files (g : PerlCodeGenerator) (names : list bytes)
  : option (list (bytes * bytes)) :=
  match names with
  | [] => Some []
  | name :: names =>
      r ← generate_file g name;
      rest ← generate_files r.1 names;
      Some (r.2 ++ rest)
  end.

(** [Generate]; [None] only if a loop did not end. *)
Definition Generate (g : PerlCodeGenerator) : option CodeGeneratorResponse :=
  files ← generate_files g (file_to_generate g);
  Some {| supported_features := Z.lor FEATURE_PROTO3_OPTIONAL FEATURE_SUPPORTS_EDITIONS;
          minimum_edition := 1000; maximum_edition := 1001; response_file := files |}.
End Module.

(** ** Reading the descriptor back

    A reference reader: a here-document is what precedes the first line [EOF]; base64
    (RFC 4648) without its newlines. *)

Definition EOF_line : bytes := str "EOF".

Fixpoint read_heredoc (line s : bytes) : option (bytes * bytes) :=
  match s with
  | [] => None
  | c :: s =>
      if c =? NL then
        if bool_decide (line = EOF_line) then Some ([], s)
        else r ← read_heredoc [] s; Some (line ++ NL :: r.1, r.2)
      else read_heredoc (line ++ [c]) s
  end.

Fixpoint index_of (c : Z) (l : bytes) (i : Z) : option Z :=
  match l with
  | [] => None
  | d :: l => if c =? d then Some i else index_of c l (i + 1)
  end.
Definition sextet (c : Z) : option Z := index_of c b64_table 0.

Fixpoint decode_groups (s : bytes) : option bytes :=
  match s with
  | [] => Some []
  | c1 :: c2 :: c3 :: c4 :: s =>
      i ← sextet c1;
      j ← sextet c2;
      let b1 := i * 4 + j / 16 in
      if c3 =? PAD then (if (c4 =? PAD) && (length s =? 0)%nat then Some [b1] else None)
      else
        k ← sextet c3;
        let b2 := j mod 16 * 16 + k / 4 in
        if c4 =? PAD then (if (length s =? 0)%nat then Some [b1; b2] else None)
        else
          l ← sextet c4;
          rest ← decode_groups s;
          Some (b1 :: b2 :: (k mod 4 * 64 + l) :: rest)
  | _ => None
  end.

Definition decode_base64 (s : bytes) : option bytes :=
  decode_groups (filter (λ c, c ≠ NL) s).

Lemma sextet_char i : 0 ≤ i < 64 → sextet (b64_char i) = Some i ∧ b64_char i ≠ PAD ∧ b64_char i ≠ NL.
Proof.
  intros Hi. assert (∀ n : nat, (n < 64)%nat →
    bool_decide (sextet (b64_char (Z.of_nat n)) = Some (Z.of_nat n) ∧
      b64_char (Z.of_nat n) ≠ PAD ∧ b64_char (Z.of_nat n) ≠ NL) = true) as H.
  { intros n Hn. do 64 (destruct n as [|n]; [vm_compute; reflexivity|]). lia. }
  specialize (H (Z.to_nat i) ltac:(lia)). rewrite Z2Nat.id in H by lia.
  by apply bool_decide_eq_true in H.
Qed.

(** The value of a group is a sum, its sextets quotients. *)
Lemma group_value x y z :
  byte_ok x → byte_ok y → byte_ok z →
  Z.lor (Z.lor (Z.shiftl x 16) (Z.shiftl y 8)) z = x * 2 ^ 16 + y * 2 ^ 8 + z.
Proof.
  unfold byte_ok. intros Hx Hy Hz.
  assert (Z.lor (Z.shiftl x 16) (Z.shiftl y 8) = Z.shiftl (x * 2 ^ 8 + y) 8) as ->.
  { replace (Z.shiftl x 16) with (Z.shiftl (Z.shiftl x 8) 8) by (by rewrite Z.shiftl_shiftl).
    rewrite <- Z.shiftl_lor. f_equal. rewrite Z.lor_comm, lor_shiftl_add; lia. }
  rewrite Z.lor_comm, lor_shiftl_add; lia.
Qed.

Definition sextet_at (val s : Z) : Z := Z.land (Z.shiftr val s) 63.

Lemma sextet_at_div val s : 0 ≤ s → sextet_at val s = val / 2 ^ s mod 64.
Proof.
  intros. unfold sextet_at. rewrite Z.shiftr_div_pow2 by done. apply (Z.land_ones _ 6). lia.
Qed.

Lemma b64_group_eq x y z : byte_ok x → byte_ok (default 0 y) → byte_ok (default 0 z) →
  (y = None → z = None) →
  let val := x * 2 ^ 16 + default 0 y * 2 ^ 8 + default 0 z in
  b64_group x y z =
    [b64_char (val / 2 ^ 18 mod 64); b64_char (val / 2 ^ 12 mod 64);
     match y with Some _ => b64_char (val / 2 ^ 6 mod 64) | None => PAD end;
     match z with Some _ => b64_char (val mod 64) | None => PAD end].
Proof.
  intros Hx Hy Hz Hyz. cbv zeta. rewrite <- group_value by done.
  unfold b64_group. rewrite <- !(sextet_at_div _) by lia.
  assert (∀ v, v mod 64 = Z.land v 63) as Hm by (intros v; symmetry; by apply (Z.land_ones v 6)).
  destruct y as [y|], z as [z|]; cbn [default]; rewrite ?Z.shiftl_0_l, ?Z.lor_0_r, ?Hm; try done; by specialize (Hyz eq_refl).
Qed.

Lemma bytes_of_sextets x y z : byte_ok x → byte_ok y → byte_ok z →
  let val := x * 2 ^ 16 + y * 2 ^ 8 + z in
  val / 2 ^ 18 mod 64 * 4 + val / 2 ^ 12 mod 64 / 16 = x ∧
  val / 2 ^ 12 mod 64 mod 16 * 16 + val / 2 ^ 6 mod 64 / 4 = y ∧
  val / 2 ^ 6 mod 64 mod 4 * 64 + val mod 64 = z.
Proof.
  unfold byte_ok. intros Hx Hy Hz. cbv zeta.
  change (2 ^ 18) with 262144. change (2 ^ 16) with 65536. change (2 ^ 12) with 4096.
  change (2 ^ 8) with 256. change (2 ^ 6) with 64.
  split_and!; Z.to_euclidean_division_equations; lia.
Qed.

Ltac sextets :=
  repeat match goal with
  | |- context [sextet (b64_char ?i)] =>
      rewrite (proj1 (sextet_char i ltac:(apply Z.mod_pos_bound; lia)))
  | |- context [b64_char ?i =? PAD] =>
      rewrite (proj2 (Z.eqb_neq (b64_char i) PAD))
        by (apply sextet_char; apply Z.mod_pos_bound; lia)
  end.

Lemma decode_group3 x y z s : byte_ok x → byte_ok y → byte_ok z →
  decode_groups (b64_group x (Some y) (Some z) ++ s) = r ← decode_groups s; Some (x :: y :: z :: r).
Proof.
  intros Hx Hy Hz. rewrite b64_group_eq by done. cbn [default app decode_groups].
  unfold id. sextets. cbn [mbind option_bind].
  destruct (decode_groups s) as [r|]; [cbn [mbind option_bind]|done].
  by destruct (bytes_of_sextets x y z Hx Hy Hz) as (-> & -> & ->).
Qed.

Lemma decode_group2 x y : byte_ok x → byte_ok y →
  decode_groups (b64_group x (Some y) None) = Some [x; y].
Proof.
  intros Hx Hy. rewrite b64_group_eq by done. cbn [default decode_groups].
  unfold id. sextets. cbn [mbind option_bind]. rewrite Z.eqb_refl. cbn [length Nat.eqb].
  by destruct (bytes_of_sextets x y 0 Hx Hy ltac:(by_compute)) as (-> & -> & _).
Qed.

Lemma decode_group1 x : byte_ok x → decode_groups (b64_group x None None) = Some [x].
Proof.
  intros Hx. rewrite b64_group_eq by done. cbn [default decode_groups].
  unfold id. sextets. cbn [mbind option_bind]. rewrite Z.eqb_refl. cbn [length Nat.eqb andb].
  by destruct (bytes_of_sextets x 0 0 Hx ltac:(by_compute) ltac:(by_compute)) as (-> & _).
Qed.

(** Induction over a buffer as the loop reads it. *)
Lemma threes_ind (P : bytes → Prop) :
  P [] → (∀ x, P [x]) → (∀ x y, P [x; y]) → (∀ x y z s, P s → P (x :: y :: z :: s)) → ∀ s, P s.
Proof.
  intros H0 H1 H2 H3 s. enough (P s ∧ (∀ x, P (x :: s)) ∧ (∀ x y, P (x :: y :: s))) by tauto.
  induction s as [|z s (IH0 & IH1 & IH2)]; [auto|]. split_and!; auto.
Qed.

Lemma group_plain x y z : byte_ok x → byte_ok (default 0 y) → byte_ok (default 0 z) →
  (y = None → z = None) →
  Forall (λ c, c ≠ NL) (b64_group x y z) ∧ length (b64_group x y z) = 4%nat.
Proof.
  intros. rewrite b64_group_eq by done. split; [|done].
  repeat apply Forall_cons_2; [| |destruct y|destruct z|apply Forall_nil_2]; try done;
    apply sextet_char, Z.mod_pos_bound; lia.
Qed.

Definition newline_if (b : bool) : bytes := if b then [NL] else [].

(** The text of the loop is groups of four characters, each with at most a newline
    after it: what holds of every step of that shape holds of the loop. *)
Lemma b64_loop_ind (P : bytes → bytes → Prop) :
  P [] [] →
  (∀ x b, byte_ok x → P [x] (b64_group x None None ++ newline_if b)) →
  (∀ x y b, byte_ok x → byte_ok y → P [x; y] (b64_group x (Some y) None ++ newline_if b)) →
  (∀ x y z b s t, byte_ok x → byte_ok y → byte_ok z → P s t →
    P (x :: y :: z :: s) (b64_group x (Some y) (Some z) ++ newline_if b ++ t)) →
  ∀ s k, bytes_ok s → P s (b64_loop k s).
Proof.
  intros H0 H1 H2 H3 s. induction s as [|x|x y|x y z s IH] using threes_ind; intros k.
  - done.
  - intros [Hx _]%Forall_cons. by apply H1.
  - intros [Hx [Hy _]%Forall_cons]%Forall_cons. by apply H2.
  - intros [Hx [Hy [Hz Hs]%Forall_cons]%Forall_cons]%Forall_cons. by apply H3; auto.
Qed.

Lemma filter_keeps {A} (P : A → Prop) `{∀ x, Decision (P x)} (l : list A) :
  Forall P l → filter P l = l.
Proof.
  induction 1 as [|x l Hx _ IH]; [done|]. by rewrite filter_cons_True, IH.
Qed.

Lemma filter_group_app g b t : Forall (λ c, c ≠ NL) g →
  filter (λ c, c ≠ NL) (g ++ newline_if b ++ t) = g ++ filter (λ c, c ≠ NL) t.
Proof.
  intros Hg. rewrite !filter_app, (filter_keeps _ g) by done.
  by destruct b.
Qed.

Lemma decode_base64_loop s k : bytes_ok s → decode_base64 (b64_loop k s) = Some s.
Proof.
  apply (b64_loop_ind (λ s t, decode_base64 t = Some s)); unfold decode_base64.
  - done.
  - intros x b Hx. rewrite <- (app_nil_r (newline_if b)), filter_group_app.
    + rewrite app_nil_r. by apply decode_group1.
    + by apply group_plain.
  - intros x y b Hx Hy. rewrite <- (app_nil_r (newline_if b)), filter_group_app.
    + rewrite app_nil_r. by apply decode_group2.
    + by apply group_plain.
  - intros x y z b s' t Hx Hy Hz IH. rewrite filter_group_app by (by apply group_plain).
    by rewrite decode_group3, IH.
Qed.

Lemma read_heredoc_plain g line s : Forall (λ c, c ≠ NL) g →
  read_heredoc line (g ++ s) = read_heredoc (line ++ g) s.
Proof.
  revert line. induction g as [|c g IH]; intros line; [by rewrite app_nil_r|].
  intros [Hc Hg]%Forall_cons. cbn [app read_heredoc]. rewrite (proj2 (Z.eqb_neq c NL)) by done.
  by rewrite IH, <- app_assoc.
Qed.

Lemma read_heredoc_newline line s : length line ≠ 3%nat →
  read_heredoc line (NL :: s) = r ← read_heredoc [] s; Some (line ++ NL :: r.1, r.2).
Proof.
  intros Hl. cbn [read_heredoc]. rewrite Z.eqb_refl, bool_decide_eq_false_2; [done|].
  intros ->. by apply Hl.
Qed.

Lemma read_heredoc_group g b s t body :
  Forall (λ c, c ≠ NL) g → length g = 4%nat →
  (∀ line, (length line mod 4)%nat = 0%nat → read_heredoc line s = Some (line ++ body, t)) →
  ∀ line, (length line mod 4)%nat = 0%nat →
    read_heredoc line (g ++ newline_if b ++ s) = Some (line ++ g ++ newline_if b ++ body, t).
Proof.
  intros Hg Hlen Hs line Hl. rewrite read_heredoc_plain by done.
  assert ((length (line ++ g) mod 4)%nat = 0%nat) as Hl'.
  { rewrite length_app, Hlen. change 4%nat with (1 * 4)%nat at 1. by rewrite Nat.Div0.mod_add. }
  destruct b; cbn [newline_if app]; rewrite (app_assoc line); [|by apply Hs].
  rewrite read_heredoc_newline; [by rewrite (Hs [] eq_refl)|]. intros E. by rewrite E in Hl'.
Qed.

Lemma read_heredoc_end line post :
  length line ≠ 3%nat →
  read_heredoc line (lit "\nEOF\n" ++ post) = Some (line ++ [NL], post).
Proof.
  intros Hl. change (lit "\nEOF\n" ++ post) with (NL :: EOF_line ++ NL :: post).
  rewrite read_heredoc_newline by done. rewrite read_heredoc_plain by by_compute.
  cbn [app read_heredoc]. rewrite Z.eqb_refl, bool_decide_eq_true_2 by done. done.
Qed.

Definition whole_groups (line : bytes) : Prop := (length line mod 4)%nat = 0%nat.

Lemma whole_groups_not_EOF line : whole_groups line → length line ≠ 3%nat.
Proof. unfold whole_groups. intros Hl E. by rewrite E in Hl. Qed.

(** [s] reads as [body], up to the terminator, at the start of a line or after groups. *)
Definition reads_as (s body post : bytes) : Prop :=
  ∀ line, whole_groups line → read_heredoc line s = Some (line ++ body, post).

Lemma reads_as_end post : reads_as (lit "\nEOF\n" ++ post) [NL] post.
Proof. intros line Hl. by apply read_heredoc_end, whole_groups_not_EOF. Qed.

(** Lines of whole groups are never [EOF]. *)
Lemma reads_as_loop s k e post body : bytes_ok s → reads_as e body post →
  reads_as (b64_loop k s ++ e) (b64_loop k s ++ body) post.
Proof.
  intros Hs He. revert s k Hs. apply (b64_loop_ind (λ _ t, reads_as (t ++ e) (t ++ body) post)).
  - done.
  - intros x b Hx line Hl. rewrite <- !app_assoc.
    apply read_heredoc_group; [by apply group_plain|done|exact He|done].
  - intros x y b Hx Hy line Hl. rewrite <- !app_assoc.
    apply read_heredoc_group; [by apply group_plain|done|exact He|done].
  - intros x y z b s' t Hx Hy Hz IH line Hl. rewrite <- !app_assoc.
    apply read_heredoc_group; [by apply group_plain|done|exact IH|done].
Qed.

Lemma read_heredoc_loop s k post : bytes_ok s →
  read_heredoc [] (b64_loop k s ++ lit "\nEOF\n" ++ post) = Some (b64_loop k s ++ [NL], post).
Proof. intros Hs. by apply (reads_as_loop s k _ _ _ Hs (reads_as_end post)). Qed.

Lemma is_prefix_app_l p s t : is_prefix p s = true → is_prefix p (s ++ t) = true.
Proof.
  revert s. induction p as [|c p IH]; intros [|d s]; simpl; try done.
  intros [-> Hs]%andb_true_iff. by rewrite IH.
Qed.

Lemma register_call_text :
  is_prefix (str "    Protobuf::DescriptorPool->generated_pool->add_serialized_file(")
    register_call = true.
Proof. vm_compute. reflexivity. Qed.

Lemma GenerateModule_shape (serialize : FileProto → bytes) g f : ∃ after,
  GenerateModule serialize g f =
    module_head (package_name g) ++
    dependency_requires (file_to_package g) (file_dependency f) ++ heredoc_open ++
    b64_loop 0 (serialize f) ++ lit "\nEOF\n" ++ register_call ++ after.
Proof.
  unfold GenerateModule, descriptor_block. eexists. rewrite <- !app_assoc. reflexivity.
Qed.

(** C13: the descriptor embedded in generated code survives.  Whatever bytes the
    encoder gives for a file, Perl's here-document in the generated module ends at the
    terminator the generator wrote, not before, what follows it is the call that
    registers the file, and decoding the document's base64 text gives the encoder's
    bytes back. *)
Theorem embedded_descriptor_roundtrip (serialize : FileProto → bytes) g f :
  bytes_ok (serialize f) →
  ∃ rest document after,
    GenerateModule serialize g f =
      module_head (package_name g) ++
      dependency_requires (file_to_package g) (file_dependency f) ++ heredoc_open ++ rest ∧
    read_heredoc [] rest = Some (document, after) ∧
    decode_base64 document = Some (serialize f) ∧
    is_prefix (str "    Protobuf::DescriptorPool->generated_pool->add_serialized_file(") after = true.
Proof.
  intros Hs. destruct (GenerateModule_shape serialize g f) as [after ->].
  eexists _, (b64_loop 0 (serialize f) ++ [NL]), (register_call ++ after).
  split; [reflexivity|]. split_and!.
  - by apply read_heredoc_loop.
  - unfold decode_base64. rewrite filter_app, app_nil_r. by apply decode_base64_loop.
  - apply is_prefix_app_l, register_call_text.
Qed.

Lemma embedded_descriptor_roundtrip_witness :
  bytes_ok (replicate 100 255) ∧
  ∃ rest document after,
    GenerateModule (λ _, replicate 100 255) (new_generator [vision_file] []) vision_file =
      module_head [] ++ dependency_requires (BuildPackageMap [vision_file]) [] ++
      heredoc_open ++ rest ∧
    read_heredoc [] rest = Some (document, after) ∧
    decode_base64 document = Some (replicate 100 255) ∧
    is_prefix (str "    Protobuf::DescriptorPool->generated_pool->add_serialized_file(") after = true.
Proof.
  split; [by_compute|].
  exact (embedded_descriptor_roundtrip (λ _, replicate 100 255) (new_generator [vision_file] [])
    vision_file ltac:(by_compute)).
Defined.

(** ** The paths *)

(** Runs of slashes as one slash. *)
Fixpoint squeeze (p : bytes) : bytes :=
  match p with
  | [] => []
  | c :: p' =>
      match p' with
      | d :: _ => if (c =? SLASH) && (d =? SLASH) then squeeze p' else c :: squeeze p'
      | [] => [c]
      end
  end.

Lemma squeeze_cons c d p : squeeze (c :: d :: p) =
  if (c =? SLASH) && (d =? SLASH) then squeeze (d :: p) else c :: squeeze (d :: p).
Proof. done. Qed.

Lemma find_slashes_cons c d p : find_slashes (c :: d :: p) =
  if (c =? SLASH) && (d =? SLASH) then Some 0%nat else S <$> find_slashes (d :: p).
Proof. done. Qed.

Lemma find_slashes_None p : find_slashes p = None → squeeze p = p.
Proof.
  induction p as [|c [|d p] IH]; [done|done|]. rewrite find_slashes_cons, squeeze_cons.
  destruct (_ && _); [done|]. intros H%fmap_None. by rewrite IH.
Qed.

(** One turn shortens the path by one and does not change what it squeezes to. *)
Lemma find_slashes_Some p i : find_slashes p = Some i →
  let p' := take i p ++ [SLASH] ++ drop (i + 2) p in
  length p = S (length p') ∧ squeeze p' = squeeze p ∧ head p' = head p.
Proof.
  revert i. induction p as [|c [|d p] IH]; intros i; [done|done|].
  rewrite find_slashes_cons, squeeze_cons. destruct (_ && _) eqn:E.
  - intros [= <-]. apply andb_true_iff in E as [->%Z.eqb_eq ->%Z.eqb_eq].
    cbn [take drop app Nat.add length]. by rewrite drop_0.
  - intros (j & Hj & ->)%fmap_Some. destruct (IH j Hj) as (Hl & Hs & Hh).
    cbn [take Nat.add drop app length] in *. rewrite <- Hs.
    set (p' := take j (d :: p) ++ _) in *. destruct p' as [|d' p']; [done|].
    injection Hh as ->. rewrite squeeze_cons, E. cbn [length] in *. auto with lia.
Qed.

Lemma collapse_squeeze fuel p : (length p ≤ fuel)%nat → collapse fuel p = Some (squeeze p).
Proof.
  revert p. induction fuel as [|fuel IH]; intros p Hp; cbn [collapse];
    destruct (find_slashes p) as [i|] eqn:E; try (by rewrite find_slashes_None).
  - destruct (find_slashes_Some p i E) as (Hl & _). lia.
  - destruct (find_slashes_Some p i E) as (Hl & Hs & _). rewrite IH, Hs; [done|lia].
Qed.

Lemma squeeze_no_slashes p : find_slashes (squeeze p) = None.
Proof.
  induction p as [|c [|d p] IH]; [done|done|]. rewrite squeeze_cons.
  destruct (_ && _) eqn:E; [done|].
  assert (head (squeeze (d :: p)) = Some d) as Hh.
  { clear. revert d. induction p as [|e p IH]; intros d; [done|]. rewrite squeeze_cons.
    destruct (_ && _) eqn:E; [|done]. apply andb_true_iff in E as [->%Z.eqb_eq ->%Z.eqb_eq].
    apply IH. }
  destruct (squeeze (d :: p)) as [|d' q]; [done|]. injection Hh as ->.
  by rewrite find_slashes_cons, E, IH.
Qed.

(** The loop that turns a package into a path ends.  From any string the loop
    [while ((double_slash = p.find("//")) != npos)] runs out after at most as many turns as
    the string has characters, with no "//" left and every run of slashes one slash. *)
Lemma path_loop_terminates p :
  ∃ path, collapse (length p) p = Some path ∧ find_slashes path = None ∧ path = squeeze p ∧
    ∀ fuel, (length p ≤ fuel)%nat → collapse fuel p = Some path.
Proof.
  exists (squeeze p). split_and!; [by apply collapse_squeeze|apply squeeze_no_slashes|done|].
  intros. by apply collapse_squeeze.
Qed.

Definition plain_segment (w : bytes) : Prop := w ≠ [] ∧ COLON ∉ w ∧ SLASH ∉ w.

Lemma slashes_plain w : plain_segment w → slashes w = w.
Proof.
  intros (_ & Hc & _). induction w as [|c w IH]; [done|].
  apply not_elem_of_cons in Hc as [Hc Hw]. unfold slashes in *. cbn [map].
  rewrite (proj2 (Z.eqb_neq c COLON)) by done. by rewrite IH.
Qed.

Lemma squeeze_plain w s : plain_segment w → squeeze (w ++ s) = w ++ squeeze s.
Proof.
  intros (_ & _ & Hs). induction w as [|c w IH]; [done|].
  apply not_elem_of_cons in Hs as [Hc Hw]. cbn [app]. rewrite <- IH by done.
  destruct (w ++ s) as [|d t] eqn:E; [done|].
  rewrite squeeze_cons, (proj2 (Z.eqb_neq c SLASH)) by done. done.
Qed.

Lemma join_plain_head sep l : l ≠ [] → Forall plain_segment l →
  ∃ c s, join_with sep l = c :: s ∧ c ≠ COLON ∧ c ≠ SLASH.
Proof.
  intros Hne Hl. destruct Hl as [|[|c w] l (? & Hc & Hs) Hl]; [done|done|].
  apply not_elem_of_cons in Hc as [? _], Hs as [? _]. destruct l; cbn [join_with app]; eauto.
Qed.

Lemma squeeze_two_slashes c s : c ≠ SLASH →
  squeeze (SLASH :: SLASH :: c :: s) = SLASH :: squeeze (c :: s).
Proof.
  intros Hc. rewrite squeeze_cons, Z.eqb_refl. cbn [andb].
  by rewrite squeeze_cons, (proj2 (Z.eqb_neq c SLASH)), andb_false_r by done.
Qed.

(** [A::B::C] lives in [A/B/C]. *)
Lemma module_path_join l : l ≠ [] → Forall plain_segment l →
  module_path (join_with (str "::") l) = Some (join_with (str "/") l).
Proof.
  intros Hne Hl. unfold module_path.
  rewrite collapse_squeeze by (unfold slashes; by rewrite length_fmap).
  f_equal. induction Hl as [|w l Hw Hl IH]; [done|]. destruct l as [|v l].
  - cbn [join_with]. rewrite slashes_plain by done.
    rewrite <- (app_nil_r w) at 1. rewrite squeeze_plain by done. by rewrite app_nil_r.
  - change (join_with ?s (w :: v :: l)) with (w ++ s ++ join_with s (v :: l)).
    unfold slashes in *. rewrite !fmap_app. fold (slashes w). rewrite slashes_plain by done.
    rewrite squeeze_plain by done. f_equal. rewrite <- IH by done.
    destruct (join_plain_head (str "::") (v :: l) ltac:(done) Hl) as (c & s & E & Hc & Hs).
    rewrite E. change (fmap ?f (c :: s)) with (f c :: slashes s).
    change (map ?f (c :: s)) with (f c :: slashes s). cbv beta.
    rewrite (proj2 (Z.eqb_neq c COLON)) by done. exact (squeeze_two_slashes c _ Hs).
Qed.

(** ** The response *)

(** What one file contributes when its package is [p]. *)
Definition module_pair (serialize : FileProto → bytes) (g : PerlCodeGenerator) (f : FileProto)
  : list (bytes * bytes) :=
  let g := set_package_name g (GetPerlPackage f) in
  let p := squeeze (slashes (GetPerlPackage f)) in
  [(p ++ str ".pm", GenerateModule serialize g f); (p ++ str "/Types.pm", GenerateTypes g f)].

Lemma find_unique files f :
  NoDup (file_proto_name <$> files) → f ∈ files →
  List.find (λ h, bool_decide (file_proto_name h = file_proto_name f)) files = Some f.
Proof.
  induction files as [|h files IH]; [by intros _ ?%not_elem_of_nil|].
  rewrite fmap_cons, NoDup_cons. intros [Hh Hnd] Hin. cbn [List.find].
  case_bool_decide as E.
  - apply elem_of_cons in Hin as [->|Hin]; [done|]. exfalso. apply Hh. rewrite E.
    by apply list_elem_of_fmap_2.
  - apply elem_of_cons in Hin as [->|Hin]; [done|]. by apply IH.
Qed.

(** A generator of a request, whatever package its loop has left in [package_name_]. *)
Definition generates (g : PerlCodeGenerator) (files : list FileProto) (names : list bytes) : Prop :=
  ∃ p, g = set_package_name (new_generator files names) p.

Lemma generate_file_known serialize files names g f :
  generates g files names → NoDup (file_proto_name <$> files) → f ∈ files →
  ∃ g', generate_file serialize g (file_proto_name f) =
      Some (g', module_pair serialize (new_generator files names) f) ∧ generates g' files names.
Proof.
  intros [p ->] Hnd Hf. unfold generate_file, set_package_name, new_generator.
  cbn [request_files file_to_package]. rewrite find_unique, BuildPackageMap_lookup by done.
  cbn [package_name]. unfold module_path.
  rewrite collapse_squeeze by (unfold slashes; by rewrite length_fmap).
  eexists. split; [done|]. by exists (GetPerlPackage f).
Qed.

Lemma generate_file_unknown serialize files names g n :
  generates g files names → n ∉ file_proto_name <$> files →
  generate_file serialize g n = Some (g, []).
Proof.
  intros [p ->] Hn. unfold generate_file, set_package_name, new_generator. cbn [request_files].
  destruct (List.find _ files) as [f|] eqn:E; [|done].
  apply find_some in E as [Hin E%bool_decide_eq_true]. destruct Hn. subst n.
  by apply list_elem_of_fmap_2, list_elem_of_In.
Qed.

Definition requested (serialize : FileProto → bytes) (files : list FileProto) (names : list bytes)
    (n : bytes) : list (bytes * bytes) :=
  match List.find (λ f, bool_decide (file_proto_name f = n)) files with
  | Some f => module_pair serialize (new_generator files names) f
  | None => []
  end.

Lemma generate_files_spec serialize files names l : NoDup (file_proto_name <$> files) →
  ∀ g, generates g files names →
  generate_files serialize g l = Some (concat (map (requested serialize files names) l)).
Proof.
  intros Hnd. induction l as [|n l IH]; intros g Hg; [done|].
  rewrite fmap_cons, concat_cons. cbn [generate_files]. unfold requested at 1.
  destruct (List.find _ files) as [f|] eqn:E.
  - apply find_some in E as [Hin <-%bool_decide_eq_true]. apply list_elem_of_In in Hin.
    destruct (generate_file_known serialize files names g f Hg Hnd Hin) as (g' & -> & Hg').
    cbn [mbind option_bind fst snd]. by rewrite (IH g' Hg').
  - rewrite (generate_file_unknown serialize files names g n Hg).
    + cbn [mbind option_bind fst snd]. by rewrite (IH g Hg).
    + intros (f & -> & Hin)%list_elem_of_fmap.
      apply list_elem_of_In, (find_none _ _ E), bool_decide_eq_false in Hin. done.
Qed.

(** The generator answers the request.  For a request with distinct file names,
    [Generate] ends, announces proto3 optional fields and editions 2000 to 2001 as its
    bounds, and gives, in the order asked for, two files for each requested file the
    request holds (none for the others): the module and the types library of that
    file's own package, although the package passes through a member that every turn
    overwrites.  The module of package [A::B] goes to [A/B.pm], its types to
    [A/B/Types.pm]. *)
Lemma Generate_exact serialize files names : NoDup (file_proto_name <$> files) →
  (∃ response, Generate serialize (new_generator files names) = Some response ∧
    supported_features response = 3 ∧
    response_file response = concat (map (requested serialize files names) names)) ∧
  ∀ f l, f ∈ files → GetPerlPackage f = join_with (str "::") l → l ≠ [] →
    Forall plain_segment l →
    (requested serialize files names (file_proto_name f)).*1 =
      [join_with (str "/") l ++ str ".pm"; join_with (str "/") l ++ str "/Types.pm"].
Proof.
  intros Hnd. split.
  - unfold Generate. rewrite (generate_files_spec serialize files names names Hnd).
    + eexists. by split_and!.
    + by exists [].
  - intros f l Hf Hp Hne Hl. unfold requested. rewrite find_unique by done.
    pose proof (module_path_join l Hne Hl) as Hm. unfold module_path in Hm.
    rewrite collapse_squeeze in Hm by (unfold slashes; by rewrite length_fmap).
    apply (inj Some) in Hm. unfold module_pair. rewrite Hp, Hm. done.
Qed.

Lemma Generate_exact_witness :
  NoDup (file_proto_name <$> [vision_file]) ∧
  (requested (λ _, []) [vision_file] [] (file_proto_name vision_file)).*1 =
    [str "Google/Vision/ImageAnnotator.pm"; str "Google/Vision/ImageAnnotator/Types.pm"].
Proof.
  split; [by_compute|].
  apply (proj2 (Generate_exact (λ _, []) [vision_file] [] ltac:(by_compute)) vision_file
    [str "Google"; str "Vision"; str "ImageAnnotator"]); [by left|by vm_compute|done|].
  repeat constructor; by_compute.
Defined.

(** *** Collisions *)

(** The types library of one file and the module of another can have the same path. *)
Example types_path_collision :
  let file n p := {| file_proto_name := str n; file_package := str p; file_dependency := [];
    file_message_type := []; file_enum_type := []; file_service := [] |} in
  let files := [file "p/foo.proto"%string "p"%string; file "p/foo/types.proto"%string "p.foo"%string] in
  (requested (λ _, []) files [] (str "p/foo.proto")).*1 =
    [str "P/Foo.pm"; str "P/Foo/Types.pm"] ∧
  (requested (λ _, []) files [] (str "p/foo/types.proto")).*1 =
    [str "P/Foo/Types.pm"; str "P/Foo/Types/Types.pm"].
Proof. split; by vm_compute. Qed.

Fixpoint occurrences (p s : bytes) : Z :=
  match s with
  | [] => 0
  | _ :: s' => (if is_prefix p s then 1 else 0) + occurrences p s'
  end.

(** Messages nested in different messages under one name give one type name twice. *)
Example nested_type_names_clash :
  let f := {| file_proto_name := str "f.proto"; file_package := str "p"; file_dependency := [];
              file_message_type := [leaf (str "A") [leaf (str "Entry") []];
                                    leaf (str "B") [leaf (str "Entry") []]];
              file_enum_type := []; file_service := [] |} in
  occurrences (lit "declare 'Entry',\n") (GenerateTypes (new_generator [f] []) f) = 2.
Proof. by vm_compute. Qed.
