(* ===== verification/Plugin.v ===== *)
(** * The plug-in (protoc/plugin_main.cc, generator.h, [Generate] of generator.cc)

    What protoc runs: the loop that reads the request, the generator with the strings it
    copies to the arena, the response, and the exit code.  upb's messages are parameters
    (parsing a request, writing a file descriptor and a response); which of its allocations
    succeed is an argument.  The text itself is [ProtocModule]'s. *)

From S2P Require Import Prelude Names PerlNumbers ProtocNames ProtocModule.

(** ** Reading standard input *)

(** [sizeof(buffer)]. *)
Definition BUFFER_SIZE : nat := 4096.

(** [std::cin.read(buffer, n)] when [s] is left to read: what it puts into the buffer, of
    which [gcount()] tells the length, what is left, and whether the stream is still good. *)
Definition cin_read (n : nat) (s : bytes) : bytes * bytes * bool :=
  (take n s, drop n s, (n <=? length s)%nat).

(** The loop and the [append] after it; [None] out of fuel. *)
Fixpoint read_input (fuel : nat) (input s : bytes) : option bytes :=
  let '(buffer, rest, good) := cin_read BUFFER_SIZE s in
  if good then
    match fuel with
    | O => None
    | S fuel => read_input fuel (input ++ buffer) rest
    end
  else Some (input ++ buffer).

(** ** The arena and the response *)

(** [upb_StringView]. *)
Record view := { v_data : Z; v_size : Z }.

(** [CodeGeneratorResponse.File] and [CodeGeneratorResponse]: their strings are views. *)
Record rfile := { r_name : view; r_content : view }.
Record response_msg := { r_features : Z; r_minimum : Z; r_maximum : Z; r_files : list rfile }.

(** [arena]: the strings copied to it; [None] before it is made and after it is freed.
    [asked]: the allocations so far. *)
Record pworld := {
  arena : option (gmap Z bytes);
  next_data : Z;
  allocations : nat;
  response : response_msg;
  cout : bytes;
  cerr : bytes }.

Abbreviation pcall := (cmd pworld).

Definition set_arena (a : option (gmap Z bytes)) (w : pworld) : pworld :=
  {| arena := a; next_data := next_data w; allocations := allocations w; response := response w;
     cout := cout w; cerr := cerr w |}.
Definition set_response (r : response_msg) (w : pworld) : pworld :=
  {| arena := arena w; next_data := next_data w; allocations := allocations w; response := r;
     cout := cout w; cerr := cerr w |}.
Definition set_out (out err : bytes) (w : pworld) : pworld :=
  {| arena := arena w; next_data := next_data w; allocations := allocations w; response := response w;
     cout := out; cerr := err |}.

Definition empty_view : view := {| v_data := 0; v_size := 0 |}.
Definition empty_response : response_msg := {| r_features := 0; r_minimum := 0; r_maximum := 0; r_files := [] |}.

Section Plugin.
(** Whether the n-th allocation succeeds; upb's reader of requests and writers. *)
Context (answer : nat → bool).
Context (parse_request : bytes → option (list FileProto * list bytes)).
Context (serialize : FileProto → bytes) (serialize_response : CodeGeneratorResponse → bytes).

Definition allocates : pcall bool := λ w,
  (Ret (answer (allocations w)),
   {| arena := arena w; next_data := next_data w; allocations := S (allocations w); response := response w;
      cout := cout w; cerr := cerr w |}).

(** Memory of the arena with a string in it. *)
Definition put_data (s : bytes) : pcall Z := λ w,
  match arena w with
  | None => (Fault "no arena", w)
  | Some m =>
      (Ret (next_data w),
       {| arena := Some (<[next_data w := s]> m); next_data := next_data w + Z.of_nat (length s) + 1;
          allocations := allocations w; response := response w; cout := cout w; cerr := cerr w |})
  end.

(** [ArenaCopy]: the result of [upb_Arena_Malloc] is not looked at. *)
Definition ArenaCopy (s : bytes) : pcall view :=
  ok ← allocates;
  if (ok : bool) then
    buf ← put_data s;
    mret {| v_data := buf; v_size := Z.of_nat (length s) |}
  else if bool_decide (s = []) then mret empty_view
  else cfault "memcpy to NULL".

Definition read_view (v : view) : pcall bytes := λ w,
  if v_size v =? 0 then (Ret [], w)
  else match arena w ≫= λ m, m !! v_data v with
       | Some s => (Ret (take (Z.to_nat (v_size v)) s), w)
       | None => (Fault "freed string", w)
       end.

(** [.._add_file]: NULL when there is no memory, and the setters then write through it. *)
Definition add_file : pcall unit :=
  ok ← allocates;
  if (ok : bool) then
    cmodify (λ w, let r := response w in
      set_response {| r_features := r_features r; r_minimum := r_minimum r; r_maximum := r_maximum r;
                      r_files := r_files r ++ [{| r_name := empty_view; r_content := empty_view |}] |} w)
  else cfault "file is NULL".

(** Both setters, on the file added last. *)
Definition set_file (f : rfile → rfile) : pcall unit :=
  cmodify (λ w, let r := response w in
    set_response {| r_features := r_features r; r_minimum := r_minimum r; r_maximum := r_maximum r;
                    r_files := match rev (r_files r) with
                               | [] => []
                               | l :: fs => rev fs ++ [f l]
                               end |} w).

(** One file of the response. *)
Definition put_file (path content : bytes) : pcall unit :=
  add_file;;
  name ← ArenaCopy path;
  set_file (λ f, {| r_name := name; r_content := r_content f |});;
  text ← ArenaCopy content;
  set_file (λ f, {| r_name := r_name f; r_content := text |}).

(** [FileDescriptorProto_serialize]: an empty string if there is no memory. *)
Definition serialize_file (f : FileProto) : pcall bytes :=
  ok ← allocates; mret (if (ok : bool) then serialize f else []).

(** One turn of the loop of [Generate]. *)
Definition generate_turn (g : PerlCodeGenerator) (name : bytes) : pcall PerlCodeGenerator :=
  match List.find (λ f, bool_decide (file_proto_name f = name)) (request_files g) with
  | None => mret g
  | Some f =>
      let g := match file_to_package g !! name with
               | Some p => set_package_name g p
               | None => g
               end in
      embedded ← serialize_file f;
      let module_content := GenerateModule (λ _, embedded) g f in
      match module_path (package_name g) with
      | None => cfault "endless loop"
      | Some p =>
          put_file (p ++ str ".pm") module_content;;
          put_file (p ++ str "/Types.pm") (GenerateTypes g f);;
          mret g
      end
  end.

Fixpoint generate_loop (g : PerlCodeGenerator) (names : list bytes) : pcall unit :=
  match names with
  | [] => mret tt
  | name :: names => g ← generate_turn g name; generate_loop g names
  end.

(** [PerlCodeGenerator::Generate]. *)
Definition Generate_response (g : PerlCodeGenerator) : pcall unit :=
  ok ← allocates;
  if (ok : bool) then
    cmodify (set_response {| r_features := Z.lor FEATURE_PROTO3_OPTIONAL FEATURE_SUPPORTS_EDITIONS;
                             r_minimum := 1000; r_maximum := 1001; r_files := [] |});;
    generate_loop g (file_to_generate g)
  else cfault "response is NULL".

(** The response as upb reads it: every view of it. *)
Fixpoint read_files (l : list rfile) : pcall (list (bytes * bytes)) :=
  match l with
  | [] => mret []
  | f :: l =>
      name ← read_view (r_name f);
      content ← read_view (r_content f);
      rest ← read_files l;
      mret ((name, content) :: rest)
  end.

(** [CodeGeneratorResponse_serialize]: [buf] and [size], memory of the arena; NULL and 0
    if there is none. *)
Definition write_response : pcall view :=
  w ← cget;
  files ← read_files (r_files (response w));
  ok ← allocates;
  if (ok : bool) then
    let out := serialize_response {| supported_features := r_features (response w); minimum_edition := r_minimum (response w);
                                     maximum_edition := r_maximum (response w); response_file := files |} in
    buf ← put_data out;
    mret {| v_data := buf; v_size := Z.of_nat (length out) |}
  else mret empty_view.

(** [std::cout.write(buf, size)]: it reads the memory of [buf]. *)
Definition cout_write (buf : view) : pcall unit :=
  s ← read_view buf;
  cmodify (λ w, set_out (cout w ++ s) (cerr w) w).

Definition free_arena : pcall unit := λ w,
  match arena w with
  | Some _ => (Ret tt, set_arena None w)
  | None => (Fault "double free", w)
  end.

Definition PARSE_FAILED : bytes := lit "Failed to parse CodeGeneratorRequest\n".

(** [main]: the exit code.  Parsing fails on memory as it does on bad input. *)
Definition plugin_main (stdin : bytes) : pcall Z :=
  ok ← allocates;
  (if (ok : bool) then cmodify (set_arena (Some ∅)) else mret tt);;
  match read_input (length stdin) [] stdin with
  | None => cfault "endless loop"
  | Some input =>
      w ← cget;
      if bool_decide (arena w = None) then cfault "parsing without an arena"
      else
        ok ← allocates;
        match (if (ok : bool) then parse_request input else None) with
        | None =>
            cmodify (λ w, set_out (cout w) (cerr w ++ PARSE_FAILED) w);;
            free_arena;;
            mret 1
        | Some (files, names) =>
            Generate_response (new_generator files names);;
            buf ← write_response;
            cout_write buf;;
            free_arena;;
            mret 0
        end
  end.
End Plugin.

Definition plugin_start : pworld :=
  {| arena := None; next_data := 1; allocations := 0; response := empty_response; cout := []; cerr := [] |}.

(** ** Reading *)

Lemma read_input_exact fuel : ∀ input s, (length s ≤ fuel)%nat → read_input fuel input s = Some (input ++ s).
Proof.
  induction fuel as [|fuel IH]; intros input s Hl; cbn -[BUFFER_SIZE]; destruct (Nat.leb_spec BUFFER_SIZE (length s)) as [H|H].
  - exfalso. unfold BUFFER_SIZE in H. lia.
  - by rewrite take_ge by lia.
  - rewrite IH by (rewrite length_drop; unfold BUFFER_SIZE in *; lia). by rewrite <- app_assoc, take_drop.
  - by rewrite take_ge by lia.
Qed.

(** ** Strings in the arena *)

(** What a view reads, from the arena alone. *)
Definition reads (a : option (gmap Z bytes)) (v : view) (s : bytes) : Prop :=
  ∀ w, arena w = a → read_view v w = (Ret s, w).

Lemma reads_empty a : reads a empty_view [].
Proof. done. Qed.

Lemma reads_grow m m' v s : m ⊆ m' → reads (Some m) v s → reads (Some m') v s.
Proof.
  intros Hm Hr w Hw. specialize (Hr (set_arena (Some m) w) eq_refl). unfold read_view in *. rewrite Hw. simpl in Hr |- *.
  destruct (v_size v =? 0); [by simplify_eq|].
  destruct (m !! v_data v) as [t|] eqn:E; [|done]. by rewrite (lookup_weaken _ _ _ _ E Hm); simplify_eq.
Qed.

(** The generator at work: the response so far holds the files [l]. *)
Record writing (l : list (bytes * bytes)) (w : pworld) : Prop := {
  w_arena : ∃ m, arena w = Some m ∧ map_Forall (λ a _, a < next_data w) m;
  w_files : Forall2 (λ f p, reads (arena w) (r_name f) p.1 ∧ reads (arena w) (r_content f) p.2) (r_files (response w)) l;
  w_head : r_features (response w) = 3 ∧ r_minimum (response w) = 1000 ∧ r_maximum (response w) = 1001;
  w_quiet : cout w = [] ∧ cerr w = [] }.

Section Exact.
Context (answer : nat → bool) (parse_request : bytes → option (list FileProto * list bytes)).
Context (serialize : FileProto → bytes) (serialize_response : CodeGeneratorResponse → bytes).
Context (enough : ∀ n, answer n = true).

Lemma allocates_ok w : allocates answer w =
  (Ret true, {| arena := arena w; next_data := next_data w; allocations := S (allocations w); response := response w;
                cout := cout w; cerr := cerr w |}).
Proof. unfold allocates. by rewrite enough. Qed.

(** Memory put into the arena reads as the string, and nothing else changes. *)
Lemma put_data_spec s w m : arena w = Some m → map_Forall (λ a _, a < next_data w) m →
  ∃ w', put_data s w = (Ret (next_data w), w') ∧
    reads (arena w') {| v_data := next_data w; v_size := Z.of_nat (length s) |} s ∧ response w' = response w ∧
    cout w' = cout w ∧ cerr w' = cerr w ∧
    ∃ m', arena w' = Some m' ∧ m ⊆ m' ∧ map_Forall (λ a _, a < next_data w') m'.
Proof.
  intros Ha Hm. unfold put_data. rewrite Ha. eexists. split; [done|]. cbn.
  assert (m !! next_data w = None) as Hn.
  { destruct (m !! next_data w) eqn:E; [|done]. apply Hm in E. lia. }
  split_and!; try done.
  - intros w' Hw. unfold read_view. cbn. rewrite Hw. cbn. rewrite lookup_insert_eq, Nat2Z.id, take_ge by done.
    destruct s; [done|]. by rewrite (proj2 (Z.eqb_neq _ 0)).
  - eexists. split; [done|]. split; [by apply insert_subseteq|].
    intros a t. rewrite lookup_insert_Some. intros [[<- _]|[_ H]]; [lia|]. apply Hm in H. lia.
Qed.

(** A copy in the arena reads as the string, and nothing else changes. *)
Lemma ArenaCopy_spec s w m : arena w = Some m → map_Forall (λ a _, a < next_data w) m →
  ∃ v w', ArenaCopy answer s w = (Ret v, w') ∧ reads (arena w') v s ∧ response w' = response w ∧
    cout w' = cout w ∧ cerr w' = cerr w ∧
    ∃ m', arena w' = Some m' ∧ m ⊆ m' ∧ map_Forall (λ a _, a < next_data w') m'.
Proof.
  intros Ha Hm. unfold ArenaCopy. rewrite (cbind_ret _ _ _ _ _ (allocates_ok w)).
  set (w1 := Build_pworld _ _ _ _ _ _). destruct (put_data_spec s w1 m Ha Hm) as (w' & E & Hrest).
  eexists _, w'. split; [by rewrite (cbind_ret _ _ _ _ _ E)|exact Hrest].
Qed.

Lemma set_file_last f fs x w : r_files (response w) = fs ++ [x] →
  ∃ w', set_file f w = (Ret tt, w') ∧ r_files (response w') = fs ++ [f x] ∧ arena w' = arena w ∧
    next_data w' = next_data w ∧ cout w' = cout w ∧ cerr w' = cerr w ∧
    r_features (response w') = r_features (response w) ∧ r_minimum (response w') = r_minimum (response w) ∧
    r_maximum (response w') = r_maximum (response w).
Proof.
  intros Hf. eexists. split; [done|]. cbn. rewrite Hf, rev_app_distr. cbn. by rewrite rev_involutive.
Qed.

Lemma put_file_spec l path content w : writing l w →
  ∃ w', put_file answer path content w = (Ret tt, w') ∧ writing (l ++ [(path, content)]) w'.
Proof.
  intros [(m & Ha & Hm) Hf Hh Hq]. unfold put_file.
  unfold add_file at 1. rewrite cbind_assoc, (cbind_ret _ _ _ _ _ (allocates_ok w)).
  erewrite cbind_ret by reflexivity. set (w1 := set_response _ _).
  destruct (ArenaCopy_spec path w1 m) as (v1 & w2 & E2 & R2 & Er2 & Eo2 & Ee2 & m2 & Ha2 & Hs2 & Hm2); [done..|].
  rewrite (cbind_ret _ _ _ _ _ E2).
  destruct (set_file_last (λ f, {| r_name := v1; r_content := r_content f |}) (r_files (response w))
    {| r_name := empty_view; r_content := empty_view |} w2) as (w3 & E3 & F3 & A3 & N3 & O3 & P3 & H3); [by rewrite Er2|].
  rewrite (cbind_ret _ _ _ _ _ E3).
  destruct (ArenaCopy_spec content w3 m2) as (v4 & w4 & E4 & R4 & Er4 & Eo4 & Ee4 & m4 & Ha4 & Hs4 & Hm4);
    [by rewrite A3|by rewrite N3|].
  rewrite (cbind_ret _ _ _ _ _ E4).
  destruct (set_file_last (λ f, {| r_name := r_name f; r_content := v4 |}) (r_files (response w))
    {| r_name := v1; r_content := empty_view |} w4) as (w5 & E5 & F5 & A5 & N5 & O5 & P5 & H5); [by rewrite Er4|].
  exists w5. split; [done|]. rewrite Ha2 in R2. rewrite Ha4 in R4. split.
  - exists m4. by rewrite A5, N5.
  - rewrite F5, A5, Ha4. apply Forall2_app.
    + eapply Forall2_impl; [exact Hf|]. intros f p [? ?]. rewrite Ha in *.
      split; (eapply reads_grow; [|done]; by transitivity m2).
    + constructor; [|done]. cbn. split; [by eapply reads_grow|done].
  - destruct H5 as (-> & -> & ->). rewrite Er4. destruct H3 as (-> & -> & ->). by rewrite Er2.
  - by rewrite O5, P5, Eo4, Ee4, O3, P3, Eo2, Ee2.
Qed.

Lemma GenerateModule_embeds g f : GenerateModule (λ _, serialize f) g f = GenerateModule serialize g f.
Proof. unfold GenerateModule, descriptor_block. done. Qed.

Lemma generate_turn_spec files names g n l w : NoDup (file_proto_name <$> files) →
  generates g files names → writing l w →
  ∃ g' w', generate_turn answer serialize g n w = (Ret g', w') ∧ generates g' files names ∧
    writing (l ++ requested serialize files names n) w'.
Proof.
  intros Hnd [p ->] Hw. unfold generate_turn, requested. cbn [request_files set_package_name new_generator].
  destruct (List.find _ files) as [f|] eqn:E.
  2: { exists (set_package_name (new_generator files names) p), w. rewrite app_nil_r. split_and!; [done|by exists p|done]. }
  apply find_some in E as [Hin <-%bool_decide_eq_true]. apply list_elem_of_In in Hin.
  cbn [file_to_package set_package_name new_generator]. rewrite BuildPackageMap_lookup by done.
  unfold serialize_file. rewrite cbind_assoc, (cbind_ret _ _ _ _ _ (allocates_ok w)).
  erewrite cbind_ret by reflexivity. cbn [package_name set_package_name].
  unfold module_path. rewrite collapse_squeeze by (unfold slashes; by rewrite length_fmap).
  cbn iota. rewrite GenerateModule_embeds. set (w1 := {| arena := arena w |}).
  assert (writing l w1) as Hw1 by (destruct Hw; by split).
  destruct (put_file_spec _ (squeeze (slashes (GetPerlPackage f)) ++ str ".pm")
    (GenerateModule serialize (set_package_name (new_generator files names) (GetPerlPackage f)) f) _ Hw1) as (w2 & E2 & Hw2).
  destruct (put_file_spec _ (squeeze (slashes (GetPerlPackage f)) ++ str "/Types.pm")
    (GenerateTypes (set_package_name (new_generator files names) (GetPerlPackage f)) f) _ Hw2) as (w3 & E3 & Hw3).
  eexists _, w3. split_and!.
  - by rewrite (cbind_ret _ _ _ _ _ E2), (cbind_ret _ _ _ _ _ E3).
  - by exists (GetPerlPackage f).
  - by rewrite <- app_assoc in Hw3.
Qed.

Lemma generate_loop_spec files names ns : NoDup (file_proto_name <$> files) →
  ∀ g l w, generates g files names → writing l w →
  ∃ w', generate_loop answer serialize g ns w = (Ret tt, w') ∧
    writing (l ++ concat (map (requested serialize files names) ns)) w'.
Proof.
  intros Hnd. induction ns as [|n ns IH]; intros g l w Hg Hw; [exists w; by rewrite app_nil_r|].
  destruct (generate_turn_spec files names g n l w Hnd Hg Hw) as (g1 & w1 & E & Hg1 & Hw1).
  destruct (IH g1 _ w1 Hg1 Hw1) as (w2 & E2 & Hw2). exists w2. cbn. by rewrite (cbind_ret _ _ _ _ _ E), app_assoc.
Qed.

Lemma read_files_spec fs : ∀ l w, Forall2 (λ f p, reads (arena w) (r_name f) p.1 ∧ reads (arena w) (r_content f) p.2) fs l →
  read_files fs w = (Ret l, w).
Proof.
  induction fs as [|f fs IH]; intros l w Hf; inversion_clear Hf as [|? p ? ? [Hn Hc] Hfs]; [done|]. cbn.
  rewrite (cbind_ret _ _ _ _ _ (Hn w eq_refl)), (cbind_ret _ _ _ _ _ (Hc w eq_refl)), (cbind_ret _ _ _ _ _ (IH _ _ Hfs)).
  by destruct p.
Qed.

(** The response built in the arena is the one [Generate] describes. *)
Lemma Generate_response_spec files names r w : NoDup (file_proto_name <$> files) →
  Generate serialize (new_generator files names) = Some r → arena w = Some ∅ → cout w = [] → cerr w = [] →
  ∃ w', Generate_response answer serialize (new_generator files names) w = (Ret tt, w') ∧
    writing (response_file r) w' ∧ supported_features r = 3 ∧ minimum_edition r = 1000 ∧ maximum_edition r = 1001.
Proof.
  intros Hnd HG Ha Ho He. unfold Generate_response. rewrite (cbind_ret _ _ _ _ _ (allocates_ok w)).
  erewrite cbind_ret by reflexivity. set (w1 := set_response _ _).
  assert (writing [] w1) as Hw1 by (split; cbn; [exists ∅|..]; done).
  destruct (generate_loop_spec files names names Hnd (new_generator files names) [] w1) as (w2 & E & Hw2);
    [by exists []|done|].
  exists w2. split; [exact E|]. unfold Generate in HG.
  rewrite (generate_files_spec serialize files names names Hnd) in HG by by exists []. by simplify_eq/=.
Qed.

Lemma write_response_spec l w : writing l w → ∃ buf w', write_response answer serialize_response w = (Ret buf, w') ∧
  reads (arena w') buf (serialize_response {| supported_features := 3; minimum_edition := 1000; maximum_edition := 1001;
                                              response_file := l |}) ∧
  is_Some (arena w') ∧ cout w' = [] ∧ cerr w' = [].
Proof.
  intros [(m & Ha & Hm) Hf (H1 & H2 & H3) [Ho He]]. unfold write_response.
  erewrite cbind_ret by reflexivity. rewrite (cbind_ret _ _ _ _ _ (read_files_spec _ _ _ Hf)).
  rewrite (cbind_ret _ _ _ _ _ (allocates_ok w)), H1, H2, H3. set (out := serialize_response _). set (w1 := Build_pworld _ _ _ _ _ _).
  destruct (put_data_spec out w1 m) as (w2 & E & Hr & _ & Ho2 & He2 & m2 & Ha2 & _); [done|done|].
  rewrite (cbind_ret _ _ _ _ _ E). eexists _, w2. split; [done|]. split_and!; [done|by rewrite Ha2|by rewrite Ho2|by rewrite He2].
Qed.

Lemma cout_write_spec buf s w : reads (arena w) buf s → cout_write buf w = (Ret tt, set_out (cout w ++ s) (cerr w) w).
Proof. intros Hr. unfold cout_write. by rewrite (cbind_ret _ _ _ _ _ (Hr w eq_refl)). Qed.

Lemma free_arena_spec m w : arena w = Some m → free_arena w = (Ret tt, set_arena None w).
Proof. intros Ha. unfold free_arena. by rewrite Ha. Qed.

(** Up to the request: the arena is there and the input is whole. *)
Lemma plugin_main_reads stdin : ∃ w, arena w = Some ∅ ∧ cout w = [] ∧ cerr w = [] ∧
  plugin_main answer parse_request serialize serialize_response stdin plugin_start =
    (match parse_request stdin with
     | None => cmodify (λ w, set_out (cout w) (cerr w ++ PARSE_FAILED) w);; free_arena;; mret 1
     | Some (files, names) =>
         Generate_response answer serialize (new_generator files names);;
         buf ← write_response answer serialize_response;
         cout_write buf;;
         free_arena;;
         mret 0
     end) w.
Proof.
  unfold plugin_main. rewrite (cbind_ret _ _ _ _ _ (allocates_ok _)). erewrite cbind_ret by reflexivity.
  rewrite read_input_exact by done. erewrite cbind_ret by reflexivity.
  rewrite bool_decide_eq_false_2 by done. rewrite (cbind_ret _ _ _ _ _ (allocates_ok _)).
  exists {| arena := Some ∅; next_data := 1; allocations := 2; response := empty_response; cout := []; cerr := [] |}.
  cbn [app]. by destruct (parse_request stdin) as [[??]|].
Qed.

Lemma plugin_main_good stdin files names r : parse_request stdin = Some (files, names) →
  NoDup (file_proto_name <$> files) → Generate serialize (new_generator files names) = Some r →
  ∃ w', plugin_main answer parse_request serialize serialize_response stdin plugin_start = (Ret 0, w') ∧
    cout w' = serialize_response r ∧ cerr w' = [] ∧ arena w' = None.
Proof.
  intros Hp Hnd HG. destruct (plugin_main_reads stdin) as (w & Ha & Ho & He & ->). rewrite Hp.
  destruct (Generate_response_spec files names r w Hnd HG Ha Ho He) as (w1 & E1 & Hw1 & H1 & H2 & H3).
  rewrite (cbind_ret _ _ _ _ _ E1).
  destruct (write_response_spec _ _ Hw1) as (buf & w2 & E2 & Hr & [m Hm] & Ho' & He'). rewrite (cbind_ret _ _ _ _ _ E2).
  rewrite (cbind_ret _ _ _ _ _ (cout_write_spec _ _ _ Hr)).
  erewrite cbind_ret by by eapply free_arena_spec. eexists. split; [done|]. cbn. rewrite Ho'.
  split_and!; [|done..]. destruct r. by simplify_eq/=.
Qed.

Lemma plugin_main_bad stdin : parse_request stdin = None →
  ∃ w', plugin_main answer parse_request serialize serialize_response stdin plugin_start = (Ret 1, w') ∧
    cout w' = [] ∧ cerr w' = PARSE_FAILED ∧ arena w' = None.
Proof.
  intros Hp. destruct (plugin_main_reads stdin) as (w & Ha & Ho & He & ->). rewrite Hp.
  erewrite cbind_ret by reflexivity. erewrite cbind_ret by by eapply free_arena_spec.
  eexists. split; [done|]. cbn [set_arena set_out cout cerr arena]. by rewrite Ho, He.
Qed.
End Exact.

(** ** Without enough memory

    Calls that end without a fault or an exception, and then keep the arena and the
    streams. *)
Definition quiet {A} (m : pcall A) : Prop := ∀ w, is_Some (arena w) →
  match m w with
  | (Ret _, w') => is_Some (arena w') ∧ cout w' = cout w ∧ cerr w' = cerr w
  | (Croak _, _) => False
  | (Fault _, _) => True
  end.

Lemma quiet_bind {A B} (m : pcall A) (k : A → pcall B) : quiet m → (∀ a, quiet (k a)) → quiet (m ≫= k).
Proof.
  intros Hm Hk w Hw. unfold mbind, cmd_bind. specialize (Hm w Hw). destruct (m w) as [[a| |] w1]; [|done..].
  destruct Hm as (Ha & Ho & He). specialize (Hk a w1 Ha). destruct (k a w1) as [[] w2]; [|done..].
  destruct Hk as (? & -> & ->). by rewrite Ho, He.
Qed.
Lemma quiet_ret {A} (a : A) : quiet (mret a).
Proof. by intros w Hw. Qed.
Lemma quiet_fault {A} why : quiet (cfault (A := A) why).
Proof. by intros w Hw. Qed.
Lemma quiet_response f : quiet (cmodify (λ w, set_response (f w) w)).
Proof. by intros w Hw. Qed.
Lemma quiet_get : quiet cget.
Proof. by intros w Hw. Qed.

Section Quiet.
Context (answer : nat → bool) (serialize : FileProto → bytes) (serialize_response : CodeGeneratorResponse → bytes).

Lemma quiet_allocates : quiet (allocates answer).
Proof. by intros w Hw. Qed.
Lemma quiet_put_data s : quiet (put_data s).
Proof. intros w [m Hm]. unfold put_data. rewrite Hm. by eauto. Qed.
Lemma quiet_read_view v : quiet (read_view v).
Proof. intros w Hw. unfold read_view. destruct (v_size v =? 0); [done|]. by destruct (arena w ≫= _). Qed.
End Quiet.

Create HintDb quiet.
#[export] Hint Resolve quiet_bind quiet_ret quiet_fault quiet_response quiet_get quiet_allocates quiet_put_data
  quiet_read_view : quiet.
Ltac keep_quiet :=
  repeat first
    [ progress intros | apply quiet_bind | progress auto with quiet
    | match goal with |- quiet (match ?x with _ => _ end) => destruct x end ].

Section QuietGenerator.
Context (answer : nat → bool) (serialize : FileProto → bytes) (serialize_response : CodeGeneratorResponse → bytes).

Lemma quiet_put_file path content : quiet (put_file answer path content).
Proof. unfold put_file, add_file, ArenaCopy, set_file. keep_quiet. Qed.

Lemma quiet_generate_turn g n : quiet (generate_turn answer serialize g n).
Proof. unfold generate_turn, serialize_file. keep_quiet; apply quiet_put_file. Qed.

Lemma quiet_generate_loop ns : ∀ g, quiet (generate_loop answer serialize g ns).
Proof. induction ns; cbn; keep_quiet. apply quiet_generate_turn. Qed.

Lemma quiet_read_files fs : quiet (read_files fs).
Proof. induction fs; cbn; keep_quiet. Qed.

Lemma quiet_Generate_response g : quiet (Generate_response answer serialize g).
Proof. unfold Generate_response. keep_quiet. apply quiet_generate_loop. Qed.

Lemma quiet_write_response : quiet (write_response answer serialize_response).
Proof. unfold write_response. keep_quiet. apply quiet_read_files. Qed.
End QuietGenerator.

(** What [main] does with a request, or without one. *)
Lemma plugin_answers_end answer serialize serialize_response request w :
  is_Some (arena w) → cout w = [] → cerr w = [] →
  match
    (match request : option (list FileProto * list bytes) with
     | None => cmodify (λ w, set_out (cout w) (cerr w ++ PARSE_FAILED) w);; free_arena;; mret 1
     | Some (files, names) =>
         Generate_response answer serialize (new_generator files names);;
         buf ← write_response answer serialize_response;
         cout_write buf;;
         free_arena;;
         mret 0
     end) w
  with
  | (Ret c, w') => arena w' = None ∧ (c = 0 ∧ cerr w' = [] ∨ c = 1 ∧ cout w' = [] ∧ cerr w' = PARSE_FAILED)
  | (Croak _, _) => False
  | (Fault _, _) => True
  end.
Proof.
  intros Hw Ho He. destruct request as [[files names]|].
  - pose proof (quiet_Generate_response answer serialize (new_generator files names) w Hw) as HG.
    destruct (Generate_response _ _ _ w) as [[[]| |] w1] eqn:E1.
    2,3: unfold mbind, cmd_bind at 1; rewrite E1; done.
    rewrite (cbind_ret _ _ _ _ _ E1). destruct HG as (Hw1 & Ho1 & He1).
    pose proof (quiet_write_response answer serialize_response w1 Hw1) as HW.
    destruct (write_response _ _ w1) as [[buf| |] w2] eqn:E2.
    2,3: unfold mbind, cmd_bind at 1; rewrite E2; done.
    rewrite (cbind_ret _ _ _ _ _ E2). destruct HW as (Hm2 & Ho2 & He2).
    pose proof (quiet_read_view buf w2 Hm2) as HR. unfold cout_write. rewrite cbind_assoc.
    destruct (read_view buf w2) as [[s| |] w3] eqn:E3.
    2,3: unfold mbind, cmd_bind at 1; rewrite E3; done.
    rewrite (cbind_ret _ _ _ _ _ E3). destruct HR as ([m Hm] & Ho3 & He3).
    erewrite cbind_ret by reflexivity. erewrite cbind_ret by by eapply free_arena_spec.
    split; [done|]. left. cbn. by rewrite He3, He2, He1.
  - destruct Hw as [m Hm]. erewrite cbind_ret by reflexivity. erewrite cbind_ret by by eapply free_arena_spec.
    split; [done|]. right. cbn [set_arena set_out cout cerr arena]. by rewrite Ho, He.
Qed.

(** The program never throws, and when it returns it has freed the arena: 1 with nothing
    written and the message, or 0 with no message. *)
Lemma plugin_main_ends answer parse_request serialize serialize_response stdin :
  match plugin_main answer parse_request serialize serialize_response stdin plugin_start with
  | (Ret c, w') => arena w' = None ∧ (c = 0 ∧ cerr w' = [] ∨ c = 1 ∧ cout w' = [] ∧ cerr w' = PARSE_FAILED)
  | (Croak _, _) => False
  | (Fault _, _) => True
  end.
Proof.
  unfold plugin_main. erewrite cbind_ret by reflexivity. destruct (answer _).
  2: { erewrite cbind_ret by reflexivity. by rewrite read_input_exact. }
  erewrite cbind_ret by reflexivity. rewrite read_input_exact by done. erewrite cbind_ret by reflexivity.
  rewrite bool_decide_eq_false_2 by done. erewrite cbind_ret by reflexivity.
  by apply plugin_answers_end.
Qed.

(** C31: what protoc gets from the plug-in.  With memory enough, [main] reads all of its input,
    however long; when upb cannot parse it, it writes nothing but the message, and answers
    1; for a request with distinct file names it answers 0 and writes one response, whose
    strings are still there when it is written: the one the generator describes, with the
    features and editions, and for each requested file the request holds, in that order,
    its module and its types ([A/B.pm] and [A/B/Types.pm] when its package is of plain
    segments), and nothing for a name it does not hold.  Whatever allocations fail, nothing
    is thrown, and if it answers it has freed the arena and not both written and answered 1;
    it may die before that, at a NULL ([descriptor_lost]). *)
Theorem plugin_main_exact answer parse_request serialize serialize_response stdin :
  let run := plugin_main answer parse_request serialize serialize_response stdin plugin_start in
  match run with
  | (Ret c, w) => arena w = None ∧ (c = 0 ∧ cerr w = [] ∨ c = 1 ∧ cout w = [] ∧ cerr w = PARSE_FAILED)
  | (Croak _, _) => False
  | (Fault _, _) => True
  end ∧
  ((∀ n, answer n = true) →
   match parse_request stdin with
   | None => run.1 = Ret 1
   | Some (files, names) =>
       NoDup (file_proto_name <$> files) → ∃ response,
         run.1 = Ret 0 ∧ cout run.2 = serialize_response response ∧
         Generate serialize (new_generator files names) = Some response ∧ supported_features response = 3 ∧
         response_file response = concat (map (requested serialize files names) names) ∧
         ∀ f l, f ∈ files → GetPerlPackage f = join_with (str "::") l → l ≠ [] → Forall plain_segment l →
           (requested serialize files names (file_proto_name f)).*1 =
             [join_with (str "/") l ++ str ".pm"; join_with (str "/") l ++ str "/Types.pm"]
   end).
Proof.
  split; [apply plugin_main_ends|]. intros Hok.
  destruct (parse_request stdin) as [[files names]|] eqn:Hp.
  - intros Hnd. destruct (Generate_exact serialize files names Hnd) as [(r & HG & Hs & Hr) Hpath].
    destruct (plugin_main_good answer parse_request serialize serialize_response Hok stdin files names r Hp Hnd HG)
      as (w' & -> & Ho & _). by exists r.
  - by destruct (plugin_main_bad answer parse_request serialize serialize_response Hok stdin Hp) as (w' & -> & _).
Qed.

(** A request for one file, whatever the bytes. *)
Definition one_request (input : bytes) : option (list FileProto * list bytes) :=
  match input with [] => None | _ => Some ([vision_file], [file_proto_name vision_file]) end.

(** Writers with one byte for each file. *)
Definition count_files (r : CodeGeneratorResponse) : bytes := map (λ _, 1) (response_file r).

Lemma plugin_main_exact_witness :
  (plugin_main (λ _, true) one_request (λ _, []) count_files [] plugin_start).1 = Ret 1 ∧
  (plugin_main (λ _, true) one_request (λ _, []) count_files [7] plugin_start).1 = Ret 0.
Proof.
  split.
  - destruct (plugin_main_exact (λ _, true) one_request (λ _, []) count_files []) as [_ H]. by apply H.
  - destruct (plugin_main_exact (λ _, true) one_request (λ _, []) count_files [7]) as [_ H].
    specialize (H (λ _, eq_refl)). cbn [one_request] in H. destruct H as (r & H & _); [by_compute|done].
Defined.

(** ** Memory that runs out

    A descriptor that cannot be written is embedded as the empty string, and the answer is
    still 0; a string that cannot be copied is written through NULL. *)
Example descriptor_lost :
  let run n := plugin_main (λ k, negb (k =? n)%nat) one_request (λ _, [1; 2; 3])
    (λ r, concat (map snd (response_file r))) [7] plugin_start in
  (run 3%nat).1 = Ret 0 ∧
  cout (run 3%nat).2 = concat (map snd (requested (λ _, []) [vision_file] [file_proto_name vision_file] (file_proto_name vision_file))) ∧
  cout (run 99%nat).2 ≠ cout (run 3%nat).2 ∧
  (run 5%nat).1 = Fault "memcpy to NULL".
Proof. split_and!; by_compute. Qed.
