(* ===== verification/Descriptors.v ===== *)
(** * Descriptors (xs/descriptor/*.c)

    The wrappers of definitions, what they say of fields and messages, and the registry
    of message types by the hash of their names. *)

From S2P Require Import Prelude PerlNumbers Convert Wrappers.
From S2P Require ObjCache Names.

(** ** C strings in memory *)

(** [strncmp(a, name, n) == 0]: [a] a string, [name] the memory behind a pointer, whose
    bytes past the end of the list must not be read. *)
Fixpoint strncmp_0 (a name : bytes) (n : nat) : outcome bool :=
  match n with
  | O => Ret true
  | S n =>
      match name with
      | [] => Fault "read past the name"
      | d :: name =>
          match a with
          | [] => Ret (d =? 0)
          | c :: a => if c =? d then strncmp_0 a name n else Ret false
          end
      end
  end.

(** [PerlUpb_MessageDef_FindFieldByNameWithSize], on the fields of the message type. *)
Fixpoint FindFieldByNameWithSize (fs : list FieldDef) (name : bytes) (len : nat) : outcome (option FieldDef) :=
  match fs with
  | [] => Ret None
  | f :: fs =>
      if bool_decide (length (f_name f) = len) then
        eq ← strncmp_0 (f_name f) name len;
        if (eq : bool) then Ret (Some f) else FindFieldByNameWithSize fs name len
      else FindFieldByNameWithSize fs name len
  end.

(** ** field.c: the names of types and labels, by their numbers in descriptor.proto;
    [None] for a NULL field. *)

Definition type_number (t : FieldType) : Z :=
  match t with
  | TDouble => 1 | TFloat => 2 | TInt64 => 3 | TUInt64 => 4 | TInt32 => 5 | TFixed64 => 6
  | TFixed32 => 7 | TBool => 8 | TString => 9 | TGroup => 10 | TMessage => 11 | TBytes => 12
  | TUInt32 => 13 | TEnum => 14 | TSFixed32 => 15 | TSFixed64 => 16 | TSInt32 => 17
  | TSInt64 => 18
  end.

Definition FieldDef_TypeName (f : option FieldDef) : string :=
  match f with
  | None => "unknown"
  | Some f =>
      match f_type f with
      | TDouble => "double" | TFloat => "float" | TInt64 => "int64" | TUInt64 => "uint64"
      | TInt32 => "int32" | TFixed64 => "fixed64" | TFixed32 => "fixed32" | TBool => "bool"
      | TString => "string" | TGroup => "group" | TMessage => "message" | TBytes => "bytes"
      | TUInt32 => "uint32" | TEnum => "enum" | TSFixed32 => "sfixed32"
      | TSFixed64 => "sfixed64" | TSInt32 => "sint32" | TSInt64 => "sint64"
      end
  end.

(** [upb_Label]: 1, 2 or 3. *)
Definition FieldDef_LabelName (label : option Z) : string :=
  match label with
  | Some 1 => "optional" | Some 2 => "required" | Some 3 => "repeated"
  | _ => "unknown"
  end.

Definition FieldDef_Name (f : option FieldDef) : sv :=
  match f with Some f => PV (f_name f) false | None => Undef end.
Definition FieldDef_Type (f : option FieldDef) : Z :=
  match f with Some f => type_number (f_type f) | None => 0 end.
Definition FieldDef_Number (f : option FieldDef) : Z :=
  match f with Some f => f_number f | None => 0 end.
Definition FieldDef_IsRepeated (f : option FieldDef) : bool :=
  match f with Some f => f_repeated f | None => false end.
Definition FieldDef_IsMap (f : option FieldDef) : bool :=
  match f with Some f => f_map f | None => false end.
Definition FieldDef_IsSubMessage (f : option FieldDef) : bool :=
  match f with Some f => IsSubMessage f | None => false end.

(** ** Wrappers of definitions *)

Inductive dkind := DMessage | DField | DEnum | DEnumValue | DFile | DOneof | DService.

#[export] Instance dkind_eq_dec : EqDecision dkind.
Proof. solve_decision. Defined.

Definition class_name (k : dkind) : string :=
  match k with
  | DMessage => "Protobuf::Descriptor::MessageDef"
  | DField => "Protobuf::Descriptor::Field"
  | DEnum => "Protobuf::Descriptor::Enum"
  | DEnumValue => "Protobuf::Descriptor::EnumValue"
  | DFile => "Protobuf::Descriptor::File"
  | DOneof => "Protobuf::Descriptor::OneofDef"
  | DService => "Protobuf::Descriptor::Service"
  end.

(** [RETURN_CACHED_OR_CREATE_BLESSED]. *)
Definition GetWrapper (k : dkind) (ptr : Z) : call psv := WrapArenaBoundObject ptr None (class_name k) 0.

Definition MessageDef_GetWrapper : Z → call psv := GetWrapper DMessage.
Definition FieldDef_GetWrapper : Z → call psv := GetWrapper DField.
Definition EnumDef_GetWrapper : Z → call psv := GetWrapper DEnum.
Definition EnumValueDef_GetWrapper : Z → call psv := GetWrapper DEnumValue.
Definition OneofDef_GetWrapper : Z → call psv := GetWrapper DOneof.
Definition ServiceDef_GetWrapper (s : Z) : call psv :=
  if s =? 0 then mret PUndef else GetWrapper DService s.

Section Descriptors.
Context (derived : string → string → bool).

(** [EXTRACT_CACHED_DESCRIPTOR]. *)
Definition GetDef (k : dkind) (sv : option psv) : call Z := GetArenaBoundObject derived sv (Some (class_name k)).

Definition MessageDef_GetMessage : option psv → call Z := GetDef DMessage.
Definition FieldDef_GetField : option psv → call Z := GetDef DField.
Definition EnumDef_GetEnum : option psv → call Z := GetDef DEnum.
Definition EnumValueDef_GetEnumValue : option psv → call Z := GetDef DEnumValue.
Definition FileDef_GetFile : option psv → call Z := GetDef DFile.
Definition OneofDef_GetOneof : option psv → call Z := GetDef DOneof.

(** ** message.c *)

(** What upb knows of a message type: its full name and its file. *)
Context (FullName : Z → bytes) (File : Z → Z).

(** FNV-1a on the 64 bits of [hash]. *)
Definition fnv_step (hash c : Z) : Z := u64 (Z.lxor hash c * 0x100000001b3).

Definition GetFingerprint (m : Z) : Z :=
  if m =? 0 then 0 else fold_left fnv_step (FullName m) 0xcbf29ce484222325.

Definition Message_FullName (m : Z) : sv := if m =? 0 then Undef else PV (FullName m) false.

Definition Message_File (m : Z) : call psv :=
  if m =? 0 then mret PUndef else GetWrapper DFile (File m).

Definition MessageDef_PerlClassName (st : Names.stashes) (m : Z) (names : Names.MessageNames)
  : outcome (sv * Names.stashes) :=
  if m =? 0 then Ret (Undef, st)
  else '(class, st) ← Names.GetMessageStash st m names; Ret (PV class false, st).

Definition MessageDef_AuditIdentity (self : option psv) : call unit :=
  m ← MessageDef_GetMessage self;
  if m =? 0 then mret tt
  else cmodify (λ w, set_oc (ObjCache.logged (oc w) ObjCache.EvHit m) w).

(** ** Registering fingerprints

    [descriptor_fingerprints] holds references, by their address; [scalars] is the
    references made here, each with its count and what it refers to.  No registry while
    Perl shuts down ([dirty]); no hash if [descriptor_fingerprints] is NULL. *)
Record fworld := {
  perl : world;
  dirty : bool;
  scalars : gmap Z (nat * psv);
  next_scalar : Z;
  descriptor_fingerprints : option (gmap bytes Z) }.

Notation fcall := (cmd fworld).

Definition set_perl (p : world) (w : fworld) : fworld :=
  {| perl := p; dirty := dirty w; scalars := scalars w; next_scalar := next_scalar w;
     descriptor_fingerprints := descriptor_fingerprints w |}.
Definition set_scalars (m : gmap Z (nat * psv)) (w : fworld) : fworld :=
  {| perl := perl w; dirty := dirty w; scalars := m; next_scalar := next_scalar w;
     descriptor_fingerprints := descriptor_fingerprints w |}.
Definition set_fingerprints (t : gmap bytes Z) (w : fworld) : fworld :=
  {| perl := perl w; dirty := dirty w; scalars := scalars w; next_scalar := next_scalar w;
     descriptor_fingerprints := Some t |}.

Definition on_perl {A} (m : call A) : fcall A := λ w,
  let '(out, p) := m (perl w) in (out, set_perl p w).

(** The reference a wrapping call answers, a new scalar. *)
Definition new_scalar (sv : psv) : fcall Z := λ w,
  (Ret (next_scalar w),
   {| perl := perl w; dirty := dirty w; scalars := <[next_scalar w := (1%nat, sv)]> (scalars w);
      next_scalar := next_scalar w + 1; descriptor_fingerprints := descriptor_fingerprints w |}).

Definition scalar_inc (rv : Z) : fcall unit :=
  cmodify (λ w, match scalars w !! rv with
                | Some (n, sv) => set_scalars (<[rv := (S n, sv)]> (scalars w)) w
                | None => w
                end).

(** The last count of a reference frees it, and gives up what it refers to. *)
Definition scalar_dec (rv : Z) : fcall unit :=
  cmodify (λ w, match scalars w !! rv with
                | Some (S (S n), sv) => set_scalars (<[rv := (S n, sv)]> (scalars w)) w
                | Some (_, sv) =>
                    let w := set_scalars (delete rv (scalars w)) w in
                    match sv with
                    | PRef o => set_perl (REFCNT_dec (S (size (objects (perl w)))) o (perl w)) w
                    | _ => w
                    end
                | None => w
                end).

(** [snprintf(key, size, "%" PRIu64, fingerprint)]. *)
Definition fingerprint_key (size : nat) (fingerprint : Z) : bytes := take (size - 1) (decimal fingerprint).

(** [stored]: whether [hv_store] could. *)
Definition RegisterFingerprint (m : Z) (stored : bool) : fcall unit :=
  if m =? 0 then mret tt
  else
    let fingerprint := GetFingerprint m in
    w ← cget;
    if dirty w then cfault "no registry"
    else
      cguard (bool_decide (is_Some (descriptor_fingerprints w))) "descriptor_fingerprints HV is NULL in registry";;
      let key := fingerprint_key 32 fingerprint in
      sv ← on_perl (MessageDef_GetWrapper m);
      if bool_decide (sv = PUndef)
      then ccroak "Failed to get wrapper for MessageDef during fingerprint registration"
      else
        wrapper ← new_scalar sv;
        scalar_inc wrapper;;
        w ← cget;
        let table := default ∅ (descriptor_fingerprints w) in
        if (stored : bool) then
          cput (set_fingerprints (<[key := wrapper]> table) w);;
          match table !! key with Some old => scalar_dec old | None => mret tt end
        else
          scalar_dec wrapper;;
          ccroak "hv_store failed in RegisterFingerprint".

Definition FindByFingerprint (fingerprint : Z) : fcall Z :=
  w ← cget;
  if dirty w then cfault "no registry"
  else
    let key := fingerprint_key 21 fingerprint in
    match default ∅ (descriptor_fingerprints w) !! key ≫= λ rv, snd <$> scalars w !! rv with
    | Some (PRef o) => on_perl (MessageDef_GetMessage (Some (PRef o)))
    | _ => mret 0
    end.
End Descriptors.

(** ** Histories of registrations *)

(** Registering a message type, wrapping some definition, dropping a reference to a
    wrapper, resizing and emptying the object cache. *)
Inductive fop :=
  | FRegister (m : Z) (stored : bool)
  | FWrap (k : dkind) (ptr : Z)
  | FDrop (o : Z)
  | FSetCapacity (capacity : Z)
  | FClear.

Definition run_fop (FullName : Z → bytes) (op : fop) : cmd fworld unit :=
  match op with
  | FRegister m stored => RegisterFingerprint FullName m stored
  | FWrap k ptr => on_perl (GetWrapper k ptr);; mret tt
  | FDrop o => on_perl (cmodify (λ w, REFCNT_dec (S (size (objects w))) o w))
  | FSetCapacity n => on_perl (cmodify (λ w, set_oc (ObjCache.ObjCache_SetCapacity (oc w) n) w))
  | FClear => on_perl (cmodify (λ w, set_oc (ObjCache.ObjCache_Clear false (oc w)) w))
  end.

Fixpoint run_fops (FullName : Z → bytes) (ops : list fop) (w : fworld) : fworld :=
  match ops with
  | [] => w
  | op :: ops => run_fops FullName ops (run_fop FullName op w).2
  end.

(** The message type last registered for each fingerprint. *)
Definition registers (FullName : Z → bytes) (t : gmap Z Z) (op : fop) : gmap Z Z :=
  match op with
  | FRegister m true => if m =? 0 then t else <[GetFingerprint FullName m := m]> t
  | _ => t
  end.
Definition last_registered (FullName : Z → bytes) (ops : list fop) : gmap Z Z :=
  fold_left (registers FullName) ops ∅.

Definition nothing_registered (capacity : Z) : fworld :=
  {| perl := no_objects capacity; dirty := false; scalars := ∅; next_scalar := 1;
     descriptor_fingerprints := Some ∅ |}.

(** ** Names *)

Lemma strncmp_0_spec a : ∀ name, Names.cstring a → (length a ≤ length name)%nat →
  strncmp_0 a name (length a) = Ret (bool_decide (take (length a) name = a)).
Proof.
  induction a as [|c a IH]; intros [|d name] Ha Hl; simpl in *; [done..|lia|].
  inversion_clear Ha. destruct (Z.eqb_spec c d) as [->|Hne].
  - rewrite IH by (done || lia). f_equal. apply bool_decide_ext. split; congruence.
  - by rewrite bool_decide_eq_false_2 by congruence.
Qed.

(** The scan finds the first field of that name, and reads nothing past the [len] bytes
    it was given. *)
Lemma FindFieldByNameWithSize_spec fs name len :
  Forall (λ f, Names.cstring (f_name f)) fs → (len ≤ length name)%nat →
  FindFieldByNameWithSize fs name len =
    Ret (snd <$> list_find (λ f, f_name f = take len name) fs).
Proof.
  induction 1 as [|f fs Hf Hfs IH]; intros Hl; simpl; [done|].
  destruct (decide (length (f_name f) = len)) as [E|E].
  - rewrite bool_decide_eq_true_2 by done. subst len. rewrite strncmp_0_spec by done. simpl.
    destruct (decide (f_name f = take (length (f_name f)) name)) as [En|En].
    + by rewrite bool_decide_eq_true_2 by done.
    + rewrite bool_decide_eq_false_2 by congruence. rewrite IH by done.
      by destruct (list_find _ fs) as [[]|].
  - rewrite bool_decide_eq_false_2 by done.
    destruct (decide (f_name f = take len name)) as [En|En].
    + exfalso. apply E. rewrite En, length_take. lia.
    + rewrite IH by done. by destruct (list_find _ fs) as [[]|].
Qed.

Lemma FieldDef_TypeName_inj f g : FieldDef_TypeName (Some f) = FieldDef_TypeName (Some g) →
  f_type f = f_type g.
Proof. simpl. destruct (f_type f), (f_type g); congruence. Qed.

(** ** Keys *)

Lemma decimal_digits_length fuel : ∀ n acc k, 0 ≤ n < 10 ^ Z.of_nat (S k) →
  (length (decimal_digits fuel n acc) ≤ length acc + S k)%nat.
Proof.
  induction fuel as [|fuel IH]; intros n acc k Hn; cbn [decimal_digits]; [lia|].
  case_match eqn:E; [simpl; lia|]. destruct k as [|k].
  - change (10 ^ Z.of_nat 1) with 10 in Hn. rewrite Z.div_small in E by lia. done.
  - rewrite (Nat2Z.inj_succ (S k)), Z.pow_succ_r in Hn by lia.
    assert (0 ≤ n / 10 < 10 ^ Z.of_nat (S k)) as Hn'
      by (split; [by apply Z.div_pos; lia|apply Z.div_lt_upper_bound; lia]).
    specialize (IH _ ((48 + n mod 10) :: acc) k Hn'). simpl in *. lia.
Qed.

(** Both buffers hold every key whole: 21 bytes are just enough. *)
Lemma fingerprint_key_exact size fp : 0 ≤ fp < 2 ^ 64 → (21 ≤ size)%nat →
  fingerprint_key size fp = decimal fp.
Proof.
  intros Hfp Hs. unfold fingerprint_key. apply take_ge. unfold decimal.
  destruct (Z.ltb_spec fp 0); [lia|]. rewrite Z.abs_eq by lia.
  pose proof (decimal_digits_length (S (Z.to_nat (Z.log2 fp))) fp [] 19) as H'.
  assert (2 ^ 64 ≤ 10 ^ Z.of_nat 20) by (vm_compute; congruence).
  assert (length (decimal_digits (S (Z.to_nat (Z.log2 fp))) fp []) ≤ length ([] : bytes) + 20)%nat
    as H2 by (apply H'; lia).
  etrans; [exact H2|]. simpl. lia.
Qed.

Lemma decimal_inj x y : decimal x = decimal y → x = y.
Proof.
  intros H. pose proof (strto_decimal x) as Hx. rewrite H, strto_decimal in Hx.
  injection Hx as Hs Ha. destruct (Z.ltb_spec x 0), (Z.ltb_spec y 0); simplify_eq; lia.
Qed.

Lemma GetFingerprint_range FullName m : 0 ≤ GetFingerprint FullName m < 2 ^ 64.
Proof.
  unfold GetFingerprint. destruct (m =? 0); [lia|].
  assert (∀ s h, 0 ≤ h < 2 ^ 64 → 0 ≤ fold_left fnv_step s h < 2 ^ 64) as H.
  { induction s as [|c s IH]; intros h Hh; simpl; [done|]. apply IH, u64_bound. }
  apply H. lia.
Qed.

(** ** The registry finds what was registered *)

Definition no_arena (ob : object) : Prop := ∀ up a pool, contents ob ≠ HV up (Some (PRef a)) pool.

(** Giving up one of several references to [o], or the last one to an object that holds
    nothing, leaves every other object. *)
Lemma drop_keeps fuel o w k ob : objects w !! k = Some ob →
  (∀ ob', objects w !! o = Some ob' → (2 ≤ refcnt ob')%nat ∨ (o ≠ k ∧ no_arena ob')) →
  ∃ n, objects (REFCNT_dec (S fuel) o w) !! k = Some (with_refcnt ob n).
Proof.
  intros Hk Ho. cbn [REFCNT_dec]. destruct (objects w !! o) as [ob'|] eqn:Eo;
    [|exists (refcnt ob); by destruct ob].
  assert (no_arena ob' → o ≠ k → ∀ w', objects w' = delete o (objects w) → ∃ n,
    objects (match contents ob' with HV _ (Some (PRef a)) _ => REFCNT_dec fuel a w' | _ => w' end) !! k =
      Some (with_refcnt ob n)) as Hgone.
  { intros Hna Hne w' Ew. exists (refcnt ob).
    assert (objects w' !! k = Some (with_refcnt ob (refcnt ob))) as E
      by (rewrite Ew, lookup_delete_ne by done; rewrite Hk; by destruct ob).
    destruct (contents ob') as [up [[| |a]|] pool|] eqn:Ec; try done. by destruct (Hna _ _ _ Ec). }
  assert (objects (wrapper_cleanup false ob' (set_oc (ObjCache.perl_death (oc w) o) w)) = objects w) as Ew.
  { unfold wrapper_cleanup. by destruct (ext_magic ob') as [[]|]. }
  destruct (Ho _ eq_refl) as [Hr|[Hne Hna]].
  - destruct (refcnt ob') as [|[|n]]; [lia..|]. simpl. destruct (decide (k = o)) as [->|].
    + rewrite Eo in Hk. injection Hk as <-. rewrite lookup_insert_eq. eauto.
    + rewrite lookup_insert_ne by done. exists (refcnt ob). rewrite Hk. by destruct ob.
  - destruct (refcnt ob') as [|[|n]].
    + apply Hgone; [done..|]. simpl. by rewrite Ew.
    + apply Hgone; [done..|]. simpl. by rewrite Ew.
    + simpl. rewrite lookup_insert_ne by done. exists (refcnt ob). rewrite Hk. by destruct ob.
Qed.

Section Registry.
Context (derived : string → string → bool) (FullName : Z → bytes).
(** Every address holds one definition. *)
Context (kind : Z → dkind).
Hypothesis derived_refl : derived (class_name DMessage) (class_name DMessage) = true.

Notation classes := (λ ptr, class_name (kind ptr)).

(** A scalar that refers to the wrapper of [m]. *)
Definition refers (w : fworld) (rv : Z) (n : nat) (o m : Z) : Prop :=
  scalars w !! rv = Some (n, PRef o) ∧ wrapper_of classes (perl w) o m ∧ m ≠ 0 ∧ kind m = DMessage.

(** The table against the message types last registered. *)
Record finv (t : gmap Z Z) (w : fworld) : Prop := {
  f_perl : inv classes (perl w);
  f_clean : dirty w = false;
  f_scalars : ∀ rv n sv, scalars w !! rv = Some (n, sv) → ∃ o m, sv = PRef o ∧ refers w rv n o m;
  f_next : ∀ rv, is_Some (scalars w !! rv) → rv < next_scalar w;
  f_table : ∃ table, descriptor_fingerprints w = Some table ∧
    (∀ key rv, table !! key = Some rv → ∃ fp m n o, key = decimal fp ∧ 0 ≤ fp < 2 ^ 64 ∧
      t !! fp = Some m ∧ fp = GetFingerprint FullName m ∧ refers w rv (S (S n)) o m) ∧
    (∀ fp m, t !! fp = Some m → is_Some (table !! decimal fp)) }.

Lemma wrapper_of_fun w o m m' : wrapper_of classes w o m → wrapper_of classes w o m' → m = m'.
Proof.
  intros (ob & Ho & _ & _ & (f & Hm)) (ob' & Ho' & _ & _ & (f' & Hm')). congruence.
Qed.

(** A change of the objects that keeps the wrappers referred to. *)
Lemma finv_perl t w p : finv t w → inv classes p →
  (∀ rv n o m, refers w rv n o m → wrapper_of classes p o m) → finv t (set_perl p w).
Proof.
  intros [Hp Hd Hs Hn Ht] Hp' Hk.
  assert (∀ rv n o m, refers w rv n o m → refers (set_perl p w) rv n o m) as Hr.
  { intros rv n o m H. pose proof (Hk _ _ _ _ H). by destruct H as (? & _ & ? & ?). }
  split; simpl; [done|done| |done|].
  - intros rv n sv (o & m & -> & H)%Hs. eauto.
  - destruct Ht as (table & E & H1 & H2). exists table. split_and!; [done| |done].
    intros key rv (fp & m & n & o & ? & ? & ? & ? & ?)%H1. exists fp, m, n, o. auto 10.
Qed.

Lemma wrapper_of_extends w w' o m : wrapper_of classes w o m →
  (∀ ob, objects w !! o = Some ob → ∃ n, objects w' !! o = Some (with_refcnt ob n)) →
  wrapper_of classes w' o m.
Proof.
  intros (ob & Ho & Hw) H. destruct (H _ Ho) as [n Hn]. exists (with_refcnt ob n).
  split; [done|]. by apply (wraps_same _ ob).
Qed.

Lemma wrap_finv t w k ptr : finv t w → ptr ≠ 0 → kind ptr = k →
  ∃ o p, on_perl (GetWrapper k ptr) w = (Ret (PRef o), set_perl p w) ∧
    finv t (set_perl p w) ∧ wrapper_of classes p o ptr.
Proof.
  intros Hf Hp <-.
  destruct (Wrap_spec _ (wraps_same classes) (perl w) ptr None (class_name (kind ptr)) 0 (f_perl _ _ Hf) Hp)
    as (o & p & E & Hi & [Hx _] & Hw); [done|done|].
  exists o, p. unfold on_perl, GetWrapper. rewrite E. split; [done|]. split; [|done].
  apply finv_perl; [done|done|]. intros rv n o' m (_ & Hw' & _). eapply wrapper_of_extends; [done|]. apply Hx.
Qed.

(** A second count on a new reference. *)
Definition with_scalar (w : fworld) (n : nat) (sv : psv) : fworld :=
  {| perl := perl w; dirty := dirty w; scalars := <[next_scalar w := (n, sv)]> (scalars w);
     next_scalar := next_scalar w + 1; descriptor_fingerprints := descriptor_fingerprints w |}.

Lemma refers_with_scalar t w n sv rv n' o m : finv t w → refers w rv n' o m →
  refers (with_scalar w n sv) rv n' o m.
Proof.
  intros Hf (Hs & ?). split; [|done]. simpl.
  assert (rv < next_scalar w) by (by eapply f_next). rewrite lookup_insert_ne by lia. done.
Qed.

Lemma with_scalar_finv t w n o m : finv t w → wrapper_of classes (perl w) o m → m ≠ 0 → kind m = DMessage →
  finv t (with_scalar w n (PRef o)) ∧ refers (with_scalar w n (PRef o)) (next_scalar w) n o m.
Proof.
  intros Hf Hw Hm Hk.
  assert (refers (with_scalar w n (PRef o)) (next_scalar w) n o m) as Hnew
    by (split; [apply lookup_insert_eq|done]).
  split; [|done]. pose proof Hf as [Hp Hd Hs Hn Ht]. split; simpl; [done|done| | |].
  - intros rv n' sv. rewrite lookup_insert. case_decide as E'.
    + intros [= <- <-]. subst rv. eauto.
    + intros (o' & m' & -> & Hr)%Hs. exists o', m'. split; [done|]. by eapply refers_with_scalar.
  - intros rv. rewrite lookup_insert. case_decide; [lia|]. intros Hl%Hn. lia.
  - destruct Ht as (table & E' & H1 & H2). exists table. split_and!; [done| |done].
    intros key rv (fp & m' & n' & o' & ? & ? & ? & ? & Hr)%H1. exists fp, m', n', o'.
    apply (refers_with_scalar t w n (PRef o)) in Hr; auto 10.
Qed.

(** A new entry in the table, and counts that change for no other entry. *)
Lemma finv_entry t w w' table rv n o m : let fp := GetFingerprint FullName m in
  finv t w → descriptor_fingerprints w = Some table →
  perl w' = perl w → dirty w' = dirty w → next_scalar w' = next_scalar w →
  descriptor_fingerprints w' = Some (<[decimal fp := rv]> table) →
  refers w rv (S (S n)) o m →
  (∀ x k sv, scalars w' !! x = Some (k, sv) → ∃ k', scalars w !! x = Some (k', sv)) →
  (∀ x, x = rv ∨ (∃ key, key ≠ decimal fp ∧ table !! key = Some x) → scalars w' !! x = scalars w !! x) →
  finv (<[fp := m]> t) w'.
Proof.
  intros fp [Hp Hd Hs Hn Ht] Et Ep Ed En Et' Hrv Hold Hsame.
  destruct Ht as (table' & E & H1 & H2). rewrite Et in E. injection E as <-.
  assert (∀ x k o m, scalars w' !! x = Some (k, PRef o) → ∀ k', refers w x k' o m → refers w' x k o m) as Hr.
  { intros x k o' m' Hx k' (_ & Hw). split; [done|]. by rewrite Ep. }
  split; [by rewrite Ep|congruence| | |].
  - intros x k sv Hx. destruct (Hold _ _ _ Hx) as [k' (o' & m' & -> & H)%Hs].
    exists o', m'. split; [done|]. by eapply Hr.
  - intros x [[k sv] Hx]. destruct (Hold _ _ _ Hx) as [k' Hk]. rewrite En. eauto.
  - exists (<[decimal fp := rv]> table). split_and!; [done| |].
    + intros key x. rewrite lookup_insert. case_decide as Ek.
      * intros [= <-]. exists fp, m, n, o. rewrite lookup_insert_eq.
        pose proof (GetFingerprint_range FullName m). split_and!; [done|unfold fp; lia..|done|done|].
        eapply Hr; [|done]. rewrite Hsame by auto. apply Hrv.
      * intros Hx. destruct (H1 _ _ Hx) as (fp' & m' & n' & o' & -> & Hfp' & Ht' & Ef & Hr').
        exists fp', m', n', o'. rewrite lookup_insert_ne by congruence.
        split_and!; [done|lia..|done|done|].
        eapply Hr; [|done]. rewrite Hsame by eauto. apply Hr'.
    + intros fp' m' Hm'. rewrite lookup_insert. case_decide; [by eexists|].
      rewrite lookup_insert_ne in Hm' by congruence. eauto.
Qed.

(** [hv_store], with the release of what it replaces. *)
Definition store_step (key : bytes) (rv : Z) (table : gmap bytes Z) : cmd fworld unit :=
  w ← cget;
  cput (set_fingerprints (<[key := rv]> table) w);;
  match table !! key with Some old => scalar_dec old | None => mret tt end.

Lemma store_finv t w table n o m : finv t w → descriptor_fingerprints w = Some table →
  let rv := next_scalar w in let fp := GetFingerprint FullName m in
  wrapper_of classes (perl w) o m → m ≠ 0 → kind m = DMessage →
  ∃ w', store_step (decimal fp) rv table (with_scalar w (S (S n)) (PRef o)) = (Ret tt, w') ∧
    finv (<[fp := m]> t) w'.
Proof.
  intros Hf Et rv fp Hw Hm Hk. destruct (with_scalar_finv t w (S (S n)) o m Hf Hw Hm Hk) as [Hf1 Hr].
  destruct (f_table _ _ Hf) as (table' & Et' & H1 & _). rewrite Et in Et'. injection Et' as <-.
  set (w1 := with_scalar w (S (S n)) (PRef o)) in *. unfold store_step.
  rewrite (cbind_ret _ _ w1 w1 w1) by done. rewrite (cbind_ret _ _ _ tt (set_fingerprints _ w1)) by done.
  destruct (table !! decimal fp) as [old|] eqn:Eold.
  - destruct (H1 _ _ Eold) as (fp' & m' & n' & o' & Ek & _ & _ & Ef & Hold).
    apply decimal_inj in Ek. subst fp'.
    assert (old ≠ rv) as Hne.
    { assert (old < next_scalar w) by (apply (f_next _ _ Hf); by destruct Hold as [-> _]). unfold rv. lia. }
    apply (refers_with_scalar t w (S (S n)) (PRef o)) in Hold; [|done]. fold w1 in Hold.
    pose proof Hold as (Hso & _). unfold scalar_dec, cmodify.
    change (scalars (set_fingerprints (<[decimal fp:=rv]> table) w1)) with (scalars w1). rewrite Hso.
    eexists. split; [done|]. eapply (finv_entry t w1); try done; simpl.
    + intros x k sv. rewrite lookup_insert. case_decide; [|eauto]. intros [= <- <-]. subst x. eauto.
    + intros x [->|(key & Hkey & Hx)]; [by rewrite lookup_insert_ne|].
      rewrite lookup_insert_ne; [done|]. intros <-. apply Hkey.
      destruct (H1 _ _ Hx) as (fp2 & m2 & n2 & o2 & -> & _ & _ & -> & Hr2).
      apply (refers_with_scalar t w (S (S n)) (PRef o)) in Hr2; [|done]. fold w1 in Hr2.
      destruct Hr2 as (Hs2 & Hw2 & _). rewrite Hso in Hs2. injection Hs2 as <- <-.
      destruct Hold as (_ & Hwo & _). rewrite (wrapper_of_fun _ _ _ _ Hw2 Hwo). by f_equal.
  - eexists. split; [done|]. eapply (finv_entry t w1); try done; simpl; eauto.
Qed.

Lemma RegisterFingerprint_spec t w m stored : finv t w → m = 0 ∨ kind m = DMessage →
  ∃ out w', RegisterFingerprint FullName m stored w = (out, w') ∧
    finv (registers FullName t (FRegister m stored)) w'.
Proof.
  intros Hf Hm. unfold RegisterFingerprint, registers.
  destruct (Z.eqb_spec m 0) as [->|Hne]; [destruct stored; eauto|].
  destruct Hm as [|Hm]; [done|]. destruct (f_table _ _ Hf) as (table & Et & _).
  rewrite (cbind_ret _ _ w w w), (f_clean _ _ Hf) by done.
  rewrite (cbind_ret _ _ w tt w) by (unfold cguard; by rewrite bool_decide_eq_true_2 by by rewrite Et).
  destruct (wrap_finv t w DMessage m Hf Hne Hm) as (o & p & E & Hf1 & Hw).
  unfold MessageDef_GetWrapper. rewrite (cbind_ret _ _ _ _ _ E).
  rewrite bool_decide_eq_false_2 by done. set (w1 := set_perl p w) in *.
  rewrite (cbind_ret _ _ w1 (next_scalar w1) (with_scalar w1 1 (PRef o))) by done.
  assert (scalar_inc (next_scalar w1) (with_scalar w1 1 (PRef o)) =
    (Ret tt, with_scalar w1 2 (PRef o))) as Ei.
  { unfold scalar_inc, cmodify, with_scalar, set_scalars. simpl. by rewrite lookup_insert_eq, insert_insert_eq. }
  rewrite (cbind_ret _ _ _ _ _ Ei). set (w2 := with_scalar w1 2 (PRef o)) in *.
  rewrite fingerprint_key_exact by (apply GetFingerprint_range || lia).
  destruct stored.
  - destruct (store_finv t w1 table 0 o m Hf1 Et Hw Hne Hm) as (w3 & E3 & Hf3).
    fold w2 in E3. exists (Ret tt), w3. split; [|done]. unfold store_step in E3.
    rewrite (cbind_ret _ _ w2 w2 w2) in E3 by done. rewrite (cbind_ret _ _ w2 w2 w2) by done.
    change (descriptor_fingerprints w2) with (descriptor_fingerprints w). by rewrite Et.
  - rewrite (cbind_ret _ _ w2 w2 w2) by done.
    assert (scalar_dec (next_scalar w1) w2 = (Ret tt, with_scalar w1 1 (PRef o))) as Ed.
    { unfold scalar_dec, cmodify, w2, with_scalar, set_scalars. simpl.
      by rewrite lookup_insert_eq, insert_insert_eq. }
    rewrite (cbind_ret _ _ _ _ _ Ed). eexists _, _. split; [done|].
    by apply (with_scalar_finv t w1 1 o m).
Qed.

(** Calls on definitions of the kind they are for; Perl gives up references that are
    not the registry's. *)
Definition fop_ok (w : fworld) (op : fop) : Prop :=
  match op with
  | FRegister m _ => m = 0 ∨ kind m = DMessage
  | FWrap k ptr => ptr = 0 ∨ kind ptr = k
  | FDrop o => ∀ ob, objects (perl w) !! o = Some ob → (2 ≤ refcnt ob)%nat ∨
      (no_arena ob ∧ ∀ rv n, scalars w !! rv ≠ Some (n, PRef o))
  | _ => True
  end.

Fixpoint fops_ok (ops : list fop) (w : fworld) : Prop :=
  match ops with
  | [] => True
  | op :: ops => fop_ok w op ∧ fops_ok ops (run_fop FullName op w).2
  end.

Lemma run_fop_finv t w op : finv t w → fop_ok w op →
  finv (registers FullName t op) (run_fop FullName op w).2.
Proof.
  intros Hf Hok. destruct op as [m stored|k ptr|o|n|]; cbn [run_fop].
  - destruct (RegisterFingerprint_spec t w m stored Hf Hok) as (out & w' & -> & ?). done.
  - destruct (decide (ptr = 0)) as [->|Hp]; [by destruct w|]. destruct Hok as [?|Hk]; [done|].
    destruct (wrap_finv t w k ptr Hf Hp Hk) as (o & p & E & ? & _). by rewrite (cbind_ret _ _ _ _ _ E).
  - apply finv_perl; [done| |].
    + apply (REFCNT_dec_inv _ (wraps_same classes)), Hf.
    + intros rv n o' m (Hs & Hw & _). eapply wrapper_of_extends; [done|]. intros ob Hob.
      apply drop_keeps; [done|]. intros ob' Hob'. destruct (Hok _ Hob') as [?|[? Hn]]; [by left|].
      right. split; [|done]. intros ->. by eapply Hn.
  - apply finv_perl; [done| |by intros rv n' o m (_ & ? & _)].
    apply (inv_oc _ (wraps_same classes)); [apply Hf|done].
  - apply finv_perl; [done| |by intros rv n' o m (_ & ? & _)].
    apply (inv_oc _ (wraps_same classes)); [apply Hf|]. intros k v. simpl. by rewrite lookup_empty.
Qed.

Lemma run_fops_finv ops : ∀ t w, finv t w → fops_ok ops w →
  finv (fold_left (registers FullName) ops t) (run_fops FullName ops w).
Proof.
  induction ops as [|op ops IH]; intros t w Hf; [done|].
  intros [Hop Hops]. apply IH; [by apply run_fop_finv|done].
Qed.

Lemma nothing_registered_finv capacity : finv ∅ (nothing_registered capacity).
Proof.
  split; simpl; [apply no_objects_inv|done|..].
  - intros rv n sv. by rewrite lookup_empty.
  - intros rv. rewrite lookup_empty. by intros [].
  - exists ∅. split_and!; [done|intros *; by rewrite lookup_empty..].
Qed.

(** C25: a message type is found by its fingerprint.  After any history of registering
    message types (with stores that fail among them), wrapping definitions, dropping
    references that are not the registry's own and resizing or emptying the object
    cache, [PerlUpb_MessageDef_FindByFingerprint] on any 64-bit number answers the
    message type last registered with that fingerprint, NULL if there is none, and
    never croaks: the keys of 64-bit numbers are whole and distinct in both buffers, and
    the registered wrappers stay alive. *)
Theorem fingerprint_finds_last capacity ops fp :
  fops_ok ops (nothing_registered capacity) → 0 ≤ fp < 2 ^ 64 →
  let w := run_fops FullName ops (nothing_registered capacity) in
  FindByFingerprint derived fp w = (Ret (default 0 (last_registered FullName ops !! fp)), w).
Proof.
  intros Hops Hfp w.
  assert (finv (last_registered FullName ops) w) as Hf
    by (apply run_fops_finv; [apply nothing_registered_finv|done]).
  unfold FindByFingerprint. rewrite (cbind_ret _ _ w w w), (f_clean _ _ Hf) by done.
  rewrite fingerprint_key_exact by (done || lia). destruct (f_table _ _ Hf) as (table & -> & H1 & H2).
  change (default ∅ (Some table)) with table.
  destruct (table !! decimal fp) as [rv|] eqn:E.
  - destruct (H1 _ _ E) as (fp' & m & n & o & ->%decimal_inj & _ & -> & _ & Hs & Hw & Hm & Hk).
    cbn [mbind option_bind]. rewrite Hs.
    assert (on_perl (MessageDef_GetMessage derived (Some (PRef o))) w = (Ret m, w)) as E'.
    { unfold on_perl, MessageDef_GetMessage, GetDef.
      rewrite (unwrap derived classes _ _ m); [by destruct w|done..|by rewrite Hk]. }
    exact E'.
  - destruct (last_registered FullName ops !! fp) as [m|] eqn:El; [|done].
    destruct (H2 _ _ El) as [? E']. congruence.
Qed.
End Registry.

(** *** Instances *)

(** Messages at 16 and 32 (the same name in two pools) and 48; a field at 64. *)
Definition some_names (m : Z) : bytes := if m =? 48 then str "a.C" else str "a.B".
Definition some_kinds (ptr : Z) : dkind := if ptr =? 64 then DField else DMessage.
Definition some_fops : list fop :=
  [FRegister 16 true; FWrap DField 64; FRegister 48 true; FWrap DMessage 48; FDrop 3; FSetCapacity 1;
   FRegister 48 false; FClear; FRegister 16 true].

(** The published values of FNV-1a. *)
Example fnv_1a_values :
  GetFingerprint (λ _, []) 1 = 0xcbf29ce484222325 ∧ GetFingerprint (λ _, str "a") 1 = 0xaf63dc4c8601ec8c ∧
  GetFingerprint (λ _, str "foobar") 1 = 0x85944171f73967e8.
Proof. by vm_compute. Qed.

Lemma fingerprint_finds_last_witness :
  let fp := GetFingerprint some_names 48 in
  let w := run_fops some_names some_fops (nothing_registered 8) in
  FindByFingerprint same_class fp w = (Ret (default 0 (last_registered some_names some_fops !! fp)), w).
Proof.
  apply (fingerprint_finds_last same_class some_names some_kinds eq_refl 8 some_fops).
  - unfold some_fops. cbn [fops_ok fop_ok].
    do 4 (split; [by right|]). split; [|split; [exact I|split; [by right|split; [exact I|split; [by right|exact I]]]]].
    intros ob Hob. left. vm_compute in Hob. injection Hob as <-. apply Nat.le_refl.
  - apply GetFingerprint_range.
Defined.

(** Two pools with a message of the same name: the second registration hides the
    first. *)
Example same_name_hides :
  let w := run_fops some_names [FRegister 16 true; FRegister 32 true] (nothing_registered 8) in
  (FindByFingerprint same_class (GetFingerprint some_names 16) w).1 = Ret 32.
Proof. by vm_compute. Qed.

(** Each registration takes one reference more than the table owns: the first one is
    left with a count that nobody gives up. *)
Example registration_leaks :
  let w := run_fops some_names [FRegister 16 true; FRegister 16 true] (nothing_registered 8) in
  default ∅ (descriptor_fingerprints w) !! fingerprint_key 32 (GetFingerprint some_names 16) = Some 2 ∧
  scalars w !! 1 = Some (1%nat, PRef 1).
Proof. by vm_compute. Qed.
