(* ===== verification/DescriptorApi.v ===== *)
(** * The Perl interface of descriptors (lib/Protobuf/Descriptor/*.xs.part, xs/descriptor/*.c)

    The accessors that answer what upb knows of a definition, one at a time or by index,
    and the walk Perl makes over a file with them.  upb's definitions are a parameter: how
    many of each sort a definition has, and which. *)

From S2P Require Import Prelude PerlNumbers Convert Wrappers Descriptors.
From S2P Require ObjCache.

(** ** Accessors of C (field.c, enum_value.c, service.c, method.c)

    NULL is 0; [None] is a NULL string. *)
Section Facts.
Context (upb_Label : Z → Z) (upb_IsExtension upb_IsPacked upb_IsRequired : Z → bool).
Context (upb_Name upb_FullName : Z → bytes) (upb_Number upb_Index : Z → Z).
Context (upb_MethodCount upb_File : Z → Z) (upb_Method : Z → Z → Z) (upb_FindMethodByName : Z → bytes → Z).

Definition FieldDef_Label (f : Z) : Z := if f =? 0 then 0 else upb_Label f.
Definition FieldDef_IsExtension (f : Z) : bool := if f =? 0 then false else upb_IsExtension f.
Definition FieldDef_IsPacked (f : Z) : bool := if f =? 0 then false else upb_IsPacked f.

(** No test for NULL in these. *)
Definition EnumValueDef_Name (ev : Z) : bytes := upb_Name ev.
Definition EnumValueDef_Number (ev : Z) : Z := i32 (upb_Number ev).
Definition EnumValueDef_Index (ev : Z) : Z := i32 (upb_Index ev).
Definition ServiceDef_FullName (s : Z) : bytes := upb_FullName s.
Definition ServiceDef_Name (s : Z) : bytes := upb_Name s.
Definition ServiceDef_Index (s : Z) : Z := i32 (upb_Index s).
Definition ServiceDef_MethodCount (s : Z) : Z := i32 (upb_MethodCount s).
Definition ServiceDef_Method (s i : Z) : Z := upb_Method s i.
Definition ServiceDef_FindMethodByName (s : Z) (name : bytes) : Z := upb_FindMethodByName s name.
Definition ServiceDef_File (s : Z) : Z := upb_File s.

Context (upb_InputType upb_OutputType upb_Service : Z → Z) (upb_ClientStreaming upb_ServerStreaming : Z → bool).
Definition MethodDef_FullName (m : Z) : bytes := upb_FullName m.
Definition MethodDef_Name (m : Z) : bytes := upb_Name m.
Definition MethodDef_Index (m : Z) : Z := i32 (upb_Index m).
Definition MethodDef_InputType (m : Z) : Z := upb_InputType m.
Definition MethodDef_OutputType (m : Z) : Z := upb_OutputType m.
Definition MethodDef_ClientStreaming (m : Z) : bool := upb_ClientStreaming m.
Definition MethodDef_ServerStreaming (m : Z) : bool := upb_ServerStreaming m.
Definition MethodDef_Service (m : Z) : Z := upb_Service m.
End Facts.

(** ** The XSUBs *)

(** The lists of definitions with an accessor by index. *)
Inductive listing :=
  | FileMessages | FileEnums | MessageFields | MessageOneofs | NestedMessages | NestedEnums
  | OneofFields | EnumValues.

Definition owner (l : listing) : dkind :=
  match l with
  | FileMessages | FileEnums => DFile
  | MessageFields | MessageOneofs | NestedMessages | NestedEnums => DMessage
  | OneofFields => DOneof
  | EnumValues => DEnum
  end.
Definition element (l : listing) : dkind :=
  match l with
  | FileMessages | NestedMessages => DMessage
  | FileEnums | NestedEnums => DEnum
  | MessageFields | OneofFields => DField
  | MessageOneofs => DOneof
  | EnumValues => DEnumValue
  end.

Section Api.
(** [sv_derived_from]; upb's definitions. *)
Context (derived : string → string → bool).
Context (count : listing → Z → Z) (item : listing → Z → Z → Z).
Context (FindFieldByNumber : Z → Z → Z) (FindOneofByName : Z → bytes → Z).
Context (fields : Z → list FieldDef) (field_ptr : Z → FieldDef → Z).

(** [XS_STR_ACCESSOR_BODY], [XS_INT_ACCESSOR_BODY], [XS_BOOL_ACCESSOR_BODY]: what to answer
    for NULL is an argument. *)
Definition xs_accessor {A} (k : dkind) (upb_func : Z → A) (default_val : A) (self : option psv) : call A :=
  ptr ← GetDef derived k self;
  mret (if ptr =? 0 then default_val else upb_func ptr).

(** [upb_..._Field(m, i)] and its like: the index must be in range. *)
Definition upb_item (l : listing) (d i : Z) : call Z :=
  if (0 <=? i) && (i <? count l d) then mret (item l d i) else cfault "index out of range".

(** [.._count]. *)
Definition xs_count (l : listing) (self : option psv) : call Z := xs_accessor (owner l) (count l) 0 self.

(** [_xs_field], [_xs_nested_message] and so on.  [index] is the C [int] they are given: the
    glue that xsubpp generates makes it of the Perl argument. *)
Definition xs_item (l : listing) (self : option psv) (index : Z) : call psv :=
  d ← GetDef derived (owner l) self;
  if negb (d =? 0) && (0 <=? index) && (index <? count l d) then
    p ← upb_item l d index;
    GetWrapper (element l) p
  else mret PUndef.

(** A definition found by the callee, or undef. *)
Definition wrap_found (k : dkind) (p : Z) : call psv := if p =? 0 then mret PUndef else GetWrapper k p.

(** [_xs_find_field_by_name]: [name] and its length. *)
Definition xs_find_field_by_name (self : option psv) (name : bytes) : call psv :=
  m ← GetDef derived DMessage self;
  if m =? 0 then mret PUndef
  else
    match FindFieldByNameWithSize (fields m) name (length name) with
    | Ret f => wrap_found DField (match f with Some f => field_ptr m f | None => 0 end)
    | Croak msg => ccroak msg
    | Fault why => cfault why
    end.

Definition xs_find_field_by_number (self : option psv) (number : Z) : call psv :=
  m ← GetDef derived DMessage self;
  wrap_found DField (if m =? 0 then 0 else FindFieldByNumber m (i32 number)).

Definition xs_find_oneof_by_name (self : option psv) (name : bytes) : call psv :=
  m ← GetDef derived DMessage self;
  wrap_found DOneof (if m =? 0 then 0 else FindOneofByName m name).

(** ** The walk of the class generator

    [for my $i (0 .. $count - 1)] over the messages of a file, and of each message. *)
Fixpoint each_item (visit : psv → call (list psv)) (l : listing) (self : psv) (n : nat) (i : Z) : call (list psv) :=
  match n with
  | O => mret []
  | S n =>
      sub ← xs_item l (Some self) i;
      found ← visit sub;
      rest ← each_item visit l self n (i + 1);
      mret (found ++ rest)
  end.

Fixpoint walk_message (fuel : nat) (self : psv) : call (list psv) :=
  match fuel with
  | O => cfault "out of fuel"
  | S fuel =>
      n ← xs_count NestedMessages (Some self);
      rest ← each_item (walk_message fuel) NestedMessages self (Z.to_nat n) 0;
      mret (self :: rest)
  end.

Definition walk_file (fuel : nat) (self : psv) : call (list psv) :=
  n ← xs_count FileMessages (Some self);
  each_item (walk_message fuel) FileMessages self (Z.to_nat n) 0.

(** ** Every index is safe *)

Context (kind : Z → string).
Context (derived_refl : ∀ c, derived c c = true).

Definition held (w : world) (k : dkind) (o p : Z) : Prop := wrapper_of kind w o p ∧ p ≠ 0 ∧ kind p = class_name k.

Lemma held_extends w w' k o p : extends w w' → held w k o p → held w' k o p.
Proof.
  intros [Hx _] [(ob & Ho & Hw) Hk]. split; [|done]. destruct (Hx o ob Ho) as [n Hn].
  by exists (with_refcnt ob n).
Qed.

Lemma GetDef_held w k o p : held w k o p → GetDef derived k (Some (PRef o)) w = (Ret p, w).
Proof. intros (Hw & Hp & Hk). apply (unwrap derived kind w o p); [done|done|]. by rewrite Hk, derived_refl. Qed.

Lemma GetWrapper_held w k p : inv kind w → p ≠ 0 → kind p = class_name k →
  ∃ o w', GetWrapper k p w = (Ret (PRef o), w') ∧ inv kind w' ∧ extends w w' ∧ held w' k o p.
Proof.
  intros Hi Hp Hk. unfold GetWrapper. rewrite <- Hk.
  destruct (Wrap_spec _ (wraps_same kind) w p None (kind p) 0 Hi Hp) as (o & w' & E & Hi' & Hx & Hw); [done|done|].
  exists o, w'. split_and!; [done|done|done|]. by split.
Qed.

(** The definitions of upb are of the kinds they are listed as. *)
Definition well_listed : Prop := ∀ l d i, 0 ≤ i < count l d → item l d i ≠ 0 ∧ kind (item l d i) = class_name (element l).

Lemma xs_count_held w l o d : held w (owner l) o d → xs_count l (Some (PRef o)) w = (Ret (count l d), w).
Proof.
  intros Hd. unfold xs_count, xs_accessor. rewrite (cbind_ret _ _ _ _ _ (GetDef_held _ _ _ _ Hd)).
  destruct Hd as (_ & Hd & _). by rewrite (proj2 (Z.eqb_neq d 0)).
Qed.

(** In range the accessor gives a wrapper of the definition, out of range undef. *)
Lemma xs_item_held w l o d i : well_listed → inv kind w → held w (owner l) o d →
  if decide (0 ≤ i < count l d)
  then ∃ o' w', xs_item l (Some (PRef o)) i w = (Ret (PRef o'), w') ∧ inv kind w' ∧ extends w w' ∧
    held w' (element l) o' (item l d i)
  else xs_item l (Some (PRef o)) i w = (Ret PUndef, w).
Proof.
  intros Hl Hi Hd. unfold xs_item. rewrite (cbind_ret _ _ _ _ _ (GetDef_held _ _ _ _ Hd)).
  destruct (Hd) as (_ & Hd0 & _). rewrite (proj2 (Z.eqb_neq d 0)) by done. cbn [negb andb].
  case_decide as E.
  - rewrite (proj2 (Z.leb_le _ _)), (proj2 (Z.ltb_lt _ _)) by lia. cbn [andb]. unfold upb_item.
    rewrite (proj2 (Z.leb_le _ _)), (proj2 (Z.ltb_lt _ _)) by lia. cbn [andb]. rewrite (cbind_ret (mret _) _ w _ w eq_refl).
    destruct (Hl l d i E). by apply GetWrapper_held.
  - destruct (Z.leb_spec 0 i); [|done]. rewrite (proj2 (Z.ltb_ge _ _)) by lia. done.
Qed.

(** ** Trees of messages *)

Inductive mtree := Message (d : Z) (nested : list mtree).
Definition root (t : mtree) : Z := match t with Message d _ => d end.
Fixpoint flatten (t : mtree) : list Z :=
  match t with Message d nested => d :: concat (map flatten nested) end.
Fixpoint depth (t : mtree) : nat :=
  match t with Message _ nested => S (foldr (λ t n, max (depth t) n) O nested) end.

(** [t] is how upb lists the message and what is nested in it. *)
Inductive lists : mtree → Prop :=
  | lists_message d nested :
      count NestedMessages d = Z.of_nat (length nested) →
      (∀ i t, nested !! i = Some t → item NestedMessages d (Z.of_nat i) = root t) →
      Forall lists nested → lists (Message d nested).

(** Wrappers of the definitions, in their order. *)
Definition wrap (w : world) (svs : list psv) (ds : list Z) : Prop :=
  Forall2 (λ sv d, ∃ o, sv = PRef o ∧ held w DMessage o d) svs ds.

Lemma wrap_extends w w' svs ds : extends w w' → wrap w svs ds → wrap w' svs ds.
Proof.
  intros Hx Hw. eapply Forall2_impl; [exact Hw|]. intros sv d (o & -> & Hh).
  exists o. split; [done|]. by eapply held_extends.
Qed.

Definition walks (visit : psv → call (list psv)) (t : mtree) : Prop := ∀ w o, inv kind w → held w DMessage o (root t) →
  ∃ svs w', visit (PRef o) w = (Ret svs, w') ∧ inv kind w' ∧ extends w w' ∧ wrap w' svs (flatten t).

Lemma each_item_walks visit l o d ts : well_listed → element l = DMessage → ∀ n i w, inv kind w → held w (owner l) o d →
  Forall (walks visit) ts → (∀ j t, ts !! j = Some t → item l d (i + Z.of_nat j) = root t) →
  n = length ts → 0 ≤ i → i + Z.of_nat n ≤ count l d →
  ∃ svs w', each_item visit l (PRef o) n i w = (Ret svs, w') ∧ inv kind w' ∧ extends w w' ∧
    wrap w' svs (concat (map flatten ts)).
Proof.
  intros Hl El. induction ts as [|t ts IH]; intros n i w Hi Hd Hts Hit -> Hi0 Hn.
  { exists [], w. split_and!; [done|done|by apply extends_objects|constructor]. }
  apply Forall_cons in Hts as [Ht Hts]. cbn [each_item length] in *.
  pose proof (xs_item_held w l o d i Hl Hi Hd) as H. rewrite decide_True in H by lia.
  destruct H as (o1 & w1 & E1 & Hi1 & Hx1 & Hh1). rewrite (cbind_ret _ _ _ _ _ E1).
  pose proof (Hit 0%nat t eq_refl) as Er. rewrite Z.add_0_r in Er. rewrite El, Er in Hh1.
  destruct (Ht w1 o1 Hi1 Hh1) as (s2 & w2 & E2 & Hi2 & Hx2 & Hw2). rewrite (cbind_ret _ _ _ _ _ E2).
  assert (extends w w2) as Hx12 by by eapply extends_trans.
  destruct (IH (length ts) (i + 1) w2) as (s3 & w3 & E3 & Hi3 & Hx3 & Hw3).
  - done.
  - by eapply held_extends.
  - done.
  - intros j t' Ej. replace (i + 1 + Z.of_nat j) with (i + Z.of_nat (S j)) by lia. by apply Hit.
  - done.
  - lia.
  - lia.
  - rewrite (cbind_ret _ _ _ _ _ E3). exists (s2 ++ s3), w3. split_and!; [done|done|by eapply extends_trans|].
    cbn [map concat]. apply Forall2_app; [by eapply wrap_extends|done].
Qed.

Lemma walk_message_walks : well_listed → ∀ fuel t, lists t → (depth t ≤ fuel)%nat → walks (walk_message fuel) t.
Proof.
  intros Hl. induction fuel as [|fuel IH]; intros t Ht Hf; inversion Ht as [d nested Hc Hit Hn]; subst t; [simpl in Hf; lia|].
  intros w o Hi Hd. cbn [walk_message]. rewrite (cbind_ret _ _ _ _ _ (xs_count_held w NestedMessages o d Hd)).
  destruct (each_item_walks (walk_message fuel) NestedMessages o d nested Hl eq_refl (Z.to_nat (count NestedMessages d)) 0 w Hi Hd)
    as (svs & w' & E & Hi' & Hx & Hw); [|done|lia|lia|lia|].
  - apply Forall_forall. intros t Hin. apply IH; [by eapply Forall_forall|].
    cbn [depth] in Hf. clear - Hf Hin. induction nested as [|u l IH]; [by apply not_elem_of_nil in Hin|].
    simpl in Hf. apply elem_of_cons in Hin as [->|Hin]; [lia|]. apply IH; [simpl; lia|done].
  - rewrite (cbind_ret _ _ _ _ _ E). exists (PRef o :: svs), w'. split_and!; [done|done|done|].
    constructor; [|done]. exists o. split; [done|]. by eapply held_extends.
Qed.

(** C33: Perl sees every message type of a file, and the right one.  Any index given to an
    accessor of a live descriptor is safe: in range it answers a wrapper of that
    definition, else undef, and upb is never asked out of range.  The class generator's
    walk over a file, by counts and indices, with the object cache of any size dropping
    and making wrappers on the way, ends and gives one wrapper for each message, nested
    ones after the one they are in, each of which unwraps to upb's definition. *)
Theorem walk_file_complete w o file ts fuel :
  well_listed → inv kind w → held w DFile o file →
  count FileMessages file = Z.of_nat (length ts) →
  (∀ i t, ts !! i = Some t → item FileMessages file (Z.of_nat i) = root t) →
  Forall lists ts → Forall (λ t, (depth t ≤ fuel)%nat) ts →
  (∀ l o' d i, held w (owner l) o' d → safe (xs_item l (Some (PRef o')) i w).1) ∧
  ∃ svs w', walk_file fuel (PRef o) w = (Ret svs, w') ∧ inv kind w' ∧
    Forall2 (λ sv d, GetDef derived DMessage (Some sv) w' = (Ret d, w')) svs (concat (map flatten ts)).
Proof.
  intros Hl Hi Ho Hc Hit Hts Hfuel. split.
  - intros l o' d i Hd. pose proof (xs_item_held w l o' d i Hl Hi Hd) as H. case_decide.
    + by destruct H as (o1 & w1 & -> & _).
    + by rewrite H.
  - unfold walk_file. rewrite (cbind_ret _ _ _ _ _ (xs_count_held w FileMessages o file Ho)).
    destruct (each_item_walks (walk_message fuel) FileMessages o file ts Hl eq_refl (Z.to_nat (count FileMessages file)) 0 w Hi Ho)
      as (svs & w' & E & Hi' & Hx & Hw); [|done|lia|lia|lia|].
    + apply Forall_forall. intros t Hin. rewrite Forall_forall in Hts, Hfuel. apply walk_message_walks; auto.
    + exists svs, w'. split_and!; [done|done|]. eapply Forall2_impl; [exact Hw|].
      intros sv d (o' & -> & Hh). by apply GetDef_held.
Qed.
End Api.

(** A file at 16 with a message at 32, in which one at 48 is nested, and a cache of one. *)
Definition small_count (l : listing) (d : Z) : Z :=
  match l with
  | FileMessages => if d =? 16 then 1 else 0
  | NestedMessages => if d =? 32 then 1 else 0
  | _ => 0
  end.
Definition small_item (l : listing) (d i : Z) : Z :=
  match l with FileMessages => 32 | _ => 48 end.
Definition small_kind (p : Z) : string := class_name (if p =? 16 then DFile else DMessage).
Definition small_world : world := (GetWrapper DFile 16 (no_objects 1)).2.

Lemma walk_file_complete_witness : ∃ svs w',
  walk_file same_class small_count small_item 2 (PRef 1) small_world = (Ret svs, w') ∧
  Forall2 (λ sv d, GetDef same_class DMessage (Some sv) w' = (Ret d, w')) svs [32; 48].
Proof.
  assert (inv small_kind small_world) as Hi.
  { by destruct (GetWrapper_held small_kind (no_objects 1) DFile 16) as (o & w' & E & Hi & _);
      [apply no_objects_inv|..|unfold small_world; rewrite E]. }
  destruct (walk_file_complete same_class small_count small_item small_kind (λ c, bool_decide_eq_true_2 _ eq_refl)
    small_world 1 16 [Message 32 [Message 48 []]] 2) as (_ & svs & w' & E & _ & Hw).
  - intros [] d i Hd; simpl in Hd; (lia || (repeat case_match; done || lia)).
  - done.
  - split; [|done]. eexists. split; [by vm_compute|]. split_and!; [done|eauto|eauto].
  - done.
  - intros [|i] t Et; simpl in Et; [|done]. by injection Et as <-.
  - repeat constructor. intros [|i] t Et; simpl in Et; [|done]. by injection Et as <-.
    all: done || (by intros [|i] t Et).
  - repeat constructor; simpl; lia.
  - by exists svs, w'.
Defined.
