(* ===== verification/Messages.v ===== *)
(** * Message objects (xs/protobuf/message.c, xs/message/message.c)

    The C messages with the arenas they live in, and the Perl objects that stand for
    them: creating, wrapping, unwrapping and freeing.  Who holds references to an arena,
    and so how long its messages live. *)

From S2P Require Import Prelude Wrappers.
From S2P Require ObjCache Descriptors.

(** ** State *)

(** The entries of [aux_data]: a freed slot, unknown bytes, an extension with the address
    of its definition. *)
Inductive aux_entry (V : Type) := AuxNull | AuxUnknown (data : bytes) | AuxExt (f : Z) (v : V).
Arguments AuxNull {_}.
Arguments AuxUnknown {_} _.
Arguments AuxExt {_} _ _.

(** A C message: the Perl object of its arena, its type, its fields by number, and its
    unknown fields and extensions. *)
Record cmsg (V : Type) := { arena_obj : Z; mtype : Z; base : gmap Z V; aux : list (aux_entry V) }.
Arguments arena_obj {_} _.
Arguments mtype {_} _.
Arguments base {_} _.
Arguments aux {_} _.

(** The Perl objects, the ["_mdef_ptr"] entry of their hashes, and the C messages by
    address. *)
Record mworld (V : Type) := { perl : world; mdef_ptrs : gmap Z Z; store : gmap Z (cmsg V) }.
Arguments perl {_} _.
Arguments mdef_ptrs {_} _.
Arguments store {_} _.
Arguments Build_mworld {_} _ _ _.

Section Messages.
Context {V : Type}.
Notation mcall := (cmd (mworld V)).

Definition on_perl {A} (m : call A) : mcall A := λ w,
  let '(out, p) := m (perl w) in (out, Build_mworld p (mdef_ptrs w) (store w)).
Definition set_mdef_ptrs (m : gmap Z Z) (w : mworld V) : mworld V := Build_mworld (perl w) m (store w).
Definition set_store (m : gmap Z (cmsg V)) (w : mworld V) : mworld V := Build_mworld (perl w) (mdef_ptrs w) m.

(** Memory of a message: gone with the arena's object, whose [DESTROY] frees the arena. *)
Definition live_msg (w : mworld V) (ptr : Z) : option (cmsg V) :=
  match store w !! ptr with
  | Some m => if bool_decide (is_Some (objects (perl w) !! arena_obj m)) then Some m else None
  | None => None
  end.

Definition read_msg (ptr : Z) : mcall (cmsg V) := λ w,
  match live_msg w ptr with
  | Some m => (Ret m, w)
  | None => (Fault "freed message", w)
  end.

Definition write_msg (ptr : Z) (m : cmsg V) : mcall unit := cmodify (λ w, set_store (<[ptr := m]> (store w)) w).

Definition SvREFCNT_dec (o : Z) : mcall unit :=
  on_perl (cmodify (λ w, REFCNT_dec (S (size (objects w))) o w)).

(** ** protobuf/message.c *)

(** [sv_derived_from] on class names, and the class [PerlUpb_GetMessageStash] gives a
    message type. *)
Context (derived : string → string → bool) (message_stash : Z → string).

Definition message_class : string := "Protobuf::Message".

Definition wrap_message_internal (msg mdef : Z) (arena_sv : option psv) (flags : Z) : mcall psv :=
  self ← on_perl (WrapArenaBoundObject msg arena_sv (message_stash mdef) flags);
  match self with
  | PRef o => cmodify (λ w, set_mdef_ptrs (<[o := mdef]> (mdef_ptrs w)) w);; mret self
  | _ => cfault "SvRV of undef"
  end.

(** [PerlUpb_ObjCache_Get], with the reference it answers. *)
Definition ObjCache_Get_sv (ptr : Z) : call (option Z) :=
  w ← cget;
  let '(cached, c) := ObjCache.ObjCache_Get (oc w) ptr in
  cput (set_oc c w);;
  match cached with
  | Some o => REFCNT_inc o;; mret (Some o)
  | None => mret None
  end.

Definition WrapMessage (msg mdef : Z) (arena_sv : option psv) (flags : Z) : mcall psv :=
  if msg =? 0 then mret PUndef
  else
    cached ← on_perl (ObjCache_Get_sv msg);
    match cached with
    | Some o => mret (PRef o)
    | None => wrap_message_internal msg mdef arena_sv flags
    end.

Definition WrapMessage_NoCache (msg mdef : Z) (arena_sv : option psv) (flags : Z) : mcall psv :=
  if msg =? 0 then mret PUndef else wrap_message_internal msg mdef arena_sv flags.

Definition MaybeGetMessage (msg : Z) : mcall (option Z) :=
  if msg =? 0 then mret None else on_perl (ObjCache_Get_sv msg).

Definition Message_GetMsg (sv : option psv) : mcall Z := on_perl (GetArenaBoundObject derived sv (Some message_class)).

(** [PerlUpb_Message_Free]. *)
Definition Message_Free (dirty : bool) (sv : option psv) : mcall unit :=
  if dirty then mret tt
  else
    msg ← Message_GetMsg sv;
    if msg =? 0 then mret tt
    else on_perl (cmodify (λ w, set_oc (ObjCache.ObjCache_Delete (oc w) msg) w)).

(** 0 for NULL.  The entry is read without a test for a hash. *)
Definition Message_GetDef (sv : option psv) : mcall Z :=
  match sv with
  | Some (PRef o) =>
      ob ← on_perl (SvRV o);
      match contents ob with
      | HV _ _ _ => w ← cget; mret (default 0 (mdef_ptrs w !! o))
      | NotHV _ => cfault "hv_fetch on another type"
      end
  | _ => mret 0
  end.

Definition Message_GetArena (sv : option psv) : mcall (option psv) := on_perl (GetArenaFromObject sv).

(** [sprintf(buf, "%p", msg)], of which only the address matters; [None] is undef. *)
Definition Message_GetFingerprint (sv : option psv) : mcall (option Z) :=
  msg ← Message_GetMsg sv;
  mret (if msg =? 0 then None else Some msg).

(** ** message/message.c *)

Definition arena_class : string := "Protobuf::Arena".
Definition arena_object : object :=
  {| refcnt := 1; stash := Some arena_class; contents := HV None None None; ext_magic := None |}.

Definition empty_msg (arena mdef : Z) : cmsg V := {| arena_obj := arena; mtype := mdef; base := ∅; aux := [] |}.

(** [upb_Message_New(mt, arena)]: [made], 0 if memory is out. *)
Definition upb_Message_New (arena mdef made : Z) : mcall Z :=
  if made =? 0 then mret 0 else write_msg made (empty_msg arena mdef);; mret made.

(** From the message type on. *)
Definition new_message (mdef : Z) (has_minitable : bool) (made flags : Z) : mcall psv :=
  arena ← on_perl (new_object arena_object);
  if negb has_minitable then SvREFCNT_dec arena;; ccroak "Failed to get MiniTable for message"
  else
    msg ← upb_Message_New arena mdef made;
    if msg =? 0 then SvREFCNT_dec arena;; ccroak "Failed to allocate upb_Message"
    else
      msg_sv ← WrapMessage_NoCache msg mdef (Some (PRef arena)) flags;
      SvREFCNT_dec arena;;
      mret msg_sv.

Definition NewMessage (descriptor_sv : option psv) (has_minitable : Z → bool) (made flags : Z) : mcall psv :=
  mdef ← on_perl (Descriptors.MessageDef_GetMessage derived descriptor_sv);
  cguard (negb (mdef =? 0)) "descriptor_sv must be a Protobuf::MessageDescriptor";;
  new_message mdef (has_minitable mdef) made flags.

(** ** Histories *)

(** Perl makes a message of a type, gets a sub-message of the message behind the object [parent]
    (made in the same arena), unregisters an object, drops a reference it holds, resizes
    or empties the cache. *)
Inductive mop :=
  | MNew (mdef : Z) (has_minitable : bool) (made flags : Z)
  | MSub (parent : Z) (mdef made : Z)
  | MWrap (parent : Z) (msg : Z)
  | MFree (o : Z)
  | MDrop (o : Z)
  | MSetCapacity (capacity : Z)
  | MClear.

Definition run_mop (op : mop) : mcall psv :=
  match op with
  | MNew mdef mt made flags => new_message mdef mt made flags
  | MSub parent mdef made =>
      arena_sv ← Message_GetArena (Some (PRef parent));
      match arena_sv with
      | Some (PRef a) => upb_Message_New a mdef made;; mret PUndef
      | _ => mret PUndef
      end
  | MWrap parent msg =>
      w ← cget;
      arena_sv ← Message_GetArena (Some (PRef parent));
      WrapMessage msg (default 0 (mtype <$> store w !! msg)) arena_sv 0
  | MFree o => Message_Free false (Some (PRef o));; mret PUndef
  | MDrop o => SvREFCNT_dec o;; mret PUndef
  | MSetCapacity n =>
      on_perl (cmodify (λ w, set_oc (ObjCache.ObjCache_SetCapacity (oc w) n) w));; mret PUndef
  | MClear => on_perl (cmodify (λ w, set_oc (ObjCache.ObjCache_Clear false (oc w)) w));; mret PUndef
  end.

(** The references Perl holds, which the calls' answers add to and [MDrop] takes away. *)
Definition give (own : Z → nat) (o : Z) : Z → nat := λ x, if decide (x = o) then S (own x) else own x.
Definition take_back (own : Z → nat) (o : Z) : Z → nat := λ x, if decide (x = o) then Nat.pred (own x) else own x.

Definition owned_after (own : Z → nat) (op : mop) (out : outcome psv) : Z → nat :=
  match op, out with
  | MDrop o, _ => take_back own o
  | _, Ret (PRef o) => give own o
  | _, _ => own
  end.

Fixpoint run_mops (ops : list mop) (own : Z → nat) (w : mworld V) : (Z → nat) * mworld V :=
  match ops with
  | [] => (own, w)
  | op :: ops =>
      let '(out, w) := run_mop op w in run_mops ops (owned_after own op out) w
  end.

Definition no_messages (capacity : Z) : mworld V := Build_mworld (no_objects capacity) ∅ ∅.
End Messages.

(** ** Reference counts

    [own]: the references held by Perl code; the others are held by the wrappers, each
    for its arena. *)

Definition arena_of (ob : object) : option Z :=
  match contents ob with HV _ (Some (PRef a)) _ => Some a | _ => None end.

Definition holders (m : gmap Z object) (a : Z) : nat := size (filter (λ p, arena_of p.2 = Some a) m).

Lemma msg_holders_insert m o ob a : m !! o = None →
  holders (<[o := ob]> m) a = ((if decide (arena_of ob = Some a) then 1 else 0) + holders m a)%nat.
Proof.
  intros Ho. unfold holders. case_decide as E.
  - rewrite map_filter_insert_True by done. rewrite map_size_insert_None; [done|].
    apply map_lookup_filter_None. by left.
  - rewrite map_filter_insert_False by done. by rewrite delete_id.
Qed.

Lemma msg_holders_delete m o ob a : m !! o = Some ob →
  holders m a = ((if decide (arena_of ob = Some a) then 1 else 0) + holders (delete o m) a)%nat.
Proof.
  intros Ho. rewrite <- (msg_holders_insert _ o) by apply lookup_delete_eq. by rewrite insert_delete_id.
Qed.

Lemma holders_refcnt m o ob n a : m !! o = Some ob → holders (<[o := with_refcnt ob n]> m) a = holders m a.
Proof.
  intros Ho. rewrite (msg_holders_delete m o ob a Ho), <- insert_delete_eq.
  rewrite msg_holders_insert by apply lookup_delete_eq. done.
Qed.

Record counted (own : Z → nat) (m : gmap Z object) : Prop := {
  c_refs : ∀ o ob, m !! o = Some ob → refcnt ob = (own o + holders m o)%nat ∧ (1 ≤ refcnt ob)%nat;
  c_gone : ∀ o, m !! o = None → own o = 0%nat ∧ holders m o = 0%nat }.

Lemma counted_ext own own' m : counted own m → (∀ o, own o = own' o) → counted own' m.
Proof. intros [H1 H2] E. split; intros *; rewrite <- E; [apply H1|apply H2]. Qed.

Lemma owned_alive own m o : counted own m → (1 ≤ own o)%nat → is_Some (m !! o).
Proof. intros Hc Ho. destruct (m !! o) eqn:E; [done|]. apply (c_gone _ _ Hc) in E. lia. Qed.

Lemma held_alive own m o ob a : counted own m → m !! o = Some ob → arena_of ob = Some a → is_Some (m !! a).
Proof.
  intros Hc Ho Ha. destruct (m !! a) eqn:E; [done|]. apply (c_gone _ _ Hc) in E as [_ E].
  rewrite (msg_holders_delete _ _ _ _ Ho), decide_True in E by done. done.
Qed.

Lemma counted_inc own m o ob : counted own m → m !! o = Some ob →
  counted (give own o) (<[o := with_refcnt ob (S (refcnt ob))]> m).
Proof.
  intros [Hr Hg] Ho. unfold give. split; intros x.
  - intros ob'. rewrite holders_refcnt by done. rewrite lookup_insert. repeat case_decide; simplify_eq.
    + intros [= <-]. simpl. destruct (Hr _ _ Ho). lia.
    + apply Hr.
  - rewrite holders_refcnt by done. rewrite lookup_insert. destruct (decide (o = x)) as [->|]; [done|].
    rewrite decide_False by done. apply Hg.
Qed.

(** A new object, which takes over the reference to its arena. *)
Lemma counted_new own m o ob : m !! o = None → refcnt ob = 1%nat → arena_of ob ≠ Some o →
  counted (match arena_of ob with Some a => give own a | None => own end) m →
  counted (give own o) (<[o := ob]> m).
Proof.
  intros Ho Hn Hs Hc.
  assert (∀ x, holders (<[o := ob]> m) x = ((if decide (arena_of ob = Some x) then 1 else 0) + holders m x)%nat)
    as Hh by (intros; by apply msg_holders_insert).
  assert (own o = 0%nat ∧ holders m o = 0%nat) as [Eo Eh].
  { destruct (c_gone _ _ Hc o Ho) as [E ?]. split; [|done]. destruct (arena_of ob) as [a|]; [|done].
    unfold give in E. case_decide; [done|done]. }
  destruct Hc as [Hr Hg]. split; intros x; unfold give in *.
  - intros ob'. rewrite lookup_insert, Hh. destruct (decide (o = x)) as [->|Hne].
    + intros [= <-]. rewrite !decide_True by done. rewrite decide_False by done. lia.
    + intros Hx. rewrite (decide_False (P := x = o)) by done. specialize (Hr _ _ Hx).
      destruct (arena_of ob) as [a|]; repeat case_decide; simplify_eq; lia.
  - rewrite lookup_insert, Hh. destruct (decide (o = x)) as [|Hne]; [done|]. intros Hx.
    rewrite (decide_False (P := x = o)) by done. specialize (Hg _ Hx).
    destruct (arena_of ob) as [a|]; repeat case_decide; simplify_eq; lia.
Qed.

(** Giving a reference back: the counts stay right, whatever dies. *)
Lemma counted_dec fuel : ∀ own o w, counted own (objects w) → (1 ≤ own o)%nat → (size (objects w) < fuel)%nat →
  counted (take_back own o) (objects (REFCNT_dec fuel o w)).
Proof.
  induction fuel as [|fuel IH]; intros own o w Hc Ho Hf; [lia|].
  destruct (owned_alive _ _ _ Hc Ho) as [ob Hob]. cbn [REFCNT_dec]. rewrite Hob.
  destruct (c_refs _ _ Hc _ _ Hob) as [Hn H1].
  set (w1 := wrapper_cleanup false ob _). set (w2 := set_objects (delete o (objects w1)) w1).
  assert (objects w2 = delete o (objects w)) as E2.
  { unfold w2, w1, wrapper_cleanup. by destruct (ext_magic ob) as [[]|]. }
  destruct (refcnt ob) as [|[|n]] eqn:En; [lia| |].
  - assert (own o = 1%nat ∧ holders (objects w) o = 0%nat) as [Eo Eh] by lia.
    assert (∀ x, holders (objects w) x = ((if decide (arena_of ob = Some x) then 1 else 0) +
      holders (objects w2) x)%nat) as Hh by (intros; rewrite E2; by apply msg_holders_delete).
    assert (counted (match arena_of ob with Some a => give (take_back own o) a | None => take_back own o end)
      (objects w2)) as Hc2.
    { destruct Hc as [Hr Hg]. unfold give, take_back. split; intros x.
      - intros ob' Hx. rewrite E2, lookup_delete_Some in Hx. destruct Hx as [Hne Hx].
        specialize (Hr _ _ Hx). specialize (Hh x).
        destruct (arena_of ob) as [a|]; repeat case_decide; simplify_eq; lia.
      - rewrite E2. intros Hx. specialize (Hh x). rewrite E2 in Hh.
        destruct (decide (x = o)) as [->|Hne].
        + destruct (arena_of ob) as [a|]; repeat case_decide; simplify_eq; lia.
        + rewrite lookup_delete_ne in Hx by done. specialize (Hg _ Hx).
          destruct (arena_of ob) as [a|]; repeat case_decide; simplify_eq; lia. }
    assert (size (objects w2) < fuel)%nat as Hf2.
    { rewrite E2, map_size_delete_Some by done. assert (0 < size (objects w))%nat; [|lia].
      apply Nat.neq_0_lt_0. intros E%map_size_empty_iff. by rewrite E, lookup_empty in Hob. }
    unfold arena_of in Hc2. destruct (contents ob) as [up [[| |a]|] pool|ty]; try done.
    eapply counted_ext; [apply IH; [exact Hc2| |done]|].
    + unfold give. rewrite decide_True by done. lia.
    + intros x. unfold take_back, give. repeat case_decide; simplify_eq; lia.
  - cbn [objects set_objects].
    destruct Hc as [Hr Hg]. unfold take_back. split; intros x.
    + intros ob'. rewrite holders_refcnt by done. rewrite lookup_insert. destruct (decide (o = x)) as [->|Hne].
      * intros [= <-]. rewrite decide_True by done. simpl. lia.
      * intros Hx. rewrite decide_False by done. by apply Hr.
    + rewrite holders_refcnt by done. rewrite lookup_insert. destruct (decide (o = x)); [done|]. intros Hx.
      rewrite decide_False by done. by apply Hg.
Qed.

(** With nothing held by Perl, nothing is left. *)
Lemma counted_empty own m : counted own m → (∀ o, own o = 0%nat) → (∀ o ob, m !! o = Some ob →
  arena_of ob = None ∨ ∀ x xb, m !! x = Some xb → arena_of xb ≠ Some o) → m = ∅.
Proof.
  intros [Hr Hg] Hown Hflat.
  assert (∀ o ob, m !! o = Some ob → ∃ x xb, m !! x = Some xb ∧ arena_of xb = Some o) as Hheld.
  { intros o ob Ho. destruct (Hr _ _ Ho) as [Hn H1]. rewrite Hown in Hn.
    destruct (decide (filter (λ p, arena_of p.2 = Some o) m = ∅)) as [E|E].
    - unfold holders in Hn. rewrite E, map_size_empty in Hn. lia.
    - apply map_choose in E as (x & xb & [Hx Ha]%map_lookup_filter_Some). eauto. }
  apply map_empty. intros o. destruct (m !! o) as [ob|] eqn:Ho; [|done]. exfalso.
  destruct (Hheld _ _ Ho) as (x & xb & Hx & Ha). destruct (Hflat _ _ Hx) as [|Hn]; [congruence|].
  destruct (Hheld _ _ Hx) as (y & yb & Hy & Hya). by eapply Hn.
Qed.

Lemma REFCNT_dec_next fuel : ∀ o w, next_object (REFCNT_dec fuel o w) = next_object w.
Proof.
  induction fuel as [|fuel IH]; intros o w; cbn [REFCNT_dec]; [done|].
  destruct (objects w !! o) as [ob|]; [|done].
  set (w1 := wrapper_cleanup false ob _). set (w2 := set_objects (delete o (objects w1)) w1).
  assert (next_object w2 = next_object w) as E
    by (unfold w2, w1, wrapper_cleanup; by destruct (ext_magic ob) as [[]|]).
  destruct (refcnt ob) as [|[|n]];
    [destruct (contents ob) as [? [[| |a]|] ?|]|destruct (contents ob) as [? [[| |a]|] ?|]|]; rewrite ?IH; done.
Qed.

Section Lifetimes.
Context {V : Type}.
Context (derived : string → string → bool) (message_stash : Z → string).
Notation mworld := (mworld V).

(** An object of a message at [p]: of the class of its type [t], or blessed into another
    message class; its magic has the pointer, unless it was taken out ([_xs_detach]). *)
Definition stands_for (t : Z) (ob : object) (p : Z) : Prop :=
  (stash ob = Some (message_stash t) ∨ ∃ c, stash ob = Some c ∧ derived c message_class = true) ∧
  (∃ arena pool, contents ob = HV (Some (SIV p)) arena pool) ∧
  ∃ q flags, ext_magic ob = Some (q, flags) ∧ (q = p ∨ q = 0).

(** An object behind which there is a message: the message is there, in the arena the
    object holds, of the type the object says. *)
Definition wrapper_ok (w : mworld) (o : Z) (ob : object) (p : Z) : Prop :=
  ∃ m, store w !! p = Some m ∧ p ≠ 0 ∧ stands_for (mtype m) ob p ∧
    arena_of ob = Some (arena_obj m) ∧ mdef_ptrs w !! o = Some (mtype m) ∧
    ∃ ab, objects (perl w) !! arena_obj m = Some ab ∧ arena_of ab = None.

Definition arena_like (ob : object) : Prop := contents ob = HV None None None ∧ ext_magic ob = None ∧ stash ob = Some arena_class.

Definition magic_of (ob : object) (ptr : Z) : Prop := ∃ flags, ext_magic ob = Some (ptr, flags).

Record minv (own : Z → nat) (w : mworld) : Prop := {
  m_counts : counted own (objects (perl w));
  m_cache : cache_inv magic_of (perl w);
  m_shape : ∀ o ob, objects (perl w) !! o = Some ob → arena_like ob ∨ ∃ p, wrapper_ok w o ob p;
  m_store : ∀ p m, store w !! p = Some m → arena_obj m < next_object (perl w) }.

Lemma magic_of_same ob ob' ptr : stash ob' = stash ob → contents ob' = contents ob →
  ext_magic ob' = ext_magic ob → magic_of ob ptr → magic_of ob' ptr.
Proof. unfold magic_of. by intros _ _ ->. Qed.

Lemma minv_ext own own' w : minv own w → (∀ o, own o = own' o) → minv own' w.
Proof. intros [H1 H2 H3 H4] E. split; [by eapply counted_ext|done..]. Qed.

Lemma arena_like_none ob : arena_like ob → arena_of ob = None.
Proof. unfold arena_of. by intros [-> _]. Qed.

(** The shape of an object does not change when counts do, when other objects come, and
    when messages are added. *)
Lemma shape_same w w' o ob n : arena_like ob ∨ (∃ p, wrapper_ok w o ob p) →
  (∀ p m, store w !! p = Some m → is_Some (objects (perl w) !! arena_obj m) → store w' !! p = Some m) →
  mdef_ptrs w' !! o = mdef_ptrs w !! o →
  (∀ a ab, arena_of ob = Some a → objects (perl w) !! a = Some ab → ∃ n', objects (perl w') !! a = Some (with_refcnt ab n')) →
  arena_like (with_refcnt ob n) ∨ ∃ p, wrapper_ok w' o (with_refcnt ob n) p.
Proof.
  intros [Ha|(p & m & Hs & Hp & Hw & Ha & Hd & ab & Hab & Hna)] Hst Hmd Hobj; [by left|right].
  exists p, m. split_and!; [by eapply Hst|done|by apply Hw|done|by rewrite Hmd|].
  destruct (Hobj _ _ Ha Hab) as [n' Hn']. eauto.
Qed.

Lemma on_perl_run {A} (m : call A) (w : mworld) out p : m (perl w) = (out, p) →
  on_perl m w = (out, Build_mworld p (mdef_ptrs w) (store w)).
Proof. intros E. unfold on_perl. by rewrite E. Qed.

(** Taking another reference to a live object. *)
Lemma inc_minv own w o : minv own w → is_Some (objects (perl w) !! o) →
  ∃ p, REFCNT_inc o (perl w) = (Ret tt, p) ∧ oc p = oc (perl w) ∧ next_object p = next_object (perl w) ∧
    (∀ k ob, objects (perl w) !! k = Some ob → ∃ n, objects p !! k = Some (with_refcnt ob n)) ∧
    minv (give own o) (Build_mworld p (mdef_ptrs w) (store w)).
Proof.
  intros [Hc Hi Hs Hst] [ob Ho]. unfold REFCNT_inc, SvRV, mbind, cmd_bind, cmodify. rewrite Ho. cbn beta iota.
  eexists. split; [done|]. split_and!; [done|done| |].
  - intros k obk Hk. simpl. rewrite lookup_insert. case_decide; [|exists (refcnt obk); by destruct obk].
    simplify_eq. eauto.
  - split; simpl; [by apply counted_inc|by apply (inv_refcnt _ magic_of_same)| |done].
    assert (∀ a ab, objects (perl w) !! a = Some ab → ∃ n',
      <[o:=with_refcnt ob (S (refcnt ob))]> (objects (perl w)) !! a = Some (with_refcnt ab n')) as Hk.
    { intros a ab Ha. rewrite lookup_insert. case_decide; [|exists (refcnt ab); by destruct ab].
      simplify_eq. eauto. }
    intros k obk. rewrite lookup_insert. case_decide as Ek.
    + intros [= <-]. subst k. eapply shape_same; [by apply (Hs o ob)|done..|]. intros. by apply Hk.
    + intros Hobk. assert (obk = with_refcnt obk (refcnt obk)) as -> by (by destruct obk).
      eapply shape_same; [by apply (Hs k obk)|done..|]. intros. by apply Hk.
Qed.

(** Giving one back. *)
Lemma dec_minv own w o : minv own w → (1 ≤ own o)%nat →
  ∃ w', SvREFCNT_dec o w = (Ret tt, w') ∧ minv (take_back own o) w' ∧ store w' = store w ∧
    mdef_ptrs w' = mdef_ptrs w.
Proof.
  intros [Hc Hi Hs Hst] Ho. eexists. split; [by apply on_perl_run|].
  set (p := REFCNT_dec (S (size (objects (perl w)))) o (perl w)). split_and!; [|done..].
  assert (counted (take_back own o) (objects p)) as Hc' by (apply counted_dec; [done|done|lia]).
  split; simpl; [done|by apply (REFCNT_dec_inv _ magic_of_same)| |intros p' m' H; unfold p; rewrite REFCNT_dec_next; eauto].
  intros k ob' Hk. destruct (REFCNT_dec_same _ _ _ _ _ Hk) as (ob & n & Hob & ->).
  eapply shape_same; [by apply (Hs k ob)|done..|]. intros a ab Ha Hab. simpl.
  destruct (held_alive _ _ _ _ _ Hc' Hk Ha) as [ab' Hab']. exists (refcnt ab').
  destruct (REFCNT_dec_same _ _ _ _ _ Hab') as (ab2 & n2 & H2 & ->). rewrite Hab' in *. simplify_eq. done.
Qed.

(** Changes of the object cache that forget. *)
Lemma oc_minv own w c : minv own w →
  (∀ k v, ObjCache.cache c !! k = Some (Some v) → ObjCache.cache (oc (perl w)) !! k = Some (Some v)) →
  minv own (Build_mworld (set_oc c (perl w)) (mdef_ptrs w) (store w)).
Proof. intros [Hc Hi Hs Hst] Hsub. split; [done|by apply (inv_oc _ magic_of_same)|done..]. Qed.

(** A new message at an address no live message has. *)
Lemma new_msg_minv own w made m : minv own w → live_msg w made = None → arena_obj m < next_object (perl w) →
  minv own (set_store (<[made := m]> (store w)) w).
Proof.
  intros [Hc Hi Hs Hst] Hf Hm. split; simpl; [done|done| |intros p m'; rewrite lookup_insert; case_decide; naive_solver].
  intros k ob Hk.
  assert (ob = with_refcnt ob (refcnt ob)) as -> by (by destruct ob).
  eapply shape_same; [by apply Hs| |done|intros a ab _ Ha; exists (refcnt ab); by destruct ab].
  intros p m' Hp Halive. simpl. rewrite lookup_insert_ne; [done|]. intros <-. unfold live_msg in Hf.
  rewrite Hp in Hf. by rewrite bool_decide_eq_true_2 in Hf.
Qed.

(** A fresh wrapper for a message, once its arena has the reference it will hold. *)
Lemma new_wrapper_minv own (w : mworld) p m flags : minv (give own (arena_obj m)) w →
  store w !! p = Some m → p ≠ 0 →
  (∃ ab, objects (perl w) !! arena_obj m = Some ab ∧ arena_of ab = None) →
  let ob := {| refcnt := 1; stash := Some (message_stash (mtype m));
               contents := HV (Some (SIV p)) (Some (PRef (arena_obj m))) None; ext_magic := Some (p, flags) |} in
  let o := next_object (perl w) in
  let q := (new_object ob (perl w)).2 in
  minv (give own o)
    (Build_mworld (set_oc (ObjCache.ObjCache_Add (oc q) p (Some o)) q)
       (<[o := mtype m]> (mdef_ptrs w)) (store w)).
Proof.
  intros [Hc Hi Hs Hss] Hst Hp (ab & Hab & Hna) ob o q.
  assert (objects (perl w) !! o = None) as Ho.
  { destruct (objects (perl w) !! o) eqn:E; [|done]. assert (o < next_object (perl w)) by
      (apply (inv_next _ _ Hi); by rewrite E). unfold o in *. lia. }
  assert (arena_obj m ≠ o) as Hne by congruence.
  split; [| | |intros p' m' H; specialize (Hss _ _ H); simpl; lia].
  - simpl. apply counted_new; [done|done| |done]. change (Some (arena_obj m) ≠ Some o). by intros [= ?].
  - apply (inv_add _ q _ _ ob); [by apply (new_object_inv _ magic_of_same)|done|apply lookup_insert_eq|]. by eexists.
  - intros k obk. simpl. rewrite lookup_insert. case_decide as Ek.
    + intros [= <-]. subst k. right. exists p, m. split_and!; simpl; [done|done| |done|apply lookup_insert_eq|].
      * split_and!; simpl; [by left|by eauto|]. exists p, flags. by split; [|left].
      * exists ab. by rewrite lookup_insert_ne.
    + intros Hk. assert (obk = with_refcnt obk (refcnt obk)) as -> by (by destruct obk).
      eapply (shape_same w); [by apply Hs|done|simpl; by rewrite lookup_insert_ne|].
      intros a ab' _ Ha. simpl. exists (refcnt ab'). fold o. rewrite lookup_insert_ne by (intros <-; congruence). by destruct ab'.
Qed.

Lemma wrap_minv own (w : mworld) p m flags : minv own w → store w !! p = Some m → p ≠ 0 →
  (∃ ab, objects (perl w) !! arena_obj m = Some ab ∧ arena_of ab = None) →
  ∃ o w', wrap_message_internal message_stash p (mtype m) (Some (PRef (arena_obj m))) flags w = (Ret (PRef o), w') ∧
    minv (give own o) w' ∧ store w' = store w ∧ ∃ ob, objects (perl w') !! o = Some ob ∧ magic_of ob p.
Proof.
  intros Hi Hst Hp (ab & Hab & Hna). unfold wrap_message_internal.
  destruct (ObjCache.ObjCache_Get (oc (perl w)) p) as [r c] eqn:Eg.
  destruct (Get_inv _ magic_of_same _ _ _ _ (m_cache _ _ Hi) Eg) as [_ Hr].
  set (w1 := Build_mworld (set_oc c (perl w)) (mdef_ptrs w) (store w)).
  assert (minv own w1) as Hi1.
  { apply oc_minv; [done|]. intros k v Hk. eapply lookup_weaken; [done|]. by destruct (cache_answer _ _ _ _ Eg). }
  destruct r as [o|].
  - destruct (Hr o eq_refl) as (ob & Ho & (fl & Hm)).
    destruct (inc_minv own w1 o Hi1) as (q & Eq & _ & _ & Hq & Hi2); [by exists ob|].
    assert (WrapArenaBoundObject p (Some (PRef (arena_obj m))) (message_stash (mtype m)) flags (perl w) =
      (Ret (PRef o), q)) as E.
    { unfold WrapArenaBoundObject. rewrite (proj2 (Z.eqb_neq p 0)) by done.
      rewrite (cbind_ret _ _ (perl w) (perl w) (perl w)), Eg by done.
      rewrite (cbind_ret _ _ (perl w) tt (set_oc c (perl w))) by done. by rewrite (cbind_ret _ _ _ _ _ Eq). }
    rewrite (cbind_ret _ _ _ _ _ (on_perl_run _ _ _ _ E)). eexists o, _. split; [done|].
    assert (mdef_ptrs w !! o = Some (mtype m)) as Hmd.
    { destruct (m_shape _ _ Hi1 o ob Ho)
        as [(_ & Hl & _)|(p' & m' & Hs' & _ & (_ & _ & (q' & fl' & Hm' & Hq')) & _ & Hd & _)]; [congruence|].
      rewrite Hm' in Hm. simplify_eq. destruct Hq' as [->|?]; [|done]. simpl in Hs'. rewrite Hst in Hs'. by simplify_eq. }
    unfold set_mdef_ptrs. simpl. rewrite insert_id by done. split_and!; [done..|].
    destruct (Hq _ _ Ho) as [n Hn]. exists (with_refcnt ob n). split; [done|]. by exists fl.
  - destruct (inc_minv own w1 (arena_obj m) Hi1) as (q & Eq & Eoc & Enx & Hq & Hi2); [by exists ab|].
    destruct (Hq _ _ Hab) as [n Hn].
    set (w2 := Build_mworld q (mdef_ptrs w) (store w)) in *.
    eexists (next_object q), _. split; [|split; [apply (new_wrapper_minv own w2 p m flags); [done..|eauto]|split; [done|]]].
    2: { eexists. split; [apply lookup_insert_eq|]. by exists flags. }
    eassert (WrapArenaBoundObject p (Some (PRef (arena_obj m))) (message_stash (mtype m)) flags (perl w) =
      (Ret (PRef (next_object q)), _)) as E.
    { unfold WrapArenaBoundObject. rewrite (proj2 (Z.eqb_neq p 0)) by done.
      rewrite (cbind_ret _ _ (perl w) (perl w) (perl w)), Eg by done.
      rewrite (cbind_ret _ _ (perl w) tt (set_oc c (perl w))) by done. unfold newSVsv.
      change (set_oc c (perl w)) with (perl w1). rewrite !cbind_assoc, (cbind_ret _ _ _ _ _ Eq). reflexivity. }
    rewrite (cbind_ret _ _ _ _ _ (on_perl_run _ _ _ _ E)). reflexivity.
Qed.

Lemma WrapMessage_minv own (w : mworld) p m flags : minv own w → store w !! p = Some m → p ≠ 0 →
  (∃ ab, objects (perl w) !! arena_obj m = Some ab ∧ arena_of ab = None) →
  ∃ o w', WrapMessage message_stash p (mtype m) (Some (PRef (arena_obj m))) flags w = (Ret (PRef o), w') ∧
    minv (give own o) w' ∧ store w' = store w ∧ ∃ ob, objects (perl w') !! o = Some ob ∧ magic_of ob p.
Proof.
  intros Hi Hst Hp Ha. unfold WrapMessage. rewrite (proj2 (Z.eqb_neq p 0)) by done.
  destruct (ObjCache.ObjCache_Get (oc (perl w)) p) as [r c] eqn:Eg.
  destruct (Get_inv _ magic_of_same _ _ _ _ (m_cache _ _ Hi) Eg) as [_ Hr].
  set (w1 := Build_mworld (set_oc c (perl w)) (mdef_ptrs w) (store w)).
  assert (minv own w1) as Hi1.
  { apply oc_minv; [done|]. intros k v Hk. eapply lookup_weaken; [done|]. by destruct (cache_answer _ _ _ _ Eg). }
  unfold ObjCache_Get_sv. destruct r as [o|].
  - destruct (Hr o eq_refl) as (ob & Ho & (fl & Hm)).
    destruct (inc_minv own w1 o Hi1) as (q & Eq & _ & _ & Hq & Hi2); [by exists ob|].
    erewrite cbind_ret; [|apply on_perl_run; rewrite (cbind_ret _ _ (perl w) (perl w) (perl w)), Eg by done;
      rewrite (cbind_ret _ _ (perl w) tt (set_oc c (perl w))), (cbind_ret _ _ _ _ _ Eq) by done; reflexivity].
    eexists o, _. split_and!; [done..|]. destruct (Hq _ _ Ho) as [n Hn]. exists (with_refcnt ob n). split; [done|]. by exists fl.
  - erewrite cbind_ret; [|apply on_perl_run; rewrite (cbind_ret _ _ (perl w) (perl w) (perl w)), Eg by done;
      rewrite (cbind_ret _ _ (perl w) tt (set_oc c (perl w))) by done; reflexivity].
    by apply (wrap_minv own w1).
Qed.

(** A new arena. *)
Lemma arena_minv own w : minv own w →
  let a := next_object (perl w) in
  let w' := Build_mworld (new_object arena_object (perl w)).2 (mdef_ptrs w) (store w) in
  on_perl (new_object arena_object) w = (Ret a, w') ∧ minv (give own a) w' ∧
  objects (perl w') !! a = Some arena_object.
Proof.
  intros [Hc Hi Hs Hss] a w'. split; [done|]. split; [|apply lookup_insert_eq].
  assert (objects (perl w) !! a = None) as Ho.
  { destruct (objects (perl w) !! a) eqn:E; [|done]. assert (a < next_object (perl w)) by
      (apply (inv_next _ _ Hi); by rewrite E). unfold a in *. lia. }
  split; [| | |intros p' m' H; specialize (Hss _ _ H); simpl; lia].
  - apply counted_new; done.
  - by apply (new_object_inv _ magic_of_same).
  - intros k ob. simpl. rewrite lookup_insert. case_decide as Ek; [intros [= <-]; by left|].
    intros Hk. assert (ob = with_refcnt ob (refcnt ob)) as -> by (by destruct ob).
    eapply (shape_same w); [by apply Hs|done|done|].
    intros a' ab' _ Ha. simpl. exists (refcnt ab'). fold a. rewrite lookup_insert_ne by (intros <-; congruence). by destruct ab'.
Qed.

Lemma take_back_give own o y : take_back (give own y) y o = own o.
Proof. unfold take_back, give. repeat case_decide; simplify_eq; done. Qed.

Lemma give_one own o : (1 ≤ give own o o)%nat.
Proof. unfold give. rewrite decide_True by done. lia. Qed.

Definition gives (own : Z → nat) (out : outcome psv) : Z → nat :=
  match out with Ret (PRef o) => give own o | _ => own end.

Lemma new_message_minv own w mdef mt made flags : minv own w → made = 0 ∨ live_msg w made = None →
  ∃ out w', new_message message_stash mdef mt made flags w = (out, w') ∧ safe out ∧ minv (gives own out) w'.
Proof.
  intros Hi Hf. unfold new_message. destruct (arena_minv own w Hi) as (E & Hi1 & Ha).
  set (a := next_object (perl w)) in *.
  set (w1 := Build_mworld (new_object arena_object (perl w)).2 (mdef_ptrs w) (store w)) in *.
  rewrite (cbind_ret _ _ _ _ _ E).
  destruct (dec_minv (give own a) w1 a Hi1 (give_one own a)) as (w' & Ed & Hd & _).
  assert (minv own w') as Hd' by (eapply minv_ext; [done|intros; apply take_back_give]).
  destruct mt; cbn [negb]; [|rewrite (cbind_ret _ _ _ _ _ Ed); eexists _, _; by split_and!].
  unfold upb_Message_New. destruct (Z.eqb_spec made 0) as [->|Hp].
  { rewrite (cbind_ret _ _ w1 0 w1) by done. change (0 =? 0) with true. cbn iota.
    rewrite (cbind_ret _ _ _ _ _ Ed). eexists _, _. by split_and!. }
  destruct Hf as [?|Hf]; [done|]. set (m := empty_msg a mdef).
  set (w2 := set_store (<[made := m]> (store w1)) w1).
  assert (minv (give own a) w2) as Hi2.
  { apply new_msg_minv; [done| |simpl; lia]. unfold live_msg in *. simpl.
    destruct (store w !! made) as [m'|] eqn:Em; [|done].
    assert (arena_obj m' ≠ a) by (assert (arena_obj m' < a) by (by eapply m_store); lia).
    by rewrite lookup_insert_ne by done. }
  rewrite (cbind_ret _ _ w1 made w2) by done. rewrite (proj2 (Z.eqb_neq made 0)) by done.
  unfold WrapMessage_NoCache. rewrite (proj2 (Z.eqb_neq made 0)) by done.
  destruct (wrap_minv (give own a) w2 made m flags Hi2) as (o & w3 & E3 & Hi3 & _);
    [apply lookup_insert_eq|done|by exists arena_object|].
  rewrite (cbind_ret _ _ _ _ _ E3).
  destruct (dec_minv (give (give own a) o) w3 a Hi3) as (w4 & E4 & Hi4 & _).
  { unfold give. repeat case_decide; lia. }
  rewrite (cbind_ret _ _ _ _ _ E4). eexists _, _. split; [done|]. split; [done|]. eapply minv_ext; [done|]. intros x.
  unfold gives, take_back, give. repeat case_decide; simplify_eq; done.
Qed.

(** Calls on objects Perl holds, with the memory [upb_Message_New] gets at addresses no
    live message has, and sub-messages wrapped over the arena they are in. *)
Definition mop_ok (own : Z → nat) (w : mworld) (op : mop) : Prop :=
  match op with
  | MNew _ _ made _ => made = 0 ∨ live_msg w made = None
  | MSub parent _ made => (1 ≤ own parent)%nat ∧ (made = 0 ∨ live_msg w made = None)
  | MWrap parent msg =>
      (1 ≤ own parent)%nat ∧ msg = 0 ∨ ∃ m po, (1 ≤ own parent)%nat ∧ store w !! msg = Some m ∧ msg ≠ 0 ∧
        objects (perl w) !! parent = Some po ∧ arena_of po = Some (arena_obj m)
  | MFree o | MDrop o => (1 ≤ own o)%nat
  | _ => True
  end.

Fixpoint mops_ok (ops : list mop) (own : Z → nat) (w : mworld) : Prop :=
  match ops with
  | [] => True
  | op :: ops =>
      mop_ok own w op ∧
      let '(out, w') := run_mop derived message_stash op w in mops_ok ops (owned_after own op out) w'
  end.

Lemma GetArena_run (w : mworld) o ob : objects (perl w) !! o = Some ob →
  Message_GetArena (Some (PRef o)) w =
    (Ret (match contents ob with HV _ arena _ => arena | NotHV _ => None end), w).
Proof.
  intros Ho. unfold Message_GetArena.
  assert (GetArenaFromObject (Some (PRef o)) (perl w) =
    (Ret (match contents ob with HV _ arena _ => arena | NotHV _ => None end), perl w)) as E.
  { unfold GetArenaFromObject. by rewrite (cbind_ret _ _ (perl w) ob (perl w)) by (unfold SvRV; by rewrite Ho). }
  rewrite (on_perl_run _ _ _ _ E). by destruct w.
Qed.

(** [PerlUpb_Message_GetMsg] reads. *)
Lemma GetMsg_reads (w : mworld) sv : ∃ out, Message_GetMsg derived sv w = (out, w).
Proof.
  assert (∀ p : world, ∃ out, GetArenaBoundObject derived sv (Some message_class) p = (out, p)) as H.
  { intros p. unfold GetArenaBoundObject. destruct (SvOK sv); [|eauto]. cbn [negb].
    assert (∃ out, GetArenaBoundObject_Silent derived sv (Some message_class) p = (out, p)) as [out E].
    { destruct sv as [[| |o]|]; simpl; eauto. unfold mbind, cmd_bind, SvRV.
      destruct (objects p !! o) as [ob|]; eauto. destruct (contents ob); [|eauto].
      case_match; [eauto|]. destruct (ext_magic ob); eauto. }
    destruct out as [ptr| |];
      [rewrite (cbind_ret _ _ _ _ _ E)|rewrite (cbind_croak _ _ _ _ _ E); eauto
      |rewrite (cbind_fault _ _ _ _ _ E); eauto].
    destruct (negb (ptr =? 0)); [eauto|]. destruct sv as [[| |o]|]; eauto.
    unfold mbind, cmd_bind, SvRV. destruct (objects p !! o) as [ob|]; eauto.
    case_match; [unfold ccroak; eauto|]. case_match; [unfold ccroak; eauto|].
    destruct (contents ob); unfold ccroak; eauto. }
  destruct (H (perl w)) as [out E]. exists out. unfold Message_GetMsg.
  rewrite (on_perl_run _ _ _ _ E). by destruct w.
Qed.

(** On a live object it does not fault. *)
Lemma GetMsg_safe (w : mworld) o : is_Some (objects (perl w) !! o) → safe (Message_GetMsg derived (Some (PRef o)) w).1.
Proof.
  intros [ob Ho]. unfold Message_GetMsg, on_perl.
  assert (safe (GetArenaBoundObject derived (Some (PRef o)) (Some message_class) (perl w)).1) as H.
  { unfold GetArenaBoundObject. cbn [SvOK negb].
    assert (SvRV o (perl w) = (Ret ob, perl w)) as Er by (unfold SvRV; by rewrite Ho).
    assert (∃ p, GetArenaBoundObject_Silent derived (Some (PRef o)) (Some message_class) (perl w) = (Ret p, perl w)) as [p E].
    { unfold GetArenaBoundObject_Silent. rewrite (cbind_ret _ _ _ _ _ Er).
      destruct (contents ob); [|by eexists]. destruct (negb _); [by eexists|]. destruct (ext_magic ob); by eexists. }
    rewrite (cbind_ret _ _ _ _ _ E). destruct (negb (p =? 0)); [done|]. rewrite (cbind_ret _ _ _ _ _ Er).
    case_bool_decide; [done|]. destruct (negb _); [done|]. by destruct (contents ob). }
  by destruct (GetArenaBoundObject _ _ _ _) as [out q].
Qed.

Lemma run_mop_minv own w op : minv own w → mop_ok own w op →
  let '(out, w') := run_mop derived message_stash op w in safe out ∧ minv (owned_after own op out) w'.
Proof.
  intros Hi Hok.
  destruct op as [mdef mt made flags|parent mdef made|parent msg|o|o|n|]; simpl in Hok; cbn [run_mop].
  - destruct (new_message_minv own w mdef mt made flags Hi Hok) as (out & w' & -> & Hs' & Hi').
    split; [done|]. by destruct out as [[]| |].
  - destruct Hok as [Hp Hf]. destruct (owned_alive _ _ _ (m_counts _ _ Hi) Hp) as [ob Hob].
    rewrite (cbind_ret _ _ _ _ _ (GetArena_run w parent ob Hob)).
    destruct (m_shape _ _ Hi _ _ Hob) as [[-> _]|(p & m & Hs & _ & (_ & (ar & po & Ec) & _) & Ha & _ & ab & Hab & _)];
      [done|]. unfold arena_of in Ha. rewrite Ec in Ha |- *. destruct ar as [[| |a]|]; try done.
    injection Ha as ->. unfold upb_Message_New. destruct (Z.eqb_spec made 0) as [->|Hm0]; [done|].
    destruct Hf as [?|Hf]; [done|]. simpl. split; [done|]. apply new_msg_minv; [done|done|]. simpl.
    apply (inv_next _ _ (m_cache _ _ Hi)). by rewrite Hab.
  - rewrite (cbind_ret _ _ w w w) by done. destruct Hok as [[Hp ->]|(m & po & Hp & Hst & Hm & Hpo & Ha)].
    + destruct (owned_alive _ _ _ (m_counts _ _ Hi) Hp) as [ob Hob].
      by rewrite (cbind_ret _ _ _ _ _ (GetArena_run w parent ob Hob)).
    + rewrite (cbind_ret _ _ _ _ _ (GetArena_run w parent po Hpo)).
      destruct (m_shape _ _ Hi _ _ Hpo) as [[Hc _]|(p & m' & Hs & _ & _ & Ha' & _ & ab & Hab & Hna)];
        [unfold arena_of in Ha; by rewrite Hc in Ha|].
      rewrite Ha in Ha'. injection Ha' as Ea. rewrite <- Ea in Hab.
      rewrite Hst. simpl. unfold arena_of in Ha. destruct (contents po) as [up [[| |a]|] pool|]; try done.
      injection Ha as ->.
      destruct (WrapMessage_minv own w msg m 0 Hi Hst Hm) as (o & w' & E & Hi' & _); [by exists ab|].
      change (fmap (M := option) mtype (Some m)) with (Some (mtype m)).
      destruct (WrapMessage message_stash msg (mtype m) (Some (PRef (arena_obj m))) 0 w) as [out w2].
      by injection E as -> ->.
  - unfold Message_Free. destruct (GetMsg_reads w (Some (PRef o))) as [out E].
    pose proof (GetMsg_safe w o (owned_alive _ _ _ (m_counts _ _ Hi) Hok)) as Hsf. rewrite E in Hsf.
    destruct out as [ptr| |]; [|by rewrite cbind_assoc, (cbind_croak _ _ _ _ _ E)|done].
    rewrite cbind_assoc, (cbind_ret _ _ _ _ _ E). destruct (ptr =? 0); [done|]. split; [done|].
    apply oc_minv; [done|]. intros k v Hk. eapply lookup_weaken; [done|]. apply Delete_sub.
  - destruct (dec_minv own w o Hi Hok) as (w' & E & Hi' & _). by rewrite (cbind_ret _ _ _ _ _ E).
  - split; [done|]. apply oc_minv; done.
  - split; [done|]. apply oc_minv; [done|]. intros k v. simpl. by rewrite lookup_empty.
Qed.

Lemma run_mops_minv ops : ∀ own w, minv own w → mops_ok ops own w →
  let '(own', w') := run_mops derived message_stash ops own w in minv own' w'.
Proof.
  induction ops as [|op ops IH]; intros own w Hi; [done|]. intros [Hop Hops]. simpl.
  pose proof (run_mop_minv own w op Hi Hop) as Hi'.
  destruct (run_mop derived message_stash op w) as [out w']. destruct Hi'. by apply IH.
Qed.

Lemma no_messages_minv capacity : minv (λ _, 0%nat) (no_messages capacity).
Proof.
  split; simpl.
  - split; intros *; [by rewrite lookup_empty|]. intros _. split; [done|]. unfold holders.
    by rewrite map_filter_empty, map_size_empty.
  - split; simpl; intros *; rewrite lookup_empty; [done|by intros []].
  - intros *; by rewrite lookup_empty.
  - intros *; by rewrite lookup_empty.
Qed.

Lemma stands_reads (w : mworld) o ob p t : objects (perl w) !! o = Some ob → p ≠ 0 →
  stands_for t ob p → derived (message_stash t) message_class = true →
  Message_GetMsg derived (Some (PRef o)) w = (Ret p, w).
Proof.
  intros Ho Hp (Hc & (ar & po & Ec) & (q & fl & Em & _)) Hd. unfold Message_GetMsg.
  erewrite (on_perl_run _ _ (Ret p) (perl w)); [by destruct w|]. unfold GetArenaBoundObject. cbn [SvOK negb].
  assert (GetArenaBoundObject_Silent derived (Some (PRef o)) (Some message_class) (perl w) = (Ret p, perl w)) as E.
  { unfold GetArenaBoundObject_Silent. rewrite (cbind_ret _ _ (perl w) ob (perl w)) by (unfold SvRV; by rewrite Ho).
    rewrite Ec, Em. assert (sv_derived_from derived ob message_class = true) as ->; [|done].
    unfold sv_derived_from. destruct Hc as [->|(c & -> & ?)]; done. }
  rewrite (cbind_ret _ _ _ _ _ E). by rewrite (proj2 (Z.eqb_neq p 0)).
Qed.

Lemma wrapper_reads (w : mworld) o ob p (m : cmsg V) : objects (perl w) !! o = Some ob → p ≠ 0 →
  wraps_as (message_stash (mtype m)) ob p → derived (message_stash (mtype m)) message_class = true →
  Message_GetMsg derived (Some (PRef o)) w = (Ret p, w).
Proof.
  intros Ho Hp Hw Hd. unfold Message_GetMsg.
  erewrite (on_perl_run _ _ (Ret p) (perl w)); [by destruct w|].
  apply (unwrap derived (λ _, message_stash (mtype m))); [by exists ob|done|done].
Qed.

(** What the invariant says of the objects Perl sees. *)
Lemma minv_sound own (w : mworld) : minv own w → (∀ t, derived (message_stash t) message_class = true) →
  (∀ o, (1 ≤ own o)%nat → is_Some (objects (perl w) !! o)) ∧
  (∀ o ob, objects (perl w) !! o = Some ob → stash ob ≠ Some arena_class →
    ∃ p m, Message_GetMsg derived (Some (PRef o)) w = (Ret p, w) ∧ p ≠ 0 ∧ live_msg w p = Some m ∧
      Message_GetDef (Some (PRef o)) w = (Ret (mtype m), w) ∧
      Message_GetArena (Some (PRef o)) w = (Ret (Some (PRef (arena_obj m))), w)) ∧
  ((∀ o, own o = 0%nat) → objects (perl w) = ∅).
Proof.
  intros Hi Hder. split_and!.
  - intros o. apply owned_alive, Hi.
  - intros o ob Ho Hst.
    destruct (m_shape _ _ Hi _ _ Ho) as [(_ & _ & ?)|(p & m & Hs & Hp & Hw & Ha & Hd & ab & Hab & _)]; [done|].
    exists p, m. split_and!; [by eapply stands_reads|done| | |].
    + unfold live_msg. by rewrite Hs, bool_decide_eq_true_2 by by rewrite Hab.
    + unfold Message_GetDef. rewrite (cbind_ret _ _ w ob w).
      2: { erewrite (on_perl_run _ _ (Ret ob) (perl w)); [by destruct w|]. unfold SvRV. by rewrite Ho. }
      destruct Hw as (_ & (ar & po & ->) & _). rewrite (cbind_ret _ _ w w w) by done. by rewrite Hd.
    + rewrite (GetArena_run w o ob Ho). destruct Hw as (_ & (ar & po & Ec) & _).
      unfold arena_of in Ha. rewrite Ec in Ha |- *. destruct ar as [[| |a]|]; naive_solver.
  - intros Hown. apply (counted_empty own); [apply Hi|done|]. intros o ob Ho.
    destruct (m_shape _ _ Hi _ _ Ho) as [Hal|(p & m & Hs & Hp & Hw & Ha & Hd & ab & Hab & Hna)].
    + left. by apply arena_like_none.
    + right. intros x xb Hx Hax.
      destruct (m_shape _ _ Hi _ _ Hx) as [Hal|(p' & m' & Hs' & _ & _ & Ha' & _ & ab' & Hab' & Hna')].
      * apply arena_like_none in Hal. congruence.
      * rewrite Hax in Ha'. injection Ha' as ->. rewrite Ho in Hab'. injection Hab' as <-. congruence.
Qed.

(** Message objects and their arenas live exactly as long as they are needed.  After
    any history of creating messages (failed allocations among them), getting
    sub-messages and their wrappers from the cache or new, unregistering objects,
    dropping references and resizing or emptying the cache: every object Perl holds is
    alive; behind every message object, whoever holds it, [PerlUpb_Message_GetMsg] finds
    a message that is alive, in the arena [PerlUpb_Message_GetArena] answers and of the
    type [PerlUpb_Message_GetDef] answers; and once Perl holds nothing, no object, and
    so no arena, is left. *)
Lemma message_objects_sound capacity ops :
  mops_ok ops (λ _, 0%nat) (no_messages (V := V) capacity) →
  (∀ t, derived (message_stash t) message_class = true) →
  let '(own, w) := run_mops derived message_stash ops (λ _, 0%nat) (no_messages (V := V) capacity) in
  (∀ o, (1 ≤ own o)%nat → is_Some (objects (perl w) !! o)) ∧
  (∀ o ob, objects (perl w) !! o = Some ob → stash ob ≠ Some arena_class →
    ∃ p m, Message_GetMsg derived (Some (PRef o)) w = (Ret p, w) ∧ p ≠ 0 ∧ live_msg w p = Some m ∧
      Message_GetDef (Some (PRef o)) w = (Ret (mtype m), w) ∧
      Message_GetArena (Some (PRef o)) w = (Ret (Some (PRef (arena_obj m))), w)) ∧
  ((∀ o, own o = 0%nat) → objects (perl w) = ∅).
Proof.
  intros Hops Hder. pose proof (run_mops_minv ops _ _ (no_messages_minv capacity) Hops) as Hi.
  destruct (run_mops derived message_stash ops (λ _, 0%nat) (no_messages (V := V) capacity)) as [own w].
  by apply minv_sound.
Qed.
End Lifetimes.

(** *** Instances *)

Definition one_stash (_ : Z) : string := "My::File::Msg".
Definition is_a (c d : string) : bool := bool_decide (c = d) || bool_decide (d = message_class).

(** A message at 16 with a sub-message at 32; the wrapper of the parent is dropped first,
    the sub-message keeps the arena; an allocation fails. *)
Definition some_mops : list mop :=
  [MNew 7 true 16 0; MSub 2 8 32; MWrap 2 32; MNew 7 true 0 0; MSetCapacity 1; MDrop 2; MWrap 3 32; MDrop 3; MClear;
   MNew 7 false 48 0].

Lemma message_objects_sound_witness :
  let '(own, w) := run_mops is_a one_stash some_mops (λ _, 0%nat) (no_messages (V := Z) 8) in
  (∀ o, (1 ≤ own o)%nat → is_Some (objects (perl w) !! o)) ∧
  (∀ o ob, objects (perl w) !! o = Some ob → stash ob ≠ Some arena_class →
    ∃ p m, Message_GetMsg is_a (Some (PRef o)) w = (Ret p, w) ∧ p ≠ 0 ∧ live_msg w p = Some m ∧
      Message_GetDef (Some (PRef o)) w = (Ret (mtype m), w) ∧
      Message_GetArena (Some (PRef o)) w = (Ret (Some (PRef (arena_obj m))), w)) ∧
  ((∀ o, own o = 0%nat) → objects (perl w) = ∅).
Proof.
  apply (message_objects_sound is_a one_stash 8 some_mops).
  - vm_compute. split_and!; try exact I; try lia; try (by left); try (by right).
    all: right; do 2 eexists; split_and!; [lia|reflexivity|lia|reflexivity|reflexivity].
  - intros t. reflexivity.
Defined.

(** [PerlUpb_WrapMessage_NoCache] goes through the cache like [PerlUpb_WrapMessage]: it
    answers the object there is. *)
Example no_cache_is_cached :
  let '(_, w) := run_mops is_a one_stash [MNew 7 true 16 0] (λ _, 0%nat) (no_messages (V := Z) 8) in
  (WrapMessage_NoCache one_stash 16 7 (Some (PRef 1)) 0 w).1 = Ret (PRef 2) ∧
  (WrapMessage one_stash 16 7 (Some (PRef 1)) 0 w).1 = Ret (PRef 2).
Proof. by vm_compute. Qed.
