(* ===== verification/MessageOps.v ===== *)
(** * Operations on whole messages (xs/message/*.c, xs/repeated/composite.c)

    Merging, copying, comparing and clearing messages, walking their set fields, the
    field of a oneof, the audit of an object's entries, and adding a message to a repeated
    field. *)

From S2P Require Import Prelude Convert Handles Wrappers Messages.
From S2P Require ObjCache Descriptors Accessors.

(** A field or extension of a message type: its definition's address, what the
    conversions ask of it, and whether it is an extension and has presence. *)
Record field := { fptr : Z; fdef : FieldDef; is_extension : bool; has_presence : bool }.

(** upb's wire codec on the messages of a store: what [upb_Encode] answers for the message
    at an address, with everything it points to, and what [upb_Decode] makes of the
    message at an address. *)
Class UpbCodec (V : Type) := {
  upb_Encode : gmap Z (cmsg V) → Z → option bytes;
  upb_Decode : bytes → Z → gmap Z (cmsg V) → bool * gmap Z (cmsg V) }.

Section MessageOps.
Context {V : Type}.
Notation mcall := (cmd (mworld V)).
Context (derived : string → string → bool) (message_stash : Z → string).

(** [PerlUpb_Arena_Get]: the object whose arena it is. *)
Definition get_arena (sv : option psv) : mcall Z :=
  match sv with
  | Some (PRef a) =>
      ob ← on_perl (SvRV a);
      cguard (bool_decide (stash ob = Some arena_class)) "Argument is not a blessed Protobuf::Arena object";;
      mret a
  | _ => ccroak "Argument is not a blessed Protobuf::Arena object"
  end.

(** ** message.c *)

Section Merge.
Context `{UpbCodec V}.

(** [upb_Message_MergeFrom]: by way of the wire format. *)
Definition upb_Message_MergeFrom (dst src : Z) : mcall bool :=
  read_msg src;; read_msg dst;;
  w ← cget;
  match upb_Encode (store w) src with
  | None => mret false
  | Some buf =>
      let '(ok, st) := upb_Decode buf dst (store w) in
      cput (set_store st w);; mret ok
  end.

Definition Message_MergeFrom (dst_sv src_sv : option psv) : mcall unit :=
  dst_msg ← Message_GetMsg derived dst_sv;
  src_msg ← Message_GetMsg derived src_sv;
  mdef ← Message_GetDef dst_sv;
  src_mdef ← Message_GetDef src_sv;
  cguard (negb ((dst_msg =? 0) || (src_msg =? 0) || (mdef =? 0) || (src_mdef =? 0))) "Invalid message objects";;
  cguard (mdef =? src_mdef) "Messages must have the same descriptor for MergeFrom";;
  dst_arena_sv ← Message_GetArena dst_sv;
  get_arena dst_arena_sv;;
  ok ← upb_Message_MergeFrom dst_msg src_msg;
  cguard ok "Failed to merge messages".

(** [upb_Message_Clear]. *)
Definition cleared (m : cmsg V) : cmsg V := {| arena_obj := arena_obj m; mtype := mtype m; base := ∅; aux := [] |}.
Definition upb_Message_ClearByDef (msg : Z) : mcall unit := m ← read_msg msg; write_msg msg (cleared m).

Definition Message_CopyFrom (dst_sv src_sv : option psv) : mcall unit :=
  dst_msg ← Message_GetMsg derived dst_sv;
  mdef ← Message_GetDef dst_sv;
  cguard (negb ((dst_msg =? 0) || (mdef =? 0))) "Invalid destination message object";;
  upb_Message_ClearByDef dst_msg;;
  Message_MergeFrom dst_sv src_sv.
End Merge.

(** ** access.c *)

Definition Message_Clear (sv : option psv) : mcall unit :=
  msg ← Message_GetMsg derived sv;
  mdef ← Message_GetDef sv;
  cguard (negb ((msg =? 0) || (mdef =? 0))) "Invalid message object";;
  upb_Message_ClearByDef msg.

(** [upb_Message_WhichOneofByDef]: the member that is set, by its number. *)
Definition upb_Message_WhichOneof (o : list FieldDef) (m : cmsg V) : option FieldDef :=
  snd <$> list_find (λ f, is_Some (base m !! f_number f)) o.

(** [None] is NULL. *)
Definition Message_WhichOneof (sv : option psv) (o : list FieldDef) : mcall (option bytes) :=
  msg ← Message_GetMsg derived sv;
  if msg =? 0 then mret None
  else
    m ← read_msg msg;
    mret (Some (match upb_Message_WhichOneof o m with Some f => f_name f | None => [] end)).

(** What a field without presence must hold to count as set: a number that is not zero,
    a container that is not empty. *)
Context (nonempty : FieldDef → V → bool).

Definition shown (m : cmsg V) (f : field) : bool :=
  match base m !! f_number (fdef f) with
  | Some v => has_presence f || nonempty (fdef f) v
  | None => false
  end.

(** The first set field from position [i] on. *)
Fixpoint next_base (m : cmsg V) (i : nat) (fs : list field) : option (nat * field) :=
  match fs with
  | [] => None
  | f :: fs => if shown m f then Some (i, f) else next_base m (S i) fs
  end.

Fixpoint next_ext (i : nat) (aux : list (aux_entry V)) : option (nat * Z) :=
  match aux with
  | [] => None
  | AuxExt e _ :: _ => Some (i, e)
  | _ :: aux => next_ext (S i) aux
  end.

(** [upb_Message_Next]: [start] is [*iter + 1], the fields of the type in the order of its
    table, [ext_pool] finds the definition of an extension.  An extension that is not of
    the pool is not found, and what is returned for it is undefined. *)
Definition upb_Message_Next (fs : list field) (ext_pool : option (Z → option field)) (m : cmsg V) (start : nat)
  : outcome (option field) * nat :=
  match next_base m start (drop start fs) with
  | Some (i, f) => (Ret (Some f), S i)
  | None =>
      let i := Nat.max start (length fs) in
      match ext_pool with
      | None => (Ret None, S i)
      | Some pool =>
          let j := (i - length fs)%nat in
          match next_ext j (drop j (aux m)) with
          | Some (k, e) =>
              (match pool e with Some f => Ret (Some f) | None => Fault "extension of another pool" end,
               S (length fs + k))
          | None => (Ret None, S (Nat.max i (length fs + length (aux m))))
          end
      end
  end.

(** [while (upb_Message_Next(msg, mdef, NULL, ...))]. *)
Fixpoint fields_loop (fuel : nat) (fs : list field) (m : cmsg V) (start : nat) (av : list field)
  : outcome (list field) :=
  match fuel with
  | O => Fault "fuel"
  | S fuel =>
      match upb_Message_Next fs None m start with
      | (Ret (Some f), start) => fields_loop fuel fs m start (av ++ [f])
      | (Ret None, _) => Ret av
      | (Croak msg, _) => Croak msg
      | (Fault why, _) => Fault why
      end
  end.

(** [table mdef]: the fields of a message type.  The wrappers are left to their
    definitions' addresses. *)
Definition Message_Fields (table : Z → list field) (sv : option psv) : mcall (list field) :=
  msg ← Message_GetMsg derived sv;
  mdef ← Message_GetDef sv;
  cguard (negb ((msg =? 0) || (mdef =? 0))) "Invalid message object";;
  m ← read_msg msg;
  of_outcome (fields_loop (S (length (table mdef))) (table mdef) m 0 []).

(** ** compare.c; [upb_eq] is [upb_Message_IsEqual]. *)

Definition Message_IsEqual (upb_eq : gmap Z (cmsg V) → Z → Z → bool) (has_minitable : Z → bool)
  (sv1 sv2 : option psv) : mcall bool :=
  msg1 ← Message_GetMsg derived sv1;
  msg2 ← Message_GetMsg derived sv2;
  if (msg1 =? 0) || (msg2 =? 0) then mret false
  else
    mdef1 ← Message_GetDef sv1;
    mdef2 ← Message_GetDef sv2;
    if negb (mdef1 =? mdef2) then mret false
    else if negb (has_minitable mdef1) then mret false
    else w ← cget; mret (upb_eq (store w) msg1 msg2).

(** ** meta.c *)

Definition Message_GetDescriptor (sv : option psv) : mcall psv :=
  mdef ← Message_GetDef sv;
  if mdef =? 0 then mret PUndef else on_perl (Descriptors.MessageDef_GetWrapper mdef).

(** What Perl code keeps in the hash of an object under a name; the address in the value
    of a sub-message field, 0 if it is not set. *)
Context (entry : Z → bytes → option psv) (msg_val : V → Z).

Fixpoint audit_fields (o : Z) (m : cmsg V) (fs : list field) : mcall bool :=
  match fs with
  | [] => mret true
  | f :: fs =>
      match entry o (f_name (fdef f)) with
      | Some (PRef inner) =>
          if IsSubMessage (fdef f) then
            let val := match base m !! f_number (fdef f) with Some v => msg_val v | None => 0 end in
            if val =? 0 then mret false
            else
              cached ← on_perl (ObjCache_Get_sv val);
              match cached with
              | Some c =>
                  if c =? inner then SvREFCNT_dec c;; audit_fields o m fs
                  else SvREFCNT_dec c;; mret false
              | None => audit_fields o m fs
              end
          else audit_fields o m fs
      | _ => audit_fields o m fs
      end
  end.

Definition Message_AuditIntegrity (table : Z → list field) (sv : option psv) : mcall bool :=
  msg ← Message_GetMsg derived sv;
  mdef ← Message_GetDef sv;
  if (msg =? 0) || (mdef =? 0) then mret false
  else
    match sv with
    | Some (PRef o) => m ← read_msg msg; audit_fields o m (table mdef)
    | _ => cfault "SvRV of no reference"
    end.

(** ** composite.c *)

(** [arr]: the elements of the array behind the object, if it has one, with its field;
    [made], [grown]: whether the memory for the message and the array was there. *)
Definition Repeated_Add (arr : option (list Z)) (f : option FieldDef) (mdef : Z) (arena_sv : option psv)
  (made : Z) (grown : bool) : mcall (psv * list Z) :=
  match arr, f, arena_sv with
  | Some l, Some f, Some _ =>
      cguard (IsSubMessage f) "add() can only be called on repeated message fields";;
      arena ← get_arena arena_sv;
      msg ← upb_Message_New arena mdef made;
      cguard (negb (msg =? 0)) "Failed to create new submessage";;
      cguard grown "Failed to append new message to array";;
      sv ← WrapMessage message_stash msg mdef arena_sv 0;
      mret (sv, l ++ [msg])
  | _, _, _ => mret (PUndef, default [] arr)
  end.
End MessageOps.

(** ** Copying *)

(** What the operations promise of merging, in terms of the contents of the message at an
    address: encoding and decoding merges, a cleared message is blank, and merging into
    nothing copies. *)
Class CodecLaws (V : Type) `{UpbCodec V} (T : Type) := {
  contents : gmap Z (cmsg V) → Z → T;
  blank : T;
  merged : T → T → T;
  merged_blank t : merged blank t = t;
  contents_cleared st p m : contents (<[p := cleared m]> st) p = blank;
  decode_merges st dst src buf st' :
    upb_Encode st src = Some buf → upb_Decode buf dst st = (true, st') →
    contents st' dst = merged (contents st dst) (contents st src) }.

Section Copying.
Context {V T : Type} `{CodecLaws V T}.
Context (derived : string → string → bool) (message_stash : Z → string).
Notation mworld := (mworld V).

(** An object of a live message, as every one that Perl holds is
    ([Messages.message_objects_sound]). *)
Record message_object (w : mworld) (o p : Z) (m : cmsg V) : Prop := {
  mo_wraps : ∃ ob, objects (perl w) !! o = Some ob ∧ wraps_as (message_stash (mtype m)) ob p ∧
    arena_of ob = Some (arena_obj m);
  mo_type : mdef_ptrs w !! o = Some (mtype m) ∧ mtype m ≠ 0;
  mo_live : store w !! p = Some m ∧ p ≠ 0;
  mo_arena : ∃ ab, objects (perl w) !! arena_obj m = Some ab ∧ stash ab = Some arena_class }.

Hypothesis message_classes : ∀ t, derived (message_stash t) message_class = true.

(** What the unwrapping calls answer, whatever the messages hold. *)
Lemma object_reads (w : mworld) o p m st : message_object w o p m → let w' := set_store st w in
  Message_GetMsg derived (Some (PRef o)) w' = (Ret p, w') ∧
  Message_GetDef (Some (PRef o)) w' = (Ret (mtype m), w') ∧
  Message_GetArena (Some (PRef o)) w' = (Ret (Some (PRef (arena_obj m))), w') ∧
  get_arena (Some (PRef (arena_obj m))) w' = (Ret (arena_obj m), w').
Proof.
  intros [(ob & Ho & Hw & Ha) [Hd Ht] [Hs Hp] (ab & Hab & Hst)] w'. split_and!.
  - by apply (wrapper_reads derived message_stash w' o ob p m).
  - unfold Message_GetDef. rewrite (cbind_ret _ _ w' ob w').
    2: { erewrite (on_perl_run _ _ (Ret ob) (perl w')); [done|]. unfold SvRV. simpl. by rewrite Ho. }
    destruct Hw as (_ & (ar & po & ->) & _). rewrite (cbind_ret _ _ w' w' w') by done. simpl. by rewrite Hd.
  - rewrite (GetArena_run w' o ob Ho). destruct Hw as (_ & (ar & po & Ec) & _).
    unfold arena_of in Ha. rewrite Ec in Ha |- *. destruct ar as [[| |a]|]; naive_solver.
  - unfold get_arena. rewrite (cbind_ret _ _ w' ab w').
    2: { erewrite (on_perl_run _ _ (Ret ab) (perl w')); [done|]. unfold SvRV. simpl. by rewrite Hab. }
    by rewrite bool_decide_eq_true_2.
Qed.

Lemma object_arena (w : mworld) o p m : message_object w o p m → is_Some (objects (perl w) !! arena_obj m).
Proof. intros [_ _ _ (ab & E & _)]. by exists ab. Qed.

Lemma read_live (w : mworld) p m : store w !! p = Some m → is_Some (objects (perl w) !! arena_obj m) →
  read_msg p w = (Ret m, w).
Proof. intros Hs Ha. unfold read_msg, live_msg. by rewrite Hs, bool_decide_eq_true_2. Qed.

(** [PerlUpb_Message_MergeFrom] in a store that holds messages of the same types in the
    same arenas at the two addresses. *)
Lemma MergeFrom_exact (w : mworld) d s pd ps md ms st md' ms' : message_object w d pd md → message_object w s ps ms →
  st !! pd = Some md' → arena_obj md' = arena_obj md → st !! ps = Some ms' → arena_obj ms' = arena_obj ms →
  Message_MergeFrom derived (Some (PRef d)) (Some (PRef s)) (set_store st w) =
    if decide (mtype md = mtype ms) then
      match upb_Encode st ps with
      | None => (Croak "Failed to merge messages", set_store st w)
      | Some buf =>
          let '(ok, st') := upb_Decode buf pd st in
          (if ok then Ret tt else Croak "Failed to merge messages", set_store st' w)
      end
    else (Croak "Messages must have the same descriptor for MergeFrom", set_store st w).
Proof.
  intros Hd Hs Ed Ead Es Eas. set (w' := set_store st w).
  destruct (object_reads w d pd md st Hd) as (E1 & E2 & E3 & E4).
  destruct (object_reads w s ps ms st Hs) as (F1 & F2 & _). fold w' in E1, E2, E3, E4, F1, F2.
  unfold Message_MergeFrom.
  rewrite (cbind_ret _ _ _ _ _ E1), (cbind_ret _ _ _ _ _ F1), (cbind_ret _ _ _ _ _ E2), (cbind_ret _ _ _ _ _ F2).
  rewrite (cbind_ret _ _ w' tt w').
  2: { rewrite (proj2 (Z.eqb_neq pd 0)), (proj2 (Z.eqb_neq ps 0)), (proj2 (Z.eqb_neq (mtype md) 0)),
         (proj2 (Z.eqb_neq (mtype ms) 0)) by (apply Hd || apply Hs). done. }
  case_decide as Et; [|rewrite (proj2 (Z.eqb_neq _ _)) by done; by apply cbind_croak].
  rewrite (proj2 (Z.eqb_eq _ _)) by done. rewrite (cbind_ret _ _ w' tt w') by done.
  rewrite (cbind_ret _ _ _ _ _ E3), (cbind_ret _ _ _ _ _ E4).
  assert (read_msg pd w' = (Ret md', w')) as Rd.
  { apply read_live; [done|]. rewrite Ead. exact (object_arena _ _ _ _ Hd). }
  assert (read_msg ps w' = (Ret ms', w')) as Rs.
  { apply read_live; [done|]. rewrite Eas. exact (object_arena _ _ _ _ Hs). }
  unfold upb_Message_MergeFrom. rewrite !cbind_assoc, (cbind_ret _ _ _ _ _ Rs).
  rewrite !cbind_assoc, (cbind_ret _ _ _ _ _ Rd), !cbind_assoc.
  rewrite (cbind_ret _ _ w' w' w') by done. change (store w') with st.
  destruct (upb_Encode st ps) as [buf|]; [|done]. destruct (upb_Decode buf pd st) as [ok st'].
  rewrite cbind_assoc, (cbind_ret _ _ _ tt (set_store st' w')) by done.
  rewrite (cbind_ret _ _ _ ok (set_store st' w')) by done. by destruct ok.
Qed.

(** C24: [PerlUpb_Message_CopyFrom] between two message objects, on every path.  The
    destination is cleared before anything else is looked at: with a source of another type
    the call croaks and leaves the destination empty, as it does when the source cannot be
    encoded; when the decoder fails it croaks and leaves what the decoder left.  When it
    returns, the destination holds what the source holds once the destination is cleared:
    a copy of the source, when the destination is no part of it, but nothing at all when
    both are the same message. *)
Theorem CopyFrom_exact (w : mworld) d s pd ps md ms : message_object w d pd md → message_object w s ps ms →
  let st0 := <[pd := cleared md]> (store w) in
  let run := Message_CopyFrom derived (Some (PRef d)) (Some (PRef s)) w in
  (run = if decide (mtype md = mtype ms) then
           match upb_Encode st0 ps with
           | None => (Croak "Failed to merge messages", set_store st0 w)
           | Some buf =>
               let '(ok, st) := upb_Decode buf pd st0 in
               (if ok then Ret tt else Croak "Failed to merge messages", set_store st w)
           end
         else (Croak "Messages must have the same descriptor for MergeFrom", set_store st0 w)) ∧
  (∀ w', run = (Ret tt, w') →
    contents (store w') pd = contents st0 ps ∧ (pd = ps → contents (store w') pd = blank)).
Proof.
  intros Hd Hs st0 run.
  assert (run = Message_MergeFrom derived (Some (PRef d)) (Some (PRef s)) (set_store st0 w)) as Erun.
  { unfold run, Message_CopyFrom. destruct (object_reads w d pd md (store w) Hd) as (E1 & E2 & _).
    replace (set_store (store w) w) with w in E1, E2 by (by destruct w).
    rewrite (cbind_ret _ _ _ _ _ E1), (cbind_ret _ _ _ _ _ E2). rewrite (cbind_ret _ _ w tt w).
    2: { rewrite (proj2 (Z.eqb_neq pd 0)), (proj2 (Z.eqb_neq (mtype md) 0)) by apply Hd. done. }
    rewrite (cbind_ret _ _ w tt (set_store st0 w)); [done|]. unfold upb_Message_ClearByDef.
    rewrite (cbind_ret _ _ w md w); [done|]. apply read_live; [apply Hd|]. by eapply object_arena. }
  assert (∃ ms', st0 !! ps = Some ms' ∧ arena_obj ms' = arena_obj ms) as (ms' & Es & Eas).
  { destruct Hd as [_ _ [Ed _] _], Hs as [_ _ [Es _] _]. unfold st0. rewrite lookup_insert. case_decide; [|eauto].
    subst ps. rewrite Ed in Es. simplify_eq. by exists (cleared ms). }
  rewrite Erun, (MergeFrom_exact w d s pd ps md ms st0 (cleared md) ms' Hd Hs (lookup_insert_eq _ _ _) eq_refl Es Eas).
  split; [done|]. intros w' E. case_decide; [|done]. destruct (upb_Encode st0 ps) as [buf|] eqn:Ee; [|done].
  destruct (upb_Decode buf pd st0) as [ok st] eqn:Edec. destruct ok; [|done]. injection E as <-. simpl.
  assert (contents st pd = contents st0 ps) as E.
  { rewrite (decode_merges _ _ _ _ _ Ee Edec). unfold st0 at 1. by rewrite contents_cleared, merged_blank. }
  split; [done|]. intros ->. rewrite E. apply contents_cleared.
Qed.
End Copying.

(** ** Walking the fields *)

Section Walking.
Context {V : Type} (nonempty : FieldDef → V → bool).

Lemma next_base_spec (m : cmsg V) fs : ∀ i,
  match next_base nonempty m i fs with
  | Some (j, f) => ∃ k, j = (i + k)%nat ∧ fs !! k = Some f ∧ shown nonempty m f = true ∧
      List.filter (shown nonempty m) fs = f :: List.filter (shown nonempty m) (drop (S k) fs)
  | None => List.filter (shown nonempty m) fs = []
  end.
Proof.
  induction fs as [|f fs IH]; intros i; simpl; [done|].
  destruct (shown nonempty m f) eqn:E.
  - exists O. split_and!; [lia|done|done|done].
  - specialize (IH (S i)). destruct (next_base nonempty m (S i) fs) as [[j g]|]; [|done].
    destruct IH as (k & -> & Hk & Hs & Hf). exists (S k). split_and!; [lia|done|done|done].
Qed.

(** The set fields of the type, each once and in the order of its table; the loop ends. *)
Lemma fields_loop_exact (m : cmsg V) fs fuel : ∀ start av,
  (length fs < fuel + start)%nat → (start ≤ length fs)%nat →
  fields_loop nonempty fuel fs m start av = Ret (av ++ List.filter (shown nonempty m) (drop start fs)).
Proof.
  induction fuel as [|fuel IH]; intros start av Hf Hs; [lia|]. cbn [fields_loop]. unfold upb_Message_Next.
  pose proof (next_base_spec m (drop start fs) start) as Hn.
  destruct (next_base nonempty m start (drop start fs)) as [[j f]|].
  - destruct Hn as (k & -> & Hk & _ & Ef). rewrite lookup_drop in Hk. apply lookup_lt_Some in Hk as Hlt.
    rewrite IH by lia. rewrite Ef, drop_drop, <- app_assoc. simpl.
    by replace (start + S k)%nat with (S (start + k)) by lia.
  - by rewrite Hn, app_nil_r.
Qed.
End Walking.

(** A member of a oneof that was just set is the one found, and with it cleared none. *)
Lemma WhichOneof_set {V} (o : list FieldDef) (m : gmap Z V) f v (siblings : FieldDef → Z → bool) :
  f ∈ o → (∀ g, g ∈ o → f_number g = f_number f → g = f) →
  (∀ g, g ∈ o → f_number g ≠ f_number f → siblings f (f_number g) = true) →
  ∀ a t x,
  let m' := Accessors.SetFieldByDef siblings m f v in
  upb_Message_WhichOneof o {| arena_obj := a; mtype := t; base := m'; aux := x |} = Some f ∧
  upb_Message_WhichOneof o {| arena_obj := a; mtype := t; base := delete (f_number f) m'; aux := x |} = None.
Proof.
  intros Hf Hnum Hsib a t x m'.
  assert (∀ g, g ∈ o → is_Some (m' !! f_number g) ↔ g = f) as Hm.
  { intros g Hg. unfold m', Accessors.SetFieldByDef. destruct (decide (f_number f = f_number g)) as [E|E].
    - rewrite E, lookup_insert_eq. split; [intros _; by apply Hnum|by eexists].
    - rewrite lookup_insert_ne by done. split; [|intros ->; done]. intros [y Hy].
      apply map_lookup_filter_Some in Hy as [_ Hs]. simpl in Hs. rewrite Hsib in Hs; [done|done|congruence]. }
  unfold upb_Message_WhichOneof. simpl. split.
  - destruct (list_find (λ g, is_Some (m' !! f_number g)) o) as [[i g]|] eqn:E.
    + apply list_find_Some in E as (Hi & Hg & _). apply list_elem_of_lookup_2 in Hi. simpl. f_equal. by apply Hm.
    + apply list_find_None in E. rewrite Forall_forall in E. by destruct (E f Hf), (proj2 (Hm f Hf)).
  - destruct (list_find _ o) as [[i g]|] eqn:E; [|done].
    apply list_find_Some in E as (Hi & Hg & _). apply list_elem_of_lookup_2 in Hi.
    rewrite lookup_delete in Hg. case_decide as En; [by destruct Hg|].
    apply (Hm g Hi) in Hg. by subst.
Qed.

(** ** The other operations and the reference counts *)

Section Counts.
Context {V : Type} (derived : string → string → bool) (message_stash : Z → string).
Notation mworld := (mworld V).
Notation minv := (minv derived message_stash).

(** A look-up in the cache gives a reference to a live object, or nothing. *)
Lemma cache_lookup_minv own (w : mworld) ptr : minv own w →
  ∃ r w', on_perl (ObjCache_Get_sv ptr) w = (Ret r, w') ∧
    minv (match r with Some o => give own o | None => own end) w' ∧ store w' = store w.
Proof.
  intros Hi. destruct (ObjCache.ObjCache_Get (oc (perl w)) ptr) as [r c] eqn:Eg.
  destruct (Get_inv _ magic_of_same _ _ _ _ (m_cache _ _ _ _ Hi) Eg) as [_ Hr].
  set (w1 := Build_mworld (set_oc c (perl w)) (mdef_ptrs w) (store w)).
  assert (minv own w1) as Hi1.
  { apply oc_minv; [done|]. intros k v Hk. eapply lookup_weaken; [done|]. by destruct (cache_answer _ _ _ _ Eg). }
  destruct r as [o|].
  - destruct (Hr o eq_refl) as (ob & Ho & _).
    destruct (inc_minv derived message_stash own w1 o Hi1) as (q & Eq & _ & _ & _ & Hi2); [by exists ob|].
    exists (Some o), (Build_mworld q (mdef_ptrs w) (store w)). split; [|by split].
    apply on_perl_run. unfold ObjCache_Get_sv. rewrite (cbind_ret _ _ (perl w) (perl w) (perl w)), Eg by done.
    by rewrite (cbind_ret _ _ (perl w) tt (set_oc c (perl w))), (cbind_ret _ _ _ _ _ Eq) by done.
  - exists None, w1. split; [|by split]. apply on_perl_run. unfold ObjCache_Get_sv.
    rewrite (cbind_ret _ _ (perl w) (perl w) (perl w)), Eg by done. done.
Qed.

(** The audit returns and gives back every reference it took. *)
Lemma audit_fields_minv entry msg_val o (m : cmsg V) fs : ∀ own w, minv own w →
  ∃ b w', audit_fields entry msg_val o m fs w = (Ret b, w') ∧ minv own w'.
Proof.
  induction fs as [|f fs IH]; intros own w Hi; simpl; [by eexists _, _|].
  destruct (entry o (f_name (fdef f))) as [[| |inner]|]; try by apply IH.
  destruct (IsSubMessage (fdef f)); [|by apply IH].
  set (val := match base m !! _ with Some v => _ | None => _ end).
  destruct (val =? 0); [by eexists _, _|].
  destruct (cache_lookup_minv own w val Hi) as (r & w1 & E & Hi1 & _). rewrite (cbind_ret _ _ _ _ _ E).
  destruct r as [c|]; [|by apply IH].
  destruct (dec_minv derived message_stash (give own c) w1 c Hi1 (give_one own c)) as (w2 & E2 & Hi2 & _).
  assert (minv own w2) as Hi3 by (eapply minv_ext; [done|intros; apply take_back_give]).
  destruct (c =? inner); rewrite (cbind_ret _ _ _ _ _ E2); [by apply IH|by eexists _, _].
Qed.

(** It finds nothing wrong in an object that keeps nothing under the names of fields,
    which is where the accessors never keep anything. *)
Lemma audit_vacuous entry msg_val o (m : cmsg V) fs w :
  Forall (λ f, entry o (f_name (fdef f)) = None) fs → audit_fields entry msg_val o m fs w = (Ret true, w).
Proof. induction 1 as [|f fs Hf Hfs IH]; simpl; [done|]. by rewrite Hf. Qed.

(** Adding a message to a repeated field: at the end of the array, in the arena of the
    field's object, with a wrapper of its own. *)
Lemma Repeated_Add_minv own (w : mworld) l f mdef a made : minv own w → IsSubMessage f = true →
  (∃ ab, objects (perl w) !! a = Some ab ∧ stash ab = Some arena_class ∧ arena_of ab = None) →
  made ≠ 0 → live_msg w made = None →
  ∃ o w', Repeated_Add message_stash (Some l) (Some f) mdef (Some (PRef a)) made true w =
      (Ret (PRef o, l ++ [made]), w') ∧
    minv (give own o) w' ∧ store w' !! made = Some (empty_msg a mdef).
Proof.
  intros Hi Hsub (ab & Hab & Hst & Hna) Hm Hf. unfold Repeated_Add. rewrite Hsub.
  rewrite (cbind_ret _ _ w tt w) by done.
  assert (get_arena (Some (PRef a)) w = (Ret a, w)) as E.
  { unfold get_arena. rewrite (cbind_ret _ _ w ab w); [by rewrite bool_decide_eq_true_2|].
    erewrite (on_perl_run _ _ (Ret ab) (perl w)); [by destruct w|]. unfold SvRV. by rewrite Hab. }
  rewrite (cbind_ret _ _ _ _ _ E). set (w1 := set_store (<[made := empty_msg a mdef]> (store w)) w).
  assert (upb_Message_New a mdef made w = (Ret made, w1)) as E1.
  { unfold upb_Message_New. by rewrite (proj2 (Z.eqb_neq made 0)). }
  rewrite (cbind_ret _ _ _ _ _ E1). rewrite (proj2 (Z.eqb_neq made 0)) by done.
  rewrite (cbind_ret _ _ w1 tt w1), (cbind_ret _ _ w1 tt w1) by done.
  assert (minv own w1) as Hi1.
  { apply new_msg_minv; [done|done|]. simpl. apply (inv_next _ _ (m_cache _ _ _ _ Hi)). by rewrite Hab. }
  destruct (WrapMessage_minv derived message_stash own w1 made (empty_msg a mdef) 0 Hi1 (lookup_insert_eq _ _ _) Hm)
    as (o & w2 & E2 & Hi2 & Es2 & _); [by exists ab|].
  exists o, w2. rewrite (cbind_ret _ _ _ _ _ E2). split; [done|]. split; [done|]. rewrite Es2. apply lookup_insert_eq.
Qed.
End Counts.

(** *** Instances *)

(** Messages without sub-messages, written as numbers and values in turn. *)
Definition pairs (l : list (Z * Z)) : bytes := concat (map (λ nv, [nv.1; nv.2]) l).
Fixpoint unpair (buf : bytes) (m : gmap Z Z) : gmap Z Z :=
  match buf with n :: v :: buf => unpair buf (<[n := v]> m) | _ => m end.

Lemma unpair_pairs l : ∀ m, NoDup l.*1 → unpair (pairs l) m = list_to_map l ∪ m.
Proof.
  induction l as [|[n v] l IH]; intros m; simpl; [by rewrite (left_id_L ∅ (∪))|].
  intros [Hn Hnd]%NoDup_cons. change (unpair (pairs l) (<[n:=v]> m) = <[n:=v]> (list_to_map l) ∪ m).
  rewrite IH by done. rewrite <- insert_union_l. symmetry. apply insert_union_r.
  by apply not_elem_of_list_to_map_1.
Qed.

#[local] Instance flat_codec : UpbCodec Z := {|
  upb_Encode st p := (λ m, pairs (map_to_list (base m))) <$> st !! p;
  upb_Decode buf p st :=
    match st !! p with
    | None => (false, st)
    | Some m => (true, <[p := {| arena_obj := arena_obj m; mtype := mtype m; base := unpair buf (base m);
                                 aux := aux m |}]> st)
    end |}.

#[local] Instance flat_laws : CodecLaws Z (gmap Z Z).
Proof.
  refine {| contents st p := default ∅ (base <$> st !! p); blank := ∅; merged a b := b ∪ a;
            merged_blank t := right_id_L ∅ (∪) t; contents_cleared := _; decode_merges := _ |}.
  - intros st p m. by rewrite lookup_insert_eq.
  - intros st dst src buf st'. simpl. destruct (st !! src) as [ms|]; [|done]. intros [= <-].
    destruct (st !! dst) as [md|]; [|done]. intros [= <-]. rewrite lookup_insert_eq. simpl.
    rewrite unpair_pairs by apply NoDup_fst_map_to_list. by rewrite list_to_map_to_list.
Defined.

(** Two messages of one type, at 16 and 32, with fields. *)
Definition two_messages : mworld Z :=
  let '(_, w) := run_mops is_a one_stash [MNew 7 true 16 0; MNew 7 true 32 0] (λ _, 0%nat) (no_messages 8) in
  set_store (<[16 := {| arena_obj := 1; mtype := 7; base := {[1 := 5]}; aux := [] |}]>
    (<[32 := {| arena_obj := 3; mtype := 7; base := {[1 := 6; 2 := 8]}; aux := [] |}]> (store w))) w.

Lemma CopyFrom_exact_witness :
  let md := {| arena_obj := 1; mtype := 7; base := {[1 := 5]}; aux := [] |} in
  let ms := {| arena_obj := 3; mtype := 7; base := {[1 := 6; 2 := 8]}; aux := [] |} in
  let w := two_messages in
  let st0 := <[16 := cleared md]> (store w) in
  let run := Message_CopyFrom is_a (Some (PRef 2)) (Some (PRef 4)) w in
  (run = if decide (mtype md = mtype ms) then
           match upb_Encode st0 32 with
           | None => (Croak "Failed to merge messages", set_store st0 w)
           | Some buf =>
               let '(ok, st) := upb_Decode buf 16 st0 in
               (if ok then Ret tt else Croak "Failed to merge messages", set_store st w)
           end
         else (Croak "Messages must have the same descriptor for MergeFrom", set_store st0 w)) ∧
  (∀ w', run = (Ret tt, w') → contents (store w') 16 = contents st0 32 ∧ (16 = 32 → contents (store w') 16 = blank)).
Proof.
  apply (CopyFrom_exact is_a one_stash (λ _, eq_refl) two_messages 2 4 16 32).
  - split; [|by vm_compute|by vm_compute|].
    + eexists. split; [by vm_compute|]. split; [|done]. split; [done|]. split; [by do 2 eexists|by eexists].
    + eexists. by split; [vm_compute|].
  - split; [|by vm_compute|by vm_compute|].
    + eexists. split; [by vm_compute|]. split; [|done]. split; [done|]. split; [by do 2 eexists|by eexists].
    + eexists. by split; [vm_compute|].
Defined.

(** Copying a message onto itself empties it. *)
Example copy_to_itself :
  let '(out, w) := Message_CopyFrom is_a (Some (PRef 2)) (Some (PRef 2)) two_messages in
  out = Ret tt ∧ contents (store w) 16 = ∅.
Proof. by vm_compute. Qed.
