(* ===== verification/Bindings.v ===== *)
(** * The Perl interface of messages (lib/Protobuf/Message.xs.part)

    The XSUBs that make, hand over and take over message objects, parsing without copying
    strings among them, over [Messages]; and the Perl strings that such messages point
    into. *)

From S2P Require Import Prelude Wrappers Messages.
From S2P Require ObjCache Descriptors MessageOps Serialize.

#[local] Existing Instance Serialize.DecodeStatus_eq_dec.

(** ** Perl's strings

    A buffer has its bytes and the number of scalars that share it; [scalars] are Perl's
    variables, [kept] the hidden copies in the hashes of message objects. *)
Record buffer := { content : bytes; sharers : nat }.

(** A field: a number or the like, a string in the arena, a string in a buffer, a
    sub-message. *)
Inductive fval :=
  | FNumber (z : Z)
  | FCopied (s : bytes)
  | FAliased (buf : Z) (off len : nat)
  | FMessage (ptr : Z).

Record bworld := {
  msgs : mworld fval;
  bufs : gmap Z buffer;
  scalars : gmap Z Z;
  kept : gmap Z Z;
  next_buf : Z }.

Abbreviation bcall := (cmd bworld).

Definition set_msgs (m : mworld fval) (w : bworld) : bworld :=
  {| msgs := m; bufs := bufs w; scalars := scalars w; kept := kept w; next_buf := next_buf w |}.
Definition set_bufs (b : gmap Z buffer) (w : bworld) : bworld :=
  {| msgs := msgs w; bufs := b; scalars := scalars w; kept := kept w; next_buf := next_buf w |}.
Definition set_scalars (s : gmap Z Z) (w : bworld) : bworld :=
  {| msgs := msgs w; bufs := bufs w; scalars := s; kept := kept w; next_buf := next_buf w |}.
Definition set_kept (k : gmap Z Z) (w : bworld) : bworld :=
  {| msgs := msgs w; bufs := bufs w; scalars := scalars w; kept := k; next_buf := next_buf w |}.

Definition on_msgs {A} (m : cmd (mworld fval) A) : bcall A := λ w,
  let '(out, p) := m (msgs w) in (out, set_msgs p w).

(** A new buffer, one sharer more and one less of a buffer. *)
Definition new_buffer (s : bytes) : bcall Z := λ w,
  (Ret (next_buf w),
   {| msgs := msgs w; bufs := <[next_buf w := {| content := s; sharers := 1 |}]> (bufs w);
      scalars := scalars w; kept := kept w; next_buf := next_buf w + 1 |}).
Definition share_buffer (b : Z) (w : bworld) : bworld :=
  set_bufs (alter (λ x, {| content := content x; sharers := S (sharers x) |}) b (bufs w)) w.
Definition unshare_buffer (b : Z) (w : bworld) : bworld :=
  match bufs w !! b with
  | Some x =>
      match sharers x with
      | S (S n) => set_bufs (<[b := {| content := content x; sharers := S n |}]> (bufs w)) w
      | _ => set_bufs (delete b (bufs w)) w
      end
  | None => w
  end.

(** Perl assigns a string to a variable, undefines it, changes its bytes: in place if
    nobody shares them, or else in a copy of its own. *)
Definition sv_undef (s : Z) (w : bworld) : bworld :=
  match scalars w !! s with
  | Some b => unshare_buffer b (set_scalars (delete s (scalars w)) w)
  | None => w
  end.
Definition sv_assign (s : Z) (str : bytes) : bcall unit :=
  cmodify (sv_undef s);;
  b ← new_buffer str;
  cmodify (λ w, set_scalars (<[s := b]> (scalars w)) w).
Definition sv_write (s : Z) (str : bytes) : bcall unit :=
  w ← cget;
  match scalars w !! s with
  | None => sv_assign s str
  | Some b =>
      match bufs w !! b with
      | Some {| content := _; sharers := 1 |} =>
          cmodify (λ w, set_bufs (<[b := {| content := str; sharers := 1 |}]> (bufs w)) w)
      | _ => sv_assign s str
      end
  end.

(** [newSVsv] of a string in the buffer [b]: whether Perl lets the copy share it. *)
Definition copy_string (shared : bool) (b : Z) (buf : bytes) : bcall Z :=
  if shared then cmodify (share_buffer b);; mret b else new_buffer buf.

(** When Perl frees an object it frees what its hash holds. *)
Definition free_kept (o : Z) (w : bworld) : bworld :=
  match kept w !! o with
  | Some b =>
      if bool_decide (is_Some (objects (perl (msgs w)) !! o)) then w
      else unshare_buffer b (set_kept (delete o (kept w)) w)
  | None => w
  end.
Definition sweep (w : bworld) : bworld := foldr free_kept w (map_to_list (kept w)).*1.

(** What a reader of a string field sees. *)
Definition read_text (w : bworld) (v : fval) : outcome bytes :=
  match v with
  | FCopied s => Ret s
  | FAliased b off len =>
      match bufs w !! b with
      | Some x =>
          if (off + len <=? length (content x))%nat then Ret (take len (drop off (content x)))
          else Fault "past the end of the string"
      | None => Fault "freed string"
      end
  | _ => Croak "not a string"
  end.

(** ** Message.xs.part *)

Definition PROFILE_WRITE_HEAVY : Z := 2.
Definition PROFILE_READ_HEAVY : Z := 4.
Definition PROFILE_ZERO_COPY : Z := 8.

(** [options->{profile}]. *)
Definition profile_flags (profile : option string) : Z :=
  match profile with
  | Some p =>
      if bool_decide (p = "write_heavy") then PROFILE_WRITE_HEAVY
      else if bool_decide (p = "read_heavy") then PROFILE_READ_HEAVY
      else if bool_decide (p = "zero_copy") then PROFILE_ZERO_COPY
      else 0
  | None => 0
  end%string.

(** What the decoder leaves: the contents of messages at addresses, the parsed one first. *)
Abbreviation decoded := (list (Z * (Z * gmap Z fval * list (aux_entry fval)))).

Section Xsubs.
Context (derived : string → string → bool) (message_stash : Z → string).
(** [upb_Decode] into a message of a type: whether strings are aliased, the bytes and the
    buffer they are in. *)
Context (upb_Decode : bool → bytes → Z → Z → Z → Serialize.DecodeStatus * decoded).
Notation mcall := (cmd (mworld fval)).

(** [_xs_new_from_def]. *)
Definition xs_new_from_def (mdef_sv : option psv) (has_minitable : Z → bool) (made flags : Z) : mcall psv :=
  mdef ← on_perl (Descriptors.MessageDef_GetMessage derived mdef_sv);
  cguard (negb (mdef =? 0)) "Invalid MessageDef provided to new()";;
  NewMessage derived message_stash mdef_sv has_minitable made flags.

(** [_xs_new_from_def_in_arena], from the message type on. *)
Definition new_in_arena (mdef : Z) (arena_sv : option psv) (made flags : Z) : mcall psv :=
  arena ← MessageOps.get_arena arena_sv;
  msg ← upb_Message_New arena mdef made;
  cguard (negb (msg =? 0)) "Failed to allocate upb_Message in provided arena";;
  WrapMessage message_stash msg mdef arena_sv flags.
Definition xs_new_from_def_in_arena (mdef_sv arena_sv : option psv) (made flags : Z) : mcall psv :=
  mdef ← on_perl (Descriptors.MessageDef_GetMessage derived mdef_sv);
  cguard (negb (mdef =? 0)) "Invalid MessageDef provided";;
  new_in_arena mdef arena_sv made flags.

(** [_xs_get_arena], with the reference it adds. *)
Definition xs_get_arena (self : option psv) : mcall psv :=
  arena ← Message_GetArena self;
  match arena with
  | Some sv => on_perl (newSVsv sv)
  | None => mret PUndef
  end.

(** [_xs_validate]. *)
Definition xs_validate (self : option psv) : mcall bool :=
  msg ← Message_GetMsg derived self;
  mret (negb (msg =? 0)).

(** [_xs_coerce_to]: [sv_bless] blesses what the reference points to. *)
Definition sv_bless (o : Z) (class : string) : call unit :=
  ob ← SvRV o;
  cmodify (λ w, set_objects (<[o := {| refcnt := refcnt ob; stash := Some class; contents := contents ob;
                                       ext_magic := ext_magic ob |}]> (objects w)) w).
Definition xs_coerce_to (self : option psv) (target_class_name : string) : mcall psv :=
  msg ← Message_GetMsg derived self;
  mdef ← Message_GetDef self;
  arena_sv ← Message_GetArena self;
  sv ← WrapMessage message_stash msg mdef arena_sv 0;
  match sv with
  | PRef o => on_perl (sv_bless o target_class_name);; mret sv
  | _ => ccroak "Can't bless non-reference value"
  end.

(** [_xs_detach]: the pointers of the hash it answers. *)
Definition clear_magic (o : Z) : call unit :=
  ob ← SvRV o;
  match ext_magic ob with
  | Some (_, flags) =>
      cmodify (λ w, set_objects (<[o := {| refcnt := refcnt ob; stash := stash ob; contents := contents ob;
                                           ext_magic := Some (0, flags) |}]> (objects w)) w)
  | None => mret tt
  end.
Definition xs_detach (self : option psv) : mcall (Z * Z) :=
  msg ← Message_GetMsg derived self;
  mdef ← Message_GetDef self;
  cguard (negb ((msg =? 0) || (mdef =? 0))) "Cannot detach invalid message";;
  on_perl (cmodify (λ w, set_oc (ObjCache.ObjCache_Delete (oc w) msg) w));;
  match self with
  | Some (PRef o) => on_perl (clear_magic o)
  | _ => mret tt
  end;;
  mret (msg, mdef).

(** [_xs_attach]: [info] has the two integers, or lacks one. *)
Definition xs_attach (info : option (option Z * option Z)) (arena_sv : option psv) : mcall psv :=
  match info with
  | None => ccroak "attach() info must be a hash ref"
  | Some (Some msg, Some mdef) => WrapMessage message_stash msg mdef arena_sv 0
  | Some _ => ccroak "Invalid attach() info"
  end.

(** [_xs_migrate_to_arena]. *)
Definition xs_migrate_to_arena (self arena_sv : option psv) (made : Z) : mcall psv :=
  Message_GetMsg derived self;;
  mdef ← Message_GetDef self;
  arena ← MessageOps.get_arena arena_sv;
  (if mdef =? 0 then cfault "upb_MessageDef_MiniTable(NULL)" else mret tt);;
  upb_Message_New arena mdef made;;
  ccroak "Message migration requires upb_Message_DeepCopy (not available in current upb)".

(** The messages the decoder leaves, in the arena it was given. *)
Definition write_decoded (arena : Z) (l : decoded) : mcall unit :=
  cmodify (λ w, set_store
    (foldr (λ d st, <[d.1 := {| arena_obj := arena; mtype := d.2.1.1; base := d.2.1.2; aux := d.2.2 |}]> st) (store w) l) w).

(** [_xs_parse], from the message type on: [data] is in the variable [s]; [made] is what
    [upb_Message_New] gets; [shared] says whether Perl lets the copy of [data] share its
    bytes. *)
Definition parse_message (mdef : Z) (s : Z) (flags made : Z) (shared : bool) : bcall psv :=
  w ← cget;
  match scalars w !! s ≫= λ b, (λ x, (b, content x)) <$> bufs w !! b with
  | None => cfault "no string"
  | Some (b, buf) =>
      arena ← on_msgs (on_perl (new_object arena_object));
      msg ← on_msgs (upb_Message_New arena mdef made);
      if msg =? 0 then on_msgs (SvREFCNT_dec arena);; ccroak "Failed to allocate upb_Message"
      else
        let zero_copy := negb (Z.land flags PROFILE_ZERO_COPY =? 0) in
        let '(status, l) := upb_Decode zero_copy buf b msg mdef in
        on_msgs (write_decoded arena l);;
        (if bool_decide (status = Serialize.DecodeOk) then mret tt
         else on_msgs (SvREFCNT_dec arena);; Serialize.DecodeStatus_Die status "parse message");;
        self ← on_msgs (WrapMessage message_stash msg mdef (Some (PRef arena)) flags);
        match self with
        | PRef o =>
            (if zero_copy then
               c ← copy_string shared b buf;
               cmodify (λ w, set_kept (<[o := c]> (kept w)) w)
             else mret tt);;
            on_msgs (SvREFCNT_dec arena);;
            mret self
        | _ => cfault "SvRV of undef"
        end
  end.

(** [_xs_parse]: what calling the method [descriptor] of the class gives, if it gives one
    value. *)
Definition xs_parse (class_name : string) (descriptor : option (option psv)) (s : Z) (profile : option string)
    (made : Z) (shared : bool) : bcall psv :=
  match descriptor with
  | None => ccroak ("Failed to get descriptor for class " +:+ class_name)
  | Some descriptor_sv =>
      mdef ← on_msgs (on_perl (Descriptors.MessageDef_GetMessage derived descriptor_sv));
      cguard (negb (mdef =? 0)) ("Could not find descriptor for message class " +:+ class_name);;
      parse_message mdef s (profile_flags profile) made shared
  end.
End Xsubs.

(** ** Histories *)

(** The calls of [Messages], the XSUBs above on what Perl holds, a field set to a value
    that is not aliased (the setters copy), a parse, and changes of Perl's variables. *)
Inductive bop :=
  | BMsg (op : mop)
  | BNewIn (mdef arena made flags : Z)
  | BGetArena (self : Z)
  | BCoerce (self : Z) (class : string)
  | BDetach (self : Z)
  | BAttach (msg mdef arena : Z)
  | BField (p f : Z) (v : fval)
  | BParse (mdef s flags made : Z) (shared : bool)
  | BAssign (s : Z) (str : bytes)
  | BWrite (s : Z) (str : bytes)
  | BUndef (s : Z).

Section Histories.
Context (derived : string → string → bool) (message_stash : Z → string).
Context (upb_Decode : bool → bytes → Z → Z → Z → Serialize.DecodeStatus * decoded).

Definition set_field (p f : Z) (v : fval) : cmd (mworld fval) unit :=
  m ← read_msg p;
  write_msg p {| arena_obj := arena_obj m; mtype := mtype m; base := <[f := v]> (base m); aux := aux m |}.

Definition run_bop_only (op : bop) : bcall psv :=
  match op with
  | BMsg op => on_msgs (run_mop derived message_stash op)
  | BNewIn mdef a made flags => on_msgs (new_in_arena message_stash mdef (Some (PRef a)) made flags)
  | BGetArena o => on_msgs (xs_get_arena (Some (PRef o)))
  | BCoerce o class => on_msgs (xs_coerce_to derived message_stash (Some (PRef o)) class)
  | BDetach o => on_msgs (xs_detach derived (Some (PRef o)));; mret PUndef
  | BAttach msg mdef a => on_msgs (xs_attach message_stash (Some (Some msg, Some mdef)) (Some (PRef a)))
  | BField p f v => on_msgs (set_field p f v);; mret PUndef
  | BParse mdef s flags made shared => parse_message message_stash upb_Decode mdef s flags made shared
  | BAssign s str => sv_assign s str;; mret PUndef
  | BWrite s str => sv_write s str;; mret PUndef
  | BUndef s => cmodify (sv_undef s);; mret PUndef
  end.
(** Objects that died in the call give up what their hashes held. *)
Definition run_bop (op : bop) : bcall psv := λ w, let '(out, w) := run_bop_only op w in (out, sweep w).

Definition owned_by_perl (own : Z → nat) (op : bop) (out : outcome psv) : Z → nat :=
  match op, out with
  | BMsg op, _ => owned_after own op out
  | _, Ret (PRef o) => give own o
  | _, _ => own
  end.

(** Perl passes references it holds; memory comes from addresses nothing live is at; the
    decoder puts the message and its sub-messages there, aliases only when asked to and
    inside its input. *)
Definition decoded_ok (w : mworld fval) (made mdef : Z) (alias : bool) (b : Z) (buf : bytes) (l : decoded) : Prop :=
  l.*1 !! 0%nat = Some made ∧ fst ∘ fst ∘ snd <$> l !! 0%nat = Some mdef ∧ NoDup l.*1 ∧
  (∀ p, p ∈ l.*1 → p ≠ 0 ∧ live_msg w p = None) ∧
  ∀ d f v, d ∈ l → d.2.1.2 !! f = Some v →
    match v with
    | FAliased b' off len => alias = true ∧ b' = b ∧ (off + len ≤ length buf)%nat
    | _ => True
    end.

Definition bop_ok (own : Z → nat) (w : bworld) (op : bop) : Prop :=
  match op with
  | BMsg op => mop_ok own (msgs w) op
  | BNewIn _ a made _ => (1 ≤ own a)%nat ∧ (∃ ab, objects (perl (msgs w)) !! a = Some ab ∧ arena_like ab) ∧
      (made = 0 ∨ live_msg (msgs w) made = None)
  | BGetArena o | BDetach o => (1 ≤ own o)%nat
  | BCoerce o class => (1 ≤ own o)%nat ∧ derived class message_class = true
  | BAttach msg mdef a => msg ≠ 0 ∧ (1 ≤ own a)%nat ∧
      ∃ m, store (msgs w) !! msg = Some m ∧ mtype m = mdef ∧ arena_obj m = a ∧
        ∃ ab, objects (perl (msgs w)) !! a = Some ab ∧ arena_like ab
  | BField p _ v => is_Some (live_msg (msgs w) p) ∧ match v with FAliased _ _ _ => False | _ => True end
  | BParse mdef s flags made _ => is_Some (scalars w !! s) ∧
      (made = 0 ∨ ∀ b x, scalars w !! s = Some b → bufs w !! b = Some x →
        let alias := negb (Z.land flags PROFILE_ZERO_COPY =? 0) in
        decoded_ok (msgs w) made mdef alias b (content x) (upb_Decode alias (content x) b made mdef).2)
  | BAssign _ _ | BWrite _ _ | BUndef _ => True
  end.

Fixpoint run_bops (ops : list bop) (own : Z → nat) (w : bworld) : (Z → nat) * bworld :=
  match ops with
  | [] => (own, w)
  | op :: ops => let '(out, w) := run_bop op w in run_bops ops (owned_by_perl own op out) w
  end.
Fixpoint bops_ok (ops : list bop) (own : Z → nat) (w : bworld) : Prop :=
  match ops with
  | [] => True
  | op :: ops => bop_ok own w op ∧ let '(out, w') := run_bop op w in bops_ok ops (owned_by_perl own op out) w'
  end.
End Histories.

Definition no_bindings (capacity : Z) : bworld :=
  {| msgs := no_messages capacity; bufs := ∅; scalars := ∅; kept := ∅; next_buf := 1 |}.

(** ** Message objects *)

Section Objects.
Context (derived : string → string → bool) (message_stash : Z → string).
Notation minv := (minv derived message_stash (V := fval)).
Notation stands_for := (stands_for derived message_stash).

Lemma holders_same m o ob ob' a : m !! o = Some ob → arena_of ob' = arena_of ob →
  holders (<[o := ob']> m) a = holders m a.
Proof.
  intros Ho E. rewrite (msg_holders_delete m o ob a Ho), <- insert_delete_eq.
  rewrite msg_holders_insert by apply lookup_delete_eq. by rewrite E.
Qed.

(** An object of a message gets another class, or loses its pointer. *)
Lemma retag_minv own (w : mworld fval) o ob ob' : minv own w → objects (perl w) !! o = Some ob → ¬ arena_like ob →
  refcnt ob' = refcnt ob → contents ob' = contents ob → (∀ t p, stands_for t ob p → stands_for t ob' p) →
  (∀ k, ObjCache.cache (oc (perl w)) !! k = Some (Some o) → magic_of ob' k) →
  minv own (Build_mworld (set_objects (<[o := ob']> (objects (perl w))) (perl w)) (mdef_ptrs w) (store w)).
Proof.
  intros [Hc Hi Hs Hst] Ho Hna Hn Ec Hsf Hcache.
  assert (arena_of ob' = arena_of ob) as Ea by (unfold arena_of; by rewrite Ec).
  split; cbn; [| | |done].
  - destruct Hc as [Hr Hg]. split; intros x.
    + intros xb. rewrite (holders_same _ _ _ _ _ Ho Ea), lookup_insert. case_decide; [|apply Hr].
      intros [= <-]. subst x. rewrite Hn. by apply Hr.
    + rewrite (holders_same _ _ _ _ _ Ho Ea), lookup_insert. case_decide; [done|apply Hg].
  - split; cbn.
    + intros k x Hk. destruct (inv_cached _ _ Hi k x Hk) as (Hk0 & xb & Hx & HR). split; [done|].
      rewrite lookup_insert. case_decide; [subst x; eauto|eauto].
    + intros x. rewrite lookup_insert. case_decide; [|apply (inv_next _ _ Hi)].
      subst x. intros _. apply (inv_next _ _ Hi). by rewrite Ho.
  - assert (∀ a ab, objects (perl w) !! a = Some ab → arena_of ab = None →
      ∃ ab', <[o := ob']> (objects (perl w)) !! a = Some ab' ∧ arena_of ab' = None) as Hk.
    { intros a ab Ha Hn'. rewrite lookup_insert. case_decide; [|eauto]. subst a. eexists. split; [done|]. congruence. }
    intros x xb. rewrite lookup_insert. case_decide as Ex.
    + intros [= <-]. subst x. destruct (Hs _ _ Ho) as [?|(p & m & H1 & H2 & H3 & H4 & H5 & ab & H6 & H7)]; [done|].
      right. exists p, m. split_and!; try done; [by apply Hsf|congruence|]. by eapply Hk.
    + intros Hx. destruct (Hs _ _ Hx) as [?|(p & m & H1 & H2 & H3 & H4 & H5 & ab & H6 & H7)]; [by left|].
      right. exists p, m. split_and!; try done. by eapply Hk.
Qed.

(** What the object says of its message. *)
Lemma object_answers own (w : mworld fval) o ob : minv own w → (∀ t, derived (message_stash t) message_class = true) →
  objects (perl w) !! o = Some ob → ¬ arena_like ob → ∃ p m,
    Message_GetMsg derived (Some (PRef o)) w = (Ret p, w) ∧ p ≠ 0 ∧ store w !! p = Some m ∧
    Message_GetDef (Some (PRef o)) w = (Ret (mtype m), w) ∧
    Message_GetArena (Some (PRef o)) w = (Ret (Some (PRef (arena_obj m))), w) ∧ stands_for (mtype m) ob p ∧
    arena_of ob = Some (arena_obj m) ∧ ∃ ab, objects (perl w) !! arena_obj m = Some ab ∧ arena_of ab = None.
Proof.
  intros Hi Hder Ho Hna. destruct (m_shape _ _ _ _ Hi _ _ Ho) as [?|(p & m & Hs & Hp & Hw & Ha & Hd & ab & Hab & Hn)]; [done|].
  exists p, m. split_and!; try done; [by eapply stands_reads| | |by eauto].
  - unfold Message_GetDef. rewrite (cbind_ret _ _ w ob w).
    2: { erewrite (on_perl_run _ _ (Ret ob) (perl w)); [by destruct w|]. unfold SvRV. by rewrite Ho. }
    destruct Hw as (_ & (ar & po & ->) & _). rewrite (cbind_ret _ _ w w w) by done. by rewrite Hd.
  - rewrite (GetArena_run w o ob Ho). destruct Hw as (_ & (ar & po & Ec) & _).
    unfold arena_of in Ha. rewrite Ec in Ha |- *. destruct ar as [[| |a]|]; naive_solver.
Qed.

Hypothesis message_classes : ∀ t, derived (message_stash t) message_class = true.

(** A call that answers or croaks, and keeps the counts right. *)
Definition sound {A} (own : Z → nat) (m : cmd (mworld fval) A) (after : outcome A → Z → nat) (w : mworld fval) : Prop :=
  let '(out, w') := m w in safe out ∧ minv (after out) w'.

Lemma sound_bind {A B} own (m : cmd (mworld fval) A) (k : A → cmd (mworld fval) B) after w a w' :
  m w = (Ret a, w') → sound own (k a) after w' → sound own (m ≫= k) after w.
Proof. intros E H. unfold sound. by rewrite (cbind_ret _ _ _ _ _ E). Qed.

Lemma get_arena_run (w : mworld fval) a ab : objects (perl w) !! a = Some ab → arena_like ab →
  MessageOps.get_arena (Some (PRef a)) w = (Ret a, w).
Proof.
  intros Ha (_ & _ & Hst). unfold MessageOps.get_arena. rewrite (cbind_ret _ _ w ab w); [by rewrite bool_decide_eq_true_2|].
  erewrite (on_perl_run _ _ (Ret ab) (perl w)); [by destruct w|]. unfold SvRV. by rewrite Ha.
Qed.

Lemma New_in (w : mworld fval) own a ab mdef made : minv own w → objects (perl w) !! a = Some ab → made ≠ 0 →
  live_msg w made = None → let w' := set_store (<[made := empty_msg a mdef]> (store w)) w in
  upb_Message_New a mdef made w = (Ret made, w') ∧ minv own w'.
Proof.
  intros Hi Ha Hm Hf w'. split; [unfold upb_Message_New; by rewrite (proj2 (Z.eqb_neq made 0))|].
  apply new_msg_minv; [done|done|]. apply (inv_next _ _ (m_cache _ _ _ _ Hi) a). by rewrite Ha.
Qed.

Lemma new_in_arena_sound own w mdef a ab made flags : minv own w → objects (perl w) !! a = Some ab → arena_like ab →
  made = 0 ∨ live_msg w made = None → sound own (new_in_arena message_stash mdef (Some (PRef a)) made flags) (gives own) w.
Proof.
  intros Hi Ha Hal Hf. unfold new_in_arena. eapply sound_bind; [by eapply get_arena_run|].
  destruct (Z.eqb_spec made 0) as [->|Hm].
  { eapply sound_bind; [done|]. by split. }
  destruct Hf as [?|Hf]; [done|]. destruct (New_in w own a ab mdef made Hi Ha Hm Hf) as [E Hi'].
  eapply sound_bind; [exact E|]. rewrite (proj2 (Z.eqb_neq made 0)) by done. eapply sound_bind; [done|].
  destruct (WrapMessage_minv derived message_stash own _ made (empty_msg a mdef) flags Hi' (lookup_insert_eq _ _ _) Hm)
    as (o & w2 & E2 & Hi2 & _); [exists ab; split; [done|by apply arena_like_none]|].
  cbn [empty_msg mtype arena_obj] in E2. unfold sound. by rewrite E2.
Qed.

Lemma get_arena_sound own w o : minv own w → (1 ≤ own o)%nat → sound own (xs_get_arena (Some (PRef o))) (gives own) w.
Proof.
  intros Hi Ho. destruct (owned_alive _ _ _ (m_counts _ _ _ _ Hi) Ho) as [ob Hob]. unfold xs_get_arena.
  eapply sound_bind; [by eapply GetArena_run|].
  destruct (m_shape _ _ _ _ Hi _ _ Hob) as [[-> _]|(p & m & Hs & Hp & Hw & Ha & Hd & ab & Hab & Hn)]; [by split|].
  unfold arena_of in Ha. destruct (contents ob) as [up [[| |a]|] pool|]; try done. injection Ha as ->.
  destruct (inc_minv derived message_stash own w (arena_obj m) Hi) as (q & Eq & _ & _ & _ & Hi2); [by exists ab|].
  assert (newSVsv (PRef (arena_obj m)) (perl w) = (Ret (PRef (arena_obj m)), q)) as E.
  { cbn [newSVsv]. by rewrite (cbind_ret _ _ _ _ _ Eq). }
  unfold sound. rewrite (on_perl_run _ _ _ _ E). by split.
Qed.

(** The arena's own objects are no messages. *)
Lemma arena_croaks (w : mworld fval) o ob : objects (perl w) !! o = Some ob → arena_like ob →
  ∃ msg, Message_GetMsg derived (Some (PRef o)) w = (Croak msg, w).
Proof.
  intros Ho (Ec & Em & Es). assert (SvRV o (perl w) = (Ret ob, perl w)) as Er by (unfold SvRV; by rewrite Ho).
  assert (GetArenaBoundObject_Silent derived (Some (PRef o)) (Some message_class) (perl w) = (Ret 0, perl w)) as E.
  { unfold GetArenaBoundObject_Silent. rewrite (cbind_ret _ _ _ _ _ Er), Ec, Em. by destruct (negb _). }
  assert (∃ msg, GetArenaBoundObject derived (Some (PRef o)) (Some message_class) (perl w) = (Croak msg, perl w)) as [msg E2].
  { unfold GetArenaBoundObject. cbn [SvOK negb]. rewrite (cbind_ret _ _ _ _ _ E). cbn [Z.eqb negb].
    rewrite (cbind_ret _ _ _ _ _ Er), Ec. case_bool_decide; [by eexists|]. by destruct (negb _); eexists. }
  exists msg. unfold Message_GetMsg. rewrite (on_perl_run _ _ _ _ E2). by destruct w.
Qed.

Lemma coerce_sound own w o class : minv own w → (1 ≤ own o)%nat → derived class message_class = true →
  sound own (xs_coerce_to derived message_stash (Some (PRef o)) class) (gives own) w.
Proof.
  intros Hi Ho Hc. destruct (owned_alive _ _ _ (m_counts _ _ _ _ Hi) Ho) as [ob Hob]. unfold xs_coerce_to.
  destruct (m_shape _ _ _ _ Hi _ _ Hob) as [Hal|(p0 & m0 & _ & _ & Hw0 & _)].
  { destruct (arena_croaks w o ob Hob Hal) as [msg E]. unfold sound. by rewrite (cbind_croak _ _ _ _ _ E). }
  assert (¬ arena_like ob) as Hna by (intros (_ & Em & _); destruct Hw0 as (_ & _ & (q & fl & Em' & _)); congruence).
  destruct (object_answers own w o ob Hi message_classes Hob Hna) as (p & m & E1 & Hp & Hs & E2 & E3 & _ & _ & ab & Hab & Hn).
  eapply sound_bind; [exact E1|]. eapply sound_bind; [exact E2|]. eapply sound_bind; [exact E3|].
  destruct (WrapMessage_minv derived message_stash own w p m 0 Hi Hs Hp) as (x & w2 & E4 & Hi2 & _ & xb & Hx & (fl & Hm));
    [by exists ab|].
  eapply sound_bind; [exact E4|]. set (xb' := {| refcnt := refcnt xb; stash := Some class; contents := contents xb; ext_magic := ext_magic xb |}).
  assert (sv_bless x class (perl w2) = (Ret tt, set_objects (<[x := xb']> (objects (perl w2))) (perl w2))) as Eb.
  { unfold sv_bless. rewrite (cbind_ret _ _ (perl w2) xb (perl w2)) by (unfold SvRV; by rewrite Hx). done. }
  eapply sound_bind; [by apply on_perl_run|]. split; [done|]. cbn [gives].
  apply (retag_minv _ _ _ xb); try done.
  - intros (_ & Em & _). congruence.
  - intros t q (_ & Hcon & Hq). split; [right; by exists class|]. by split.
  - intros k Hk. destruct (inv_cached _ _ (m_cache _ _ _ _ Hi2) k x Hk) as (_ & xb2 & Hx2 & HR). rewrite Hx in Hx2. by simplify_eq.
Qed.

Lemma detach_sound own w o : minv own w → (1 ≤ own o)%nat → sound own (xs_detach derived (Some (PRef o))) (λ _, own) w.
Proof.
  intros Hi Ho. destruct (owned_alive _ _ _ (m_counts _ _ _ _ Hi) Ho) as [ob Hob]. unfold xs_detach.
  destruct (m_shape _ _ _ _ Hi _ _ Hob) as [Hal|(p0 & m0 & _ & _ & Hw0 & _)].
  { destruct (arena_croaks w o ob Hob Hal) as [msg E]. unfold sound. by rewrite (cbind_croak _ _ _ _ _ E). }
  assert (¬ arena_like ob) as Hna by (intros (_ & Em & _); destruct Hw0 as (_ & _ & (q & fl & Em' & _)); congruence).
  destruct (object_answers own w o ob Hi message_classes Hob Hna)
    as (p & m & E1 & Hp & Hs & E2 & _ & Hst & _). pose proof Hst as (_ & _ & (q & fl & Em & Hq)).
  eapply sound_bind; [exact E1|]. eapply sound_bind; [exact E2|].
  rewrite (proj2 (Z.eqb_neq p 0)) by done. cbn [orb]. destruct (Z.eqb_spec (mtype m) 0); [by split|].
  eapply sound_bind; [done|].
  set (w1 := Build_mworld (set_oc (ObjCache.ObjCache_Delete (oc (perl w)) p) (perl w)) (mdef_ptrs w) (store w)).
  assert (minv own w1) as Hi1.
  { apply oc_minv; [done|]. intros k v Hk. eapply lookup_weaken; [done|]. apply Delete_sub. }
  eapply sound_bind; [by apply on_perl_run|]. fold w1.
  set (ob' := {| refcnt := refcnt ob; stash := stash ob; contents := contents ob; ext_magic := Some (0, fl) |}).
  assert (clear_magic o (perl w1) = (Ret tt, set_objects (<[o := ob']> (objects (perl w1))) (perl w1))) as Ec.
  { unfold clear_magic. rewrite (cbind_ret _ _ (perl w1) ob (perl w1)) by (unfold SvRV; cbn; by rewrite Hob). by rewrite Em. }
  eapply sound_bind; [by apply on_perl_run|]. split; [done|]. apply (retag_minv _ _ _ ob); try done.
  - intros t p' (Hc & Hcon & _). split; [done|]. split; [done|]. exists 0, fl. by split; [|right].
  - intros k Hk. exfalso. destruct (inv_cached _ _ (m_cache _ _ _ _ Hi1) k o Hk) as (Hk0 & ob2 & Ho2 & (fl2 & HR)).
    cbn in Ho2. rewrite Hob in Ho2. injection Ho2 as <-. rewrite Em in HR. injection HR as -> _.
    destruct Hq as [->|?]; [|done]. cbn in Hk. destruct (ObjCache.Delete_spec (oc (perl w)) p) as (_ & _ & Ed).
    rewrite Ed, decide_False, lookup_delete_eq in Hk by done. done.
Qed.

Lemma attach_sound own w msg m a ab : minv own w → msg ≠ 0 → store w !! msg = Some m → arena_obj m = a →
  objects (perl w) !! a = Some ab → arena_like ab →
  sound own (xs_attach message_stash (Some (Some msg, Some (mtype m))) (Some (PRef a))) (gives own) w.
Proof.
  intros Hi Hm Hs <- Ha Hal. cbn [xs_attach].
  destruct (WrapMessage_minv derived message_stash own w msg m 0 Hi Hs Hm) as (o & w2 & E2 & Hi2 & _);
    [exists ab; split; [done|by apply arena_like_none]|].
  unfold sound. by rewrite E2.
Qed.

(** Changes inside a message. *)
Lemma write_same_minv own (w : mworld fval) p m m' : minv own w → store w !! p = Some m → arena_obj m' = arena_obj m →
  mtype m' = mtype m → minv own (set_store (<[p := m']> (store w)) w).
Proof.
  intros [Hc Hi Hs Hst] Hp Ea Et. split; cbn; [done|done| |intros q x; rewrite lookup_insert; case_decide; [|apply Hst]].
  - intros o ob Ho. destruct (Hs _ _ Ho) as [?|(q & x & H1 & H2 & H3 & H4 & H5 & ab & H6 & H7)]; [by left|]. right.
    exists q. destruct (decide (p = q)) as [->|Hne].
    + rewrite Hp in H1. injection H1 as <-. exists m'. rewrite Ea, Et. split; [cbn; by rewrite lookup_insert_eq|]. split_and!; eauto.
    + exists x. split; [cbn; by rewrite lookup_insert_ne|]. split_and!; eauto.
  - intros [= <-]. rewrite Ea. by eapply Hst.
Qed.

Lemma set_field_sound own w p f v : minv own w → is_Some (live_msg w p) →
  sound own (set_field p f v) (λ _, own) w.
Proof.
  intros Hi [m Hl]. unfold set_field. eapply sound_bind; [unfold read_msg; by rewrite Hl|].
  split; [done|]. apply (write_same_minv own w p m); try done. unfold live_msg in Hl.
  destruct (store w !! p); [|done]. by case_bool_decide; simplify_eq.
Qed.
End Objects.

(** ** Who shares a buffer *)

Definition holding (m : gmap Z Z) (b : Z) : nat := size (filter (λ p, p.2 = b) m).

Lemma holding_insert m k v b : m !! k = None →
  holding (<[k := v]> m) b = ((if decide (v = b) then 1 else 0) + holding m b)%nat.
Proof.
  intros Hk. unfold holding. case_decide as E.
  - rewrite map_filter_insert_True by done. rewrite map_size_insert_None; [done|].
    apply map_lookup_filter_None. by left.
  - rewrite map_filter_insert_False by done. by rewrite delete_id.
Qed.

Lemma holding_delete m k v b : m !! k = Some v →
  holding m b = ((if decide (v = b) then 1 else 0) + holding (delete k m) b)%nat.
Proof.
  intros Hk. rewrite <- (holding_insert _ k) by apply lookup_delete_eq. by rewrite insert_delete_id.
Qed.

Lemma holding_empty b : holding ∅ b = 0%nat.
Proof. unfold holding. by rewrite map_filter_empty, map_size_empty. Qed.

Definition holders_of (w : bworld) (b : Z) : nat := (holding (scalars w) b + holding (kept w) b)%nat.

(** Every buffer counts its holders, and the one in hand, if any. *)
Definition balanced (hand : option Z) (w : bworld) : Prop := ∀ b,
  match bufs w !! b with
  | Some x => sharers x = (holders_of w b + if decide (hand = Some b) then 1 else 0)%nat ∧ (1 ≤ sharers x)%nat ∧ b < next_buf w
  | None => holders_of w b = 0%nat ∧ hand ≠ Some b
  end.

(** The buffers that are there after a call keep their bytes, and so do the hidden copies
    of the objects that are alive. *)
Definition unread (w w' : bworld) : Prop := ∀ o b x, kept w !! o = Some b → bufs w !! b = Some x →
  kept w' !! o = Some b ∧ ∃ x', bufs w' !! b = Some x' ∧ content x' = content x.

Lemma still_held hand w o b : balanced hand w → kept w !! o = Some b → is_Some (bufs w !! b).
Proof.
  intros Hb Ho. specialize (Hb b). destruct (bufs w !! b); [done|]. destruct Hb as [Hb _].
  unfold holders_of in Hb. rewrite (holding_delete (kept w) o b b Ho), decide_True in Hb by done. lia.
Qed.

Lemma unshare_balanced b w : balanced (Some b) w →
  balanced None (unshare_buffer b w) ∧ scalars (unshare_buffer b w) = scalars w ∧ kept (unshare_buffer b w) = kept w ∧
  msgs (unshare_buffer b w) = msgs w ∧
  ∀ b' x, bufs (unshare_buffer b w) !! b' = Some x → ∃ x0, bufs w !! b' = Some x0 ∧ content x = content x0.
Proof.
  intros Hb. pose proof (Hb b) as Hbb. unfold unshare_buffer. destruct (bufs w !! b) as [x|] eqn:Ex; [|by destruct Hbb].
  rewrite decide_True in Hbb by done. destruct Hbb as (Hn & H1 & Hlt).
  destruct (sharers x) as [|[|n]] eqn:En; [lia| |]; cbn; split_and!; try done.
  - intros b'. specialize (Hb b'). unfold holders_of in *. cbn. rewrite lookup_delete. destruct (decide (b = b')) as [E|E].
    + subst b'. split; [lia|done].
    + rewrite (decide_False (P := Some b = Some b')) in Hb by congruence.
      destruct (bufs w !! b'); [rewrite decide_False by done; lia|]. by destruct Hb.
  - intros b' x' [_ H]%lookup_delete_Some. eauto.
  - intros b'. specialize (Hb b'). unfold holders_of in *. cbn. rewrite lookup_insert. destruct (decide (b = b')) as [E|E].
    + subst b'. cbn. rewrite (decide_False (P := None = Some b)) by done. lia.
    + rewrite (decide_False (P := Some b = Some b')) in Hb by congruence.
      destruct (bufs w !! b'); [rewrite decide_False by done; lia|]. by destruct Hb.
  - intros b' x'. rewrite lookup_insert. case_decide; [|eauto]. intros [= <-]. subst b'. eauto.
Qed.

(** A buffer that somebody holds is not the one given up. *)
Lemma unshare_unread b w w0 : balanced (Some b) w → bufs w = bufs w0 → kept w = kept w0 → unread w0 (unshare_buffer b w).
Proof.
  intros Hb Eb Ek o b' x Ho Hx. destruct (unshare_balanced b w Hb) as (Hb' & _ & Ek' & _ & Hc).
  rewrite Ek', Ek. split; [done|]. destruct (still_held None (unshare_buffer b w) o b' Hb') as [x' Hx'].
  { by rewrite Ek', Ek. }
  exists x'. split; [done|]. destruct (Hc b' x' Hx') as (x0 & Hx0 & E). rewrite Eb in Hx0. rewrite Hx in Hx0. by injection Hx0 as <-.
Qed.

Lemma sv_undef_balanced s w : balanced None w →
  balanced None (sv_undef s w) ∧ scalars (sv_undef s w) = delete s (scalars w) ∧ msgs (sv_undef s w) = msgs w ∧
  unread w (sv_undef s w) ∧ next_buf (sv_undef s w) = next_buf w.
Proof.
  intros Hb. unfold sv_undef. destruct (scalars w !! s) as [b|] eqn:Es.
  - assert (balanced (Some b) (set_scalars (delete s (scalars w)) w)) as Hb1.
    { intros b'. specialize (Hb b'). unfold holders_of in *. cbn. rewrite (holding_delete (scalars w) s b b' Es) in Hb.
      destruct (bufs w !! b'); [rewrite (decide_False (P := None = Some b')) in Hb by done|];
        repeat case_decide; simplify_eq; try lia. split; [lia|congruence]. }
    destruct (unshare_balanced b _ Hb1) as (Hb2 & Es2 & Ek2 & Em2 & _). split_and!; try done.
    + by apply unshare_unread.
    + unfold unshare_buffer. cbn. destruct (bufs w !! b) as [x|]; [|done]. by destruct (sharers x) as [|[|]].
  - split_and!; try done; [by rewrite delete_id|]. intros o b x Ho Hx. eauto.
Qed.

Lemma new_buffer_balanced str w : balanced None w →
  let w' := {| msgs := msgs w; bufs := <[next_buf w := {| content := str; sharers := 1 |}]> (bufs w);
               scalars := scalars w; kept := kept w; next_buf := next_buf w + 1 |} in
  new_buffer str w = (Ret (next_buf w), w') ∧ balanced (Some (next_buf w)) w' ∧ unread w w'.
Proof.
  intros Hb w'. assert (bufs w !! next_buf w = None) as Hn.
  { pose proof (Hb (next_buf w)) as H. destruct (bufs w !! next_buf w); [lia|done]. }
  split_and!; [done| |].
  - intros b. pose proof (Hb b) as H. unfold holders_of in *. cbn. rewrite lookup_insert. destruct (decide (next_buf w = b)) as [E|E].
    + subst b. rewrite Hn in H. rewrite decide_True by done. cbn. lia.
    + rewrite decide_False by congruence. destruct (bufs w !! b); [rewrite decide_False in H by done; lia|].
      split; [lia|congruence].
  - intros o b x Ho Hx. split; [done|]. cbn. rewrite lookup_insert_ne by (intros <-; congruence). eauto.
Qed.

Lemma scalar_takes s b w : balanced (Some b) w → scalars w !! s = None → balanced None (set_scalars (<[s := b]> (scalars w)) w).
Proof.
  intros Hb Hs b'. specialize (Hb b'). unfold holders_of in *. cbn. rewrite holding_insert by done.
  destruct (bufs w !! b'); repeat case_decide; simplify_eq; try lia; naive_solver lia.
Qed.

Lemma kept_takes o b w : balanced (Some b) w → kept w !! o = None → balanced None (set_kept (<[o := b]> (kept w)) w).
Proof.
  intros Hb Hs b'. specialize (Hb b'). unfold holders_of in *. cbn. rewrite holding_insert by done.
  destruct (bufs w !! b'); repeat case_decide; simplify_eq; try lia; naive_solver lia.
Qed.

Lemma share_balanced b w : balanced None w → is_Some (bufs w !! b) → balanced (Some b) (share_buffer b w) ∧ unread w (share_buffer b w).
Proof.
  intros Hb [x Hx]. split.
  - intros b'. specialize (Hb b'). unfold holders_of in *. cbn. destruct (decide (b = b')) as [->|Hne].
    + rewrite lookup_alter_eq, Hx in *. cbn. repeat case_decide; simplify_eq; lia.
    + rewrite lookup_alter_ne by done. destruct (bufs w !! b'); repeat case_decide; simplify_eq; try lia.
      destruct Hb. split; [lia|congruence].
  - intros o b' x' Ho Hx'. split; [done|]. cbn. destruct (decide (b = b')) as [->|Hne].
    + rewrite lookup_alter_eq, Hx'. cbn. eauto.
    + rewrite lookup_alter_ne by done. eauto.
Qed.

Lemma unread_trans w1 w2 w3 : unread w1 w2 → unread w2 w3 → unread w1 w3.
Proof.
  intros H1 H2 o b x Ho Hx. destruct (H1 o b x Ho Hx) as (Ho2 & x2 & Hx2 & E2).
  destruct (H2 o b x2 Ho2 Hx2) as (Ho3 & x3 & Hx3 & E3). split; [done|]. exists x3. split; [done|congruence].
Qed.

Lemma sv_assign_balanced s str w : balanced None w →
  ∃ w', sv_assign s str w = (Ret tt, w') ∧ balanced None w' ∧ msgs w' = msgs w ∧ unread w w'.
Proof.
  intros Hb. unfold sv_assign. destruct (sv_undef_balanced s w Hb) as (Hb1 & Es1 & Em1 & Hu1 & _).
  erewrite cbind_ret by reflexivity. destruct (new_buffer_balanced str (sv_undef s w) Hb1) as (E2 & Hb2 & Hu2).
  rewrite (cbind_ret _ _ _ _ _ E2). eexists. split; [reflexivity|]. split_and!.
  - apply scalar_takes; [exact Hb2|]. cbn. by rewrite Es1, lookup_delete_eq.
  - cbn. by rewrite Em1.
  - eapply unread_trans; [exact Hu1|]. intros o b x Ho Hx. by apply (Hu2 o b x).
Qed.

(** Bytes are changed in place only where nobody else looks. *)
Lemma sv_write_balanced s str w : balanced None w →
  ∃ w', sv_write s str w = (Ret tt, w') ∧ balanced None w' ∧ msgs w' = msgs w ∧ unread w w'.
Proof.
  intros Hb. unfold sv_write. rewrite (cbind_ret cget _ w w w) by done.
  destruct (scalars w !! s) as [b|] eqn:Es; [|by apply sv_assign_balanced].
  destruct (bufs w !! b) as [[c [|[|n]]]|] eqn:Eb; try by apply sv_assign_balanced.
  eexists. split; [reflexivity|]. pose proof (Hb b) as Hbb. rewrite Eb in Hbb. cbn in Hbb.
  assert (holding (kept w) b = 0%nat) as Hk.
  { unfold holders_of in Hbb. rewrite (holding_delete _ s b b Es), decide_True in Hbb by done. lia. }
  split_and!; [|done|].
  - intros b'. specialize (Hb b'). unfold holders_of in *. cbn. rewrite lookup_insert.
    destruct (decide (b = b')) as [<-|]; [|done]. by rewrite Eb in Hb.
  - intros o b' x Ho Hx. split; [done|]. cbn. rewrite lookup_insert. destruct (decide (b = b')) as [<-|]; [|eauto]. exfalso.
    rewrite (holding_delete (kept w) o b b Ho), decide_True in Hk by done. lia.
Qed.

Definition alive (w : bworld) (o : Z) : Prop := is_Some (objects (perl (msgs w)) !! o).
#[export] Instance alive_dec w o : Decision (alive w o).
Proof. unfold alive. apply _. Defined.

(** What is left of the hidden copies when the dead objects have given up theirs. *)
Definition keeps_alive (w w' : bworld) : Prop := ∀ o b x, kept w !! o = Some b → bufs w !! b = Some x → alive w' o →
  kept w' !! o = Some b ∧ ∃ x', bufs w' !! b = Some x' ∧ content x' = content x.

Lemma free_kept_balanced o w : balanced None w →
  balanced None (free_kept o w) ∧ msgs (free_kept o w) = msgs w ∧ keeps_alive w (free_kept o w) ∧
  ∀ k, kept (free_kept o w) !! k = if decide (k = o ∧ ¬ alive w o) then None else kept w !! k.
Proof.
  intros Hb. unfold free_kept. destruct (kept w !! o) as [b|] eqn:Eo.
  - case_bool_decide as Ha.
    + split_and!; [done|done| |].
      * intros k b' x Hk Hx _. eauto.
      * intros k. rewrite decide_False; [done|]. intros [-> Hn]. by apply Hn.
    + assert (balanced (Some b) (set_kept (delete o (kept w)) w)) as Hb1.
      { intros b'. specialize (Hb b'). unfold holders_of in *. cbn. rewrite (holding_delete (kept w) o b b' Eo) in Hb.
        destruct (bufs w !! b'); [rewrite (decide_False (P := None = Some b')) in Hb by done|];
          repeat case_decide; simplify_eq; try lia. split; [lia|congruence]. }
      destruct (unshare_balanced b _ Hb1) as (Hb2 & Es2 & Ek2 & Em2 & Hc). split_and!; [done|done| |].
      * intros k b' x Hk Hx Halive. assert (k ≠ o) as Hne.
        { intros ->. unfold alive in Halive. rewrite Em2 in Halive. by apply Ha. }
        assert (kept (unshare_buffer b (set_kept (delete o (kept w)) w)) !! k = Some b') as Hk'.
        { rewrite Ek2. cbn. by rewrite lookup_delete_ne. }
        split; [done|]. destruct (still_held None _ k b' Hb2 Hk') as [x' Hx']. exists x'. split; [done|].
        destruct (Hc b' x' Hx') as (x0 & Hx0 & E). cbn in Hx0. rewrite Hx in Hx0. by injection Hx0 as <-.
      * intros k. rewrite Ek2. cbn. rewrite lookup_delete. destruct (decide (o = k)) as [->|Hne].
        { rewrite decide_True; [done|]. by split. }
        rewrite decide_False; [done|]. naive_solver.
  - split_and!; [done|done| |].
    + intros k b' x Hk Hx _. eauto.
    + intros k. case_decide as E; [|done]. destruct E as [-> _]. done.
Qed.

Lemma sweep_list l : ∀ w, balanced None w → let w' := foldr free_kept w l in
  balanced None w' ∧ msgs w' = msgs w ∧ keeps_alive w w' ∧
  ∀ k, kept w' !! k = if decide (k ∈ l ∧ ¬ alive w k) then None else kept w !! k.
Proof.
  induction l as [|o l IH]; intros w Hb w'; cbn in w'.
  - split_and!; [done|done| |].
    + intros k b' x Hk Hx _. eauto.
    + intros k. rewrite decide_False; [done|]. intros [[]%not_elem_of_nil _].
  - destruct (IH w Hb) as (Hb1 & Em1 & Hk1 & Hl1). set (w1 := foldr free_kept w l) in *.
    destruct (free_kept_balanced o w1 Hb1) as (Hb2 & Em2 & Hk2 & Hl2). unfold w' in *. split_and!; [done|congruence| |].
    + intros k b x Hk Hx Ha. assert (alive w1 k) as Ha1 by (unfold alive in *; by rewrite Em2 in Ha).
      destruct (Hk1 k b x Hk Hx Ha1) as (Hk' & x1 & Hx1 & E1). destruct (Hk2 k b x1 Hk' Hx1 Ha) as (Hk'' & x2 & Hx2 & E2).
      split; [done|]. exists x2. split; [done|congruence].
    + intros k. rewrite Hl2, Hl1. assert (alive w1 o ↔ alive w o) as Hao by (unfold alive; by rewrite Em1).
      repeat case_decide; try done; set_solver.
Qed.

Lemma sweep_balanced w : balanced None w →
  balanced None (sweep w) ∧ msgs (sweep w) = msgs w ∧ keeps_alive w (sweep w) ∧ ∀ o b, kept (sweep w) !! o = Some b → alive w o.
Proof.
  intros Hb. destruct (sweep_list (map_to_list (kept w)).*1 w Hb) as (H1 & H2 & H3 & H4). fold (sweep w) in *.
  split_and!; [done..|]. intros o b Ho. rewrite H4 in Ho. case_decide as E; [done|].
  destruct (decide (alive w o)) as [|Hn]; [done|]. exfalso. apply E. split; [|done].
  apply list_elem_of_fmap. exists (o, b). split; [done|]. by apply elem_of_map_to_list.
Qed.

(** ** No object comes back *)

Definition only_new (p p' : world) : Prop := next_object p ≤ next_object p' ∧
  ∀ o, o < next_object p → is_Some (objects p' !! o) → is_Some (objects p !! o).

Lemma only_new_refl p : only_new p p.
Proof. by split. Qed.
Lemma only_new_trans p1 p2 p3 : only_new p1 p2 → only_new p2 p3 → only_new p1 p3.
Proof. intros [Hn1 H1] [Hn2 H2]. split; [lia|]. intros o Ho Ha. apply H1; [done|]. apply H2; [lia|done]. Qed.

Definition grows {A} (m : call A) : Prop := ∀ p, only_new p (m p).2.
Definition mgrows {A} (m : cmd (mworld fval) A) : Prop := ∀ w, only_new (perl w) (perl (m w).2).

Lemma grows_bind {A B} (m : call A) (k : A → call B) : grows m → (∀ a, grows (k a)) → grows (m ≫= k).
Proof.
  intros Hm Hk p. unfold mbind, cmd_bind. specialize (Hm p). destruct (m p) as [[a| |] q]; [|done..].
  eapply only_new_trans; [exact Hm|]. apply Hk.
Qed.
Lemma mgrows_bind {A B} (m : cmd (mworld fval) A) (k : A → cmd (mworld fval) B) : mgrows m → (∀ a, mgrows (k a)) → mgrows (m ≫= k).
Proof.
  intros Hm Hk w. unfold mbind, cmd_bind. specialize (Hm w). destruct (m w) as [[a| |] q]; [|done..].
  eapply only_new_trans; [exact Hm|]. apply Hk.
Qed.

Lemma mgrows_perl {A} (m : call A) : grows m → mgrows (on_perl m).
Proof. intros Hm w. unfold on_perl. specialize (Hm (perl w)). by destruct (m (perl w)). Qed.

(** Calls that leave Perl's objects alone. *)
Lemma grows_same {A} (m : call A) : (∀ p, objects (m p).2 = objects p ∧ next_object (m p).2 = next_object p) → grows m.
Proof. intros H p. destruct (H p) as [Eo En]. unfold only_new. rewrite Eo, En. split; [lia|done]. Qed.
Lemma mgrows_same {A} (m : cmd (mworld fval) A) : (∀ w, perl (m w).2 = perl w) → mgrows m.
Proof. intros H w. rewrite H. apply only_new_refl. Qed.

Lemma grows_SvRV o : grows (SvRV o).
Proof. apply grows_same. intros p. unfold SvRV. by destruct (objects p !! o). Qed.

(** A live object is replaced. *)
Lemma grows_update o (f : object → object) : grows (ob ← SvRV o; cmodify (λ w, set_objects (<[o := f ob]> (objects w)) w)).
Proof.
  intros p. unfold mbind, cmd_bind, SvRV. destruct (objects p !! o) as [ob|] eqn:Eo; [|apply only_new_refl].
  split; [cbn; lia|]. intros x Hx. cbn. rewrite lookup_insert. case_decide; [|done]. subst x. by rewrite Eo.
Qed.

Lemma grows_inc o : grows (REFCNT_inc o).
Proof. apply (grows_update o (λ ob, with_refcnt ob (S (refcnt ob)))). Qed.

Lemma grows_new ob : grows (new_object ob).
Proof. intros p. split; [cbn; lia|]. intros o Ho. cbn. by rewrite lookup_insert_ne by lia. Qed.

Lemma mgrows_dec o : mgrows (SvREFCNT_dec o).
Proof.
  apply mgrows_perl. intros p. unfold cmodify. cbn [snd]. split; [by rewrite REFCNT_dec_next|]. intros x _ [ob Hx].
  destruct (REFCNT_dec_same _ _ _ _ _ Hx) as (ob' & n & H & _). by rewrite H.
Qed.

Lemma grows_cached p ptr : only_new p (set_oc (ObjCache.ObjCache_Get (oc p) ptr).2 p).
Proof. by split. Qed.

Lemma grows_Get_sv ptr : grows (ObjCache_Get_sv ptr).
Proof.
  intros p. unfold ObjCache_Get_sv. rewrite (cbind_ret cget _ p p p) by done. pose proof (grows_cached p ptr) as H.
  destruct (ObjCache.ObjCache_Get (oc p) ptr) as [cached c]. eapply only_new_trans; [exact H|].
  rewrite (cbind_ret (cput _) _ p tt (set_oc c p)) by done. destruct cached as [o|]; [|apply only_new_refl].
  apply grows_bind; [apply grows_inc|]. intros ?. by apply grows_same.
Qed.

Lemma grows_newSVsv sv : grows (newSVsv sv).
Proof.
  destruct sv; try by apply grows_same. apply grows_bind; [apply grows_inc|]. intros ?. by apply grows_same.
Qed.

Lemma grows_Wrap ptr arena_sv class flags : grows (WrapArenaBoundObject ptr arena_sv class flags).
Proof.
  intros p. unfold WrapArenaBoundObject. destruct (ptr =? 0); [apply only_new_refl|].
  rewrite (cbind_ret cget _ p p p) by done. pose proof (grows_cached p ptr) as H.
  destruct (ObjCache.ObjCache_Get (oc p) ptr) as [cached c]. eapply only_new_trans; [exact H|].
  rewrite (cbind_ret (cput _) _ p tt (set_oc c p)) by done. destruct cached as [o|].
  - apply grows_bind; [apply grows_inc|]. intros ?. by apply grows_same.
  - apply grows_bind; [|intros a; apply grows_bind; [apply grows_new|intros o; by apply grows_same]].
    destruct arena_sv as [[| |a]|]; try (by apply grows_same);
      (apply grows_bind; [apply grows_newSVsv|intros ?; by apply grows_same]).
Qed.

Lemma mgrows_guard b msg : mgrows (cguard b msg).
Proof. by destruct b; apply mgrows_same. Qed.

Lemma mgrows_read_msg p : mgrows (read_msg p).
Proof. apply mgrows_same. intros w. unfold read_msg. by destruct (live_msg w p). Qed.

Lemma grows_clear_magic o : grows (clear_magic o).
Proof.
  intros p. unfold clear_magic, mbind, cmd_bind, SvRV. destruct (objects p !! o) as [ob|] eqn:Eo; [|apply only_new_refl].
  destruct (ext_magic ob) as [[]|]; [|apply only_new_refl]. split; [cbn; lia|]. intros x Hx. cbn. rewrite lookup_insert.
  case_decide; [|done]. subst x. by rewrite Eo.
Qed.

Lemma mgrows_GetMsg derived sv : mgrows (Message_GetMsg derived sv).
Proof. apply mgrows_same. intros w. by destruct (GetMsg_reads derived w sv) as [out ->]. Qed.

Ltac grow := repeat first
  [ apply mgrows_bind; [|intros ?] | apply mgrows_dec | apply mgrows_GetMsg | apply mgrows_guard | apply mgrows_read_msg
  | apply mgrows_perl; first [apply grows_SvRV | apply grows_inc | apply grows_new | apply grows_Get_sv | apply grows_newSVsv
                             | apply grows_Wrap | apply grows_update | apply grows_clear_magic | by apply grows_same]
  | by apply mgrows_same
  | match goal with |- mgrows (match ?x with _ => _ end) => destruct x end ].

Lemma mgrows_WrapMessage message_stash msg mdef arena_sv flags : mgrows (WrapMessage message_stash msg mdef arena_sv flags).
Proof. unfold WrapMessage, wrap_message_internal. grow. Qed.

Lemma mgrows_GetArena sv : mgrows (Message_GetArena sv).
Proof.
  unfold Message_GetArena. apply mgrows_perl. destruct sv as [[| |o]|]; try by apply grows_same.
  apply grows_bind; [apply grows_SvRV|]. intros ?. by apply grows_same.
Qed.

Lemma mgrows_GetDef sv : mgrows (Message_GetDef (V := fval) sv).
Proof. unfold Message_GetDef. grow. Qed.

Lemma mgrows_run_mop derived message_stash op : mgrows (run_mop derived message_stash op).
Proof.
  destruct op; cbn [run_mop]; unfold new_message, upb_Message_New, WrapMessage_NoCache, wrap_message_internal, Message_Free;
    repeat first [apply mgrows_GetArena | apply mgrows_WrapMessage | progress grow].
Qed.

(** ** One step *)

Definition bgrows {A} (m : bcall A) : Prop := ∀ w, only_new (perl (msgs w)) (perl (msgs (m w).2)).

Lemma bgrows_bind {A B} (m : bcall A) (k : A → bcall B) : bgrows m → (∀ a, bgrows (k a)) → bgrows (m ≫= k).
Proof.
  intros Hm Hk w. unfold mbind, cmd_bind. specialize (Hm w). destruct (m w) as [[a| |] q]; [|done..].
  eapply only_new_trans; [exact Hm|]. apply Hk.
Qed.
Lemma bgrows_msgs {A} (m : cmd (mworld fval) A) : mgrows m → bgrows (on_msgs m).
Proof. intros Hm w. unfold on_msgs. specialize (Hm (msgs w)). by destruct (m (msgs w)). Qed.
Lemma bgrows_same {A} (m : bcall A) : (∀ w, msgs (m w).2 = msgs w) → bgrows m.
Proof. intros H w. rewrite H. apply only_new_refl. Qed.

Lemma unshare_msgs b w : msgs (unshare_buffer b w) = msgs w.
Proof. unfold unshare_buffer. destruct (bufs w !! b) as [x|]; [|done]. by destruct (sharers x) as [|[|]]. Qed.
Lemma undef_msgs s w : msgs (sv_undef s w) = msgs w.
Proof. unfold sv_undef. destruct (scalars w !! s); [|done]. by rewrite unshare_msgs. Qed.
Lemma sweep_msgs w : msgs (sweep w) = msgs w.
Proof.
  unfold sweep. induction (map_to_list (kept w)).*1 as [|o l IH]; [done|]. cbn. rewrite <- IH. unfold free_kept.
  destruct (kept _ !! o); [|done]. case_bool_decide; [done|]. by rewrite unshare_msgs.
Qed.

Section Steps.
Context (derived : string → string → bool) (message_stash : Z → string).
Context (upb_Decode : bool → bytes → Z → Z → Z → Serialize.DecodeStatus * decoded).
Hypothesis message_classes : ∀ t, derived (message_stash t) message_class = true.
Notation minv := (minv derived message_stash (V := fval)).
Notation run_bop := (run_bop derived message_stash upb_Decode).
Notation parse_message := (parse_message message_stash upb_Decode).

Ltac bgrow := repeat first
  [ apply bgrows_bind; [|intros ?]
  | apply bgrows_msgs; repeat first [apply mgrows_GetArena | apply mgrows_GetDef | apply mgrows_WrapMessage
      | apply mgrows_run_mop | progress grow]
  | by apply bgrows_same | apply bgrows_same; apply undef_msgs
  | match goal with |- bgrows (match ?x with _ => _ end) => destruct x end ].

Lemma bgrows_parse mdef s flags made shared : bgrows (parse_message mdef s flags made shared).
Proof.
  unfold parse_message, upb_Message_New, write_decoded, Serialize.DecodeStatus_Die, copy_string, new_buffer.
  bgrow.
Qed.

Lemma bgrows_run_bop op : bgrows (run_bop op).
Proof.
  intros w. unfold run_bop.
  assert (bgrows (run_bop_only derived message_stash upb_Decode op)) as H.
  { destruct op; cbn [run_bop_only]; try apply bgrows_parse;
      unfold new_in_arena, xs_get_arena, xs_coerce_to, sv_bless, xs_detach, xs_attach, set_field, upb_Message_New,
        MessageOps.get_arena, sv_assign, sv_write; bgrow. }
  specialize (H w). destruct (run_bop_only derived message_stash upb_Decode op w) as [out w']. cbn in *.
  by rewrite sweep_msgs.
Qed.

(** *** What the decoder leaves *)

Definition decoded_msg (a : Z) (d : Z * (Z * gmap Z fval * list (aux_entry fval))) : cmsg fval :=
  {| arena_obj := a; mtype := d.2.1.1; base := d.2.1.2; aux := d.2.2 |}.
Definition decoded_store (a : Z) (st : gmap Z (cmsg fval)) (l : decoded) : gmap Z (cmsg fval) :=
  foldr (λ d st, <[d.1 := decoded_msg a d]> st) st l.

Lemma decoded_store_other a st l p : p ∉ l.*1 → decoded_store a st l !! p = st !! p.
Proof.
  induction l as [|d l IH]; [done|]. rewrite fmap_cons, not_elem_of_cons. intros [Hne Hp]. cbn.
  rewrite lookup_insert_ne by done. by apply IH.
Qed.

Lemma decoded_store_absorb a st l k x : k ∈ l.*1 → decoded_store a (<[k := x]> st) l = decoded_store a st l.
Proof.
  assert (decoded_store a (<[k := x]> st) l = if decide (k ∈ l.*1) then decoded_store a st l else <[k := x]> (decoded_store a st l)) as H.
  { induction l as [|d l IH]; [done|]. cbn. fold (decoded_store a (<[k := x]> st) l) (decoded_store a st l). rewrite IH.
    destruct (decide (k = d.1)) as [->|Hne].
    - rewrite (decide_True (P := d.1 ∈ d.1 :: l.*1)) by (by left). case_decide; [done|]. by rewrite insert_insert_eq.
    - destruct (decide (k ∈ l.*1)) as [Hin|Hnin].
      + by rewrite decide_True by (by right).
      + rewrite decide_False by (intros [|]%elem_of_cons; done). by rewrite insert_insert_ne by done. }
  intros Hk. by rewrite H, decide_True.
Qed.

Lemma decoded_minv own (m : mworld fval) a ab l : minv own m → objects (perl m) !! a = Some ab → NoDup l.*1 →
  (∀ p, p ∈ l.*1 → live_msg m p = None) → minv own (set_store (decoded_store a (store m) l) m).
Proof.
  intros Hi Ha. induction l as [|d l IH]; intros Hnd Hf; [by destruct m|].
  rewrite fmap_cons in Hnd. apply NoDup_cons in Hnd as [Hd Hnd].
  assert (minv own (set_store (decoded_store a (store m) l) m)) as Hi'.
  { apply IH; [done|]. intros p Hp. apply Hf. by right. }
  apply (new_msg_minv derived message_stash own _ d.1 (decoded_msg a d) Hi').
  - unfold live_msg. cbn. rewrite decoded_store_other by done. apply (Hf d.1). by left.
  - cbn. apply (inv_next _ _ (m_cache _ _ _ _ Hi) a). by rewrite Ha.
Qed.

(** A message the cache has no object for gets a new one. *)
Lemma WrapMessage_new (m : mworld fval) p mdef a flags : p ≠ 0 →
  (∀ o, ObjCache.cache (oc (perl m)) !! p ≠ Some (Some o)) → is_Some (objects (perl m) !! a) →
  ∃ m', WrapMessage message_stash p mdef (Some (PRef a)) flags m = (Ret (PRef (next_object (perl m))), m').
Proof.
  intros Hp Hc [ab Ha].
  assert (∀ st, (∀ o, ObjCache.cache st !! p ≠ Some (Some o)) → ∃ c, ObjCache.ObjCache_Get st p = (None, c) ∧
    ∀ o, ObjCache.cache c !! p ≠ Some (Some o)) as Hget.
  { intros st Hst. unfold ObjCache.ObjCache_Get. rewrite (proj2 (Z.eqb_neq p 0)) by done. cbn.
    destruct (ObjCache.cache st !! p) as [[o|]|] eqn:E; [by destruct (Hst o)| |]; eexists; (split; [reflexivity|]); cbn.
    - intros o. by rewrite lookup_delete_eq.
    - intros o. by rewrite E. }
  destruct (Hget _ Hc) as (c & Eg & Hc1). destruct (Hget c Hc1) as (c2 & Eg2 & _).
  unfold WrapMessage. rewrite (proj2 (Z.eqb_neq p 0)) by done. unfold ObjCache_Get_sv.
  erewrite cbind_ret; [|apply on_perl_run; rewrite (cbind_ret _ _ (perl m) (perl m) (perl m)), Eg by done; reflexivity].
  unfold wrap_message_internal. set (m1 := Build_mworld (set_oc c (perl m)) (mdef_ptrs m) (store m)).
  eassert (WrapArenaBoundObject p (Some (PRef a)) (message_stash mdef) flags (perl m1) =
    (Ret (PRef (next_object (perl m))), _)) as E.
  { unfold WrapArenaBoundObject.
    rewrite (proj2 (Z.eqb_neq p 0)) by done. rewrite (cbind_ret cget _ (perl m1) (perl m1) (perl m1)) by done.
    change (oc (perl m1)) with c. rewrite Eg2.
    rewrite (cbind_ret (cput _) _ _ tt (set_oc c2 (perl m1))) by done. rewrite cbind_assoc.
    unfold newSVsv, REFCNT_inc. rewrite !cbind_assoc. rewrite (cbind_ret _ _ _ ab (set_oc c2 (perl m1)))
      by (unfold SvRV; cbn; by rewrite Ha).
    reflexivity. }
  rewrite (cbind_ret _ _ _ _ _ (on_perl_run _ _ _ _ E)). eexists. reflexivity.
Qed.

Record binv (own : Z → nat) (w : bworld) : Prop := {
  b_minv : minv own (msgs w);
  b_balanced : balanced None w;
  b_alive : ∀ o b, kept w !! o = Some b → alive w o }.

Definition input_of (w : bworld) (s : Z) (b : Z) (buf : bytes) : Prop :=
  scalars w !! s = Some b ∧ content <$> bufs w !! b = Some buf.

Lemma on_messages_run {A} (m : cmd (mworld fval) A) w out p : m (msgs w) = (out, p) → on_msgs m w = (out, set_msgs p w).
Proof. intros E. unfold on_msgs. by rewrite E. Qed.

Lemma give_take own a x : give own a x = S (own a) ∧ x = a ∨ give own a x = own x ∧ x ≠ a.
Proof. unfold give. case_decide; [left; by subst|by right]. Qed.

(** The hidden copy: of the same bytes, and of the same buffer if Perl shares it. *)
Lemma keep_copy w o b x shared : balanced None w → bufs w !! b = Some x → kept w !! o = None →
  ∃ c w', (c ← copy_string shared b (content x);
           cmodify (λ w, set_kept (<[o := c]> (kept w)) w)) w = (Ret tt, w') ∧
    balanced None w' ∧ msgs w' = msgs w ∧ unread w w' ∧ kept w' !! o = Some c ∧ (shared = true → c = b) ∧
    ∃ x', bufs w' !! c = Some x' ∧ content x' = content x.
Proof.
  intros Hb Hx Ho. unfold copy_string. destruct shared.
  - destruct (share_balanced b w Hb ltac:(by exists x)) as [Hb1 Hu1]. exists b. eexists.
    rewrite cbind_assoc. erewrite cbind_ret by reflexivity. erewrite cbind_ret by reflexivity. split; [reflexivity|].
    split_and!; [by apply kept_takes|done| |cbn; by rewrite lookup_insert_eq|done|].
    + intros o' b' x' Ho' Hx'. destruct (Hu1 o' b' x' Ho' Hx') as (H1 & H2). cbn. rewrite lookup_insert_ne by congruence. done.
    + cbn. rewrite lookup_alter_eq, Hx. cbn. eauto.
  - destruct (new_buffer_balanced (content x) w Hb) as (E1 & Hb1 & Hu1). exists (next_buf w). eexists.
    rewrite (cbind_ret _ _ _ _ _ E1). split; [reflexivity|].
    split_and!; [by apply kept_takes|done| |cbn; by rewrite lookup_insert_eq|done|].
    + intros o' b' x' Ho' Hx'. destruct (Hu1 o' b' x' Ho' Hx') as (H1 & H2). cbn in *. rewrite lookup_insert_ne by congruence. done.
    + cbn. rewrite lookup_insert_eq. eauto.
Qed.

Definition aliasing (flags : Z) : bool := negb (Z.land flags PROFILE_ZERO_COPY =? 0).

(** The steps of [parse_message], one by one. *)
Lemma scalar_buffer w s b : balanced None w → scalars w !! s = Some b → is_Some (bufs w !! b).
Proof.
  intros Hb Hs. specialize (Hb b). destruct (bufs w !! b); [done|]. destruct Hb as [Hb _]. unfold holders_of in Hb.
  rewrite (holding_delete _ s b b Hs), decide_True in Hb by done. lia.
Qed.

Lemma drop_temporary own a (m : mworld fval) : minv (give own a) m → ∃ m', SvREFCNT_dec a m = (Ret tt, m') ∧ minv own m'.
Proof.
  intros Hm. destruct (dec_minv derived message_stash (give own a) m a Hm (give_one own a)) as (m' & Ed & Hd & _).
  exists m'. split; [done|]. eapply minv_ext; [exact Hd|intros; apply take_back_give].
Qed.

Lemma unread_refl w w' : kept w' = kept w → bufs w' = bufs w → unread w w'.
Proof. intros Ek Eb o b x Ho Hx. rewrite Ek, Eb. eauto. Qed.

(** A message that is not live has no object in the cache. *)
Lemma not_cached own (m : mworld fval) p o : minv own m → p ≠ 0 → live_msg m p = None →
  ObjCache.cache (oc (perl m)) !! p ≠ Some (Some o).
Proof.
  intros Hi Hp Hl Ho. destruct (inv_cached _ _ (m_cache _ _ _ _ Hi) p o Ho) as (_ & ob & Hob & (fl & Hm)).
  destruct (m_shape _ _ _ _ Hi _ _ Hob) as [(_ & Hn & _)|(q & x & Hq & Hq0 & (_ & _ & (q' & fl' & Em & Hq')) & Har & _ & ab & Hab & _)];
    [congruence|]. rewrite Em in Hm. injection Hm as -> _. destruct Hq' as [->|?]; [|done].
  unfold live_msg in Hl. rewrite Hq, bool_decide_eq_true_2 in Hl; [done|by eexists].
Qed.

(** The object of the message a parse made, in the arena of the parse. *)
Lemma wrap_decoded own (m0 m1 : mworld fval) a d made flags : minv own m0 → minv (give own a) m1 →
  ObjCache.cache (oc (perl m1)) = ObjCache.cache (oc (perl m0)) → made ≠ 0 → live_msg m0 made = None →
  objects (perl m1) !! a = Some arena_object → store m1 !! made = Some (decoded_msg a d) →
  ∃ m', WrapMessage message_stash made d.2.1.1 (Some (PRef a)) flags m1 = (Ret (PRef (next_object (perl m1))), m') ∧
    minv (give (give own a) (next_object (perl m1))) m'.
Proof.
  intros Hi0 Hi1 Ec Hm0 Hl Ha Hst.
  destruct (WrapMessage_new m1 made d.2.1.1 a flags Hm0) as [m' E]; [|by eexists|].
  { intros o. rewrite Ec. by apply (not_cached own). }
  destruct (WrapMessage_minv derived message_stash (give own a) m1 made (decoded_msg a d) flags Hi1 Hst Hm0)
    as (o & m2 & E' & Hi2 & _); [by exists arena_object|].
  cbn [decoded_msg mtype arena_obj] in E'. rewrite E in E'. injection E' as <- <-. by exists m'.
Qed.

(** The hidden copy is taken when upb may have pointed into the string. *)
Lemma keep_input w b x shared o (alias : bool) : balanced None w → bufs w !! b = Some x → kept w !! o = None →
  ∃ w', (if alias then
       c ← copy_string shared b (content x);
       cmodify (λ w, set_kept (<[o := c]> (kept w)) w) else mret tt) w = (Ret tt, w') ∧
    balanced None w' ∧ msgs w' = msgs w ∧ unread w w' ∧ (alias = true → shared = true →
      kept w' !! o = Some b ∧ content <$> bufs w' !! b = Some (content x)).
Proof.
  intros Hb Hx Ho. destruct alias; [|by exists w; split_and!; try done; apply unread_refl].
  destruct (keep_copy w o b x shared Hb Hx Ho) as (c & w' & E & Hb' & Em & Hu & Hk & Hc & x' & Hx' & Ex').
  exists w'. split_and!; [exact E|done|done|exact Hu|]. intros _ Hsh. rewrite (Hc Hsh) in *. split; [done|].
  rewrite Hx'. cbn. by rewrite Ex'.
Qed.

Lemma parse_step own w mdef s flags made shared :
  binv own w → bop_ok derived upb_Decode own w (BParse mdef s flags made shared) →
  let '(out, w') := parse_message mdef s flags made shared w in
  safe out ∧ minv (gives own out) (msgs w') ∧ balanced None w' ∧ unread w w' ∧
  ∀ o, out = Ret (PRef o) → ¬ alive w o ∧ (aliasing flags = true → shared = true → ∀ b buf, input_of w s b buf →
    kept w' !! o = Some b ∧ content <$> bufs w' !! b = Some buf).
Proof.
  intros [Hi Hb Hal] [[b Hs] Hok]. unfold parse_message. rewrite (cbind_ret cget _ w w w) by done. rewrite Hs. cbn [option_bind].
  destruct (scalar_buffer w s b Hb Hs) as [x Hx]. cbn [mbind option_bind]. rewrite Hx. cbn [fmap option_fmap option_map].
  destruct (arena_minv derived message_stash own (msgs w) Hi) as (E1 & Hi1 & Ha1).
  set (a := next_object (perl (msgs w))) in *. set (m1 := Build_mworld _ _ _) in *.
  rewrite (cbind_ret _ _ _ _ _ (on_messages_run _ _ _ _ E1)).
  assert (∀ p, live_msg (msgs w) p = None → live_msg m1 p = None) as Hfr.
  { intros p Hp. unfold live_msg in *. cbn [store m1]. destruct (store (msgs w) !! p) as [m|] eqn:Em; [|done].
    assert (arena_obj m ≠ a) by (assert (arena_obj m < a) by (by eapply m_store); lia).
    cbn. by rewrite lookup_insert_ne by done. }
  assert (∀ m, balanced None (set_msgs m w)) as Hbm by (intros m; exact Hb).
  destruct (Z.eqb_spec made 0) as [->|Hm0].
  { rewrite (cbind_ret _ _ _ 0 (set_msgs m1 w)) by done. cbn [Z.eqb].
    destruct (drop_temporary own a m1 Hi1) as (m2 & Ed & Hd). rewrite (cbind_ret _ _ _ _ _ (on_messages_run _ (set_msgs m1 w) _ _ Ed)).
    split_and!; [done|exact Hd|apply Hbm|intros o b' x' Ho' Hx'; by eauto|done]. }
  destruct Hok as [?|Hok]; [done|]. specialize (Hok b x Hs Hx). cbn zeta in Hok. fold (aliasing flags) in *.
  destruct (upb_Decode (aliasing flags) (content x) b made mdef) as [status l] eqn:Edec. cbn [snd] in Hok.
  destruct Hok as (H0 & Ht & Hnd & Hfree & Hrange).
  assert (made ∈ l.*1) as Hmade by by eapply list_elem_of_lookup_2.
  destruct (New_in derived message_stash m1 (give own a) a arena_object mdef made Hi1 Ha1 Hm0 (Hfr _ (proj2 (Hfree _ Hmade)))) as [E2 _].
  rewrite (cbind_ret _ _ _ _ _ (on_messages_run _ (set_msgs m1 w) _ _ E2)). cbn [msgs set_msgs].
  rewrite (proj2 (Z.eqb_neq made 0)) by done. set (m2 := set_store _ m1).
  set (m3 := set_store (decoded_store a (store m1) l) m1).
  assert (write_decoded a l m2 = (Ret tt, m3)) as E3.
  { unfold write_decoded, m2, m3, cmodify, set_store. cbn. do 2 f_equal. by apply (decoded_store_absorb a _ l made). }
  rewrite Edec. change (set_msgs m2 (set_msgs m1 w)) with (set_msgs m2 w).
  rewrite (cbind_ret _ _ _ _ _ (on_messages_run _ (set_msgs m2 w) _ _ E3)). change (set_msgs m3 (set_msgs m2 w)) with (set_msgs m3 w).
  assert (minv (give own a) m3) as Hi3.
  { apply (decoded_minv _ _ _ arena_object); [done|done|done|]. intros p Hp. by apply Hfr, Hfree. }
  case_bool_decide as Hstat.
  2: { destruct (drop_temporary own a m3 Hi3) as (m4 & Ed & Hd). rewrite cbind_assoc.
    rewrite (cbind_ret _ _ _ _ _ (on_messages_run _ (set_msgs m3 w) _ _ Ed)). unfold Serialize.DecodeStatus_Die.
    rewrite decide_False by done.
    split_and!; [done|exact Hd|apply Hbm|intros o b' x' Ho' Hx'; by eauto|done]. }
  rewrite (cbind_ret (mret tt) _ _ tt (set_msgs m3 w)) by done.
  destruct l as [|d l]; [done|]. cbn in H0, Ht. injection H0 as Hd1. injection Ht as Hd2.
  assert (store m3 !! made = Some (decoded_msg a d)) as Hst3.
  { unfold m3. cbn. by rewrite Hd1, lookup_insert_eq. }
  destruct (wrap_decoded own (msgs w) m3 a d made flags Hi Hi3 eq_refl Hm0) as (m4 & E4 & Hi4); [by apply Hfree|done|done|].
  rewrite Hd2 in E4.
  rewrite (cbind_ret _ _ _ _ _ (on_messages_run _ (set_msgs m3 w) _ _ E4)). change (set_msgs m4 (set_msgs m3 w)) with (set_msgs m4 w).
  set (o := next_object (perl m3)) in *.
  assert (¬ alive w o) as Hno.
  { intros Ha. pose proof (inv_next _ _ (m_cache _ _ _ _ Hi) o Ha). unfold o in *. cbn in *. lia. }
  assert (kept w !! o = None) as Hko.
  { destruct (kept w !! o) eqn:Eo; [|done]. by apply Hal in Eo. }
  destruct (keep_input (set_msgs m4 w) b x shared o (aliasing flags) (Hbm m4) Hx Hko) as (w5 & E5 & Hb5 & Em5 & Hu5 & Hk5).
  rewrite (cbind_ret _ _ _ _ _ E5).
  destruct (dec_minv derived message_stash (give (give own a) o) m4 a Hi4) as (m6 & E6 & Hi6 & _).
  { unfold give. repeat case_decide; lia. }
  change (msgs (set_msgs m4 w)) with m4 in Em5. rewrite <- Em5 in E6. rewrite (cbind_ret _ _ _ _ _ (on_messages_run _ w5 _ _ E6)).
  split_and!; [done| |exact Hb5|exact Hu5|].
  - cbn. eapply minv_ext; [exact Hi6|]. intros y. unfold gives, take_back, give. repeat case_decide; simplify_eq; done.
  - intros o' [= <-]. split; [done|]. intros Hz Hsh b' buf [Hs' Hbuf]. rewrite Hs in Hs'. injection Hs' as <-.
    rewrite Hx in Hbuf. cbn in Hbuf. injection Hbuf as <-. by apply Hk5.
Qed.

Lemma finish_step own w w1 : minv own (msgs w1) → balanced None w1 → unread w w1 →
  binv own (sweep w1) ∧ keeps_alive w (sweep w1).
Proof.
  intros Hi Hb Hu. destruct (sweep_balanced w1 Hb) as (Hb2 & Em & Hk & Hal). split.
  - split; [by rewrite Em|done|]. intros o b Ho. unfold alive. rewrite Em. by eapply Hal.
  - intros o b x Ho Hx Ha. destruct (Hu o b x Ho Hx) as (Ho1 & x1 & Hx1 & E1).
    destruct (Hk o b x1 Ho1 Hx1 Ha) as (Ho2 & x2 & Hx2 & E2). split; [done|]. exists x2. split; [done|congruence].
Qed.

(** A call on messages alone. *)
Lemma msgs_step {A} own own' (m : cmd (mworld fval) A) w : binv own w →
  (let '(out, p) := m (msgs w) in safe out ∧ minv (own' out) p) →
  let '(out, w1) := on_msgs m w in safe out ∧ binv (own' out) (sweep w1) ∧ keeps_alive w (sweep w1).
Proof.
  intros [Hi Hb Hal]. unfold on_msgs. destruct (m (msgs w)) as [out p]. intros [Hs Hp]. split; [done|].
  apply finish_step; [exact Hp|exact Hb|]. intros o b x Ho Hx. eauto.
Qed.

(** A call on Perl's variables alone. *)
Lemma vars_step own w w1 : binv own w → balanced None w1 → msgs w1 = msgs w → unread w w1 →
  binv own (sweep w1) ∧ keeps_alive w (sweep w1).
Proof. intros [Hi Hb Hal] Hb1 Em Hu. apply finish_step; [by rewrite Em|done..]. Qed.

Lemma bop_step own w op : binv own w → bop_ok derived upb_Decode own w op →
  let '(out, w') := run_bop op w in
  safe out ∧ binv (owned_by_perl own op out) w' ∧ keeps_alive w w'.
Proof.
  intros Hv Hok. pose proof Hv as [Hi Hb Hal]. unfold Bindings.run_bop.
  destruct op as [op|mdef a made flags|o|o class|o|msg mdef a|p f v|mdef s flags made shared|s str|s str|s]; cbn [run_bop_only].
  - pose proof (msgs_step own (owned_after own op) (run_mop derived message_stash op) w Hv) as H.
    destruct (on_msgs (run_mop derived message_stash op) w) as [out w1]. apply H.
    by apply (run_mop_minv derived message_stash own (msgs w) op).
  - destruct Hok as (_ & (ab & Ha & Hl) & Hf).
    pose proof (msgs_step own (gives own) _ w Hv (new_in_arena_sound _ _ own (msgs w) mdef a ab made flags Hi Ha Hl Hf)) as H.
    destruct (on_msgs _ w) as [out w1]. by destruct out as [[]| |].
  - pose proof (msgs_step own (gives own) _ w Hv (get_arena_sound _ _ own (msgs w) o Hi Hok)) as H.
    destruct (on_msgs _ w) as [out w1]. by destruct out as [[]| |].
  - destruct Hok as [Ho Hc].
    pose proof (msgs_step own (gives own) _ w Hv (coerce_sound _ _ message_classes own (msgs w) o class Hi Ho Hc)) as H.
    destruct (on_msgs _ w) as [out w1]. by destruct out as [[]| |].
  - pose proof (msgs_step own (λ _, own) _ w Hv (detach_sound _ _ message_classes own (msgs w) o Hi Hok)) as H.
    unfold mbind, cmd_bind. destruct (on_msgs _ w) as [out w1]. by destruct out as [[]| |].
  - destruct Hok as (Hm & _ & m & Hs & <- & Ea & ab & Hab & Hl).
    pose proof (msgs_step own (gives own) _ w Hv (attach_sound _ _ own (msgs w) msg m a ab Hi Hm Hs Ea Hab Hl)) as H.
    destruct (on_msgs _ w) as [out w1]. by destruct out as [[]| |].
  - destruct Hok as [Hl _].
    pose proof (msgs_step own (λ _, own) _ w Hv (set_field_sound _ _ own (msgs w) p f v Hi Hl)) as H.
    unfold mbind, cmd_bind. destruct (on_msgs _ w) as [out w1]. by destruct out as [[]| |].
  - pose proof (parse_step own w mdef s flags made shared Hv Hok) as H.
    destruct (parse_message mdef s flags made shared w) as [out w1]. destruct H as (Hs & Hm & Hb1 & Hu & _).
    split; [done|]. apply finish_step; [by destruct out as [[]| |]|done..].
  - destruct (sv_assign_balanced s str w Hb) as (w1 & E & Hb1 & Em & Hu). rewrite (cbind_ret _ _ _ _ _ E).
    split; [done|]. by apply vars_step.
  - destruct (sv_write_balanced s str w Hb) as (w1 & E & Hb1 & Em & Hu). rewrite (cbind_ret _ _ _ _ _ E).
    split; [done|]. by apply vars_step.
  - destruct (sv_undef_balanced s w Hb) as (Hb1 & _ & Em & Hu & _). erewrite cbind_ret by reflexivity.
    split; [done|]. by apply vars_step.
Qed.

Lemma no_bindings_inv capacity : binv (λ _, 0%nat) (no_bindings capacity).
Proof.
  split; [apply no_messages_minv| |].
  - intros b. cbn. rewrite lookup_empty. unfold holders_of. cbn. by rewrite !holding_empty.
  - intros o b. cbn. by rewrite lookup_empty.
Qed.

Notation run_bops := (run_bops derived message_stash upb_Decode).
Notation bops_ok := (bops_ok derived message_stash upb_Decode).

Lemma bops_inv ops : ∀ own w, binv own w → bops_ok ops own w →
  let '(own', w') := run_bops ops own w in binv own' w' ∧ only_new (perl (msgs w)) (perl (msgs w')).
Proof.
  induction ops as [|op ops IH]; intros own w Hi; [intros _; split; [done|apply only_new_refl]|]. intros [Hop Hops]. cbn.
  pose proof (bop_step own w op Hi Hop) as Hs. pose proof (bgrows_run_bop op w) as Hg.
  destruct (run_bop op w) as [out w1]. destruct Hs as (_ & Hi1 & _). specialize (IH _ w1 Hi1 Hops).
  destruct (run_bops ops _ w1) as [own' w']. destruct IH as [Hi' Hg']. split; [done|]. by eapply only_new_trans.
Qed.

(** A hidden copy outlasts everything but its object. *)
Lemma bops_keep ops : ∀ own w o b x, binv own w → bops_ok ops own w → kept w !! o = Some b → bufs w !! b = Some x →
  let '(own', w') := run_bops ops own w in alive w' o → ∃ x', bufs w' !! b = Some x' ∧ content x' = content x.
Proof.
  induction ops as [|op ops IH]; intros own w o b x Hi; [intros _ _ Hx _; eauto|]. intros [Hop Hops] Ho Hx. cbn.
  pose proof (bop_step own w op Hi Hop) as Hs. destruct (run_bop op w) as [out w1] eqn:E. destruct Hs as (_ & Hi1 & Hk).
  assert (o < next_object (perl (msgs w1))) as Hlt.
  { pose proof (bgrows_run_bop op w) as [Hn _]. rewrite E in Hn. cbn in Hn.
    pose proof (inv_next _ _ (m_cache _ _ _ _ (b_minv _ _ Hi)) o (b_alive _ _ Hi o b Ho)). lia. }
  pose proof (bops_inv ops _ w1 Hi1 Hops) as Hn. pose proof (λ Ho1 x1 Hx1, IH _ w1 o b x1 Hi1 Hops Ho1 Hx1) as IH1.
  destruct (run_bops ops _ w1) as [own' w']. intros Ha.
  assert (alive w1 o) as Ha1 by (apply (proj2 (proj2 Hn)); [done|exact Ha]).
  destruct (Hk o b x Ho Hx Ha1) as (Ho1 & x1 & Hx1 & E1). destruct (IH1 Ho1 x1 Hx1 Ha) as (x' & Hx' & E').
  exists x'. split; [done|congruence].
Qed.
End Steps.

Section Claims.
Context (derived : string → string → bool) (message_stash : Z → string).
Context (upb_Decode : bool → bytes → Z → Z → Z → Serialize.DecodeStatus * decoded).
Notation run_bops := (run_bops derived message_stash upb_Decode).
Notation bops_ok := (bops_ok derived message_stash upb_Decode).
Notation bop_ok := (bop_ok derived upb_Decode).
Notation run_bop := (run_bop derived message_stash upb_Decode).

(** C3: the objects of the Perl interface.  After any history of making messages, with
    arenas of their own or given ones, parsing (failures of memory and of the decoder
    among them), sub-messages, detaching, attaching to the arena the message is in,
    coercing to another message class, writing fields, dropping references and changing
    the strings that were parsed: no call that may follow faults; every object Perl holds
    is alive; every message object answers a live message, its type and its arena, a
    detached one too; and once Perl holds nothing, neither objects nor buffers are left.
    Perl passes objects it holds; attaching to an arena the message is not in, and coercing
    to a class that is no message class, are not among the calls: they leave objects
    without a live message ([detached_and_attached]). *)
Theorem message_xsubs_sound capacity ops :
  bops_ok ops (λ _, 0%nat) (no_bindings capacity) →
  (∀ t, derived (message_stash t) message_class = true) →
  let '(own, w) := run_bops ops (λ _, 0%nat) (no_bindings capacity) in
  (∀ op, bop_ok own w op → safe (run_bop op w).1) ∧
  (∀ o, (1 ≤ own o)%nat → alive w o) ∧
  (∀ o ob, objects (perl (msgs w)) !! o = Some ob → stash ob ≠ Some arena_class →
    ∃ p m, Message_GetMsg derived (Some (PRef o)) (msgs w) = (Ret p, msgs w) ∧ p ≠ 0 ∧ live_msg (msgs w) p = Some m ∧
      Message_GetDef (Some (PRef o)) (msgs w) = (Ret (mtype m), msgs w) ∧
      Message_GetArena (Some (PRef o)) (msgs w) = (Ret (Some (PRef (arena_obj m))), msgs w)) ∧
  ((∀ o, own o = 0%nat) → objects (perl (msgs w)) = ∅ ∧ (scalars w = ∅ → bufs w = ∅)).
Proof.
  intros Hops Hder.
  pose proof (bops_inv derived message_stash upb_Decode Hder ops _ _ (no_bindings_inv _ _ capacity) Hops) as H.
  destruct (run_bops ops (λ _, 0%nat) (no_bindings capacity)) as [own w]. destruct H as [Hi _].
  destruct (minv_sound derived message_stash own (msgs w) (b_minv _ _ _ _ Hi) Hder) as (H1 & H2 & H3).
  split_and!; [|done|done|].
  - intros op Hop. pose proof (bop_step derived message_stash upb_Decode Hder own w op Hi Hop) as H.
    destruct (run_bop op w) as [out w']. by destruct H.
  - intros Hown. specialize (H3 Hown). split; [done|]. intros Hs. apply map_empty. intros b.
    pose proof (b_balanced _ _ _ _ Hi b) as Hb. destruct (bufs w !! b) as [x|]; [|done]. exfalso.
    assert (kept w = ∅) as Hk.
    { apply map_empty. intros o. destruct (kept w !! o) as [c|] eqn:Eo; [|done].
      apply (b_alive _ _ _ _ Hi) in Eo as [ob Ho]. by rewrite H3, lookup_empty in Ho. }
    unfold holders_of in Hb. rewrite Hs, Hk, !holding_empty, decide_False in Hb by done. lia.
Qed.

(** C29: strings that were not copied.  Parse a string with the profile [zero_copy], where
    Perl lets the hidden copy share the bytes (where it does not, see [copy_not_shared]), at
    any point of any history: as long as
    the object the parse answered is alive, whatever else happens, to the parsed variable
    above all, every string of the message and of its sub-messages reads as the bytes of
    the input it was decoded from. *)
Theorem zero_copy_readable capacity past own w mdef s flags made b buf o w1 later own2 w2 d f b' off len :
  (∀ t, derived (message_stash t) message_class = true) →
  bops_ok past (λ _, 0%nat) (no_bindings capacity) → run_bops past (λ _, 0%nat) (no_bindings capacity) = (own, w) →
  bop_ok own w (BParse mdef s flags made true) → made ≠ 0 → aliasing flags = true → input_of w s b buf →
  run_bop (BParse mdef s flags made true) w = (Ret (PRef o), w1) →
  bops_ok later (give own o) w1 → run_bops later (give own o) w1 = (own2, w2) → alive w2 o →
  d ∈ (upb_Decode true buf b made mdef).2 → d.2.1.2 !! f = Some (FAliased b' off len) →
  read_text w2 (FAliased b' off len) = Ret (take len (drop off buf)).
Proof.
  intros Hder Hpast Epast Hop Hm Hz Hin Eparse Hlater Elater Ha Hd Hf.
  pose proof (bops_inv derived message_stash upb_Decode Hder past _ _ (no_bindings_inv _ _ capacity) Hpast) as Hi.
  rewrite Epast in Hi. destruct Hi as [Hi _].
  pose proof (parse_step derived message_stash upb_Decode own w mdef s flags made true Hi Hop) as Hp.
  pose proof (bop_step derived message_stash upb_Decode Hder own w _ Hi Hop) as Hs. rewrite Eparse in Hs.
  destruct Hs as (_ & Hi1 & _). cbn [owned_by_perl] in Hi1. unfold Bindings.run_bop in Eparse. cbn [run_bop_only] in Eparse.
  destruct (parse_message message_stash upb_Decode mdef s flags made true w) as [out w0]. injection Eparse as -> <-.
  destruct Hp as (_ & Hm0 & Hb0 & _ & Hk). destruct (Hk o eq_refl) as [_ Hk0]. destruct (Hk0 Hz eq_refl b buf Hin) as [Hko Hbuf].
  destruct (bufs w0 !! b) as [x|] eqn:Ex; [|done]. cbn in Hbuf. injection Hbuf as Hbuf.
  destruct (sweep_balanced w0 Hb0) as (_ & Em & Hks & _).
  assert (alive (sweep w0) o) as Ha0.
  { unfold alive. rewrite Em. apply (owned_alive (give own o)); [apply Hm0|apply give_one]. }
  destruct (Hks o b x Hko Ex Ha0) as (Hko1 & x1 & Hx1 & E1).
  pose proof (bops_keep derived message_stash upb_Decode Hder later (give own o) (sweep w0) o b x1 Hi1 Hlater Hko1 Hx1) as Hend.
  rewrite Elater in Hend. destruct (Hend Ha) as (x2 & Hx2 & E2).
  destruct Hop as [_ [?|Hdec]]; [done|]. destruct Hin as [Hs Hc]. destruct (bufs w !! b) as [xw|] eqn:Exw; [|done].
  cbn in Hc. injection Hc as Hc. specialize (Hdec b xw Hs Exw). cbn zeta in Hdec. fold (aliasing flags) in Hdec.
  rewrite Hz, Hc in Hdec. destruct Hdec as (_ & _ & _ & _ & Hrange). destruct (Hrange d f _ Hd Hf) as (_ & -> & Hlen).
  cbn [read_text]. rewrite Hx2, E2, E1, Hbuf. by rewrite (proj2 (Nat.leb_le _ _) Hlen).
Qed.
End Claims.

(** *** Instances *)

(** A decoder of messages of type 7 with one string, the input without its first byte, and
    a sub-message of type 8 at the next address, with the same string. *)
Definition one_decoder (alias : bool) (buf : bytes) (b made mdef : Z) : Serialize.DecodeStatus * decoded :=
  let text := if alias then FAliased b 1 (length buf - 1) else FCopied (skipn 1 buf) in
  (if bool_decide (buf = []) then Serialize.DecodeMalformed else Serialize.DecodeOk,
   [(made, (mdef, <[1 := if bool_decide (buf = []) then FNumber 0 else text]> {[2 := FMessage (made + 16)]}, []));
    (made + 16, (8, {[1 := if bool_decide (buf = []) then FNumber 0 else text]}, []))]).

Definition hello : bytes := str "xhello".

(** The string is parsed, its variable written over, and the sub-message's object got. *)
Definition parse_and_write : list bop := [BWrite 1 (str "other"); BMsg (MWrap 2 32); BUndef 1].

Definition nobody : Z → nat := λ _, 0%nat.
Definition with_string : (Z → nat) * bworld :=
  run_bops is_a one_stash one_decoder [BAssign 1 hello] nobody (no_bindings 8).
Definition parsed : bworld := (run_bop is_a one_stash one_decoder (BParse 7 1 8 16 true) with_string.2).2.
Definition written : (Z → nat) * bworld :=
  run_bops is_a one_stash one_decoder parse_and_write (give with_string.1 2) parsed.

Lemma one_decoder_ok w alias b made mdef buf : 0 < made → live_msg w made = None → live_msg w (made + 16) = None →
  decoded_ok w made mdef alias b buf (one_decoder alias buf b made mdef).2.
Proof.
  intros Hm H1 H2. unfold one_decoder. cbn [snd]. split_and!; [done|done| | |].
  - cbn. apply NoDup_cons. split; [|apply NoDup_singleton]. intros ?%list_elem_of_singleton. lia.
  - intros p. cbn. rewrite elem_of_cons, list_elem_of_singleton. intros [->| ->]; (split; [lia|done]).
  - intros d f v. rewrite elem_of_cons, list_elem_of_singleton.
    assert (∀ v : fval, (if bool_decide (buf = []) then FNumber 0 else
        if alias then FAliased b 1 (length buf - 1) else FCopied (skipn 1 buf)) = v →
      match v with FAliased b' off len => alias = true ∧ b' = b ∧ (off + len ≤ length buf)%nat | _ => True end) as Ht.
    { intros x <-. case_bool_decide as E; [done|]. destruct alias; [|done]. destruct buf; [done|]. cbn. split_and!; lia. }
    intros [->| ->]; cbn.
    + rewrite lookup_insert. case_decide; [intros [= E]; by apply Ht|]. intros [_ <-]%lookup_singleton_Some. done.
    + intros [_ E]%lookup_singleton_Some. by apply Ht.
Qed.

Lemma zero_copy_readable_witness : alive written.2 2 ∧ read_text written.2 (FAliased 1 1 5) = Ret (str "hello").
Proof.
  assert (alive written.2 2) as Ha by (vm_compute; by eexists). split; [exact Ha|].
  apply (zero_copy_readable is_a one_stash one_decoder 8 [BAssign 1 hello] with_string.1 with_string.2 7 1 8 16 1 hello 2 parsed
    parse_and_write written.1 written.2 (16, (7, <[1 := FAliased 1 1 5]> {[2 := FMessage 32]}, [])) 1 1 1 5).
  - intros t. reflexivity.
  - split; exact I.
  - exact (surjective_pairing with_string).
  - split; [vm_compute; by eexists|]. right. intros b x _ _. apply one_decoder_ok; reflexivity.
  - discriminate.
  - reflexivity.
  - split; vm_compute; reflexivity.
  - vm_compute; reflexivity.
  - vm_compute. split; [exact I|]. split; [|split; exact I]. right.
    eexists _, _. split_and!; [lia|reflexivity|discriminate|reflexivity|reflexivity].
  - exact (surjective_pairing written).
  - exact Ha.
  - left.
  - vm_compute. reflexivity.
Defined.

(** A parse, its arena in Perl's hands, the object detached and the message attached again,
    coerced, written; a second message in the arena; a string that does not parse; and
    everything dropped but one object. *)
Definition some_calls : list bop :=
  [BAssign 1 hello; BParse 7 1 8 16 true; BGetArena 2; BDetach 2; BAttach 16 7 1; BCoerce 3 "My::Other"; BField 16 1 (FNumber 5);
   BNewIn 7 1 64 0; BAssign 2 []; BParse 7 2 0 96 true; BMsg (MDrop 2); BMsg (MDrop 1); BUndef 1].

Lemma bops_ok_cons derived message_stash upb_Decode op ops own w : bop_ok derived upb_Decode own w op →
  bops_ok derived message_stash upb_Decode ops
    (owned_by_perl own op (run_bop derived message_stash upb_Decode op w).1) (run_bop derived message_stash upb_Decode op w).2 →
  bops_ok derived message_stash upb_Decode (op :: ops) own w.
Proof. intros Hop Hops. split; [done|]. by destruct (run_bop derived message_stash upb_Decode op w). Qed.

Lemma some_calls_ok : bops_ok is_a one_stash one_decoder some_calls nobody (no_bindings 8).
Proof.
  unfold some_calls. repeat apply bops_ok_cons; [..|exact I].
  all: try exact I.
  all: match goal with
       | |- bop_ok _ _ _ _ (BParse _ _ _ _ _) =>
           split; [vm_compute; by eexists|]; right; intros b x _ _; apply one_decoder_ok; [lia|vm_compute; reflexivity..]
       | |- _ => vm_compute; try lia
       end.
  - split; [discriminate|]. split; [lia|]. eexists. split_and!; [reflexivity..|].
    eexists. split_and!; [reflexivity..].
  - split; [by eexists|exact I].
  - split; [lia|]. split; [eexists; split_and!; reflexivity|by right].
Qed.

Lemma message_xsubs_sound_witness :
  let '(own, w) := run_bops is_a one_stash one_decoder some_calls nobody (no_bindings 8) in
  alive w 3 ∧ safe (run_bop is_a one_stash one_decoder (BMsg (MDrop 3)) w).1.
Proof.
  pose proof (message_xsubs_sound is_a one_stash one_decoder 8 some_calls some_calls_ok (λ t, eq_refl)) as H.
  change (λ _, 0%nat) with nobody in H.
  assert (1 ≤ (run_bops is_a one_stash one_decoder some_calls nobody (no_bindings 8)).1 3%Z)%nat as Ho by (vm_compute; lia).
  destruct (run_bops is_a one_stash one_decoder some_calls nobody (no_bindings 8)) as [own w].
  destruct H as (H1 & H2 & _). split; [by apply H2|]. apply H1. exact Ho.
Defined.

(** The object of a sub-message keeps the arena, but not the input: once the object of the
    parsed message is gone, its strings are read from freed memory. *)
Example sub_message_outlives_input :
  let '(own, w) := run_bops is_a one_stash one_decoder [BMsg (MWrap 2 32); BMsg (MDrop 2); BUndef 1] (give nobody 2) parsed in
  (1 ≤ own 3%Z)%nat ∧ alive w 3 ∧ base <$> live_msg (msgs w) 32 = Some {[1 := FAliased 1 1 5]} ∧
  read_text w (FAliased 1 1 5) = Fault "freed string".
Proof. vm_compute. split_and!; [lia|by eexists|reflexivity..]. Qed.

(** Where Perl copies the bytes, the hidden copy is of no use even to the message parsed. *)
Example copy_not_shared :
  let w := (run_bop is_a one_stash one_decoder (BParse 7 1 8 16 false) with_string.2).2 in
  let w' := (run_bop is_a one_stash one_decoder (BUndef 1) w).2 in
  alive w' 2 ∧ read_text w' (FAliased 1 1 5) = Fault "freed string".
Proof. vm_compute. split; [by eexists|reflexivity]. Qed.

(** Detaching takes nothing away: the detached object still answers its message, next to
    the one the message is attached to again.  Attached to another arena, the message dies
    with its own. *)
Example detached_and_attached :
  let run := run_bops is_a one_stash one_decoder in
  let '(_, w) := run [BMsg (MNew 7 true 16 0); BGetArena 2; BDetach 2; BAttach 16 7 1] nobody (no_bindings 8) in
  (Message_GetMsg is_a (Some (PRef 2)) (msgs w)).1 = Ret 16 ∧ (Message_GetMsg is_a (Some (PRef 3)) (msgs w)).1 = Ret 16 ∧
  let '(_, w) := run [BMsg (MNew 7 true 16 0); BMsg (MNew 7 true 32 0); BGetArena 4; BDetach 2; BAttach 16 7 3; BMsg (MDrop 2)]
    nobody (no_bindings 8) in
  (Message_GetMsg is_a (Some (PRef 5)) (msgs w)).1 = Ret 16 ∧ live_msg (msgs w) 16 = None.
Proof. vm_compute. by split_and!. Qed.

(** Coercion blesses the object there is, for all who hold it. *)
Example coercion_is_shared :
  let '(_, w) := run_bops is_a one_stash one_decoder [BMsg (MNew 7 true 16 0)] nobody (no_bindings 8) in
  let '(out, m) := xs_coerce_to is_a one_stash (Some (PRef 2)) "My::Other" (msgs w) in
  out = Ret (PRef 2) ∧ stash <$> objects (perl m) !! 2 = Some (Some "My::Other"%string).
Proof. vm_compute. by split. Qed.

(** Migrating always raises, with a message left behind in the arena. *)
Example migration_never_ends :
  let '(_, w) := run_bops is_a one_stash one_decoder [BMsg (MNew 7 true 16 0)] nobody (no_bindings 8) in
  let '(out, m) := xs_migrate_to_arena is_a (Some (PRef 2)) (Some (PRef 1)) 48 (msgs w) in
  ¬ (∃ sv, out = Ret sv) ∧ is_Some (live_msg m 48).
Proof. vm_compute. split; [by intros []|by eexists]. Qed.
