(* ===== verification/ExtensionDict.v ===== *)
(** * Extension dictionaries (xs/extension_dict/*.c)

    The Perl object that reads and sets the extensions of a message by their definitions,
    and its iterator: both are C structures with a copy of the message's reference. *)

From S2P Require Import Prelude Convert Handles Accessors Wrappers Messages MessageOps.
From S2P Require ObjCache Descriptors.

(** ** Extensions of a message (upb/message/internal/extension.c) *)

Section Extensions.
Context {V : Type}.

(** [_upb_Message_Getext]. *)
Fixpoint Getext (aux : list (aux_entry V)) (e : Z) : option V :=
  match aux with
  | [] => None
  | AuxExt e' v :: aux => if e' =? e then Some v else Getext aux e
  | _ :: aux => Getext aux e
  end.

(** Writing through the pointer [Getext] answers. *)
Fixpoint write_ext (aux : list (aux_entry V)) (e : Z) (v : V) : list (aux_entry V) :=
  match aux with
  | [] => []
  | AuxExt e' v' :: aux => if e' =? e then AuxExt e v :: aux else AuxExt e' v' :: write_ext aux e v
  | x :: aux => x :: write_ext aux e v
  end.

(** [upb_Message_SetExtension]: [room], whether there was memory for a new entry. *)
Definition SetExtension (aux : list (aux_entry V)) (e : Z) (v : V) (room : bool) : bool * list (aux_entry V) :=
  match Getext aux e with
  | Some _ => (true, write_ext aux e v)
  | None => if room then (true, aux ++ [AuxExt e v]) else (false, aux)
  end.

Definition with_aux (m : cmsg V) (x : list (aux_entry V)) : cmsg V :=
  {| arena_obj := arena_obj m; mtype := mtype m; base := base m; aux := x |}.
End Extensions.

(** ** State

    The structures by address, with the reference to the message and the position of an
    iterator; the blessed scalars, with the class and the address in their IV. *)
Inductive cstruct := SDict (message_sv : psv) | SIter (message_sv : psv) (iter : nat).
Inductive handle_class := KDict | KIter.

#[export] Instance handle_class_eq_dec : EqDecision handle_class.
Proof. solve_decision. Defined.

Record eworld (V : Type) := { mw : mworld V; structs : gmap Z cstruct; ivs : gmap Z (handle_class * Z) }.
Arguments mw {_} _.
Arguments structs {_} _.
Arguments ivs {_} _.
Arguments Build_eworld {_} _ _ _.

Section Dict.
Context {V : Type} `{FieldValues V}.
Notation ecall := (cmd (eworld V)).
Context (derived : string → string → bool).
(** The fields by the address of their definition; those of a pool. *)
Context (field_at : Z → option field) (pool_of : Z → Z → option field) (table : Z → list field).
Context (nonempty : FieldDef → V → bool).

Definition on_msgs {A} (m : cmd (mworld V) A) : ecall A := λ w,
  let '(out, x) := m (mw w) in (out, Build_eworld x (structs w) (ivs w)).
Definition set_structs (s : gmap Z cstruct) (w : eworld V) : eworld V := Build_eworld (mw w) s (ivs w).
Definition set_ivs (i : gmap Z (handle_class * Z)) (w : eworld V) : eworld V := Build_eworld (mw w) (structs w) i.

(** [malloc], [newSVsv], and the blessed scalar: at address [p], object [h]. *)
Definition new_struct (k : handle_class) (s : psv → cstruct) (message_sv : psv) (p h : Z) : ecall Z :=
  if p =? 0 then cfault "NULL structure"
  else
    sv ← on_msgs (on_perl (newSVsv message_sv));
    cmodify (λ w, set_ivs (<[h := (k, p)]> (ivs w)) (set_structs (<[p := s sv]> (structs w)) w));;
    mret h.

Definition ExtensionDict_New (message_sv : psv) : Z → Z → ecall Z := new_struct KDict SDict message_sv.

(** [GetDict] and [GetIter]: 0 for NULL, as after [Free]. *)
Definition get_struct (k : handle_class) (h : Z) : ecall Z := λ w,
  (Ret (match ivs w !! h with
        | Some (k', p) => if decide (k = k') then p else 0
        | None => 0
        end), w).

Definition deref (p : Z) : ecall cstruct := λ w,
  match structs w !! p with Some s => (Ret s, w) | None => (Fault "freed structure", w) end.

Definition dict_message (p : Z) : ecall psv :=
  s ← deref p;
  match s with SDict m => mret m | SIter _ _ => cfault "another structure" end.

Definition FieldDef_at (f : Z) : ecall field :=
  match field_at f with Some fd => mret fd | None => cfault "freed definition" end.

Definition ExtensionDict_GetItem (self : Z) (field_sv : option psv) : ecall sv :=
  p ← get_struct KDict self;
  if p =? 0 then mret Undef
  else
    f ← on_msgs (on_perl (Descriptors.FieldDef_GetField derived field_sv));
    cguard (negb (f =? 0)) "Argument must be a FieldDescriptor";;
    message_sv ← dict_message p;
    msg ← on_msgs (Message_GetMsg derived (Some message_sv));
    if msg =? 0 then mret Undef
    else
      fd ← FieldDef_at f;
      cguard (is_extension fd) "Field is not an extension";;
      m ← on_msgs (read_msg msg);
      of_outcome (fv_to_sv (default (fv_default (fdef fd)) (Getext (aux m) f)) (fdef fd)).

(** The value is converted before the message is looked at, and what
    [upb_Message_SetFieldByDef] answers is dropped. *)
Definition ExtensionDict_SetItem (self : Z) (field_sv : option psv) (value_sv : sv) (room : bool) : ecall unit :=
  p ← get_struct KDict self;
  if p =? 0 then mret tt
  else
    f ← on_msgs (on_perl (Descriptors.FieldDef_GetField derived field_sv));
    cguard (negb (f =? 0)) "Argument must be a FieldDescriptor";;
    fd ← FieldDef_at f;
    cguard (is_extension fd) "Field is not an extension";;
    message_sv ← dict_message p;
    arena_sv ← on_msgs (Message_GetArena (Some message_sv));
    on_msgs (get_arena arena_sv);;
    msg ← on_msgs (Message_GetMsg derived (Some message_sv));
    val ← of_outcome (fv_of_sv value_sv (fdef fd));
    if msg =? 0 then cfault "NULL message"
    else
      m ← on_msgs (read_msg msg);
      on_msgs (write_msg msg (with_aux m (SetExtension (aux m) f val room).2)).

(** [Free] of both: the reference, the structure, the IV. *)
Definition free_struct (k : handle_class) (h : Z) : ecall unit :=
  p ← get_struct k h;
  if p =? 0 then mret tt
  else
    s ← deref p;
    match (match s with SDict m | SIter m _ => m end) with
    | PRef o => on_msgs (SvREFCNT_dec o)
    | _ => mret tt
    end;;
    cmodify (λ w, set_ivs (<[h := (k, 0)]> (ivs w)) (set_structs (delete p (structs w)) w)).

Definition ExtensionDict_Free : Z → ecall unit := free_struct KDict.
Definition ExtensionDictIterator_Free : Z → ecall unit := free_struct KIter.

Definition ExtensionDict_GetMessageSV (self : Z) : ecall (option psv) :=
  p ← get_struct KDict self;
  if p =? 0 then mret None else m ← dict_message p; mret (Some m).

Definition ExtensionDict_AuditIdentity (self : Z) : ecall unit :=
  p ← get_struct KDict self;
  if p =? 0 then mret tt
  else
    message_sv ← dict_message p;
    msg ← on_msgs (Message_GetMsg derived (Some message_sv));
    on_msgs (on_perl (cmodify (λ w, set_oc (ObjCache.logged (oc w) ObjCache.EvHit msg) w))).

(** ** iterator.c *)

(** [None] is undef. *)
Definition ExtensionDict_GetIterator (dict : Z) (p h : Z) : ecall (option Z) :=
  message_sv ← ExtensionDict_GetMessageSV dict;
  match message_sv with
  | None => mret None
  | Some sv => h ← new_struct KIter (λ sv, SIter sv 0) sv p h; mret (Some h)
  end.

(** [while (upb_Message_Next(...)) if (upb_FieldDef_IsExtension(f)) return ...]: the
    extension, and the position left. *)
Fixpoint next_extension (fuel : nat) (fs : list field) (pool : Z → option field) (m : cmsg V) (iter : nat)
  : outcome (option field) * nat :=
  match fuel with
  | O => (Fault "fuel", iter)
  | S fuel =>
      match upb_Message_Next nonempty fs (Some pool) m iter with
      | (Ret (Some f), iter) => if is_extension f then (Ret (Some f), iter) else next_extension fuel fs pool m iter
      | (out, iter) => (out, iter)
      end
  end.

Definition set_iter (p : Z) (message_sv : psv) (iter : nat) : ecall unit :=
  cmodify (λ w, set_structs (<[p := SIter message_sv iter]> (structs w)) w).

(** The definition found, for its wrapper; [None] is undef. *)
Definition ExtensionDict_Iterator_Next (self : Z) : ecall (option field) :=
  p ← get_struct KIter self;
  if p =? 0 then mret None
  else
    s ← deref p;
    match s with
    | SDict _ => cfault "another structure"
    | SIter message_sv iter =>
        msg ← on_msgs (Message_GetMsg derived (Some message_sv));
        if msg =? 0 then mret None
        else
          mdef ← on_msgs (Message_GetDef (Some message_sv));
          m ← on_msgs (read_msg msg);
          let fs := table mdef in
          let '(out, iter) := next_extension (S (length fs)) fs (pool_of mdef) m iter in
          set_iter p message_sv iter;;
          of_outcome out
    end.

(** ** Histories of reads and writes through a dictionary *)

Inductive ecall_op := EGet (f : Z) | ESet (f : Z) (v : sv) (room : bool).

Definition run_eop (self : Z) (field_sv : Z → option psv) (op : ecall_op) : ecall sv :=
  match op with
  | EGet f => ExtensionDict_GetItem self (field_sv f)
  | ESet f v room => void (ExtensionDict_SetItem self (field_sv f) v room)
  end.

Fixpoint run_eops (self : Z) (field_sv : Z → option psv) (ops : list ecall_op) (w : eworld V)
  : list (outcome sv) * eworld V :=
  match ops with
  | [] => ([], w)
  | op :: ops =>
      let '(out, w) := run_eop self field_sv op w in
      let '(outs, w) := run_eops self field_sv ops w in (out :: outs, w)
  end.

(** *** What it should be: a finite map from extensions to values. *)

Definition spec_eop (op : ecall_op) (x : gmap Z V) : outcome sv * gmap Z V :=
  match op with
  | EGet f =>
      match field_at f with
      | Some fd =>
          if is_extension fd then (fv_to_sv (default (fv_default (fdef fd)) (x !! f)) (fdef fd), x)
          else (Croak "Field is not an extension", x)
      | None => (Fault "freed definition", x)
      end
  | ESet f v room =>
      match field_at f with
      | Some fd =>
          if is_extension fd then
            match fv_of_sv v (fdef fd) with
            | Ret val => (Ret Undef, if room || bool_decide (is_Some (x !! f)) then <[f := val]> x else x)
            | Croak msg => (Croak msg, x)
            | Fault why => (Fault why, x)
            end
          else (Croak "Field is not an extension", x)
      | None => (Fault "freed definition", x)
      end
  end.

Fixpoint spec_eops (ops : list ecall_op) (x : gmap Z V) : list (outcome sv) * gmap Z V :=
  match ops with
  | [] => ([], x)
  | op :: ops => let '(out, x) := spec_eop op x in let '(outs, x) := spec_eops ops x in (out :: outs, x)
  end.
End Dict.

(** ** Extensions as a map *)

Section Extension_map.
Context {V : Type}.

Fixpoint ext_map (aux : list (aux_entry V)) : gmap Z V :=
  match aux with
  | [] => ∅
  | AuxExt e v :: aux => <[e := v]> (ext_map aux)
  | _ :: aux => ext_map aux
  end.

(** The unknown fields, and the extensions in order. *)
Definition unknowns (aux : list (aux_entry V)) : list bytes :=
  omap (λ x, match x with AuxUnknown d => Some d | _ => None end) aux.
Definition exts (aux : list (aux_entry V)) : list Z :=
  omap (λ x, match x with AuxExt e _ => Some e | _ => None end) aux.

Lemma Getext_map aux e : ext_map aux !! e = Getext aux e.
Proof.
  induction aux as [|[|d|e' v] aux IH]; simpl; [by rewrite lookup_empty|done..|].
  destruct (Z.eqb_spec e' e) as [->|Hne]; [apply lookup_insert_eq|by rewrite lookup_insert_ne].
Qed.

Lemma write_ext_map aux e v : is_Some (Getext aux e) → ext_map (write_ext aux e v) = <[e := v]> (ext_map aux).
Proof.
  induction aux as [|[|d|e' v'] aux IH]; simpl; [by intros []|done..|].
  destruct (Z.eqb_spec e' e) as [->|Hne]; simpl; [by rewrite insert_insert_eq|].
  intros Hs. rewrite IH by done. by rewrite insert_insert_ne.
Qed.

Lemma append_ext_map aux e v : Getext aux e = None → ext_map (aux ++ [AuxExt e v]) = <[e := v]> (ext_map aux).
Proof.
  induction aux as [|[|d|e' v'] aux IH]; simpl; [done..|].
  destruct (Z.eqb_spec e' e) as [->|Hne]; [done|]. intros Hs. rewrite IH by done. by rewrite insert_insert_ne.
Qed.

Lemma SetExtension_map aux e v room : ext_map (SetExtension aux e v room).2 =
  if room || bool_decide (is_Some (ext_map aux !! e)) then <[e := v]> (ext_map aux) else ext_map aux.
Proof.
  unfold SetExtension. rewrite Getext_map. destruct (Getext aux e) as [v'|] eqn:E.
  - rewrite bool_decide_eq_true_2, orb_true_r by done. apply write_ext_map. by rewrite E.
  - rewrite bool_decide_eq_false_2, orb_false_r by (by intros []).
    destruct room; [by apply append_ext_map|done].
Qed.

Lemma SetExtension_unknowns aux e v room : unknowns (SetExtension aux e v room).2 = unknowns aux.
Proof.
  unfold SetExtension, unknowns. destruct (Getext aux e).
  - simpl. induction aux as [|[|d|e' v'] aux IH]; csimpl; [done|done|by rewrite IH|].
    destruct (e' =? e); csimpl; [done|done].
  - destruct room; [|done]. simpl. rewrite omap_app. csimpl. by rewrite app_nil_r.
Qed.
End Extension_map.

(** ** Dictionaries *)

Section Refinement.
Context {V : Type} `{FieldValues V}.
Context (derived : string → string → bool) (message_stash : Z → string).
Context (field_at : Z → option field) (field_sv : Z → option psv).
Hypothesis message_classes : ∀ t, derived (message_stash t) message_class = true.

(** A dictionary over the message [m] at [p], whose object is [o]. *)
Record dict_on (w : eworld V) (h d o p : Z) (m : cmsg V) : Prop := {
  do_iv : ivs w !! h = Some (KDict, d) ∧ d ≠ 0;
  do_struct : structs w !! d = Some (SDict (PRef o));
  do_message : message_object message_stash (mw w) o p m }.

(** The object given for a field is its wrapper. *)
Definition wrapper_for (w : eworld V) (f : Z) : Prop :=
  f ≠ 0 ∧ Descriptors.FieldDef_GetField derived (field_sv f) (perl (mw w)) = (Ret f, perl (mw w)).

Definition eop_field (op : ecall_op) : Z := match op with EGet f | ESet f _ _ => f end.

Lemma on_msgs_run {A} (m : cmd (mworld V) A) (w : eworld V) out x : m (mw w) = (out, x) →
  on_msgs m w = (out, Build_eworld x (structs w) (ivs w)).
Proof. intros E. unfold on_msgs. by rewrite E. Qed.

Lemma on_msgs_reads {A} (m : cmd (mworld V) A) (w : eworld V) out : m (mw w) = (out, mw w) → on_msgs m w = (out, w).
Proof. intros E. rewrite (on_msgs_run _ _ _ _ E). by destruct w. Qed.

(** The calls on a dictionary read these. *)
Lemma dict_reads (w : eworld V) h d o p m : dict_on w h d o p m →
  get_struct KDict h w = (Ret d, w) ∧ dict_message d w = (Ret (PRef o), w) ∧
  on_msgs (Message_GetMsg derived (Some (PRef o))) w = (Ret p, w) ∧
  on_msgs (Message_GetArena (Some (PRef o))) w = (Ret (Some (PRef (arena_obj m))), w) ∧
  on_msgs (get_arena (Some (PRef (arena_obj m)))) w = (Ret (arena_obj m), w) ∧
  on_msgs (read_msg p) w = (Ret m, w) ∧ p ≠ 0.
Proof.
  intros [[Hiv Hd] Hs Hm].
  destruct (object_reads derived message_stash message_classes (mw w) o p m (store (mw w)) Hm) as (E1 & _ & E3 & E4).
  replace (set_store (store (mw w)) (mw w)) with (mw w) in * by (by destruct (mw w)).
  split_and!; try (by apply on_msgs_reads).
  - unfold get_struct. by rewrite Hiv.
  - unfold dict_message. rewrite (cbind_ret _ _ w (SDict (PRef o)) w); [done|]. unfold deref. by rewrite Hs.
  - apply on_msgs_reads, read_live; [apply Hm|by eapply object_arena].
  - apply Hm.
Qed.

(** Setting an extension leaves the object and the dictionary what they are. *)
Lemma dict_on_write (w : eworld V) h d o p m x : dict_on w h d o p m →
  let w' := Build_eworld (set_store (<[p := with_aux m x]> (store (mw w))) (mw w)) (structs w) (ivs w) in
  on_msgs (write_msg p (with_aux m x)) w = (Ret tt, w') ∧ dict_on w' h d o p (with_aux m x).
Proof.
  intros [Hiv Hs [Hw Ht Hl Ha]] w'. split; [done|]. split; [done|done|].
  split; [done|done|by split; [apply lookup_insert_eq|apply Hl]|done].
Qed.

Lemma run_eop_refines (w : eworld V) h d o p m op : dict_on w h d o p m → wrapper_for w (eop_field op) →
  ∃ w' m', run_eop derived field_at h field_sv op w = ((spec_eop field_at op (ext_map (aux m))).1, w') ∧
    dict_on w' h d o p m' ∧ perl (mw w') = perl (mw w) ∧
    ext_map (aux m') = (spec_eop field_at op (ext_map (aux m))).2 ∧ base m' = base m ∧
    unknowns (aux m') = unknowns (aux m).
Proof.
  intros Hd [Hf Ef]. destruct (dict_reads w h d o p m Hd) as (E1 & E2 & E3 & E4 & E5 & E6 & Hp).
  assert (on_msgs (on_perl (Descriptors.FieldDef_GetField derived (field_sv (eop_field op)))) w =
    (Ret (eop_field op), w)) as E0.
  { apply on_msgs_reads. rewrite (on_perl_run _ _ _ _ Ef). by destruct (mw w). }
  destruct op as [f|f v room]; simpl in Hf, E0; cbn [run_eop spec_eop].
  - exists w, m. unfold ExtensionDict_GetItem.
    rewrite (cbind_ret _ _ _ _ _ E1), (proj2 (Z.eqb_neq d 0)) by apply Hd.
    rewrite (cbind_ret _ _ _ _ _ E0), (proj2 (Z.eqb_neq f 0)) by done. rewrite (cbind_ret _ _ w tt w) by done.
    rewrite (cbind_ret _ _ _ _ _ E2), (cbind_ret _ _ _ _ _ E3), (proj2 (Z.eqb_neq p 0)) by done.
    unfold FieldDef_at. destruct (field_at f) as [fd|]; [|by split_and!].
    rewrite (cbind_ret _ _ w fd w) by done. destruct (is_extension fd); [|by split_and!].
    rewrite (cbind_ret _ _ w tt w), (cbind_ret _ _ _ _ _ E6) by done. rewrite Getext_map. by split_and!.
  - unfold ExtensionDict_SetItem, void.
    rewrite !cbind_assoc, (cbind_ret _ _ _ _ _ E1), (proj2 (Z.eqb_neq d 0)) by apply Hd.
    rewrite !cbind_assoc, (cbind_ret _ _ _ _ _ E0), (proj2 (Z.eqb_neq f 0)) by done.
    rewrite !cbind_assoc, (cbind_ret _ _ w tt w) by done.
    unfold FieldDef_at. destruct (field_at f) as [fd|]; [|by exists w, m].
    rewrite !cbind_assoc, (cbind_ret _ _ w fd w) by done. destruct (is_extension fd); [|by exists w, m].
    rewrite !cbind_assoc, (cbind_ret _ _ w tt w), !cbind_assoc, (cbind_ret _ _ _ _ _ E2) by done.
    rewrite !cbind_assoc, (cbind_ret _ _ _ _ _ E4), !cbind_assoc, (cbind_ret _ _ _ _ _ E5).
    rewrite !cbind_assoc, (cbind_ret _ _ _ _ _ E3). rewrite !cbind_assoc.
    destruct (fv_of_sv v (fdef fd)) as [val| |]; [|by exists w, m..].
    rewrite (cbind_ret _ _ w val w), (proj2 (Z.eqb_neq p 0)) by done.
    rewrite !cbind_assoc, (cbind_ret _ _ _ _ _ E6).
    destruct (dict_on_write w h d o p m (SetExtension (aux m) f val room).2 Hd) as [E7 Hd'].
    rewrite (cbind_ret _ _ _ _ _ E7). do 2 eexists. split; [done|]. split; [exact Hd'|].
    split_and!; [done| |done|]; simpl; [apply SetExtension_map|apply SetExtension_unknowns].
Qed.

(** C9: an extension dictionary is a finite map.  Any sequence of [GetItem] and [SetItem]
    through a dictionary over a live message, with values and fields of every sort,
    answers (or croaks) as look-ups and insertions in a map from extensions to values do,
    the default standing for what is not there; an insertion that finds no memory changes
    nothing; the message ends with exactly the map's extensions, and its own fields and
    unknown fields untouched. *)
Theorem dict_refines_map ops : ∀ (w : eworld V) h d o p m, dict_on w h d o p m →
  Forall (λ op, wrapper_for w (eop_field op)) ops →
  let '(outs, w') := run_eops derived field_at h field_sv ops w in
  let '(outs', x) := spec_eops field_at ops (ext_map (aux m)) in
  outs = outs' ∧ ∃ m', store (mw w') !! p = Some m' ∧ ext_map (aux m') = x ∧ base m' = base m ∧
    unknowns (aux m') = unknowns (aux m).
Proof.
  induction ops as [|op ops IH]; intros w h d o p m Hd Hops; simpl.
  { split; [done|]. exists m. split_and!; [apply Hd|done..]. }
  inversion_clear Hops as [|?? Hop Hops'].
  destruct (run_eop_refines w h d o p m op Hd Hop) as (w1 & m1 & -> & Hd1 & Ep & Ex & Eb & Eu).
  specialize (IH w1 h d o p m1 Hd1). destruct (spec_eop field_at op (ext_map (aux m))) as [out x].
  simpl in Ex |- *. rewrite Ex in IH.
  destruct (run_eops derived field_at h field_sv ops w1) as [outs w'], (spec_eops field_at ops x) as [outs' x'].
  destruct IH as (-> & m' & ? & ? & ? & ?).
  { eapply Forall_impl; [done|]. intros op' [? E]. split; [done|]. by rewrite Ep. }
  split; [done|]. exists m'. by split_and!; congruence.
Qed.
End Refinement.

(** ** The iterator *)

Section Iterator.
Context {V : Type} (nonempty : FieldDef → V → bool).
Context (fs : list field) (pool : Z → option field) (m : cmsg V).
(** The fields of a type are no extensions; the pool knows the message's extensions. *)
Hypothesis fields_proper : Forall (λ f, is_extension f = false) fs.
Hypothesis pool_complete : ∀ e, e ∈ exts (aux m) → ∃ fd, pool e = Some fd ∧ is_extension fd = true.

(** What is left for an iterator at position [iter]. *)
Definition left_at (iter : nat) : list Z := exts (drop (iter - length fs) (aux m)).

Lemma exts_app (l1 l2 : list (aux_entry V)) : exts (l1 ++ l2) = exts l1 ++ exts l2.
Proof. apply omap_app. Qed.

Lemma left_at_sub iter : left_at iter ⊆ exts (aux m).
Proof.
  intros e He. rewrite <- (take_drop (iter - length fs) (aux m)), exts_app. apply elem_of_app. by right.
Qed.

Lemma next_ext_spec (l : list (aux_entry V)) : ∀ i,
  match next_ext i l with
  | Some (k, e) => ∃ j, k = (i + j)%nat ∧ exts l = e :: exts (drop (S j) l)
  | None => exts l = []
  end.
Proof.
  induction l as [|[|d|e v] l IH]; intros i; simpl; [done| | |].
  - specialize (IH (S i)). destruct (next_ext (S i) l) as [[k e]|]; [|done].
    destruct IH as (j & -> & E). exists (S j). split; [lia|done].
  - specialize (IH (S i)). destruct (next_ext (S i) l) as [[k e]|]; [|done].
    destruct IH as (j & -> & E). exists (S j). split; [lia|done].
  - exists O. split; [lia|done].
Qed.

Lemma next_extension_exact fuel : ∀ iter, (length fs < fuel + iter)%nat → (0 < fuel)%nat →
  match left_at iter with
  | [] => ∃ it, next_extension nonempty fuel fs pool m iter = (Ret None, it) ∧ left_at it = [] ∧ (length fs < it)%nat
  | e :: l => ∃ fd it, pool e = Some fd ∧ next_extension nonempty fuel fs pool m iter = (Ret (Some fd), it) ∧
      left_at it = l ∧ (length fs < it)%nat
  end.
Proof.
  induction fuel as [|fuel IH]; intros iter Hf H0; [lia|]. cbn [next_extension]. unfold upb_Message_Next.
  pose proof (next_base_spec nonempty m (drop iter fs) iter) as Hn.
  destruct (next_base nonempty m iter (drop iter fs)) as [[i f]|].
  - destruct Hn as (k & -> & Hk & _). rewrite lookup_drop in Hk.
    rewrite (proj1 (Forall_lookup _ _) fields_proper _ _ Hk). apply lookup_lt_Some in Hk.
    assert (left_at iter = left_at (S (iter + k))) as ->.
    { unfold left_at. do 2 f_equal. lia. }
    apply IH; lia.
  - clear Hn IH. replace (Nat.max iter (length fs) - length fs)%nat with (iter - length fs)%nat by lia.
    set (j := (iter - length fs)%nat). pose proof (next_ext_spec (drop j (aux m)) j) as Hn.
    unfold left_at at 1. fold j. destruct (next_ext j (drop j (aux m))) as [[k e]|].
    + destruct Hn as (i & -> & E). assert (e ∈ exts (aux m)) as He.
      { apply (left_at_sub iter). unfold left_at. fold j. rewrite E. set_solver. }
      destruct (pool_complete e He) as (fd & Ep & Ex). rewrite E. exists fd, (S (length fs + (j + i))).
      rewrite Ep, Ex. split_and!; [done|done| |lia]. unfold left_at. rewrite drop_drop. do 2 f_equal. lia.
    + rewrite Hn. eexists. split; [done|]. split; [|lia]. unfold left_at.
      rewrite drop_ge by lia. done.
Qed.
End Iterator.

(** *** Instances *)

#[local] Instance int_values : FieldValues Z := {|
  fv_default _ := 0;
  fv_to_sv v _ := Ret (IV v);
  fv_of_sv s _ := match s with IV z => Ret z | _ => Croak "Failed to convert value for extension field" end |}.

(** A message at 16 behind object 2, an extension at 64 and a field at 80 with their
    wrappers, and a dictionary. *)
Definition ext_field (f : Z) : option field :=
  if f =? 64 then Some {| fptr := 64; fdef := field0 "x" 100 TInt32; is_extension := true; has_presence := true |}
  else if f =? 80 then Some {| fptr := 80; fdef := field0 "y" 1 TInt32; is_extension := false; has_presence := true |}
  else None.

Definition dict_world : eworld Z :=
  let '(_, w) := run_mops is_a one_stash [MNew 7 true 16 0] (λ _, 0%nat) (no_messages 8) in
  let '(_, w) := (on_perl (Descriptors.FieldDef_GetWrapper 64);; on_perl (Descriptors.FieldDef_GetWrapper 80)) w in
  (ExtensionDict_New (PRef 2) 1000 1 (Build_eworld w ∅ ∅)).2.

Definition wrapper_sv (f : Z) : option psv := Some (PRef (if f =? 64 then 3 else 4)).

Definition some_eops : list ecall_op := [EGet 64; ESet 64 (IV 5) true; EGet 64; ESet 80 (IV 1) true; ESet 64 Undef true].

Lemma dict_refines_map_witness :
  let '(outs, w') := run_eops is_a ext_field 1 wrapper_sv some_eops dict_world in
  let '(outs', x) := spec_eops ext_field some_eops (ext_map (aux (empty_msg (V := Z) 1 7))) in
  outs = outs' ∧ ∃ m', store (mw w') !! 16 = Some m' ∧ ext_map (aux m') = x ∧ base m' = base (empty_msg 1 7) ∧
    unknowns (aux m') = unknowns (aux (empty_msg (V := Z) 1 7)).
Proof.
  apply (dict_refines_map is_a one_stash ext_field wrapper_sv (λ _, eq_refl) some_eops dict_world 1 1000 2 16).
  - split; [by vm_compute|by vm_compute|]. split; [|by vm_compute|by vm_compute|].
    + eexists. split; [by vm_compute|]. split; [|done]. split; [done|]. split; [by do 2 eexists|by eexists].
    + eexists. by split; [vm_compute|].
  - unfold some_eops. repeat (apply Forall_cons; split); [..|by apply Forall_nil];
      (split; [done|vm_compute; reflexivity]).
Defined.

(** The dictionary keeps its message: with Perl's own reference gone the message can
    still be read through it; freeing it twice is harmless, and then it answers undef. *)
Example dict_keeps_message :
  let '(_, w) := on_msgs (SvREFCNT_dec 2) dict_world in
  let '(out1, w) := ExtensionDict_GetItem is_a ext_field 1 (wrapper_sv 64) w in
  let '(_, w) := ExtensionDict_Free 1 w in
  let '(out2, w) := ExtensionDict_Free 1 w in
  let '(out3, w) := ExtensionDict_GetItem is_a ext_field 1 (wrapper_sv 64) w in
  (out1, out2, out3) = (Ret (IV 0), Ret tt, Ret Undef) ∧ store (mw w) !! 16 ≠ None ∧ live_msg (mw w) 16 = None.
Proof. vm_compute. by split_and!. Qed.

(** An iterator over a message with an extension its pool does not know reads what the
    look-up left undefined. *)
Example extension_of_another_pool :
  (next_extension (λ _ _, true) 1 [] (λ _, None) (with_aux (empty_msg 1 7) [AuxExt 64 5]) 0).1 =
    Fault "extension of another pool".
Proof. done. Qed.
