(* ===== verification/Utils.v ===== *)
(** * Helpers (xs/protobuf/utils.c, xs/protobuf.c)

    The vectorised range check, string checks, vectors of fields, the processor's
    features, error messages with their context, and the functions of the module's
    start-up. *)

From S2P Require Import Prelude Convert.
From S2P Require ObjCache Arena.

(** ** Vector kernels *)

(** [_mm_cmpgt_epi32] on one 32-bit lane: all ones or all zeros. *)
Definition cmpgt_epi32 (a b : Z) : Z := if b <? a then 0xFFFFFFFF else 0.

(** [_mm_movemask_epi8]: the top bit of each of the 16 bytes, lowest lane first. *)
Definition lane_signs (lane : Z) : list bool := map (λ k, Z.testbit lane (8 * k + 7)) [0; 1; 2; 3].
Fixpoint mask_of (bits : list bool) : Z :=
  match bits with
  | [] => 0
  | b :: bits => Z.b2z b + 2 * mask_of bits
  end.
Definition movemask_epi8 (lanes : list Z) : Z := mask_of (lanes ≫= lane_signs).

Definition out_of_range (min max v : Z) : Z := Z.lor (cmpgt_epi32 min v) (cmpgt_epi32 v max).

(** The scalar loop. *)
Fixpoint ValidateIntRange_scalar (vals : list Z) (min max : Z) : bool :=
  match vals with
  | [] => true
  | v :: vals => if (v <? min) || (max <? v) then false else ValidateIntRange_scalar vals min max
  end.

(** [PerlUpb_ValidateIntRange_SSE41]: four at a time, then the rest. *)
Fixpoint ValidateIntRange_SSE41 (vals : list Z) (min max : Z) : bool :=
  match vals with
  | a :: b :: c :: d :: vals =>
      if negb (movemask_epi8 (map (out_of_range min max) [a; b; c; d]) =? 0) then false
      else ValidateIntRange_SSE41 vals min max
  | _ => ValidateIntRange_scalar vals min max
  end.

(** [PerlUpb_ValidateStrings_AVX2]: [None] is a NULL pointer. *)
Fixpoint ValidateStrings_AVX2 (strings : list (option bytes * Z)) : bool :=
  match strings with
  | [] => true
  | (s, len) :: strings =>
      if bool_decide (s = None) || (len =? 0) then false else ValidateStrings_AVX2 strings
  end.

(** ** Strings of scalars *)

(** NULL is a missing scalar or string. *)
Definition GetStrData (sv : option sv) : option bytes :=
  match sv with Some (PV s utf8) => Some (SvPVutf8 s utf8) | _ => None end.
Definition VerifyStrData (sv : option Convert.sv) : outcome bytes :=
  match sv with Some (PV s utf8) => Ret (SvPVutf8 s utf8) | _ => Croak "Expected a string SV" end.

(** [PerlUpb_VerifyBinaryDiff], without what it prints. *)
Definition VerifyBinaryDiff (a b : bytes) : outcome unit :=
  if bool_decide (length a = length b) && bool_decide (a = b) then Ret tt
  else Croak "Binary diff verification failed".

(** ** Error messages *)

Definition CroakWithContext {A} (msg : string) (message field : option string) : outcome A :=
  match message with
  | None => Croak msg
  | Some mname =>
      match field with
      | None => Croak (msg +:+ " (in message " +:+ mname +:+ ")")
      | Some fname => Croak (msg +:+ " (at " +:+ mname +:+ "." +:+ fname +:+ ")")
      end
  end.

(** ** Field vectors

    [cells]: the elements the two arrays have room for, which [safemalloc] was asked for
    in a 64-bit number of bytes. *)
Record FieldVector := { fv_items : list (Z * Z); capacity : Z; cells : Z }.

(** Pointers are of 8 bytes. *)
Definition cells_of (capacity : Z) : Z := u64 (8 * capacity) / 8.

Definition FieldVector_New (capacity : Z) : FieldVector :=
  {| fv_items := []; capacity := capacity; cells := cells_of capacity |}.

Definition FieldVector_Add (v : FieldVector) (f val : Z) : outcome FieldVector :=
  let count := Z.of_nat (length (fv_items v)) in
  let grown := if capacity v <=? count then u64 (capacity v * 2) else capacity v in
  let room := if capacity v <=? count then cells_of grown else cells v in
  if count <? room then Ret {| fv_items := fv_items v ++ [(f, val)]; capacity := grown; cells := room |}
  else Fault "write past the vector".

Fixpoint FieldVector_AddAll (v : FieldVector) (l : list (Z * Z)) : outcome FieldVector :=
  match l with
  | [] => Ret v
  | (f, val) :: l => v ← FieldVector_Add v f val; FieldVector_AddAll v l
  end.

(** ** The processor's features *)

Definition PERL_UPB_HAS_SSE41 : Z := 1.
Definition PERL_UPB_HAS_AVX2 : Z := 2.

(** What [cpuid] answers for leaf 1 ([ecx]) and leaf 7 ([ebx]), if it has them. *)
Definition InitCpuFeatures (leaf1_ecx leaf7_ebx : option Z) (cpu_features : Z) : Z :=
  let cpu_features :=
    match leaf1_ecx with
    | Some ecx => if negb (Z.land ecx (Z.shiftl 1 19) =? 0) then Z.lor cpu_features PERL_UPB_HAS_SSE41
                  else cpu_features
    | None => cpu_features
    end in
  match leaf7_ebx with
  | Some ebx => if negb (Z.land ebx (Z.shiftl 1 5) =? 0) then Z.lor cpu_features PERL_UPB_HAS_AVX2
                else cpu_features
  | None => cpu_features
  end.

Definition GetCpuFeatures (cpu_features : Z) : Z := cpu_features.
Definition DetectCpuFeatures (cpu_features : Z) : Z := 0.

(** ** protobuf.c: the functions of [Protobuf::Internal] on the object cache *)

Inductive xs := XS_get_cache_audit_log | XS_set_cache_capacity | XS_get_cache_capacity | XS_clear_cache.

(** What a function gives back to Perl. *)
Inductive xs_answer := NoAnswer | ACapacity (n : Z) | ALog (l : list ObjCache.audit_entry).

Definition usage {A} (cond : bool) (k : cmd ObjCache.state A) : cmd ObjCache.state A :=
  if cond then k else ccroak "Usage".

Definition run_xs `{PerlNum} (f : xs) (args : list sv) : cmd ObjCache.state xs_answer :=
  match f with
  | XS_get_cache_audit_log =>
      usage (bool_decide (length args = 0)%nat) (st ← cget; mret (ALog (ObjCache.GetAuditLog (ObjCache.log st))))
  | XS_set_cache_capacity =>
      match args with
      | [capacity] => cmodify (λ st, ObjCache.ObjCache_SetCapacity st (SvUV capacity));; mret NoAnswer
      | _ => ccroak "Usage"
      end
  | XS_get_cache_capacity =>
      usage (bool_decide (length args = 0)%nat) (st ← cget; mret (ACapacity (ObjCache.ObjCache_GetCapacity st)))
  | XS_clear_cache =>
      usage (bool_decide (length args = 0)%nat) (cmodify (ObjCache.ObjCache_Clear false);; mret NoAnswer)
  end.

(** The subs the start-up installs, by name. *)
Definition xs_subs : list (string * xs) :=
  [("Protobuf::Internal::get_cache_audit_log"%string, XS_get_cache_audit_log);
   ("Protobuf::Internal::set_cache_capacity"%string, XS_set_cache_capacity);
   ("Protobuf::Internal::get_cache_capacity"%string, XS_get_cache_capacity);
   ("Protobuf::Internal::clear_cache"%string, XS_clear_cache)].

(** ** Lemmas *)

Lemma mask_of_zero bits : mask_of bits = 0 ↔ Forall (λ b, b = false) bits.
Proof.
  assert (∀ bits, 0 ≤ mask_of bits) as Hpos by (induction bits0 as [|[] ? ?]; simpl; lia).
  induction bits as [|b bits IH]; simpl; [done|]. rewrite Forall_cons. specialize (Hpos bits).
  destruct b; simpl; [split; [lia|by intros []]|]. rewrite <- IH. split; [intros; split; [done|lia]|intros []; lia].
Qed.

(** A lane has no bit set exactly when its value is in range. *)
Lemma lane_in_range min max v :
  Forall (λ b, b = false) (lane_signs (out_of_range min max v)) ↔ min ≤ v ≤ max.
Proof.
  unfold out_of_range, cmpgt_epi32.
  destruct (Z.ltb_spec v min), (Z.ltb_spec max v); vm_compute lane_signs;
    rewrite ?Forall_cons, ?Forall_nil; split; try lia; try tauto; try (intros (? & _); discriminate).
Qed.

Lemma movemask_in_range min max vals :
  movemask_epi8 (map (out_of_range min max) vals) = 0 ↔ Forall (λ v, min ≤ v ≤ max) vals.
Proof.
  unfold movemask_epi8. rewrite mask_of_zero. induction vals as [|v vals IH]; [by rewrite Forall_nil|].
  change (map (out_of_range min max) (v :: vals) ≫= lane_signs) with
    (lane_signs (out_of_range min max v) ++ (map (out_of_range min max) vals ≫= lane_signs)).
  by rewrite Forall_app, Forall_cons, lane_in_range, IH.
Qed.

Lemma scalar_in_range min max vals :
  ValidateIntRange_scalar vals min max = bool_decide (Forall (λ v, min ≤ v ≤ max) vals).
Proof.
  induction vals as [|v vals IH]; simpl; [done|].
  destruct (Z.ltb_spec v min), (Z.ltb_spec max v); simpl.
  1-3: rewrite bool_decide_eq_false_2; [done|]; intros [? _]%Forall_cons; lia.
  rewrite IH. apply bool_decide_ext. rewrite Forall_cons. intuition.
Qed.

(** C34: the vectorised range check is the range check.  On any values and bounds, in any
    number, [PerlUpb_ValidateIntRange_SSE41] with its comparisons of four lanes at a
    time, the masks they are collected in and the loop for the rest answers exactly
    whether every value is within the bounds, which is also what the loop used without
    vector instructions answers. *)
Theorem ValidateIntRange_exact vals min max :
  ValidateIntRange_SSE41 vals min max = bool_decide (Forall (λ v, min ≤ v ≤ max) vals) ∧
  ValidateIntRange_scalar vals min max = bool_decide (Forall (λ v, min ≤ v ≤ max) vals).
Proof.
  split; [|apply scalar_in_range].
  remember (length vals) as n eqn:En. revert vals En. induction (lt_wf n) as [n _ IH]. intros vals En.
  destruct vals as [|a [|b [|c [|d vals]]]]; try apply scalar_in_range.
  cbn [ValidateIntRange_SSE41]. rewrite (IH (length vals)) by (simpl in En; done || lia).
  change (a :: b :: c :: d :: vals) with ([a; b; c; d] ++ vals).
  destruct (Z.eqb_spec (movemask_epi8 (map (out_of_range min max) [a; b; c; d])) 0) as [E|E];
    rewrite movemask_in_range in E; cbn [negb].
  - apply bool_decide_ext. rewrite Forall_app. tauto.
  - rewrite bool_decide_eq_false_2; [done|]. by intros [? _]%Forall_app.
Qed.

(** ** Field vectors *)

Lemma cells_of_small c : 0 ≤ c < 2 ^ 61 → cells_of c = c.
Proof. intros H. unfold cells_of. rewrite u64_small by lia. rewrite Z.mul_comm. by apply Z.div_mul. Qed.

(** A vector made with room for at least one element takes as many as memory could hold,
    in order, and never writes past its arrays: each growth doubles. *)
Lemma FieldVector_AddAll_exact l : ∀ v,
  cells v = capacity v → 1 ≤ capacity v < 2 ^ 60 → Z.of_nat (length (fv_items v)) ≤ capacity v →
  Z.of_nat (length (fv_items v) + length l) < 2 ^ 59 →
  ∃ v', FieldVector_AddAll v l = Ret v' ∧ fv_items v' = fv_items v ++ l.
Proof.
  induction l as [|[f val] l IH]; intros v Hc Hcap Hlen Hl; simpl.
  { exists v. by rewrite app_nil_r. }
  simpl in Hl. unfold FieldVector_Add. set (n := Z.of_nat (length (fv_items v))) in *.
  destruct (Z.leb_spec (capacity v) n).
  - assert (u64 (capacity v * 2) = capacity v * 2) as Eu by (apply u64_small; lia).
    rewrite Eu, cells_of_small by lia. rewrite (proj2 (Z.ltb_lt _ _)) by lia. simpl.
    destruct (IH {| fv_items := fv_items v ++ [(f, val)]; capacity := capacity v * 2; cells := capacity v * 2 |})
      as (v' & E & Ei); simpl; rewrite ?length_app; simpl; try lia.
    exists v'. split; [done|]. simpl in Ei. by rewrite Ei, <- app_assoc.
  - rewrite (proj2 (Z.ltb_lt _ _)) by lia. simpl.
    destruct (IH {| fv_items := fv_items v ++ [(f, val)]; capacity := capacity v; cells := cells v |})
      as (v' & E & Ei); simpl; rewrite ?length_app; simpl; try lia.
    exists v'. split; [done|]. simpl in Ei. by rewrite Ei, <- app_assoc.
Qed.

(** A vector made with room for none never grows (twice nothing is nothing), and the
    first element is written past it. *)
Example empty_vector_overflows f val :
  FieldVector_Add (FieldVector_New 0) f val = Fault "write past the vector".
Proof. done. Qed.

(** A comparison of buffers passes exactly when they are the same. *)
Lemma VerifyBinaryDiff_exact a b : VerifyBinaryDiff a b = Ret tt ↔ a = b.
Proof.
  unfold VerifyBinaryDiff. destruct (decide (a = b)) as [->|Hne].
  - by rewrite !bool_decide_eq_true_2.
  - rewrite (bool_decide_eq_false_2 (a = b)), andb_false_r by done. split; [done|]. by intros ->.
Qed.

(** Asking for the features again is harmless; "detecting" them forgets them. *)
Lemma InitCpuFeatures_idem l1 l7 c : InitCpuFeatures l1 l7 (InitCpuFeatures l1 l7 c) = InitCpuFeatures l1 l7 c.
Proof.
  unfold InitCpuFeatures. apply Z.bits_inj'. intros n Hn.
  destruct l1 as [ecx|], l7 as [ebx|]; repeat case_match; rewrite ?Z.lor_spec;
    repeat match goal with |- context [Z.testbit ?x n] => destruct (Z.testbit x n) end; done.
Qed.

Example detection_forgets :
  DetectCpuFeatures (InitCpuFeatures (Some (Z.shiftl 1 19)) (Some (Z.shiftl 1 5)) 0) = 0 ∧
  InitCpuFeatures (Some (Z.shiftl 1 19)) (Some (Z.shiftl 1 5)) 0 = 3.
Proof. done. Qed.

(** The capacity set is the capacity got. *)
Lemma capacity_get_set `{PerlNum} n st : 0 ≤ n →
  let st' := (run_xs XS_set_cache_capacity [UV n] st).2 in
  run_xs XS_get_cache_capacity [] st' = (Ret (ACapacity n), st').
Proof. done. Qed.
