(* ===== verification/Registry.v ===== *)
(** * The registry of an interpreter (protobuf/registry.c, registry.h, obj_cache.c)

    The structure that the C code keeps its state in, found through an integer in Perl's
    [PL_modglobal]: made when it is first asked for, asked for by almost every call, and
    withheld while Perl shuts down.  [Arena.Pool] and [ObjCache] model what is behind it;
    here they are reached the way the code reaches them. *)

From S2P Require Import Prelude.
From S2P Require Arena ObjCache Utils.

(** ** The structure *)

(** [PerlUpb_ChaosConfig]; the two probabilities are 0.0 in all that is written here. *)
Record ChaosConfig := {
  fail_probability : Z; delay_probability : Z; max_delay_ms : Z; seed : Z; enabled : bool }.

(** [PerlUpb_Registry]: hashes, arrays, hooks and arenas are addresses, stashes their
    names, [None] is NULL. *)
Record PerlUpb_Registry := {
  obj_cache : option Z;
  obj_lru : option Z;
  descriptor_fingerprints : Z;
  stash_cache : Z;
  stash_message : string;
  stash_repeated : string;
  stash_map : string;
  stash_arena : string;
  stash_unknown_fields : string;
  stash_repeated_public : string;
  stash_map_public : string;
  audit_log : option Z;
  max_cache_capacity : Z;
  cached_transient_arena : option Z;
  chaos : ChaosConfig;
  idle_time_arena_hook : option Z }.

Definition set_obj_cache (c l : option Z) (r : PerlUpb_Registry) : PerlUpb_Registry :=
  Build_PerlUpb_Registry c l (descriptor_fingerprints r) (stash_cache r) (stash_message r)
    (stash_repeated r) (stash_map r) (stash_arena r) (stash_unknown_fields r) (stash_repeated_public r)
    (stash_map_public r) (audit_log r) (max_cache_capacity r) (cached_transient_arena r) (chaos r)
    (idle_time_arena_hook r).
Definition set_capacity_arena (n : Z) (a : option Z) (r : PerlUpb_Registry) : PerlUpb_Registry :=
  Build_PerlUpb_Registry (obj_cache r) (obj_lru r) (descriptor_fingerprints r) (stash_cache r) (stash_message r)
    (stash_repeated r) (stash_map r) (stash_arena r) (stash_unknown_fields r) (stash_repeated_public r)
    (stash_map_public r) (audit_log r) n a (chaos r) (idle_time_arena_hook r).

Definition set_chaos (c : ChaosConfig) (r : PerlUpb_Registry) : PerlUpb_Registry :=
  Build_PerlUpb_Registry (obj_cache r) (obj_lru r) (descriptor_fingerprints r) (stash_cache r) (stash_message r)
    (stash_repeated r) (stash_map r) (stash_arena r) (stash_unknown_fields r) (stash_repeated_public r)
    (stash_map_public r) (audit_log r) (max_cache_capacity r) (cached_transient_arena r) c
    (idle_time_arena_hook r).

(** What [Registry_Init] fills it with. *)
Definition new_registry (fingerprints stashes now : Z) : PerlUpb_Registry := {|
  obj_cache := None; obj_lru := None;
  descriptor_fingerprints := fingerprints; stash_cache := stashes;
  stash_message := "Protobuf::Message";
  stash_repeated := "Protobuf::Internal::Repeated";
  stash_map := "Protobuf::Internal::Map";
  stash_arena := "Protobuf::Arena";
  stash_unknown_fields := "Protobuf::UnknownFieldSet";
  stash_repeated_public := "Protobuf::Internal::Repeated::Public";
  stash_map_public := "Protobuf::Internal::Map::Public";
  audit_log := None; max_cache_capacity := 100000; cached_transient_arena := None;
  chaos := {| fail_probability := 0; delay_probability := 0; max_delay_ms := 0; seed := u32 now; enabled := false |};
  idle_time_arena_hook := None |}.

(** ** The interpreter

    [modglobal]: the entry ["Protobuf::Registry"], with its integer if it has one;
    [package_vars]: [$Protobuf::_obj_cache] and [_obj_lru], with what they refer to;
    [containers]: the hashes and arrays made. *)
Record iworld := {
  dirty : bool;
  modglobal : option (option Z);
  structs : gmap Z PerlUpb_Registry;
  containers : gset Z;
  package_vars : option Z * option Z;
  next_addr : Z;
  arenas : gset Z }.

Abbreviation icall := (cmd iworld).

Definition set_modglobal (e : option (option Z)) (w : iworld) : iworld :=
  Build_iworld (dirty w) e (structs w) (containers w) (package_vars w) (next_addr w) (arenas w).
Definition set_structs (s : gmap Z PerlUpb_Registry) (w : iworld) : iworld :=
  Build_iworld (dirty w) (modglobal w) s (containers w) (package_vars w) (next_addr w) (arenas w).
Definition set_arenas (a : gset Z) (w : iworld) : iworld :=
  Build_iworld (dirty w) (modglobal w) (structs w) (containers w) (package_vars w) (next_addr w) a.
Definition set_package_vars (v : option Z * option Z) (w : iworld) : iworld :=
  Build_iworld (dirty w) (modglobal w) (structs w) (containers w) v (next_addr w) (arenas w).

Definition fresh_interpreter : iworld := Build_iworld false None ∅ ∅ (None, None) 1 ∅.

(** [safemalloc]: Perl ends the program when there is no memory. *)
Definition safemalloc (r : PerlUpb_Registry) : icall Z := λ w,
  (Ret (next_addr w),
   Build_iworld (dirty w) (modglobal w) (<[next_addr w := r]> (structs w)) (containers w) (package_vars w)
     (next_addr w + 1) (arenas w)).
(** [newHV], [newAV]. *)
Definition new_container : icall Z := λ w,
  (Ret (next_addr w),
   Build_iworld (dirty w) (modglobal w) (structs w) ({[next_addr w]} ∪ containers w) (package_vars w)
     (next_addr w + 1) (arenas w)).

(** Through a pointer to the structure; NULL and freed ones are not readable. *)
Definition deref_registry (p : option Z) : icall PerlUpb_Registry := λ w,
  match p ≫= λ p, structs w !! p with
  | Some r => (Ret r, w)
  | None => (Fault "no registry there", w)
  end.
Definition update_registry (p : option Z) (f : PerlUpb_Registry → PerlUpb_Registry) : icall unit :=
  r ← deref_registry p;
  match p with
  | Some p => cmodify (λ w, set_structs (<[p := f r]> (structs w)) w)
  | None => mret tt
  end.

Section Registry.
(** [time(NULL)]; whether [hv_fetch] can make an entry. *)
Context (now : Z) (vivifies : bool).

Definition Registry_Init : icall unit :=
  w ← cget;
  cguard (bool_decide (is_Some (modglobal w)) || vivifies) "Failed to initialize Protobuf registry in PL_modglobal";;
  cmodify (λ w, set_modglobal (Some (default None (modglobal w))) w);;
  match default None (modglobal w) with
  | Some _ => mret tt
  | None =>
      fingerprints ← new_container;
      stashes ← new_container;
      reg ← safemalloc (new_registry fingerprints stashes now);
      cmodify (set_modglobal (Some (Some reg)))
  end.

Definition Registry_Get : icall (option Z) :=
  w ← cget;
  if dirty w then mret None
  else
    match modglobal w with
    | Some (Some p) => mret (Some p)
    | _ =>
        Registry_Init;;
        w ← cget;
        match modglobal w with
        | Some (Some p) => mret (Some p)
        | _ => cfault "SvIV of NULL"
        end
    end.

(** [registry_cleanup], when Perl frees the entry. *)
Definition registry_cleanup : icall unit :=
  w ← cget;
  match modglobal w with
  | Some (Some p) =>
      if dirty w then mret tt
      else cmodify (λ w, set_structs (delete p (structs w)) w)
  | _ => mret tt
  end.

(** The entry freed with its magic: by C code that deletes it, or when Perl ends. *)
Definition free_entry : icall unit := registry_cleanup;; cmodify (set_modglobal None).
Definition perl_destruct : icall unit :=
  cmodify (λ w, Build_iworld true (modglobal w) (structs w) (containers w) (package_vars w) (next_addr w) (arenas w));;
  free_entry.

(** ** What reaches it *)

(** [PerlUpb_ObjCache_Init]: the package variables own the containers. *)
Definition own_container (var : option Z) : icall Z :=
  match var with Some c => mret c | None => new_container end.
Definition ObjCache_Init : icall unit :=
  p ← Registry_Get;
  reg ← deref_registry p;
  (if bool_decide (obj_cache reg = None) then
     w ← cget;
     c ← own_container (package_vars w).1;
     cmodify (λ w, set_package_vars (Some c, (package_vars w).2) w);;
     update_registry p (λ r, set_obj_cache (Some c) (obj_lru r) r)
   else mret tt);;
  if bool_decide (obj_lru reg = None) then
    w ← cget;
    l ← own_container (package_vars w).2;
    cmodify (λ w, set_package_vars ((package_vars w).1, Some l) w);;
    update_registry p (λ r, set_obj_cache (obj_cache r) (Some l) r)
  else mret tt.

Definition ObjCache_SetCapacity (capacity : Z) : icall unit :=
  p ← Registry_Get;
  update_registry p (λ r, set_capacity_arena capacity (cached_transient_arena r) r).

Definition ObjCache_GetCapacity : icall Z :=
  p ← Registry_Get;
  r ← deref_registry p;
  mret (max_cache_capacity r).

(** [PerlUpb_Arena_Acquire], [_Release] and [PreallocateArena] of [Arena.Pool], on the
    registry [p], or none. *)
Definition pool_view (p : option Z) (w : iworld) : Arena.Pool.state := {|
  Arena.Pool.registry :=
    (λ r, {| Arena.Pool.cached_transient_arena := cached_transient_arena r;
             Arena.Pool.max_cache_capacity := max_cache_capacity r |}) <$> (p ≫= λ p, structs w !! p);
  Arena.Pool.live := arenas w |}.

Definition put_pool (p : option Z) (st : Arena.Pool.state) (w : iworld) : iworld :=
  let w := set_arenas (Arena.Pool.live st) w in
  match p, Arena.Pool.registry st with
  | Some p, Some reg =>
      set_structs (alter (set_capacity_arena (Arena.Pool.max_cache_capacity reg) (Arena.Pool.cached_transient_arena reg)) p
        (structs w)) w
  | _, _ => w
  end.

Definition pool_registry (lc : Arena.Pool.Lifecycle) : icall (option Z) :=
  match lc with Arena.Pool.TRANSIENT => Registry_Get | Arena.Pool.PERMANENT => mret None end.

Definition Acquire (lc : Arena.Pool.Lifecycle) (answer : option Z) : icall (option Z) :=
  p ← pool_registry lc;
  w ← cget;
  let '(a, st) := Arena.Pool.Arena_Acquire (pool_view p w) lc answer in
  cput (put_pool p st w);;
  mret a.

Definition Release (arena : option Z) (lc : Arena.Pool.Lifecycle) : icall unit :=
  match arena with
  | None => mret tt
  | Some _ =>
      p ← pool_registry lc;
      w ← cget;
      match Arena.Pool.Arena_Release (pool_view p w) arena lc with
      | Ret st => cput (put_pool p st w)
      | Croak msg => ccroak msg
      | Fault why => cfault why
      end
  end.

(** [hook]: what the function behind [idle_time_arena_hook] does, if it is set. *)
Definition Preallocate (hook : Arena.Pool.state → Arena.Pool.state) (answer : option Z) : icall unit :=
  w ← cget;
  if dirty w then mret tt
  else
    p ← Registry_Get;
    match p with
    | None => mret tt
    | Some _ =>
        r ← deref_registry p;
        w ← cget;
        cput (put_pool p (Arena.Pool.PreallocateArena (pool_view p w)
          ((λ _, hook) <$> idle_time_arena_hook r) answer) w)
    end.

(** [Protobuf::Internal::set_chaos_enabled] and [.._params]. *)
Definition XS_set_chaos_enabled (on : bool) : icall unit :=
  p ← Registry_Get;
  update_registry p (λ r, let c := chaos r in
    set_chaos {| fail_probability := fail_probability c; delay_probability := delay_probability c;
                 max_delay_ms := max_delay_ms c; seed := seed c; enabled := on |} r).
Definition XS_set_chaos_params (fail_prob delay_prob delay_ms rnd : Z) : icall unit :=
  p ← Registry_Get;
  update_registry p (λ r,
    set_chaos {| fail_probability := fail_prob; delay_probability := delay_prob;
                 max_delay_ms := u32 delay_ms; seed := u32 rnd; enabled := enabled (chaos r) |} r).

(** [Protobuf::Internal::init_registry]. *)
Definition XS_init_registry : icall unit := Registry_Init;; ObjCache_Init.

(** [PerlUpb_Protobuf_InitModule]: the registry, the cache, the features, the subs. *)
Definition InitModule (leaf1_ecx leaf7_ebx : option Z) (cpu_features : Z) : icall (Z * list (string * Utils.xs)) :=
  Registry_Init;;
  ObjCache_Init;;
  mret (Utils.InitCpuFeatures leaf1_ecx leaf7_ebx cpu_features, Utils.xs_subs).
End Registry.

(** ** Histories

    What the calls of the library do to the registry, in any order, until Perl ends and
    after; [held] are the arenas callers hold. *)
Inductive rop :=
  | RGet | RInit | RInitCache | RSetCapacity (n : Z) | RGetCapacity | RChaos (on : bool)
  | RAcquire (lc : Arena.Pool.Lifecycle) (answer : option Z)
  | RRelease (a : Z) (lc : Arena.Pool.Lifecycle)
  | RPreallocate (answer : option Z)
  | RDestruct.

Definition run_rop (now : Z) (op : rop) : icall (option Z) :=
  match op with
  | RGet => Registry_Get now true
  | RInit => Registry_Init now true;; mret None
  | RInitCache => ObjCache_Init now true;; mret None
  | RSetCapacity n => ObjCache_SetCapacity now true n;; mret None
  | RGetCapacity => n ← ObjCache_GetCapacity now true; mret (Some n)
  | RChaos on => XS_set_chaos_enabled now true on;; mret None
  | RAcquire lc answer => Acquire now true lc answer
  | RRelease a lc => Release now true (Some a) lc;; mret None
  | RPreallocate answer => Preallocate now true id answer;; mret None
  | RDestruct => perl_destruct;; mret None
  end.

(** New arenas have addresses of their own, callers release what they hold, and these
    calls are not made once Perl shuts down. *)
Definition allowed (op : rop) (w : iworld) (held : gset Z) : Prop :=
  match op with
  | RAcquire _ answer | RPreallocate answer => ∀ a, answer = Some a → a ∉ arenas w
  | RRelease a _ => a ∈ held
  | RGet | RDestruct => True
  | RInit | RInitCache | RSetCapacity _ | RGetCapacity | RChaos _ => dirty w = false
  end.

Definition held_after (op : rop) (out : outcome (option Z)) (held : gset Z) : gset Z :=
  match op, out with
  | RAcquire _ _, Ret (Some a) => {[a]} ∪ held
  | RRelease a _, _ => held ∖ {[a]}
  | _, _ => held
  end.

Definition capacity_after (cap : Z) (op : rop) : Z := match op with RSetCapacity n => n | _ => cap end.

Inductive history (now : rop → Z) : list rop → iworld → gset Z → Prop :=
  | history_start : history now [] fresh_interpreter ∅
  | history_call ops w held op out w' :
      history now ops w held → allowed op w held → run_rop (now op) op w = (out, w') →
      history now (ops ++ [op]) w' (held_after op out held).

(** ** The invariant *)

(** The one structure there is, if any. *)
Definition only (o : option (Z * PerlUpb_Registry)) : gmap Z PerlUpb_Registry :=
  match o with Some (p, r) => {[p := r]} | None => ∅ end.
Definition cached_set (o : option (Z * PerlUpb_Registry)) : gset Z :=
  match o with
  | Some (_, r) => match cached_transient_arena r with Some a => {[a]} | None => ∅ end
  | None => ∅
  end.

(** The names never change, and the containers exist. *)
Definition wired (w : iworld) (r : PerlUpb_Registry) : Prop :=
  stash_message r = "Protobuf::Message" ∧ stash_repeated r = "Protobuf::Internal::Repeated" ∧
  stash_map r = "Protobuf::Internal::Map" ∧ idle_time_arena_hook r = None ∧
  {[descriptor_fingerprints r; stash_cache r]} ⊆ containers w ∧
  (∀ c, obj_cache r = Some c → c ∈ containers w) ∧ (∀ c, obj_lru r = Some c → c ∈ containers w).

Record rinv (o : option (Z * PerlUpb_Registry)) (held : gset Z) (cap : Z) (w : iworld) : Prop := {
  ri_structs : structs w = only o;
  ri_modglobal : modglobal w = if dirty w then None else Some ∘ fst <$> o;
  ri_arenas : arenas w = held ∪ cached_set o;
  ri_owner : held ## cached_set o;
  ri_capacity : default 100000 (max_cache_capacity ∘ snd <$> o) = cap;
  ri_wired : ∀ p r, o = Some (p, r) → wired w r;
  ri_vars : ∀ c, (package_vars w).1 = Some c ∨ (package_vars w).2 = Some c → c ∈ containers w }.

Lemma deref_only w p r : structs w = {[p := r]} → deref_registry (Some p) w = (Ret r, w).
Proof. intros E. unfold deref_registry. cbn. by rewrite E, lookup_singleton_eq. Qed.

Lemma update_only w p r f : structs w = {[p := r]} →
  update_registry (Some p) f w = (Ret tt, set_structs {[p := f r]} w).
Proof.
  intros E. unfold update_registry. rewrite (cbind_ret _ _ _ _ _ (deref_only _ _ _ E)). unfold cmodify.
  rewrite E. unfold singletonM, map_singleton. by rewrite insert_insert_eq.
Qed.

(** A registry is there from the first call on. *)
Lemma Registry_Get_spec now o held cap w : rinv o held cap w → dirty w = false →
  ∃ p r w', Registry_Get now true w = (Ret (Some p), w') ∧ rinv (Some (p, r)) held cap w' ∧ dirty w' = false ∧
    arenas w' = arenas w ∧ (∀ q, o = Some q → q = (p, r) ∧ w' = w).
Proof.
  intros Hi Hd. unfold Registry_Get. rewrite (cbind_ret cget _ w w w) by done. rewrite Hd.
  pose proof (ri_modglobal _ _ _ _ Hi) as Em. rewrite Hd in Em. destruct o as [[p r]|]; cbn in Em; rewrite Em.
  - exists p, r, w. split_and!; [done..|by intros q [= <-]].
  - destruct Hi as [Hs _ Ha Ho Hc _ Hv]. cbn in *. unfold Registry_Init.
    rewrite cbind_assoc, (cbind_ret cget _ w w w) by done. rewrite Em. cbn [orb bool_decide]. rewrite orb_true_r.
    eexists (next_addr w + 1 + 1), _, _. split; [reflexivity|]. split; [|done]. split; cbn.
    + by rewrite Hs.
    + by rewrite Hd.
    + done.
    + done.
    + done.
    + intros p r [= <- <-]. split_and!; [done..|cbn; set_solver|done|done].
    + intros c Hc'. specialize (Hv c Hc'). set_solver.
Qed.

Lemma Registry_Init_spec now o held cap w : rinv o held cap w → dirty w = false →
  ∃ o' w', Registry_Init now true w = (Ret tt, w') ∧ rinv o' held cap w' ∧ dirty w' = false ∧
    (∀ q, o = Some q → o' = o ∧ w' = w).
Proof.
  intros Hi Hd. destruct (Registry_Get_spec now o held cap w Hi Hd) as (p & r & w' & E & Hi' & Hd' & _ & Hsame).
  pose proof (ri_modglobal _ _ _ _ Hi) as Em. rewrite Hd in Em.
  exists (Some (p, r)), w'. split_and!; [|done|done|intros q Hq; destruct (Hsame q Hq); subst; done].
  unfold Registry_Get in E. rewrite (cbind_ret cget _ w w w) in E by done. rewrite Hd in E.
  destruct o as [q|]; cbn in Em; rewrite Em in E; cbn in E.
  - injection E as _ <-. unfold Registry_Init. rewrite (cbind_ret cget _ w w w) by done. rewrite Em.
    cbn. unfold set_modglobal. cbn. destruct w; cbn in *; by subst.
  - revert E. unfold mbind, cmd_bind. destruct (Registry_Init now true w) as [[[]| |] w1]; [|done..].
    cbn. by destruct (modglobal w1) as [[]|]; intros [= _ <-].
Qed.

(** A change of the structure that keeps its names. *)
Lemma set_registry_rinv p r r' held cap w : rinv (Some (p, r)) held cap w →
  wired w r' → cached_transient_arena r' = cached_transient_arena r →
  rinv (Some (p, r')) held (max_cache_capacity r') (set_structs {[p := r']} w).
Proof.
  intros [Hs Hm Ha Ho Hc Hw Hv] Hr Ec. split; cbn in *; rewrite ?Ec; try done.
  intros q r2 [= <- <-]. done.
Qed.

Lemma wired_set_structs w s r : wired w r → wired (set_structs s w) r.
Proof. done. Qed.

Lemma own_container_spec o held cap w var : rinv o held cap w → (∀ c, var = Some c → c ∈ containers w) →
  ∃ c w', own_container var w = (Ret c, w') ∧ rinv o held cap w' ∧ c ∈ containers w' ∧ structs w' = structs w ∧
    package_vars w' = package_vars w ∧ dirty w' = dirty w.
Proof.
  intros Hi Hvar. destruct var as [c|]; cbn.
  - exists c, w. split_and!; auto.
  - eexists (next_addr w), _. split; [reflexivity|]. destruct Hi as [Hs Hm Ha Ho Hc Hw Hv].
    split_and!; [|cbn; set_solver|done..]. split; cbn; try done.
    + intros p r E. destruct (Hw p r E) as (H1 & H2 & H3 & H4 & H5 & H6 & H7).
      split_and!; cbn; [done..|set_solver|intros c Hx; specialize (H6 c Hx); set_solver|intros c Hx; specialize (H7 c Hx); set_solver].
    + intros c Hx. specialize (Hv c Hx). set_solver.
Qed.

Lemma set_vars_rinv o held cap w v : rinv o held cap w → (∀ c, v.1 = Some c ∨ v.2 = Some c → c ∈ containers w) →
  rinv o held cap (set_package_vars v w).
Proof. intros [Hs Hm Ha Ho Hc Hw Hv] Hx. by split. Qed.

(** One block of [ObjCache_Init]. *)
Lemma fill_spec p r held cap w var (sel : Z → option Z * option Z → option Z * option Z) f :
  rinv (Some (p, r)) held cap w → (∀ c, var = Some c → c ∈ containers w) →
  (∀ c v x, (sel c v).1 = Some x ∨ (sel c v).2 = Some x → x = c ∨ v.1 = Some x ∨ v.2 = Some x) →
  (∀ c w, wired w r → c ∈ containers w → wired w (f c r) ∧ cached_transient_arena (f c r) = cached_transient_arena r ∧
    max_cache_capacity (f c r) = max_cache_capacity r) →
  ∃ c w', (c ← own_container var; cmodify (λ w, set_package_vars (sel c (package_vars w)) w);;
           update_registry (Some p) (f c)) w = (Ret tt, w') ∧
    rinv (Some (p, f c r)) held cap w' ∧ dirty w' = dirty w.
Proof.
  intros Hi Hvar Hsel Hf. destruct (own_container_spec _ _ _ w var Hi Hvar) as (c & w1 & E1 & Hi1 & Hc1 & Es1 & Ev1 & Ed1).
  rewrite (cbind_ret _ _ _ _ _ E1). erewrite cbind_ret by reflexivity. set (w2 := set_package_vars _ w1).
  assert (rinv (Some (p, r)) held cap w2) as Hi2.
  { apply set_vars_rinv; [done|]. intros x Hx. destruct (Hsel _ _ _ Hx) as [->|Hx']; [done|]. by apply (ri_vars _ _ _ _ Hi1). }
  rewrite (update_only _ _ _ _ (ri_structs _ _ _ _ Hi2)). eexists c, _. split; [reflexivity|]. split; [|done].
  destruct (Hf c w2 (ri_wired _ _ _ _ Hi2 _ _ eq_refl) Hc1) as (Hw & Hc & Hn).
  assert (max_cache_capacity (f c r) = cap) as <- by (rewrite Hn; apply (ri_capacity _ _ _ _ Hi2)).
  by eapply set_registry_rinv.
Qed.

Lemma ObjCache_Init_spec now o held cap w : rinv o held cap w → dirty w = false →
  ∃ p r w', ObjCache_Init now true w = (Ret tt, w') ∧ rinv (Some (p, r)) held cap w' ∧ dirty w' = false ∧
    is_Some (obj_cache r) ∧ is_Some (obj_lru r) ∧ (∀ q, o = Some q → q.1 = p).
Proof.
  intros Hi Hd. unfold ObjCache_Init.
  destruct (Registry_Get_spec now o held cap w Hi Hd) as (p & r & w1 & E1 & Hi1 & Hd1 & _ & Hq).
  rewrite (cbind_ret _ _ _ _ _ E1), (cbind_ret _ _ _ _ _ (deref_only _ _ _ (ri_structs _ _ _ _ Hi1))).
  assert (∀ q, o = Some q → q.1 = p) as Hp by (intros q Hq'; by destruct (Hq q Hq') as [-> _]).
  assert (∃ r2 w2, (if bool_decide (obj_cache r = None)
      then w ← cget; c ← own_container (package_vars w).1; cmodify (λ w, set_package_vars (Some c, (package_vars w).2) w);;
           update_registry (Some p) (λ r, set_obj_cache (Some c) (obj_lru r) r)
      else mret ()) w1 = (Ret tt, w2) ∧ rinv (Some (p, r2)) held cap w2 ∧ dirty w2 = false ∧ is_Some (obj_cache r2) ∧
      obj_lru r2 = obj_lru r) as (r2 & w2 & E2 & Hi2 & Hd2 & Hc2 & El).
  { case_bool_decide as Ec.
    - rewrite (cbind_ret cget _ w1 w1 w1) by done.
      destruct (fill_spec p r held cap w1 (package_vars w1).1 (λ c v, (Some c, v.2)) (λ c r, set_obj_cache (Some c) (obj_lru r) r) Hi1)
        as (c & w2 & E2 & Hi2 & Hd2).
      + intros c Hc. apply (ri_vars _ _ _ _ Hi1). by left.
      + intros c v x [[= <-]|Hx]; auto.
      + intros c w' (H1 & H2 & H3 & H4 & H5 & H6 & H7) Hc. split; [|done]. split_and!; try done. by intros c' [= <-].
      + rewrite E2, Hd1 in *. by eexists _, _.
    - exists r, w1. split_and!; [done..| |done]. by destruct (obj_cache r). }
  rewrite (cbind_ret _ _ _ _ _ E2). rewrite <- El. destruct (bool_decide_reflect (obj_lru r2 = None)) as [Ell|Ell].
  - rewrite (cbind_ret cget _ w2 w2 w2) by done.
    destruct (fill_spec p r2 held cap w2 (package_vars w2).2 (λ c v, (v.1, Some c)) (λ c r, set_obj_cache (obj_cache r) (Some c) r) Hi2)
      as (l & w3 & E3 & Hi3 & Hd3).
    + intros c Hc. apply (ri_vars _ _ _ _ Hi2). by right.
    + intros c v x [Hx|[= <-]]; auto.
    + intros c w' (H1 & H2 & H3 & H4 & H5 & H6 & H7) Hc. split; [|done]. split_and!; try done. by intros c' [= <-].
    + rewrite Hd2 in Hd3. eexists p, _, w3. split_and!; [exact E3|exact Hi3|done|done|by eexists|done].
  - exists p, r2, w2. split_and!; try done. by destruct (obj_lru r2).
Qed.

(** A call that updates the structure it gets. *)
Lemma update_spec now o held cap w f n : rinv o held cap w → dirty w = false →
  (∀ r w, max_cache_capacity r = cap → wired w r → wired w (f r) ∧ cached_transient_arena (f r) = cached_transient_arena r ∧
    max_cache_capacity (f r) = n) →
  ∃ p r w', (p ← Registry_Get now true; update_registry p f) w = (Ret tt, w') ∧ rinv (Some (p, r)) held n w' ∧
    dirty w' = false ∧ (∀ q, o = Some q → q.1 = p).
Proof.
  intros Hi Hd Hf. destruct (Registry_Get_spec now o held cap w Hi Hd) as (p & r & w1 & E1 & Hi1 & Hd1 & _ & Hq).
  rewrite (cbind_ret _ _ _ _ _ E1), (update_only _ _ _ _ (ri_structs _ _ _ _ Hi1)).
  destruct (Hf r w1 (ri_capacity _ _ _ _ Hi1) (ri_wired _ _ _ _ Hi1 _ _ eq_refl)) as (Hw & Hc & Hn).
  eexists p, (f r), _. split; [reflexivity|]. split_and!; [|done|intros q Hq'; by destruct (Hq q Hq') as [-> _]].
  rewrite <- Hn. by eapply set_registry_rinv.
Qed.

(** ** Arenas *)

(** A call of [Arena.Pool] without a registry leaves the one there may be alone. *)
Lemma put_no_registry o held cap w st held' : rinv o held cap w →
  Arena.Pool.registry st = None → Arena.Pool.live st = held' ∪ cached_set o → held' ## cached_set o →
  rinv o held' cap (put_pool None st w).
Proof. intros [Hs Hm Ha Ho Hc Hw Hv] Er El Hd. by split. Qed.

(** With the registry: the owners [Arena.Pool] counts are the ones here. *)
Lemma pool_view_only p r w : structs w = {[p := r]} → pool_view (Some p) w =
  {| Arena.Pool.registry := Some {| Arena.Pool.cached_transient_arena := cached_transient_arena r;
                                    Arena.Pool.max_cache_capacity := max_cache_capacity r |};
     Arena.Pool.live := arenas w |}.
Proof. intros Hs. unfold pool_view. cbn. by rewrite Hs, lookup_singleton_eq. Qed.

Lemma pool_view_inv p r held cap w : rinv (Some (p, r)) held cap w → Arena.Pool.inv (pool_view (Some p) w, held).
Proof.
  intros [Hs Hm Ha Ho Hc Hw Hv]. unfold Arena.Pool.inv, Arena.Pool.cached_set, pool_view. cbn.
  rewrite Hs. cbn. rewrite lookup_singleton_eq. cbn. done.
Qed.

Lemma put_registry p r held cap w st held' reg : rinv (Some (p, r)) held cap w →
  Arena.Pool.registry st = Some reg → Arena.Pool.max_cache_capacity reg = cap → Arena.Pool.inv (st, held') →
  ∃ r', rinv (Some (p, r')) held' cap (put_pool (Some p) st w).
Proof.
  intros [Hs Hm Ha Ho Hc Hw Hv] Er Ec [Hl Hd]. unfold Arena.Pool.cached_set in *. cbn in Hl, Hd. rewrite Er in Hl, Hd.
  exists (set_capacity_arena (Arena.Pool.max_cache_capacity reg) (Arena.Pool.cached_transient_arena reg) r).
  unfold put_pool. rewrite Er. cbn. split; cbn; try done.
  - rewrite Hs. cbn. by rewrite alter_singleton_eq.
  - intros q r2 [= <- <-]. by apply (Hw p r).
Qed.

Lemma pool_capacity st lc answer reg : Arena.Pool.registry st = Some reg →
  ∃ reg', Arena.Pool.registry (Arena.Pool.Arena_Acquire st lc answer).2 = Some reg' ∧
    Arena.Pool.max_cache_capacity reg' = Arena.Pool.max_cache_capacity reg.
Proof.
  intros E. unfold Arena.Pool.Arena_Acquire, Arena.Pool.Arena_New. rewrite E.
  destruct lc, (Arena.Pool.cached_transient_arena reg), answer; cbn; rewrite ?E; eauto.
Qed.

Definition kept (o o' : option (Z * PerlUpb_Registry)) : Prop := ∀ q, o = Some q → fst <$> o' = Some q.1.

(** The registry the arena functions use: none for permanent arenas and during shutdown. *)
Lemma pool_registry_spec now lc o held cap w : rinv o held cap w →
  ∃ p o' w', pool_registry now true lc w = (Ret p, w') ∧ rinv o' held cap w' ∧ dirty w' = dirty w ∧
    arenas w' = arenas w ∧ kept o o' ∧ match p with None => True | Some p => ∃ r, o' = Some (p, r) end.
Proof.
  intros Hi. destruct lc; cbn.
  - exists None, o, w. split_and!; try done. by intros q ->.
  - destruct (dirty w) eqn:Hd.
    + unfold Registry_Get. rewrite (cbind_ret cget _ w w w) by done. rewrite Hd.
      exists None, o, w. split_and!; try done. by intros q ->.
    + destruct (Registry_Get_spec now o held cap w Hi Hd) as (p & r & w' & E & Hi' & Hd' & Ha & Hq).
      exists (Some p), (Some (p, r)), w'. split_and!; try done; [|by eexists].
      intros q Hq'. by destruct (Hq q Hq') as [-> _].
Qed.

Lemma Acquire_spec now lc answer o held cap w : rinv o held cap w → (∀ a, answer = Some a → a ∉ arenas w) →
  ∃ a o' w', Acquire now true lc answer w = (Ret a, w') ∧ dirty w' = dirty w ∧ kept o o' ∧
    rinv o' (match a with Some a => {[a]} ∪ held | None => held end) cap w'.
Proof.
  intros Hi Hf. destruct (pool_registry_spec now lc o held cap w Hi) as (p & o1 & w1 & E1 & Hi1 & Hd1 & Ha1 & Hk & Hp).
  unfold Acquire. rewrite (cbind_ret _ _ _ _ _ E1), (cbind_ret cget _ w1 w1 w1) by done.
  destruct (Arena.Pool.Arena_Acquire (pool_view p w1) lc answer) as [a st] eqn:E. erewrite cbind_ret by reflexivity.
  destruct p as [p|].
  - destruct Hp as [r ->]. pose proof (pool_view_inv _ _ _ _ _ Hi1) as Hv.
    pose proof (Arena.Pool.acquire_inv _ _ _ _ _ _ Hv ltac:(cbn; by rewrite Ha1) E) as Hv'.
    assert (Arena.Pool.registry (pool_view (Some p) w1) = Some {| Arena.Pool.cached_transient_arena := cached_transient_arena r;
      Arena.Pool.max_cache_capacity := max_cache_capacity r |}) as Er.
    { cbn. rewrite (ri_structs _ _ _ _ Hi1). cbn. by rewrite lookup_singleton_eq. }
    destruct (pool_capacity _ lc answer _ Er) as (reg & Ereg & Ecap). rewrite E in Ereg. cbn [snd] in Ereg.
    destruct (put_registry p r held cap w1 st (match a with Some a => {[a]} ∪ held | None => held end) reg Hi1 Ereg)
      as [r' Hi']; [|exact Hv'|].
    + rewrite Ecap. apply (ri_capacity _ _ _ _ Hi1).
    + exists a, (Some (p, r')), (put_pool (Some p) st w1). split_and!; [done| |intros q Hq; by apply Hk in Hq|done].
      unfold put_pool. by rewrite Ereg.
  - assert (Arena.Pool.Arena_Acquire (pool_view None w1) lc answer = Arena.Pool.Arena_New (pool_view None w1) answer) as EA
      by (by destruct lc). rewrite EA in E. exists a, o1, (put_pool None st w1). split_and!; [done|done|done|].
    pose proof (ri_arenas _ _ _ _ Hi1) as Hl. pose proof (ri_owner _ _ _ _ Hi1) as Ho.
    destruct answer as [b|]; cbn in E; injection E as <- <-; apply (put_no_registry _ held); try done; cbn.
    + specialize (Hf b eq_refl). set_solver.
    + specialize (Hf b eq_refl). rewrite <- Ha1, Hl in Hf. set_solver.
Qed.

Lemma Release_spec now lc a o held cap w : rinv o held cap w → a ∈ held →
  ∃ o' w', Release now true (Some a) lc w = (Ret tt, w') ∧ dirty w' = dirty w ∧ kept o o' ∧
    rinv o' (held ∖ {[a]}) cap w'.
Proof.
  intros Hi Hin. destruct (pool_registry_spec now lc o held cap w Hi) as (p & o1 & w1 & E1 & Hi1 & Hd1 & Ha1 & Hk & Hp).
  unfold Release. rewrite (cbind_ret _ _ _ _ _ E1), (cbind_ret cget _ w1 w1 w1) by done.
  rewrite Arena.Pool.Arena_Release_free. unfold Arena.Pool.Arena_Free.
  pose proof (ri_arenas _ _ _ _ Hi1) as Hl. pose proof (ri_owner _ _ _ _ Hi1) as Ho.
  rewrite bool_decide_eq_true_2 by (cbn; rewrite Hl; set_solver).
  destruct p as [p|].
  - destruct Hp as [r ->]. set (st := {| Arena.Pool.registry := _ |}).
    assert (Arena.Pool.registry st = Some {| Arena.Pool.cached_transient_arena := cached_transient_arena r;
      Arena.Pool.max_cache_capacity := max_cache_capacity r |}) as Er.
    { cbn. rewrite (ri_structs _ _ _ _ Hi1). cbn. by rewrite lookup_singleton_eq. }
    destruct (put_registry p r held cap w1 st (held ∖ {[a]}) _ Hi1 Er) as [r' Hi'].
    + apply (ri_capacity _ _ _ _ Hi1).
    + unfold Arena.Pool.inv, Arena.Pool.cached_set. cbn [fst snd]. rewrite Er.
      cbn in Hl, Ho |- *. rewrite Hl. destruct (cached_transient_arena r); set_solver.
    + eexists (Some (p, r')), _. split_and!; [reflexivity| |intros q Hq; by apply Hk in Hq|done].
      unfold put_pool. by rewrite Er.
  - eexists o1, _. split_and!; [reflexivity|done|done|].
    apply (put_no_registry _ held); [done|done|cbn; rewrite Hl; set_solver|set_solver].
Qed.

Lemma Preallocate_spec now answer o held cap w : rinv o held cap w → (∀ a, answer = Some a → a ∉ arenas w) →
  ∃ o' w', Preallocate now true id answer w = (Ret tt, w') ∧ dirty w' = dirty w ∧ kept o o' ∧ rinv o' held cap w'.
Proof.
  intros Hi Hf. unfold Preallocate. rewrite (cbind_ret cget _ w w w) by done. destruct (dirty w) eqn:Hd.
  - exists o, w. split_and!; try done. by intros q ->.
  - destruct (Registry_Get_spec now o held cap w Hi Hd) as (p & r & w1 & E1 & Hi1 & Hd1 & Ha1 & Hq).
    rewrite (cbind_ret _ _ _ _ _ E1), (cbind_ret _ _ _ _ _ (deref_only _ _ _ (ri_structs _ _ _ _ Hi1))),
      (cbind_ret cget _ w1 w1 w1) by done.
    destruct (ri_wired _ _ _ _ Hi1 _ _ eq_refl) as (_ & _ & _ & -> & _). cbn [fmap option_fmap option_map].
    assert (kept o (Some (p, r))) as Hk by (intros q Hq'; by destruct (Hq q Hq') as [-> _]).
    pose proof (pool_view_inv _ _ _ _ _ Hi1) as Hv.
    assert (∀ a, answer = Some a → a ∉ Arena.Pool.live (pool_view (Some p) w1)) as Hf1 by (cbn; by rewrite Ha1).
    pose proof (Arena.Pool.pool_step_inv _ _ Hv (Arena.Pool.step_prealloc _ held answer Hf1)) as Hv'.
    assert (∃ reg, Arena.Pool.registry (Arena.Pool.PreallocateArena (pool_view (Some p) w1) None answer) = Some reg ∧
      Arena.Pool.max_cache_capacity reg = cap) as (reg & Ereg & Ecap).
    { pose proof (ri_capacity _ _ _ _ Hi1) as Hc. cbn in Hc. rewrite (pool_view_only _ _ _ (ri_structs _ _ _ _ Hi1)).
      unfold Arena.Pool.PreallocateArena, Arena.Pool.Arena_New. cbn.
      destruct (cached_transient_arena r) as [b|] eqn:Eb; [|destruct answer]; cbn; eexists; (split; [reflexivity|done]). }
    destruct (put_registry p r held cap w1 _ held reg Hi1 Ereg Ecap Hv') as [r' Hi'].
    eexists (Some (p, r')), _. split_and!; [reflexivity| |done|exact Hi'].
    unfold put_pool. rewrite Ereg. exact Hd1.
Qed.

(** ** One step, and all histories *)

Lemma destruct_spec o held cap w : rinv o held cap w →
  ∃ w', perl_destruct w = (Ret tt, w') ∧ rinv o held cap w' ∧ dirty w' = true.
Proof.
  intros [Hs Hm Ha Ho Hc Hw Hv]. unfold perl_destruct, free_entry, registry_cleanup.
  erewrite cbind_ret by reflexivity. rewrite cbind_assoc. erewrite cbind_ret by reflexivity. cbn [modglobal dirty].
  destruct (modglobal w) as [[p|]|]; (erewrite cbind_ret by reflexivity); eexists; (split; [reflexivity|]); by split.
Qed.

Lemma rop_step now op o held cap w : rinv o held cap w → allowed op w held →
  ∃ r o' w', run_rop now op w = (Ret r, w') ∧ rinv o' (held_after op (Ret r) held) (capacity_after cap op) w' ∧
    kept o o' ∧ (dirty w' = false → dirty w = false) ∧
    (op = RGet → if dirty w then r = None else is_Some r ∧ fst <$> o' = r) ∧ (op = RGetCapacity → r = Some cap).
Proof.
  intros Hi Hop. destruct op as [| | |n| |on|lc answer|a lc|answer|]; cbn in Hop |- *.
  - destruct (dirty w) eqn:Hd.
    + exists None, o, w. unfold Registry_Get. rewrite (cbind_ret cget _ w w w) by done. rewrite Hd.
      split_and!; try done. by intros q ->.
    + destruct (Registry_Get_spec now o held cap w Hi Hd) as (p & r & w' & E & Hi' & Hd' & _ & Hq).
      exists (Some p), (Some (p, r)), w'. split_and!; try done. intros q Hq'. by destruct (Hq q Hq') as [-> _].
  - destruct (Registry_Init_spec now o held cap w Hi Hop) as (o' & w' & E & Hi' & Hd' & Hq).
    exists None, o', w'. rewrite (cbind_ret _ _ _ _ _ E). split_and!; try done.
    intros q Hq'. destruct (Hq q Hq') as [-> _]. by rewrite Hq'.
  - destruct (ObjCache_Init_spec now o held cap w Hi Hop) as (p & r & w' & E & Hi' & Hd' & _ & _ & Hq).
    exists None, (Some (p, r)), w'. rewrite (cbind_ret _ _ _ _ _ E). split_and!; try done.
    intros q Hq'. cbn. by rewrite (Hq q Hq').
  - destruct (update_spec now o held cap w (λ r, set_capacity_arena n (cached_transient_arena r) r) n Hi Hop)
      as (p & r & w' & E & Hi' & Hd' & Hq); [done|].
    exists None, (Some (p, r)), w'. unfold ObjCache_SetCapacity. rewrite (cbind_ret _ _ _ _ _ E). split_and!; try done.
    intros q Hq'. cbn. by rewrite (Hq q Hq').
  - destruct (Registry_Get_spec now o held cap w Hi Hop) as (p & r & w' & E & Hi' & Hd' & _ & Hq).
    exists (Some cap), (Some (p, r)), w'. unfold ObjCache_GetCapacity.
    rewrite cbind_assoc, (cbind_ret _ _ _ _ _ E), cbind_assoc, (cbind_ret _ _ _ _ _ (deref_only _ _ _ (ri_structs _ _ _ _ Hi'))).
    erewrite cbind_ret by reflexivity. pose proof (ri_capacity _ _ _ _ Hi') as Hc. cbn in Hc. rewrite Hc.
    split_and!; try done. intros q Hq'. by destruct (Hq q Hq') as [-> _].
  - destruct (update_spec now o held cap w (λ r, set_chaos {| fail_probability := fail_probability (chaos r);
      delay_probability := delay_probability (chaos r); max_delay_ms := max_delay_ms (chaos r); seed := seed (chaos r);
      enabled := on |} r) cap Hi Hop) as (p & r & w' & E & Hi' & Hd' & Hq); [done|].
    exists None, (Some (p, r)), w'. unfold XS_set_chaos_enabled. rewrite (cbind_ret _ _ _ _ _ E). split_and!; try done.
    intros q Hq'. cbn. by rewrite (Hq q Hq').
  - destruct (Acquire_spec now lc answer o held cap w Hi Hop) as (a & o' & w' & E & Hd & Hk & Hi').
    exists a, o', w'. split_and!; try done. congruence.
  - destruct (Release_spec now lc a o held cap w Hi Hop) as (o' & w' & E & Hd & Hk & Hi').
    exists None, o', w'. rewrite (cbind_ret _ _ _ _ _ E). split_and!; try done. congruence.
  - destruct (Preallocate_spec now answer o held cap w Hi Hop) as (o' & w' & E & Hd & Hk & Hi').
    exists None, o', w'. rewrite (cbind_ret _ _ _ _ _ E). split_and!; try done. congruence.
  - destruct (destruct_spec o held cap w Hi) as (w' & E & Hi' & Hd).
    exists None, o, w'. rewrite (cbind_ret _ _ _ _ _ E). split_and!; try done; [by intros q ->|congruence].
Qed.

Lemma fresh_rinv : rinv None ∅ 100000 fresh_interpreter.
Proof. split; cbn; try done. by intros c [[=]|[=]]. Qed.

Lemma history_rinv now ops w held : history now ops w held →
  ∃ o, rinv o held (foldl capacity_after 100000 ops) w.
Proof.
  induction 1 as [|ops w held op out w' _ [o IH] Hop E]; [exists None; apply fresh_rinv|].
  destruct (rop_step (now op) op o held _ w IH Hop) as (r & o' & w2 & E2 & Hi & _). rewrite E in E2. simplify_eq.
  exists o'. by rewrite foldl_app.
Qed.

(** One registry for the life of an interpreter.  After any history of calls, with
    Perl ending anywhere in it: there is at most one structure, and while Perl runs
    [PL_modglobal] names it; every arena has one owner, a caller or the registry's cache;
    no call that may follow faults or raises; [Registry_Get] answers the same structure
    from the first call to the last, and NULL once Perl shuts down; and the capacity is
    the one set last, or 100000. *)
Lemma one_registry now ops w held : history now ops w held →
  (∃ o, structs w = only o ∧ (dirty w = false → modglobal w = Some ∘ fst <$> o) ∧
    arenas w = held ∪ cached_set o ∧ held ## cached_set o) ∧
  ∀ n op, allowed op w held → ∃ r w', run_rop n op w = (Ret r, w') ∧
    (op = RGet → if dirty w then r = None else modglobal w' = Some r ∧ ∃ p, r = Some p ∧ is_Some (structs w' !! p)) ∧
    (op = RGetCapacity → r = Some (foldl capacity_after 100000 ops)) ∧
    (∀ p, modglobal w = Some (Some p) → dirty w' = false → modglobal w' = Some (Some p) ∧ is_Some (structs w' !! p)).
Proof.
  intros Hh. destruct (history_rinv _ _ _ _ Hh) as [o Hi]. split.
  - exists o. destruct Hi as [Hs Hm Ha Ho _ _ _]. split_and!; try done. intros Hd. by rewrite Hd in Hm.
  - intros n op Hop. destruct (rop_step n op o held _ w Hi Hop) as (r & o' & w' & E & Hi' & Hk & Hd & Hg & Hc).
    exists r, w'. split; [done|]. split_and!; [|done|].
    + intros ->. specialize (Hg eq_refl). destruct (dirty w) eqn:Ed; [done|]. destruct Hg as [[p ->] Hf].
      cbn in E. destruct (Registry_Get_spec n o held _ w Hi Ed) as (p' & r' & w2 & E2 & Hi2 & Hd2 & _).
      rewrite E in E2. simplify_eq. rewrite (ri_modglobal _ _ _ _ Hi2), Hd2. split; [done|]. exists p'. split; [done|].
      rewrite (ri_structs _ _ _ _ Hi2). cbn. by rewrite lookup_singleton_eq.
    + intros p Hp Hd'. pose proof (ri_modglobal _ _ _ _ Hi) as Hm. rewrite (Hd Hd') in Hm.
      destruct o as [q|]; [|by rewrite Hp in Hm]. rewrite Hp in Hm. cbn in Hm. injection Hm as ->.
      specialize (Hk q eq_refl). rewrite (ri_modglobal _ _ _ _ Hi'), Hd', (ri_structs _ _ _ _ Hi').
      destruct o' as [[q' r']|]; [|done]. cbn in Hk |- *. injection Hk as ->. by rewrite lookup_singleton_eq.
Qed.

#[export] Instance allowed_dec op w held : Decision (allowed op w held).
Proof.
  assert (∀ answer : option Z, Decision (∀ a, answer = Some a → a ∉ arenas w)) as H.
  { intros [a|]; [|by left]. destruct (decide (a ∉ arenas w)); [left; congruence|right; naive_solver]. }
  destruct op; cbn; try apply _; apply H.
Defined.

(** A history that is run. *)
Fixpoint run_calls (now : rop → Z) (ops : list rop) (w : iworld) (held : gset Z) : iworld * gset Z :=
  match ops with
  | [] => (w, held)
  | op :: ops => let '(out, w) := run_rop (now op) op w in run_calls now ops w (held_after op out held)
  end.
Fixpoint all_allowed (now : rop → Z) (ops : list rop) (w : iworld) (held : gset Z) : bool :=
  match ops with
  | [] => true
  | op :: ops => bool_decide (allowed op w held) &&
      let '(out, w) := run_rop (now op) op w in all_allowed now ops w (held_after op out held)
  end.

Lemma history_run now ops : ∀ past w held, history now past w held → all_allowed now ops w held = true →
  history now (past ++ ops) (run_calls now ops w held).1 (run_calls now ops w held).2.
Proof.
  induction ops as [|op ops IH]; intros past w held Hh; cbn; [by rewrite app_nil_r|].
  destruct (run_rop (now op) op w) as [out w'] eqn:E. intros [Hop%bool_decide_eq_true Hops]%andb_true_iff.
  rewrite cons_middle, app_assoc. apply IH; [|done]. by eapply history_call.
Qed.

Definition start_up : list rop :=
  [RInit; RInitCache; RPreallocate (Some 900); RAcquire Arena.Pool.TRANSIENT None; RSetCapacity 5].

(** The module starts, an arena is cached and taken, and the capacity set. *)
Lemma one_registry_witness :
  let '(w, held) := run_calls (λ _, 7) start_up fresh_interpreter ∅ in
  900 ∈ held ∧ ∃ r w', run_rop 7 RGetCapacity w = (Ret r, w') ∧ r = Some 5.
Proof.
  destruct (run_calls (λ _, 7) start_up fresh_interpreter ∅) as [w held] eqn:E.
  assert (history (λ _, 7) start_up w held) as Hh.
  { pose proof (history_run (λ _, 7) start_up [] _ _ (history_start _)) as H. rewrite E in H. apply H.
    by_compute. }
  assert (dirty w = false ∧ 900 ∈ held) as [Hd Hin].
  { assert (bool_decide (dirty (run_calls (λ _, 7) start_up fresh_interpreter ∅).1 = false ∧
      900 ∈ (run_calls (λ _, 7) start_up fresh_interpreter ∅).2) = true) as Hc by by_compute.
    rewrite E in Hc. by apply bool_decide_eq_true in Hc. }
  split; [done|]. destruct (one_registry _ _ _ _ Hh) as [_ Hn].
  destruct (Hn 7 RGetCapacity Hd) as (r & w' & E' & _ & Hc & _). exists r, w'. split; [done|]. by apply Hc.
Defined.

(** In global destruction the entry's magic does nothing, so the structure is left to the
    end of the process, and the calls that do not test for NULL fault; code that frees the
    entry earlier loses the arena kept in the registry, and gets another registry. *)
Example registry_at_the_end :
  let w := (Preallocate 7 true id (Some 900) fresh_interpreter).2 in
  let ended := (perl_destruct w).2 in
  size (structs ended) = 1%nat ∧ (ObjCache_GetCapacity 7 true ended).1 = Fault "no registry there" ∧
  let freed := (free_entry w).2 in
  structs freed = ∅ ∧ 900 ∈ arenas freed ∧
  (Registry_Get 7 true w).1 = Ret (Some 3) ∧ (Registry_Get 7 true freed).1 = Ret (Some 6).
Proof. cbv zeta. split_and!; by_compute. Qed.

(** Without an entry, and unable to make one, the module does not load. *)
Lemma no_registry now w : dirty w = false → modglobal w = None →
  Registry_Get now false w = (Croak "Failed to initialize Protobuf registry in PL_modglobal", w).
Proof.
  intros Hd Hm. unfold Registry_Get. rewrite (cbind_ret cget _ w w w) by done. rewrite Hd, Hm. unfold Registry_Init.
  rewrite cbind_assoc, (cbind_ret cget _ w w w) by done. by rewrite Hm.
Qed.
