(* ===== verification/ContainerObjects.v ===== *)
(** * Objects of repeated and map fields (xs/convert/upb_to_sv.c, xs/repeated/repeated.c,
    xs/map/map.c)

    The objects [PerlUpb_UpbToSv] answers for containers: an internal wrapper, which is
    cached, and the public one Perl ties to it. *)

From S2P Require Import Prelude Wrappers Messages.
From S2P Require ObjCache.

(** The Perl objects, and the ["_fdef"] and ["_public"] entries of their hashes. *)
Record cworld := { cperl : world; fdefs : gmap Z Z; publics : gmap Z Z }.

Notation ccall := (cmd cworld).

Definition on_cperl {A} (m : call A) : ccall A := λ w,
  let '(out, p) := m (cperl w) in (out, {| cperl := p; fdefs := fdefs w; publics := publics w |}).

Definition SvREFCNT_dec_obj (o : Z) : ccall unit :=
  on_cperl (cmodify (λ w, REFCNT_dec (S (size (objects w))) o w)).

(** [PerlUpb_Repeated_New] and [PerlUpb_Map_New], with the class from the registry. *)
Definition container_new (class : string) (ptr f : Z) (arena_sv : option psv) (flags : Z) : ccall psv :=
  if ptr =? 0 then mret PUndef
  else
    cached ← on_cperl (ObjCache_Get_sv ptr);
    match cached with
    | Some o => mret (PRef o)
    | None =>
        self ← on_cperl (WrapArenaBoundObject ptr arena_sv class flags);
        match self with
        | PRef o =>
            cmodify (λ w, {| cperl := cperl w; fdefs := <[o := f]> (fdefs w); publics := publics w |});;
            mret self
        | _ => cfault "SvRV of undef"
        end
    end.

Definition Repeated_New : Z → Z → option psv → Z → ccall psv := container_new "Protobuf::Internal::Repeated".
Definition Map_New : Z → Z → option psv → Z → ccall psv := container_new "Protobuf::Internal::Map".

(** [GetFieldDef] of both: 0 for NULL. *)
Definition container_fdef (sv : option psv) : ccall Z :=
  match sv with
  | Some (PRef o) => on_cperl (SvRV o);; w ← cget; mret (default 0 (fdefs w !! o))
  | _ => mret 0
  end.

(** [wrap_container_native]: [internal] comes with a reference.  [wrap]: the Perl
    function, if it is defined: the public object it makes and puts in the hash. *)
Definition wrap_container_native (internal : Z) (wrap : option (call Z)) : ccall psv :=
  w ← cget;
  match publics w !! internal with
  | Some public => on_cperl (REFCNT_inc public);; mret (PRef public)
  | None =>
      match wrap with
      | None => on_cperl (REFCNT_inc internal);; mret (PRef internal)
      | Some wrap =>
          public ← on_cperl wrap;
          cmodify (λ w, {| cperl := cperl w; fdefs := fdefs w; publics := <[internal := public]> (publics w) |});;
          on_cperl (REFCNT_inc public);;
          SvREFCNT_dec_obj internal;;
          mret (PRef public)
      end
  end.

(** [PerlUpb_UpbToSv] on a value of a map field or repeated field at [ptr]; [public]:
    whether the registry has the class of public objects. *)
Definition container_to_sv (is_map : bool) (ptr f : Z) (arena_sv : option psv) (public : bool)
  (wrap : option (call Z)) : ccall psv :=
  if ptr =? 0 then mret PUndef
  else
    internal ← (if is_map then Map_New else Repeated_New) ptr f arena_sv 0;
    match internal with
    | PRef o => if public then wrap_container_native o wrap else mret internal
    | _ => mret internal
    end.

(** [PerlUpb_Repeated_AuditIntegrity]: [arr], the elements if the object has an array and
    a field; [sub], whether they are messages. *)
Fixpoint audit_elements (l : list Z) : ccall bool :=
  match l with
  | [] => mret true
  | v :: l =>
      if v =? 0 then audit_elements l
      else
        cached ← on_cperl (ObjCache_Get_sv v);
        match cached with
        | Some c => SvREFCNT_dec_obj c;; audit_elements l
        | None => audit_elements l
        end
  end.

Definition Repeated_AuditIntegrity (arr : option (list Z)) (sub : bool) : ccall bool :=
  match arr with
  | None => mret false
  | Some l => if sub then audit_elements l else mret true
  end.

(** ** What a read costs *)

(** A container that is read again, once its public object exists, is left with one
    reference more each time, which nobody holds: the public object is what the caller
    gets. *)
Lemma public_read_leaks (w : cworld) is_map ptr f arena_sv wrap o ob public pb c : ptr ≠ 0 →
  ObjCache.ObjCache_Get (oc (cperl w)) ptr = (Some o, c) →
  objects (cperl w) !! o = Some ob → publics w !! o = Some public → public ≠ o →
  objects (cperl w) !! public = Some pb →
  ∃ w', container_to_sv is_map ptr f arena_sv true wrap w = (Ret (PRef public), w') ∧
    objects (cperl w') !! o = Some (with_refcnt ob (S (refcnt ob))) ∧
    objects (cperl w') !! public = Some (with_refcnt pb (S (refcnt pb))) ∧ publics w' = publics w.
Proof.
  intros Hp Eg Ho Hpub Hne Hpb. unfold container_to_sv. rewrite (proj2 (Z.eqb_neq ptr 0)) by done.
  set (p1 := set_oc c (cperl w)).
  set (p2 := set_objects (<[o := with_refcnt ob (S (refcnt ob))]> (objects p1)) p1).
  set (w2 := {| cperl := p2; fdefs := fdefs w; publics := publics w |}).
  assert (ObjCache_Get_sv ptr (cperl w) = (Ret (Some o), p2)) as E1.
  { unfold ObjCache_Get_sv. rewrite (cbind_ret _ _ (cperl w) (cperl w) (cperl w)), Eg by done.
    rewrite (cbind_ret _ _ (cperl w) tt p1) by done. unfold REFCNT_inc.
    rewrite cbind_assoc, (cbind_ret _ _ p1 ob p1) by (unfold SvRV; simpl; by rewrite Ho). done. }
  assert ((if is_map then Map_New else Repeated_New) ptr f arena_sv 0 w = (Ret (PRef o), w2)) as E2.
  { destruct is_map; unfold Map_New, Repeated_New, container_new; rewrite (proj2 (Z.eqb_neq ptr 0)) by done;
      (rewrite (cbind_ret _ _ w (Some o) w2); [done|]; unfold on_cperl; by rewrite E1). }
  rewrite (cbind_ret _ _ _ _ _ E2). unfold wrap_container_native. rewrite (cbind_ret _ _ w2 w2 w2) by done.
  simpl. rewrite Hpub.
  assert (objects p2 !! public = Some pb) as Hpb2 by (simpl; by rewrite lookup_insert_ne).
  assert (REFCNT_inc public p2 = (Ret tt, set_objects (<[public := with_refcnt pb (S (refcnt pb))]> (objects p2)) p2))
    as E3 by (unfold REFCNT_inc; by rewrite (cbind_ret _ _ p2 pb p2) by (unfold SvRV; by rewrite Hpb2)).
  eexists. split.
  { rewrite (cbind_ret _ _ w2 tt {| cperl := set_objects (<[public := with_refcnt pb (S (refcnt pb))]> (objects p2)) p2;
      fdefs := fdefs w; publics := publics w |}); [done|]. unfold on_cperl. change (cperl w2) with p2. by rewrite E3. }
  simpl. split_and!; [|by rewrite lookup_insert_eq|done]. by rewrite lookup_insert_ne, lookup_insert_eq.
Qed.

(** Three reads of one repeated field: the internal object is left with three references
    (the public one's and two that leaked). *)
Definition make_public : call Z :=
  REFCNT_inc 1;;
  new_object {| refcnt := 1; stash := Some "Protobuf::Internal::Repeated::Public"%string; contents := NotHV 11;
                ext_magic := None |}.

Example reads_leak :
  let read := container_to_sv false 16 64 None true (Some make_public) in
  let w := {| cperl := no_objects 8; fdefs := ∅; publics := ∅ |} in
  let '(out, w) := (read;; read;; read) w in
  out = Ret (PRef 2) ∧ refcnt <$> objects (cperl w) !! 1 = Some 3%nat.
Proof. by vm_compute. Qed.
