(* ===== verification/FieldXsubs.v ===== *)
(** * The Perl interface of fields (lib/Protobuf/Message.xs.part, xs/message/access.c)

    The XSUBs that read, set, test and clear one field of a message object, named or given
    by the object of its definition: [access.c] over the objects of [Messages] and
    [ContainerObjects] and the contents of messages, extensions included. *)

From S2P Require Import Prelude PerlNumbers Convert Handles Wrappers Messages MessageOps.
From S2P Require ObjCache Descriptors Accessors ExtensionDict ContainerObjects.

Import Accessors (FieldValues, fv_default, fv_to_sv, fv_of_sv).

(** ** State

    The messages with their objects, and what the objects of containers hold. *)
Record xworld (V : Type) := { xm : mworld V; fdefs : gmap Z Z; publics : gmap Z Z }.
Arguments xm {_} _.
Arguments fdefs {_} _.
Arguments publics {_} _.
Arguments Build_xworld {_} _ _ _.

(** What a read answers: a scalar, or an object (or undef) of [Wrappers]. *)
Inductive answer := Scalar (s : sv) | Object (o : psv).

(** ** Fields of a message (upb/reflection/message.c, message/internal/accessors.h) *)

Section Fields.
Context {V : Type} `{FieldValues V}.
(** The fields of a message type; the address in a value that is a pointer, 0 for NULL. *)
Context (table : Z → list field) (msg_val : V → Z).
Notation mcall := (cmd (mworld V)).

Definition with_base (m : cmsg V) (b : gmap Z V) : cmsg V :=
  {| arena_obj := arena_obj m; mtype := mtype m; base := b; aux := aux m |}.

(** Fields of one oneof. *)
Definition shares_oneof (fs : list field) (f : FieldDef) (n : Z) : bool :=
  match f_oneof f with
  | Some o => existsb (λ g, (f_number (fdef g) =? n) && bool_decide (f_oneof (fdef g) = Some o)) fs
  | None => false
  end.

(** The value that is set, if one is. *)
Definition set_value (m : cmsg V) (f : field) : option V :=
  if is_extension f then ExtensionDict.Getext (aux m) (fptr f) else base m !! f_number (fdef f).

(** [upb_Message_SetBaseField] and [upb_Message_SetExtension]; [room]: whether there is
    memory for an extension that is not there. *)
Definition set_to (m : cmsg V) (f : field) (v : V) (room : bool) : cmsg V :=
  if is_extension f then ExtensionDict.with_aux m (ExtensionDict.SetExtension (aux m) (fptr f) v room).2
  else with_base m (Accessors.SetFieldByDef (shares_oneof (table (mtype m))) (base m) (fdef f) v).

(** [upb_Message_ClearExtension]: the slot becomes NULL. *)
Fixpoint ClearExtension (aux : list (aux_entry V)) (e : Z) : list (aux_entry V) :=
  match aux with
  | [] => []
  | AuxExt e' v :: aux => if e' =? e then AuxNull :: aux else AuxExt e' v :: ClearExtension aux e
  | x :: aux => x :: ClearExtension aux e
  end.
Definition cleared_of (m : cmsg V) (f : field) : cmsg V :=
  if is_extension f then ExtensionDict.with_aux m (ClearExtension (aux m) (fptr f))
  else with_base m (delete (f_number (fdef f)) (base m)).

(** A field is an offset in the layout of its own message type; nothing tests that the
    message is of that type. *)
Definition of_type (t : Z) (f : field) : bool := is_extension f || existsb (λ g, fptr g =? fptr f) (table t).
Definition read_fields (msg : Z) (f : field) : mcall (cmsg V) :=
  m ← read_msg msg;
  if of_type (mtype m) f then mret m else cfault "layout of another message type".

Definition upb_Message_GetFieldByDef (msg : Z) (f : field) : mcall V :=
  m ← read_fields msg f; mret (default (fv_default (fdef f)) (set_value m f)).
Definition upb_Message_SetFieldByDef (msg : Z) (f : field) (v : V) (room : bool) : mcall unit :=
  m ← read_fields msg f; write_msg msg (set_to m f v room).
Definition upb_Message_HasFieldByDef (msg : Z) (f : field) : mcall bool :=
  m ← read_fields msg f; mret (bool_decide (is_Some (set_value m f))).
Definition upb_Message_ClearFieldByDef (msg : Z) (f : field) : mcall unit :=
  m ← read_fields msg f; write_msg msg (cleared_of m f).

(** [upb_Message_Mutable] of a container; [made]: the new one. *)
Definition upb_Message_Mutable (msg : Z) (f : field) (made : V) (room : bool) : mcall V :=
  v ← upb_Message_GetFieldByDef msg f;
  if negb (msg_val v =? 0) then mret v
  else upb_Message_SetFieldByDef msg f made room;; mret made.

(** ** access.c, upb_to_sv.c *)

Notation xcall := (cmd (xworld V)).
Context (derived : string → string → bool) (message_stash : Z → string).
(** [upb_FieldDef_MessageSubDef], 0 for NULL; whether the registry has the classes of
    public containers, and the Perl functions that make those. *)
Context (sub_type : FieldDef → Z) (map_public repeated_public : bool).
Context (wrap_map wrap_repeated : option (call Z)).

Definition on_msgs {A} (m : mcall A) : xcall A := λ w,
  let '(out, x) := m (xm w) in (out, Build_xworld x (fdefs w) (publics w)).
Definition on_containers {A} (m : cmd ContainerObjects.cworld A) : xcall A := λ w,
  let '(out, c) := m {| ContainerObjects.cperl := perl (xm w); ContainerObjects.fdefs := fdefs w;
                        ContainerObjects.publics := publics w |} in
  (out, Build_xworld (Build_mworld (ContainerObjects.cperl c) (mdef_ptrs (xm w)) (store (xm w)))
          (ContainerObjects.fdefs c) (ContainerObjects.publics c)).

(** [PerlUpb_UpbToSv]. *)
Definition UpbToSv (v : V) (f : field) (arena_sv : option psv) : xcall answer :=
  if f_map (fdef f) then
    o ← on_containers (ContainerObjects.container_to_sv true (msg_val v) (fptr f) arena_sv map_public wrap_map);
    mret (Object o)
  else if f_repeated (fdef f) then
    o ← on_containers (ContainerObjects.container_to_sv false (msg_val v) (fptr f) arena_sv repeated_public wrap_repeated);
    mret (Object o)
  else if IsSubMessage (fdef f) then
    if sub_type (fdef f) =? 0 then ccroak ("PerlUpb_UpbToSv: Could not get MessageDef for field " +:+ text (f_name (fdef f)))
    else o ← on_msgs (WrapMessage message_stash (msg_val v) (sub_type (fdef f)) arena_sv 0); mret (Object o)
  else s ← of_outcome (fv_to_sv v (fdef f)); mret (Scalar s).

Definition is_container (f : field) : bool := f_repeated (fdef f) || f_map (fdef f).
Definition needs_arena (f : field) : bool := IsSubMessage (fdef f) || is_container f.

(** [GetMsg] and the test that follows it. *)
Definition message_of (self : option psv) : xcall Z :=
  msg ← on_msgs (Message_GetMsg derived self);
  cguard (negb (msg =? 0)) "Invalid message object";;
  mret msg.

Definition Message_GetField (self : option psv) (f : field) (made : V) (room : bool) : xcall answer :=
  msg ← message_of self;
  if needs_arena f then
    arena_sv ← on_msgs (Message_GetArena self);
    on_msgs (get_arena arena_sv);;
    if is_container f then
      val ← on_msgs (upb_Message_Mutable msg f made room); UpbToSv val f arena_sv
    else val ← on_msgs (upb_Message_GetFieldByDef msg f); UpbToSv val f arena_sv
  else val ← on_msgs (upb_Message_GetFieldByDef msg f); UpbToSv val f None.

Definition Message_SetField (self : option psv) (f : field) (val_sv : sv) (room : bool) : xcall unit :=
  msg ← message_of self;
  arena_sv ← on_msgs (Message_GetArena self);
  on_msgs (get_arena arena_sv);;
  val ← of_outcome (fv_of_sv val_sv (fdef f));
  on_msgs (upb_Message_SetFieldByDef msg f val room).

Definition Message_HasField (self : option psv) (f : field) : xcall bool :=
  msg ← message_of self;
  cguard (has_presence f) "Field does not have presence";;
  on_msgs (upb_Message_HasFieldByDef msg f).

Definition Message_ClearField (self : option psv) (f : field) : xcall unit :=
  msg ← message_of self;
  on_msgs (upb_Message_ClearFieldByDef msg f).

(** ** Message.xs.part *)

(** The definitions at their addresses; the full names of message types. *)
Context (field_at : Z → option field) (full_name : Z → bytes).

(** [GET_FIELD_DEF_OR_CROAK] with the type it is asked of; a name ends at a NUL. *)
Definition find_field (t : Z) (name : bytes) : option field :=
  snd <$> list_find (λ g, f_name (fdef g) = cstr name) (table t).
Definition not_found (t : Z) (name : bytes) : string :=
  ("Field '" +:+ text (cstr name) +:+ "' not found in message '" +:+ text (full_name t) +:+ "'")%string.
Definition field_named (self : option psv) (name : bytes) : xcall field :=
  mdef ← on_msgs (Message_GetDef self);
  if mdef =? 0 then cfault "NULL message type"
  else match find_field mdef name with Some f => mret f | None => ccroak (not_found mdef name) end.

(** The definition behind an object, for the XSUB [xsub]. *)
Definition field_given (xsub : string) (fdef_sv : option psv) : xcall field :=
  f ← on_msgs (on_perl (Descriptors.FieldDef_GetField derived fdef_sv));
  cguard (negb (f =? 0)) ("Invalid FieldDef provided to " +:+ xsub);;
  match field_at f with Some fd => mret fd | None => cfault "freed definition" end.

Definition xs_get (self : option psv) (name : bytes) (made : V) (room : bool) : xcall answer :=
  f ← field_named self name; Message_GetField self f made room.
Definition xs_set (self : option psv) (name : bytes) (v : sv) (room : bool) : xcall unit :=
  f ← field_named self name; Message_SetField self f v room.
Definition xs_has (self : option psv) (name : bytes) : xcall bool :=
  f ← field_named self name; Message_HasField self f.
Definition xs_clear (self : option psv) (name : bytes) : xcall unit :=
  f ← field_named self name; Message_ClearField self f.

Definition xs_get_by_fdef (self fdef_sv : option psv) (made : V) (room : bool) : xcall answer :=
  f ← field_given "_xs_get_by_fdef" fdef_sv; Message_GetField self f made room.
Definition xs_set_by_fdef (self fdef_sv : option psv) (v : sv) (room : bool) : xcall unit :=
  f ← field_given "_xs_set_by_fdef" fdef_sv; Message_SetField self f v room.
Definition xs_has_by_fdef (self fdef_sv : option psv) : xcall bool :=
  f ← field_given "_xs_has_by_fdef" fdef_sv; Message_HasField self f.
Definition xs_clear_by_fdef (self fdef_sv : option psv) : xcall unit :=
  f ← field_given "_xs_clear_by_fdef" fdef_sv; Message_ClearField self f.

(** [_xs_which_oneof]; [oneofs]: the oneofs of a message type with their names. *)
Definition xs_which_oneof (oneofs : Z → list (bytes * list FieldDef)) (self : option psv) (name : bytes)
  : xcall (option bytes) :=
  mdef ← on_msgs (Message_GetDef self);
  if mdef =? 0 then cfault "NULL message type"
  else
    match assoc (cstr name) (oneofs mdef) with
    | Some o => on_msgs (Message_WhichOneof derived self o)
    | None => ccroak ("Oneof '" +:+ text (cstr name) +:+ "' not found in message '" +:+ text (full_name mdef) +:+ "'")
    end.
End Fields.

(** ** Histories of calls on the fields of one object *)

(** A field by its name or by the object of the definition at [f]. *)
Inductive fref := Named (name : bytes) | Given (f : Z).
Inductive xop (V : Type) :=
  | XGet (r : fref) (made : V) (room : bool) | XSet (r : fref) (v : sv) (room : bool) | XHas (r : fref) | XClear (r : fref).
Arguments XGet {_} _ _ _.
Arguments XSet {_} _ _ _.
Arguments XHas {_} _.
Arguments XClear {_} _.

Definition xop_ref {V} (op : xop V) : fref :=
  match op with XGet r _ _ | XSet r _ _ | XHas r | XClear r => r end.

Section Histories.
Context {V : Type} `{FieldValues V}.
Context (table : Z → list field) (msg_val : V → Z) (derived : string → string → bool) (message_stash : Z → string).
Context (sub_type : FieldDef → Z) (map_public repeated_public : bool) (wrap_map wrap_repeated : option (call Z)).
Context (field_at : Z → option field) (full_name : Z → bytes) (field_sv : Z → option psv).
Notation xcall := (cmd (xworld V)).

Definition run_xop (self : option psv) (op : xop V) : xcall answer :=
  match op with
  | XGet (Named n) made room =>
      xs_get table msg_val derived message_stash sub_type map_public repeated_public wrap_map wrap_repeated
        full_name self n made room
  | XGet (Given f) made room =>
      xs_get_by_fdef table msg_val derived message_stash sub_type map_public repeated_public wrap_map wrap_repeated
        field_at self (field_sv f) made room
  | XSet (Named n) v room => xs_set table derived full_name self n v room;; mret (Scalar Undef)
  | XSet (Given f) v room => xs_set_by_fdef table derived field_at self (field_sv f) v room;; mret (Scalar Undef)
  | XHas (Named n) => b ← xs_has table derived full_name self n; mret (Scalar (yesno b))
  | XHas (Given f) => b ← xs_has_by_fdef table derived field_at self (field_sv f); mret (Scalar (yesno b))
  | XClear (Named n) => xs_clear table derived full_name self n;; mret (Scalar Undef)
  | XClear (Given f) => xs_clear_by_fdef table derived field_at self (field_sv f);; mret (Scalar Undef)
  end.
Fixpoint run_xops (self : option psv) (ops : list (xop V)) (w : xworld V) : list (outcome answer) * xworld V :=
  match ops with
  | [] => ([], w)
  | op :: ops =>
      let '(out, w) := run_xop self op w in
      let '(outs, w) := run_xops self ops w in (out :: outs, w)
  end.

(** *** What they should be: two finite maps, from numbers and from extensions *)
Definition contents : Type := gmap Z V * gmap Z V.

(** The field a call names, in a message of type [t]. *)
Definition resolve (t : Z) (r : fref) : outcome field :=
  match r with
  | Named n => match find_field table t n with Some f => Ret f | None => Croak (not_found full_name t n) end
  | Given f => match field_at f with Some fd => Ret fd | None => Fault "freed definition" end
  end.
Definition spec_value (f : field) (c : contents) : option V :=
  if is_extension f then c.2 !! fptr f else c.1 !! f_number (fdef f).
Definition spec_set (t : Z) (f : field) (v : V) (room : bool) (c : contents) : contents :=
  if is_extension f then
    (c.1, if room || bool_decide (is_Some (c.2 !! fptr f)) then <[fptr f := v]> c.2 else c.2)
  else (Accessors.SetFieldByDef (shares_oneof (table t)) c.1 (fdef f) v, c.2).
Definition spec_clear (f : field) (c : contents) : contents :=
  if is_extension f then (c.1, delete (fptr f) c.2) else (delete (f_number (fdef f)) c.1, c.2).

Definition spec_on (t : Z) (op : xop V) (f : field) (c : contents) : outcome answer * contents :=
  match op with
  | XGet _ _ _ => (s ← fv_to_sv (default (fv_default (fdef f)) (spec_value f c)) (fdef f); Ret (Scalar s), c)
  | XSet _ s room =>
      match fv_of_sv s (fdef f) with
      | Ret v => (Ret (Scalar Undef), spec_set t f v room c)
      | Croak msg => (Croak msg, c)
      | Fault why => (Fault why, c)
      end
  | XHas _ =>
      (if has_presence f then Ret (Scalar (yesno (bool_decide (is_Some (spec_value f c)))))
       else Croak "Field does not have presence", c)
  | XClear _ => (Ret (Scalar Undef), spec_clear f c)
  end.
Definition spec_xop (t : Z) (op : xop V) (c : contents) : outcome answer * contents :=
  match resolve t (xop_ref op) with
  | Ret f => spec_on t op f c
  | Croak msg => (Croak msg, c)
  | Fault why => (Fault why, c)
  end.
Fixpoint spec_xops (t : Z) (ops : list (xop V)) (c : contents) : list (outcome answer) * contents :=
  match ops with
  | [] => ([], c)
  | op :: ops => let '(out, c) := spec_xop t op c in let '(outs, c) := spec_xops t ops c in (out :: outs, c)
  end.

(** ** Refinement *)

(** The contents of a message. *)
Definition contents_of (m : cmsg V) : contents := (base m, ExtensionDict.ext_map (aux m)).

(** What no call on a field changes; an extension is there at most once. *)
Record kept (m m' : cmsg V) : Prop := {
  kept_arena : arena_obj m' = arena_obj m;
  kept_type : mtype m' = mtype m;
  kept_unknown : ExtensionDict.unknowns (aux m') = ExtensionDict.unknowns (aux m);
  kept_once : NoDup (ExtensionDict.exts (aux m')) }.

(** The world with the message at [p] changed, and nothing else. *)
Definition with_msg (w : xworld V) (p : Z) (m : cmsg V) : xworld V :=
  Build_xworld (set_store (<[p := m]> (store (xm w))) (xm w)) (fdefs w) (publics w).

Lemma ClearExtension_exts (x : list (aux_entry V)) e :
  ExtensionDict.exts (ClearExtension x e) ⊆ ExtensionDict.exts x ∧
  (NoDup (ExtensionDict.exts x) → NoDup (ExtensionDict.exts (ClearExtension x e))) ∧
  ExtensionDict.unknowns (ClearExtension x e) = ExtensionDict.unknowns x.
Proof.
  unfold ExtensionDict.exts, ExtensionDict.unknowns.
  induction x as [|[|d|e' v] x (IHs & IHn & IHu)]; csimpl; [done|done|by rewrite IHu|].
  destruct (Z.eqb_spec e' e); csimpl; [by split_and!; [set_solver|intros [? ?]%NoDup_cons|]|].
  split_and!; [set_solver| |done]. intros [Hn Hd]%NoDup_cons. apply NoDup_cons. split; [set_solver|auto].
Qed.

Lemma Getext_absent (x : list (aux_entry V)) e : e ∉ ExtensionDict.exts x → ExtensionDict.ext_map x !! e = None.
Proof.
  unfold ExtensionDict.exts. induction x as [|[|d|e' v] x IH]; csimpl; intros Hn; [apply lookup_empty|auto..|].
  apply not_elem_of_cons in Hn as [Hne Hn]. rewrite lookup_insert_ne by done. auto.
Qed.

Lemma ClearExtension_map (x : list (aux_entry V)) e : NoDup (ExtensionDict.exts x) →
  ExtensionDict.ext_map (ClearExtension x e) = delete e (ExtensionDict.ext_map x).
Proof.
  unfold ExtensionDict.exts. induction x as [|[|d|e' v] x IH]; csimpl; intros Hd; [by rewrite delete_empty|auto..|].
  apply NoDup_cons in Hd as [Hn Hd]. destruct (Z.eqb_spec e' e) as [->|Hne]; csimpl.
  - rewrite delete_insert_eq, delete_id; [done|]. by apply Getext_absent.
  - rewrite IH by done. by rewrite delete_insert_ne.
Qed.

Lemma write_ext_exts (x : list (aux_entry V)) e v : ExtensionDict.exts (ExtensionDict.write_ext x e v) = ExtensionDict.exts x.
Proof.
  unfold ExtensionDict.exts. induction x as [|[|d|e' v'] x IH]; csimpl; [done|done|done|].
  destruct (Z.eqb_spec e' e) as [->|]; csimpl; congruence.
Qed.

Lemma Getext_None (x : list (aux_entry V)) e : ExtensionDict.Getext x e = None → e ∉ ExtensionDict.exts x.
Proof.
  unfold ExtensionDict.exts. induction x as [|[|d|e' v'] x IH]; csimpl; [set_solver|auto..|].
  destruct (Z.eqb_spec e' e); [done|]. set_solver.
Qed.

Lemma SetExtension_once (x : list (aux_entry V)) e v room : NoDup (ExtensionDict.exts x) →
  NoDup (ExtensionDict.exts (ExtensionDict.SetExtension x e v room).2).
Proof.
  intros Hd. unfold ExtensionDict.SetExtension. destruct (ExtensionDict.Getext x e) eqn:E; simpl; [by rewrite write_ext_exts|].
  destruct room; [simpl|done]. apply Getext_None in E. unfold ExtensionDict.exts in *. rewrite omap_app. csimpl.
  apply NoDup_app. split_and!; [done|set_solver|]. apply NoDup_singleton.
Qed.

(** Setting and clearing a field, on contents. *)
Lemma set_to_contents m f v room : NoDup (ExtensionDict.exts (aux m)) →
  contents_of (set_to table m f v room) = spec_set (mtype m) f v room (contents_of m) ∧ kept m (set_to table m f v room).
Proof.
  intros Hd. unfold set_to, spec_set, contents_of. destruct (is_extension f); simpl; [|by split].
  rewrite ExtensionDict.SetExtension_map. split; [done|]. split; [done|done|apply ExtensionDict.SetExtension_unknowns|].
  by apply SetExtension_once.
Qed.

Lemma cleared_of_contents m f : NoDup (ExtensionDict.exts (aux m)) →
  contents_of (cleared_of m f) = spec_clear f (contents_of m) ∧ kept m (cleared_of m f).
Proof.
  intros Hd. unfold cleared_of, spec_clear, contents_of. destruct (is_extension f); simpl; [|by split].
  destruct (ClearExtension_exts (aux m) (fptr f)) as (_ & Hn & Hu). rewrite ClearExtension_map by done. by split; [|split; auto].
Qed.

Lemma set_value_contents m f : set_value m f = spec_value f (contents_of m).
Proof. unfold set_value, spec_value. destruct (is_extension f); [|done]. symmetry. apply ExtensionDict.Getext_map. Qed.

Hypothesis message_classes : ∀ t, derived (message_stash t) message_class = true.

(** The object given for a definition is its wrapper, and the definition is an extension
    or of the message's own type. *)
Definition ref_ok (w : xworld V) (t : Z) (r : fref) : Prop :=
  match r with
  | Named _ => True
  | Given f => f ≠ 0 ∧ Descriptors.FieldDef_GetField derived (field_sv f) (perl (xm w)) = (Ret f, perl (xm w)) ∧
      ∀ fd, field_at f = Some fd → of_type table t fd = true
  end.

Lemma find_field_of_type t n f : find_field table t n = Some f → of_type table t f = true.
Proof.
  unfold find_field, of_type. intros ([i g] & E & ->)%fmap_Some. apply list_find_Some in E as (E & _).
  apply orb_true_intro. right. apply existsb_exists. exists g. split; [|apply Z.eqb_refl].
  apply list_elem_of_In. by eapply list_elem_of_lookup_2.
Qed.

(** *** One object *)

Section Object.
Context (w : xworld V) (o p : Z) (m : cmsg V).
Hypothesis Ho : message_object message_stash (xm w) o p m.
Hypothesis Hd : NoDup (ExtensionDict.exts (aux m)).
#[local] Abbreviation self := (Some (PRef o)).

Lemma msgs_same {A} (c : cmd (mworld V) A) out : c (xm w) = (out, xm w) → on_msgs c w = (out, w).
Proof. intros E. unfold on_msgs. rewrite E. by destruct w. Qed.

Lemma same_msg : with_msg w p m = w.
Proof.
  destruct Ho as [_ _ [Hs _] _]. unfold with_msg, set_store. rewrite insert_id by done. by destruct w as [[]].
Qed.

(** What the calls read. *)
Lemma object_facts :
  message_of derived self w = (Ret p, w) ∧
  on_msgs (Message_GetDef self) w = (Ret (mtype m), w) ∧
  on_msgs (Message_GetArena self) w = (Ret (Some (PRef (arena_obj m))), w) ∧
  on_msgs (get_arena (Some (PRef (arena_obj m)))) w = (Ret (arena_obj m), w) ∧
  read_msg p (xm w) = (Ret m, xm w) ∧ p ≠ 0 ∧ mtype m ≠ 0.
Proof.
  destruct (object_reads derived message_stash message_classes (xm w) o p m (store (xm w)) Ho) as (E1 & E2 & E3 & E4).
  replace (set_store (store (xm w)) (xm w)) with (xm w) in * by (by destruct (xm w)).
  destruct Ho as [_ [_ Ht] [Hs Hp] _]. split_and!; [|by apply msgs_same..| |done|done].
  - unfold message_of. rewrite (cbind_ret _ _ _ _ _ (msgs_same _ _ E1)).
    by rewrite (proj2 (Z.eqb_neq p 0)).
  - apply read_live; [done|by eapply object_arena].
Qed.

(** A call that writes the message. *)
Lemma msgs_written m' : on_msgs (write_msg p m') w = (Ret tt, with_msg w p m').
Proof. done. Qed.

Lemma read_fields_ok f : of_type table (mtype m) f = true → read_fields table p f (xm w) = (Ret m, xm w).
Proof.
  intros Hf. destruct object_facts as (_ & _ & _ & _ & Er & _). unfold read_fields.
  by rewrite (cbind_ret _ _ _ _ _ Er), Hf.
Qed.

(** The calls of access.c on a field of the message's type. *)
Lemma GetField_run f made room : of_type table (mtype m) f = true → needs_arena f = false →
  Message_GetField table msg_val derived message_stash sub_type map_public repeated_public wrap_map wrap_repeated
    self f made room w =
  ((s ← fv_to_sv (default (fv_default (fdef f)) (spec_value f (contents_of m))) (fdef f); Ret (Scalar s)), w).
Proof.
  intros Hf Hn. destruct object_facts as (E1 & _). unfold Message_GetField. rewrite (cbind_ret _ _ _ _ _ E1), Hn.
  set (v := default (fv_default (fdef f)) (spec_value f (contents_of m))).
  rewrite (cbind_ret _ _ w v w).
  2: { apply msgs_same. unfold upb_Message_GetFieldByDef.
       by rewrite (cbind_ret _ _ _ _ _ (read_fields_ok f Hf)), set_value_contents. }
  unfold needs_arena, is_container in Hn. apply orb_false_iff in Hn as [Hs [Hr Hm]%orb_false_iff].
  unfold UpbToSv. rewrite Hm, Hr, Hs. by destruct (fv_to_sv v (fdef f)).
Qed.

Lemma SetField_run f s room : of_type table (mtype m) f = true →
  Message_SetField table derived self f s room w =
  match fv_of_sv s (fdef f) with
  | Ret v => (Ret tt, with_msg w p (set_to table m f v room))
  | Croak msg => (Croak msg, w)
  | Fault why => (Fault why, w)
  end.
Proof.
  intros Hf. destruct object_facts as (E1 & _ & E3 & E4 & _). unfold Message_SetField.
  rewrite (cbind_ret _ _ _ _ _ E1), (cbind_ret _ _ _ _ _ E3), (cbind_ret _ _ _ _ _ E4).
  destruct (fv_of_sv s (fdef f)) as [v| |]; [|done..]. rewrite (cbind_ret _ _ w v w) by done.
  unfold on_msgs at 1, upb_Message_SetFieldByDef. by rewrite (cbind_ret _ _ _ _ _ (read_fields_ok f Hf)).
Qed.

Lemma HasField_run f : of_type table (mtype m) f = true →
  Message_HasField table derived self f w =
  (if has_presence f then Ret (bool_decide (is_Some (spec_value f (contents_of m))))
   else Croak "Field does not have presence", w).
Proof.
  intros Hf. destruct object_facts as (E1 & _). unfold Message_HasField. rewrite (cbind_ret _ _ _ _ _ E1).
  destruct (has_presence f); [|done]. rewrite (cbind_ret _ _ w tt w) by done. apply msgs_same.
  unfold upb_Message_HasFieldByDef. by rewrite (cbind_ret _ _ _ _ _ (read_fields_ok f Hf)), set_value_contents.
Qed.

Lemma ClearField_run f : of_type table (mtype m) f = true →
  Message_ClearField table derived self f w = (Ret tt, with_msg w p (cleared_of m f)).
Proof.
  intros Hf. destruct object_facts as (E1 & _). unfold Message_ClearField. rewrite (cbind_ret _ _ _ _ _ E1).
  unfold on_msgs at 1, upb_Message_ClearFieldByDef. by rewrite (cbind_ret _ _ _ _ _ (read_fields_ok f Hf)).
Qed.

(** Both ways to name a field. *)
Lemma field_by xsub r : ref_ok w (mtype m) r →
  (match r with
   | Named n => field_named table full_name self n
   | Given f => field_given derived field_at xsub (field_sv f)
   end) w = (resolve (mtype m) r, w) ∧
  ∀ f, resolve (mtype m) r = Ret f → of_type table (mtype m) f = true.
Proof.
  destruct object_facts as (_ & E2 & _ & _ & _ & _ & Ht). destruct r as [n|f]; simpl.
  - intros _. unfold field_named. rewrite (cbind_ret _ _ _ _ _ E2), (proj2 (Z.eqb_neq _ _)) by done.
    destruct (find_field table (mtype m) n) as [f|] eqn:E; [|done]. split; [done|]. intros ? [= <-].
    by eapply find_field_of_type.
  - intros (Hf & E & Hty). unfold field_given. rewrite (cbind_ret _ _ w f w).
    2: { apply msgs_same. rewrite (on_perl_run _ _ _ _ E). by destruct (xm w). }
    rewrite (proj2 (Z.eqb_neq _ _)), (cbind_ret _ _ w tt w) by done.
    destruct (field_at f) as [fd|]; [|done]. split; [done|]. intros ? [= <-]. by apply Hty.
Qed.
End Object.

(** Reads are of scalar fields. *)
Definition xop_ok (w : xworld V) (t : Z) (op : xop V) : Prop :=
  ref_ok w t (xop_ref op) ∧
  match op with
  | XGet r _ _ => ∀ f, resolve t r = Ret f → needs_arena f = false
  | _ => True
  end.

Lemma kept_refl m : NoDup (ExtensionDict.exts (aux m)) → kept m m.
Proof. by split. Qed.

(** A call, once its field is found. *)
Definition call_on (self : option psv) (op : xop V) (f : field) : xcall answer :=
  match op with
  | XGet _ made room =>
      Message_GetField table msg_val derived message_stash sub_type map_public repeated_public wrap_map wrap_repeated
        self f made room
  | XSet _ v room => Message_SetField table derived self f v room;; mret (Scalar Undef)
  | XHas _ => b ← Message_HasField table derived self f; mret (Scalar (yesno b))
  | XClear _ => Message_ClearField table derived self f;; mret (Scalar Undef)
  end.
Definition xsub_of (op : xop V) : string :=
  match op with
  | XGet _ _ _ => "_xs_get_by_fdef" | XSet _ _ _ => "_xs_set_by_fdef"
  | XHas _ => "_xs_has_by_fdef" | XClear _ => "_xs_clear_by_fdef"
  end.
Lemma run_xop_call self op w : run_xop self op w =
  (f ← match xop_ref op with
       | Named n => field_named table full_name self n
       | Given f => field_given derived field_at (xsub_of op) (field_sv f)
       end; call_on self op f) w.
Proof. by destruct op as [[n|a] made room|[n|a] v room|[n|a]|[n|a]]; cbn; rewrite <- ?cbind_assoc. Qed.

Lemma call_on_refines w o p m op f : message_object message_stash (xm w) o p m → NoDup (ExtensionDict.exts (aux m)) →
  of_type table (mtype m) f = true → (if op is XGet _ _ _ then needs_arena f = false else True) →
  ∃ m', call_on (Some (PRef o)) op f w = ((spec_on (mtype m) op f (contents_of m)).1, with_msg w p m') ∧
    contents_of m' = (spec_on (mtype m) op f (contents_of m)).2 ∧ kept m m'.
Proof.
  intros Ho Hd Hty Hop. pose proof (same_msg w o p m Ho) as Hw.
  destruct op as [r made room|r v room|r|r]; cbn [call_on spec_on].
  - exists m. rewrite Hw. split; [by eapply GetField_run|by split; [|apply kept_refl]].
  - pose proof (SetField_run w o p m Ho f v room Hty) as E. destruct (fv_of_sv v (fdef f)) as [x|msg|why].
    + rewrite (cbind_ret _ _ _ _ _ E). destruct (set_to_contents m f x room Hd). by eexists.
    + rewrite (cbind_croak _ _ _ _ _ E). exists m. rewrite Hw. by split_and!; [..|apply kept_refl].
    + rewrite (cbind_fault _ _ _ _ _ E). exists m. rewrite Hw. by split_and!; [..|apply kept_refl].
  - pose proof (HasField_run w o p m Ho f Hty) as E. exists m. rewrite Hw.
    destruct (has_presence f); [rewrite (cbind_ret _ _ _ _ _ E)|rewrite (cbind_croak _ _ _ _ _ E)];
      by split_and!; [..|apply kept_refl].
  - rewrite (cbind_ret _ _ _ _ _ (ClearField_run w o p m Ho f Hty)). destruct (cleared_of_contents m f Hd). by eexists.
Qed.

Lemma run_xop_refines w o p m op : message_object message_stash (xm w) o p m → NoDup (ExtensionDict.exts (aux m)) →
  xop_ok w (mtype m) op →
  ∃ m', run_xop (Some (PRef o)) op w = ((spec_xop (mtype m) op (contents_of m)).1, with_msg w p m') ∧
    contents_of m' = (spec_xop (mtype m) op (contents_of m)).2 ∧ kept m m'.
Proof.
  intros Ho Hd [Hr Hop]. rewrite run_xop_call. unfold spec_xop.
  destruct (field_by w o p m Ho (xsub_of op) (xop_ref op) Hr) as [E Hty].
  destruct (resolve (mtype m) (xop_ref op)) as [f|msg|why] eqn:Er.
  - rewrite (cbind_ret _ _ _ _ _ E). apply call_on_refines; auto. destruct op; auto.
  - rewrite (cbind_croak _ _ _ _ _ E). exists m. rewrite (same_msg w o p m Ho). by split_and!; [..|apply kept_refl].
  - rewrite (cbind_fault _ _ _ _ _ E). exists m. rewrite (same_msg w o p m Ho). by split_and!; [..|apply kept_refl].
Qed.

Lemma with_msg_object w o p m m' : message_object message_stash (xm w) o p m → kept m m' →
  message_object message_stash (xm (with_msg w p m')) o p m'.
Proof.
  intros [Hw Hm [_ Hp] Ha] [Ea Et _ _]. split; simpl; rewrite ?Ea, ?Et; [done|done| |done].
  split; [apply lookup_insert_eq|done].
Qed.

Lemma with_msg_twice w p m1 m2 : with_msg (with_msg w p m1) p m2 = with_msg w p m2.
Proof. unfold with_msg, set_store. simpl. by rewrite insert_insert_eq. Qed.

Lemma kept_trans m1 m2 m3 : kept m1 m2 → kept m2 m3 → kept m1 m3.
Proof. intros [] []. split; congruence. Qed.

(** C10: the fields of a message, as Perl reads and changes them.  Whatever values are
    set, fields tested and cleared, and scalar fields read through an object of a live
    message, in whatever order, by name or by definition, extensions included: every
    answer and every exception is that of two finite maps, from numbers and from
    extensions to values, where setting a member of a oneof unsets the others; the message
    ends with the contents of the maps; its unknown fields, all other messages and every
    Perl object with its references are what they were. *)
Theorem fields_refine_maps ops : ∀ w o p m, message_object message_stash (xm w) o p m →
  NoDup (ExtensionDict.exts (aux m)) → Forall (xop_ok w (mtype m)) ops →
  ∃ m', run_xops (Some (PRef o)) ops w = ((spec_xops (mtype m) ops (contents_of m)).1, with_msg w p m') ∧
    contents_of m' = (spec_xops (mtype m) ops (contents_of m)).2 ∧ kept m m'.
Proof.
  induction ops as [|op ops IH]; intros w o p m Ho Hd Hops; simpl.
  { exists m. rewrite (same_msg w o p m Ho). by split_and!; [..|apply kept_refl]. }
  inversion_clear Hops as [|?? Hop Hops'].
  destruct (run_xop_refines w o p m op Ho Hd Hop) as (m1 & -> & E1 & K1).
  destruct (spec_xop (mtype m) op (contents_of m)) as [out c]. simpl in E1 |- *.
  destruct (IH (with_msg w p m1) o p m1) as (m2 & -> & E2 & K2); [by eapply with_msg_object|apply K1| |].
  { rewrite (kept_type _ _ K1). exact Hops'. }
  rewrite (kept_type _ _ K1), E1 in E2 |- *. rewrite with_msg_twice.
  destruct (spec_xops (mtype m) ops c) as [outs c']. exists m2. split_and!; [done|done|by eapply kept_trans].
Qed.

End Histories.

(** ** Instances *)

#[local] Instance number_values : FieldValues Z := {|
  fv_default _ := 0;
  fv_to_sv v _ := Ret (IV v);
  fv_of_sv s _ := match s with IV z => Ret z | _ => Croak "Failed to convert value for setting field" end |}.

(** Two fields of a oneof, a third, and an extension at 64. *)
Definition in_oneof (f : FieldDef) (o : nat) : FieldDef :=
  {| f_name := f_name f; f_number := f_number f; f_type := f_type f; f_repeated := false; f_map := false;
     f_sub := f_sub f; f_enum := f_enum f; f_oneof := Some o |}.
Definition scalar (p : Z) (f : FieldDef) (ext pres : bool) : field :=
  {| fptr := p; fdef := f; is_extension := ext; has_presence := pres |}.
Definition circle := scalar 80 (in_oneof (field0 "circle" 1 TInt32) 0) false true.
Definition square := scalar 88 (in_oneof (field0 "square" 2 TInt32) 0) false true.
Definition colour := scalar 96 (field0 "colour" 3 TInt32) false false.
Definition shape_ext := scalar 64 (field0 "x" 100 TInt32) true true.
Definition shapes (t : Z) : list field := if t =? 7 then [circle; square; colour] else [].
Definition shape_field (f : Z) : option field :=
  if f =? 64 then Some shape_ext else if f =? 80 then Some circle else None.
Definition shape_name (_ : Z) : bytes := str "shapes.Shape".

(** A message of type 7 at 16 behind object 2, the extension and [circle] with their
    objects 3 and 4. *)
Definition shape_world : xworld Z :=
  let '(_, w) := run_mops is_a one_stash [MNew 7 true 16 0] (λ _, 0%nat) (no_messages 8) in
  let '(_, w) := (on_perl (Descriptors.FieldDef_GetWrapper 64);; on_perl (Descriptors.FieldDef_GetWrapper 80)) w in
  Build_xworld w ∅ ∅.
Definition shape_fdef (f : Z) : option psv := Some (PRef (if f =? 64 then 3 else 4)).

Definition some_xops : list (xop Z) :=
  [XSet (Named (str "circle")) (IV 5) true; XHas (Given 80); XSet (Named (str "square")) (IV 6) true; XHas (Given 80);
   XGet (Named (str "circle")) 0 true; XHas (Named (str "colour")); XSet (Given 64) (IV 9) true; XClear (Given 80);
   XGet (Given 64) 0 true; XClear (Given 64); XHas (Given 64); XSet (Named (str "square")) Undef true;
   XGet (Named (str "side")) 0 true].

Definition run_shapes : option psv → list (xop Z) → xworld Z → list (outcome answer) * xworld Z :=
  run_xops shapes (λ v, v) is_a one_stash (λ _, 0) false false None None shape_field shape_name shape_fdef.

Lemma fields_refine_maps_witness :
  let '(outs, w') := run_shapes (Some (PRef 2)) some_xops shape_world in
  outs = map Ret [Scalar Undef; Scalar (IV 1); Scalar Undef; Scalar (yesno false); Scalar (IV 0)] ++
    [Croak "Field does not have presence"] ++
    map Ret [Scalar Undef; Scalar Undef; Scalar (IV 9); Scalar Undef; Scalar (yesno false)] ++
    [Croak "Failed to convert value for setting field";
     Croak "Field 'side' not found in message 'shapes.Shape'"] ∧
  ∃ m', w' = with_msg shape_world 16 m' ∧ contents_of m' = ({[2 := 6]}, ∅).
Proof.
  assert (message_object one_stash (xm shape_world) 2 16 (empty_msg 1 7)) as Ho.
  { split.
    - eexists. split; [by vm_compute|]. split; [|done]. split; [done|]. split; [by do 2 eexists|by eexists].
    - by split; [vm_compute|].
    - by split; [vm_compute|].
    - eexists. by split; [vm_compute|]. }
  destruct (fields_refine_maps shapes (λ v, v) is_a one_stash (λ _, 0) false false None None shape_field shape_name
    shape_fdef (λ _, eq_refl) some_xops shape_world 2 16 (empty_msg 1 7) Ho) as (m' & E & Em & _).
  - by apply NoDup_nil.
  - repeat (apply Forall_cons; split); [..|by apply Forall_nil]; split;
      try exact I; try (intros f [= <-]; reflexivity);
      (split; [done|split; [by vm_compute|intros f [= <-]; reflexivity]]).
  - unfold run_shapes. rewrite E. split; [by vm_compute|]. exists m'. split; [done|]. rewrite Em. by vm_compute.
Defined.

(** Nothing asks whether the definition is of the message's type: the write goes through
    the layout of another.  An object that wraps no definition is refused. *)
Example definition_of_another_type :
  let other (t : Z) := if t =? 8 then [circle] else [] in
  (run_xop other (λ v, v) is_a one_stash (λ _, 0) false false None None shape_field shape_name shape_fdef
     (Some (PRef 2)) (XSet (Given 80) (IV 5) true) shape_world).1 = Fault "layout of another message type" ∧
  (run_xop shapes (λ v, v) is_a one_stash (λ _, 0) false false None None shape_field shape_name (λ _, None)
     (Some (PRef 2)) (XSet (Given 80) (IV 5) true) shape_world).1 = Croak "Invalid FieldDef provided to _xs_set_by_fdef".
Proof. by vm_compute. Qed.
