(* ===== verification/TmpfsArena.v ===== *)
(** * The resources of file- and memory-backed arenas (xs/protobuf/arena_tmpfs.c)

    The file descriptors, mappings, heap blocks and upb arenas that creating, attaching
    and destroying such an arena takes and gives back.  What happens inside the region is
    in [BlockAlloc]. *)

From S2P Require Import Prelude.

(** What the process holds, by descriptor and address: mappings with their sizes, blocks of
    Perl's heap, the structures [PerlUpb_BlockAlloc] with their [mmap_size], and arenas with
    the blocks they have from a guard-page allocator. *)
Record res := { fds : gset Z; maps : gmap Z Z; heap : gset Z; allocs : gmap Z Z; arenas : gmap Z (list Z) }.

Notation call := (cmd res).

Definition set_fds (f : gset Z → gset Z) : call unit :=
  cmodify (λ r, {| fds := f (fds r); maps := maps r; heap := heap r; allocs := allocs r; arenas := arenas r |}).
Definition set_maps (f : gmap Z Z → gmap Z Z) : call unit :=
  cmodify (λ r, {| fds := fds r; maps := f (maps r); heap := heap r; allocs := allocs r; arenas := arenas r |}).
Definition set_heap (f : gset Z → gset Z) : call unit :=
  cmodify (λ r, {| fds := fds r; maps := maps r; heap := f (heap r); allocs := allocs r; arenas := arenas r |}).
Definition set_allocs (f : gmap Z Z → gmap Z Z) : call unit :=
  cmodify (λ r, {| fds := fds r; maps := maps r; heap := heap r; allocs := f (allocs r); arenas := arenas r |}).
Definition set_arenas (f : gmap Z (list Z) → gmap Z (list Z)) : call unit :=
  cmodify (λ r, {| fds := fds r; maps := maps r; heap := heap r; allocs := allocs r; arenas := f (arenas r) |}).

Definition safemalloc (p : Z) : call unit := set_heap (λ h, {[p]} ∪ h).

(** Giving back what is not held is a fault. *)
Definition close (fd : Z) : call unit :=
  r ← cget;
  if bool_decide (fd ∈ fds r) then set_fds (λ f, f ∖ {[fd]}) else cfault "close of a closed descriptor".
(** Less than a mapping leaves the rest of it; more takes what lies behind. *)
Definition munmap (p size : Z) : call unit :=
  r ← cget;
  match maps r !! p with
  | None => cfault "munmap of no mapping"
  | Some n =>
      if size =? n then set_maps (delete p)
      else if size <? n then set_maps (λ m, <[p + size := n - size]> (delete p m))
      else cfault "munmap of what lies behind"
  end.
Definition safefree (p : Z) : call unit :=
  r ← cget;
  if bool_decide (p ∈ heap r) then set_heap (λ h, h ∖ {[p]}) else cfault "double free".
Definition safefree_alloc (p : Z) : call unit :=
  r ← cget;
  if bool_decide (is_Some (allocs r !! p)) then set_allocs (delete p) else cfault "double free".

(** What the system answers: the descriptor, the size set, the mapping, the protection of
    the two guard pages, the arena, and the blocks the allocator hands out.  The size of
    the region is asked for, that of a page the system's; [s_first] is what
    [upb_Arena_Init] asks for its first block. *)
Record sys := {
  s_fd : option Z; s_truncated : bool; s_map : option Z; s_protected : bool * bool; s_arena : option Z;
  s_alloc : Z; s_path : Z; s_region : Z; s_wrapper : Z; s_size : Z; s_page : Z; s_first : Z }.

(** [_use_guard_pages] the first time: the value of the environment variable, if set. *)
Definition use_guard_pages (env : option bytes) : bool :=
  match env with Some v => negb (bool_decide (v !! 0%nat = Some 48)) | None => false end.

(** [_page_size] the first time: [sysconf], -1 on errors, is made unsigned before it is
    looked at. *)
Definition page_size (sysconf : Z) : Z := let size := u64 sysconf in if size <=? 0 then 4096 else size.

(** ** Blocks between guard pages

    [PerlUpb_BlockAlloc_Func] of the structure [alloc] with guard pages: what it maps for a
    request of [n], and what it unmaps for a block, whose size it takes from [mmap_size]. *)
Definition guard_malloc (s : sys) (alloc n : Z) : call (option Z) :=
  let total_alloc := u64 (s_page s * 2 + n) in
  set_allocs <[alloc := total_alloc]>;;
  match s_map s with
  | None => mret None
  | Some mem =>
      set_maps <[mem := total_alloc]>;;
      if negb (s_protected s).1 then munmap mem total_alloc;; mret None
      else if negb (s_protected s).2 then munmap mem total_alloc;; mret None
      else mret (Some (mem + s_page s))
  end.
Definition guard_free (s : sys) (alloc p : Z) : call unit :=
  r ← cget;
  match allocs r !! alloc with
  | Some size => munmap (p - s_page s) size
  | None => cfault "use after free"
  end.

(** [upb_Arena_Init(NULL, 0, alloc)] over such a structure: its first block has the arena in
    it, behind the header of 16 bytes. *)
Definition guard_arena (s : sys) (alloc : Z) : call (option Z) :=
  p ← guard_malloc s alloc (s_first s);
  match p with
  | Some p => set_arenas <[p + 16 := [p]]>;; mret (Some (p + 16))
  | None => mret None
  end.
(** Over memory the arena does not map itself, [s_arena] says. *)
Definition new_arena (s : sys) : call (option Z) :=
  match s_arena s with
  | Some a => set_arenas <[a := []]>;; mret (Some a)
  | None => mret None
  end.

Fixpoint free_blocks (s : sys) (alloc : Z) (l : list Z) : call unit :=
  match l with
  | [] => mret tt
  | p :: l => guard_free s alloc p;; free_blocks s alloc l
  end.
(** [upb_Arena_Free]; [alloc]: the structure its blocks are from. *)
Definition release_arena (s : sys) (alloc a : Z) : call unit :=
  r ← cget;
  match arenas r !! a with
  | Some l => free_blocks s alloc l;; set_arenas (delete a)
  | None => cfault "free of no arena"
  end.

(** ** Creating and destroying *)

(** [PerlUpb_BlockAlloc], its memory: a mapped file with its path, or a heap block, which
    is missing with guard pages. *)
Inductive backing := Mapped (fd map path : Z) | Malloced (region : option Z).

(** [PerlUpb_Arena_Custom]. *)
Record custom := { c_wrapper : Z; c_alloc : Z; c_arena : Z; c_backing : backing }.

(** [PerlUpb_Arena_NewTmpfs] ([attach = false]) and [AttachTmpfs], as far as they agree:
    [fd] is open. *)
Definition map_file (s : sys) (fd : Z) (mmap_failed arena_failed : string) : call custom :=
  match s_map s with
  | None => close fd;; ccroak mmap_failed
  | Some region =>
      set_maps <[region := s_size s]>;;
      set_allocs <[s_alloc s := s_size s]>;;
      safemalloc (s_path s);;
      arena ← new_arena s;
      match arena with
      | None =>
          munmap region (s_size s);; close fd;; safefree (s_path s);; safefree_alloc (s_alloc s);; ccroak arena_failed
      | Some arena =>
          safemalloc (s_wrapper s);;
          mret {| c_wrapper := s_wrapper s; c_alloc := s_alloc s; c_arena := arena;
                  c_backing := Mapped fd region (s_path s) |}
      end
  end.

Definition NewTmpfs (s : sys) : call custom :=
  match s_fd s with
  | None => ccroak "Failed to open tmpfs file"
  | Some fd =>
      set_fds (λ f, {[fd]} ∪ f);;
      if negb (s_truncated s) then close fd;; ccroak "Failed to truncate tmpfs file"
      else map_file s fd "Failed to mmap tmpfs file" "Failed to initialize upb_Arena with block allocator"
  end.

Definition AttachTmpfs (s : sys) : call custom :=
  match s_fd s with
  | None => ccroak "Failed to open existing tmpfs file"
  | Some fd =>
      set_fds (λ f, {[fd]} ∪ f);;
      map_file s fd "Failed to mmap tmpfs file (read-only)" "Failed to create upb_Arena for attachment"
  end.

(** [PerlUpb_Arena_NewBlock]: the arena, and through [out_alloc] the structure and its
    region; [None] is NULL. *)
Definition NewBlock (guard : bool) (s : sys) : call (option (Z * Z * option Z)) :=
  set_allocs <[s_alloc s := if guard then 0 else s_size s]>;;
  (if guard then mret tt else safemalloc (s_region s));;
  arena ← (if guard then guard_arena s (s_alloc s) else new_arena s);
  match arena with
  | None => (if guard then mret tt else safefree (s_region s));; safefree_alloc (s_alloc s);; mret None
  | Some arena => mret (Some (arena, s_alloc s, if guard then None else Some (s_region s)))
  end.

(** [PerlUpb_Arena_DestroyRaw_Tmpfs]; with [is_tmpfs] not set it is [DestroyRaw], which
    knows nothing of the allocator. *)
Definition DestroyRaw_Tmpfs (guard : bool) (s : sys) (c : custom) (is_tmpfs : bool) : call unit :=
  if negb is_tmpfs then release_arena s (c_alloc c) (c_arena c);; safefree (c_wrapper c)
  else
    release_arena s (c_alloc c) (c_arena c);;
    match c_backing c with
    | Mapped fd map path => munmap map (s_size s);; close fd;; safefree path
    | Malloced region =>
        if guard then mret tt else match region with Some p => safefree p | None => mret tt end
    end;;
    safefree_alloc (c_alloc c);;
    safefree (c_wrapper c).

(** A structure some caller has put around an arena that [NewBlock] made, at [p]. *)
Definition custom_of (k : Z * Z * option Z) (p : Z) : custom :=
  {| c_wrapper := p; c_alloc := k.1.2; c_arena := k.1.1; c_backing := Malloced k.2 |}.

(** ** Answers about things of the hash *)

(** [PerlUpb_Arena_IsTmpfs], [GetPath] and [VerifySELinux]: [hash], what the arena's hash
    holds, if it is one; [stat], whether the file is there and regular. *)
Record arena_hash := { h_is_tmpfs : bool; h_path : option (option bytes) }.

Definition Arena_IsTmpfs (hash : option arena_hash) : bool :=
  match hash with Some h => h_is_tmpfs h | None => false end.
Definition Arena_GetPath (hash : option arena_hash) : option bytes :=
  if negb (Arena_IsTmpfs hash) then None else h ← hash; p ← h_path h; p.
Definition Arena_VerifySELinux (hash : option arena_hash) (stat : bytes → option bool) : bool :=
  match Arena_GetPath hash with
  | None => true
  | Some path => default false (stat path)
  end.

(** ** Nothing is lost *)

(** The answers are for new things. *)
Definition fresh (s : sys) (r : res) : Prop :=
  (∀ fd, s_fd s = Some fd → fd ∉ fds r) ∧ (∀ p, s_map s = Some p → maps r !! p = None ∧ arenas r !! (p + s_page s + 16) = None) ∧
  (∀ a, s_arena s = Some a → arenas r !! a = None) ∧ allocs r !! s_alloc s = None ∧
  s_path s ∉ heap r ∧ s_region s ∉ heap r ∧ s_wrapper s ∉ heap r ∧ NoDup [s_path s; s_region s; s_wrapper s].

(** A call that, when it creates an arena, leaves just what destroying it gives back, and
    when it croaks, what there was. *)
Definition balanced (guard : bool) (s : sys) (create : call custom) (r : res) : Prop :=
  match create r with
  | (Ret c, r') => DestroyRaw_Tmpfs guard s c true r' = (Ret tt, r)
  | (Croak _, r') => r' = r
  | (Fault _, _) => False
  end.

#[local] Ltac held := lazymatch goal with
  | |- is_Some _ => by eexists
  | |- ?x ∈ {[?x]} ∪ _ => by apply elem_of_union_l, elem_of_singleton
  | |- _ ∈ _ ∪ _ => apply elem_of_union_r; held
  | |- _ ∈ _ ∖ {[_]} => apply elem_of_difference; split; [held|apply not_elem_of_singleton; congruence]
  end.
#[local] Ltac run_res :=
  cbv beta iota zeta delta [mbind cmd_bind mret cmd_ret set_fds set_maps set_heap set_allocs set_arenas safemalloc
    close munmap safefree safefree_alloc guard_malloc guard_free guard_arena new_arena release_arena free_blocks
    cmodify cget cput ccroak cfault fds maps heap allocs arenas c_wrapper c_alloc c_arena c_backing custom_of fst snd negb];
  repeat (first [rewrite lookup_insert_eq|rewrite Z.add_simpl_r|rewrite Z.eqb_refl|rewrite bool_decide_eq_true_2 by held];
    cbv beta iota delta [fds maps heap allocs arenas]).

Lemma res_eq r r' : fds r = fds r' → maps r = maps r' → heap r = heap r' → allocs r = allocs r' → arenas r = arenas r' → r = r'.
Proof. destruct r, r'. simpl. by intros -> -> -> -> ->. Qed.

Lemma give_back (x : Z) (X : gset Z) : x ∉ X → ({[x]} ∪ X) ∖ {[x]} = X.
Proof. set_solver. Qed.
Lemma give_back_2 (x y : Z) (X : gset Z) : x ∉ X → y ∉ X → (({[x]} ∪ ({[y]} ∪ X)) ∖ {[y]}) ∖ {[x]} = X.
Proof. set_solver. Qed.

#[local] Ltac same_res := try apply (f_equal (pair _)); apply res_eq; cbn [fds maps heap allocs arenas];
  rewrite ?insert_insert_eq, ?delete_insert_id by done; (done || (by apply give_back) || (by apply give_back_2)).

Lemma map_file_balanced guard s r fd e1 e2 : fresh s r → fd ∉ fds r →
  balanced guard s (set_fds (λ f, {[fd]} ∪ f);; map_file s fd e1 e2) r.
Proof.
  intros (_ & Hm & Har & Ha & Hp & Hrg & Hw & Hnd) Hfd. rewrite !NoDup_cons in Hnd.
  assert (s_path s ≠ s_wrapper s) as Hpw by set_solver. unfold balanced, map_file.
  destruct (s_map s) as [p|]; [|run_res; same_res]. destruct (Hm p eq_refl) as [Hmp _]. unfold new_arena.
  destruct (s_arena s) as [a|]; [specialize (Har a eq_refl)|run_res; same_res].
  unfold DestroyRaw_Tmpfs. run_res. same_res.
Qed.

Lemma custom_eta c : {| c_wrapper := c_wrapper c; c_alloc := c_alloc c; c_arena := c_arena c; c_backing := c_backing c |} = c.
Proof. by destruct c. Qed.

(** An arena that [NewBlock] made, once some caller has put the structure around it that
    [DestroyRaw_Tmpfs] takes, at [p]. *)
Definition with_wrapper (p : Z) (r : res) : res := (safemalloc p r).2.

Definition block_balanced (guard : bool) (s : sys) (r : res) : Prop :=
  match NewBlock guard s r with
  | (Ret (Some k), r') => ∀ p, p ∉ heap r' → DestroyRaw_Tmpfs guard s (custom_of k p) true (with_wrapper p r') = (Ret tt, r)
  | (Ret None, r') => r' = r
  | _ => False
  end.

Lemma NewBlock_balanced guard s r : fresh s r → block_balanced guard s r.
Proof.
  intros (_ & Hm & Har & Ha & _ & Hrg & _ & _). unfold block_balanced, NewBlock, with_wrapper, DestroyRaw_Tmpfs.
  destruct guard; [|destruct (s_arena s) as [a|] eqn:Ea; unfold new_arena; rewrite Ea; [specialize (Har a eq_refl)|]].
  - run_res. destruct (s_map s) as [m|] eqn:Em; [destruct (Hm m eq_refl) as [Hmm Hma]|run_res; same_res].
    destruct (s_protected s) as [[] []]; run_res; [|same_res..]. intros p Hp. run_res. same_res.
  - intros p Hp. destruct r. cbn [heap] in Hp, Hrg. apply not_elem_of_union in Hp as [Hne Hp].
    apply not_elem_of_singleton in Hne. run_res. same_res.
  - run_res. same_res.
Qed.

(** C26: creating an arena over a file or memory, and the C destructor of such arenas, are
    balanced.  Whatever the system answers at each step of creating an arena in a new file
    or attaching to an existing one, the call either makes the arena, and
    [PerlUpb_Arena_DestroyRaw_Tmpfs(…, true)] then closes, unmaps and frees exactly what was
    taken, with nothing freed twice, or it fails and everything it had taken is given back.
    The same holds of [PerlUpb_Arena_NewBlock], over a heap block or between guard pages,
    whose arena a caller has put into the structure that the destructor takes.  (Nothing is
    said of what is allocated in the arena after it is made; with guard pages a second block
    is not given back, [second_guarded_block].) *)
Theorem tmpfs_resources_balanced guard s r : fresh s r →
  balanced guard s (NewTmpfs s) r ∧ balanced guard s (AttachTmpfs s) r ∧ block_balanced guard s r.
Proof.
  intros Hf. split_and!; [| |by apply NewBlock_balanced].
  - unfold NewTmpfs. destruct (s_fd s) as [fd|] eqn:Efd; [|done].
    assert (fd ∉ fds r) as Hfd by (by apply Hf). destruct (s_truncated s); cbn [negb].
    + by apply map_file_balanced.
    + unfold balanced. run_res. same_res.
  - unfold AttachTmpfs. destruct (s_fd s) as [fd|] eqn:Efd; [|done]. apply map_file_balanced; [done|by apply Hf].
Qed.

Definition some_sys : sys :=
  {| s_fd := Some 3; s_truncated := true; s_map := Some 8192; s_protected := (true, true); s_arena := Some 16;
     s_alloc := 32; s_path := 48; s_region := 64; s_wrapper := 80; s_size := 100; s_page := 4096; s_first := 352 |}.
Definition no_res : res := {| fds := {[0; 1; 2]}; maps := ∅; heap := ∅; allocs := ∅; arenas := ∅ |}.

Lemma tmpfs_resources_balanced_witness :
  balanced true some_sys (NewTmpfs some_sys) no_res ∧ balanced true some_sys (AttachTmpfs some_sys) no_res ∧
  block_balanced true some_sys no_res.
Proof.
  apply (tmpfs_resources_balanced true some_sys no_res). unfold fresh, some_sys, no_res; simpl.
  split_and!; [intros ? [= <-]; by_compute|intros ? [= <-]; split; by_compute|intros ? [= <-]; by_compute|by_compute..].
Defined.

(** Between guard pages the destructor finds one mapping made, and nothing left. *)
Example guarded_block :
  let '(out, r) := NewBlock true some_sys no_res in
  out = Ret (Some (12304, 32, None)) ∧ maps r = {[8192 := 8544]} ∧ allocs r = {[32 := 8544]} ∧
  maps (DestroyRaw_Tmpfs true some_sys (custom_of (12304, 32, None) 80) true (with_wrapper 80 r)).2 = ∅.
Proof. by vm_compute. Qed.

(** The size of a mapping is kept once for all blocks: a second, bigger block is mapped at
    65536, and giving back the first asks for more than it has. *)
Example second_guarded_block :
  let s2 := {| s_fd := None; s_truncated := true; s_map := Some 65536; s_protected := (true, true); s_arena := None;
     s_alloc := 32; s_path := 48; s_region := 64; s_wrapper := 80; s_size := 100; s_page := 4096; s_first := 0 |} in
  (NewBlock true some_sys;; guard_malloc s2 32 1000;; guard_free some_sys 32 12288) no_res =
  (Fault "munmap of what lies behind",
   {| fds := {[0; 1; 2]}; maps := {[8192 := 8544; 65536 := 9192]}; heap := ∅; allocs := {[32 := 9192]};
      arenas := {[12304 := [12288]]} |}).
Proof. by vm_compute. Qed.

(** Destroyed as if it were an ordinary arena, as [arena_cleanup] does with every arena it
    is called for, a file-backed one keeps its descriptor, its mapping, its path and the
    allocator's structure. *)
Example ordinary_destroy_leaks :
  let '(out, r) := (c ← NewTmpfs some_sys; DestroyRaw_Tmpfs false some_sys c false) no_res in
  out = Ret tt ∧ fds r = {[0; 1; 2; 3]} ∧ maps r = {[8192 := 100]} ∧ heap r = {[48]} ∧ allocs r = {[32 := 100]}.
Proof. by vm_compute. Qed.

(** The variable set to nothing turns guard pages on; the size to fall back on is never
    used when [sysconf] fails. *)
Example environment_answers :
  map use_guard_pages [None; Some (str "0"); Some (str "1"); Some []] = [false; false; true; true] ∧
  page_size 4096 = 4096 ∧ page_size (-1) = SIZE_MAX.
Proof. by vm_compute. Qed.
