(* ===== verification/ArenaRaw.v ===== *)
(** * Arena structures and their statistics (xs/protobuf/arena.c)

    The C structures behind Perl's arena objects: making one over a new arena or over an
    arena that exists, destroying it, and what [stats] and [space_reserved] say of it. *)

From S2P Require Import Prelude Arena.

(** [PerlUpb_Arena] or, with [custom], the [PerlUpb_Arena_Custom] it is the first member
    of, with the size and the offset of its block allocator.  The statistics of a custom
    structure are never written: [None]. *)
Record raw := { r_arena : option Z; r_stats : option Stats.StatsAlloc; custom : option (Z * Z) }.

Record world := { raws : gmap Z raw; live : gset Z }.

Notation call := (cmd world).

Definition set_raws (f : gmap Z raw → gmap Z raw) : call unit :=
  cmodify (λ w, {| raws := f (raws w); live := live w |}).

(** [upb_Arena_Init]: [answer] is what it returns. *)
Definition Arena_Init (answer : option Z) : call (option Z) :=
  match answer with
  | None => mret None
  | Some a => cmodify (λ w, {| raws := raws w; live := {[a]} ∪ live w |});; mret (Some a)
  end.

Definition Arena_Free (a : Z) : call unit :=
  w ← cget;
  if bool_decide (a ∈ live w) then cput {| raws := raws w; live := live w ∖ {[a]} |}
  else cfault "free of a freed arena".

Definition safefree (p : Z) : call unit :=
  w ← cget;
  if bool_decide (is_Some (raws w !! p)) then set_raws (delete p) else cfault "double free".

Definition raw_at (p : Z) : call raw :=
  w ← cget;
  match raws w !! p with Some r => mret r | None => cfault "use after free" end.

(** ** Making and destroying *)

(** [PerlUpb_Arena_CreateRaw], with [PerlUpb_Arena_AcquireWithStats]: [block] is what
    [safemalloc] answers. *)
Definition CreateRaw (block answer : option Z) : call Z :=
  match block with
  | None => ccroak "Failed to allocate PerlUpb_Arena"
  | Some p =>
      set_raws (<[p := {| r_arena := None; r_stats := Some Stats.init; custom := None |}]>);;
      a ← Arena_Init answer;
      match a with
      | None => safefree p;; ccroak "Failed to acquire upb_Arena"
      | Some a =>
          set_raws (<[p := {| r_arena := Some a; r_stats := Some Stats.init; custom := None |}]>);; mret p
      end
  end.

Definition CreateRawFromUpb (block arena : option Z) : call Z :=
  match block with
  | None => ccroak "Failed to allocate PerlUpb_Arena"
  | Some p =>
      set_raws (<[p := {| r_arena := arena; r_stats := Some Stats.init; custom := None |}]>);; mret p
  end.

Definition GetRaw (p : Z) : call (option Z) :=
  if p =? 0 then mret None else r ← raw_at p; mret (r_arena r).

Definition DestroyRaw (p : Z) : call unit :=
  if p =? 0 then mret tt
  else
    r ← raw_at p;
    match r_arena r with
    | Some a =>
        Arena_Free a;; set_raws (<[p := {| r_arena := None; r_stats := r_stats r; custom := custom r |}]>)
    | None => mret tt
    end;;
    safefree p.

(** The statistics of the structure, as its allocator leaves them. *)
Definition set_stats (p : Z) (s : Stats.StatsAlloc) : call unit :=
  r ← raw_at p; set_raws (<[p := {| r_arena := r_arena r; r_stats := Some s; custom := custom r |}]>).

(** ** Statistics *)

(** What the hash of an arena object says: [_arena_ptr], if it is an integer, and
    whether [_is_tmpfs] is true. *)
Record arena_hash := { h_ptr : option Z; h_tmpfs : bool }.

Record ArenaStats := { allocated : Z; reserved : Z; blocks : Z }.

Definition no_stats : ArenaStats := {| allocated := 0; reserved := 0; blocks := 0 |}.

(** [PerlUpb_Arena_GetStats]: [None] is not a reference, and [stats] is left as it was. *)
Definition GetStats (hash : option arena_hash) (stats : ArenaStats) : call ArenaStats :=
  match hash with
  | None => mret stats
  | Some h =>
      match h_ptr h with
      | None => mret no_stats
      | Some p =>
          r ← raw_at p;
          if h_tmpfs h then
            match custom r with
            | Some (size, offset) => mret {| allocated := offset; reserved := size; blocks := 1 |}
            | None => cfault "read past a PerlUpb_Arena"
            end
          else
            match r_stats r with
            | Some s => mret {| allocated := Stats.total_reserved s; reserved := Stats.total_reserved s;
                                blocks := Stats.total_blocks s |}
            | None => cfault "read of statistics never written"
            end
      end
  end.

(** [PerlUpb_Arena_SpaceReserved]: [garbage] is what its variable holds at first. *)
Definition SpaceReserved (hash : option arena_hash) (garbage : ArenaStats) : call Z :=
  stats ← GetStats hash garbage; mret (reserved stats).

(** [PerlUpb_Arena_SpaceAllocated], once [PerlUpb_Arena_Get] has taken its argument for
    an arena object: [space] is [upb_Arena_SpaceAllocated]. *)
Definition SpaceAllocated (space : Z → Z) (h : arena_hash) : call Z :=
  match h_ptr h with
  | None => mret 0
  | Some p => r ← raw_at p; mret (match r_arena r with Some a => space a | None => 0 end)
  end.

(** ** Properties *)

#[local] Ltac run_raw :=
  cbv beta iota zeta delta [mbind cmd_bind mret cmd_ret set_raws Arena_Init Arena_Free safefree raw_at cmodify cget
    cput ccroak cfault raws live r_arena r_stats custom].

Lemma world_eq w w' : raws w = raws w' → live w = live w' → w = w'.
Proof. destruct w, w'. simpl. by intros -> ->. Qed.

(** Making a structure either fails and leaves everything as it was, or makes one that
    destroying takes away again, with its arena, whatever its allocator counted in
    between. *)
Lemma CreateRaw_balanced w block answer :
  (∀ p, block = Some p → p ≠ 0 ∧ raws w !! p = None) → (∀ a, answer = Some a → a ∉ live w) →
  match CreateRaw block answer w with
  | (Ret p, w') => ∀ s, (set_stats p s;; DestroyRaw p) w' = (Ret tt, w)
  | (Croak _, w') => w' = w
  | (Fault _, _) => False
  end.
Proof.
  destruct w as [m l]; simpl. intros Hb Ha. unfold CreateRaw. destruct block as [p|]; [|done]. destruct (Hb p eq_refl) as [Hp Hn].
  destruct answer as [a|]; run_raw.
  - intros s. unfold set_stats, DestroyRaw. rewrite (proj2 (Z.eqb_neq p 0)) by done.
    repeat (run_raw; rewrite lookup_insert_eq). run_raw.
    rewrite bool_decide_eq_true_2 by set_solver. run_raw. rewrite !lookup_insert_eq.
    rewrite bool_decide_eq_true_2 by done. run_raw. f_equal. apply world_eq; cbn [raws live].
    + by rewrite !insert_insert_eq, delete_insert_id.
    + specialize (Ha a eq_refl). set_solver.
  - rewrite lookup_insert_eq, bool_decide_eq_true_2 by done. run_raw. apply world_eq; cbn [raws live]; [|done].
    by rewrite delete_insert_id.
Qed.

(** What a managed arena reports is what its allocator counted: never less than what is
    allocated. *)
Lemma GetStats_managed w p r s h freed garbage :
  rtc Stats.step (Stats.init, ∅, 0) (s, h, freed) → raws w !! p = Some r → r_stats r = Some s →
  ∃ stats, GetStats (Some {| h_ptr := Some p; h_tmpfs := false |}) garbage w = (Ret stats, w) ∧
    reserved stats = map_sum h + freed ∧ allocated stats = reserved stats.
Proof.
  intros Hr Hp Hs. destruct (Stats.stats_reachable _ Hr) as [E _].
  destruct w as [m l]; simpl in Hp.
  eexists. unfold GetStats, h_ptr, h_tmpfs. run_raw. rewrite Hp.
  destruct r as [? ? ?]; simpl in Hs; subst. run_raw. by split_and!.
Qed.

(** An arena that was made by upb and wrapped afterwards reports no memory, whatever it
    holds: its allocator is not the one that counts. *)
Lemma wrapped_reports_nothing w p a garbage :
  let '(out, w') := CreateRawFromUpb (Some p) (Some a) w in
  out = Ret p ∧ GetStats (Some {| h_ptr := Some p; h_tmpfs := false |}) garbage w' = (Ret no_stats, w').
Proof.
  unfold CreateRawFromUpb, GetStats, h_ptr, h_tmpfs. run_raw. rewrite lookup_insert_eq. by split.
Qed.

(** A file-backed arena that was detached and attached again has lost its flag: its
    statistics are read from memory nobody wrote, and its space is not the file's. *)
Example reattached_stats :
  let w := {| raws := {[ 64 := {| r_arena := Some 16; r_stats := None; custom := Some (4096, 128) |} ]}; live := {[16]} |} in
  (GetStats (Some {| h_ptr := Some 64; h_tmpfs := true |}) no_stats w).1 =
    Ret {| allocated := 128; reserved := 4096; blocks := 1 |} ∧
  (GetStats (Some {| h_ptr := Some 64; h_tmpfs := false |}) no_stats w).1 = Fault "read of statistics never written" ∧
  (SpaceReserved None {| allocated := 1; reserved := 2; blocks := 3 |} w).1 = Ret 2.
Proof. done. Qed.
