(* ===== verification/ManagedArenas.v ===== *)
(** * The arenas of Perl's objects (xs/protobuf/arena.c over upb/mem/arena.c)

    The C structures behind Perl's arena objects with what is in them: an arena of upb and
    the counting allocator that it takes its blocks from, all on one heap.  [ArenaRaw] has
    the same calls with arenas as mere addresses, and [Arena.Wrapper] the Perl objects. *)

From S2P Require Import Prelude UpbArena.
From S2P Require Arena ArenaRaw.

#[local] Open Scope Z_scope.

Abbreviation StatsAlloc := Arena.Stats.StatsAlloc.

(** [PerlUpb_Arena]. *)
Record PerlUpb_Arena := { r_arena : upb_Arena; r_stats : StatsAlloc }.

(** The heap of the process, its bytes, and the structures in the order they were made,
    which stands for their addresses; [None]: freed. *)
Record objects := { o_heap : gmap Z Z; o_memory : Z → Z; structs : list (option PerlUpb_Arena) }.

(** What is held of each structure. *)
Abbreviation holdings := (list (option held)).

Section Objects.
Context (place : gmap Z Z → Z → option Z) (draw : gmap Z Z → bool).
Context (max_block_size : Z) (ndebug : bool).

Definition source_of_objects : upb_alloc counted := counted_source place draw.
#[local] Existing Instance source_of_objects.

(** An arena of the structures with its allocator. *)
Definition world_of (w : objects) (r : PerlUpb_Arena) : aworld counted :=
  Build_aworld (r_arena r) {| stats := r_stats r; heap := o_heap w; memory := o_memory w |}.
Definition put_struct (w : objects) (i : nat) (aw : aworld counted) : objects :=
  {| o_heap := heap (source aw); o_memory := memory (source aw);
     structs := <[i := Some {| r_arena := arena aw; r_stats := stats (source aw) |}]> (structs w) |}.

Definition struct_at (i : nat) : cmd objects PerlUpb_Arena :=
  w ← cget;
  match structs w !! i with Some (Some r) => mret r | _ => cfault "use after free" end.

(** A call of upb with the arena [PerlUpb_Arena_GetRaw] answers. *)
Definition on_arena {A} (i : nat) (m : cmd (aworld counted) A) : cmd objects A := λ w,
  match structs w !! i with
  | Some (Some r) => let '(out, aw) := m (world_of w r) in (out, put_struct w i aw)
  | _ => (Fault "use after free", w)
  end.

(** [PerlUpb_Arena_CreateRaw], with [PerlUpb_Arena_AcquireWithStats]; [safemalloc] never
    answers NULL. *)
Definition CreateRaw : cmd objects nat := λ w,
  let '(out, c) := Arena_Init ndebug 0 {| stats := Arena.Stats.init; heap := o_heap w; memory := o_memory w |} in
  let left := {| o_heap := heap c; o_memory := memory c; structs := structs w |} in
  match out with
  | Ret (Some a) =>
      (Ret (length (structs w)),
       {| o_heap := heap c; o_memory := memory c; structs := structs w ++ [Some {| r_arena := a; r_stats := stats c |}] |})
  | Ret None => (Croak "Failed to acquire upb_Arena", left)
  | Croak msg => (Croak msg, left)
  | Fault why => (Fault why, left)
  end.

(** [PerlUpb_Arena_DestroyRaw]. *)
Definition DestroyRaw (i : nat) : cmd objects unit :=
  on_arena i (aw ← cget; on_source (Arena_Free (arena aw)));;
  cmodify (λ w, {| o_heap := o_heap w; o_memory := o_memory w; structs := <[i := None]> (structs w) |}).

(** [PerlUpb_Arena_GetStats] and [PerlUpb_Arena_SpaceAllocated] of a managed arena. *)
Definition GetStats (i : nat) : cmd objects ArenaRaw.ArenaStats :=
  r ← struct_at i;
  mret {| ArenaRaw.allocated := Arena.Stats.total_reserved (r_stats r);
          ArenaRaw.reserved := Arena.Stats.total_reserved (r_stats r);
          ArenaRaw.blocks := Arena.Stats.total_blocks (r_stats r) |}.
Definition SpaceAllocated (i : nat) : cmd objects Z := r ← struct_at i; mret (Arena_SpaceAllocated (r_arena r)).

(** [stats_alloc.poisoned = b]. *)
Definition with_poisoned (b : bool) (s : StatsAlloc) : StatsAlloc :=
  {| Arena.Stats.total_reserved := Arena.Stats.total_reserved s; Arena.Stats.total_blocks := Arena.Stats.total_blocks s;
     Arena.Stats.historical_max_size := Arena.Stats.historical_max_size s; Arena.Stats.poisoned := b;
     Arena.Stats.fail_armed := Arena.Stats.fail_armed s |}.
Definition set_poisoned (i : nat) (b : bool) : cmd objects unit :=
  on_arena i (on_source (cmodify (λ c, {| stats := with_poisoned b (stats c); heap := heap c; memory := memory c |}))).

(** ** Clients

    Who holds a structure uses it until it is destroyed. *)
Inductive oop := OCreate | OUse (i : nat) (op : aop) | OStats (i : nat) | OPoison (i : nat) (b : bool) | ODestroy (i : nat).
Inductive reply := RMade | RFailed | RGiven (g : given) | RStats (s : ArenaRaw.ArenaStats) (space : Z) | RDone | RNone.

Definition held_of (hss : holdings) (i : nat) : option held := match hss !! i with Some (Some hs) => Some hs | _ => None end.

Definition run_oop (hss : holdings) (op : oop) : cmd objects (reply * holdings) :=
  match op with
  | OCreate => λ w,
      match CreateRaw w with
      | (Ret _, w) => (Ret (RMade, hss ++ [Some []]), w)
      | (Croak _, w) => (Ret (RFailed, hss), w)
      | (Fault why, w) => (Fault why, w)
      end
  | OUse i op =>
      match held_of hss i with
      | Some hs => '(g, hs) ← on_arena i (run_aop max_block_size hs op); mret (RGiven g, <[i := Some hs]> hss)
      | None => mret (RNone, hss)
      end
  | OStats i =>
      match held_of hss i with
      | Some _ => s ← GetStats i; space ← SpaceAllocated i; mret (RStats s space, hss)
      | None => mret (RNone, hss)
      end
  | OPoison i b =>
      match held_of hss i with
      | Some _ => set_poisoned i b;; mret (RDone, hss)
      | None => mret (RNone, hss)
      end
  | ODestroy i =>
      match held_of hss i with
      | Some _ => DestroyRaw i;; mret (RDone, <[i := None]> hss)
      | None => mret (RNone, hss)
      end
  end.
Fixpoint run_oops (hss : holdings) (ops : list oop) : cmd objects (list reply * holdings) :=
  match ops with
  | [] => mret ([], hss)
  | op :: ops =>
      '(r, hss) ← run_oop hss op;
      '(rs, hss) ← run_oops hss ops;
      mret (r :: rs, hss)
  end.
End Objects.

(** ** What it should be: objects with buffers of their own *)
Abbreviation owners := (list (option (list buffer))).
Definition buffers_of (ss : owners) (i : nat) : option (list buffer) := match ss !! i with Some (Some bs) => Some bs | _ => None end.

Definition spec_oop (op : oop) (ss : owners) (r : reply) (ss' : owners) : Prop :=
  match op with
  | OCreate => r = RMade ∧ ss' = ss ++ [Some []] ∨ r = RFailed ∧ ss' = ss
  | OUse i op =>
      match buffers_of ss i with
      | Some bs => ∃ g bs', r = RGiven g ∧ spec_aop op bs g bs' ∧ ss' = <[i := Some bs']> ss
      | None => r = RNone ∧ ss' = ss
      end
  | OStats i =>
      ss' = ss ∧
      match buffers_of ss i with
      | Some _ => ∃ s, r = RStats s (ArenaRaw.reserved s) ∧ ArenaRaw.allocated s = ArenaRaw.reserved s
      | None => r = RNone
      end
  | OPoison i b => ss' = ss ∧ r = match buffers_of ss i with Some _ => RDone | None => RNone end
  | ODestroy i =>
      match buffers_of ss i with
      | Some _ => r = RDone ∧ ss' = <[i := None]> ss
      | None => r = RNone ∧ ss' = ss
      end
  end.
Inductive spec_oops : list oop → owners → list reply → owners → Prop :=
  | no_oops ss : spec_oops [] ss [] ss
  | more_oops op ops ss r ss1 rs ss2 :
      spec_oop op ss r ss1 → spec_oops ops ss1 rs ss2 → spec_oops (op :: ops) ss (r :: rs) ss2.

(** ** Properties *)

Section Sound.
Context (place : gmap Z Z → Z → option Z) (draw : gmap Z Z → bool).
Context (max_block_size : Z) (ndebug : bool).
#[local] Existing Instance source_of_objects.
#[local] Instance src : upb_alloc counted := source_of_objects place draw.

(** *** The statistics are the arena's *)
Definition agree (aw : aworld counted) : Prop :=
  Arena.Stats.total_reserved (stats (source aw)) = space_allocated (arena aw) ∧
  Arena.Stats.total_blocks (stats (source aw)) = u64 (Z.of_nat (length (blocks (arena aw)))).

Lemma agree_bind {A B} (m : cmd (aworld counted) A) (k : A → cmd (aworld counted) B) aw :
  agree (m aw).2 → (∀ a aw', m aw = (Ret a, aw') → agree aw' → agree (k a aw').2) → agree ((m ≫= k) aw).2.
Proof. unfold mbind, cmd_bind. destruct (m aw) as [[a| |] aw']; eauto. Qed.

(** What leaves the statistics alone, or moves no more than the pointer. *)
Lemma agree_source {A} (m : cmd counted A) aw : stats (m (source aw)).2 = stats (source aw) → agree aw →
  agree (on_source m aw).2.
Proof. unfold on_source, agree. by destruct (m (source aw)) as [out c]; simpl; intros ->. Qed.

Lemma agree_set a aw : agree aw → space_allocated a = space_allocated (arena aw) →
  length (blocks a) = length (blocks (arena aw)) → agree (set_arena a aw).2.
Proof. unfold agree. simpl. by intros [-> ->] -> ->. Qed.

Lemma store_all_stats l : ∀ dst c, stats (store_all dst l c).2 = stats c.
Proof.
  induction l as [|v l IH]; intros dst c; [done|]. cbn [store_all]. unfold mbind, cmd_bind.
  assert (stats (store dst v c).2 = stats c) as Hs by (cbn; unfold counted_store; by case_match).
  destruct (store dst v c) as [[[]| |] c'] eqn:E; simpl in *; [|done..]. by rewrite IH.
Qed.

Lemma memcpy_stats dst s n c : stats (memcpy dst s n c).2 = stats c.
Proof. unfold memcpy. case_match; [done|]. unfold mbind, cmd_bind. simpl. apply store_all_stats. Qed.

(** A block more, and its bytes. *)
Lemma SizeReturningMalloc_stats n c :
  let '(out, c') := SizeReturningMalloc n c in
  match out with
  | Ret (Some p, k) =>
      k = n ∧ Arena.Stats.total_reserved (stats c') = u64 (Arena.Stats.total_reserved (stats c) + n) ∧
      Arena.Stats.total_blocks (stats c') = u64 (Arena.Stats.total_blocks (stats c) + 1)
  | _ => stats c' = stats c
  end.
Proof.
  unfold SizeReturningMalloc, mbind, cmd_bind. cbn. unfold counted_call, Arena.Stats.stats_alloc_func.
  destruct (_ && _); [done|]. destruct (n =? 0); [done|]. destruct (_ && _); [done|]. rewrite bind_Ret.
  destruct (place (heap c) n) as [p|]; [|done]. cbn. unfold Arena.Stats.bump_max, Arena.Stats.with_reserved.
  rewrite Z.max_id. by split_and!.
Qed.

Lemma agree_block aw size : agree aw →
  let '(out, aw') := on_source (SizeReturningMalloc size) aw in
  match out with
  | Ret (Some _, k) => ∀ a, space_allocated a = u64 (space_allocated (arena aw') + k) →
      length (blocks a) = S (length (blocks (arena aw'))) → agree (Build_aworld a (source aw'))
  | _ => agree aw'
  end.
Proof.
  intros [Ht Hb]. pose proof (SizeReturningMalloc_stats size (source aw)) as Hs. unfold on_source.
  destruct (SizeReturningMalloc size (source aw)) as [[[[p|] k]| |] c'].
  2-4: by split; cbn [arena source]; rewrite Hs.
  destruct Hs as (-> & H1 & H2). intros a Ha Hl. split; cbn [arena source] in *; [by rewrite H1, Ht, Ha|].
  rewrite H2, Hb, Hl. unfold u64. rewrite Zplus_mod_idemp_l. f_equal. lia.
Qed.

Lemma agree_SlowMalloc again size aw : (∀ aw, agree aw → agree (again aw).2) → agree aw →
  agree (SlowMalloc max_block_size again size aw).2.
Proof.
  intros Hagain Ha. unfold SlowMalloc. rewrite (cbind_ret _ _ aw aw aw) by done.
  destruct (next_block _ _ _) as [[behind bs] hint].
  set (aw1 := Build_aworld (with_hint (arena aw) hint) (source aw)). rewrite (cbind_ret _ _ aw tt aw1) by done.
  pose proof (agree_block aw1 bs Ha) as Hb. unfold mbind at 1. unfold cmd_bind at 1.
  destruct (on_source (SizeReturningMalloc bs) aw1) as [[[[p|] k]| |] aw2]; [|done..].
  rewrite (cbind_ret _ _ aw2 aw2 aw2) by done. destruct behind.
  - apply Hb; [done|]. unfold add_behind. simpl. by destruct (blocks (arena aw2)).
  - rewrite (cbind_ret _ _ aw2 tt (Build_aworld (AddBlock (with_hint (count_space (arena aw2) k) k) p kUpb_MemblockReserve k) (source aw2)))
      by done.
    apply Hagain, Hb; done.
Qed.

Lemma agree_Malloc n aw : agree aw → agree (Arena_Malloc max_block_size n aw).2.
Proof.
  unfold Arena_Malloc. generalize 1%nat. intros depth. revert n aw.
  induction depth as [|depth IH]; intros n aw Ha; cbn [Malloc_in]; rewrite (cbind_ret _ _ aw aw aw) by done.
  - case_match; [done|]. apply agree_bind; [by apply agree_set|]. by intros [] aw' [= <-].
  - case_match; [apply agree_SlowMalloc; auto|]. apply agree_bind; [by apply agree_set|]. by intros [] aw' [= <-].
Qed.

Lemma agree_TryExtend p k n aw : agree aw → agree (Arena_TryExtend p k n aw).2.
Proof. intros Ha. unfold Arena_TryExtend. rewrite (cbind_ret _ _ aw aw aw) by done. by case_match. Qed.

Lemma agree_ShrinkLast p k n aw : agree aw → agree (Arena_ShrinkLast p k n aw).2.
Proof. intros Ha. unfold Arena_ShrinkLast. rewrite (cbind_ret _ _ aw aw aw) by done. by case_match. Qed.

Lemma agree_Realloc p k n aw : agree aw → agree (Arena_Realloc max_block_size p k n aw).2.
Proof.
  intros Ha. unfold Arena_Realloc. apply agree_bind.
  { destruct p; [|done]. case_match; [done|by apply agree_TryExtend]. }
  intros in_place aw1 _ Ha1. destruct p as [p|]; [destruct in_place|].
  - rewrite (cbind_ret _ _ aw1 aw1 aw1) by done. apply agree_bind; [|done].
    case_match; [by apply agree_ShrinkLast|done].
  - apply agree_bind; [by apply agree_Malloc|]. intros [q|] aw2 _ Ha2; [|done].
    apply agree_bind; [|done]. case_match; [|done]. apply agree_source; [apply memcpy_stats|done].
  - apply agree_bind; [by apply agree_Malloc|]. intros [q|] aw2 _ Ha2; [|done]. by case_match.
Qed.

Lemma agree_aop hs op aw : agree aw → agree (run_aop max_block_size hs op aw).2.
Proof.
  intros Ha. destruct op as [n|i n|i n|i n|i off v|i off]; cbn [run_aop].
  { apply agree_bind; [by apply agree_Malloc|done]. }
  all: destruct (hs !! i) as [[p k]|]; [|done].
  - apply agree_bind; [by apply agree_Realloc|done].
  - case_match; [|done]. apply agree_bind; [by apply agree_TryExtend|done].
  - case_match; [|done]. apply agree_bind; [by apply agree_ShrinkLast|done].
  - case_match; [|done]. apply agree_bind; [|done]. apply agree_source; [|done]. cbn. unfold counted_store. by case_match.
  - by case_match.
Qed.

Lemma agree_Init w a c : Arena_Init ndebug 0 {| stats := Arena.Stats.init; heap := o_heap w; memory := o_memory w |} = (Ret (Some a), c) →
  agree (Build_aworld a c).
Proof.
  unfold Arena_Init. set (c0 := {| stats := _; heap := _; memory := _ |}). set (size := u64 _).
  pose proof (SizeReturningMalloc_stats size c0) as Hs. unfold mbind, cmd_bind.
  destruct (SizeReturningMalloc size c0) as [[[[p|] k]| |] c1]; [|done..]. intros [= <- <-].
  destruct Hs as (-> & H1 & H2). split; [|exact H2]. cbn [source arena AddBlock space_allocated].
  rewrite H1. apply u64_small. unfold size. cbn [Arena.Stats.total_reserved stats c0 Arena.Stats.init].
  match goal with |- context [u64 ?x] => pose proof (u64_bound x) end. lia.
Qed.

(** *** One heap *)
Hypothesis place_ok : ∀ h n a, heap_ok h → 0 < n ≤ 2 ^ 60 → place h n = Some a → h !! a = None ∧ heap_ok (<[a := n]> h).
Hypothesis max_block_bound : 0 ≤ max_block_size ≤ MAX_REQUEST.
#[local] Instance laws : AllocLaws counted := counted_laws place draw place_ok.

(** The heap without the blocks of an arena. *)
Definition frame_of (l : list (Z * Z)) (h : gmap Z Z) : gmap Z Z := foldr (λ b, delete b.1) h l.

Lemma frame_of_lookup l h p : frame_of l h !! p = if decide (p ∈ l.*1) then None else h !! p.
Proof.
  induction l as [|[b n] l IH].
  { destruct (decide _) as [Hin|]; [by apply elem_of_nil in Hin|done]. }
  change (frame_of ((b, n) :: l) h) with (delete b (frame_of l h)). rewrite fmap_cons. cbn [fst].
  destruct (decide (p = b)) as [->|Hne].
  - rewrite lookup_delete_eq, decide_True by (by left). done.
  - rewrite lookup_delete_ne, IH by done.
    destruct (decide (p ∈ l.*1)), (decide (p ∈ b :: l.*1)) as [Hin|Hin]; [done|by destruct Hin; right| |done].
    by apply elem_of_cons in Hin as [].
Qed.

Lemma with_blocks_other l f p : p ∉ l.*1 → with_blocks l f !! p = f !! p.
Proof.
  induction l as [|[b n] l IH]; csimpl; [done|]. intros [Hne Hp]%not_elem_of_cons. by rewrite lookup_insert_ne; [apply IH|].
Qed.

Lemma with_frame_of l h : NoDup l.*1 → (∀ b n, (b, n) ∈ l → h !! b = Some n) → with_blocks l (frame_of l h) = h.
Proof.
  intros Hd Hl. apply map_eq. intros p. destruct (decide (p ∈ l.*1)) as [Hp|Hp].
  - apply list_elem_of_fmap in Hp as ([b n] & -> & Hin). cbn [fst]. by rewrite (with_blocks_lookup _ _ b n), (Hl b n).
  - by rewrite with_blocks_other, frame_of_lookup, decide_False.
Qed.

(** A structure, what is held of it, and the buffers that stands for. *)
Record good_struct (w : objects) (r : PerlUpb_Arena) (hs : held) (bs : list buffer) : Prop := {
  gs_inv : ∃ st, ainv (world_of w r) (frame_of (blocks (r_arena r)) (o_heap w)) (st :: hs);
  gs_holds : holds (source (world_of w r)) hs bs;
  gs_agree : agree (world_of w r) }.

Definition slot_ok (w : objects) (o : option PerlUpb_Arena) (x : option (held * list buffer)) : Prop :=
  match o, x with
  | Some r, Some (hs, bs) => good_struct w r hs bs
  | None, None => True
  | _, _ => False
  end.
Definition blocks_of (o : option PerlUpb_Arena) : list (Z * Z) := match o with Some r => blocks (r_arena r) | None => [] end.

(** Every block belongs to one structure, or was there before: [h0], with the bytes [m0]. *)
Record good (h0 : gmap Z Z) (m0 : Z → Z) (w : objects) (hss : holdings) (ss : owners) : Prop := {
  g_heap : heap_ok (o_heap w);
  g_len : length hss = length (structs w) ∧ length ss = length (structs w);
  g_slot : ∀ i o, structs w !! i = Some o → ∃ x, hss !! i = Some (fst <$> x) ∧ ss !! i = Some (snd <$> x) ∧ slot_ok w o x;
  g_apart : ∀ i j o o' p, i ≠ j → structs w !! i = Some o → structs w !! j = Some o' →
    p ∈ (blocks_of o).*1 → p ∉ (blocks_of o').*1;
  g_others : ∀ p n, h0 !! p = Some n →
    o_heap w !! p = Some n ∧ ∀ i o, structs w !! i = Some o → p ∉ (blocks_of o).*1;
  g_owned : ∀ p n, o_heap w !! p = Some n →
    h0 !! p = Some n ∨ ∃ i o, structs w !! i = Some o ∧ p ∈ (blocks_of o).*1;
  g_bytes : ∀ a, in_blocks h0 a → o_memory w a = m0 a }.

Lemma good_blocks w r hs bs : good_struct w r hs bs →
  NoDup (blocks (r_arena r)).*1 ∧ ∀ b n, (b, n) ∈ blocks (r_arena r) → o_heap w !! b = Some n.
Proof.
  intros [[st Hi] _ _]. pose proof (lo_keys _ _ (ai_laid _ _ _ Hi)) as Hd. split; [done|]. intros b n Hb.
  destruct (ai_owns _ _ _ Hi) as [_ Ho]. cbn [world_of arena source heap] in Ho. rewrite <- Ho. by apply with_blocks_lookup.
Qed.

(** A structure whose blocks are in a part of the heap that is left alone stays good. *)
Lemma good_kept w w' r hs bs f : good_struct w r hs bs →
  (∀ b n, (b, n) ∈ blocks (r_arena r) → f !! b = Some n) → (∀ p n, f !! p = Some n → o_heap w' !! p = Some n) →
  heap_ok (o_heap w') → (∀ a, in_blocks f a → o_memory w' a = o_memory w a) → good_struct w' r hs bs.
Proof.
  intros Hg Hf Hh Hok Hm. destruct (good_blocks _ _ _ _ Hg) as [Hd _]. destruct Hg as [[st Hi] Hhs Ha]. split.
  - exists st. destruct Hi as [_ [Hk _ Hc Hsp] Hp Hap]. split; [|split|done|done]; cbn [world_of arena source] in *.
    + split; [done|]. apply with_frame_of; [done|]. intros b n Hb. by apply Hh, Hf.
    + done.
    + intros b n Hb. rewrite frame_of_lookup, decide_True; [done|]. apply list_elem_of_fmap. by exists (b, n).
    + done.
    + done.
  - eapply holds_same; [exact Hhs|]. intros j y a Hy Hin. apply Hm.
    destruct (ai_placed _ _ _ Hi (S j) y Hy) as [Hb [?|(_ & (b & n & Hbn & ?) & _)]]; [lia|].
    destruct (align_spec y.2) as [? _]; [unfold MAX_REQUEST in Hb; lia|]. exists b, n. split; [by apply Hf|lia].
  - done.
Qed.

Lemma key_in (l : list (Z * Z)) b n : (b, n) ∈ l → b ∈ l.*1.
Proof. intros Hin. apply list_elem_of_fmap. by exists (b, n). Qed.

(** The blocks of the other structures, and of the others, are in the frame of one. *)
Lemma slot_frame h0 m0 w hss ss i j o o' b n : good h0 m0 w hss ss → i ≠ j → structs w !! i = Some o → structs w !! j = Some o' →
  (b, n) ∈ blocks_of o' → frame_of (blocks_of o) (o_heap w) !! b = Some n.
Proof.
  intros Hg Hne Hi Hj Hb. rewrite frame_of_lookup, decide_False.
  - destruct (g_slot _ _ _ _ _ Hg j o' Hj) as (x & _ & _ & Hx). destruct o' as [r|]; [|by apply elem_of_nil in Hb].
    destruct x as [[hs bs]|]; [|done]. by apply (good_blocks _ _ _ _ Hx).
  - eapply (g_apart _ _ _ _ _ Hg j i); [done|done|done|]. by eapply key_in.
Qed.

Lemma others_frame h0 m0 w hss ss i o p n : good h0 m0 w hss ss → structs w !! i = Some o → h0 !! p = Some n →
  frame_of (blocks_of o) (o_heap w) !! p = Some n.
Proof.
  intros Hg Hi Hp. destruct (g_others _ _ _ _ _ Hg p n Hp) as [Hh Hk]. rewrite frame_of_lookup, decide_False; [done|]. eauto.
Qed.

(** One structure changes, in the heap the others leave it. *)
Lemma good_update h0 m0 w w' hss ss i o o' x :
  let f := frame_of (blocks_of o) (o_heap w) in
  good h0 m0 w hss ss → structs w !! i = Some o → structs w' = <[i := o']> (structs w) →
  o_heap w' = with_blocks (blocks_of o') f → (∀ b n, (b, n) ∈ blocks_of o' → f !! b = None) → heap_ok (o_heap w') →
  (∀ a, in_blocks f a → o_memory w' a = o_memory w a) → slot_ok w' o' x →
  good h0 m0 w' (<[i := fst <$> x]> hss) (<[i := snd <$> x]> ss).
Proof.
  intros f Hg Hi Hs Hh Hf Hok Hm Hx. destruct (g_len _ _ _ _ _ Hg) as [Hl1 Hl2].
  pose proof (lookup_lt_Some _ _ _ Hi) as Hlt.
  assert (∀ p n, f !! p = Some n → o_heap w' !! p = Some n) as Hkeep by (intros p n Hp; rewrite Hh; by apply with_blocks_frame).
  assert (∀ j o'', j ≠ i → structs w !! j = Some o'' → ∀ b n, (b, n) ∈ blocks_of o'' → f !! b = Some n) as Hothers
    by (intros j o'' Hj Ho b n Hb; by eapply (slot_frame h0 m0 w hss ss i j); [done|congruence|done..]).
  assert (∀ j o'' p, j ≠ i → structs w !! j = Some o'' → p ∈ (blocks_of o'').*1 → p ∉ (blocks_of o').*1) as Hnew.
  { intros j o'' p Hj Ho ([p1 n] & -> & Hin)%list_elem_of_fmap ([p2 n'] & Heq & Hin')%list_elem_of_fmap. simpl in Heq. subst p2.
    specialize (Hothers j o'' Hj Ho p1 n Hin). rewrite (Hf p1 n') in Hothers; done. }
  split.
  - done.
  - by rewrite Hs, !length_insert.
  - rewrite Hs. intros j o'' [(<- & <- & _)|[Hne Ho]]%list_lookup_insert_Some.
    + exists x. by rewrite !list_lookup_insert_eq by lia.
    + rewrite !list_lookup_insert_ne by done. destruct (g_slot _ _ _ _ _ Hg j o'' Ho) as (y & ? & ? & Hy).
      exists y. split; [done|]. split; [done|]. destruct o'' as [r|], y as [[hs bs]|]; [|done..].
      apply (good_kept w w' r hs bs f); [done|by apply (Hothers j (Some r))|done|done|done].
  - rewrite Hs. intros j k o1 o2 p Hne [(<- & <- & _)|[Hj H1]]%list_lookup_insert_Some [(<- & <- & _)|[Hk H2]]%list_lookup_insert_Some.
    + done.
    + intros Hp Hp'. by eapply (Hnew k).
    + by apply (Hnew j).
    + by apply (g_apart _ _ _ _ _ Hg j k).
  - intros p n Hp. pose proof (others_frame _ _ _ _ _ _ _ _ _ Hg Hi Hp) as Hfp. split; [by apply Hkeep|].
    rewrite Hs. intros j o'' [(<- & <- & _)|[Hne Ho]]%list_lookup_insert_Some.
    + intros ([p1 n'] & -> & Hin)%list_elem_of_fmap. cbn [fst] in Hfp. fold f in Hfp. rewrite (Hf p1 n') in Hfp; done.
    + by eapply (proj2 (g_others _ _ _ _ _ Hg p n Hp)).
  - intros p n Hp. destruct (decide (p ∈ (blocks_of o').*1)) as [Hin|Hnin].
    { right. exists i, o'. split; [|done]. rewrite Hs. by apply list_lookup_insert_eq. }
    rewrite Hh, with_blocks_other in Hp by done. unfold f in Hp. rewrite frame_of_lookup in Hp.
    destruct (decide (p ∈ (blocks_of o).*1)) as [|Hno]; [done|].
    destruct (g_owned _ _ _ _ _ Hg p n Hp) as [?|(j & o'' & Ho & Hin)]; [by left|right]. exists j, o''. split; [|done].
    rewrite Hs, list_lookup_insert_ne; [done|]. intros <-. congruence.
  - intros a (p & n & Hp & Ha). rewrite Hm; [apply (g_bytes _ _ _ _ _ Hg); by exists p, n|].
    exists p, n. split; [|done]. by eapply others_frame.
Qed.

(** Only bytes that nobody holds change. *)
Lemma good_same h0 m0 w w' hss ss : good h0 m0 w hss ss → structs w' = structs w → o_heap w' = o_heap w →
  (∀ a, in_blocks (o_heap w) a → o_memory w' a = o_memory w a) → good h0 m0 w' hss ss.
Proof.
  intros Hg Hs Hh Hm. pose proof Hg as [Hok Hl Hslot Hap Hot Hown Hb]. split; rewrite ?Hs, ?Hh; [done|done| |done|done|done|].
  - intros i o Ho. destruct (Hslot i o Ho) as (x & ? & ? & Hx). exists x. split; [done|]. split; [done|].
    destruct o as [r|], x as [[hs bs]|]; [|done..].
    apply (good_kept w w' r hs bs (o_heap w)); [done|by apply (good_blocks _ _ _ _ Hx)|by rewrite Hh|by rewrite Hh|done].
  - intros a (p & n & Hp & Ha). rewrite Hm; [apply Hb; by exists p, n|]. exists p, n. split; [|done]. by apply (Hot p n).
Qed.

Lemma insert_last {A} (l : list A) x y : <[length l := y]> (l ++ [x]) = l ++ [y].
Proof. by induction l as [|z l IH]; simpl; [|rewrite IH]. Qed.

(** A slot for one more. *)
Lemma good_slot h0 m0 w hss ss : good h0 m0 w hss ss →
  good h0 m0 {| o_heap := o_heap w; o_memory := o_memory w; structs := structs w ++ [None] |} (hss ++ [None]) (ss ++ [None]).
Proof.
  intros [Hok [Hl1 Hl2] Hslot Hap Hot Hown Hb].
  assert (∀ i o, (structs w ++ [None]) !! i = Some o → structs w !! i = Some o ∨ i = length (structs w) ∧ o = None) as Hlook.
  { intros i o [?|[? Ho]]%lookup_app_Some; [by left|right]. apply list_lookup_singleton_Some in Ho as [? <-]. split; [lia|done]. }
  assert (∀ p, p ∉ (blocks_of None).*1) as Hnone by (intros p Hp; by apply elem_of_nil in Hp).
  split; cbn [o_heap o_memory structs].
  - done.
  - rewrite !length_app. simpl. lia.
  - intros i o [Ho|[-> ->]]%Hlook.
    + destruct (Hslot i o Ho) as (x & Hx1 & Hx2 & Hx). exists x.
      rewrite !(lookup_app_l_Some _ _ _ _ Hx1), (lookup_app_l_Some _ _ _ _ Hx2). split; [done|]. split; [done|].
      destruct o as [r|], x as [[hs bs]|]; [|done..].
      apply (good_kept w _ r hs bs (o_heap w)); [done|by apply (good_blocks _ _ _ _ Hx)|done..].
    + exists None. rewrite <- Hl1 at 1. rewrite <- Hl2. by rewrite !list_lookup_middle.
  - intros i j o o' p Hne [Ho|[-> ->]]%Hlook [Ho'|[-> ->]]%Hlook Hp; [by eapply (Hap i j)|apply Hnone|by apply Hnone in Hp|done].
  - intros p n Hp. destruct (Hot p n Hp) as [Hh Hk]. split; [done|].
    intros i o [Ho|[-> ->]]%Hlook; [by eapply Hk|apply Hnone].
  - intros p n Hp. destruct (Hown p n Hp) as [?|(i & o & Ho & Hin)]; [by left|right]. exists i, o. split; [|done].
    by apply lookup_app_l_Some.
  - done.
Qed.

Lemma frame_with_blocks l f : (∀ b n, (b, n) ∈ l → f !! b = None) → frame_of l (with_blocks l f) = f.
Proof.
  intros Hf. apply map_eq. intros p. rewrite frame_of_lookup. destruct (decide (p ∈ l.*1)) as [Hp|Hp].
  - apply list_elem_of_fmap in Hp as ([b n] & -> & Hin). symmetry. by eapply Hf.
  - by apply with_blocks_other.
Qed.

(** A call with one arena, back in its structure. *)
Lemma good_put h0 m0 w hss ss i o aw st hs bs :
  let f := frame_of (blocks_of o) (o_heap w) in
  good h0 m0 w hss ss → structs w !! i = Some o → ainv aw f (st :: hs) → holds (source aw) hs bs → agree aw →
  (∀ a, in_blocks f a → memory (source aw) a = o_memory w a) →
  good h0 m0 (put_struct w i aw) (<[i := Some hs]> hss) (<[i := Some bs]> ss).
Proof.
  intros f Hg Hi Hinv Hh Ha Hm. set (r := {| r_arena := arena aw; r_stats := stats (source aw) |}).
  assert (world_of (put_struct w i aw) r = aw) as Haw by (by destruct aw as [a []]).
  pose proof (ai_owns _ _ _ Hinv) as [Hok Ho]. pose proof (lo_frame _ _ (ai_laid _ _ _ Hinv)) as Hf.
  assert (o_heap (put_struct w i aw) = with_blocks (blocks (arena aw)) f) as Hheap by (symmetry; exact Ho).
  apply (good_update h0 m0 w (put_struct w i aw) hss ss i o (Some r) (Some (hs, bs))); try done.
  split; rewrite ?Haw; [|done|done]. exists st. change (blocks (r_arena r)) with (blocks (arena aw)).
  by rewrite Hheap, frame_with_blocks.
Qed.

(** *** The calls *)

Definition oop_ok (op : oop) : Prop := match op with OUse _ op => aop_ok op | _ => True end.

Lemma held_good h0 m0 w hss ss i : good h0 m0 w hss ss →
  match held_of hss i with
  | Some hs => ∃ r bs, structs w !! i = Some (Some r) ∧ hss !! i = Some (Some hs) ∧ ss !! i = Some (Some bs) ∧
      buffers_of ss i = Some bs ∧ good_struct w r hs bs
  | None => buffers_of ss i = None
  end.
Proof.
  intros Hg. unfold held_of, buffers_of. destruct (structs w !! i) as [o|] eqn:Ei.
  - destruct (g_slot _ _ _ _ _ Hg i o Ei) as (x & -> & -> & Hx). destruct o as [r|], x as [[hs bs]|]; [|done..]. by exists r, bs.
  - apply lookup_ge_None in Ei. destruct (g_len _ _ _ _ _ Hg). by rewrite !lookup_ge_None_2 by lia.
Qed.

Abbreviation run := (run_oop place draw max_block_size ndebug).

(** A call does as it should, and everything stays in order. *)
Definition sound h0 m0 (op : oop) (w : objects) (hss : holdings) (ss : owners) : Prop :=
  ∃ r hss' w' ss', run hss op w = (Ret (r, hss'), w') ∧ spec_oop op ss r ss' ∧ good h0 m0 w' hss' ss'.

Lemma sound_unchanged h0 m0 op w hss ss r : good h0 m0 w hss ss → run hss op w = (Ret (r, hss), w) →
  spec_oop op ss r ss → sound h0 m0 op w hss ss.
Proof. intros Hg E Hs. by exists r, hss, w, ss. Qed.

Lemma sound_create h0 m0 w hss ss : good h0 m0 w hss ss → sound h0 m0 OCreate w hss ss.
Proof.
  intros Hg. set (c := {| stats := Arena.Stats.init; heap := o_heap w; memory := o_memory w |}).
  assert (owns c (o_heap w)) as Ho by (split; [apply Hg|done]).
  destruct (Init_spec ndebug c (o_heap w) 0 Ho) as (a & c' & E & Hs & Ha); [by unfold MAX_REQUEST|].
  assert (CreateRaw place draw ndebug w =
    let left := {| o_heap := heap c'; o_memory := memory c'; structs := structs w |} in
    match a with
    | Some a => (Ret (length (structs w)), {| o_heap := heap c'; o_memory := memory c';
                   structs := structs w ++ [Some {| r_arena := a; r_stats := stats c' |}] |})
    | None => (Croak "Failed to acquire upb_Arena", left)
    end) as Ec.
  { unfold CreateRaw. fold c. change (source_of_objects place draw) with src. rewrite E. by destruct a. }
  unfold sound, run_oop. rewrite Ec. destruct a as [a|].
  - destruct Ha as [p Hinv]. eexists _, _, _, _. split; [done|]. split; [by left|].
    set (w1 := {| o_heap := o_heap w; o_memory := o_memory w; structs := structs w ++ [None] |}).
    assert (good h0 m0 (put_struct w1 (length (structs w)) (Build_aworld a c'))
      (<[length (structs w) := Some []]> (hss ++ [None])) (<[length (structs w) := Some []]> (ss ++ [None]))) as Hput.
    { eapply (good_put h0 m0 w1 _ _ _ None (Build_aworld a c')); [by apply good_slot| |exact Hinv|done|by apply (agree_Init w)|].
      - by apply list_lookup_middle.
      - exact Hs. }
    destruct (g_len _ _ _ _ _ Hg) as [Hl1 Hl2]. unfold put_struct in Hput. cbn [structs w1] in Hput.
    rewrite insert_last in Hput. rewrite <- Hl1 in Hput at 1. rewrite insert_last, <- Hl2, insert_last in Hput. exact Hput.
  - eexists _, _, _, _. split; [done|]. split; [by right|]. destruct Ha as [Hok Hh].
    by apply (good_same h0 m0 w).
Qed.

Lemma sound_use h0 m0 i op w hss ss : good h0 m0 w hss ss → aop_ok op → sound h0 m0 (OUse i op) w hss ss.
Proof.
  intros Hg Hop. pose proof (held_good _ _ _ _ _ i Hg) as Hi. unfold sound, run_oop. cbn [spec_oop].
  destruct (held_of hss i) as [hs|]; [|rewrite Hi; by exists RNone, hss, w, ss].
  destruct Hi as (r & bs & Er & _ & _ & -> & [[st Hinv] Hh Ha]).
  destruct (run_aop_refines max_block_size max_block_bound _ _ _ _ _ op Hinv Hh Hop)
    as (g & hs' & aw & bs' & E & Hs & Hinv' & Hh' & Hf).
  assert (on_arena i (run_aop max_block_size hs op) w = (Ret (g, hs'), put_struct w i aw)) as Eo.
  { unfold on_arena. by rewrite Er, E. }
  rewrite (cbind_ret _ _ _ _ _ Eo). eexists _, _, _, _. split; [done|]. split; [by exists g, bs'|].
  apply (good_put h0 m0 w hss ss i (Some r) aw st hs' bs'); try done.
  replace aw with (run_aop max_block_size hs op (world_of w r)).2 by (by rewrite E). by apply agree_aop.
Qed.

Lemma sound_stats h0 m0 i w hss ss : good h0 m0 w hss ss → sound h0 m0 (OStats i) w hss ss.
Proof.
  intros Hg. pose proof (held_good _ _ _ _ _ i Hg) as Hi. destruct (held_of hss i) as [hs|] eqn:Eh.
  - destruct Hi as (r & bs & Er & _ & _ & Eb & [_ _ [Ht _]]).
    assert (struct_at i w = (Ret r, w)) as Es by (unfold struct_at, mbind, cmd_bind; cbn; by rewrite Er).
    assert (SpaceAllocated i w = (Ret (Arena_SpaceAllocated (r_arena r)), w)) as Esp by (unfold SpaceAllocated; by rewrite (cbind_ret _ _ _ _ _ Es)).
    eassert (GetStats i w = (Ret _, w)) as Est by (unfold GetStats; by rewrite (cbind_ret _ _ _ _ _ Es)).
    eapply sound_unchanged; [done| |]; cbn [run_oop spec_oop].
    + rewrite Eh, (cbind_ret _ _ _ _ _ Est), (cbind_ret _ _ _ _ _ Esp). done.
    + rewrite Eb. split; [done|]. unfold Arena_SpaceAllocated. cbn [world_of arena source stats] in Ht. rewrite <- Ht.
      eexists (ArenaRaw.Build_ArenaStats _ _ _). split; reflexivity.
  - eapply sound_unchanged; [done|cbn [run_oop]; by rewrite Eh|]. cbn [spec_oop]. by rewrite Hi.
Qed.

Lemma sound_poison h0 m0 i b w hss ss : good h0 m0 w hss ss → sound h0 m0 (OPoison i b) w hss ss.
Proof.
  intros Hg. pose proof (held_good _ _ _ _ _ i Hg) as Hi. unfold sound, run_oop. cbn [spec_oop].
  destruct (held_of hss i) as [hs|]; [|rewrite Hi; by exists RNone, hss, w, ss].
  destruct Hi as (r & bs & Er & Eh & Es & -> & [[st Hinv] Hh Ha]).
  set (aw := Build_aworld (r_arena r) {| stats := with_poisoned b (r_stats r); heap := o_heap w; memory := o_memory w |}).
  assert (set_poisoned i b w = (Ret tt, put_struct w i aw)) as Eo by (unfold set_poisoned, on_arena; by rewrite Er).
  rewrite (cbind_ret _ _ _ _ _ Eo). eexists _, _, _, _. split; [done|]. split; [done|].
  rewrite <- (list_insert_id _ _ _ Eh), <- (list_insert_id _ _ _ Es).
  apply (good_put h0 m0 w hss ss i (Some r) aw st hs bs); try done.
  apply (source_ainv (world_of w r)); [done|]. apply (ai_owns _ _ _ Hinv).
Qed.

Lemma sound_destroy h0 m0 i w hss ss : good h0 m0 w hss ss → sound h0 m0 (ODestroy i) w hss ss.
Proof.
  intros Hg. pose proof (held_good _ _ _ _ _ i Hg) as Hi. unfold sound, run_oop. cbn [spec_oop].
  destruct (held_of hss i) as [hs|]; [|rewrite Hi; by exists RNone, hss, w, ss].
  destruct Hi as (r & bs & Er & Eh & Es & -> & [[st [Ho [Hd Hf _ _] _ _]] _ _]).
  destruct (free_blocks_spec (blocks (r_arena r)) _ _ Ho Hd Hf) as (c & E & [Hok Hc] & Hs).
  set (f := frame_of (blocks (r_arena r)) (o_heap w)) in *.
  set (w1 := put_struct w i (Build_aworld (r_arena r) c)).
  assert (on_arena i (aw ← cget; on_source (Arena_Free (arena aw))) w = (Ret tt, w1)) as E1.
  { unfold on_arena. rewrite Er, (cbind_ret _ _ (world_of w r) (world_of w r) (world_of w r)) by done.
    unfold on_source, Arena_Free. change (blocks (arena (world_of w r))) with (blocks (r_arena r)).
    change (source_of_objects place draw) with src. by rewrite E. }
  set (w2 := {| o_heap := o_heap w1; o_memory := o_memory w1; structs := <[i := None]> (structs w1) |}).
  assert (DestroyRaw place draw i w = (Ret tt, w2)) as E2 by (unfold DestroyRaw; by rewrite (cbind_ret _ _ _ _ _ E1)).
  rewrite (cbind_ret _ _ _ _ _ E2). eexists _, _, _, _. split; [done|]. split; [done|].
  apply (good_update h0 m0 w w2 hss ss i (Some r) None None); try done.
  - cbn [w2 w1 structs put_struct]. by rewrite list_insert_insert_eq.
  - by intros b n Hb%elem_of_nil.
Qed.

Lemma run_oops_sound h0 m0 ops : ∀ w hss ss, good h0 m0 w hss ss → Forall oop_ok ops →
  ∃ rs hss' w' ss', run_oops place draw max_block_size ndebug hss ops w = (Ret (rs, hss'), w') ∧
    spec_oops ops ss rs ss' ∧ good h0 m0 w' hss' ss'.
Proof.
  induction ops as [|op ops IH]; intros w hss ss Hg Hops; cbn [run_oops].
  { exists [], hss, w, ss. split; [done|]. by split; [constructor|]. }
  apply Forall_cons in Hops as [Hop Hops].
  assert (sound h0 m0 op w hss ss) as (r & hss1 & w1 & ss1 & E & Hs & Hg1).
  { destruct op; [by apply sound_create|by apply sound_use|by apply sound_stats|by apply sound_poison|by apply sound_destroy]. }
  rewrite (cbind_ret _ _ _ _ _ E). destruct (IH w1 hss1 ss1 Hg1 Hops) as (rs & hss2 & w2 & ss2 & E2 & Hs2 & Hg2).
  rewrite (cbind_ret _ _ _ _ _ E2). exists (r :: rs), hss2, w2, ss2. split; [done|]. by split; [econstructor|].
Qed.

(** C8: the arenas of Perl's objects share one heap without meeting.  Whatever is made,
    used, asked for statistics, poisoned and destroyed, in any order and on any number of
    arenas, wherever [realloc] puts a block or whenever it fails: no call faults, every
    arena answers as if it had buffers of its own, and what is held at the end has the bytes
    last written; the memory and the number of blocks that are reported of an arena are
    those it has; what others have on the heap is left alone; and when all are destroyed,
    the heap is as it was before. *)
Theorem arenas_share_heap ops h0 m0 : heap_ok h0 → Forall oop_ok ops →
  ∃ rs hss w ss,
    run_oops place draw max_block_size ndebug [] ops {| o_heap := h0; o_memory := m0; structs := [] |} = (Ret (rs, hss), w) ∧
    spec_oops ops [] rs ss ∧
    (∀ i r, structs w !! i = Some (Some r) → ∃ hs bs, hss !! i = Some (Some hs) ∧ ss !! i = Some (Some bs) ∧
       (∀ j x b k v, hs !! j = Some x → bs !! j = Some b → b !! k = Some (Some v) → o_memory w (x.1 + Z.of_nat k) = v) ∧
       Arena.Stats.total_reserved (r_stats r) = space_allocated (r_arena r) ∧
       Arena.Stats.total_blocks (r_stats r) = u64 (Z.of_nat (length (blocks (r_arena r))))) ∧
    h0 ⊆ o_heap w ∧ (∀ a, in_blocks h0 a → o_memory w a = m0 a) ∧
    (Forall (eq None) (structs w) → o_heap w = h0).
Proof.
  intros Hh Hops. destruct (run_oops_sound h0 m0 ops {| o_heap := h0; o_memory := m0; structs := [] |} [] [])
    as (rs & hss & w & ss & E & Hs & Hg); [|done|].
  { split; cbn [o_heap o_memory structs]; try done; intros p n Hp; first [by left|by split]. }
  exists rs, hss, w, ss. split; [done|]. split; [done|].
  split; [|split; [|split; [apply Hg|]]].
  - intros i r Hr. destruct (g_slot _ _ _ _ _ Hg i _ Hr) as (x & Hx1 & Hx2 & Hx). destruct x as [[hs bs]|]; [|done].
    exists hs, bs. destruct Hx as [_ [_ Hb] [Ht Hn]]. split_and!; [done|done| |done|done].
    intros j x b k v Hj Hjb Hk. by apply (Hb j x b Hj Hjb).
  - apply map_subseteq_spec. intros p n Hp. by apply (g_others _ _ _ _ _ Hg).
  - intros Hnone. apply map_eq. intros p. apply option_eq. intros n. split; intros Hp; [|by apply (g_others _ _ _ _ _ Hg)].
    destruct (g_owned _ _ _ _ _ Hg p n Hp) as [?|(i & o & Ho & Hin)]; [done|].
    rewrite Forall_lookup in Hnone. apply Hnone in Ho. subst o. by apply elem_of_nil in Hin.
Qed.
End Sound.

(** *** Instances *)

(** Two arenas, one of them poisoned, over a heap with a block of others. *)
Definition some_oops : list oop :=
  [OCreate; OCreate; OUse 0 (AMalloc 40); OUse 1 (AMalloc 1000); OUse 0 (AWrite 0 3 7); OUse 1 (AWrite 0 999 8);
   OPoison 0 true; OUse 0 (AMalloc 5000); OUse 0 (AMalloc 100); OStats 0; OStats 1; ODestroy 1; OUse 1 (AMalloc 1);
   OUse 0 (ARead 0 3); ODestroy 0].
Definition replies (r : outcome (list reply * holdings) * objects) : list reply * list bool :=
  (match r.1 with Ret (rs, _) => rs | _ => [] end, map (λ o, match o with None => true | Some _ => false end) (structs r.2)).

Lemma arenas_share_heap_witness :
  ∃ rs hss w,
    run_oops first_free (λ _, false) UPB_DEFAULT_MAX_BLOCK_SIZE true [] some_oops
      {| o_heap := {[4096 := 64]}; o_memory := λ _, 5; structs := [] |} = (Ret (rs, hss), w) ∧
    rs = [RMade; RMade; RGiven GPtr; RGiven GPtr; RGiven GNone; RGiven GNone; RDone; RGiven GNull; RGiven GPtr;
          RStats {| ArenaRaw.allocated := 352; ArenaRaw.reserved := 352; ArenaRaw.blocks := 1 |} 352;
          RStats {| ArenaRaw.allocated := 1368; ArenaRaw.reserved := 1368; ArenaRaw.blocks := 2 |} 1368;
          RDone; RNone; RGiven (GByte 7); RDone] ∧
    o_heap w = {[4096 := 64]} ∧ o_memory w 4100 = 5.
Proof.
  assert (heap_ok {[4096 := 64]}) as Hh.
  { split; [intros p n [<- <-]%lookup_singleton_Some; by vm_compute|].
    by intros p n q k [<- <-]%lookup_singleton_Some [<- <-]%lookup_singleton_Some. }
  assert (Forall oop_ok some_oops) as Hops by (repeat (apply Forall_cons; split); [by vm_compute..|by apply Forall_nil]).
  destruct (arenas_share_heap first_free (λ _, false) UPB_DEFAULT_MAX_BLOCK_SIZE true first_free_ok ltac:(by vm_compute)
    some_oops {[4096 := 64]} (λ _, 5) Hh Hops) as (rs & hss & w & ss & E & _ & _ & _ & Hm & Hfree).
  exists rs, hss, w. split; [exact E|].
  pose proof (f_equal replies (eq_sym E)) as Er. clear E.
  destruct w as [wh wm ws]. cbn [o_heap o_memory structs] in *.
  vm_compute in Er.
  injection Er as Ers Est. split; [exact Ers|]. split.
  - apply Hfree. destruct ws as [|[] [|[] [|]]]; try done. by repeat constructor.
  - apply Hm. exists 4096, 64. by vm_compute.
Defined.
