(* ===== verification/Auth.v ===== *)
(** * Keys and signatures (Google-Auth/XS.xs)

    The XSUBs of [Google::Auth] over OpenSSL: loading public keys, verifying and making
    signatures, the mock certificate.  OpenSSL is a parameter: its cryptography, and
    whether each of its calls succeeds.  What is modelled is what the XSUBs add: the
    objects they allocate and release on every path, the encodings of points and
    signatures, and the Perl objects that own keys. *)

From S2P Require Import Prelude.

(** What a public key is made from: [OSSL_PARAM]s, or an [EC_KEY] before OpenSSL 3. *)
Inductive keydata :=
  | RSAData (n e : Z)
  | ECData (curve point : bytes)
  | ECPoint (nid x y : Z).

Section Auth.
Context {K : Type}.

(** An allocated OpenSSL object or buffer. *)
Inductive obj :=
  | BIGNUM (v : Z) | ECDSA_SIG (r s : Z) | BUFFER (b : bytes) | MD_CTX | BIO | X509 (key : option K)
  | PKEY (key : K) | PKEY_CTX | PARAM_BLD | PARAMS (d : keydata) | RSA | EC_KEY | EC_GROUP (nid : Z)
  | EC_POINT.

(** The allocated objects; the [Google::Auth::PublicKey] objects with the pointer in their
    IV; the number of fallible calls made so far. *)
Record world := { next : Z; live : gmap Z obj; keys : gmap Z Z; asked : nat }.

Notation call := (cmd world).

(** OpenSSL: whether the n-th fallible call succeeds; key construction, with a check of what
    it is made from and, for RSA before OpenSSL 3, without one; the kind of a key;
    [EVP_VerifyFinal] after hashing the message; the DER form of an ECDSA signature; the
    curve tables; the readers of PEM; signing; a generated key and its PEM forms. *)
Context (answer : nat → bool) (openssl3 : bool).
Context (make_key : keydata → option K) (rsa_key : Z → Z → K) (is_ec : K → bool).
Context (VerifyFinal : K → bytes → bytes → Z) (i2d_ECDSA_SIG : Z → Z → bytes).
Context (EC_curve_nist2nid OBJ_txt2nid : bytes → Z).
Context (read_x509 : bytes → option (option K)) (read_private_key : bytes → option K).
Context (SignFinal : K → bytes → bytes).
Context (generated : K) (private_pem x509_pem : K → bytes).

(** ** Allocation *)

(** A call that may fail. *)
Definition succeeds : call bool := λ w,
  (Ret (answer (asked w)), {| next := next w; live := live w; keys := keys w; asked := S (asked w) |}).

(** Calls that may fail, one after the other, up to the first failure. *)
Fixpoint all_succeed (n : nat) : call bool :=
  match n with
  | O => mret true
  | S n => ok ← succeeds; if (ok : bool) then all_succeed n else mret false
  end.

Definition put (o : obj) : call Z := λ w,
  (Ret (next w), {| next := next w + 16; live := <[next w := o]> (live w); keys := keys w; asked := asked w |}).

(** A constructor of OpenSSL: 0 is NULL. *)
Definition new (o : obj) : call Z := ok ← succeeds; if (ok : bool) then put o else mret 0.

Definition release (h : Z) : call unit := λ w,
  if bool_decide (is_Some (live w !! h)) then
    (Ret tt, {| next := next w; live := delete h (live w); keys := keys w; asked := asked w |})
  else (Fault "double free", w).

(** [if (p) X_free(p)]. *)
Definition release_if (h : Z) : call unit := if h =? 0 then mret tt else release h.

(** Another object takes over [h], and will release it with itself. *)
Definition give := release.

Definition obj_at (h : Z) : call obj := λ w,
  match live w !! h with Some o => (Ret o, w) | None => (Fault "use after free", w) end.

(** ** Encodings *)

(** [BN_bin2bn]: big-endian. *)
Definition be_value (b : bytes) : Z := fold_left (λ acc c, acc * 256 + c) b 0.

Definition BN_bin2bn (b : bytes) : call Z := new (BIGNUM (be_value b)).

(** [newSVpv(s, 0)]: up to the NUL. *)
Fixpoint c_string (b : bytes) : bytes :=
  match b with [] => [] | c :: b => if c =? 0 then [] else c :: c_string b end.

(** ** Keys *)

(** [newSViv(PTR2IV(pkey))], referenced and blessed. *)
Definition bless_key (pkey : Z) : call Z := λ w,
  (Ret (next w), {| next := next w + 16; live := live w; keys := <[next w := pkey]> (keys w); asked := asked w |}).

(** [EVP_PKEY_fromdata] with its context, once both and the parameters are there. *)
Definition fromdata (pctx params : Z) (d : keydata) : call Z :=
  if (pctx =? 0) || (params =? 0) then mret 0
  else
    init ← succeeds;
    if negb init then mret 0
    else match make_key d with Some k => new (PKEY k) | None => mret 0 end.

Definition finish (pkey : Z) : call (option Z) :=
  if pkey =? 0 then mret None else o ← bless_key pkey; mret (Some o).

Definition load_rsa_3 (n e : bytes) : call (option Z) :=
  bld ← new PARAM_BLD;
  if bld =? 0 then mret None
  else
    n_bn ← BN_bin2bn n;
    e_bn ← BN_bin2bn e;
    if (n_bn =? 0) || (e_bn =? 0) then
      release_if n_bn;; release_if e_bn;; release bld;; mret None
    else
      pushed ← all_succeed 2;
      if negb pushed then release n_bn;; release e_bn;; release bld;; mret None
      else
        let d := RSAData (be_value n) (be_value e) in
        params ← new (PARAMS d);
        pctx ← new PKEY_CTX;
        pkey ← fromdata pctx params d;
        release_if params;; release_if bld;; release_if pctx;; release n_bn;; release e_bn;;
        finish pkey.

Definition load_rsa_1 (n e : bytes) : call (option Z) :=
  rsa ← new RSA;
  if rsa =? 0 then mret None
  else
    n_bn ← BN_bin2bn n;
    e_bn ← BN_bin2bn e;
    if (n_bn =? 0) || (e_bn =? 0) then
      release_if n_bn;; release_if e_bn;; release rsa;; mret None
    else
      set ← succeeds;
      if negb set then release n_bn;; release e_bn;; release rsa;; mret None
      else
        give n_bn;; give e_bn;;
        pkey ← new (PKEY (rsa_key (be_value n) (be_value e)));
        if pkey =? 0 then release rsa;; mret None
        else
          assigned ← succeeds;
          if negb assigned then release rsa;; release pkey;; mret None
          else give rsa;; finish pkey.

Definition load_rsa_pubkey (n e : bytes) : call (option Z) :=
  if openssl3 then load_rsa_3 n e else load_rsa_1 n e.

(** [sizeof(point_bin)]. *)
Definition POINT_MAX : Z := 1 + 256.

(** The uncompressed form of a point, in a buffer of [POINT_MAX] bytes. *)
Definition point_bin (x y : bytes) : call bytes :=
  if POINT_MAX <? 1 + Z.of_nat (length x) + Z.of_nat (length y) then cfault "store past point_bin"
  else mret (4 :: x ++ y).

Definition load_ec_3 (curve x y : bytes) : call (option Z) :=
  bld ← new PARAM_BLD;
  let point_len := u64 (1 + Z.of_nat (length x) + Z.of_nat (length y)) in
  if (bld =? 0) || (POINT_MAX <? point_len) then release_if bld;; mret None
  else
    point ← point_bin x y;
    pushed ← all_succeed 2;
    if negb pushed then release bld;; mret None
    else
      let d := ECData curve point in
      params ← new (PARAMS d);
      pctx ← new PKEY_CTX;
      pkey ← fromdata pctx params d;
      release_if params;; release_if bld;; release_if pctx;;
      finish pkey.

(** [goto]-less as the source: every failure releases what there is. *)
Definition load_ec_1 (nid : Z) (x y : bytes) : call (option Z) :=
  eckey ← new EC_KEY;
  if eckey =? 0 then mret None
  else
    group ← new (EC_GROUP nid);
    if group =? 0 then release eckey;; mret None
    else
      ok ← succeeds;
      if negb ok then release group;; release eckey;; mret None
      else
        point ← new EC_POINT;
        if point =? 0 then release group;; release eckey;; mret None
        else
          x_bn ← BN_bin2bn x;
          y_bn ← BN_bin2bn y;
          if (x_bn =? 0) || (y_bn =? 0) then
            release_if x_bn;; release_if y_bn;; release point;; release group;; release eckey;; mret None
          else
            match make_key (ECPoint nid (be_value x) (be_value y)) with
            | None =>
                release x_bn;; release y_bn;; release point;; release group;; release eckey;; mret None
            | Some k =>
                ok ← all_succeed 2;
                if negb ok then
                  release x_bn;; release y_bn;; release point;; release group;; release eckey;; mret None
                else
                  pkey ← new (PKEY k);
                  if pkey =? 0 then
                    release x_bn;; release y_bn;; release point;; release group;; release eckey;; mret None
                  else
                    assigned ← succeeds;
                    if negb assigned then
                      release x_bn;; release y_bn;; release point;; release group;; release eckey;;
                      release pkey;; mret None
                    else
                      give eckey;;
                      release x_bn;; release y_bn;; release point;; release group;;
                      finish pkey
            end.

(** [NID_undef] is 0. *)
Definition load_ec_pubkey (curve x y : bytes) : call (option Z) :=
  let nid := EC_curve_nist2nid curve in
  let nid := if nid =? 0 then OBJ_txt2nid curve else nid in
  if nid =? 0 then mret None
  else if openssl3 then load_ec_3 curve x y else load_ec_1 nid x y.

Definition load_pubkey_from_x509_cert (pem : bytes) : call (option Z) :=
  bio ← new BIO;
  if bio =? 0 then mret None
  else
    x509 ← match read_x509 pem with Some key => new (X509 key) | None => mret 0 end;
    release bio;;
    if x509 =? 0 then mret None
    else
      pkey ← match read_x509 pem with Some (Some k) => new (PKEY k) | _ => mret 0 end;
      release x509;;
      finish pkey.

(** The argument of a method of [Google::Auth::PublicKey]: an object of the class, a string
    that names it or a class derived from it, or anything else. *)
Inductive keysv := Object (o : Z) | ClassName | Other.

(** [sv_derived_from] and [SvIV(SvRV(sv))]; 0 is NULL. *)
Definition key_ptr (sv : keysv) : call Z :=
  match sv with
  | Object o => λ w, match keys w !! o with Some p => (Ret p, w) | None => (Fault "freed object", w) end
  | ClassName => cfault "SvRV of a string"
  | Other => mret 0
  end.

Definition DESTROY (self : keysv) : call unit :=
  pkey ← key_ptr self;
  release_if pkey.

(** Perl frees an object: its destructor, then the object. *)
Definition drop_key (o : Z) : call unit :=
  DESTROY (Object o);;
  cmodify (λ w, {| next := next w; live := live w; keys := delete o (keys w); asked := asked w |}).

(** ** Signatures *)

(** The signature as [EVP_VerifyFinal] gets it: the [ECDSA_SIG] and the buffer to free, and
    the bytes. *)
Definition actual_signature (k : K) (sig : bytes) : call (Z * Z * bytes) :=
  if is_ec k && Z.even (Z.of_nat (length sig)) then
    let half := i32 (Z.of_nat (length sig) / 2) in
    if half <? 0 then cfault "negative length"
    else
      r_bn ← BN_bin2bn (take (Z.to_nat half) sig);
      s_bn ← BN_bin2bn (take (Z.to_nat half) (drop (Z.to_nat half) sig));
      if (r_bn =? 0) || (s_bn =? 0) then mret (0, 0, sig)
      else
        let r := be_value (take (Z.to_nat half) sig) in
        let s := be_value (take (Z.to_nat half) (drop (Z.to_nat half) sig)) in
        ec_sig ← new (ECDSA_SIG r s);
        if ec_sig =? 0 then release r_bn;; release s_bn;; mret (0, 0, sig)
        else
          give r_bn;; give s_bn;;
          encoded ← succeeds;
          if negb encoded then mret (ec_sig, 0, sig)
          else
            der_buf ← new (BUFFER (i2d_ECDSA_SIG r s));
            if der_buf =? 0 then mret (ec_sig, 0, sig)
            else mret (ec_sig, der_buf, i2d_ECDSA_SIG r s)
  else mret (0, 0, sig).

Definition pkey_at (h : Z) : call K :=
  o ← obj_at h;
  match o with PKEY k => mret k | _ => cfault "not a key" end.

Definition verify_signature (key : keysv) (message signature : bytes) : call bool :=
  pkey ← key_ptr key;
  if pkey =? 0 then mret false
  else
    k ← pkey_at pkey;
    '(ec_sig, der_buf, actual_sig) ← actual_signature k signature;
    mdctx ← new MD_CTX;
    verify_res ←
      (if mdctx =? 0 then mret 0
       else
         ok ← all_succeed 2;
         release mdctx;;
         mret (if (ok : bool) then VerifyFinal k message actual_sig else 0));
    release_if ec_sig;;
    release_if der_buf;;
    mret (0 <? verify_res).

(** [sizeof(sig)]. *)
Definition SIG_MAX : Z := 4096.

Definition rsa_sign_sha256 (pem message : bytes) : call (option bytes) :=
  bio ← new BIO;
  if bio =? 0 then mret None
  else
    pkey ← match read_private_key pem with Some k => new (PKEY k) | None => mret 0 end;
    release bio;;
    if pkey =? 0 then mret None
    else
      mdctx ← new MD_CTX;
      if mdctx =? 0 then release pkey;; mret None
      else
        k ← pkey_at pkey;
        ok ← all_succeed 3;
        if negb ok then release mdctx;; release pkey;; mret None
        else if SIG_MAX <? Z.of_nat (length (SignFinal k message)) then cfault "store past sig"
        else
          release mdctx;; release pkey;;
          mret (Some (SignFinal k message)).

(** ** The mock certificate *)

(** The local variables [generate_mock_cert] cleans up, and its result: the buffers of the
    certificate and the key. *)
Record locals := { l_pkey : Z; l_x509 : Z; l_key_bio : Z; l_cert_bio : Z; l_ret : option (Z * Z) }.

Definition cleanup_at (pkey x509 key_bio cert_bio : Z) : call locals :=
  mret {| l_pkey := pkey; l_x509 := x509; l_key_bio := key_bio; l_cert_bio := cert_bio; l_ret := None |}.

(** Up to [cleanup:]; the fallible calls are counted, from [EVP_PKEY_keygen_init] on. *)
Definition mock_cert_body (pctx : Z) : call locals :=
  if pctx =? 0 then cleanup_at 0 0 0 0
  else
    ok ← all_succeed 2;
    if negb ok then cleanup_at 0 0 0 0
    else
      pkey ← new (PKEY generated);
      if pkey =? 0 then cleanup_at 0 0 0 0
      else
        x509 ← new (X509 (Some generated));
        if x509 =? 0 then cleanup_at pkey 0 0 0
        else
          ok ← all_succeed 12;
          if negb ok then cleanup_at pkey x509 0 0
          else
            key_bio ← new BIO;
            if key_bio =? 0 then cleanup_at pkey x509 0 0
            else
              ok ← succeeds;
              if negb ok then cleanup_at pkey x509 key_bio 0
              else
                cert_bio ← new BIO;
                if cert_bio =? 0 then cleanup_at pkey x509 key_bio 0
                else
                  ok ← succeeds;
                  if negb ok then cleanup_at pkey x509 key_bio cert_bio
                  else
                    cert_pem ← put (BUFFER (x509_pem generated ++ [0]));
                    key_pem ← put (BUFFER (private_pem generated ++ [0]));
                    mret {| l_pkey := pkey; l_x509 := x509; l_key_bio := key_bio; l_cert_bio := cert_bio;
                            l_ret := Some (cert_pem, key_pem) |}.

Definition generate_mock_cert : call (option (Z * Z)) :=
  pctx ← new PKEY_CTX;
  l ← mock_cert_body pctx;
  release_if (l_cert_bio l);; release_if (l_key_bio l);; release_if (l_x509 l);; release_if (l_pkey l);;
  release_if pctx;;
  mret (l_ret l).

Definition buffer_at (h : Z) : call bytes :=
  o ← obj_at h;
  match o with BUFFER b => mret b | _ => cfault "not a buffer" end.

Definition generate_self_signed_cert : call (option (bytes * bytes)) :=
  r ← generate_mock_cert;
  match r with
  | None => mret None
  | Some (cert_pem, key_pem) =>
      cert ← buffer_at cert_pem;
      key ← buffer_at key_pem;
      release cert_pem;; release key_pem;;
      mret (Some (c_string cert, c_string key))
  end.

(** ** What is held *)

(** The state after some calls: besides what was live before, in [L], the objects [hs]. *)
Record held (L : gmap Z obj) (P : gmap Z Z) (hs : list (Z * obj)) (w : world) : Prop := {
  held_live : live w = foldr (λ p m, <[p.1 := p.2]> m) L hs;
  held_keys : keys w = P;
  held_fresh : Forall (λ h, h ≠ 0 ∧ h < next w ∧ L !! h = None) hs.*1;
  held_distinct : NoDup hs.*1;
  held_next : 0 < next w ∧ (∀ h, is_Some (L !! h) → 0 < h < next w) ∧ (∀ o, is_Some (P !! o) → o < next w) }.

Lemma lookup_held (hs : list (Z * obj)) (L : gmap Z obj) h :
  h ∉ hs.*1 → foldr (λ p m, <[p.1 := p.2]> m) L hs !! h = L !! h.
Proof.
  induction hs as [|[h' o] hs IH]; [done|]. csimpl. intros [Hn Hh]%not_elem_of_cons.
  rewrite lookup_insert_ne by done. auto.
Qed.

Lemma lookup_held_in (hs : list (Z * obj)) (L : gmap Z obj) h o :
  NoDup hs.*1 → (h, o) ∈ hs → foldr (λ p m, <[p.1 := p.2]> m) L hs !! h = Some o.
Proof.
  induction hs as [|[h' o'] hs IH]; [by intros _ ?%elem_of_nil|]. csimpl.
  intros [Hn Hd]%NoDup_cons [[= <- <-]|Hin]%elem_of_cons; [apply lookup_insert_eq|].
  rewrite lookup_insert_ne; [auto|]. intros <-. apply Hn. apply list_elem_of_fmap. by exists (h', o).
Qed.

Lemma delete_held (hs : list (Z * obj)) (L : gmap Z obj) h o hs' :
  NoDup hs.*1 → Forall (λ h, L !! h = None) hs.*1 → hs ≡ₚ (h, o) :: hs' →
  delete h (foldr (λ p m, <[p.1 := p.2]> m) L hs) = foldr (λ p m, <[p.1 := p.2]> m) L hs'.
Proof.
  intros Hd Hf Hp. assert (NoDup (h :: hs'.*1)) as [Hn Hd']%NoDup_cons
    by (change (h :: hs'.*1) with (((h, o) :: hs').*1); by rewrite <- Hp).
  assert (Forall (λ h, L !! h = None) (((h, o) :: hs').*1)) as Hf' by (by rewrite <- Hp).
  csimpl in Hf'. apply Forall_cons in Hf' as [Hh Hf'].
  apply map_eq. intros i. destruct (decide (i = h)) as [->|Hi].
  - rewrite lookup_delete_eq. symmetry. by rewrite lookup_held.
  - rewrite lookup_delete_ne by done. destruct (decide (i ∈ hs'.*1)) as [Hin|Hin].
    + apply list_elem_of_fmap in Hin as ([i' o'] & -> & Hin).
      rewrite !(lookup_held_in _ _ _ o'); [done|done|done|done|]. rewrite Hp. by right.
    + rewrite !lookup_held; [done|done|]. rewrite Hp. csimpl. by apply not_elem_of_cons.
Qed.

Section Rules.
Context (L : gmap Z obj) (P : gmap Z Z).

(** Some call failed. *)
Definition some_failure : Prop := ∃ n, answer n = false.

Lemma wp_succeeds hs (Q : bool → world → Prop) E w : held L P hs w →
  (∀ w', held L P hs w' → Q true w') → (∀ w', held L P hs w' → some_failure → Q false w') →
  wp succeeds Q E w.
Proof.
  intros [] HT HF. unfold wp, succeeds. destruct (answer (asked w)) eqn:Ea; [apply HT; by split|].
  apply HF; [by split|by eexists].
Qed.

Lemma wp_all_succeed hs n (Q : bool → world → Prop) E : ∀ w, held L P hs w →
  (∀ w', held L P hs w' → Q true w') → (∀ w', held L P hs w' → some_failure → Q false w') →
  wp (all_succeed n) Q E w.
Proof.
  induction n as [|n IH]; intros w Hw HT HF; simpl; [by apply HT|].
  apply wp_bind. eapply wp_succeeds; [done|..]; intros w' Hw'; [by apply IH|by apply HF].
Qed.

Lemma wp_put hs o (Q : Z → world → Prop) E w : held L P hs w →
  (∀ h w', h ≠ 0 → held L P ((h, o) :: hs) w' → Q h w') → wp (put o) Q E w.
Proof.
  intros [Hl Hk Hf Hd (Hn & HL & HP)] HQ. apply HQ; [lia|].
  assert (L !! next w = None) as Hfresh.
  { destruct (L !! next w) eqn:El; [|done]. destruct (HL (next w)); [by eexists|lia]. }
  split; simpl; [by rewrite Hl|done|..].
  - apply Forall_cons. split; [split_and!; [lia..|done]|].
    eapply Forall_impl; [done|]. simpl. intros h (? & ? & ?). split_and!; [done|lia|done].
  - apply NoDup_cons. split; [|done]. intros Hin. rewrite Forall_forall in Hf.
    destruct (Hf _ Hin) as (_ & ? & _). lia.
  - split_and!; [lia|intros h Hh; specialize (HL h Hh); lia|intros h Hh; specialize (HP h Hh); lia].
Qed.

Lemma wp_new hs o (Q : Z → world → Prop) E w : held L P hs w →
  (∀ h w', h ≠ 0 → held L P ((h, o) :: hs) w' → Q h w') →
  (∀ w', held L P hs w' → some_failure → Q 0 w') → wp (new o) Q E w.
Proof.
  intros Hw HQ H0. apply wp_bind. eapply wp_succeeds; [done|..]; intros w' Hw'; [by eapply wp_put|by apply H0].
Qed.

Lemma wp_release hs h o hs' (Q : unit → world → Prop) E w : held L P hs w → hs ≡ₚ (h, o) :: hs' →
  (∀ w', held L P hs' w' → Q tt w') → wp (release h) Q E w.
Proof.
  intros [Hl Hk Hf Hd Hn] Hp HQ. unfold wp, release.
  rewrite bool_decide_eq_true_2 by (rewrite Hl, (lookup_held_in _ _ _ o); [by eexists|done|rewrite Hp; by left]).
  apply HQ. rewrite Hp in Hf, Hd. csimpl in Hf. csimpl in Hd.
  apply Forall_cons in Hf as [Hh Hf]. apply NoDup_cons in Hd as [Hd Hd'].
  split; simpl; [|done..]. rewrite Hl. eapply delete_held; [rewrite Hp; by apply NoDup_cons| |done].
  rewrite Hp. csimpl. apply Forall_cons. split; [apply Hh|]. eapply Forall_impl; [done|]. by intros ? (_ & _ & ?).
Qed.

Lemma held_nonzero hs h o w : held L P hs w → (h, o) ∈ hs → h ≠ 0.
Proof.
  intros [_ _ Hf _ _] Hin. rewrite Forall_forall in Hf. apply (Hf h). apply list_elem_of_fmap. by exists (h, o).
Qed.

Lemma wp_release_if hs h o hs' (Q : unit → world → Prop) E w : held L P hs w → hs ≡ₚ (h, o) :: hs' →
  (∀ w', held L P hs' w' → Q tt w') → wp (release_if h) Q E w.
Proof.
  intros Hw Hp HQ. unfold release_if. rewrite (proj2 (Z.eqb_neq h 0)); [by eapply wp_release|].
  eapply held_nonzero; [done|]. rewrite Hp. by left.
Qed.

Lemma wp_release_null hs (Q : unit → world → Prop) E w : held L P hs w →
  (∀ w', held L P hs w' → Q tt w') → wp (release_if 0) Q E w.
Proof. intros Hw HQ. by apply HQ. Qed.

Lemma wp_obj_at hs h o (Q : obj → world → Prop) E w : held L P hs w → (h, o) ∈ hs ∨ (L !! h = Some o) →
  (∀ w', held L P hs w' → Q o w') → wp (obj_at h) Q E w.
Proof.
  intros Hw Hin HQ. unfold wp, obj_at. replace (live w !! h) with (Some o); [by apply HQ|].
  destruct Hw as [-> _ Hf Hd _]. symmetry. destruct Hin as [Hin|Hin]; [by apply lookup_held_in|].
  rewrite lookup_held; [done|]. intros Hh. rewrite Forall_forall in Hf. destruct (Hf _ Hh) as (_ & _ & ?). congruence.
Qed.

Lemma wp_pkey_at hs h k (Q : K → world → Prop) E w : held L P hs w → (h, PKEY k) ∈ hs ∨ L !! h = Some (PKEY k) →
  (∀ w', held L P hs w' → Q k w') → wp (pkey_at h) Q E w.
Proof. intros Hw Hin HQ. apply wp_bind. by eapply wp_obj_at. Qed.

Lemma wp_buffer_at hs h b (Q : bytes → world → Prop) E w : held L P hs w → (h, BUFFER b) ∈ hs →
  (∀ w', held L P hs w' → Q b w') → wp (buffer_at h) Q E w.
Proof. intros Hw Hin HQ. apply wp_bind. eapply wp_obj_at; [done|by left|done]. Qed.

Lemma wp_if {A} (b : bool) (m m' : call A) Q E w :
  (b = true → wp m Q E w) → (b = false → wp m' Q E w) → wp (if b then m else m') Q E w.
Proof. destruct b; auto. Qed.
End Rules.

(** Finding an object in the list of what is held. *)
Lemma held_here (h : Z) (o : obj) l : (h, o) :: l ≡ₚ (h, o) :: l.
Proof. done. Qed.
Lemma held_there (h h' : Z) (o o' : obj) l l' : l ≡ₚ (h, o) :: l' → (h', o') :: l ≡ₚ (h, o) :: (h', o') :: l'.
Proof. intros ->. apply Permutation_swap. Qed.

#[local] Ltac find_held := solve [repeat first [apply held_here | apply held_there]].

(** One step of a call: the conditions on handles are decided, the calls of OpenSSL both
    succeed and fail. *)
#[local] Ltac step :=
  cbv beta; cbn [l_pkey l_x509 l_key_bio l_cert_bio l_ret];
  lazymatch goal with
  | |- wp (if _ then _ else _) _ _ _ =>
      repeat match goal with
      | H : ?h ≠ 0 |- context [?h =? 0] => rewrite (proj2 (Z.eqb_neq h 0) H)
      end;
      cbn [Z.eqb orb negb];
      try (lazymatch goal with |- wp (if ?b then _ else _) _ _ _ => destruct b eqn:? end)
  | |- wp (_ ≫= _) _ _ _ => apply wp_bind
  | |- wp (mret _) _ _ _ => apply wp_ret
  | |- wp (BN_bin2bn _) _ _ _ => unfold BN_bin2bn
  | |- wp (give ?h) _ _ _ => unfold give
  | |- wp (new _) _ _ _ => eapply wp_new; [eassumption|intros ?h ?w ?Hh ?Hw|intros ?w ?Hw ?Hfail]
  | |- wp (put _) _ _ _ => eapply wp_put; [eassumption|intros ?h ?w ?Hh ?Hw]
  | |- wp succeeds _ _ _ => eapply wp_succeeds; [eassumption|intros ?w ?Hw|intros ?w ?Hw ?Hfail]
  | |- wp (all_succeed _) _ _ _ => eapply wp_all_succeed; [eassumption|intros ?w ?Hw|intros ?w ?Hw ?Hfail]
  | |- wp (release_if 0) _ _ _ => eapply wp_release_null; [eassumption|intros ?w ?Hw]
  | |- wp (release_if _) _ _ _ => eapply wp_release_if; [eassumption|find_held|intros ?w ?Hw]
  | |- wp (release _) _ _ _ => eapply wp_release; [eassumption|find_held|intros ?w ?Hw]
  | |- wp (match ?x with Some _ => _ | None => _ end) _ _ _ => destruct x eqn:?
  end.
#[local] Ltac run := repeat step.

(** ** Keys *)

(** The answer of a constructor of keys: nothing, and nothing is left; or an object that
    owns the one thing that is left, a key for which [good] holds. *)
Definition made (L : gmap Z obj) (P : gmap Z Z) (good : K → Prop) (r : option Z) (w : world) : Prop :=
  match r with
  | None => held L P [] w
  | Some o => P !! o = None ∧ ∃ h k, good k ∧ held L (<[o := h]> P) [(h, PKEY k)] w
  end.

Lemma wp_finish L P h k good E w : good k → held L P [(h, PKEY k)] w →
  wp (finish h) (made L P good) E w.
Proof.
  intros Hk Hw. assert (h ≠ 0) as Hh by (eapply held_nonzero; [done|by left]).
  unfold finish. rewrite (proj2 (Z.eqb_neq h 0) Hh). apply wp_bind. destruct Hw as [Hl Hks Hf Hd (Hn & HL & HP)].
  split; simpl.
  - destruct (P !! next w) eqn:Ep; [|done]. assert (next w < next w); [|lia]. apply HP. by rewrite Ep.
  - exists h, k. split; [done|]. split; simpl; [done|by rewrite Hks| |done|].
    + eapply Forall_impl; [done|]. simpl. intros ? (? & ? & ?). split_and!; [done|lia|done].
    + split_and!; [lia|intros i Hi; specialize (HL i Hi); lia|].
      intros o [<-|[_ Ho]]%lookup_insert_is_Some; [lia|]. specialize (HP o Ho). lia.
Qed.

Lemma wp_finish_null L P good E w : held L P [] w → wp (finish 0) (made L P good) E w.
Proof. done. Qed.

Lemma wp_fromdata L P hs pctx params d (Q : Z → world → Prop) E w : held L P hs w →
  (∀ h k w', h ≠ 0 → make_key d = Some k → held L P ((h, PKEY k) :: hs) w' → Q h w') →
  (∀ w', held L P hs w' → Q 0 w') → wp (fromdata pctx params d) Q E w.
Proof. intros Hw HQ H0. unfold fromdata. run; eauto. Qed.

#[local] Ltac run_keys :=
  repeat (cbv beta; lazymatch goal with
  | |- wp (fromdata _ _ _) _ _ _ => eapply wp_fromdata; [eassumption|intros ?h ?k ?w ?Hh ?Hk ?Hw|intros ?w ?Hw]
  | |- wp (finish 0) _ _ _ => by apply wp_finish_null
  | |- wp (finish _) _ _ _ => eapply wp_finish; [|eassumption]; by eauto
  | |- made _ _ _ None _ => assumption
  | |- _ => step
  end).

Definition rsa_made (n e : bytes) (k : K) : Prop :=
  if openssl3 then make_key (RSAData (be_value n) (be_value e)) = Some k
  else k = rsa_key (be_value n) (be_value e).

Lemma load_rsa_made L P n e E w : held L P [] w → wp (load_rsa_pubkey n e) (made L P (rsa_made n e)) E w.
Proof.
  intros Hw. unfold load_rsa_pubkey, rsa_made. destruct openssl3; [unfold load_rsa_3|unfold load_rsa_1]; run_keys.
Qed.

(** The point a key on a curve is made from. *)
Definition ec_made (curve x y : bytes) (k : K) : Prop :=
  if openssl3 then 1 + Z.of_nat (length x) + Z.of_nat (length y) ≤ POINT_MAX ∧
    make_key (ECData curve (4 :: x ++ y)) = Some k
  else ∃ nid, nid ≠ 0 ∧ (nid = EC_curve_nist2nid curve ∨ nid = OBJ_txt2nid curve) ∧
    make_key (ECPoint nid (be_value x) (be_value y)) = Some k.

Lemma load_ec_3_made L P curve x y E w : held L P [] w →
  1 + Z.of_nat (length x) + Z.of_nat (length y) < 2 ^ 64 →
  wp (load_ec_3 curve x y) (made L P (λ k, 1 + Z.of_nat (length x) + Z.of_nat (length y) ≤ POINT_MAX ∧
    make_key (ECData curve (4 :: x ++ y)) = Some k)) E w.
Proof.
  intros Hw Hlen. unfold load_ec_3. rewrite u64_small by lia. run_keys.
  unfold point_bin. match goal with H : (_ <? _) = false |- _ => rewrite H; apply Z.ltb_ge in H end.
  run_keys.
Qed.

Lemma load_ec_1_made L P nid x y E w : held L P [] w →
  wp (load_ec_1 nid x y) (made L P (λ k, make_key (ECPoint nid (be_value x) (be_value y)) = Some k)) E w.
Proof. intros Hw. unfold load_ec_1. run_keys. Qed.

Lemma load_x509_made L P pem E w : held L P [] w →
  wp (load_pubkey_from_x509_cert pem) (made L P (λ k, read_x509 pem = Some (Some k))) E w.
Proof. intros Hw. unfold load_pubkey_from_x509_cert. run_keys. Qed.

Lemma wp_drop_key L P o h k (E : world → Prop) w : P !! o = None → held L (<[o := h]> P) [(h, PKEY k)] w →
  wp (drop_key o) (λ _ w', live w' = L ∧ keys w' = P) E w.
Proof.
  intros Ho Hw. unfold drop_key, DESTROY. apply wp_bind. apply wp_bind.
  unfold wp at 1, key_ptr. rewrite (held_keys _ _ _ _ Hw), lookup_insert_eq. run.
  apply wp_modify. destruct Hw0 as [Hl Hk _ _ _]. simpl. split; [done|].
  by rewrite Hk, delete_insert_id.
Qed.

(** ** Signing and the mock certificate *)

Lemma sign_held L P pem message (E : world → Prop) w : held L P [] w →
  (∀ k, read_private_key pem = Some k → Z.of_nat (length (SignFinal k message)) ≤ SIG_MAX) →
  wp (rsa_sign_sha256 pem message) (λ r w', held L P [] w' ∧
    ∀ sig, r = Some sig → ∃ k, read_private_key pem = Some k ∧ sig = SignFinal k message) E w.
Proof.
  intros Hw Hlen. unfold rsa_sign_sha256. run; try by split.
  all: eapply wp_pkey_at; [eassumption|left; right; by left|intros ?w ?Hw]; run; try by split.
  - exfalso. match goal with H : (_ <? _) = true |- _ => apply Z.ltb_lt in H end.
    specialize (Hlen _ eq_refl). lia.
  - split; [done|]. intros ? [= <-]. by eexists.
Qed.

Lemma mock_cert_held L P (E : world → Prop) w : held L P [] w →
  wp generate_mock_cert (λ r w', match r with
    | None => held L P [] w'
    | Some (c, k) => held L P [(k, BUFFER (private_pem generated ++ [0])); (c, BUFFER (x509_pem generated ++ [0]))] w'
    end) E w.
Proof. intros Hw. unfold generate_mock_cert, mock_cert_body, cleanup_at. run; eassumption. Qed.

Lemma c_string_NUL b : 0 ∉ b → c_string (b ++ [0]) = b.
Proof.
  induction b as [|c b IH]; [done|]. intros [Hc Hb]%not_elem_of_cons. simpl.
  rewrite (proj2 (Z.eqb_neq c 0)) by done. by rewrite IH.
Qed.

Lemma cert_held L P (E : world → Prop) w : held L P [] w → 0 ∉ x509_pem generated → 0 ∉ private_pem generated →
  wp generate_self_signed_cert (λ r w', held L P [] w' ∧
    ∀ p, r = Some p → p = (x509_pem generated, private_pem generated)) E w.
Proof.
  intros Hw Hc Hk. unfold generate_self_signed_cert. apply wp_bind.
  eapply wp_mono; [by apply (mock_cert_held L P)|]. intros [[c k]|] w' Hw'; [|by apply wp_ret].
  apply wp_bind. eapply wp_buffer_at; [done|right; by left|intros ?w ?Hw]. apply wp_bind.
  eapply wp_buffer_at; [done|by left|intros ?w ?Hw]. run. split; [done|]. intros p [= <-].
  by rewrite !c_string_NUL.
Qed.

(** The state is one the allocator could have made. *)
Definition sane (w : world) : Prop :=
  0 < next w ∧ (∀ h, is_Some (live w !! h) → 0 < h < next w) ∧ (∀ o, is_Some (keys w !! o) → o < next w).

Lemma sane_held w : sane w → held (live w) (keys w) [] w.
Proof. intros (? & ? & ?). by split; [..|constructor|constructor|]. Qed.

(** What a constructor of keys leaves: nothing, or a key object that owns a key for which
    [good] holds, and that gives everything back when Perl drops it. *)
Definition owns_key (good : K → Prop) (r : outcome (option Z) * world) (w : world) : Prop :=
  match r with
  | (Ret None, w') => live w' = live w ∧ keys w' = keys w
  | (Ret (Some o), w') =>
      (∃ h k, good k ∧ keys w' !! o = Some h ∧ live w' !! h = Some (PKEY k)) ∧
      ∃ w'', drop_key o w' = (Ret tt, w'') ∧ live w'' = live w ∧ keys w'' = keys w
  | _ => False
  end.

Lemma made_owns (m : call (option Z)) good w : sane w →
  (held (live w) (keys w) [] w → wp m (made (live w) (keys w) good) (λ _, False) w) → owns_key good (m w) w.
Proof.
  intros Hs Hm. specialize (Hm (sane_held w Hs)). unfold wp in Hm. destruct (m w) as [[[o|]| |] w']; [|..|done].
  - destruct Hm as (Ho & h & k & Hk & Hw). split.
    + exists h, k. split; [done|]. destruct Hw as [-> -> _ _ _]. simpl. by rewrite !lookup_insert_eq.
    + pose proof (wp_drop_key _ _ _ _ _ (λ _, False) w' Ho Hw) as Hd. unfold wp in Hd.
      destruct (drop_key o w') as [[[]| |] w'']; [|done..]. exists w''. by destruct Hd.
  - by destruct Hm.
  - done.
Qed.

(** C27: nothing OpenSSL allocates is lost or freed twice, whichever of its calls fail.
    Every way of loading a public key (from RSA numbers or curve coordinates, with OpenSSL
    3 or before, or from a certificate) leaves nothing when it answers undef, and otherwise
    an object that owns one key, made from exactly the arguments, which Perl gives back by
    dropping the object; a point longer than its buffer is refused before it is written.
    Signing and making the mock certificate leave nothing at all. *)
Theorem openssl_objects_balanced w n e curve x y pem private message :
  sane w → 1 + Z.of_nat (length x) + Z.of_nat (length y) < 2 ^ 64 →
  (∀ k, read_private_key private = Some k → Z.of_nat (length (SignFinal k message)) ≤ SIG_MAX) →
  0 ∉ x509_pem generated → 0 ∉ private_pem generated →
  owns_key (rsa_made n e) (load_rsa_pubkey n e w) w ∧
  owns_key (ec_made curve x y) (load_ec_pubkey curve x y w) w ∧
  owns_key (λ k, read_x509 pem = Some (Some k)) (load_pubkey_from_x509_cert pem w) w ∧
  (∃ r w', rsa_sign_sha256 private message w = (Ret r, w') ∧ live w' = live w ∧
    ∀ sig, r = Some sig → ∃ k, read_private_key private = Some k ∧ sig = SignFinal k message) ∧
  (∃ r w', generate_self_signed_cert w = (Ret r, w') ∧ live w' = live w ∧
    ∀ p, r = Some p → p = (x509_pem generated, private_pem generated)).
Proof.
  intros Hs Hlen Hsig Hc Hk. split_and!; try (apply made_owns; [done|intros Hw]).
  - by apply load_rsa_made.
  - unfold load_ec_pubkey, ec_made. set (nid := if EC_curve_nist2nid curve =? 0 then _ else _).
    destruct (Z.eqb_spec nid 0) as [E|E]; [by apply wp_ret|]. destruct openssl3.
    + by apply load_ec_3_made.
    + eapply wp_mono; [by apply load_ec_1_made|]. intros [o|] w'; [|done].
      intros (? & h & k & ? & ?). split; [done|]. exists h, k. split; [|done]. exists nid.
      split_and!; [done| |done]. unfold nid. destruct (_ =? 0); auto.
  - by apply load_x509_made.
  - pose proof (sign_held _ _ private message (λ _, False) w (sane_held w Hs) Hsig) as H. unfold wp in H.
    destruct (rsa_sign_sha256 private message w) as [[r| |] w']; [|done..]. exists r, w'.
    destruct H as [Hw ?]. split_and!; [done| |done]. apply Hw.
  - pose proof (cert_held _ _ (λ _, False) w (sane_held w Hs) Hc Hk) as H. unfold wp in H.
    destruct (generate_self_signed_cert w) as [[r| |] w']; [|done..]. exists r, w'.
    destruct H as [Hw ?]. split_and!; [done| |done]. apply Hw.
Qed.

(** ** Verifying *)

(** What [EVP_VerifyFinal] is given when nothing fails: for a curve key and an even number
    of bytes, the DER form of the two halves. *)
Definition as_der (k : K) (sig : bytes) : bytes :=
  if is_ec k && Z.even (Z.of_nat (length sig)) then
    let half := (length sig / 2)%nat in
    i2d_ECDSA_SIG (be_value (take half sig)) (be_value (drop half sig))
  else sig.

(** What is left after [actual_signature]: the structure and the buffer, if they were made,
    or one number, when the other could not be. *)
Definition sig_held L P (ec_sig der_buf : Z) (w : world) : Prop :=
  ∃ hs, held L P hs w ∧ (ec_sig = 0 ∧ der_buf = 0 ∧ hs = [] ∨
    ec_sig = 0 ∧ der_buf = 0 ∧ some_failure ∧ (∃ h v, hs = [(h, BIGNUM v)]) ∨
    (∃ r s, hs = [(ec_sig, ECDSA_SIG r s)]) ∧ der_buf = 0 ∨
    (∃ r s b, hs = [(der_buf, BUFFER b); (ec_sig, ECDSA_SIG r s)])).

Lemma half_length (sig : bytes) : Z.even (Z.of_nat (length sig)) = true → Z.of_nat (length sig) < 2 ^ 32 →
  i32 (Z.of_nat (length sig) / 2) = Z.of_nat (length sig / 2) ∧ (length sig = length sig / 2 + length sig / 2)%nat.
Proof.
  intros He Hlen. rewrite Nat2Z.inj_div. change (Z.of_nat 2) with 2. split.
  - apply i32_small. split; [|apply Z.div_lt_upper_bound; lia].
    trans 0; [lia|]. apply Z.div_pos; lia.
  - apply Nat2Z.inj. rewrite Nat2Z.inj_add, Nat2Z.inj_div. change (Z.of_nat 2) with 2.
    apply Zeven_bool_iff, Zeven_div2 in He. rewrite Z.div2_div in He. lia.
Qed.

Lemma actual_signature_held L P k sig E w : held L P [] w → Z.of_nat (length sig) < 2 ^ 32 →
  wp (actual_signature k sig) (λ '(ec_sig, der_buf, actual) w', sig_held L P ec_sig der_buf w' ∧
    (actual = as_der k sig ∨ actual = sig ∧ some_failure)) E w.
Proof.
  intros Hw Hlen. unfold actual_signature, as_der.
  destruct (is_ec k && Z.even (Z.of_nat (length sig))) eqn:He.
  2: { apply wp_ret. split; [|by left]. exists []. by split; [|left]. }
  apply andb_true_iff in He as [_ He]. destruct (half_length sig He Hlen) as [-> Hl].
  rewrite (proj2 (Z.ltb_ge _ _)), Nat2Z.id by lia.
  assert (take (length sig / 2) (drop (length sig / 2) sig) = drop (length sig / 2) sig) as ->
    by (apply take_ge; rewrite length_drop; lia).
  run; (split; [eexists; split; [eassumption|]|]); eauto 12.
Qed.

Lemma wp_release_sig {A} L P ec_sig der_buf (m : call A) Q E w : sig_held L P ec_sig der_buf w →
  (∀ w', (held L P [] w' ∨ some_failure ∧ ∃ h v, held L P [(h, BIGNUM v)] w') → wp m Q E w') →
  wp (release_if ec_sig;; release_if der_buf;; m) Q E w.
Proof.
  intros (hs & Hw & Hhs) HQ.
  destruct Hhs as [(-> & -> & ->)|[(-> & -> & Hf & h & v & ->)|[((r & s & ->) & ->)|(r & s & b & ->)]]];
    repeat (apply wp_bind; step); apply HQ; eauto 6.
Qed.

(** C30: a signature is accepted only when OpenSSL accepts it.  Whatever allocations and calls
    fail, [verify_signature] with a live key object answers yes only if OpenSSL accepts the
    message under that very key, with the signature or the DER form of its halves; when
    nothing fails, the answer is exactly OpenSSL's for the form the key asks for; the key and
    all other objects stay as they were, and nothing is left but, if one of the two halves
    could not be converted, the other. *)
Theorem verify_signature_exact w o h k message sig :
  sane w → keys w !! o = Some h → live w !! h = Some (PKEY k) → Z.of_nat (length sig) < 2 ^ 32 →
  ∃ b w', verify_signature (Object o) message sig w = (Ret b, w') ∧
    (b = true → 0 < VerifyFinal k message sig ∨ 0 < VerifyFinal k message (as_der k sig)) ∧
    ((∀ n, answer n = true) → b = (0 <? VerifyFinal k message (as_der k sig)) ∧ live w' = live w) ∧
    (live w' = live w ∨ ∃ p v, live w !! p = None ∧ live w' = <[p := BIGNUM v]> (live w)).
Proof.
  intros Hs Ho Hh Hlen. pose proof (sane_held w Hs) as Hw. destruct Hs as (Hn & HL & HP).
  assert (h ≠ 0) as Hh0 by (specialize (HL h); rewrite Hh in HL; destruct HL; [by eexists|lia]).
  set (L := live w) in *. set (P := keys w) in *.
  assert (wp (verify_signature (Object o) message sig) (λ b w',
    (held L P [] w' ∨ some_failure ∧ ∃ h v, held L P [(h, BIGNUM v)] w') ∧
    ∃ res, b = (0 <? res) ∧ (some_failure ∧ res = 0 ∨ some_failure ∧ res = VerifyFinal k message sig ∨
      res = VerifyFinal k message (as_der k sig))) (λ _, False) w) as H.
  { unfold verify_signature. apply wp_bind. unfold wp at 1, key_ptr. fold P. rewrite Ho.
    rewrite (proj2 (Z.eqb_neq h 0) Hh0). apply wp_bind.
    eapply wp_pkey_at; [done|by right|intros w1 Hw1]. apply wp_bind.
    eapply wp_mono; [by eapply actual_signature_held|]. intros [[ec_sig der_buf] actual] w2 [(hs & Hw2 & Hhs) Ha].
    apply wp_bind. eapply wp_new; [done|intros md w3 Hmd Hw3|intros w3 Hw3 Hf].
    all: apply wp_bind; eapply wp_mono with (Q := λ res w', sig_held L P ec_sig der_buf w' ∧
      (some_failure ∧ res = 0 ∨ some_failure ∧ res = VerifyFinal k message sig ∨
       res = VerifyFinal k message (as_der k sig)));
      [run; (split; [by exists hs|]); destruct Ha as [->|[-> ?]]; auto|].
    all: intros res w4 [Hw4 Hres]; eapply wp_release_sig; [done|]; intros w5 Hw5; apply wp_ret;
      (split; [done|]); by exists res. }
  unfold wp in H. destruct (verify_signature (Object o) message sig w) as [[b| |] w']; [|done..].
  destruct H as [Hw' (res & -> & Hres)]. exists (0 <? res), w'. split_and!; [done|..].
  - intros Hlt%Z.ltb_lt. destruct Hres as [[_ ->]|[[_ ->]| ->]]; [lia|auto..].
  - intros Hall. assert (¬ some_failure) as Hnf by (intros [n Hn']; specialize (Hall n); congruence). split.
    + by destruct Hres as [[? _]|[[? _]| ->]].
    + destruct Hw' as [Hw'|[? _]]; [apply Hw'|done].
  - destruct Hw' as [Hw'|(_ & p & v & [Hl _ Hf _ _])]; [left; apply Hw'|right].
    exists p, v. split; [|done]. csimpl in Hf. apply Forall_cons in Hf as [(_ & _ & ?) _]. done.
Qed.

(** A signature of a curve key has many accepted forms: zeros in front of both halves
    change nothing. *)
Lemma be_value_zeros n b : be_value (replicate n 0 ++ b) = be_value b.
Proof. unfold be_value. rewrite fold_left_app. f_equal. by induction n. Qed.

Lemma padded_signature_same k n r s : is_ec k = true → length r = length s →
  as_der k (replicate n 0 ++ r ++ replicate n 0 ++ s) = as_der k (r ++ s).
Proof.
  intros Hk Hl. unfold as_der. rewrite Hk.
  assert (∀ a b : bytes, length a = length b → Z.even (Z.of_nat (length (a ++ b))) = true ∧
    take (length (a ++ b) / 2) (a ++ b) = a ∧ drop (length (a ++ b) / 2) (a ++ b) = b) as Hsplit.
  { intros a b Hab. rewrite length_app, <- Hab. replace (length a + length a)%nat with (length a * 2)%nat by lia.
    rewrite Nat.div_mul by lia. split_and!; [|by rewrite take_app_length|by rewrite drop_app_length].
    rewrite Nat2Z.inj_mul, Z.even_mul. apply orb_true_r. }
  rewrite app_assoc. destruct (Hsplit (replicate n 0 ++ r) (replicate n 0 ++ s)) as (-> & -> & ->);
    [by rewrite !length_app, Hl|].
  destruct (Hsplit r s Hl) as (-> & -> & ->). cbn [andb]. by rewrite !be_value_zeros.
Qed.
End Auth.

(** ** A small OpenSSL

    Keys are numbers, even ones for curves; a signature is valid when it is the key with the
    message. *)

Definition toy_key (d : keydata) : option Z :=
  match d with
  | RSAData n e => if n =? 0 then None else Some (2 * n + 1)
  | ECData _ p => Some (2 * be_value p)
  | ECPoint _ x y => Some (2 * (x + y))
  end.
Definition toy_verify (k : Z) (m sig : bytes) : Z := if bool_decide (sig = k :: m) then 1 else 0.
Definition toy_i2d (r s : Z) : bytes := [r; s].
Definition toy_private (pem : bytes) : option Z := head pem.
Definition toy_x509 (pem : bytes) : option (option Z) := match pem with [] => None | k :: _ => Some (Some k) end.
Definition toy_nid (curve : bytes) : Z := if bool_decide (curve = str "P-256") then 415 else 0.

Definition no_objects : world (K := Z) := {| next := 16; live := ∅; keys := ∅; asked := 0 |}.

(** One curve key, and the object that owns it. *)
Definition one_key : world (K := Z) :=
  {| next := 48; live := {[ 16 := PKEY 6 ]}; keys := {[ 32 := 16 ]}; asked := 0 |}.

Lemma sane_no_objects : sane no_objects.
Proof. split_and!; [done|intros ? [? [=]]..]. Qed.

Lemma sane_one_key : sane one_key.
Proof. split_and!; [done|intros ? Hi; simpl in *; destruct Hi as [? [<- _]%lookup_singleton_Some]; lia..]. Qed.

Lemma verify_signature_exact_witness :
  let verify := verify_signature (λ _, true) Z.even toy_verify toy_i2d in
  ∃ b w', verify (Object 32) [7] [6; 7] one_key = (Ret b, w') ∧
    (b = true → 0 < toy_verify 6 [7] [6; 7] ∨ 0 < toy_verify 6 [7] (as_der Z.even toy_i2d 6 [6; 7])) ∧
    ((∀ n : nat, true = true) →
      b = (0 <? toy_verify 6 [7] (as_der Z.even toy_i2d 6 [6; 7])) ∧ live w' = live one_key) ∧
    (live w' = live one_key ∨ ∃ p v, live one_key !! p = None ∧ live w' = <[p := BIGNUM v]> (live one_key)).
Proof.
  apply (verify_signature_exact (λ _, true) Z.even toy_verify toy_i2d one_key 32 16 6 [7] [6; 7]);
    [exact sane_one_key|done|done|done].
Defined.

Lemma openssl_objects_balanced_witness :
  let answer n := negb (bool_decide (n = 9%nat)) in
  let pem k := [k] in
  owns_key (rsa_made true toy_key (λ n _, n) [3] [1]) (load_rsa_pubkey answer true toy_key (λ n _, n) [3] [1] no_objects)
    no_objects ∧
  owns_key (ec_made true toy_key toy_nid toy_nid (str "P-256") [1] [2])
    (load_ec_pubkey answer true toy_key toy_nid toy_nid (str "P-256") [1] [2] no_objects) no_objects ∧
  owns_key (λ k, toy_x509 [8] = Some (Some k)) (load_pubkey_from_x509_cert answer toy_x509 [8] no_objects) no_objects ∧
  (∃ r w', rsa_sign_sha256 answer toy_private (λ k m, k :: m) [5] [7] no_objects = (Ret r, w') ∧
    live w' = live no_objects ∧ ∀ sig, r = Some sig → ∃ k, toy_private [5] = Some k ∧ sig = k :: [7]) ∧
  (∃ r w', generate_self_signed_cert answer 9 pem pem no_objects = (Ret r, w') ∧
    live w' = live no_objects ∧ ∀ p, r = Some p → p = (pem 9, pem 9)).
Proof.
  apply (openssl_objects_balanced (λ n, negb (bool_decide (n = 9%nat))) true toy_key (λ n _, n) toy_nid toy_nid
    toy_x509 toy_private (λ k m, k :: m) 9 (λ k, [k]) (λ k, [k]) no_objects).
  - exact sane_no_objects.
  - done.
  - intros k [= <-]. done.
  - by_compute.
  - by_compute.
Defined.

(** The examples where the code goes wrong.  The destructor does not clear the pointer:
    called once by hand, it frees the key a second time when Perl drops the object. *)
Example destroyed_by_hand :
  ((DESTROY (Object 32);; drop_key 32) one_key).1 = Fault "double free".
Proof. by vm_compute. Qed.

(** [sv_derived_from] is true of the name of the class as well. *)
Example class_name_is_no_key :
  (verify_signature (λ _, true) Z.even toy_verify toy_i2d ClassName [7] [6; 7] one_key).1 =
    Fault "SvRV of a string".
Proof. done. Qed.

(** The same coordinates, cut elsewhere, make the same key; and a signature with zeros in
    front of its halves is accepted as well. *)
Example point_without_shape :
  (load_ec_3 (λ _, true) toy_key [] [1; 2] [3] no_objects).2 =
    (load_ec_3 (λ _, true) toy_key [] [1] [2; 3] no_objects).2.
Proof. by vm_compute. Qed.

Example padded_signature_accepted :
  let verify sig := (verify_signature (λ _, true) Z.even toy_verify toy_i2d (Object 32) [7] sig one_key).1 in
  (verify [6; 7], verify [0; 6; 0; 7], verify [6; 0; 7]) = (Ret true, Ret true, Ret false).
Proof. by vm_compute. Qed.

(** If [BN_bin2bn] fails for the second half, the first is lost. *)
Example half_lost :
  live (verify_signature (λ n, negb (n =? 1)%nat) Z.even toy_verify toy_i2d (Object 32) [7] [6; 7] one_key).2 =
    {[ 16 := PKEY 6; 48 := BIGNUM 6 ]}.
Proof. by vm_compute. Qed.
