(* ===== verification/Nghttp2.v ===== *)
(** * The HTTP/2 engine of the gRPC client (Google-gRPC/NGHTTP2.xs)

    The sessions Perl holds, the callbacks nghttp2 makes into Perl, and the bodies of
    requests, which nghttp2 reads piece by piece from buffers of Perl strings.  The
    protocol is nghttp2's: what its calls answer, and which callbacks they make in which
    order, are arguments. *)

From S2P Require Import Prelude.

(** ** State *)

(** [perl_data_source_t]: the buffer belongs to a Perl string. *)
Record data_source := { ds_buf : Z; ds_len : Z; ds_pos : Z }.

(** [perl_nghttp2_session_t]: the session of nghttp2 and the callbacks, 0 for NULL. *)
Record session := { ng : Z; on_headers_cb : Z; on_data_cb : Z; on_trailers_cb : Z; on_stream_close_cb : Z }.

(** A call of a Perl callback, or of [nghttp2_session_del]. *)
Inductive perl_call :=
  | CallHeader (cb stream : Z) (name value : bytes)
  | CallData (cb stream : Z) (data : bytes)
  | CallClose (cb stream code : Z)
  | SessionDel (ng : Z).

(** [bufs]: the buffers of Perl's strings.  [ivs]: the scalars that references of Perl code
    point to, with their integer values.  [callbacks]: the copies of code references held by
    sessions.  [providers]: the data source nghttp2 keeps for a stream.  [nvas]: the arrays of
    headers not freed. *)
Record world := {
  bufs : gmap Z bytes;
  sources : gmap Z data_source;
  sessions : gmap Z session;
  ivs : gmap Z Z;
  callbacks : gset Z;
  providers : gmap Z Z;
  next : Z;
  nvas : Z;
  perl_calls : list perl_call }.

Abbreviation call := (cmd world).

Definition set_sources (s : gmap Z data_source) (w : world) : world :=
  {| bufs := bufs w; sources := s; sessions := sessions w; ivs := ivs w; callbacks := callbacks w;
     providers := providers w; next := next w; nvas := nvas w; perl_calls := perl_calls w |}.
Definition set_sessions (s : gmap Z session) (w : world) : world :=
  {| bufs := bufs w; sources := sources w; sessions := s; ivs := ivs w; callbacks := callbacks w;
     providers := providers w; next := next w; nvas := nvas w; perl_calls := perl_calls w |}.
Definition set_ivs (i : gmap Z Z) (w : world) : world :=
  {| bufs := bufs w; sources := sources w; sessions := sessions w; ivs := i; callbacks := callbacks w;
     providers := providers w; next := next w; nvas := nvas w; perl_calls := perl_calls w |}.
Definition set_callbacks (c : gset Z) (w : world) : world :=
  {| bufs := bufs w; sources := sources w; sessions := sessions w; ivs := ivs w; callbacks := c;
     providers := providers w; next := next w; nvas := nvas w; perl_calls := perl_calls w |}.
Definition set_providers (p : gmap Z Z) (w : world) : world :=
  {| bufs := bufs w; sources := sources w; sessions := sessions w; ivs := ivs w; callbacks := callbacks w;
     providers := p; next := next w; nvas := nvas w; perl_calls := perl_calls w |}.
Definition set_nvas (n : Z) (w : world) : world :=
  {| bufs := bufs w; sources := sources w; sessions := sessions w; ivs := ivs w; callbacks := callbacks w;
     providers := providers w; next := next w; nvas := n; perl_calls := perl_calls w |}.
Definition set_bufs (b : gmap Z bytes) (w : world) : world :=
  {| bufs := b; sources := sources w; sessions := sessions w; ivs := ivs w; callbacks := callbacks w;
     providers := providers w; next := next w; nvas := nvas w; perl_calls := perl_calls w |}.
Definition log (c : perl_call) (w : world) : world :=
  {| bufs := bufs w; sources := sources w; sessions := sessions w; ivs := ivs w; callbacks := callbacks w;
     providers := providers w; next := next w; nvas := nvas w; perl_calls := perl_calls w ++ [c] |}.

Definition fresh : call Z := λ w,
  (Ret (next w),
   {| bufs := bufs w; sources := sources w; sessions := sessions w; ivs := ivs w; callbacks := callbacks w;
      providers := providers w; next := next w + 16; nvas := nvas w; perl_calls := perl_calls w |}).

Definition source_at (p : Z) : call data_source := λ w,
  match sources w !! p with Some s => (Ret s, w) | None => (Fault "freed data source", w) end.
Definition session_at (p : Z) : call session := λ w,
  match sessions w !! p with Some s => (Ret s, w) | None => (Fault "not a session", w) end.

(** An argument of an XSUB: [None] is no reference.  A reference to any scalar will do: its
    integer is taken for the address. *)
Definition get_session_ptr (sv : option Z) : call Z :=
  match sv with
  | None => mret 0
  | Some inner => λ w, (Ret (default 0 (ivs w !! inner)), w)
  end.

(** ** The callbacks *)

(** [my_data_read_callback]: the bytes copied, whether [NGHTTP2_DATA_FLAG_EOF] is set, and
    what [source->ptr] is afterwards. *)
Definition my_data_read_callback (ptr length_ : Z) : call (bytes * bool * Z) :=
  if ptr =? 0 then mret ([], false, 0)
  else
    src ← source_at ptr;
    let rem := u64 (ds_len src - ds_pos src) in
    let copy_len := if rem <? length_ then rem else length_ in
    w ← cget;
    chunk ←
      (if 0 <? copy_len then
         match bufs w !! ds_buf src with
         | Some b =>
             if Z.of_nat (length b) <? ds_pos src + copy_len then cfault "read past the string"
             else mret (take (Z.to_nat copy_len) (drop (Z.to_nat (ds_pos src)) b))
         | None => cfault "read of a freed string"
         end
       else mret []);
    let pos := ds_pos src + copy_len in
    if ds_len src <=? pos then
      cmodify (λ w, set_sources (delete ptr (sources w)) w);; mret (chunk, true, 0)
    else
      cmodify (λ w, set_sources (<[ptr := {| ds_buf := ds_buf src; ds_len := ds_len src; ds_pos := pos |}]> (sources w)) w);;
      mret (chunk, false, ptr).

(** The categories of [HEADERS] frames: the header block that opens a response, one that
    nghttp2 got with a promised stream, any later one (trailers), one of a request. *)
Inductive headers_category := HCAT_REQUEST | HCAT_RESPONSE | HCAT_PUSH_RESPONSE | HCAT_HEADERS.

Definition header_callback (sess : session) (cat : headers_category) : Z :=
  match cat with
  | HCAT_HEADERS | HCAT_RESPONSE => on_headers_cb sess
  | _ => if on_trailers_cb sess =? 0 then on_headers_cb sess else on_trailers_cb sess
  end.

(** The callbacks hold for a session that nghttp2 was given as user data; [is_headers]: the
    frame's type is [NGHTTP2_HEADERS]. *)
Definition my_on_header_callback (p : Z) (is_headers : bool) (cat : headers_category) (stream : Z)
    (name value : bytes) : call unit :=
  if p =? 0 then mret tt
  else
    sess ← session_at p;
    if is_headers then
      let cb := header_callback sess cat in
      if cb =? 0 then mret tt else cmodify (log (CallHeader cb stream name value))
    else mret tt.

Definition my_on_data_chunk_recv_callback (p stream : Z) (data : bytes) : call unit :=
  if p =? 0 then mret tt
  else
    sess ← session_at p;
    if on_data_cb sess =? 0 then mret tt else cmodify (log (CallData (on_data_cb sess) stream data)).

Definition my_on_stream_close_callback (p stream error_code : Z) : call unit :=
  if p =? 0 then mret tt
  else
    sess ← session_at p;
    if on_stream_close_cb sess =? 0 then mret tt
    else cmodify (log (CallClose (on_stream_close_cb sess) stream error_code)).

(** ** The XSUBs *)

(** [_xs_new]: [session] is nghttp2's, 0 if it could not be made, whose [submit_settings]
    then gets NULL. *)
Definition xs_new (session : Z) : call Z :=
  sess ← fresh;
  cmodify (λ w, set_sessions (<[sess := {| ng := session; on_headers_cb := 0; on_data_cb := 0; on_trailers_cb := 0;
                                           on_stream_close_cb := 0 |}]> (sessions w)) w);;
  (if session =? 0 then cfault "nghttp2_submit_settings(NULL)" else mret tt);;
  inner ← fresh;
  cmodify (λ w, set_ivs (<[inner := sess]> (ivs w)) w);;
  mret inner.

(** [SvREFCNT_dec] of a copy only the session holds. *)
Definition drop_callback (cb : Z) : call unit :=
  if cb =? 0 then mret tt
  else
    w ← cget;
    if bool_decide (cb ∈ callbacks w) then cmodify (set_callbacks (callbacks w ∖ {[cb]}))
    else cfault "freed callback".

(** [newSVsv]. *)
Definition new_callback : call Z :=
  cb ← fresh;
  cmodify (λ w, set_callbacks ({[cb]} ∪ callbacks w) w);;
  mret cb.

(** One callback of [_xs_set_callbacks]: [defined] says whether the argument is. *)
Definition replace_callback (old : Z) (defined : bool) : call Z :=
  if defined then drop_callback old;; new_callback else mret old.

Definition xs_set_callbacks (self : option Z) (headers data trailers close : bool) : call unit :=
  p ← get_session_ptr self;
  cguard (negb (p =? 0)) "invalid session pointer";;
  s ← session_at p;
  h ← replace_callback (on_headers_cb s) headers;
  d ← replace_callback (on_data_cb s) data;
  t ← replace_callback (on_trailers_cb s) trailers;
  c ← replace_callback (on_stream_close_cb s) close;
  cmodify (λ w, set_sessions (<[p := {| ng := ng s; on_headers_cb := h; on_data_cb := d; on_trailers_cb := t;
                                        on_stream_close_cb := c |}]> (sessions w)) w).

Definition DESTROY (self : option Z) : call unit :=
  p ← get_session_ptr self;
  if p =? 0 then mret tt
  else
    s ← session_at p;
    (if ng s =? 0 then mret tt else cmodify (log (SessionDel (ng s))));;
    drop_callback (on_headers_cb s);;
    drop_callback (on_data_cb s);;
    drop_callback (on_trailers_cb s);;
    drop_callback (on_stream_close_cb s);;
    cmodify (λ w, set_sessions (delete p (sessions w)) w).

(** A Perl string: its buffer, and whether it has characters above 255. *)
Record string_sv := { sv_buf : Z; sv_wide : bool }.

(** [SvPVbyte]. *)
Definition SvPVbyte (sv : string_sv) : call (Z * bytes) :=
  if sv_wide sv then ccroak "Wide character in subroutine entry"
  else λ w, match bufs w !! sv_buf sv with
            | Some b => (Ret (sv_buf sv, b), w)
            | None => (Fault "freed string", w)
            end.

(** One name or value of [nva]: an element the array does not have is an empty string with
    a length that was never set. *)
Definition nv_part (sv : option string_sv) : call bytes :=
  match sv with
  | Some sv => r ← SvPVbyte sv; mret r.2
  | None => cfault "length never set"
  end.

Fixpoint make_nva (headers : list (option string_sv)) : call (list (bytes * bytes)) :=
  match headers with
  | k :: v :: headers =>
      name ← nv_part k;
      value ← nv_part v;
      rest ← make_nva headers;
      mret ((name, value) :: rest)
  | _ => mret []
  end.

(** The source of a body: 0 if there is none. *)
Definition make_source (data_sv : option string_sv) : call Z :=
  match data_sv with
  | None => mret 0
  | Some sv =>
      src ← fresh;
      cmodify (λ w, set_sources (<[src := {| ds_buf := 0; ds_len := 0; ds_pos := 0 |}]> (sources w)) w);;
      r ← SvPVbyte sv;
      cmodify (λ w, set_sources (<[src := {| ds_buf := r.1; ds_len := Z.of_nat (length r.2); ds_pos := 0 |}]> (sources w)) w);;
      mret src
  end.

(** [_xs_submit_request]: [headers] is [None] when it is no reference to an array; [submit]
    is [nghttp2_submit_request], which answers the new stream or a negative error.
    [end_stream] is not looked at. *)
Definition xs_submit_request (submit : list (bytes * bytes) → bool → Z) (self : option Z)
    (headers : option (list (option string_sv))) (data_sv : option string_sv) (end_stream : bool) : call Z :=
  p ← get_session_ptr self;
  cguard (negb (p =? 0)) "invalid session pointer";;
  match headers with
  | None => ccroak "headers must be an array reference"
  | Some av =>
      cguard (Nat.even (length av)) "headers array must contain key/value pairs";;
      cmodify (λ w, set_nvas (nvas w + 1) w);;
      nva ← make_nva av;
      src ← make_source data_sv;
      session_at p;;
      let stream_id := submit nva (negb (src =? 0)) in
      cmodify (λ w, set_nvas (nvas w - 1) w);;
      if stream_id <? 0 then ccroak "nghttp2_submit_request failed"
      else
        (if src =? 0 then mret tt else cmodify (λ w, set_providers (<[stream_id := src]> (providers w)) w));;
        mret stream_id
  end.

(** What [nghttp2_session_mem_recv] does with input: the callbacks it makes. *)
Inductive recv_event :=
  | RHeader (is_headers : bool) (cat : headers_category) (stream : Z) (name value : bytes)
  | RData (stream : Z) (data : bytes)
  | RClose (stream code : Z).

Definition on_event (p : Z) (e : recv_event) : call unit :=
  match e with
  | RHeader is_headers cat stream name value => my_on_header_callback p is_headers cat stream name value
  | RData stream data => my_on_data_chunk_recv_callback p stream data
  | RClose stream code => my_on_stream_close_callback p stream code
  end.

Fixpoint on_events (p : Z) (l : list recv_event) : call unit :=
  match l with [] => mret tt | e :: l => on_event p e;; on_events p l end.

(** [feed_input]: [recv] is what nghttp2 makes of the bytes: callbacks and its answer. *)
Definition feed_input (recv : bytes → list recv_event * Z) (self : option Z) (input : option string_sv) : call unit :=
  p ← get_session_ptr self;
  cguard (negb (p =? 0)) "invalid session pointer";;
  match input with
  | None => mret tt
  | Some sv =>
      r ← SvPVbyte sv;
      sess ← session_at p;
      if bool_decide (r.2 = []) || (ng sess =? 0) then mret tt
      else
        let '(events, rv) := recv r.2 in
        on_events p events;;
        cguard (negb (rv <? 0)) "nghttp2_session_mem_recv failed"
  end.

(** One call of [nghttp2_session_mem_send]: the reads of bodies it makes, each of a stream
    and a length, and the bytes it makes of what they give; or the end, with 0 or an
    error. *)
Inductive send_step :=
  | Send (reads : list (Z * Z)) (frame : list (bytes * bool) → bytes)
  | Stop (rv : Z).

(** nghttp2 reads the body of a stream. *)
Definition read_stream (stream length_ : Z) : call (bytes * bool) :=
  w ← cget;
  match providers w !! stream with
  | None => cfault "no data source"
  | Some ptr =>
      '(chunk, eof, ptr) ← my_data_read_callback ptr length_;
      cmodify (λ w, set_providers (<[stream := ptr]> (providers w)) w);;
      mret (chunk, eof)
  end.

Fixpoint read_streams (l : list (Z * Z)) : call (list (bytes * bool)) :=
  match l with
  | [] => mret []
  | (stream, n) :: l => r ← read_stream stream n; rs ← read_streams l; mret (r :: rs)
  end.

(** The loop of [get_output]: it ends with the first answer that is not positive. *)
Fixpoint output_loop (steps : list send_step) (res : bytes) : call bytes :=
  match steps with
  | Send reads frame :: steps =>
      chunks ← read_streams reads;
      let out := frame chunks in
      if bool_decide (out = []) then mret res else output_loop steps (res ++ out)
  | _ => mret res
  end.

Definition get_output (steps : list send_step) (self : option Z) : call bytes :=
  p ← get_session_ptr self;
  cguard (negb (p =? 0)) "invalid session pointer";;
  sess ← session_at p;
  if ng sess =? 0 then mret [] else output_loop steps [].

(** ** Bodies

    Requests are submitted on the session behind [self], their bodies read by nghttp2 when
    output is asked for, several at a time; Perl code works on in between. *)
Inductive bop :=
  | BSubmit (stream : Z) (headers : list (option string_sv)) (data : option string_sv)
  | BOutput (steps : list send_step)
  | BPerl (buf : Z) (contents : option bytes).

Inductive bout := OStream (r : outcome Z) | OBytes (r : outcome bytes) | ONone.

Definition run_bop (self : option Z) (op : bop) (w : world) : bout * world :=
  match op with
  | BSubmit stream headers data =>
      let '(r, w) := xs_submit_request (λ _ _, stream) self (Some headers) data true w in (OStream r, w)
  | BOutput steps => let '(r, w) := get_output steps self w in (OBytes r, w)
  | BPerl buf contents =>
      (ONone, set_bufs (match contents with Some b => <[buf := b]> (bufs w) | None => delete buf (bufs w) end) w)
  end.

Fixpoint run_bops (self : option Z) (ops : list bop) (w : world) : list bout * world :=
  match ops with
  | [] => ([], w)
  | op :: ops => let '(r, w) := run_bop self op w in let '(rs, w) := run_bops self ops w in (r :: rs, w)
  end.

(** The specification: the strings of Perl, and for every request that is not sent
    completely where its body is and what is left of it. *)
Record spec := { strings : gmap Z bytes; pending : gmap Z (Z * bytes) }.

Definition spec_read (stream n : Z) (p : gmap Z (Z * bytes)) : bytes * bool * gmap Z (Z * bytes) :=
  match p !! stream with
  | Some (buf, rest) =>
      let done := bool_decide (Z.of_nat (length rest) ≤ n) in
      (take (Z.to_nat n) rest, done,
       if done then delete stream p else <[stream := (buf, drop (Z.to_nat n) rest)]> p)
  | None => ([], false, p)
  end.

Fixpoint spec_reads (l : list (Z * Z)) (p : gmap Z (Z * bytes)) : list (bytes * bool) * gmap Z (Z * bytes) :=
  match l with
  | [] => ([], p)
  | (stream, n) :: l =>
      let '(r, p) := spec_read stream n p in let '(rs, p) := spec_reads l p in (r :: rs, p)
  end.

Fixpoint spec_output (steps : list send_step) (res : bytes) (p : gmap Z (Z * bytes)) : bytes * gmap Z (Z * bytes) :=
  match steps with
  | Send reads frame :: steps =>
      let '(chunks, p) := spec_reads reads p in
      let out := frame chunks in
      if bool_decide (out = []) then (res, p) else spec_output steps (res ++ out) p
  | _ => (res, p)
  end.

Definition spec_bop (op : bop) (s : spec) : bout * spec :=
  match op with
  | BSubmit stream _ data =>
      if stream <? 0 then (OStream (Croak "nghttp2_submit_request failed"), s)
      else (OStream (Ret stream),
            match data with
            | Some sv => {| strings := strings s; pending :=
                <[stream := (sv_buf sv, default [] (strings s !! sv_buf sv))]> (pending s) |}
            | None => s
            end)
  | BOutput steps =>
      let '(out, p) := spec_output steps [] (pending s) in
      (OBytes (Ret out), {| strings := strings s; pending := p |})
  | BPerl buf contents =>
      (ONone, {| strings := match contents with Some b => <[buf := b]> (strings s) | None => delete buf (strings s) end;
                 pending := pending s |})
  end.

Fixpoint spec_bops (ops : list bop) (s : spec) : list bout * spec :=
  match ops with
  | [] => ([], s)
  | op :: ops => let '(r, s) := spec_bop op s in let '(rs, s) := spec_bops ops s in (r :: rs, s)
  end.

(** What nghttp2 and the caller keep to: nghttp2 reads only bodies it has not seen the end
    of, some bytes at a time, and numbers requests afresh; Perl passes strings of bytes, and
    leaves those alone that are still to be read. *)
Fixpoint reads_ok (l : list (Z * Z)) (p : gmap Z (Z * bytes)) : Prop :=
  match l with
  | [] => True
  | (stream, n) :: l => is_Some (p !! stream) ∧ 0 < n < 2 ^ 64 ∧ reads_ok l (spec_read stream n p).2
  end.

Fixpoint sends_ok (steps : list send_step) (p : gmap Z (Z * bytes)) : Prop :=
  match steps with
  | Send reads frame :: steps =>
      reads_ok reads p ∧ let '(chunks, p) := spec_reads reads p in frame chunks = [] ∨ sends_ok steps p
  | _ => True
  end.

Definition string_ok (s : spec) (sv : string_sv) : Prop :=
  sv_wide sv = false ∧ ∃ b, strings s !! sv_buf sv = Some b ∧ Z.of_nat (length b) < 2 ^ 64.

Definition bop_ok (s : spec) (op : bop) : Prop :=
  match op with
  | BSubmit stream headers data =>
      pending s !! stream = None ∧ Nat.even (length headers) = true ∧
      Forall (λ h, ∃ sv, h = Some sv ∧ string_ok s sv) headers ∧
      match data with Some sv => string_ok s sv | None => True end
  | BOutput steps => sends_ok steps (pending s)
  | BPerl buf _ => ∀ stream b rest, pending s !! stream = Some (b, rest) → b ≠ buf
  end.

Fixpoint bops_ok (ops : list bop) (s : spec) : Prop :=
  match ops with [] => True | op :: ops => bop_ok s op ∧ bops_ok ops (spec_bop op s).2 end.

(** The source of a pending body. *)
Definition source_for (w : world) (stream : Z) (buf : Z) (rest : bytes) (ptr : Z) : Prop :=
  providers w !! stream = Some ptr ∧ ptr ≠ 0 ∧ ∃ src b,
    sources w !! ptr = Some src ∧ ds_buf src = buf ∧ bufs w !! buf = Some b ∧
    ds_len src = Z.of_nat (length b) ∧ 0 ≤ ds_pos src ∧ ds_len src < 2 ^ 64 ∧
    ds_pos src ≤ ds_len src ∧ rest = drop (Z.to_nat (ds_pos src)) b.

Record follows (self : option Z) (s : spec) (w : world) : Prop := {
  b_strings : bufs w = strings s;
  b_pending : ∀ stream buf rest, pending s !! stream = Some (buf, rest) → ∃ ptr, source_for w stream buf rest ptr;
  b_unshared : ∀ s1 s2 ptr, is_Some (pending s !! s1) → is_Some (pending s !! s2) →
    providers w !! s1 = Some ptr → providers w !! s2 = Some ptr → s1 = s2;
  b_next : 0 < next w ∧ ∀ p, is_Some (sources w !! p) → p < next w;
  b_session : ∃ inner p sess, self = Some inner ∧ ivs w !! inner = Some p ∧ p ≠ 0 ∧
    sessions w !! p = Some sess ∧ ng sess ≠ 0 }.

Definition with_pending (s : spec) (p : gmap Z (Z * bytes)) : spec := {| strings := strings s; pending := p |}.

Lemma data_read w stream buf rest ptr n : source_for w stream buf rest ptr → 0 < n < 2 ^ 64 →
  let done := bool_decide (Z.of_nat (length rest) ≤ n) in
  ∃ src, sources w !! ptr = Some src ∧
  my_data_read_callback ptr n w =
    (Ret (take (Z.to_nat n) rest, done, if done then 0 else ptr),
     set_sources (if done then delete ptr (sources w)
       else <[ptr := {| ds_buf := buf; ds_len := ds_len src; ds_pos := ds_pos src + n |}]> (sources w)) w).
Proof.
  intros (_ & Hp & src & b & Hs & Hb & Hbuf & Hlen & Hpos & Hl64 & Hle & ->) Hn done.
  exists src. split; [done|]. unfold my_data_read_callback. rewrite (proj2 (Z.eqb_neq ptr 0)) by done.
  rewrite (cbind_ret _ _ w src w) by (unfold source_at; by rewrite Hs).
  rewrite u64_small by lia.
  assert (Z.of_nat (length (drop (Z.to_nat (ds_pos src)) b)) = ds_len src - ds_pos src) as Hrest
    by (rewrite length_drop; lia).
  set (copy_len := if ds_len src - ds_pos src <? n then ds_len src - ds_pos src else n).
  assert (0 ≤ copy_len ≤ n ∧ copy_len ≤ ds_len src - ds_pos src ∧
    (done = true → copy_len = ds_len src - ds_pos src) ∧ (done = false → copy_len = n ∧ n < ds_len src - ds_pos src)) as Hc.
  { unfold copy_len, done. rewrite Hrest. destruct (Z.ltb_spec (ds_len src - ds_pos src) n);
      split_and!; try lia; rewrite ?bool_decide_eq_true, ?bool_decide_eq_false; lia. }
  assert (take (Z.to_nat copy_len) (drop (Z.to_nat (ds_pos src)) b) =
    take (Z.to_nat n) (drop (Z.to_nat (ds_pos src)) b)) as Htake.
  { destruct done eqn:Ed; [|by destruct Hc as (_ & _ & _ & Hf); destruct Hf as [-> _]].
    apply bool_decide_eq_true in Ed. destruct Hc as (_ & _ & Ht & _). rewrite (Ht eq_refl), !take_ge; [done|lia..]. }
  rewrite (cbind_ret _ _ w w w) by done.
  rewrite (cbind_ret _ _ w (take (Z.to_nat n) (drop (Z.to_nat (ds_pos src)) b)) w).
  2: { destruct (Z.ltb_spec 0 copy_len).
       - rewrite Hb, Hbuf, (proj2 (Z.ltb_ge _ _)) by lia. by rewrite Htake.
       - rewrite <- Htake. by replace copy_len with 0 by lia. }
  destruct done eqn:Ed.
  - rewrite (proj2 (Z.leb_le _ _)); [done|]. destruct Hc as (_ & _ & Ht & _). rewrite Ht by done. lia.
  - destruct Hc as (_ & _ & _ & Hf). destruct Hf as [-> ?]; [done|].
    rewrite (proj2 (Z.leb_gt _ _)) by lia. by rewrite Hb.
Qed.

Lemma read_stream_follows self s w stream buf rest n : follows self s w →
  pending s !! stream = Some (buf, rest) → 0 < n < 2 ^ 64 →
  ∃ w', read_stream stream n w = (Ret (spec_read stream n (pending s)).1, w') ∧
    follows self (with_pending s (spec_read stream n (pending s)).2) w'.
Proof.
  intros [Hst Hpe Hun Hne Hse] Hp Hn. destruct (Hpe _ _ _ Hp) as [ptr Hsrc].
  destruct (data_read w stream buf rest ptr n Hsrc Hn) as (src & Hs & Hr).
  unfold read_stream. rewrite (cbind_ret _ _ w w w) by done. rewrite (proj1 Hsrc).
  rewrite (cbind_ret _ _ _ _ _ Hr). unfold spec_read. rewrite Hp. simpl.
  eexists. split; [done|]. destruct (bool_decide (Z.of_nat (length rest) ≤ n)) eqn:Ed; unfold with_pending.
  - split; simpl; [done|..|done].
    + intros st b r [Hne' Hst']%lookup_delete_Some. destruct (Hpe _ _ _ Hst') as (p & Hp1 & Hp0 & Hp2).
      exists p. split; simpl; [by rewrite lookup_insert_ne|]. split; [done|]. destruct Hp2 as (src' & b' & Hsrc' & ?).
      exists src', b'. split; [|done]. rewrite lookup_delete_ne; [done|]. intros <-. apply Hne'.
      by apply (Hun _ _ ptr); [by eexists..|apply Hsrc|].
    + intros s1 s2 p [? [Hn1 H1]%lookup_delete_Some] [? [Hn2 H2]%lookup_delete_Some].
      rewrite !lookup_insert_ne by done. eapply Hun; by eexists.
    + split; [by destruct Hne|].
      intros p [x Hx]. apply lookup_delete_Some in Hx as [_ Hx]. apply Hne. by eexists.
  - apply bool_decide_eq_false in Ed. split; simpl; [done|..|done].
    + intros st b r. destruct (decide (st = stream)) as [->|Hst'].
      * rewrite lookup_insert_eq. intros [= <- <-]. exists ptr. destruct Hsrc as (_ & H0 & src' & b' & Hs' & ? & ? & Hl & ? & ? & ? & ->).
        rewrite Hs in Hs'. injection Hs' as <-. split; simpl; [by rewrite lookup_insert_eq|]. split; [done|].
        rewrite length_drop in Ed. eexists _, b'. split; [by rewrite lookup_insert_eq|]. simpl.
        split_and!; [done|done|done|lia|lia|lia|]. rewrite drop_drop. f_equal. lia.
      * rewrite lookup_insert_ne by done. intros Hst2. destruct (Hpe _ _ _ Hst2) as (p & Hp1 & Hp0 & Hp2).
        exists p. split; simpl; [by rewrite lookup_insert_ne|]. split; [done|].
        destruct Hp2 as (src' & b' & Hsrc' & ?). exists src', b'. split; [|done].
        rewrite lookup_insert_ne; [done|]. intros <-. apply Hst'.
        apply (Hun _ _ ptr); [by eexists|by eexists|done|apply Hsrc].
    + intros s1 s2 p H1 H2. rewrite !lookup_insert_is_Some in H1, H2.
      assert (∀ s', stream = s' ∨ stream ≠ s' ∧ is_Some (pending s !! s') → is_Some (pending s !! s')) as Hin
        by (intros s' [<-|[_ ?]]; [by eexists|done]).
      assert (∀ s', <[stream := ptr]> (providers w) !! s' = providers w !! s') as Hpr.
      { intros s'. destruct (decide (s' = stream)) as [->|]; [|by rewrite lookup_insert_ne].
        rewrite lookup_insert_eq. symmetry. apply Hsrc. }
      rewrite !Hpr. by apply Hun; apply Hin.
    + split; [by destruct Hne|]. intros p [<-|[_ ?]]%lookup_insert_is_Some; apply Hne; [by eexists|done].
Qed.

Lemma read_streams_follows self l : ∀ s w, follows self s w → reads_ok l (pending s) →
  ∃ w', read_streams l w = (Ret (spec_reads l (pending s)).1, w') ∧
    follows self (with_pending s (spec_reads l (pending s)).2) w'.
Proof.
  induction l as [|[stream n] l IH]; intros s w Hf; simpl.
  { intros _. exists w. split; [done|]. by destruct s. }
  intros ([[buf rest] Hp] & Hn & Hl). destruct (read_stream_follows self s w stream buf rest n Hf Hp Hn) as (w1 & E & Hf1).
  rewrite (cbind_ret _ _ _ _ _ E). destruct (spec_read stream n (pending s)) as [r p].
  destruct (IH (with_pending s p) w1 Hf1 Hl) as (w2 & E2 & Hf2). rewrite (cbind_ret _ _ _ _ _ E2). simpl in *.
  destruct (spec_reads l p) as [rs p']. by exists w2.
Qed.

Lemma output_loop_follows self steps : ∀ s w res, follows self s w → sends_ok steps (pending s) →
  ∃ w', output_loop steps res w = (Ret (spec_output steps res (pending s)).1, w') ∧
    follows self (with_pending s (spec_output steps res (pending s)).2) w'.
Proof.
  induction steps as [|[reads frame|rv] steps IH]; intros s w res Hf Hok; simpl.
  1,3: exists w; split; [done|]; by destruct s.
  destruct Hok as [Hr Hok]. destruct (read_streams_follows self reads s w Hf Hr) as (w1 & E & Hf1).
  rewrite (cbind_ret _ _ _ _ _ E). destruct (spec_reads reads (pending s)) as [chunks p]. simpl in *.
  case_bool_decide; [by exists w1|]. destruct Hok as [?|Hok]; [done|].
  by destruct (IH (with_pending s p) w1 (res ++ frame chunks) Hf1 Hok) as (w2 & ? & ?); exists w2.
Qed.

Lemma session_reads self s w : follows self s w → ∃ p sess, p ≠ 0 ∧ ng sess ≠ 0 ∧
  ∀ w', ivs w' = ivs w → sessions w' = sessions w → get_session_ptr self w' = (Ret p, w') ∧ session_at p w' = (Ret sess, w').
Proof.
  intros [_ _ _ _ (inner & p & sess & -> & Hi & Hp & Hs & Hn)]. exists p, sess. split_and!; [done..|].
  intros w' Ei Es. unfold get_session_ptr, session_at. by rewrite Ei, Hi, Es, Hs.
Qed.

Lemma SvPVbyte_reads s w sv : bufs w = strings s → string_ok s sv →
  SvPVbyte sv w = (Ret (sv_buf sv, default [] (strings s !! sv_buf sv)), w).
Proof. intros Hb (Hw & b & Hs & _). unfold SvPVbyte. by rewrite Hw, Hb, Hs. Qed.

Lemma make_nva_reads s headers : ∀ w, bufs w = strings s →
  Forall (λ h, ∃ sv, h = Some sv ∧ string_ok s sv) headers → ∃ nva, make_nva headers w = (Ret nva, w).
Proof.
  induction headers as [headers IH] using (well_founded_induction (Wf_nat.well_founded_ltof _ length)).
  intros w Hb Hh. destruct headers as [|k [|v headers]]; [by eexists..|].
  apply Forall_cons in Hh as [(ksv & -> & Hk) Hh]. apply Forall_cons in Hh as [(vsv & -> & Hv) Hh].
  destruct (IH headers) with (w := w) as [nva E]; [unfold Wf_nat.ltof; simpl; lia|done|done|].
  simpl. rewrite !cbind_assoc. rewrite (cbind_ret _ _ _ _ _ (SvPVbyte_reads s w ksv Hb Hk)).
  rewrite (cbind_ret _ _ w _ w) by reflexivity. rewrite !cbind_assoc, (cbind_ret _ _ _ _ _ (SvPVbyte_reads s w vsv Hb Hv)).
  rewrite (cbind_ret _ _ w _ w) by reflexivity. rewrite (cbind_ret _ _ _ _ _ E). by eexists.
Qed.

(** Making a source changes the sources and the next address only. *)
Lemma make_source_reads s w sv : bufs w = strings s → string_ok s sv →
  make_source (Some sv) w = (Ret (next w), set_sources (<[next w := {| ds_buf := sv_buf sv;
    ds_len := Z.of_nat (length (default [] (strings s !! sv_buf sv))); ds_pos := 0 |}]> (sources w))
    {| bufs := bufs w; sources := sources w; sessions := sessions w; ivs := ivs w; callbacks := callbacks w;
       providers := providers w; next := next w + 16; nvas := nvas w; perl_calls := perl_calls w |}).
Proof.
  intros Hb Hs. unfold make_source. rewrite (cbind_ret _ _ w (next w) _) by reflexivity.
  rewrite (cbind_ret _ _ _ tt _) by reflexivity.
  erewrite (cbind_ret (SvPVbyte sv)); [|apply (SvPVbyte_reads s); [exact Hb|done]].
  rewrite (cbind_ret _ _ _ tt _) by reflexivity. cbv [mret cmd_ret]. f_equal.
  unfold set_sources; simpl. f_equal. apply insert_insert_eq.
Qed.

(** A new source disturbs nothing that is pending, and pending bodies look only at strings,
    sources and providers. *)
Lemma follows_source self s w p src n : follows self s w → p = next w → next w < n →
  follows self s (set_sources (<[p := src]> (sources w))
    {| bufs := bufs w; sources := sources w; sessions := sessions w; ivs := ivs w; callbacks := callbacks w;
       providers := providers w; next := n; nvas := nvas w; perl_calls := perl_calls w |}).
Proof.
  intros [Hst Hpe Hun Hne Hse] -> Hn. split; simpl; [done| |done|..].
  - intros st b r Hp. destruct (Hpe _ _ _ Hp) as (p & Hp1 & Hp0 & src' & b' & Hsrc' & ?).
    exists p. split; [done|]. split; [done|]. exists src', b'. split; [|done]. simpl.
    rewrite lookup_insert_ne; [done|]. intros <-. destruct Hne as [_ Hne]. assert (next w < next w); [|lia].
    apply Hne. by eexists.
  - destruct Hne as [Hne1 Hne2]. split; [lia|]. intros p' [<-|[_ Hp']]%lookup_insert_is_Some; [lia|].
    specialize (Hne2 _ Hp'). lia.
  - done.
Qed.

Lemma follows_nvas self s w n : follows self s w → follows self s (set_nvas n w).
Proof. intros []. by split. Qed.

Lemma follows_provider self s w stream sv b p : follows self s w → string_ok s sv → pending s !! stream = None →
  strings s !! sv_buf sv = Some b → p ≠ 0 → (∀ st, is_Some (pending s !! st) → providers w !! st ≠ Some p) →
  sources w !! p = Some {| ds_buf := sv_buf sv; ds_len := Z.of_nat (length b); ds_pos := 0 |} →
  follows self (with_pending s (<[stream := (sv_buf sv, b)]> (pending s)))
    (set_providers (<[stream := p]> (providers w)) w).
Proof.
  intros [Hst Hpe Hun Hne Hse] (_ & b' & Hb' & Hlen) Hnone Hb Hp0 Hnew Hsrc. rewrite Hb in Hb'. injection Hb' as <-.
  split; simpl; [done|..|done|done].
  - intros st bu r. destruct (decide (st = stream)) as [->|Hne'].
    + rewrite lookup_insert_eq. intros [= <- <-]. exists p. split; simpl; [by rewrite lookup_insert_eq|].
      split; [done|]. eexists _, b. split; [exact Hsrc|]. simpl. rewrite Hst. split_and!; try done; lia.
    + rewrite lookup_insert_ne by done. intros Hp. destruct (Hpe _ _ _ Hp) as (p' & Hp1 & ?).
      exists p'. split; simpl; [by rewrite lookup_insert_ne|done].
  - intros s1 s2 q. destruct (decide (s1 = stream)) as [->|H1], (decide (s2 = stream)) as [->|H2]; [done|..].
    + rewrite !lookup_insert_eq, !lookup_insert_ne by done. intros _ Hi2 [= <-] Hq. by destruct (Hnew _ Hi2 Hq).
    + rewrite !lookup_insert_eq, !lookup_insert_ne by done. intros Hi1 _ Hq [= <-]. by destruct (Hnew _ Hi1 Hq).
    + rewrite !lookup_insert_ne by done. apply Hun.
Qed.

Lemma submit_follows self s w stream headers data : follows self s w → bop_ok s (BSubmit stream headers data) →
  ∃ w', run_bop self (BSubmit stream headers data) w = ((spec_bop (BSubmit stream headers data) s).1, w') ∧
    follows self (spec_bop (BSubmit stream headers data) s).2 w'.
Proof.
  intros Hf (Hnone & Heven & Hh & Hd). destruct (session_reads self s w Hf) as (p & sess & Hp & Hn & Hreads).
  unfold run_bop, xs_submit_request. destruct (Hreads w eq_refl eq_refl) as [Eg _].
  rewrite (cbind_ret _ _ _ _ _ Eg), (proj2 (Z.eqb_neq p 0)) by done.
  rewrite (cbind_ret _ _ w tt w) by done. rewrite Heven, (cbind_ret _ _ w tt w) by done.
  rewrite (cbind_ret _ _ w tt (set_nvas (nvas w + 1) w)) by done. set (w1 := set_nvas _ w).
  assert (follows self s w1) as Hf1 by (by apply follows_nvas).
  destruct (make_nva_reads s headers w1 (b_strings _ _ _ Hf1) Hh) as [nva E]. rewrite (cbind_ret _ _ _ _ _ E).
  destruct data as [sv|].
  - rewrite (cbind_ret _ _ _ _ _ (make_source_reads s w1 sv (b_strings _ _ _ Hf1) Hd)).
    set (w2 := set_sources _ _). assert (follows self s w2) as Hf2 by (apply follows_source; [done|done|simpl; lia]).
    assert (next w ≠ 0) as Hnext by (destruct (b_next _ _ _ Hf); lia). change (next w1) with (next w).
    destruct (Hreads w2 eq_refl eq_refl) as [_ Es]. rewrite (cbind_ret _ _ _ _ _ Es).
    rewrite (cbind_ret _ _ w2 tt (set_nvas (nvas w2 - 1) w2)) by done. set (w3 := set_nvas _ w2).
    assert (follows self s w3) as Hf3 by (by apply follows_nvas). simpl.
    destruct (stream <? 0); [by exists w3|]. rewrite (proj2 (Z.eqb_neq (next w) 0)) by done.
    eexists. split; [done|]. simpl. destruct Hd as (Hw & b & Hb & Hl). rewrite Hb. simpl.
    apply (follows_provider self s w3 stream sv b (next w)); [done|by split; [|exists b]|done|done|done|..].
    + intros st [[bu r] Hst] E'. destruct (b_pending _ _ _ Hf _ _ _ Hst) as (q & Hq & _ & src & ? & Hsrc & _).
      change (providers w3) with (providers w) in E'. rewrite Hq in E'. injection E' as ->.
      assert (next w < next w); [|lia]. apply (b_next _ _ _ Hf). by eexists.
    + simpl. rewrite lookup_insert_eq, Hb. done.
  - rewrite (cbind_ret _ _ w1 0 w1) by done. destruct (Hreads w1 eq_refl eq_refl) as [_ Es].
    rewrite (cbind_ret _ _ _ _ _ Es). rewrite (cbind_ret _ _ w1 tt (set_nvas (nvas w1 - 1) w1)) by done.
    set (w3 := set_nvas _ w1). assert (follows self s w3) as Hf3 by (by apply follows_nvas).
    simpl. destruct (stream <? 0); by exists w3.
Qed.

Lemma run_bop_follows self s w op : follows self s w → bop_ok s op →
  ∃ w', run_bop self op w = ((spec_bop op s).1, w') ∧ follows self (spec_bop op s).2 w'.
Proof.
  intros Hf Hop. destruct op as [stream headers data|steps|buf contents]; [by apply submit_follows|..].
  - destruct (session_reads self s w Hf) as (p & sess & Hp & Hn & Hreads).
    destruct (Hreads w eq_refl eq_refl) as [Eg Es]. destruct (output_loop_follows self steps s w [] Hf Hop) as (w' & E & Hf').
    simpl. unfold get_output. rewrite (cbind_ret _ _ _ _ _ Eg), (proj2 (Z.eqb_neq p 0)) by done.
    rewrite (cbind_ret _ _ w tt w), (cbind_ret _ _ _ _ _ Es), (proj2 (Z.eqb_neq _ 0)), E by done.
    destruct (spec_output steps [] (pending s)) as [out q]. by exists w'.
  - eexists. split; [done|]. destruct Hf as [Hst Hpe Hun Hne Hse]. split; simpl; [by rewrite Hst| |done..].
    intros st b r Hp. destruct (Hpe _ _ _ Hp) as (q & Hq & Hq0 & src & b' & Hs & Hb & Hb' & ?).
    exists q. split; [done|]. split; [done|]. exists src, b'. split; [done|]. split; [done|].
    specialize (Hop _ _ _ Hp). destruct contents; simpl; [rewrite lookup_insert_ne|rewrite lookup_delete_ne]; by try done.
Qed.

(** C28: every request gets its own body, whole and once, as long as Perl code leaves alone
    the strings of bodies still to be read (no copy is made of them, [body_reused]).  Any
    sequence of submitting requests on streams that send nothing, with headers and bodies of
    byte strings, and of asking for output, in which nghttp2 reads the bodies of several
    streams in pieces of any length: every read answers the next bytes of the body of its
    stream, the end is flagged with the last of them and not before, and the output is what
    the framing makes of these pieces, as the specification says, which knows for each
    stream only what is left. *)
Theorem bodies_delivered self ops : ∀ s w, follows self s w → bops_ok ops s →
  let '(outs, w') := run_bops self ops w in
  let '(outs', s') := spec_bops ops s in outs = outs' ∧ follows self s' w'.
Proof.
  induction ops as [|op ops IH]; intros s w Hf; simpl; [done|]. intros [Hop Hops].
  destruct (run_bop_follows self s w op Hf Hop) as (w1 & -> & Hf1).
  destruct (spec_bop op s) as [r s1]. specialize (IH s1 w1 Hf1 Hops). simpl.
  destruct (run_bops self ops w1) as [outs w2], (spec_bops ops s1) as [outs' s2]. by destruct IH as [-> ?].
Qed.

(** ** Callbacks

    The copies of code references: besides those in [C], the ones in [l], each held once. *)
Definition slot (cb : Z) : list Z := if cb =? 0 then [] else [cb].
Definition slots (s : session) : list Z :=
  slot (on_headers_cb s) ++ slot (on_data_cb s) ++ slot (on_trailers_cb s) ++ slot (on_stream_close_cb s).

Definition copies (C : gset Z) (l : list Z) (w : world) : Prop :=
  callbacks w = C ∪ list_to_set l ∧ NoDup l ∧ (∀ cb, cb ∈ l → cb ∉ C) ∧
  0 < next w ∧ (∀ cb, cb ∈ C ∪ list_to_set l → cb < next w).

Lemma copies_perm C l l' w : l ≡ₚ l' → copies C l w → copies C l' w.
Proof.
  intros Hp (? & ? & Hn & ? & ?). assert (list_to_set l = list_to_set l' :> gset Z) as E by by apply list_to_set_perm_L.
  unfold copies. rewrite <- E. split_and!; [done|by rewrite <- Hp| |done..]. intros cb. rewrite <- Hp. apply Hn.
Qed.

(** The rest of the world. *)
Definition same_sessions (w w' : world) : Prop := sessions w' = sessions w ∧ ivs w' = ivs w.

Lemma drop_callback_copies C cb l w : copies C (slot cb ++ l) w →
  ∃ w', drop_callback cb w = (Ret tt, w') ∧ copies C l w' ∧ same_sessions w w'.
Proof.
  unfold slot, drop_callback. destruct (cb =? 0); [by exists w|]. simpl. intros (Hc & Hd & Hn & H0 & Hb).
  apply NoDup_cons in Hd as [Hd Hd']. rewrite (cbind_ret _ _ w w w) by done.
  rewrite bool_decide_eq_true_2 by (rewrite Hc; set_solver). eexists. split; [done|]. split; [|done].
  split_and!; simpl; [|done|set_solver|done|set_solver].
  rewrite Hc. assert (cb ∉ C) by (apply Hn; by left). set_solver.
Qed.

Lemma new_callback_copies C l w : copies C l w →
  ∃ cb w', new_callback w = (Ret cb, w') ∧ copies C (slot cb ++ l) w' ∧ same_sessions w w'.
Proof.
  intros (Hc & Hd & Hn & H0 & Hb). exists (next w). eexists. split; [done|]. split; [|done].
  assert (next w ∉ C ∪ list_to_set l) as Hfresh by (intros Hin; specialize (Hb _ Hin); lia).
  unfold slot. rewrite (proj2 (Z.eqb_neq (next w) 0)) by lia. split_and!; simpl.
  - rewrite Hc. set_solver.
  - apply NoDup_cons. split; [set_solver|done].
  - set_solver.
  - lia.
  - intros cb Hin. assert (cb = next w ∨ cb ∈ C ∪ list_to_set l) as [->|Hin'] by set_solver; [lia|].
    specialize (Hb _ Hin'). lia.
Qed.

Lemma replace_callback_copies C old defined l w : copies C (slot old ++ l) w →
  ∃ cb w', replace_callback old defined w = (Ret cb, w') ∧ copies C (l ++ slot cb) w' ∧ same_sessions w w'.
Proof.
  intros Hc. unfold replace_callback. destruct defined.
  - destruct (drop_callback_copies C old l w Hc) as (w1 & E & Hc1 & Hs1).
    destruct (new_callback_copies C l w1 Hc1) as (cb & w2 & E2 & Hc2 & Hs2).
    exists cb, w2. rewrite (cbind_ret _ _ _ _ _ E). split; [done|]. split; [|split; by etrans; [apply Hs2|apply Hs1]].
    eapply copies_perm; [|exact Hc2]. apply Permutation_app_comm.
  - exists old, w. split; [done|]. split; [|done]. eapply copies_perm; [|exact Hc]. apply Permutation_app_comm.
Qed.

Lemma set_callbacks_copies C inner p s h d t c w : ivs w !! inner = Some p → p ≠ 0 → sessions w !! p = Some s →
  copies C (slots s) w → ∃ s' w', xs_set_callbacks (Some inner) h d t c w = (Ret tt, w') ∧
    sessions w' = <[p := s']> (sessions w) ∧ ivs w' = ivs w ∧ ng s' = ng s ∧ copies C (slots s') w'.
Proof.
  intros Hi Hp Hs Hc. unfold xs_set_callbacks.
  rewrite (cbind_ret _ _ w p w) by (unfold get_session_ptr; by rewrite Hi).
  rewrite (proj2 (Z.eqb_neq p 0)), (cbind_ret _ _ w tt w) by done.
  rewrite (cbind_ret _ _ w s w) by (unfold session_at; by rewrite Hs).
  unfold slots in Hc.
  destruct (replace_callback_copies C _ h _ w Hc) as (h' & w1 & E1 & Hc1 & Hs1). rewrite (cbind_ret _ _ _ _ _ E1).
  rewrite <- !app_assoc in Hc1.
  destruct (replace_callback_copies C _ d _ w1 Hc1) as (d' & w2 & E2 & Hc2 & Hs2). rewrite (cbind_ret _ _ _ _ _ E2).
  rewrite <- !app_assoc in Hc2.
  destruct (replace_callback_copies C _ t _ w2 Hc2) as (t' & w3 & E3 & Hc3 & Hs3). rewrite (cbind_ret _ _ _ _ _ E3).
  rewrite <- !app_assoc in Hc3.
  destruct (replace_callback_copies C _ c _ w3 Hc3) as (c' & w4 & E4 & Hc4 & Hs4). rewrite (cbind_ret _ _ _ _ _ E4).
  rewrite <- !app_assoc in Hc4.
  eexists _, _. split; [done|]. simpl. split_and!; [f_equal| |done|done].
  - by rewrite (proj1 Hs4), (proj1 Hs3), (proj1 Hs2), (proj1 Hs1).
  - by rewrite (proj2 Hs4), (proj2 Hs3), (proj2 Hs2), (proj2 Hs1).
Qed.

Lemma DESTROY_copies C inner p s w : ivs w !! inner = Some p → p ≠ 0 → sessions w !! p = Some s →
  copies C (slots s) w → ∃ w', DESTROY (Some inner) w = (Ret tt, w') ∧
    sessions w' = delete p (sessions w) ∧ callbacks w' = C.
Proof.
  intros Hi Hp Hs Hc. unfold DESTROY. rewrite (cbind_ret _ _ w p w) by (unfold get_session_ptr; by rewrite Hi).
  rewrite (proj2 (Z.eqb_neq p 0)) by done. rewrite (cbind_ret _ _ w s w) by (unfold session_at; by rewrite Hs).
  assert (∃ w0, (if ng s =? 0 then mret tt else cmodify (log (SessionDel (ng s)))) w = (Ret tt, w0) ∧
      copies C (slots s) w0 ∧ same_sessions w w0) as (w0 & E0 & Hc0 & Hs0)
    by (destruct (ng s =? 0); eexists; by split_and!).
  rewrite (cbind_ret _ _ _ _ _ E0).
  destruct (drop_callback_copies C _ _ w0 Hc0) as (w1 & E1 & Hc1 & Hs1). rewrite (cbind_ret _ _ _ _ _ E1).
  destruct (drop_callback_copies C _ _ w1 Hc1) as (w2 & E2 & Hc2 & Hs2). rewrite (cbind_ret _ _ _ _ _ E2).
  destruct (drop_callback_copies C _ _ w2 Hc2) as (w3 & E3 & Hc3 & Hs3). rewrite (cbind_ret _ _ _ _ _ E3).
  rewrite <- (app_nil_r (slot _)) in Hc3.
  destruct (drop_callback_copies C _ _ w3 Hc3) as (w4 & E4 & Hc4 & Hs4). rewrite (cbind_ret _ _ _ _ _ E4).
  eexists. split; [done|]. simpl. split; [f_equal; by rewrite (proj1 Hs4), (proj1 Hs3), (proj1 Hs2), (proj1 Hs1), (proj1 Hs0)|].
  rewrite (proj1 Hc4). set_solver.
Qed.

(** Setting the callbacks of a session any number of times and destroying it gives back
    every copy of a callback it held, and no other. *)
Lemma session_gives_back C inner p sets : ∀ s w, ivs w !! inner = Some p → p ≠ 0 → sessions w !! p = Some s →
  copies C (slots s) w →
  ∃ w', foldr (λ '(h, d, t, c) m, xs_set_callbacks (Some inner) h d t c;; m) (DESTROY (Some inner)) sets w = (Ret tt, w') ∧
    sessions w' = delete p (sessions w) ∧ callbacks w' = C.
Proof.
  induction sets as [|[[[h d] t] c] sets IH]; intros s w Hi Hp Hs Hc; simpl; [by eapply DESTROY_copies|].
  destruct (set_callbacks_copies C inner p s h d t c w Hi Hp Hs Hc) as (s' & w1 & E & Es & Ei & En & Hc1).
  rewrite (cbind_ret _ _ _ _ _ E).
  destruct (IH s' w1) as (w2 & E2 & Es2 & Ec2); [by rewrite Ei|done|by rewrite Es, lookup_insert_eq|done|].
  exists w2. split; [done|]. split; [|done]. by rewrite Es2, Es, delete_insert_eq.
Qed.

(** The header blocks a client gets after the response has begun are its trailers; they go
    to the callback for headers, whatever is set for trailers. *)
Lemma trailers_are_headers w p sess stream name value : p ≠ 0 → sessions w !! p = Some sess → on_headers_cb sess ≠ 0 →
  my_on_header_callback p true HCAT_HEADERS stream name value w =
    (Ret tt, log (CallHeader (on_headers_cb sess) stream name value) w).
Proof.
  intros Hp Hs Hh. unfold my_on_header_callback. rewrite (proj2 (Z.eqb_neq p 0)) by done.
  rewrite (cbind_ret _ _ w sess w) by (unfold session_at; by rewrite Hs). simpl. by rewrite (proj2 (Z.eqb_neq _ 0)).
Qed.

(** ** Two requests *)

(** A session at 16 behind the scalar 32, two strings. *)
Definition two_bodies : world :=
  {| bufs := {[ 1000 := [1; 2; 3]; 2000 := [7; 8] ]}; sources := ∅;
     sessions := {[ 16 := {| ng := 5; on_headers_cb := 0; on_data_cb := 0; on_trailers_cb := 0; on_stream_close_cb := 0 |} ]};
     ivs := {[ 32 := 16 ]}; callbacks := ∅; providers := ∅; next := 48; nvas := 0; perl_calls := [] |}.

Definition body (buf : Z) : option string_sv := Some {| sv_buf := buf; sv_wide := false |}.

(** nghttp2 sends each piece behind a byte that says whether it is the last. *)
Definition framed (l : list (bytes * bool)) : bytes :=
  concat (map (λ '(chunk, eof), (if (eof : bool) then 1 else 0) :: chunk) l).

Definition two_requests : list bop :=
  [ BSubmit 1 [] (body 1000); BSubmit 3 [] (body 2000);
    BOutput [Send [(1, 2); (3, 5)] framed; Send [(1, 2)] framed; Stop 0];
    BPerl 1000 None ].

Lemma bodies_delivered_witness :
  let s := {| strings := bufs two_bodies; pending := ∅ |} in
  let '(outs, w') := run_bops (Some 32) two_requests two_bodies in
  let '(outs', s') := spec_bops two_requests s in outs = outs' ∧ follows (Some 32) s' w'.
Proof.
  apply (bodies_delivered (Some 32) two_requests {| strings := bufs two_bodies; pending := ∅ |} two_bodies).
  - split; simpl; [done|done|by intros ? ? ? [? ?]| |].
    + split; [done|]. by intros ? [? ?].
    + exists 32, 16. eexists. split_and!; [done|by by_compute|done|reflexivity|done].
  - unfold two_requests. cbn [bops_ok].
    split; [|split; [|split; [|split; [|exact I]]]].
    + split_and!; [by by_compute|done|constructor|]. split; [done|]. exists [1; 2; 3]. split; by by_compute.
    + split_and!; [by by_compute|done|constructor|]. split; [done|]. exists [7; 8]. split; by by_compute.
    + vm_compute. split_and!; try done; eauto. right. split_and!; eauto.
    + intros stream b rest Hp. by vm_compute in Hp.
Defined.

(** What the two streams send. *)
Example two_requests_sent :
  (run_bops (Some 32) two_requests two_bodies).1 =
    [OStream (Ret 1); OStream (Ret 3); OBytes (Ret [0; 1; 2; 1; 7; 8; 1; 3]); ONone].
Proof. by vm_compute. Qed.

(** A body is read from the caller's string when output is asked for, not when the request
    is submitted: a string used again in between is sent in its place, and one that is
    gone is read all the same. *)
Example body_reused :
  let ops contents := [BSubmit 1 [] (body 1000); BPerl 1000 contents; BOutput [Send [(1, 9)] framed]] in
  (run_bops (Some 32) (ops (Some [9; 9; 9])) two_bodies).1 = [OStream (Ret 1); ONone; OBytes (Ret [1; 9; 9; 9])] ∧
  (run_bops (Some 32) (ops None) two_bodies).1 = [OStream (Ret 1); ONone; OBytes (Fault "read of a freed string")].
Proof. by vm_compute. Qed.

(** A request nghttp2 refuses, or a string with wide characters, leaves the source; a
    wide header leaves the array. *)
Example refused_request_leaks :
  let run op := run_bop (Some 32) op two_bodies in
  sources (run (BSubmit (-1) [] (body 1000))).2 ≠ ∅ ∧
  sources (run (BSubmit 1 [] (Some {| sv_buf := 1000; sv_wide := true |}))).2 ≠ ∅ ∧
  nvas (run (BSubmit 1 [Some {| sv_buf := 1000; sv_wide := true |}; body 2000] None)).2 = 1 ∧
  (run (BSubmit 1 [None; body 2000] None)).1 = OStream (Fault "length never set").
Proof. by vm_compute. Qed.

(** The destructor leaves the pointer, and any reference is taken for a session. *)
Example session_destroyed_twice :
  ((DESTROY (Some 32);; DESTROY (Some 32)) two_bodies).1 = Fault "not a session" ∧
  (get_output [] (Some 40) (set_ivs {[ 40 := 42 ]} two_bodies)).1 = Fault "not a session".
Proof. by vm_compute. Qed.
