(* ===== verification/Loading.v ===== *)
(** * Loading generated modules

    The plug-in and the runtime together.  A Perl program [require]s a module the plug-in
    wrote: its [BEGIN] block requires the modules of the imported files and hands the
    embedded descriptor to the generated pool ([protoc/generator.cc], [GenerateModule];
    [xs/descriptor_pool/*.c]).  What Perl does with the text of the block is modelled line
    by line; the rest is put together from [ProtocModule], [ProtocNames], [DescriptorPool]
    and [Names]. *)

From S2P Require Import Prelude Names PerlNumbers ProtocNames ProtocModule.
From S2P Require ObjCache.
From S2P Require Import Wrappers DescriptorPool.

(** ** The generated pool between calls

    Whatever the object cache answers for the generated pool is an object through which it
    can be changed. *)

Definition names_pool (rs : gmap Z raw_pool) (g : Z) (ob : object) : Prop :=
  stash ob = Some pool_class ∧
  ∃ r, pool_slot ob = Some (SIV r) ∧ r ≠ 0 ∧ rs !! r = Some {| pool := g; frozen := false |}.

Definition cached_pool (rs : gmap Z raw_pool) (g : Z) (ob : object) (ptr : Z) : Prop :=
  ptr = g → names_pool rs g ob.

Lemma cached_pool_same rs g : ∀ ob ob' ptr, stash ob' = stash ob → contents ob' = contents ob →
  ext_magic ob' = ext_magic ob → cached_pool rs g ob ptr → cached_pool rs g ob' ptr.
Proof.
  unfold cached_pool, names_pool, pool_slot. intros ob ob' ptr -> -> _ H E. by apply H.
Qed.

(** [s] is what the generated pool holds; there is none before the first use. *)
Definition generated_is (w : pworld) (s : upb_DefPool) : Prop :=
  generated_pool_ptr w = 0 ∧ generated_sv w = None ∧ s = empty_pool ∧ objects (perl w) = ∅ ∨
  generated_pool_ptr w ≠ 0 ∧ pools w !! generated_pool_ptr w = Some s ∧
    cache_inv (cached_pool (raws w) (generated_pool_ptr w)) (perl w).

Definition ready (w : pworld) (s : upb_DefPool) : Prop := settled 0 w ∧ generated_is w s.

(** An object that names the generated pool. *)
Definition gives (w : pworld) (o : Z) (s : upb_DefPool) : Prop :=
  ready w s ∧ generated_pool_ptr w ≠ 0 ∧
  ∃ ob, objects (perl w) !! o = Some ob ∧ names_pool (raws w) (generated_pool_ptr w) ob.

Lemma ready_no_pools capacity : ready (no_pools capacity) empty_pool.
Proof. split; [apply no_pools_settled|by left]. Qed.

Lemma cached_pool_raws rs rs' g w : rs ⊆ rs' → cache_inv (cached_pool rs g) w → cache_inv (cached_pool rs' g) w.
Proof.
  intros Hsub [Hc Hn]. split; [|done]. intros ptr o Hin. destruct (Hc ptr o Hin) as (Hp & ob & Ho & HR).
  split; [done|]. exists ob. split; [done|]. intros E. destruct (HR E) as (Hs & r & H1 & H2 & H3).
  split; [done|]. exists r. split_and!; [done..|]. by eapply lookup_weaken.
Qed.

(** *** [GeneratedPool] *)

Lemma GetWrapper_gives w s : ready w s → generated_pool_ptr w ≠ 0 →
  ∃ o w', DescriptorPool_GetWrapper (generated_pool_ptr w) w = (Ret (PRef o), w') ∧ gives w' o s.
Proof.
  intros [Hs [(?&_)|(Hg & Hp & Hc)]] Hg'; [done|].
  pose proof (keeps_GetWrapper 0 w Hs) as Hk. unfold keeps, wp in Hk.
  unfold DescriptorPool_GetWrapper in *. rewrite (proj2 (Z.eqb_neq _ 0)) in * by done.
  rewrite (cbind_ret cget _ w w w) in * by done.
  destruct (ObjCache.ObjCache_Get (oc (perl w)) (generated_pool_ptr w)) as [r c] eqn:Eg.
  destruct (Get_inv _ (cached_pool_same (raws w) (generated_pool_ptr w)) _ _ _ _ Hc Eg) as [Hc1 Hr].
  set (w1 := set_perl (set_oc c (perl w)) w).
  rewrite (cbind_ret (on_perl (cmodify (set_oc c))) _ w tt w1) in * by done. destruct r as [o|].
  - destruct (Hr o eq_refl) as (ob & Ho & HR).
    destruct (REFCNT_inc_ret _ (cached_pool_same (raws w) (generated_pool_ptr w)) (perl w1) o)
      as (p2 & E2 & Hc2 & _ & _ & Hk2 & _); [by exists ob|done|].
    rewrite (cbind_ret (on_perl (REFCNT_inc o)) _ w1 tt (set_perl p2 w1)) in *
      by (unfold on_perl; by rewrite E2).
    destruct (Hk2 o ob Ho) as [n Hn]. exists o. eexists. split; [done|].
    split; [split; [exact Hk|right; split_and!; [done|done|exact Hc2]]|].
    split; [done|]. exists (with_refcnt ob n). split; [done|]. by apply HR.
  - set (r := next_c w). set (rs := <[r := {| pool := generated_pool_ptr w; frozen := false |}]> (raws w)).
    assert (raws w !! r = None) as Hr0.
    { destruct (raws w !! r) eqn:E; [|done]. destruct Hs as [Hi _].
      destruct (p_raw_next w Hi r); [by eexists|unfold r in *; lia]. }
    set (p2 := (new_object (pool_object r) (set_oc c (perl w))).2).
    set (p3 := set_oc (ObjCache.ObjCache_Add (oc p2) (generated_pool_ptr w) (Some (next_object (perl w)))) p2).
    set (w3 := {| perl := p3; raws := rs; pools := pools w; next_c := next_c w + 16;
                  generated_pool_ptr := generated_pool_ptr w; generated_sv := generated_sv w; temps := temps w |}).
    assert ((r ← malloc_raw (generated_pool_ptr w); wrap_pool (generated_pool_ptr w) r) w1 =
      (Ret (PRef (next_object (perl w))), w3)) as E by reflexivity.
    rewrite E in *. exists (next_object (perl w)), w3. split; [done|].
    assert (r ≠ 0) as Hrn by (destruct Hs as [Hi _]; pose proof (p_next w Hi); unfold r; lia).
    assert (objects p2 !! next_object (perl w) = Some (pool_object r)) as Ho by apply lookup_insert_eq.
    assert (names_pool rs (generated_pool_ptr w) (pool_object r)) as Hn.
    { split; [done|]. exists r. split_and!; [done|done|]. apply lookup_insert_eq. }
    split; [split; [exact Hk|right]|split; [done|by exists (pool_object r)]].
    split_and!; [done|done|]. eapply (inv_add _ p2); [|done|exact Ho|by intros _].
    apply (new_object_inv _ (cached_pool_same rs (generated_pool_ptr w))).
    eapply cached_pool_raws; [by apply insert_subseteq|exact Hc1].
Qed.

(** The first use makes the pool. *)
Lemma first_pool w : settled 0 w → generated_pool_ptr w = 0 → generated_sv w = None → objects (perl w) = ∅ →
  ∃ w', (p ← DefPool_New true; cmodify (set_generated p (Some p))) w = (Ret tt, w') ∧ ready w' empty_pool ∧
    generated_pool_ptr w' ≠ 0.
Proof.
  intros Hs Hg Hsv Ho.
  assert (wp (p ← DefPool_New true; cmodify (set_generated p (Some p))) (λ _, settled 0) (settled 0) w) as Hk.
  { apply wp_bind. eapply wp_DefPool_New; [exact Hs| |].
    - intros _. apply wp_modify. split; [by apply pinv_generated; [apply Hs|..]|apply Hs].
    - intros p w1 [Hi1 Ht1] Hp0 Hp Hu Hg1 _. apply wp_modify.
      split; [|done]. apply pinv_generated; [done|congruence|done]. }
  eexists. split; [reflexivity|]. destruct Hs as [Hi _]. pose proof (p_next w Hi) as Hn.
  split; [split; [exact Hk|right]|cbn; lia]. cbn. split_and!; [lia|by rewrite lookup_insert_eq|].
  destruct (p_cache w Hi) as [Hc Hx]. split; [|done]. intros ptr o Hin.
  destruct (Hc ptr o Hin) as (_ & ob & Hob & _). by rewrite Ho in Hob.
Qed.

Lemma GeneratedPool_gives w s : ready w s →
  ∃ o w', DescriptorPool_GeneratedPool true w = (Ret (PRef o), w') ∧ gives w' o s.
Proof.
  intros Hr. unfold DescriptorPool_GeneratedPool. rewrite (cbind_ret cget _ w w w) by done.
  destruct (Hr) as [Hs [(Hg & Hsv & -> & Ho)|(Hg & _)]].
  - rewrite Hg, Hsv. destruct (first_pool w Hs Hg Hsv Ho) as (w1 & E & Hr1 & Hg1).
    cbn [Z.eqb]. rewrite (cbind_ret _ _ _ _ _ E), (cbind_ret cget _ w1 w1 w1) by done.
    by apply GetWrapper_gives.
  - rewrite (proj2 (Z.eqb_neq _ 0)) by done. rewrite (cbind_ret (mret tt) _ w tt w) by done.
    rewrite (cbind_ret cget _ w w w) by done. by apply GetWrapper_gives.
Qed.

(** *** Adding a file and letting the object go *)

Section Adding.
Context {P : Type} (parse_file : bytes → option P) (proto_name : P → bytes).
Context (create : upb_DefPool → P → list (bytes * deftype * Z) * option bytes) (FileDef_Name : Z → bytes).

Lemma AddSerializedFile_gives w o s data proto s' file : gives w o s → parse_file data = Some proto →
  AddFile proto_name create s proto (next_c w) = (s', inl file) →
  ∃ sv w', AddSerializedFile parse_file proto_name create FileDef_Name (Some (PRef o)) (Some data) w = (Ret sv, w') ∧
    gives w' o s'.
Proof.
  intros [[Hs Hgen] (Hg & ob & Ho & Hst & r & Hsl & Hr0 & Hr)] Hp HA.
  destruct Hgen as [(?&_)|(_ & Hpool & Hc)]; [done|].
  pose proof (keeps_AddSerializedFile parse_file proto_name create FileDef_Name o ob (Some data) 0 w Hs Ho) as Hk.
  unfold keeps, wp in Hk.
  destruct (GetPool_at w o ob r _ Ho Hst Hsl Hr0 Hr) as (E1 & _ & _).
  pose proof (IsFrozen_at w o ob r _ Ho Hst Hsl Hr0 Hr Hg) as E2. cbn [pool frozen] in *.
  unfold AddSerializedFile in *. rewrite (cbind_ret _ _ _ _ _ E2) in *. cbn [negb] in *.
  rewrite (cbind_ret (cguard _ _) _ w tt w) in * by done. rewrite (cbind_ret _ _ _ _ _ E1) in *.
  rewrite (proj2 (Z.eqb_neq _ 0)) in * by done. rewrite (cbind_ret (SvPVbyte _) _ w data w) in * by done.
  set (w1 := set_temps (temps w + 1) w) in *. rewrite (cbind_ret Acquire _ w tt w1) in * by done. rewrite Hp in *.
  set (g := generated_pool_ptr w) in *.
  set (w2 := {| perl := perl w; raws := raws w; pools := <[g := s']> (pools w); next_c := next_c w + 16;
                generated_pool_ptr := g; generated_sv := generated_sv w; temps := temps w + 1 |}).
  assert (DefPool_AddFile proto_name create g proto w1 = (Ret (inl file), w2)) as E3.
  { unfold DefPool_AddFile. rewrite (cbind_ret (pool_at g) _ w1 s w1) by (unfold pool_at; cbn; by rewrite Hpool).
    rewrite (cbind_ret fresh_c _ w1 _ _ eq_refl). change (next_c w1) with (next_c w). by rewrite HA. }
  rewrite (cbind_ret _ _ _ _ _ E3) in *. set (w3 := set_temps (temps w2 - 1) w2) in *.
  rewrite (cbind_ret Release _ w2 tt w3) in * by done.
  assert (0 < next_c w) as Hn by apply (p_next w (proj1 Hs)).
  assert (file = next_c w) as -> by (unfold AddFile in HA; repeat case_match; by simplify_eq).
  destruct (Wrap_spec (cached_pool (raws w) g) (cached_pool_same (raws w) g) (perl w) (next_c w) None file_class 0)
    as (f & p & E4 & Hc4 & Hx & _); [exact Hc|lia| |done|].
  { intros ob' _ E. destruct (p_pool_next w (proj1 Hs) g s Hpool). lia. }
  assert (FileDef_GetWrapper (next_c w) w3 = (Ret (PRef f), set_perl p w3)) as E5
    by (unfold FileDef_GetWrapper, on_perl; cbn [perl w3 set_temps w2]; by rewrite E4).
  rewrite E5 in *. eexists _, _. split; [done|].
  destruct (ext_old _ _ Hx o ob Ho) as [n Hn'].
  split; [split; [exact Hk|right]|split; [done|exists (with_refcnt ob n)]].
  - cbn. split_and!; [done|by rewrite lookup_insert_eq|done].
  - split; [exact Hn'|]. split; [done|]. by exists r.
Qed.
End Adding.

(** The last reference takes the wrapper structure with it, and the pool stays. *)
Lemma drop_gives w o s : gives w o s → ∃ w', drop o w = (Ret tt, w') ∧ ready w' s.
Proof.
  intros [[Hs Hgen] (Hg & ob & Ho & Hst & r & Hsl & Hr0 & Hr)].
  destruct Hgen as [(?&_)|(_ & Hpool & Hc)]; [done|]. destruct (Hs) as [Hi Ht].
  pose proof (keeps_drop o ob 0 w Hs Ho) as Hk. unfold keeps, wp in Hk.
  unfold drop in *. rewrite (cbind_ret _ _ w ob w) in * by (unfold on_perl, SvRV; rewrite Ho; by destruct w).
  rewrite (bool_decide_eq_true_2 _ Hst), andb_true_r, Hsl, (proj2 (Z.eqb_neq r 0)) in * by done.
  set (g := generated_pool_ptr w) in *.
  destruct (refcnt ob <=? 1)%nat eqn:Er.
  - apply Nat.leb_le in Er. set (w1 := set_raws (delete r (raws w)) w).
    assert (DescriptorPool_DestroyRaw false r w = (Ret tt, w1)) as E.
    { unfold DescriptorPool_DestroyRaw. rewrite (proj2 (Z.eqb_neq r 0)) by done.
      rewrite (cbind_ret (raw_at r) _ w _ w) by (unfold raw_at; by rewrite Hr).
      rewrite (cbind_ret cget _ w w w) by done. cbn [pool]. fold g. rewrite Z.eqb_refl, andb_false_r. done. }
    rewrite (cbind_ret _ _ _ _ _ E) in *. eexists. split; [reflexivity|].
    split; [exact Hk|right]. split_and!; [done|done|].
    pose proof (REFCNT_dec_inv _ (cached_pool_same (raws w) g) (S (size (objects (perl w)))) o _ Hc) as [Hc' Hn'].
    split; [|exact Hn']. intros ptr o' Hin. destruct (Hc' ptr o' Hin) as (Hp & ob' & Ho' & HR).
    split; [done|]. exists ob'. split; [done|]. intros E'. destruct (HR E') as (Hst' & r' & Hsl' & Hr0' & Hr').
    split; [done|]. exists r'. split_and!; [done|done|]. cbn. rewrite lookup_delete_ne; [done|]. intros <-.
    destruct (drop_objects w ob o Ho o' ob' Ho') as (Hne & d & Hd & Esl). specialize (Hne Er). apply Hne.
    apply (p_owner w Hi o' o d ob r); try done. by rewrite <- Esl.
  - rewrite (cbind_ret (mret tt) _ w tt w) in * by done. eexists. split; [reflexivity|].
    split; [exact Hk|right]. split_and!; [done|done|].
    by apply (REFCNT_dec_inv _ (cached_pool_same (raws w) g)).
Qed.

(** ** What Perl does with a module

    The statements of the [BEGIN] block that call anything. *)
Inductive action := Require (pkg : bytes) | AddDescriptor (document : bytes).

(** ["    eval { require PKG };"]. *)
Definition require_of (line : bytes) : option bytes :=
  match ConsumePrefix line (str "    eval { require ") with
  | Some rest =>
      let n := (length rest - 3)%nat in
      if bool_decide (skipn n rest = str " };") then Some (take n rest) else None
  | None => None
  end.

Definition heredoc_line : bytes := str "    my $descriptor_b64 = <<'EOF';".

(** The lines of a module, up to the registration of its descriptor; [line] is what has
    been read of the current one. *)
Fixpoint begin_block (line s : bytes) : list action :=
  match s with
  | [] => []
  | c :: s =>
      if c =? NL then
        if bool_decide (line = heredoc_line) then
          match read_heredoc [] s with
          | Some (document, after) => if is_prefix register_call after then [AddDescriptor document] else []
          | None => []
          end
        else
          match require_of line with
          | Some pkg => Require pkg :: begin_block [] s
          | None => begin_block [] s
          end
      else begin_block (line ++ [c]) s
  end.

(** The file of a bareword: [A::B] is [A/B.pm]. *)
Fixpoint bareword (p : bytes) : bytes :=
  match p with
  | 58 :: 58 :: p => SLASH :: bareword p
  | c :: p => c :: bareword p
  | [] => []
  end.
Definition bareword_file (pkg : bytes) : bytes := bareword pkg ++ str ".pm".

(** [%INC] (true: loaded or being loaded; false: failed) and the library. *)
Record lworld := { inc : gmap bytes bool; lib : pworld }.

Abbreviation lcall := (cmd lworld).

Definition on_lib {A} (m : cmd pworld A) : lcall A := λ w,
  let '(r, p) := m (lib w) in (r, {| inc := inc w; lib := p |}).
Definition set_inc (path : bytes) (b : bool) : lcall unit :=
  cmodify (λ w, {| inc := <[path := b]> (inc w); lib := lib w |}).

(** [eval { ... };] *)
Definition eval_block (m : lcall unit) : lcall unit := λ w,
  match m w with (Croak _, w) => (Ret tt, w) | r => r end.
(** A failing file is marked in [%INC], and the exception goes on. *)
Definition marking_failure (path : bytes) (m : lcall unit) : lcall unit := λ w,
  match m w with (Croak msg, w) => (Croak msg, (set_inc path false w).2) | r => r end.

Section Load.
(** upb's reader of files and its builder. *)
Context (parse_file : bytes → option FileProto).
Context (create : upb_DefPool → FileProto → list (bytes * deftype * Z) * option bytes).
Context (FileDef_Name : Z → bytes).

(** [Protobuf::DescriptorPool->generated_pool->add_serialized_file(decode_base64(...))]:
    the pool's object is a temporary of the statement. *)
Definition add_descriptor (document : bytes) : cmd pworld unit :=
  match decode_base64 document with
  | None => ccroak "not base64"
  | Some data =>
      pool ← DescriptorPool_GeneratedPool true;
      match pool with
      | PRef o =>
          AddSerializedFile parse_file file_proto_name create FileDef_Name (Some pool) (Some data);;
          drop o
      | _ => ccroak "no generated pool"
      end
  end.

Section Files.
(** The files on [@INC]. *)
Context (modules : gmap bytes bytes).

Fixpoint run_actions (require : bytes → lcall unit) (l : list action) : lcall unit :=
  match l with
  | [] => mret tt
  | Require pkg :: l => eval_block (require pkg);; run_actions require l
  | AddDescriptor document :: l => on_lib (add_descriptor document);; run_actions require l
  end.

(** [require PKG]: a file is run once. *)
Fixpoint require (fuel : nat) (pkg : bytes) : lcall unit :=
  let path := bareword_file pkg in
  w ← cget;
  match inc w !! path with
  | Some true => mret tt
  | Some false => ccroak "Attempt to reload"
  | None =>
      match modules !! path, fuel return lcall unit with
      | None, _ => ccroak "Can't locate"
      | Some _, O => cfault "out of fuel"
      | Some text, S fuel =>
          set_inc path true;;
          marking_failure path (run_actions (require fuel) (begin_block [] text))
      end
  end.

(** The [require]s of a program, which nothing guards. *)
Fixpoint program (fuel : nat) (pkgs : list bytes) : lcall unit :=
  match pkgs with
  | [] => mret tt
  | pkg :: pkgs => require fuel pkg;; program fuel pkgs
  end.
End Files.
End Load.

(** ** Reading the text *)

Lemma begin_block_line l : ∀ line s, NL ∉ l → begin_block line (l ++ NL :: s) = begin_block (line ++ l) (NL :: s).
Proof.
  induction l as [|c l IH]; intros line s Hl; [by rewrite app_nil_r|].
  apply not_elem_of_cons in Hl as [Hc Hl]. cbn [app begin_block].
  rewrite (proj2 (Z.eqb_neq c NL)) by done. rewrite IH by done. by rewrite <- app_assoc.
Qed.

(** A line that does nothing. *)
Lemma begin_block_skip l s : NL ∉ l → l ≠ heredoc_line → require_of l = None →
  begin_block [] (l ++ NL :: s) = begin_block [] s.
Proof.
  intros Hl Hh Hr. rewrite begin_block_line by done. cbn [app begin_block].
  rewrite Z.eqb_refl, bool_decide_eq_false_2 by done. by rewrite Hr.
Qed.

Lemma ConsumePrefix_app p s : ConsumePrefix (p ++ s) p = Some s.
Proof.
  unfold ConsumePrefix. rewrite (proj2 (Nat.leb_le _ _)) by (rewrite length_app; lia).
  rewrite take_app_length, bool_decide_eq_true_2 by done. cbn [andb]. by rewrite drop_app_length.
Qed.

Lemma require_of_line pkg : require_of (str "    eval { require " ++ pkg ++ str " };") = Some pkg.
Proof.
  unfold require_of. rewrite ConsumePrefix_app, length_app. change (length (str " };")) with 3%nat.
  replace (length pkg + 3 - 3)%nat with (length pkg) by lia. rewrite drop_app_length, take_app_length.
  by rewrite bool_decide_eq_true_2.
Qed.

Lemma begin_block_require pkg s : NL ∉ pkg →
  begin_block [] (lit "    eval { require " ++ pkg ++ lit " };\n" ++ s) = Require pkg :: begin_block [] s.
Proof.
  intros Hp. change (lit "    eval { require ") with (str "    eval { require ").
  change (lit " };\n") with (str " };" ++ [NL]).
  replace (str "    eval { require " ++ pkg ++ (str " };" ++ [NL]) ++ s)
    with ((str "    eval { require " ++ pkg ++ str " };") ++ NL :: s) by (by rewrite <- !app_assoc).
  rewrite begin_block_line.
  - cbn [app begin_block]. rewrite Z.eqb_refl, bool_decide_eq_false_2 by done. by rewrite require_of_line.
  - rewrite !not_elem_of_app. split_and!; [by_compute|done|by_compute].
Qed.

Lemma begin_block_requires pkgs deps s : (∀ dep pkg, pkgs !! dep = Some pkg → NL ∉ pkg) →
  begin_block [] (dependency_requires pkgs deps ++ s) =
    (Require <$> omap (λ dep, pkgs !! dep) deps) ++ begin_block [] s.
Proof.
  intros Hp. unfold dependency_requires, for_each. induction deps as [|dep deps IH]; [done|].
  cbn [map concat omap list_omap]. destruct (pkgs !! dep) as [pkg|] eqn:E; [|exact IH].
  rewrite <- !app_assoc, begin_block_require by by eapply Hp. by rewrite IH.
Qed.

Lemma begin_block_head p s : NL ∉ p → begin_block [] (module_head p ++ s) = begin_block [] s.
Proof.
  intros Hp.
  assert (module_head p ++ s = (str "package " ++ p ++ str ";") ++ NL :: [] ++ NL :: str "use strict;" ++ NL ::
    str "use warnings;" ++ NL :: [] ++ NL :: str "our $VERSION = '0.05';" ++ NL :: [] ++ NL ::
    str "use Protobuf::Message;" ++ NL :: str "use Protobuf::DescriptorPool;" ++ NL ::
    str "use Protobuf::Internal qw(:all);" ++ NL :: str "use MIME::Base64;" ++ NL :: [] ++ NL ::
    str "BEGIN {" ++ NL :: s) as ->.
  { unfold module_head. rewrite <- !app_assoc. reflexivity. }
  rewrite begin_block_skip.
  - by do 12 (rewrite begin_block_skip; [|by_compute..]).
  - rewrite !not_elem_of_app. split_and!; [by_compute|done|by_compute].
  - by intros H%(f_equal head).
  - unfold require_of, ConsumePrefix. by rewrite (bool_decide_eq_false_2 (_ = _)), andb_false_r by by intros H%(f_equal head).
Qed.

(** What Perl makes of a generated module: its imports, then its descriptor. *)
Lemma begin_block_GenerateModule serialize g f : NL ∉ package_name g →
  (∀ dep pkg, file_to_package g !! dep = Some pkg → NL ∉ pkg) → bytes_ok (serialize f) →
  ∃ document, decode_base64 document = Some (serialize f) ∧
    begin_block [] (GenerateModule serialize g f) =
      (Require <$> omap (λ dep, file_to_package g !! dep) (file_dependency f)) ++ [AddDescriptor document].
Proof.
  intros Hn Hp Hs. exists (b64_loop 0 (serialize f) ++ [NL]).
  split; [unfold decode_base64; rewrite filter_app, app_nil_r; by apply decode_base64_loop|].
  destruct (GenerateModule_shape serialize g f) as [after ->].
  rewrite begin_block_head, begin_block_requires by done. f_equal.
  change heredoc_open with (heredoc_line ++ [NL]). rewrite <- app_assoc. cbn [app].
  rewrite begin_block_line by by_compute. cbn [app begin_block].
  rewrite Z.eqb_refl, bool_decide_eq_true_2 by done. rewrite read_heredoc_loop by done.
  by rewrite is_prefix_app.
Qed.

(** ** Paths *)

Lemma bareword_plain w s : COLON ∉ w → bareword (w ++ s) = w ++ bareword s.
Proof.
  induction w as [|c w IH]; [done|]. intros [Hc Hw]%not_elem_of_cons. cbn [app]. rewrite <- IH by done.
  cbn [bareword]. destruct (decide (c = 58)) as [->|Hne]; [done|]. 
  destruct c as [|p|p]; try done. do 6 (destruct p as [p|p|]; try done).
Qed.

Lemma bareword_join l : l ≠ [] → Forall plain_segment l → bareword (join_with (str "::") l) = join_with (str "/") l.
Proof.
  intros Hne Hl. induction Hl as [|w l (_ & Hw & _) Hl IH]; [done|]. destruct l as [|v l].
  - cbn [join_with]. rewrite <- (app_nil_r w), bareword_plain by done. done.
  - change (join_with (str "::") (w :: v :: l)) with (w ++ str "::" ++ join_with (str "::") (v :: l)).
    rewrite bareword_plain by done. change (join_with (str "/") (w :: v :: l)) with (w ++ str "/" ++ join_with (str "/") (v :: l)).
    f_equal. change (str "::" ++ ?x) with (58 :: 58 :: x). cbn [bareword]. by rewrite IH.
Qed.

(** ** What the pool holds *)

Lemma insert_syms_new file l : ∀ s, NoDup l.*1.*1 → (∀ sym, sym ∈ l.*1.*1 → syms s !! sym = None) →
  ∃ s', insert_syms s file l = (s', None) ∧ files s' = files s ∧
    (∀ sym, is_Some (syms s' !! sym) ↔ is_Some (syms s !! sym) ∨ sym ∈ l.*1.*1).
Proof.
  induction l as [|[[sym type] ptr] l IH]; intros s Hnd Hnew.
  { exists s. split_and!; [done|done|]. intros sym. split; [auto|]. by intros [?|?%not_elem_of_nil]. }
  cbn [fmap list_fmap fst] in *. apply NoDup_cons in Hnd as [Hsym Hnd].
  cbn [insert_syms]. unfold InsertSym. rewrite Hnew by by left.
  destruct (IH {| syms := <[sym := {| def_type := type; def_ptr := ptr; def_file := file |}]> (syms s); files := files s |} Hnd)
    as (s' & E & Hf & Hs).
  { intros sym' Hin. cbn. rewrite lookup_insert_ne by (intros ->; done). apply Hnew. by right. }
  exists s'. split_and!; [done|done|]. intros sym'. rewrite Hs. cbn. rewrite lookup_insert_is_Some, elem_of_cons.
  destruct (decide (sym = sym')) as [->|]; [split; auto|]. naive_solver.
Qed.

Section Request.
Context (parse_file : bytes → option FileProto) (serialize : FileProto → bytes).
Context (create : upb_DefPool → FileProto → list (bytes * deftype * Z) * option bytes).
Context (FileDef_Name : Z → bytes) (symbols : FileProto → list (bytes * deftype)).
Context (fs : list FileProto).

Let g0 : PerlCodeGenerator := new_generator fs (file_proto_name <$> fs).

(** What is asked of upb: its reader undoes its writer, and its builder gives a file of the
    request whose imports are there its symbols, all its messages among them, without an
    error. *)
Record upb_builds : Prop := {
  b_parse : ∀ f, f ∈ fs → bytes_ok (serialize f) ∧ parse_file (serialize f) = Some f;
  b_create : ∀ s f, f ∈ fs → (∀ d, d ∈ file_dependency f → is_Some (files s !! d)) →
    ∃ l, create s f = (l, None) ∧ l.*1 = symbols f ∧ Forall (λ x, x.2 ≠ 0) l;
  b_messages : ∀ f path, f ∈ fs → path ∈ file_paths f → (upb_full_name f path, MSG) ∈ symbols f }.

(** What protoc guarantees of a request: distinct names of files and symbols, imports
    before the files that import them; and what the generated paths need. *)
Record request_ok : Prop := {
  q_names : NoDup (file_proto_name <$> fs);
  q_symbols : NoDup (concat (symbols <$> fs)).*1;
  q_order : ∀ i f d, fs !! i = Some f → d ∈ file_dependency f →
    ∃ j h, (j < i)%nat ∧ fs !! j = Some h ∧ file_proto_name h = d;
  q_package : ∀ f, f ∈ fs → NL ∉ GetPerlPackage f ∧
    ∃ l, l ≠ [] ∧ Forall plain_segment l ∧ GetPerlPackage f = join_with (str "::") l }.

Definition path_of (f : FileProto) : bytes := bareword_file (GetPerlPackage f).

(** The files on [@INC] are those of the response, under distinct names. *)
Definition installed (modules : gmap bytes bytes) : Prop :=
  NoDup (path_of <$> fs) ∧
  ∀ f, f ∈ fs → modules !! path_of f = Some (GenerateModule serialize (set_package_name g0 (GetPerlPackage f)) f).

(** The files of [L] are in the pool, and nothing else is. *)
Record holds (s : upb_DefPool) (L : list FileProto) : Prop := {
  h_files : ∀ n, is_Some (files s !! n) ↔ n ∈ file_proto_name <$> L;
  h_syms : ∀ sym, is_Some (syms s !! sym) → sym ∈ (concat (symbols <$> L)).*1;
  h_found : ∀ f path, f ∈ L → path ∈ file_paths f → FindMessageByName s (upb_full_name f path) ≠ 0 }.

Lemma same_name f h : request_ok → f ∈ fs → h ∈ fs → file_proto_name f = file_proto_name h → f = h.
Proof.
  intros Hq Hf Hh E. pose proof (find_unique fs f (q_names Hq) Hf) as H1.
  pose proof (find_unique fs h (q_names Hq) Hh) as H2. rewrite E in H1. congruence.
Qed.

Lemma symbols_apart f h sym : request_ok → f ∈ fs → h ∈ fs → sym ∈ (symbols f).*1 → sym ∈ (symbols h).*1 → f = h.
Proof.
  intros Hq Hf Hh. pose proof (q_symbols Hq) as Hnd. revert Hf Hh Hnd. clear. revert f h.
  induction fs as [|k l IH]; intros f h; [by intros ?%not_elem_of_nil|].
  rewrite fmap_cons, concat_cons, fmap_app. intros Hf Hh (H1 & H2 & H3)%NoDup_app Hsf Hsh.
  assert (∀ k', k' ∈ l → sym ∈ (symbols k').*1 → sym ∈ (concat (symbols <$> l)).*1) as Hin.
  { intros k' Hk' (x & -> & Hx)%list_elem_of_fmap. apply list_elem_of_fmap_2.
    apply list_elem_of_In, in_concat. exists (symbols k'). split; [|by apply list_elem_of_In].
    by apply list_elem_of_In, list_elem_of_fmap_2. }
  apply elem_of_cons in Hf as [->|Hf]; apply elem_of_cons in Hh as [->|Hh].
  - done.
  - destruct (H2 sym Hsf). by apply (Hin h).
  - destruct (H2 sym Hsh). by apply (Hin f).
  - by apply IH.
Qed.

(** A file goes into a pool that holds its imports but not itself. *)
Lemma AddFile_holds s L f file : upb_builds → request_ok → holds s L → (∀ h, h ∈ L → h ∈ fs) → f ∈ fs → f ∉ L →
  (∀ d, d ∈ file_dependency f → is_Some (files s !! d)) →
  (∀ sym d, syms s !! sym = Some d → def_file d ≠ file) →
  ∃ s', AddFile file_proto_name create s f file = (s', inl file) ∧ holds s' (f :: L).
Proof.
  intros Hb Hq Hh HL Hf HfL Hdeps Hfresh.
  destruct (b_create Hb s f Hf Hdeps) as (l & Ec & El & Hl).
  assert (files s !! file_proto_name f = None) as Hn.
  { apply eq_None_not_Some. intros (h & E & Hin)%(h_files s L Hh)%list_elem_of_fmap.
    apply HfL. by rewrite (same_name f h Hq Hf (HL h Hin) E). }
  assert (NoDup l.*1.*1) as Hnd.
  { rewrite El. pose proof (q_symbols Hq) as H. apply list_elem_of_split in Hf as (l1 & l2 & ->).
    rewrite fmap_app, fmap_cons, concat_app, concat_cons, !fmap_app in H.
    by apply NoDup_app in H as (_ & _ & (H & _)%NoDup_app). }
  destruct (insert_syms_new file l s Hnd) as (s' & Ei & Ef & Es).
  { intros sym Hin. rewrite El in Hin. apply eq_None_not_Some. intros Hs%(h_syms s L Hh).
    apply list_elem_of_fmap in Hs as (x & -> & Hx). apply list_elem_of_In, in_concat in Hx as (k & Hk & Hx).
    apply list_elem_of_In, list_elem_of_fmap in Hk as (h & -> & Hh'). apply list_elem_of_In in Hx.
    apply HfL. rewrite (symbols_apart f h x.1 Hq Hf (HL h Hh') Hin); [done|]. by apply list_elem_of_fmap_2. }
  eexists. split; [unfold AddFile; rewrite Hn, Ec, Ei; done|].
  pose proof (AddFile_spec file_proto_name create s f file) as Hsp. unfold AddFile in Hsp. rewrite Hn, Ec, Ei in Hsp.
  destruct (Hsp _ _ eq_refl Hfresh) as (_ & _ & _ & Hsub & _ & Hin). split; cbn.
  - intros n. rewrite lookup_insert_is_Some, Ef, (h_files s L Hh), elem_of_cons.
    destruct (decide (file_proto_name f = n)); naive_solver.
  - intros sym [H|H]%Es; [|rewrite El in H]; rewrite fmap_app, elem_of_app; [|by left].
    right. by apply (h_syms s L Hh).
  - intros h path [->|Hh']%elem_of_cons Hp.
    + pose proof (b_messages Hb f path Hf Hp) as Hm. rewrite <- El in Hm.
      apply list_elem_of_fmap in Hm as ([[sym type] ptr] & [= <- <-] & Hx).
      assert (ptr ≠ 0) as Hp0 by (rewrite Forall_forall in Hl; by apply (Hl _ Hx)).
      unfold FindMessageByName, Unpack. cbn in Hin |- *. rewrite (Hin _ _ _ Hx). cbn. by rewrite decide_True.
    + pose proof (h_found s L Hh h path Hh' Hp) as H. unfold FindMessageByName, Unpack in H |- *.
      destruct (syms s !! upb_full_name h path) as [d|] eqn:E; [|done].
      by rewrite (lookup_weaken _ _ _ _ E Hsub).
Qed.

(** ** Loading *)

(** The files of [L], and with each all it imports, are loaded. *)
Definition loaded (w : lworld) (L : list FileProto) : Prop :=
  (∃ s, ready (lib w) s ∧ holds s L) ∧ (∀ h, h ∈ L → h ∈ fs) ∧
  ∀ h d, h ∈ L → d ∈ file_dependency h → d ∈ file_proto_name <$> L.

(** [%INC] says of the first [i] files whether they are loaded. *)
Definition inc_ok (i : nat) (w : lworld) (L : list FileProto) : Prop :=
  ∀ j h, (j < i)%nat → fs !! j = Some h →
    inc w !! path_of h = Some true ∧ h ∈ L ∨ inc w !! path_of h = None ∧ h ∉ L.

(** From [L] to [L'], only among the first [i] files. *)
Record further (i : nat) (w w' : lworld) (L L' : list FileProto) : Prop := {
  fu_loaded : loaded w' L';
  fu_inc : inc_ok i w' L';
  fu_more : ∀ h, h ∈ L → h ∈ L';
  fu_rest : ∀ j h, (i ≤ j)%nat → fs !! j = Some h →
    inc w' !! path_of h = inc w !! path_of h ∧ (h ∈ L' → h ∈ L) }.

Lemma further_refl i w L : loaded w L → inc_ok i w L → further i w w L L.
Proof. by split. Qed.

Lemma further_trans j i w1 w2 w3 L1 L2 L3 : (j ≤ i)%nat →
  further i w1 w2 L1 L2 → further j w2 w3 L2 L3 → further i w1 w3 L1 L3.
Proof.
  intros Hji [_ I2 M2 R2] [H3 I3 M3 R3]. split; [done| |auto|].
  - intros k h Hk Eh. destruct (decide (k < j)%nat) as [Hkj|Hkj]; [by eapply I3|].
    destruct (R3 k h ltac:(lia) Eh) as [E Hin]. rewrite E.
    destruct (I2 k h Hk Eh) as [[? ?]|[? ?]]; [left|right]; auto.
  - intros k h Hk Eh. destruct (R3 k h ltac:(lia) Eh) as [-> Hin]. destruct (R2 k h Hk Eh) as [-> Hin']. auto.
Qed.

Lemma add_descriptor_loads document w L f : upb_builds → request_ok → loaded w L → f ∈ fs → f ∉ L →
  (∀ d, d ∈ file_dependency f → d ∈ file_proto_name <$> L) → decode_base64 document = Some (serialize f) →
  ∃ w', on_lib (add_descriptor parse_file create FileDef_Name document) w = (Ret tt, w') ∧
    loaded w' (f :: L) ∧ inc w' = inc w.
Proof.
  intros Hb Hq [(s & Hr & Hh) [HL Hcl]] Hf HfL Hdeps Hd. unfold on_lib, add_descriptor. rewrite Hd.
  destruct (GeneratedPool_gives _ _ Hr) as (o & w1 & E1 & Hg1). rewrite (cbind_ret _ _ _ _ _ E1).
  destruct (Hg1) as ([[Hi1 _] Hgen1] & Hp1 & _). destruct Hgen1 as [(?&_)|(_ & Hpool & _)]; [done|].
  destruct (AddFile_holds s L f (next_c w1) Hb Hq Hh HL Hf HfL) as (s' & EA & Hh').
  { intros d Hd'. by apply (h_files s L Hh), Hdeps. }
  { intros sym d Hs. destruct (p_pool_next w1 Hi1 _ _ Hpool) as [_ H]. specialize (H _ _ Hs). lia. }
  destruct (AddSerializedFile_gives parse_file file_proto_name create FileDef_Name w1 o s (serialize f) f s' (next_c w1)
    Hg1 (proj2 (b_parse Hb f Hf)) EA) as (sv & w2 & E2 & Hg2).
  rewrite (cbind_ret _ _ _ _ _ E2). destruct (drop_gives w2 o s' Hg2) as (w3 & E3 & Hr3). rewrite E3.
  eexists. split; [done|]. split; [|done]. split; [by exists s'|split].
  - intros h [->|Hin]%elem_of_cons; auto.
  - intros h d [->|Hin]%elem_of_cons Hd'; rewrite fmap_cons; right; eauto.
Qed.

Lemma BuildPackageMap_values dep pkg : BuildPackageMap fs !! dep = Some pkg → ∃ h, h ∈ fs ∧ pkg = GetPerlPackage h.
Proof.
  unfold BuildPackageMap. clear. assert (∀ m : gmap bytes bytes,
    (∀ dep pkg, m !! dep = Some pkg → ∃ h, h ∈ fs ∧ pkg = GetPerlPackage h) → ∀ l, (∀ h, h ∈ l → h ∈ fs) →
    foldl (λ m f, <[file_proto_name f := GetPerlPackage f]> m) m l !! dep = Some pkg →
    ∃ h, h ∈ fs ∧ pkg = GetPerlPackage h) as H.
  { intros m Hm l. revert m Hm. induction l as [|h l IH]; intros m Hm Hl; [apply Hm|]. apply IH.
    - intros d p [[_ <-]|[_ H]]%lookup_insert_Some; [exists h; split; [apply Hl; by left|done]|by eapply Hm].
    - intros k Hk. apply Hl. by right. }
  by apply (H ∅).
Qed.

(** What a module of the request does when it runs. *)
Lemma module_actions f : upb_builds → request_ok → f ∈ fs → ∃ document, decode_base64 document = Some (serialize f) ∧
  begin_block [] (GenerateModule serialize (set_package_name g0 (GetPerlPackage f)) f) =
    (Require <$> omap (λ dep, BuildPackageMap fs !! dep) (file_dependency f)) ++ [AddDescriptor document].
Proof.
  intros Hb Hq Hf. apply begin_block_GenerateModule; [apply (q_package Hq f Hf)| |apply (b_parse Hb f Hf)].
  intros dep pkg (h & Hh & ->)%BuildPackageMap_values. apply (q_package Hq h Hh).
Qed.

Section Installed.
Context (modules : gmap bytes bytes).
Context (Hb : upb_builds) (Hq : request_ok) (Hm : installed modules).

Local Abbreviation req := (require parse_file create FileDef_Name modules).
Local Abbreviation run := (run_actions parse_file create FileDef_Name).

(** Loading the [i]-th file, with the fuel [fuel]. *)
Definition loads (i fuel : nat) : Prop := ∀ f w L, fs !! i = Some f → loaded w L → inc_ok (S i) w L →
  ∃ w' L', req fuel (GetPerlPackage f) w = (Ret tt, w') ∧ further (S i) w w' L L' ∧ f ∈ L'.

(** The imports of a file, one after the other. *)
Lemma imports_load i fuel rest : (∀ j, (j < i)%nat → loads j fuel) → ∀ ds w L,
  (∀ d, d ∈ ds → ∃ j h, (j < i)%nat ∧ fs !! j = Some h ∧ file_proto_name h = d) →
  loaded w L → inc_ok i w L →
  ∃ w' L', run (req fuel) ((Require <$> omap (λ dep, BuildPackageMap fs !! dep) ds) ++ rest) w =
      run (req fuel) rest w' ∧ further i w w' L L' ∧ ∀ d, d ∈ ds → d ∈ file_proto_name <$> L'.
Proof.
  intros Hj. induction ds as [|d ds IH]; intros w L Hds Hw Hi.
  { exists w, L. split_and!; [done|by apply further_refl|by intros ? ?%not_elem_of_nil]. }
  destruct (Hds d ltac:(by left)) as (j & h & Hji & Eh & <-).
  assert (h ∈ fs) as Hh by by eapply list_elem_of_lookup_2.
  cbn [omap list_omap]. rewrite (BuildPackageMap_lookup fs h (q_names Hq) Hh), fmap_cons. cbn [app run_actions].
  destruct (Hj j Hji h w L Eh Hw) as (w1 & L1 & E1 & F1 & Hin).
  { intros k k' Hk. apply Hi. lia. }
  assert (further i w w1 L L1) as F1'.
  { eapply (further_trans (S j)); [lia|by apply further_refl|exact F1]. }
  destruct (IH w1 L1) as (w2 & L2 & E2 & F2 & Hin2); [|apply F1'|apply F1'|].
  { intros d' Hd'. apply Hds. by right. }
  exists w2, L2. split_and!.
  - erewrite cbind_ret; [exact E2|]. unfold eval_block. by rewrite E1.
  - by eapply (further_trans i); [done|exact F1'|exact F2].
  - intros d' [->|Hd']%elem_of_cons; [|auto]. apply list_elem_of_fmap_2. by apply (fu_more _ _ _ _ _ F2).
Qed.

Lemma inc_ok_self i w L f : fs !! i = Some f → inc_ok i w L → inc w !! path_of f = Some true → f ∈ L → inc_ok (S i) w L.
Proof.
  intros Ef Hi Hp Hf j h Hj Eh. destruct (decide (j = i)) as [->|Hne]; [|apply (Hi j h); [lia|done]].
  rewrite Ef in Eh. injection Eh as <-. by left.
Qed.

Lemma path_apart i j f h : fs !! i = Some f → fs !! j = Some h → i ≠ j → path_of f ≠ path_of h.
Proof.
  intros Ef Eh Hne E. apply Hne. destruct Hm as [Hnd _].
  eapply NoDup_lookup; [exact Hnd| |]; rewrite list_lookup_fmap; [by rewrite Ef|by rewrite Eh, E].
Qed.

Lemma file_loads i : ∀ fuel, (i < fuel)%nat → loads i fuel.
Proof.
  induction i as [i IHi] using lt_wf_ind. intros fuel Hfuel f w L Ef Hw Hi.
  assert (f ∈ fs) as Hf by by eapply list_elem_of_lookup_2.
  assert (∃ path, path = path_of f) as [path Epath] by eauto.
  destruct fuel as [|fuel]; [lia|]. cbn [require]. rewrite (cbind_ret cget _ w w w) by done.
  change (bareword_file (GetPerlPackage f)) with (path_of f).
  destruct (Hi i f ltac:(lia) Ef) as [[-> HfL]|[-> HfL]].
  { exists w, L. split_and!; [done|by apply further_refl|done]. }
  rewrite (proj2 Hm f Hf). destruct (module_actions f Hb Hq Hf) as (document & Hd & ->).
  unfold set_inc, cmodify at 1. erewrite cbind_ret by reflexivity. set (w0 := {| inc := <[path_of f := true]> (inc w); lib := lib w |}).
  assert (inc_ok i w0 L) as Hi0.
  { intros j h Hj Eh. cbn. rewrite lookup_insert_ne by (apply (path_apart i j); [done|done|lia]). apply (Hi j h); [lia|done]. }
  destruct (imports_load i fuel [AddDescriptor document] (λ j Hj, IHi j Hj fuel ltac:(lia)) (file_dependency f) w0 L)
    as (w1 & L1 & E1 & [Hw1 Hi1 Hmore Hrest] & Hdeps); [by intros d; apply (q_order Hq i f d)|done|done|].
  destruct (Hrest i f ltac:(lia) Ef) as [Einc HfL1]. cbn in Einc. rewrite lookup_insert_eq in Einc.
  destruct (add_descriptor_loads document w1 L1 f Hb Hq Hw1 Hf) as (w2 & E2 & Hw2 & Einc2); [auto|done|done|].
  exists w2, (f :: L1). split; [|split; [split|by left]].
  - unfold marking_failure. rewrite E1. cbn [run_actions]. rewrite (cbind_ret _ _ _ _ _ E2). done.
  - done.
  - apply (inc_ok_self i w2 (f :: L1) f Ef); [|by rewrite Einc2|by left].
    intros j h Hj Eh. rewrite Einc2. destruct (Hi1 j h Hj Eh) as [[? ?]|[? Hn]]; [left; split; [done|by right]|right].
    split; [done|]. intros [->|?]%elem_of_cons; [|done]. by apply (path_apart i j f f Ef Eh ltac:(lia)).
  - intros h Hh. right. by apply Hmore.
  - intros j h Hj Eh. rewrite Einc2. destruct (Hrest j h ltac:(lia) Eh) as [-> Hback]. cbn.
    assert (path_of f ≠ path_of h) as Hp by (apply (path_apart i j); [done|done|lia]).
    rewrite lookup_insert_ne by done. split; [done|]. intros [->|?]%elem_of_cons; [done|auto].
Qed.
(** A program that requires modules of the response, in any order. *)
Lemma program_loads fuel : (length fs ≤ fuel)%nat → ∀ uses w L, (∀ u, u ∈ uses → u ∈ fs) →
  loaded w L → inc_ok (length fs) w L →
  ∃ w' L', program parse_file create FileDef_Name modules fuel (GetPerlPackage <$> uses) w = (Ret tt, w') ∧
    further (length fs) w w' L L' ∧ ∀ u, u ∈ uses → u ∈ L'.
Proof.
  intros Hfuel. induction uses as [|u uses IH]; intros w L Hu Hw Hi.
  { exists w, L. split_and!; [done|by apply further_refl|by intros ? ?%not_elem_of_nil]. }
  destruct (proj1 (list_elem_of_lookup _ _) (Hu u ltac:(by left))) as [j Ej]. pose proof (lookup_lt_Some _ _ _ Ej).
  destruct (file_loads j fuel ltac:(lia) u w L Ej Hw) as (w1 & L1 & E1 & F1 & Hin).
  { intros k k' Hk. apply Hi. lia. }
  assert (further (length fs) w w1 L L1) as F1'.
  { eapply (further_trans (S j)); [lia|by apply further_refl|exact F1]. }
  destruct (IH w1 L1) as (w2 & L2 & E2 & F2 & Hin2); [intros; apply Hu; by right|apply F1'|apply F1'|].
  exists w2, L2. rewrite fmap_cons. cbn [program]. split_and!.
  - by rewrite (cbind_ret _ _ _ _ _ E1).
  - by eapply (further_trans (length fs)); [done|exact F1'|exact F2].
  - intros u' [->|Hu']%elem_of_cons; [by apply (fu_more _ _ _ _ _ F2)|auto].
Qed.
End Installed.

(** The library the plug-in's response makes. *)
Definition install (r : CodeGeneratorResponse) : gmap bytes bytes := list_to_map (response_file r).

Lemma module_pair_paths f : request_ok → f ∈ fs →
  module_pair serialize g0 f = [(path_of f, GenerateModule serialize (set_package_name g0 (GetPerlPackage f)) f);
    (squeeze (slashes (GetPerlPackage f)) ++ str "/Types.pm", GenerateTypes (set_package_name g0 (GetPerlPackage f)) f)].
Proof.
  intros Hq Hf. destruct (q_package Hq f Hf) as [_ (l & Hne & Hl & E)]. unfold module_pair.
  assert (squeeze (slashes (GetPerlPackage f)) ++ str ".pm" = path_of f) as ->; [|done].
  pose proof (module_path_join l Hne Hl) as Hm. unfold module_path in Hm.
  rewrite collapse_squeeze in Hm by (unfold slashes; by rewrite length_fmap). apply (inj Some) in Hm.
  unfold path_of, bareword_file. by rewrite E, bareword_join, Hm.
Qed.

Lemma response_pairs r : request_ok → Generate serialize g0 = Some r →
  response_file r = concat (map (module_pair serialize g0) fs).
Proof.
  intros Hq HG. unfold Generate in HG.
  rewrite (generate_files_spec serialize fs (file_proto_name <$> fs) _ (q_names Hq)) in HG by by exists [].
  injection HG as <-. cbn [response_file]. unfold g0. cbn [file_to_generate new_generator].
  rewrite <- list_fmap_compose. f_equal. apply list_fmap_ext. intros i f Ef. unfold compose, requested.
  by rewrite (find_unique fs f (q_names Hq)) by by eapply list_elem_of_lookup_2.
Qed.

Lemma response_installed r : request_ok → Generate serialize g0 = Some r → NoDup (response_file r).*1 →
  installed (install r).
Proof.
  intros Hq HG Hnd. unfold install. rewrite (response_pairs r Hq HG) in *. split.
  - assert (∀ l, (∀ f, f ∈ l → f ∈ fs) → NoDup (concat (map (module_pair serialize g0) l)).*1 → NoDup (path_of <$> l)) as H.
    { induction l as [|f l IH]; intros Hl H; [constructor|]. rewrite fmap_cons in *.
      cbn [concat map] in H. rewrite (module_pair_paths f Hq) in H by (apply Hl; by left). cbn in H.
      apply NoDup_cons in H as [Hf [_ H]%NoDup_cons]. apply NoDup_cons. split; [|apply IH; [|done]].
      - intros (h & E & Hh)%list_elem_of_fmap. apply Hf. right. apply list_elem_of_fmap.
        exists (path_of h, GenerateModule serialize (set_package_name g0 (GetPerlPackage h)) h). split; [done|].
        apply list_elem_of_In, in_concat. exists (module_pair serialize g0 h). split; [by apply in_map, list_elem_of_In|].
        rewrite (module_pair_paths h Hq) by (apply Hl; by right). by left.
      - intros h Hh. apply Hl. by right. }
    by apply H.
  - intros f Hf. apply elem_of_list_to_map_1; [done|]. apply list_elem_of_In, in_concat.
    exists (module_pair serialize g0 f). split; [by apply in_map, list_elem_of_In|].
    rewrite (module_pair_paths f Hq Hf). by left.
Qed.

(** [b] is among the imports of [a]. *)
Definition imports (a b : FileProto) : Prop := b ∈ fs ∧ file_proto_name b ∈ file_dependency a.

Lemma loaded_imports w L f h : request_ok → loaded w L → f ∈ L → rtc imports f h → h ∈ L.
Proof.
  intros Hq [_ [HL Hcl]] Hf Hr. induction Hr as [|a b c [Hb Hab] _ IH]; [done|]. apply IH.
  apply (Hcl a) in Hab; [|done]. apply list_elem_of_fmap in Hab as (k & E & Hk).
  by rewrite (same_name b k Hq Hb (HL k Hk) E).
Qed.

Lemma nothing_loaded capacity : loaded {| inc := ∅; lib := no_pools capacity |} [].
Proof.
  split; [|split; by intros ? ?%not_elem_of_nil || intros ?? ?%not_elem_of_nil].
  exists empty_pool. split; [apply ready_no_pools|]. split; cbn.
  - intros n. rewrite lookup_empty. split; [by intros []|by intros ?%not_elem_of_nil].
  - intros sym. rewrite lookup_empty. by intros [].
  - by intros f path ?%not_elem_of_nil.
Qed.

Lemma loaded_pool w L f : loaded w L → f ∈ L → ∃ s, pools (lib w) !! generated_pool_ptr (lib w) = Some s ∧ holds s L.
Proof.
  intros [(s & [_ [(_ & _ & -> & _)|(_ & Hp & _)]] & Hh) _] Hf; [|by exists s].
  assert (file_proto_name f ∈ file_proto_name <$> L) as H by by apply list_elem_of_fmap_2.
  apply (h_files _ _ Hh) in H. cbn in H. rewrite lookup_empty in H. by destruct H.
Qed.
End Request.


(** A file and another that imports it; upb's part reduced to their names. *)
Definition base_file : FileProto :=
  {| file_proto_name := str "acme/base.proto"; file_package := str "acme"; file_dependency := [];
     file_message_type := [leaf (str "Base") [leaf (str "Inner") []]]; file_enum_type := []; file_service := [] |}.
Definition user_file : FileProto :=
  {| file_proto_name := str "acme/user.proto"; file_package := str "acme"; file_dependency := [str "acme/base.proto"];
     file_message_type := [leaf (str "User") []]; file_enum_type := []; file_service := [] |}.
Definition two_files : list FileProto := [base_file; user_file].

Definition name_serialize (f : FileProto) : bytes := file_proto_name f.
Definition name_parse (data : bytes) : option FileProto :=
  List.find (λ f, bool_decide (file_proto_name f = data)) two_files.
Definition message_symbols (f : FileProto) : list (bytes * deftype) :=
  (λ path, (upb_full_name f path, MSG)) <$> file_paths f.
Definition build_messages (s : upb_DefPool) (f : FileProto) : list (bytes * deftype * Z) * option bytes :=
  if bool_decide (Forall (λ d, is_Some (files s !! d)) (file_dependency f))
  then ((λ k, (k, 64)) <$> message_symbols f, None)
  else ([], Some (str "Depends on file")).

Lemma two_files_build : upb_builds name_parse name_serialize build_messages message_symbols two_files.
Proof.
  split.
  - intros f [->|[->|?%not_elem_of_nil]%elem_of_cons]%elem_of_cons; (split; [by_compute|by vm_compute])|| done.
  - intros s f _ Hd. unfold build_messages. rewrite bool_decide_eq_true_2 by by apply Forall_forall.
    eexists. split; [done|]. split; [|apply Forall_fmap, Forall_true; by intros ?].
    rewrite <- list_fmap_compose. apply list_fmap_id.
  - intros f path _ Hp. by apply (list_elem_of_fmap_2 (λ path, (upb_full_name f path, MSG))).
Qed.

Lemma two_files_request : request_ok message_symbols two_files.
Proof.
  split; [by_compute|by_compute| |].
  - intros [|[|i]] f d Ef; simpl in Ef; try done; injection Ef as <-; [by intros ?%not_elem_of_nil|].
    intros [->|?%not_elem_of_nil]%elem_of_cons; [|done]. exists 0%nat, base_file. split_and!; [lia|done|done].
  - intros f Hf. split; [by destruct f; apply elem_of_cons in Hf as [[= -> -> -> -> -> ->]|[[= -> -> -> -> -> ->]|?%not_elem_of_nil]%elem_of_cons]; [by_compute..|]|].
    apply elem_of_cons in Hf as [->|[->|?%not_elem_of_nil]%elem_of_cons]; [| |done].
    + exists [str "Acme"; str "Base"]. split_and!; [done| |by vm_compute]. repeat constructor; by_compute.
    + exists [str "Acme"; str "User"]. split_and!; [done| |by vm_compute]. repeat constructor; by_compute.
Qed.

