(* ===== verification/Tap.v ===== *)
(** * The harness of the C test programs (t/c/upb-perl-test.h)

    The macros the test programs under [t/c] are written with, as commands that append
    the lines they print, and the pattern matcher they carry for systems without PCRE.
    The programs themselves are in [ConvertTests], [RuntimeTests] and [ObjectTests]. *)

From S2P Require Import Prelude Convert Handles.
From stdpp Require Import pretty.

#[local] Open Scope Z_scope.

(** ** What a test program prints

    The globals of the harness, and the lines written to [stderr].  [cdiag] prints only
    when asked to and is left out. *)
Inductive line :=
  | Plan (indent : nat) (n : Z)
  | Check (indent : nat) (passed : bool) (num : Z) (name : string) (todo : option string)
  | Skipped (indent : nat) (num : Z) (reason : string)
  | Subtest (indent : nat) (name : string)
  | Diagnostic (indent : nat) (text : string).

Record tap := { test_num : Z; indent_level : nat; todo_reason : option string; err : list line }.

(** The globals at the start of a program. *)
Definition tap0 : tap := {| test_num := 0; indent_level := 0; todo_reason := None; err := [] |}.

Definition print (f : tap → line) (t : tap) : tap :=
  {| test_num := test_num t; indent_level := indent_level t; todo_reason := todo_reason t;
     err := err t ++ [f t] |}.
Definition set_num (n : Z) (t : tap) : tap :=
  {| test_num := n; indent_level := indent_level t; todo_reason := todo_reason t; err := err t |}.
Definition set_indent (n : nat) (t : tap) : tap :=
  {| test_num := test_num t; indent_level := n; todo_reason := todo_reason t; err := err t |}.
Definition set_todo (r : option string) (t : tap) : tap :=
  {| test_num := test_num t; indent_level := indent_level t; todo_reason := r; err := err t |}.

(** ["%*s"] with [indent_level * 4]. *)
Fixpoint blanks (n : nat) : string := match n with O => EmptyString | S n => " " +:+ blanks n end.
Definition spaces (indent : nat) : string := blanks (indent * 4).

(** A line as it is printed. *)
Definition render (l : line) : string :=
  match l with
  | Plan i n => spaces i +:+ "1.." +:+ pretty n
  | Check i passed num name todo =>
      spaces i +:+ (if passed then "ok" else "not ok") +:+ " " +:+ pretty num +:+ " - " +:+ name +:+
      match todo with Some r => " # TODO " +:+ r | None => "" end
  | Skipped i num reason => spaces i +:+ "ok " +:+ pretty num +:+ " - # skip " +:+ reason
  | Subtest i name => spaces i +:+ "# Subtest: " +:+ name
  | Diagnostic i text => spaces i +:+ text
  end.

(** ** The macros

    A test runs on a state [W] of the code under test and on the harness. *)
Notation test W := (cmd (W * tap)).

Section Macros.
Context {W : Type}.

Definition on_tap (f : tap → tap) : test W unit := cmodify (λ st, (st.1, f st.2)).
(** A call of the code under test. *)
Definition prog {A} (m : cmd W A) : test W A := λ st,
  let '(out, s) := m st.1 in (out, (s, st.2)).
Definition result {A} (m : outcome A) : test W A := λ st, (m, st).

Definition plan (n : Z) : test W unit := on_tap (print (λ t, Plan (indent_level t) n)).

(** The line of a check, with [++test_num]. *)
Definition check (passed : bool) (name : string) (todo : tap → option string) : test W unit :=
  on_tap (λ t, let t := set_num (test_num t + 1) t in
               print (λ t, Check (indent_level t) passed (test_num t) name (todo t)) t).
Definition note (text : string) : test W unit :=
  on_tap (print (λ t, Diagnostic (indent_level t) ("# " +:+ text))).
Definition diagnostic (text : string) : test W unit :=
  on_tap (print (λ t, Diagnostic (indent_level t) ("  # " +:+ text))).

(** [ok] names the reason of an enclosing [TODO]; the macros that compare do not. *)
Definition ok (val : bool) (name : string) : test W unit := check val name todo_reason.
Definition fail (name : string) : test W unit := ok false name.

Definition when (b : bool) (m : test W unit) : test W unit := if b then m else mret tt.

(** [is] ([is_i] here), [isnt], [is_u], [isnt_u]: what the casts to 64 bits print. *)
Definition is_i (got expected : Z) (name : string) : test W unit :=
  check (got =? expected) name (λ _, None);;
  when (negb (got =? expected))
    (diagnostic ("Got: " +:+ pretty (i64 got));; diagnostic ("Expected: " +:+ pretty (i64 expected))).
Definition isnt (got expected : Z) (name : string) : test W unit :=
  check (negb (got =? expected)) name (λ _, None);;
  when (got =? expected) (diagnostic ("Got: " +:+ pretty (i64 got) +:+ " (Expected different)")).
Definition is_u (got expected : Z) (name : string) : test W unit :=
  check (got =? expected) name (λ _, None);;
  when (negb (got =? expected))
    (diagnostic ("Got: " +:+ pretty (u64 got));; diagnostic ("Expected: " +:+ pretty (u64 expected))).
Definition isnt_u (got expected : Z) (name : string) : test W unit :=
  check (negb (got =? expected)) name (λ _, None);;
  when (got =? expected) (diagnostic ("Got: " +:+ pretty (u64 got) +:+ " (Expected different)")).

(** [is_string]: [strcmp] of C strings. *)
Definition is_string (got expected : bytes) (name : string) : test W unit :=
  let same := bool_decide (cstr got = cstr expected) in
  check same name (λ _, None);;
  when (negb same)
    (diagnostic ("Got: " +:+ text (cstr got));; diagnostic ("Expected: " +:+ text (cstr expected))).

(** [memcmp(a, b, n) == 0] and [strncmp(a, b, n) == 0]: [a] is the memory of a view, which
    no NUL ends; [b] a C string. *)
Fixpoint memcmp (a b : bytes) (n : nat) : outcome bool :=
  match n, a, b with
  | O, _, _ => Ret true
  | S n, x :: a, y :: b => if x =? y then memcmp a b n else Ret false
  | S _, _, _ => Fault "read past a buffer"
  end.
Fixpoint strncmp (a b : bytes) (n : nat) : outcome bool :=
  match n, a with
  | O, _ => Ret true
  | S n, x :: a =>
      match b with
      | y :: b => if negb (x =? y) then Ret false else if x =? 0 then Ret true else strncmp a b n
      | [] => Ret (x =? 0)
      end
  | S _, [] => Fault "read past a view"
  end.

Definition is_blob (got expected : bytes) (len : nat) (name : string) : test W unit :=
  same ← result (memcmp got expected len);
  check same name (λ _, None);;
  when (negb same) (diagnostic "Blobs differ").

Definition is_string_view (got expected : bytes) (len : nat) (name : string) : test W unit :=
  same ← result (strncmp got expected len);
  let same := same && (length got =? len)%nat in
  check same name (λ _, None);;
  when (negb same)
    (diagnostic ("Got: " +:+ text got +:+ " (len " +:+ pretty (Z.of_nat (length got)) +:+ ")");;
     diagnostic ("Expected: " +:+ text (cstr expected) +:+ " (len " +:+ pretty (Z.of_nat len) +:+ ")")).

(** [TODO(reason) block]: the reason is dropped after the block, not restored. *)
Definition TODO (reason : string) (block : test W unit) : test W unit :=
  on_tap (set_todo (Some reason));; block;; on_tap (set_todo None).

(** [subtest(name, block)]: numbers start again inside, one level deeper. *)
Definition subtest (name : string) (block : test W unit) : test W unit :=
  on_tap (print (λ t, Subtest (indent_level t) name));;
  st ← cget;
  let parent_test_num := test_num st.2 in
  on_tap (set_num 0);;
  on_tap (λ t, set_indent (S (indent_level t)) t);;
  block;;
  on_tap (λ t, set_indent (pred (indent_level t)) t);;
  on_tap (set_num parent_test_num);;
  ok true name.

(** [LEAK_CHECK(arena, block, name)]; [space]: [upb_Arena_SpaceAllocated] of the arena. *)
Definition LEAK_CHECK (space : cmd W Z) (block : test W unit) (name : string) : test W unit :=
  before ← prog space;
  block;;
  after ← prog space;
  ok (after =? before) name;;
  when (negb (after =? before))
    (diagnostic ("Leaked " +:+ pretty (u64 (after - before)) +:+ " bytes in [" +:+ name +:+ "]")).

(** [ASSERT_PROTO_MATCH]; [equal]: [upb_Message_IsEqual] of the messages. *)
Definition ASSERT_PROTO_MATCH (equal : cmd W bool) (name : string) : test W unit :=
  same ← prog equal;
  ok same name;;
  when (negb same) (diagnostic "Messages do not match").

(** [SKIP(reason, count)] and [SKIP_BLOCK]. *)
Fixpoint SKIP (reason : string) (count : nat) : test W unit :=
  match count with
  | O => mret tt
  | S count =>
      on_tap (λ t, let t := set_num (test_num t + 1) t in
                   print (λ t, Skipped (indent_level t) (test_num t) reason) t);;
      SKIP reason count
  end.
Definition SKIP_BLOCK (condition : bool) (count : nat) (reason : string) (block : test W unit) : test W unit :=
  if condition then SKIP reason count else block.

(** [TEST_PERL_CALL(code, name)]: [eval] is what [eval_pv(code, TRUE)] does, which croaks
    when the code does; [errsv], the text of the error variable after it if it is true. *)
Definition TEST_PERL_CALL (eval : cmd W (option bytes)) (name : string) : test W unit :=
  errsv ← prog eval;
  ok (match errsv with None => true | Some _ => false end) name;;
  match errsv with Some e => diagnostic ("Perl error: " +:+ text e) | None => mret tt end.

End Macros.

(** ** The pattern matcher

    [_upb_test_match] with its helpers, used where there is no PCRE: [c*], [.], [^] at
    the start and [$] at the end of a pattern. *)
Definition STAR : Z := 42.
Definition DOT : Z := 46.
Definition DOLLAR : Z := 36.
Definition CARET : Z := 94.

Section Star.
Variables (c : Z) (matchhere : bytes → bool).

(** [_upb_test_matchstar(c, regexp, text)]; [matchhere]: the match of [regexp]. *)
Fixpoint matchstar (text : bytes) : bool :=
  if matchhere text then true
  else match text with
       | [] => false
       | t :: text => if (t =? c) || (c =? DOT) then matchstar text else false
       end.
End Star.

(** [_upb_test_matchhere]. *)
Fixpoint matchhere (regexp text : bytes) : bool :=
  match regexp with
  | [] => true
  | r :: regexp' =>
      let plain :=
        if (r =? DOLLAR) && bool_decide (regexp' = []) then bool_decide (text = [])
        else match text with
             | t :: text => if (r =? DOT) || (r =? t) then matchhere regexp' text else false
             | [] => false
             end in
      match regexp' with
      | s :: regexp'' => if s =? STAR then matchstar r (matchhere regexp'') text else plain
      | [] => plain
      end
  end.

(** The loop of [_upb_test_match] over the starts of the match. *)
Fixpoint match_anywhere (regexp text : bytes) : bool :=
  if matchhere regexp text then true
  else match text with [] => false | _ :: text => match_anywhere regexp text end.
Definition test_match (regexp text : bytes) : bool :=
  match regexp with
  | r :: regexp' => if r =? CARET then matchhere regexp' text else match_anywhere regexp text
  | [] => match_anywhere regexp text
  end.

(** [like] and [like_n], on systems without PCRE; [None] is NULL. *)
Section Like.
Context {W : Type}.

Definition like (s pattern : option bytes) (name : string) : test W unit :=
  like_pass ←
    match s, pattern with
    | None, _ => note ("String to match is NULL for [" +:+ name +:+ "]");; mret false
    | _, None => note ("Pattern is NULL for [" +:+ name +:+ "]");; mret false
    | Some s, Some pattern =>
        if test_match (cstr pattern) (cstr s) then mret true
        else diagnostic ("String [" +:+ text (cstr s) +:+ "] does not match pattern [" +:+
                         text (cstr pattern) +:+ "] for [" +:+ name +:+ "]");;
             mret false
    end;
  ok like_pass name.

(** [mem]: whether [malloc] finds room for the copy of the first [len] codes. *)
Definition like_n (mem : bool) (s : option bytes) (len : nat) (pattern : option bytes) (name : string)
  : test W unit :=
  like_pass ←
    match s, pattern with
    | None, _ => note ("String to match is NULL for [" +:+ name +:+ "]");; mret false
    | _, None => note ("Pattern is NULL for [" +:+ name +:+ "]");; mret false
    | Some s, Some pattern =>
        if negb mem then mret false
        else if (length s <? len)%nat then cfault "read past a buffer"
        else
          let temp_str := take len s in
          if test_match (cstr pattern) (cstr temp_str) then mret true
          else diagnostic ("String [" +:+ text (cstr temp_str) +:+ "] does not match pattern [" +:+
                           text (cstr pattern) +:+ "] for [" +:+ name +:+ "]");;
               mret false
    end;
  ok like_pass name.
End Like.

(** ** What a pattern means

    A pattern is a list of items and whether it is anchored at the end. *)
Inductive item := One (r : Z) | Many (r : Z).

Fixpoint parse (regexp : bytes) : list item * bool :=
  match regexp with
  | [] => ([], false)
  | r :: regexp' =>
      match regexp' with
      | [] => if r =? DOLLAR then ([], true) else ([One r], false)
      | s :: regexp'' =>
          if s =? STAR then (Many r :: (parse regexp'').1, (parse regexp'').2)
          else (One r :: (parse regexp').1, (parse regexp').2)
      end
  end.

Definition admits (r t : Z) : Prop := r = DOT ∨ r = t.

(** The texts the items describe. *)
Inductive described : list item → bytes → Prop :=
  | described_nil : described [] []
  | described_one r t l p : admits r t → described l p → described (One r :: l) (t :: p)
  | described_many r ts l p : Forall (admits r) ts → described l p → described (Many r :: l) (ts ++ p).

(** A match at the start of [text]. *)
Definition matches (pat : list item * bool) (text : bytes) : Prop :=
  ∃ p q, text = p ++ q ∧ described pat.1 p ∧ (pat.2 = true → q = []).

Lemma matches_one r l e t text : matches (One r :: l, e) (t :: text) ↔ admits r t ∧ matches (l, e) text.
Proof.
  split.
  - intros (p & q & Heq & Hd & He). inversion Hd; simplify_eq/=. split; [done|]. by exists p0, q.
  - intros (Ha & p & q & -> & Hd & He). exists (t :: p), q. split_and!; [done|by constructor|done].
Qed.

Lemma matches_one_nil r l e : ¬ matches (One r :: l, e) [].
Proof. intros (p & q & Heq & Hd & _). inversion Hd; by simplify_eq/=. Qed.

Lemma matches_many r l e text : matches (Many r :: l, e) text ↔
  matches (l, e) text ∨ ∃ t text', text = t :: text' ∧ admits r t ∧ matches (Many r :: l, e) text'.
Proof.
  split.
  - intros (p & q & -> & Hd & He). inversion Hd as [| |? ts ? p' Hts Hd']; simplify_eq/=.
    destruct ts as [|t ts]; [left; by exists p', q|].
    right. apply Forall_cons in Hts as [Ht Hts]. exists t, (ts ++ p' ++ q). split_and!; [by rewrite <- app_assoc|done|].
    exists (ts ++ p'), q. split_and!; [by rewrite app_assoc|by constructor|done].
  - intros [(p & q & -> & Hd & He)|(t & text' & -> & Ht & p & q & -> & Hd & He)].
    + exists p, q. split_and!; [done|by apply (described_many r [])|done].
    + inversion Hd as [| |? ts ? p' Hts Hd']; simplify_eq/=.
      exists (t :: ts ++ p'), q. split_and!; [done|apply (described_many r (t :: ts)); [by constructor|done]|done].
Qed.

Lemma matchstar_exact r l e here text : (∀ text, here text = true ↔ matches (l, e) text) →
  matchstar r here text = true ↔ matches (Many r :: l, e) text.
Proof.
  intros Hhere. induction text as [|t text IH]; simpl.
  - rewrite matches_many. destruct (here []) eqn:E; [apply Hhere in E; naive_solver|].
    split; [done|]. intros [Hm|(? & ? & [=] & _)]. apply Hhere in Hm. congruence.
  - rewrite matches_many. destruct (here (t :: text)) eqn:E; [apply Hhere in E; naive_solver|].
    transitivity (admits r t ∧ matches (Many r :: l, e) text).
    + rewrite <- IH. unfold admits. destruct (t =? r) eqn:E1, (r =? DOT) eqn:E2; bool_to_prop; simpl;
        naive_solver.
    + split; [naive_solver|]. intros [Hm|Hm]; [apply Hhere in Hm; congruence|naive_solver].
Qed.

(** The helper answers whether the text starts with a match. *)
Lemma matchhere_exact n : ∀ regexp text, (length regexp ≤ n)%nat →
  matchhere regexp text = true ↔ matches (parse regexp) text.
Proof.
  induction n as [|n IH]; intros [|r regexp] text Hn; simpl in Hn; try lia.
  1, 2: split; [|done]; intros _; exists [], text; split_and!; [done|constructor|done].
  assert (∀ pat, pat = (One r :: (parse regexp).1, (parse regexp).2) →
    match text with
    | t :: text => if (r =? DOT) || (r =? t) then matchhere regexp text else false
    | [] => false
    end = true ↔ matches pat text) as Hplain.
  { intros pat ->. destruct text as [|t text].
    - split; [done|]. intros Hm. by apply matches_one_nil in Hm.
    - rewrite matches_one. rewrite <- surjective_pairing, <- (IH regexp text) by lia. unfold admits.
      destruct (r =? DOT) eqn:E1, (r =? t) eqn:E2; bool_to_prop; simpl; naive_solver. }
  cbn [matchhere parse]. destruct regexp as [|s regexp].
  - destruct (r =? DOLLAR) eqn:E; cbn [andb].
    + rewrite bool_decide_true, bool_decide_eq_true by done. split.
      * intros ->. exists [], []. split_and!; [done|constructor|done].
      * intros (p & q & -> & Hd & He). inversion Hd. by rewrite He.
    + by apply Hplain.
  - destruct (s =? STAR) eqn:E.
    + apply matchstar_exact. intros text'. rewrite <- surjective_pairing. apply IH. simpl in Hn. lia.
    + rewrite andb_comm. rewrite bool_decide_false by done. cbn [andb]. by apply Hplain.
Qed.

Lemma match_anywhere_exact regexp text :
  match_anywhere regexp text = true ↔ ∃ a b, text = a ++ b ∧ matches (parse regexp) b.
Proof.
  induction text as [|t text IH]; simpl.
  - destruct (matchhere regexp []) eqn:E.
    + split; [|done]. intros _. exists [], []. split; [done|]. by apply (matchhere_exact (length regexp)).
    + split; [done|]. intros (a & b & Heq & Hm). symmetry in Heq. apply app_nil in Heq as [-> ->].
      apply (matchhere_exact (length regexp)) in Hm; [congruence|done].
  - destruct (matchhere regexp (t :: text)) eqn:E.
    + split; [|done]. intros _. exists [], (t :: text). split; [done|]. by apply (matchhere_exact (length regexp)).
    + rewrite IH. split.
      * intros (a & b & -> & Hm). by exists (t :: a), b.
      * intros ([|x a] & b & Heq & Hm); simplify_eq/=; [|by exists a, b].
        apply (matchhere_exact (length regexp)) in Hm; [congruence|done].
Qed.

(** The matcher is exact: a pattern matches a text if and only if some part of the text,
    the start under [^] and the end under [$], is a text the items describe. *)
Theorem test_match_exact regexp text :
  test_match regexp text = true ↔
    match regexp with
    | 94 :: regexp' => matches (parse regexp') text
    | _ => ∃ a b, text = a ++ b ∧ matches (parse regexp) b
    end.
Proof.
  destruct regexp as [|r regexp]; [apply match_anywhere_exact|].
  unfold test_match. destruct (Z.eqb_spec r CARET) as [->|Hr].
  - by apply (matchhere_exact (length regexp)).
  - rewrite match_anywhere_exact. unfold CARET in Hr. by split_cases.
Qed.

Example matcher_examples :
  test_match (str "^ab*c$") (str "abbbc") = true ∧ test_match (str "b.d") (str "abcde") = true ∧
  test_match (str "^b") (str "ab") = false ∧ test_match (str "a*$") (str "baa") = true.
Proof. by_compute. Qed.

(** ** The numbers of the checks

    However a program is composed of the macros, the checks it prints at its level are
    numbered one after the other, and the level is what it was. *)
Definition line_indent (l : line) : nat :=
  match l with Plan i _ | Check i _ _ _ _ | Skipped i _ _ | Subtest i _ | Diagnostic i _ => i end.
Definition line_number (i : nat) (l : line) : option Z :=
  match l with
  | Check j _ num _ _ | Skipped j num _ => if decide (j = i) then Some num else None
  | _ => None
  end.
Definition numbers (i : nat) (ls : list line) : list Z := omap (line_number i) ls.

Lemma numbers_app i ls ks : numbers i (ls ++ ks) = numbers i ls ++ numbers i ks.
Proof. apply omap_app. Qed.

Lemma numbers_deeper i ls : Forall (λ l, i < line_indent l)%nat ls → numbers i ls = [].
Proof.
  induction 1 as [|l ls Hl _ IH]; [done|]. change (l :: ls) with ([l] ++ ls). rewrite numbers_app, IH.
  destruct l; simpl in *; try done; unfold numbers; simpl; by rewrite decide_False by lia.
Qed.

Record grown (t t' : tap) (ls : list line) : Prop := {
  grown_err : err t' = err t ++ ls;
  grown_indent : indent_level t' = indent_level t;
  grown_deeper : Forall (λ l, indent_level t ≤ line_indent l)%nat ls;
  grown_num : test_num t ≤ test_num t';
  grown_numbers : numbers (indent_level t) ls = seqZ (test_num t + 1) (test_num t' - test_num t);
}.

Definition tidy {W A} (m : test W A) : Prop :=
  ∀ st a st', m st = (Ret a, st') → ∃ ls, grown st.2 st'.2 ls.

Lemma grown_refl t t' : err t' = err t → indent_level t' = indent_level t → test_num t' = test_num t →
  grown t t' [].
Proof. intros He Hi Hn. split; [by rewrite app_nil_r|done|done|lia|]. by rewrite Hn, Z.sub_diag. Qed.

Lemma grown_trans t1 t2 t3 ls ks : grown t1 t2 ls → grown t2 t3 ks → grown t1 t3 (ls ++ ks).
Proof.
  intros [E1 I1 D1 N1 S1] [E2 I2 D2 N2 S2]. rewrite I1 in D2, S2. split.
  - by rewrite E2, E1, app_assoc.
  - congruence.
  - by apply Forall_app.
  - lia.
  - rewrite numbers_app, S1, S2.
    replace (test_num t3 - test_num t1) with (test_num t2 - test_num t1 + (test_num t3 - test_num t2)) by lia.
    rewrite seqZ_app by lia. f_equal. f_equal; lia.
Qed.

(** A line that is no check, and the line of a check. *)
Lemma grown_line t l : indent_level t = line_indent l → line_number (indent_level t) l = None →
  grown t (print (λ _, l) t) [l].
Proof.
  intros Hi Hn. split; simpl; [done|done|constructor; [lia|done]|done|].
  unfold numbers. simpl. by rewrite Hn, Z.sub_diag.
Qed.
Lemma grown_check t l : indent_level t = line_indent l →
  line_number (indent_level t) l = Some (test_num t + 1) →
  grown t (print (λ _, l) (set_num (test_num t + 1) t)) [l].
Proof.
  intros Hi Hn. split; simpl; [done|done|constructor; [lia|done]|lia|].
  unfold numbers. simpl. rewrite Hn. by replace (test_num t + 1 - test_num t) with 1 by lia.
Qed.

Create HintDb tap.

Section Tidy.
Context {W : Type}.

Lemma tidy_ret {A} (a : A) : tidy (W := W) (mret a).
Proof. intros st a' st' [= _ <-]. exists []. by apply grown_refl. Qed.
Lemma tidy_bind {A B} (m : test W A) (k : A → test W B) : tidy m → (∀ a, tidy (k a)) → tidy (m ≫= k).
Proof.
  intros Hm Hk st b st' E. unfold mbind, cmd_bind in E. destruct (m st) as [[a| |] st1] eqn:E1; simplify_eq/=.
  destruct (Hm _ _ _ E1) as [ls H1], (Hk a _ _ _ E) as [ks H2]. eexists. by eapply grown_trans.
Qed.
Lemma tidy_prog {A} (m : cmd W A) : tidy (prog m).
Proof.
  intros [s t] a st'. unfold prog. simpl. destruct (m s) as [out s']. intros [= -> <-]. exists []. by apply grown_refl.
Qed.
Lemma tidy_result {A} (m : outcome A) : tidy (W := W) (result m).
Proof. intros st a st' [= _ <-]. exists []. by apply grown_refl. Qed.
Lemma tidy_croak {A} msg : tidy (W := W) (A := A) (ccroak msg).
Proof. by intros st a st' [=]. Qed.
Lemma tidy_fault {A} why : tidy (W := W) (A := A) (cfault why).
Proof. by intros st a st' [=]. Qed.
Lemma tidy_print f : (∀ t, line_indent (f t) = indent_level t ∧ line_number (indent_level t) (f t) = None) →
  tidy (W := W) (on_tap (print f)).
Proof. intros Hf st a st' [= _ <-]. exists [f st.2]. destruct (Hf st.2). by apply (grown_line st.2). Qed.
Lemma tidy_check b name todo : tidy (W := W) (check b name todo).
Proof.
  intros st a st' [= _ <-]. eexists. eapply (grown_check st.2); simpl; [done|by rewrite decide_True].
Qed.
Lemma tidy_plan n : tidy (W := W) (plan n).
Proof. by apply tidy_print. Qed.
Lemma tidy_note s : tidy (W := W) (note s).
Proof. by apply tidy_print. Qed.
Lemma tidy_diagnostic s : tidy (W := W) (diagnostic s).
Proof. by apply tidy_print. Qed.
Lemma tidy_ok b name : tidy (W := W) (ok b name).
Proof. apply tidy_check. Qed.
Lemma tidy_set_todo r : tidy (W := W) (on_tap (set_todo r)).
Proof. intros st a st' [= _ <-]. exists []. by apply grown_refl. Qed.
#[local] Hint Resolve tidy_ret tidy_prog tidy_result tidy_check tidy_note tidy_diagnostic tidy_ok tidy_plan
  tidy_croak tidy_fault tidy_set_todo : core.

(** Runs through binds and cases down to the macros. *)
Ltac tidy_steps := repeat first [progress auto | apply tidy_bind; [|intros] | progress case_match].

Lemma tidy_is got expected name : tidy (W := W) (is_i got expected name).
Proof. unfold is_i, when. tidy_steps. Qed.
Lemma tidy_isnt got expected name : tidy (W := W) (isnt got expected name).
Proof. unfold isnt, when. tidy_steps. Qed.
Lemma tidy_is_u got expected name : tidy (W := W) (is_u got expected name).
Proof. unfold is_u, when. tidy_steps. Qed.
Lemma tidy_is_string got expected name : tidy (W := W) (is_string got expected name).
Proof. unfold is_string, when. tidy_steps. Qed.
Lemma tidy_is_blob got expected len name : tidy (W := W) (is_blob got expected len name).
Proof. unfold is_blob, when. tidy_steps. Qed.
Lemma tidy_is_string_view got expected len name : tidy (W := W) (is_string_view got expected len name).
Proof. unfold is_string_view, when. tidy_steps. Qed.
Lemma tidy_like s pattern name : tidy (W := W) (like s pattern name).
Proof. unfold like. tidy_steps. Qed.
Lemma tidy_LEAK_CHECK space block name : tidy block → tidy (W := W) (LEAK_CHECK space block name).
Proof. intros Hb. unfold LEAK_CHECK, when. tidy_steps. Qed.
Lemma tidy_ASSERT_PROTO_MATCH equal name : tidy (W := W) (ASSERT_PROTO_MATCH equal name).
Proof. unfold ASSERT_PROTO_MATCH, when. tidy_steps. Qed.
Lemma tidy_TODO reason block : tidy block → tidy (W := W) (TODO reason block).
Proof. intros Hb. unfold TODO. tidy_steps. Qed.
Lemma tidy_SKIP reason n : tidy (W := W) (SKIP reason n).
Proof.
  induction n as [|n IH]; simpl; [auto|]. apply tidy_bind; [|done].
  intros st a st' [= _ <-]. eexists. eapply (grown_check st.2); simpl; [done|by rewrite decide_True].
Qed.

(** What a subtest prints between its title and its check is deeper than its level. *)
Lemma tidy_subtest name block : tidy block → tidy (W := W) (subtest name block).
Proof.
  intros Hb. unfold subtest. apply tidy_bind; [by apply tidy_print|]. intros _.
  intros st a st' E. unfold mbind, cmd_bind, on_tap, cget, cmodify in E. simpl in E.
  destruct (block _) as [[[]| |] st1] eqn:E1; simplify_eq/=.
  destruct (Hb _ _ _ E1) as [ls [Ee Ei Ed _ _]]; simpl in *. set (t := st.2) in *.
  pose proof (numbers_deeper _ _ Ed) as Hn.
  unfold ok, check, on_tap, cmodify in E. injection E as _ <-. eexists (ls ++ [_]). split; simpl.
  - by rewrite Ee, <- app_assoc.
  - by rewrite Ei.
  - apply Forall_app. split; [eapply Forall_impl; [exact Ed|]; simpl; lia|]. rewrite Ei. by repeat constructor.
  - lia.
  - rewrite numbers_app, Hn, Ei. unfold numbers. simpl. rewrite decide_True by done.
    by replace (test_num t + 1 - test_num t) with 1 by lia.
Qed.
End Tidy.

#[export] Hint Resolve tidy_ret tidy_prog tidy_result tidy_croak tidy_fault tidy_plan tidy_note tidy_diagnostic
  tidy_ok tidy_is tidy_isnt tidy_is_u tidy_is_string tidy_is_blob tidy_is_string_view tidy_like tidy_SKIP
  tidy_LEAK_CHECK tidy_ASSERT_PROTO_MATCH tidy_TODO tidy_subtest : tap.

(** Takes a program apart down to the macros. *)
Ltac tidy_run :=
  repeat match goal with
  | |- tidy (TODO _ _) => apply tidy_TODO
  | |- tidy (subtest _ _) => apply tidy_subtest
  | |- tidy (_ ≫= _) => apply tidy_bind; [|intros]
  | |- tidy (match _ with _ => _ end) => case_match
  | |- tidy _ => solve [auto with tap nocore]
  end.

(** ** Reading a report

    As a consumer of the output does: the plan at the start, the checks at the level of
    the program, and those that failed without being announced as [TODO]. *)
Definition planned (ls : list line) : option Z :=
  match omap (λ l, match l with Plan 0 n => Some n | _ => None end) ls with n :: _ => Some n | [] => None end.
Definition run_count (ls : list line) : Z := Z.of_nat (length (numbers 0 ls)).
Definition unexpected (ls : list line) : list string :=
  omap (λ l, match l with Check _ false _ name None => Some name | _ => None end) ls.

(** A run of a program from a first state: its plan, the checks it made, the failures;
    [None] when it does not return. *)
Definition report {W A} (m : test W A) (s : W) : option (option Z * Z * list string) :=
  match m (s, tap0) with
  | (Ret _, (_, t)) => Some (planned (err t), run_count (err t), unexpected (err t))
  | _ => None
  end.

(** *** t/c/harness/skip.c *)
Definition skip_main : test unit Z :=
  plan 4;;
  SKIP "test simple skip" 1;;
  SKIP_BLOCK true 2 "test skip block"
    (ok false "should be skipped 1";; ok false "should be skipped 2");;
  SKIP_BLOCK false 1 "test no skip block" (ok true "should NOT be skipped");;
  mret 0.

Example skip_report : report skip_main tt = Some (Some 4, 4, []).
Proof. by_compute. Qed.

Example skip_output : render <$> err (skip_main (tt, tap0)).2.2 =
  ["1..4"; "ok 1 - # skip test simple skip"; "ok 2 - # skip test skip block";
   "ok 3 - # skip test skip block"; "ok 4 - should NOT be skipped"].
Proof. by_compute. Qed.

(** The reason of a [TODO] is lost after an inner one, and [is] never names it: a consumer
    counts such a failure. *)
Example todo_forgotten :
  unexpected (err (TODO "outer" (TODO "inner" (ok false "a");; ok false "b";; is_i 1 2 "c")
                    (tt, tap0)).2.2) = ["b"; "c"].
Proof. by_compute. Qed.
