(* ===== verification/RuntimeTests.v ===== *)
(** * The tests of the runtime (t/c/protobuf, t/c/descriptor_containers, t/c/unknown_fields,
    t/c/integration/150_map.c)

    Test programs of the repository, run on the definitions of [ObjCache], [Utils],
    [Containers], [MapContainer] and [UnknownFields]. *)

From S2P Require Import Prelude PerlNumbers Convert Handles HashTable Tap.
From S2P Require ObjCache CacheThreads Containers Utils MapContainer UnknownFields.

#[local] Open Scope Z_scope.

(** ** The object cache *)

(** An interpreter of these tests: its cache, and the strings its references point to,
    with the references that are held.  Addresses are chosen below; any distinct ones
    would do. *)
Record perl := { oc : ObjCache.state; pvs : gmap Z (bytes * nat) }.

(** The interpreters of the process, and the one [PERL_SET_CONTEXT] chose. *)
Record interps := { perls : gmap nat perl; current : nat }.

Definition on_perl {A} (m : cmd perl A) : cmd interps A := λ w,
  match perls w !! current w with
  | None => (Fault "no interpreter", w)
  | Some p =>
      let '(out, p') := m p in (out, {| perls := <[current w := p']> (perls w); current := current w |})
  end.

Definition PERL_SET_CONTEXT (i : nat) : cmd interps unit :=
  cmodify (λ w, {| perls := perls w; current := i |}).
(** [test_perl_init] and [test_perl_destroy].  A second [PerlUpb_ObjCache_Init], as some
    programs make, finds the cache in the registry and changes nothing. *)
Definition test_perl_init (i : nat) : cmd interps unit :=
  cmodify (λ w, {| perls := <[i := {| oc := ObjCache.ObjCache_Init 100000; pvs := ∅ |}]> (perls w); current := current w |}).
Definition test_perl_destroy (i : nat) : cmd interps unit :=
  cmodify (λ w, {| perls := delete i (perls w); current := current w |}).

Definition set_oc (f : ObjCache.state → ObjCache.state) : cmd perl unit :=
  cmodify (λ p, {| oc := f (oc p); pvs := pvs p |}).
Definition set_pvs (f : gmap Z (bytes * nat) → gmap Z (bytes * nat)) : cmd perl unit :=
  cmodify (λ p, {| oc := oc p; pvs := f (pvs p) |}).

(** [newRV_noinc(newSVpv(s, 0))]: a reference to a new string at [o]. *)
Definition newRV_pv (o : Z) (s : bytes) : cmd perl unit := set_pvs <[o := (s, 1%nat)]>.
(** [SvREFCNT_dec] of a reference: the last one takes the string with it. *)
Definition SvREFCNT_dec_rv (o : Z) : cmd perl unit :=
  p ← cget;
  match pvs p !! o with
  | Some (s, S (S n)) => set_pvs <[o := (s, S n)]>
  | Some (_, S O) => set_pvs (delete o);; set_oc (λ st, ObjCache.perl_death st o)
  | _ => cfault "reference to a freed scalar"
  end.
(** [SvPV_nolen(SvRV(rv))]. *)
Definition SvRV_pv (rv : option Z) : cmd perl bytes :=
  p ← cget;
  match rv ≫= λ o, pvs p !! o with
  | Some (s, _) => mret s
  | None => cfault "SvRV of NULL"
  end.

(** The calls of the cache; the reference [Get] answers is a new one. *)
Definition Add (ptr o : Z) : cmd perl unit := set_oc (λ st, ObjCache.ObjCache_Add st ptr (Some o)).
Definition Get (ptr : Z) : cmd perl (option Z) :=
  p ← cget;
  let '(rv, st) := ObjCache.ObjCache_Get (oc p) ptr in
  set_oc (λ _, st);;
  match rv with
  | None => mret None
  | Some o =>
      match pvs p !! o with
      | Some (s, n) => set_pvs <[o := (s, S n)]>;; mret (Some o)
      | None => cfault "weak reference to a freed scalar"
      end
  end.
Definition Delete (ptr : Z) : cmd perl unit := set_oc (λ st, ObjCache.ObjCache_Delete st ptr).
Definition dec_opt (rv : option Z) : cmd perl unit :=
  match rv with Some o => SvREFCNT_dec_rv o | None => mret tt end.

Definition non_null (rv : option Z) : bool := bool_decide (is_Some rv).

Notation T := (test interps unit).
Definition run {A} (m : cmd perl A) : test interps A := prog (on_perl m).

(** *** obj_cache.c *)

Definition cache_clear_block : T :=
  let d1 := 8192 in let d2 := 8208 in
  run (newRV_pv 101 (str "v1"));; run (newRV_pv 102 (str "v2"));;
  run (Add d1 101);; run (Add d2 102);;
  g1 ← run (Get d1); ok (non_null g1) "d1 cached";;
  g2 ← run (Get d2); ok (non_null g2) "d2 cached";;
  run (set_oc (ObjCache.ObjCache_Clear false));;
  g1 ← run (Get d1); ok (negb (non_null g1)) "d1 cleared";;
  g2 ← run (Get d2); ok (negb (non_null g2)) "d2 cleared";;
  run (SvREFCNT_dec_rv 101);; run (SvREFCNT_dec_rv 102).

Definition isolation_block : T :=
  let dummy := 12288 in
  g ← run (Get dummy); ok (negb (non_null g)) "Initial cache NULL for dummy in perl1";;
  prog (test_perl_init 2);;
  prog (PERL_SET_CONTEXT 2);;
  run (newRV_pv 201 (str "isolated"));;
  run (Add dummy 201);;
  got ← run (Get dummy);
  ok (non_null got) "Got value from perl2 cache";;
  s ← run (SvRV_pv got); is_string s (str "isolated") "Value matches in perl2";;
  run (dec_opt got);; run (SvREFCNT_dec_rv 201);;
  prog (test_perl_destroy 2);;
  prog (PERL_SET_CONTEXT 1);;
  g ← run (Get dummy); ok (negb (non_null g)) "Cache still NULL for dummy in perl1 after perl2 destroyed".

(** [test_cache]. *)
Definition test_cache : T :=
  let ptr1 := 4096 in let ptr2 := 4112 in
  plan 13;;
  ok true "Cache initialized";;
  run (newRV_pv 1 (str "value1"));; run (newRV_pv 2 (str "value2"));;
  run (Add ptr1 1);;
  rv ← run (Get ptr1);
  ok (non_null rv) "Get OK for ptr1";;
  s ← run (SvRV_pv rv); is_string s (str "value1") "Retrieved value matches for ptr1";;
  run (dec_opt rv);;
  rv ← run (Get ptr2);
  ok (negb (non_null rv)) "Get non-existent ptr2 returns NULL";;
  run (SvREFCNT_dec_rv 1);;
  rv ← run (Get ptr1);
  ok (negb (non_null rv)) "Get ptr1 after weak ref destroyed returns NULL";;
  run (newRV_pv 3 (str "new_value1"));;
  run (Add ptr1 3);;
  rv ← run (Get ptr1);
  ok (non_null rv) "Get ptr1 after re-add OK";;
  s ← run (SvRV_pv rv); is_string s (str "new_value1") "Re-added value matches for ptr1";;
  run (dec_opt rv);; run (SvREFCNT_dec_rv 3);;
  run (Add ptr2 2);;
  rv3 ← run (Get ptr2);
  ok (non_null rv3) "Get second item ptr2 OK";;
  s ← run (SvRV_pv rv3); is_string s (str "value2") "Second item value matches for ptr2";;
  run (dec_opt rv3);;
  run (Delete ptr1);;
  rv ← run (Get ptr1);
  ok (negb (non_null rv)) "Get ptr1 after delete returns NULL";;
  rv3 ← run (Get ptr2);
  ok (non_null rv3) "Get ptr2 still OK after ptr1 delete";;
  s ← run (SvRV_pv rv3); is_string s (str "value2") "Ptr2 value still correct";;
  run (dec_opt rv3);;
  run (SvREFCNT_dec_rv 2);;
  run (Delete ptr2);;
  rv ← run (Get ptr2);
  ok (negb (non_null rv)) "Get ptr2 after delete returns NULL";;
  subtest "PerlUpb_ObjCache_Clear" cache_clear_block;;
  subtest "Interpreter Isolation" isolation_block.

Definition obj_cache_main : test interps Z :=
  prog (test_perl_init 1);; prog (PERL_SET_CONTEXT 1);;
  test_cache;;
  prog (test_perl_destroy 1);;
  mret 0.

Definition no_interps : interps := {| perls := ∅; current := 0 |}.

(** No check fails; 15 are made where 13 are planned. *)
Example obj_cache_report : report obj_cache_main no_interps = Some (Some 13, 15, []).
Proof. by_compute. Qed.

(** *** obj_cache_lru.c *)

Fixpoint dec_all (os : list Z) : cmd perl unit :=
  match os with [] => mret tt | o :: os => SvREFCNT_dec_rv o;; dec_all os end.

Definition obj_cache_lru_main : test interps Z :=
  prog (test_perl_init 1);; prog (PERL_SET_CONTEXT 1);;
  let objs (i : Z) := 4096 + 4 * i in
  plan 6;;
  ok true "Cache initialized";;
  run (set_oc (λ st, ObjCache.ObjCache_SetCapacity st 3));;
  capacity ← run (p ← cget; mret (ObjCache.ObjCache_GetCapacity (oc p)));
  is_i capacity 3 "Capacity set to 3";;
  run (newRV_pv 10 (str "0"));; run (newRV_pv 11 (str "1"));; run (newRV_pv 12 (str "2"));;
  run (newRV_pv 13 (str "3"));; run (newRV_pv 14 (str "4"));;
  run (Add (objs 0) 10);; run (Add (objs 1) 11);; run (Add (objs 2) 12);;
  got ← run (Get (objs 0));
  ok (non_null got) "Item 0 still in cache";;
  run (dec_opt got);;
  run (Add (objs 3) 13);;
  got ← run (Get (objs 0));
  ok (negb (non_null got)) "Item 0 evicted from cache";;
  got ← run (Get (objs 1));
  ok (non_null got) "Item 1 still in cache";;
  run (dec_opt got);;
  run (Add (objs 4) 14);;
  got ← run (Get (objs 1));
  ok (negb (non_null got)) "Item 1 evicted from cache";;
  run (dec_all [10; 11; 12; 13; 14]);;
  run (set_oc (ObjCache.ObjCache_Clear false));;
  prog (test_perl_destroy 1);;
  mret 0.

Example obj_cache_lru_report : report obj_cache_lru_main no_interps = Some (Some 6, 6, []).
Proof. by_compute. Qed.

(** *** obj_cache_threads.c

    Each thread has an interpreter of its own; the ring, the statistics and the mutexes of
    the cache are those of the process ([CacheThreads]). *)
Definition NUM_THREADS : nat := 10.
Definition NUM_OPS_PER_THREAD : nat := 1000.

(** One turn of the loop in [thread_stress_func]: [rv i] is where the allocator puts the
    string of turn [i]; dropping the reference lets it die. *)
Definition stress_turn (shared_objects : Z) (rv : nat → Z) (i : nat) : list CacheThreads.call :=
  let ptr := shared_objects + 4 * Z.of_nat (i mod 100) in
  [CacheThreads.CAdd ptr (Some (rv i)); CacheThreads.CGet ptr] ++
  (if (i mod 10 =? 0)%nat then [CacheThreads.CDelete ptr] else []) ++
  [CacheThreads.CDeath (rv i)].
(** [thread_stress_func]: [test_perl_init] initialises the cache, and so does the thread. *)
Definition thread_stress_func (shared_objects : Z) (rv : nat → Z) : list CacheThreads.call :=
  [CacheThreads.CInit; CacheThreads.CInit] ++
  flat_map (stress_turn shared_objects rv) (seq 0 NUM_OPS_PER_THREAD).

(** The threads of [main]; its own interpreter has initialised the cache before. *)
Definition stress_threads (shared_objects : Z) (rv : nat → nat → Z) : list (Z * list CacheThreads.call) :=
  map (λ id, (100000, thread_stress_func shared_objects (rv id))) (seq 0 NUM_THREADS).

Lemma stress_turn_keeps shared_objects rv l :
  forallb (negb ∘ CacheThreads.clears) (flat_map (stress_turn shared_objects rv) l) = true.
Proof.
  induction l as [|i l IH]; [done|]. cbn [flat_map]. rewrite forallb_app, IH, andb_true_r.
  unfold stress_turn. by destruct (i mod 10 =? 0)%nat.
Qed.

Lemma stress_threads_keep shared_objects rv :
  Forall (λ c, forallb (negb ∘ CacheThreads.clears) c.2) (stress_threads shared_objects rv).
Proof.
  apply Forall_fmap, Forall_true. intros id. unfold thread_stress_func, compose. cbn [snd].
  apply Is_true_true. rewrite forallb_app, stress_turn_keeps. done.
Qed.

(** Wherever the objects are, the stress test ends: in every order of the accesses of the
    ten threads, after a bounded number of them all have finished, and before that one can
    go on; and no mutex is used in a way that is undefined. *)
Theorem stress_test_ends shared_objects rv : ∃ n, ∀ k p,
  relations.nsteps CacheThreads.pstep k (CacheThreads.boot CacheThreads.loaded (stress_threads shared_objects rv)) p →
  (k ≤ n)%nat ∧ (CacheThreads.all_done p ∨ ∃ p', CacheThreads.pstep p p') ∧
  CacheThreads.undefined (CacheThreads.sh p) = false.
Proof.
  eexists. intros k p Hp. split; [|split].
  1, 2: eapply CacheThreads.calls_progress; [apply stress_threads_keep|exact Hp].
  destruct (CacheThreads.recorded_reachable (stress_threads shared_objects rv) p) as [h [_ [_ Hud] _ _ _]]; [|done].
  by eapply relations.rtc_nsteps_2.
Qed.

(** A thread alone: its 1000 look-ups all find the string just added, and it leaves the
    ring full of its last events and 90 keys whose strings died in its cache. *)
Example stress_thread_alone :
  let st0 := ObjCache.ObjCache_Init 100000 in
  let calls := thread_stress_func 4096 (λ i, 1000000 + 16 * Z.of_nat i) in
  let st := CacheThreads.run_calls st0 calls in
  (CacheThreads.alone CacheThreads.call_gets st0 calls,
   (length (ObjCache.GetAuditLog (ObjCache.log st)), size (ObjCache.cache st), length (ObjCache.lru st)))
  = (map (λ i, Some (1000000 + 16 * Z.of_nat i)) (seq 0 1000), (2048%nat, 90%nat, 1000%nat)).
Proof. vm_compute. reflexivity. Qed.

(** ** utils.c *)

Definition opt_is_null (s : option bytes) : Z := match s with None => 0 | Some _ => 1 end.

Definition test_get_str_data : test unit unit :=
  str1 ← result (match Utils.GetStrData (Some (PV (str "hello") false)) with
                 | Some s => Ret s | None => Fault "strcmp of NULL" end);
  is_string str1 (str "hello") "PerlUpb_GetStrData returns correct string";;
  is_i (opt_is_null (Utils.GetStrData (Some (IV 123)))) 0 "PerlUpb_GetStrData returns NULL for non-string SV";;
  is_i (opt_is_null (Utils.GetStrData (Some Undef))) 0 "PerlUpb_GetStrData returns NULL for undef SV";;
  is_i (opt_is_null (Utils.GetStrData None)) 0 "PerlUpb_GetStrData returns NULL for NULL SV".

Definition test_verify_str_data : test unit unit :=
  str1 ← result (Utils.VerifyStrData (Some (PV (str "world") false)));
  is_string str1 (str "world") "PerlUpb_VerifyStrData returns correct string";;
  TODO "Implement croak verification for PerlUpb_VerifyStrData"
    (ok false "PerlUpb_VerifyStrData croaks on invalid input").

Definition test_class_name_to_full_name : test unit unit :=
  TODO "Implement PerlUpb_ClassNameToFullName tests"
    (ok false "PerlUpb_ClassNameToFullName converts A::B to A.B").

(** [eval]: the interpreter's run of the code of [TEST_PERL_CALL]. *)
Definition test_utils_reentrancy (eval : string → cmd unit (option bytes)) : test unit unit :=
  TODO "Implement re-entrancy tests for utils" (ok false "utils operations are safe under re-entrancy");;
  TODO "Research and implement SIMD (SSE4.1/AVX2) optimized name conversion and string validation"
    (ok false "Utilities leverage hardware acceleration for path resolution");;
  TODO "Enhance croak verification with field-path context for better debugging"
    (ok false "Error messages provide exact location of validation failures");;
  subtest "PerlUpb_Error_Die" (TEST_PERL_CALL (eval "1 + 1") "Perl interpreter is healthy").

Definition utils_main (eval : string → cmd unit (option bytes)) : test unit Z :=
  plan 11;;
  test_get_str_data;;
  test_verify_str_data;;
  test_class_name_to_full_name;;
  test_utils_reentrancy eval;;
  mret 0.

Example utils_report : report (utils_main (λ _, mret None)) tt = Some (Some 11, 11, []).
Proof. by_compute. Qed.

(** Whatever the interpreter answers, the checks are numbered without a gap. *)
Lemma utils_main_tidy eval : tidy (utils_main eval).
Proof.
  unfold utils_main, test_get_str_data, test_verify_str_data, test_class_name_to_full_name,
    test_utils_reentrancy, TEST_PERL_CALL.
  tidy_run.
Qed.

(** ** Descriptor containers *)

Section Mock.
(** The mock items have a value, which the mock wrapper makes an integer. *)
Definition mock_wrap (item : Z) : sv := IV item.
Notation heap := (Containers.heap (I := Z)).
Notation TC := (test heap unit).

(** [sv_derived_from] of a container: the class its constructor blesses it into. *)
Definition container_class (b : Containers.block (I := Z)) : string :=
  match b with
  | Containers.ByName _ _ _ => "Protobuf::Internals::DescriptorByNameMap"
  | Containers.ByNumber _ _ _ => "Protobuf::Internals::DescriptorByNumberMap"
  | Containers.Sequence _ _ _ => "Protobuf::Internals::DescriptorSequence"
  | Containers.MapIterator _ _ => "Protobuf::Internals::DescriptorMapIterator"
  end.
Definition sv_derived_from (obj : nat) (class : string) : cmd heap bool :=
  b ← Containers.deref obj;
  mret (match b with Some b => bool_decide (container_class b = class) | None => false end).

(** The scalars: the parent, and the objects; and what [malloc] answers.  The parent is NULL,
    which the mock functions do not look at. *)
Definition parent_sv : nat := 1.
Definition map_sv : nat := 2.
Definition iter_sv : nat := 3.
Definition mock_heap : heap :=
  {| Containers.blocks := ∅; Containers.ivs := ∅;
     Containers.refs := {[parent_sv := 1; map_sv := 1; iter_sv := 1]};
     Containers.live := {[0%nat]} |}.
Definition dec (s : nat) : cmd heap unit := cmodify (Containers.SvREFCNT_dec s).

Definition nth_item {A} (l : list A) (i : Z) : option A := if i <? 0 then None else l !! Z.to_nat i.

(** *** by_name_map.c *)
Definition name_items : list (bytes * Z) := [(str "foo", 10); (str "bar", 20); (str "baz", 30)].
Definition name_vtable (items : list (bytes * Z)) (lookup : bytes → option Z) :
  Containers.map_vtable bytes (option bytes) Z :=
  {| Containers.vt_count := Z.of_nat (length items); Containers.vt_lookup := lookup;
     Containers.vt_key i := Ret (fst <$> nth_item items i); Containers.vt_value i := Ret (snd <$> nth_item items i) |}.
Definition mock_lookup (items : list (bytes * Z)) (name : bytes) : option Z := assoc name items.

Definition hash_entry `{PerlNum} (hv : gmap bytes sv) (key : string) (expected : Z) : TC :=
  let found := hv !! str key in
  ok (bool_decide (is_Some found)) ("Found '" +:+ key +:+ "' in hash");;
  match found with
  | Some v => is_i (SvIV v) expected ("Value for '" +:+ key +:+ "' is " +:+ pretty.pretty expected)
  | None => mret tt
  end.
Definition test_as_hash `{PerlNum} (map : nat) : TC :=
  hash_rv ← prog (Containers.ByNameMap_AsHash mock_wrap map);
  ok (bool_decide (is_Some hash_rv)) "AsHash returns a hash reference";;
  match hash_rv with
  | None => cfault "SvRV of undef"
  | Some hv =>
      is_i (Z.of_nat (size hv)) 3 "Projected hash has 3 keys";;
      hash_entry hv "foo" 10;;
      hash_entry hv "bar" 20
  end.

Definition by_name_map_main `{PerlNum} : test heap Z :=
  plan 18;;
  prog (Containers.ByNameMap_New parent_sv 0 (name_vtable name_items (mock_lookup name_items)) 100 map_sv);;
  ok true "Created ByNameMap";;
  blessed ← prog (sv_derived_from map_sv "Protobuf::Internals::DescriptorByNameMap");
  ok blessed "Blessed correctly";;
  count ← prog (Containers.ByNameMap_Count map_sv);
  is_i count 3 "Count is 3";;
  foo_val ← prog (Containers.ByNameMap_Lookup mock_wrap map_sv (str "foo"));
  ok (SvIOK foo_val) "Lookup returns IOK";;
  is_i (SvIV foo_val) 10 "Value for 'foo' is 10";;
  key1 ← prog (Containers.ByNameMap_Key map_sv 1);
  is_string (match key1 with PV s _ => s | _ => [] end) (str "bar") "Key at index 1 is 'bar'";;
  val1 ← prog (Containers.ByNameMap_Value mock_wrap map_sv 1);
  is_i (SvIV val1) 20 "Value at index 1 is 20";;
  test_as_hash map_sv;;
  TODO "Verify concurrent iterator stability for ByNameMap"
    (ok false "Iterators remain valid during interleaved read-only access in coroutines");;
  TODO "Implement Lazy Wrapper Blessing with Thread-Local Cache to reuse descriptor wrappers"
    (ok false "Repeated access to the same container element returns the same cached SV wrapper");;
  TODO "Implement Vectorized Batch-Lookup API for bulk descriptor retrieval"
    (ok false "Multiple descriptors retrieved in a single call to minimize XS transition overhead");;
  prog (Containers.ByNameMap_Free map_sv);;
  prog (dec map_sv);; prog (dec parent_sv);;
  mret 0.

(** *** by_number_map.c *)
Definition number_items : list (Z * Z) := [(1, 100); (2, 200); (3, 300)].
Definition number_vtable : Containers.map_vtable Z Z Z :=
  {| Containers.vt_count := 3;
     Containers.vt_lookup num := snd <$> (list_find (λ it : Z * Z, it.1 = num) number_items ≫= λ r, Some r.2);
     Containers.vt_key i := Ret (default 0 (fst <$> nth_item number_items i));
     Containers.vt_value i := Ret (snd <$> nth_item number_items i) |}.

Definition by_number_map_main `{PerlNum} : test heap Z :=
  plan 8;;
  prog (Containers.ByNumberMap_New parent_sv 0 number_vtable 100 map_sv);;
  ok true "Created ByNumberMap";;
  blessed ← prog (sv_derived_from map_sv "Protobuf::Internals::DescriptorByNumberMap");
  ok blessed "Blessed correctly";;
  count ← prog (Containers.ByNumberMap_Count map_sv);
  is_i count 3 "Count is 3";;
  val1_lookup ← prog (Containers.ByNumberMap_Lookup mock_wrap map_sv 1);
  ok (SvIOK val1_lookup) "Lookup returns IOK";;
  is_i (SvIV val1_lookup) 100 "Value for number 1 is 100";;
  key2 ← prog (Containers.ByNumberMap_Key map_sv 2);
  is_i (SvUV key2) 3 "Key at index 2 is 3";;
  val2 ← prog (Containers.ByNumberMap_Value mock_wrap map_sv 2);
  is_i (SvIV val2) 300 "Value at index 2 is 300";;
  TODO "Implement O(1) reverse lookup for ByNumberMap"
    (ok false "Value-to-Key lookups optimized via internal reverse-index");;
  prog (Containers.ByNumberMap_Free map_sv);;
  prog (dec map_sv);; prog (dec parent_sv);;
  mret 0.

(** *** generic_sequence.c *)
Definition mock_items : list Z := [100; 200; 300].
Definition seq_mock_vtable : Containers.seq_vtable Z :=
  {| Containers.sq_count := 3; Containers.sq_get i := Ret (nth_item mock_items i) |}.

Definition generic_sequence_main `{PerlNum} : test heap Z :=
  plan 5;;
  prog (Containers.GenericSequence_New parent_sv 0 seq_mock_vtable 100 map_sv);;
  ok true "Created GenericSequence";;
  blessed ← prog (sv_derived_from map_sv "Protobuf::Internals::DescriptorSequence");
  ok blessed "Blessed correctly";;
  count ← prog (Containers.GenericSequence_Count map_sv);
  is_i count 3 "Count is 3";;
  val1 ← prog (Containers.GenericSequence_GetItem mock_wrap map_sv 1);
  ok (SvIOK val1) "GetItem returns IOK";;
  is_i (SvIV val1) 200 "Value at index 1 is 200";;
  prog (Containers.GenericSequence_Free map_sv);;
  prog (dec map_sv);; prog (dec parent_sv);;
  mret 0.

(** *** iterators.c *)
Definition two_items : list (bytes * Z) := [(str "foo", 10); (str "bar", 20)].

Definition iterators_main `{PerlNum} : test heap Z :=
  plan 8;;
  prog (Containers.ByNameMap_New parent_sv 0 (name_vtable two_items (λ _, None)) 100 map_sv);;
  prog (Containers.DescriptorMapIterator_New map_sv 101 iter_sv);;
  ok true "Created MapIterator";;
  blessed ← prog (sv_derived_from iter_sv "Protobuf::Internals::DescriptorMapIterator");
  ok blessed "Blessed correctly";;
  key1 ← prog (Containers.DescriptorMapIterator_NextKey iter_sv);
  is_string (match key1 with PV s _ => s | _ => [] end) (str "foo") "NextKey 1 is 'foo'";;
  val1 ← prog (Containers.DescriptorMapIterator_NextValue mock_wrap iter_sv);
  is_i (SvIV val1) 10 "NextValue 1 is 10";;
  key2 ← prog (Containers.DescriptorMapIterator_NextKey iter_sv);
  is_string (match key2 with PV s _ => s | _ => [] end) (str "bar") "NextKey 2 is 'bar'";;
  val2 ← prog (Containers.DescriptorMapIterator_NextValue mock_wrap iter_sv);
  is_i (SvIV val2) 20 "NextValue 2 is 20";;
  key3 ← prog (Containers.DescriptorMapIterator_NextKey iter_sv);
  ok (match key3 with Undef => true | _ => false end) "NextKey 3 is undef";;
  prog (Containers.DescriptorMapIterator_Free iter_sv);;
  prog (dec iter_sv);;
  prog (Containers.ByNameMap_Free map_sv);;
  prog (dec map_sv);; prog (dec parent_sv);;
  mret 0.
End Mock.

(** No check fails; [by_name_map.c] and [iterators.c] plan two and one too many. *)
Example containers_reports :
  (report (@by_name_map_main digit_num) mock_heap, report (@by_number_map_main digit_num) mock_heap,
   report (@generic_sequence_main digit_num) mock_heap, report (@iterators_main digit_num) mock_heap) =
  (Some (Some 18, 16, []), Some (Some 8, 8, []), Some (Some 5, 5, []), Some (Some 8, 7, [])).
Proof. vm_compute. reflexivity. Qed.

(** The programs give back all they hold: no block is left and every count is zero. *)
Example iterators_clean :
  let h := (@iterators_main digit_num (mock_heap, tap0)).2.1 in
  (Containers.blocks h, Containers.refs h !! parent_sv, Containers.refs h !! map_sv, Containers.refs h !! iter_sv)
  = (∅, Some 0, Some 0, Some 0).
Proof. vm_compute. reflexivity. Qed.

(** ** integration/150_map.c

    The maps of the message: a [map<int32, int32>] over an integer table, a
    [map<string, string>] over a table of strings, with upb's hash of strings [strhash]. *)
#[local] Existing Instance MapContainer.inttable.

Section MapTest.
Context `{PerlNum} (strhash : bytes → Z).

(** The two maps, and the iterator over the first. *)
Record map_message := {
  map_ii : MapContainer.upb_inttable value;
  map_ss : upb_table bytes value;
  iter : option (MapContainer.map_iter (K := Z));
}.
Notation TM := (test map_message).

Definition on_ii {A} (m : cmd (MapContainer.upb_inttable value) A) : TM A := prog (λ w,
  let '(out, t) := m (map_ii w) in (out, {| map_ii := t; map_ss := map_ss w; iter := iter w |})).
Definition on_ss {A} (m : cmd (upb_table bytes value) A) : TM A := prog (λ w,
  let '(out, t) := m (map_ss w) in (out, {| map_ii := map_ii w; map_ss := t; iter := iter w |})).
Definition on_iter {A} (m : cmd (MapContainer.upb_inttable value * option (MapContainer.map_iter (K := Z))) A) : TM A :=
  prog (λ w, let '(out, (t, it)) := m (map_ii w, iter w) in
             (out, {| map_ii := t; map_ss := map_ss w; iter := it |})).

(** The entry types, from [test_messages_proto2.proto]; the arena has room. *)
Definition no_schema : nat → list FieldDef := λ _, [].
Definition room : Z → bool := λ _, true.
Definition ii_key : FieldDef := field0 "key" 1 TInt32.
Definition ii_value : FieldDef := field0 "value" 2 TInt32.
Definition ss_key : FieldDef := field0 "key" 1 TString.
Definition ss_value : FieldDef := field0 "value" 2 TString.

Definition ii_set (k v : sv) : TM unit := on_ii
  (MapContainer.Map_SetItem no_schema room ii_key ii_value MapContainer.tointkey live k v MapContainer.enough).
Definition ii_get (k : sv) : TM sv := on_ii
  (MapContainer.Map_GetItem no_schema room ii_key ii_value MapContainer.tointkey live k).
Definition ss_set (k v : sv) : TM unit := on_ss
  (MapContainer.Map_SetItem (Table0 := MapContainer.strtable strhash) no_schema room ss_key ss_value
     MapContainer.tostrkey live k v MapContainer.enough).
Definition ss_get (k : sv) : TM sv := on_ss
  (MapContainer.Map_GetItem (Table0 := MapContainer.strtable strhash) no_schema room ss_key ss_value
     MapContainer.tostrkey live k).

Definition test_map_as_hash : TM unit :=
  hash_rv ← on_ii (MapContainer.Map_AsHash ii_key ii_value (MapContainer.fromintkey TInt32) live);
  match hash_rv with
  | HashRef hv =>
      ok true "AsHash returns hash ref";;
      is_i (Z.of_nat (length hv)) 1 "Projected map hash has 1 key";;
      let val := assoc (str "10") ((λ e : bytes * bool * sv, (e.1.1, e.2)) <$> hv) in
      ok (bool_decide (is_Some val)) "Found key '10' in projected hash";;
      match val with Some v => is_i (SvIV v) 42 "Value for key '10' is 42" | None => mret tt end
  | _ => ok false "AsHash returns hash ref";; cfault "SvRV of what is no reference"
  end.

(** [main]; [loaded]: whether the descriptors could be loaded. *)
Definition map_main (loaded : bool) : TM Z :=
  plan 17;;
  if negb loaded then fail "Failed to load test descriptors";; mret 1
  else
    ok true "Descriptors loaded";;
    ok true "Found map_int32_int32";;
    ii_set (IV 10) (IV 42);;
    ret_ii ← ii_get (IV 10);
    is_i (SvIV ret_ii) 42 "int32->int32 map roundtrip";;
    ok true "Found map_string_string";;
    ss_set (PV (str "key2") false) (PV (str "value2") false);;
    ret_ss ← ss_get (PV (str "key2") false);
    is_string (match ret_ss with PV s _ => s | _ => [] end) (str "value2") "string->string map roundtrip";;
    on_iter (cmodify (λ ti, (ti.1, Some MapContainer.GetIterator)));;
    k ← on_iter (MapContainer.Iterator_NextKey ii_key (MapContainer.fromintkey TInt32) true);
    is_i (SvIV k) 10 "Iterator key matches";;
    v ← on_iter (MapContainer.Iterator_Value ii_value);
    is_i (SvIV v) 42 "Iterator value matches";;
    test_map_as_hash;;
    TODO "Implement Sub-message map value roundtrip with ObjCache identity"
      (ok false "Sub-messages retrieved from maps are correctly cached and identical");;
    TODO "Verify integrated map stability during concurrent field deletion"
      (ok false "Iterators and getters remain safe while map entries are removed");;
    TODO "Implement Lazy Map Entry Inflation for deferred wrapper creation"
      (ok false "Perl wrappers for map elements only created on-demand");;
    TODO "Implement Cross-Arena Map Copy Stress verification"
      (ok false "Deep-copy logic for maps between different arenas verified");;
    TODO "Implement SIMD-Accelerated Map Key Validation (SSE4.2)"
      (ok false "Bulk validation of map keys achieves line-rate throughput");;
    mret 0.

Definition empty_map_message : map_message :=
  {| map_ii := MapContainer.empty_ints; map_ss := {| entries := replicate 8 None; count := 0; mask := 7 |};
     iter := None |}.
End MapTest.

(** No check fails (with the sum of the codes as the hash); 16 are made where 17 are
    planned. *)
Example map_report : report (@map_main digit_num (foldr Z.add 0) true) empty_map_message = Some (Some 17, 16, []).
Proof. by_compute. Qed.

(** ** unknown_fields/set.c *)

Definition on_heap {A} (m : UnknownFields.uheap → outcome (A * UnknownFields.uheap)) : test UnknownFields.uheap A :=
  prog (λ h, match m h with Ret (a, h') => (Ret a, h') | Croak e => (Croak e, h) | Fault e => (Fault e, h) end).

(** The message is at [msg]; [p]: the address [malloc] answers for the set. *)
Definition test_set_creation (loaded : bool) (msg p : Z) : test UnknownFields.uheap unit :=
  if negb loaded then fail "Failed to load descriptors"
  else
    set_sv ← on_heap (λ h, let '(h, s) := UnknownFields.UnknownFieldSet_New (UnknownFields.with_msg h msg []) p msg in
                           Ret (s, h));
    ok true "PerlUpb_UnknownFieldSet_New returns non-NULL";;
    ok (UnknownFields.set_isa set_sv) "Blessed correctly";;
    data ← on_heap (λ h, d ← UnknownFields.UnknownFieldSet_GetData h set_sv; Ret (d, h));
    is_string (default [] data) [] "Initial unknown data is empty";;
    on_heap (λ h, '(h, _) ← UnknownFields.UnknownFieldSet_Free false h set_sv; Ret (tt, h)).

Definition unknown_set_main (loaded : bool) : test UnknownFields.uheap Z :=
  plan 8;;
  test_set_creation loaded 4096 8192;;
  ok true "UnknownField functions cover creation and access";;
  TODO "Implement Direct Unknown-to-Message conversion"
    (ok false "Parsing unknown blobs into specific MessageDefs verified");;
  TODO "Implement Lazy Unknown Field Parsing for deferred structure reification"
    (ok false "Unknown field set reified only when accessed, minimizing parse overhead");;
  TODO "Implement O(1) Unknown Field Number Index for ultra-fast tag lookups"
    (ok false "Integrated hash-table for unknown fields achieves O(1) retrieval");;
  TODO "Implement Self-Healing Unknown Blob Consistency via CRC32 auditing"
    (ok false "Internal auditor verifies raw unknown field buffer integrity");;
  mret 0.

Example unknown_set_report :
  report (unknown_set_main true) {| UnknownFields.msgs := ∅; UnknownFields.sets := ∅ |} = Some (Some 8, 8, []).
Proof. by_compute. Qed.
