(* ===== verification/ObjectTests.v ===== *)
(** * The tests of Perl objects (t/c/integration/)

    [110_descriptor_pool.c], [130_extension_dict.c] and the test of the object cache in
    [050_convert.c], run on [DescriptorPool], [ExtensionDict] and [Messages]: objects with
    their reference counts over the cache. *)

From S2P Require Import Prelude PerlNumbers Convert Accessors Wrappers Messages MessageOps Tap.
From S2P Require ObjCache Descriptors DescriptorPool ExtensionDict ConvertTests.

#[local] Open Scope Z_scope.

(** [SvRV] of a reference, 0 for what is none; [sv_derived_from] without inheritance; and
    [SvREFCNT_dec] of a reference, which the programs own alone. *)
Definition referent (sv : psv) : Z := match sv with PRef o => o | _ => 0 end.
Definition has_class (class : string) (sv : psv) : call bool :=
  match sv with
  | PRef o => ob ← SvRV o; mret (bool_decide (stash ob = Some class))
  | _ => mret false
  end.
Definition dec_ref (sv : psv) : call unit :=
  match sv with
  | PRef o => cmodify (λ w, REFCNT_dec (S (size (objects w))) o w)
  | _ => mret tt
  end.
Definition same_class (c d : string) : bool := bool_decide (c = d).

(** ** 110_descriptor_pool.c *)

Section PoolTest.
(** What the program uses of upb: the decoder of files, a file's symbols, and the full
    name of a message. *)
Context {P : Type}.
Context (parse_file : bytes → option P) (proto_name : P → bytes).
Context (create : DescriptorPool.upb_DefPool → P → list (bytes * DescriptorPool.deftype * Z) * option bytes).
Context (FileDef_Name : Z → bytes) (message_set_extension : Z → Z).
Notation TP := (test DescriptorPool.pworld).

Definition on_objects {A} (m : call A) : TP A := prog (DescriptorPool.on_perl m).
Definition find_message (pool_sv : psv) (name : bytes) : TP psv :=
  prog (DescriptorPool.DescriptorPool_FindMessageByName message_set_extension (Some pool_sv) name).

(** [upb_MessageDef_File], [upb_MessageDef_FullName] and [upb_FileDef_Pool], read off the
    symbol tables. *)
Definition symbol_of (s : DescriptorPool.upb_DefPool) (msg : Z) : option (bytes * DescriptorPool.def) :=
  head (List.filter (λ kd : bytes * DescriptorPool.def,
    match DescriptorPool.def_type kd.2 with DescriptorPool.MSG => DescriptorPool.def_ptr kd.2 =? msg | _ => false end)
    (map_to_list (DescriptorPool.syms s))).
Definition pool_with_file (pools : gmap Z DescriptorPool.upb_DefPool) (file : Z) : Z :=
  default 0 (fst <$> head (List.filter (λ ps : Z * DescriptorPool.upb_DefPool,
    existsb (λ nf : bytes * Z, nf.2 =? file) (map_to_list (DescriptorPool.files ps.2)))
    (map_to_list pools))).

(** name = "test.proto", message_type = { name = "Test" }. *)
Definition test_proto_with_msg : bytes :=
  [0x0a; 0x0a] ++ str "test.proto" ++ [0x22; 0x06; 0x0a; 0x04] ++ str "Test".

Definition message_tests (pool_sv file_sv msg_sv : psv) : TP unit :=
  again ← find_message pool_sv (str "Test");
  is_i (referent again) (referent msg_sv) "Object cache returns same MessageDescriptor";;
  on_objects (dec_ref again);;
  msg_raw ← on_objects (Descriptors.MessageDef_GetMessage same_class (Some msg_sv));
  pool_raw ← prog (DescriptorPool.DescriptorPool_GetPool (Some pool_sv));
  s ← prog (DescriptorPool.pool_at pool_raw);
  match symbol_of s msg_raw with
  | None => cfault "file of a freed definition"
  | Some (full_name, d) =>
      let file_raw := DescriptorPool.def_file d in
      file_sv_from_msg ← prog (DescriptorPool.FileDef_GetWrapper file_raw);
      is_i (referent file_sv_from_msg) (referent file_sv) "File from message matches added file";;
      on_objects (dec_ref file_sv_from_msg);;
      w ← prog cget;
      is_i (pool_with_file (DescriptorPool.pools w) file_raw) pool_raw "Raw pool matches";;
      ok true "Map identity skipped (transient)";;
      null_sv ← find_message pool_sv (str "NoSuchMessage");
      ok (match null_sv with PUndef => true | _ => false end) "NoSuchMessage returns undef";;
      is_string full_name (str "Test") "Message full name correct";;
      TODO "Implement Thread-Safe Global Pool sharing across interpreters"
        (ok false "Read-only global pool accessible from multiple PerlInterpreter instances");;
      TODO "Implement Descriptor Set Lazy Loading for memory efficiency"
        (ok false "Large descriptor sets are only partially parsed on addition");;
      TODO "Implement detailed Cross-Pool Conflict Resolution reporting"
        (ok false "Conflict errors provide precise file/line/type information for resolution");;
      TODO "Implement Cross-Pool Definition Migration safety verification"
        (ok false "Message trees remain valid when moved between interpreters with compatible pools");;
      TODO "Implement Schema Evolution Safety Guard for incompatible updates"
        (ok false "System correctly identifies and reports binary-incompatible schema changes");;
      TODO "Implement Global Schema Versioning for consistent object re-parsing"
        (ok false "Descriptors and reified objects track their originating schema version");;
      on_objects (dec_ref msg_sv)
  end.

Definition descriptor_pool_main : TP Z :=
  plan 15;;
  pool_sv ← prog (DescriptorPool.DescriptorPool_New true);
  ok true "Created new pool";;
  file_sv ← prog (DescriptorPool.AddSerializedFile parse_file proto_name create FileDef_Name
                    (Some pool_sv) (Some test_proto_with_msg));
  is_file ← on_objects (has_class "Protobuf::Descriptor::File" file_sv);
  ok is_file "Added serialized file";;
  msg_sv ← find_message pool_sv (str "Test");
  is_message ← on_objects (has_class "Protobuf::Descriptor::MessageDef" msg_sv);
  ok is_message "Found message 'Test'";;
  message_tests pool_sv file_sv msg_sv;;
  on_objects (dec_ref file_sv);;
  prog (DescriptorPool.DescriptorPool_Free (Some pool_sv));;
  on_objects (dec_ref pool_sv);;
  mret 0.
End PoolTest.

(** A decoder for files with short fields: the name (field 1) and the names of messages
    (field 4, of which only the name). *)
Fixpoint short_fields (fuel : nat) (data : bytes) : option (list (Z * bytes)) :=
  match fuel, data with
  | _, [] => Some []
  | S fuel, tag :: len :: data =>
      if (Z.land tag 7 =? 2) && (Z.to_nat len <=? length data)%nat
      then cons (Z.shiftr tag 3, take (Z.to_nat len) data) <$> short_fields fuel (drop (Z.to_nat len) data)
      else None
  | _, _ => None
  end.
Definition short_name (fields : list (Z * bytes)) : bytes :=
  default [] (snd <$> head (List.filter (λ f : Z * bytes, f.1 =? 1) fields)).
Definition short_file (data : bytes) : option (list (Z * bytes)) := short_fields (length data) data.
(** The messages are at 65536 and on. *)
Definition short_create (s : DescriptorPool.upb_DefPool) (fields : list (Z * bytes))
  : list (bytes * DescriptorPool.deftype * Z) * option bytes :=
  (imap (λ i m, (short_name (default [] (short_fields (length m) m)), DescriptorPool.MSG, 65536 + 16 * Z.of_nat i))
     (omap (λ f : Z * bytes, if f.1 =? 4 then Some f.2 else None) fields), None).

Example descriptor_pool_report :
  report (descriptor_pool_main short_file short_name short_create (λ _, str "test.proto") (λ _, 0))
    (DescriptorPool.no_pools 100000) = Some (Some 15, 15, []).
Proof. vm_compute. reflexivity. Qed.

(** ** 050_convert.c, its test of the cache *)

Section Objects.
Context {V : Type} `{FieldValues V}.
(** The stashes of message classes, as [Messages] has them; [CLASS], their superclass. *)
Context (derived : string → string → bool) (message_stash : Z → string).

(** [PerlUpb_Arena_New]. *)
Definition Arena_New : cmd (mworld V) psv := o ← on_perl (new_object arena_object); mret (PRef o).
Definition SvREFCNT_dec_sv (sv : psv) : cmd (mworld V) unit :=
  match sv with PRef o => SvREFCNT_dec o | _ => mret tt end.

(** The message of type [mdef], if the pool knows the type, is made at [made]. *)
Definition test_cache_identity (mdef : option Z) (made : Z) (arena_sv : psv) : test (mworld V) unit :=
  ok (bool_decide (is_Some mdef)) "Cache/identity: Got MessageDef";;
  match mdef with
  | None => mret tt
  | Some mdef =>
      msg ← prog (upb_Message_New (referent arena_sv) mdef made);
      sv1 ← prog (WrapMessage message_stash msg mdef (Some arena_sv) 0);
      sv2 ← prog (WrapMessage message_stash msg mdef (Some arena_sv) 0);
      ok true "Cache/identity: sv1 is not NULL";;
      ok (referent sv1 =? referent sv2) "Cache/identity: Same message pointer returns same underlying SV";;
      prog (SvREFCNT_dec_sv sv1);;
      prog (SvREFCNT_dec_sv sv2)
  end.

(** ** 130_extension_dict.c *)

Context (field_at : Z → option field) (pool_of : Z → Z → option field) (table : Z → list field).
Context (nonempty : FieldDef → V → bool).
Notation TE := (test (ExtensionDict.eworld V)).

Definition on_messages {A} (m : cmd (mworld V) A) : TE A := prog (ExtensionDict.on_msgs m).
Definition field_wrapper (f : Z) : TE psv := on_messages (on_perl (Descriptors.FieldDef_GetWrapper f)).
Definition get_item (dict : Z) (field_sv : psv) : TE sv :=
  prog (ExtensionDict.ExtensionDict_GetItem derived field_at dict (Some field_sv)).
Definition set_item (dict : Z) (field_sv : psv) (v : bytes) : TE unit :=
  prog (ExtensionDict.ExtensionDict_SetItem derived field_at dict (Some field_sv) (PV v false) true).
Definition IsExtension (f : Z) : bool := match field_at f with Some fd => is_extension fd | None => false end.

(** The loop over the iterator: it answers [count]; [fuel], a bound on the extensions. *)
Fixpoint iterate (fuel : nat) (iter ext : Z) (count : Z) : TE Z :=
  match fuel with
  | O => cfault "fuel"
  | S fuel =>
      next ← prog (ExtensionDict.ExtensionDict_Iterator_Next derived pool_of table nonempty iter);
      match next with
      | None => mret count
      | Some fd =>
          next_f ← field_wrapper (fptr fd);
          f_raw ← on_messages (on_perl (Descriptors.FieldDef_GetField derived (Some next_f)));
          ok (IsExtension f_raw) "Iterator returned an extension";;
          is_i f_raw ext "It's the expected extension";;
          on_messages (SvREFCNT_dec_sv next_f);;
          iterate fuel iter ext (count + 1)
      end
  end.

Definition extension_todos : TE unit :=
  TODO "Implement Cross-Arena Extension Copy Stress tests"
    (ok false "Deep-copy logic for extensions between messages on different arenas verified");;
  TODO "Implement Audit/Trace for Extension Access"
    (ok false "Trace logging for extension inflation and discard events");;
  TODO "Verify ExtensionDict stability during re-parsing of parent message"
    (ok false "Wrappers remain valid or are safely invalidated when parent message is re-parsed");;
  TODO "Implement Predictive Extension Pre-fetching during parsing"
    (ok false "Extension descriptors are resolved and cached during the main parse pass");;
  TODO "Implement Self-Healing Extension Consistency background auditing"
    (ok false "System detects and reports when reified extensions are incompatible with new pool versions");;
  TODO "Implement Vectorized Bulk Extension Access for high-throughput projection"
    (ok false "Retrieve all reified extensions in a single XS call to minimize conversion overhead").

(** The values of the extension through the dictionary. *)
Definition extension_values (dict : Z) (ext_field_sv : psv) : TE unit :=
  val0 ← get_item dict ext_field_sv;
  is_string (ConvertTests.SvPV val0) [] "Default value for extension_string is empty string";;
  set_item dict ext_field_sv (str "val 1");;
  val1_ret ← get_item dict ext_field_sv;
  is_string (ConvertTests.SvPV val1_ret) (str "val 1") "Set/Get roundtrip matches";;
  set_item dict ext_field_sv (str "val 2");;
  val2_ret ← get_item dict ext_field_sv;
  is_string (ConvertTests.SvPV val2_ret) (str "val 2") "Overwrite matches".

(** [ext], [normal]: the extension and the field number 1; the structures and scalars of
    the dictionary and of the iterator at [p], [h], [p'], [h']. *)
Definition extension_dict_main (loaded : bool) (mdef ext normal made p h p' h' : Z) : TE Z :=
  plan 17;;
  arena_sv ← on_messages Arena_New;
  if negb loaded then fail "Failed to load test descriptors";; mret 1
  else
    ok true "Descriptors loaded";;
    msg ← on_messages (upb_Message_New (referent arena_sv) mdef made);
    message_sv ← on_messages (WrapMessage message_stash msg mdef (Some arena_sv) 0);
    dict ← prog (ExtensionDict.ExtensionDict_New message_sv p h);
    ok true "Created ExtensionDict";;
    ext_field_sv ← field_wrapper ext;
    extension_values dict ext_field_sv;;
    iter ← prog (ExtensionDict.ExtensionDict_GetIterator dict p' h');
    count ← iterate 3 (default 0 iter) ext 0;
    is_i count 1 "Correct number of extensions iterated";;
    prog (ExtensionDict.ExtensionDictIterator_Free (default 0 iter));;
    ok (IsExtension ext) "Verify IsExtension true";;
    ok (negb (IsExtension normal)) "Verify IsExtension false for normal field";;
    ok true "Croak test for normal field (skipped in C)";;
    extension_todos;;
    on_messages (SvREFCNT_dec_sv ext_field_sv);;
    prog (ExtensionDict.ExtensionDict_Free dict);;
    on_messages (SvREFCNT_dec_sv message_sv);;
    on_messages (SvREFCNT_dec_sv arena_sv);;
    mret 0.
End Objects.

(** ** The tests pass *)

(** Values of the two fields, as [SvToUpb] and [UpbToSv] convert them. *)
#[local] Instance converted : FieldValues value := {|
  fv_default _ := VStr [];
  fv_to_sv := convert_singular_to_sv;
  fv_of_sv s f := @Convert.SvToUpb digit_num (λ _, []) (λ _, true) s f;
|}.

(** The extension at 64 and field 1 at 80, of the type at 7. *)
Definition test_field (f : Z) : option field :=
  if f =? 64 then Some {| fptr := 64; fdef := field0 "extension_string" 100 TString; is_extension := true; has_presence := true |}
  else if f =? 80 then Some {| fptr := 80; fdef := field0 "value" 1 TInt32; is_extension := false; has_presence := true |}
  else None.
Definition test_table (_ : Z) : list field := match test_field 80 with Some fd => [fd] | None => [] end.
Definition extension_run : test (ExtensionDict.eworld value) Z :=
  extension_dict_main is_a one_stash test_field (λ _, test_field) test_table (λ _ _, true)
    true 7 64 80 16 1000 1 2000 2.

Example extension_dict_report :
  report extension_run (ExtensionDict.Build_eworld (no_messages 8) ∅ ∅) = Some (Some 17, 17, []).
Proof. vm_compute. reflexivity. Qed.

(** All its references are given back: no object, no structure and no scalar with an
    address is left. *)
Example extension_dict_clean :
  let w := (extension_run (ExtensionDict.Build_eworld (no_messages 8) ∅ ∅, tap0)).2.1 in
  objects (perl (ExtensionDict.mw w)) = ∅ ∧ ExtensionDict.structs w = ∅.
Proof. vm_compute. done. Qed.

Example cache_identity_report :
  report (arena_sv ← prog (Arena_New (V := value)); test_cache_identity one_stash (Some 7) 16 arena_sv)
    (no_messages 8) = Some (None, 3, []).
Proof. vm_compute. reflexivity. Qed.
